(* ===== verification/_CoqProject ===== *)
-Q . S2P
Prelude.v
Base64.v
Storage.v
Clock.v
ReplicationLog.v
Crdt.v
Rga.v
Conflict.v
Paxos.v
TwoPC.v
Mvcc.v
Quorum.v
HashRing.v
Sha256.v
Merkle.v
Linearizability.v
Wal.v
Swim.v
Consistency.v
SimClock.v
Transport.v
Events.v
Node.v
MultiLeader.v
Leaderless.v
LeaderlessQuorum.v
SingleLeader.v
Raft.v
Cluster.v
Membership.v
ClusterQuorum.v
Convergence.v
Demos.v
Persistence.v
Metrics.v
Scenarios.v
Checks.v
Gateway.v
Cli.v
Stream.v
Ops.v
Startup.v
Runtime.v
ClusterRuntime.v
Service.v
LeaderService.v
