(* ===== verification/Prelude.v ===== *)
(** * Verification of the replication-strategies simulator

    The program is a Go service that simulates replicated key-value stores. A cluster is a set of
    nodes of one strategy (single leader, multi leader, leaderless, Raft) that exchange messages over
    an in-memory network with configurable latency, loss and partitions. Around the nodes stand
    libraries: storage and clocks, conflict resolution and CRDTs, session guarantees, consensus and
    commit protocols, membership, and checkers that judge what a cluster did. An orchestrator creates
    and changes clusters, saves them in a database, and runs scripted scenarios on them; an HTTP
    gateway and a command-line tool call it. This library models them as executable functions, one
    file per package or part of one, and proves what each is for.

    ** Files

    - [Prelude]: machine integers, Go's string order, [sort.Slice] on total orders, [sort.Search],
      the [Res] monad ([Ok] or a Go panic), list lemmas, automation.
    - [Base64]: [encoding/base64], with the proof that it loses nothing.
    - [Storage] ([internal/storage]): vector clocks, the versioned store, log entries.
    - [Clock] ([internal/clock/hlc.go]): the hybrid logical clock.
    - [ReplicationLog] ([internal/replication/log.go]): the indexed log with truncation, compaction
      and snapshots.
    - [Crdt], [Rga] ([internal/conflict/crdt.go, crdt_types.go, rga.go]): counters, sets, registers,
      maps and the replicated sequence, behind the class [Crdt].
    - [Conflict] ([internal/conflict]): the conflict resolvers, as the record [ConflictResolver].
    - [Paxos] ([internal/paxos]): acceptors, the proposer, multi-decree Paxos.
    - [TwoPC] ([internal/twopc]): the coordinator, against the class [Participant], and the in-memory
      participant that implements it.
    - [Mvcc] ([internal/mvcc]), [Quorum] ([internal/quorum]), [HashRing] ([internal/hashring]).
    - [Sha256], [Merkle] ([internal/antientropy/merkle.go]): the hash as a function on bytes, the tree
      and its comparison.
    - [Linearizability] ([internal/checker/linearizability.go]): the history checker.
    - [Wal] ([internal/durability/wal.go]), [Swim] ([internal/swim/swim.go]).
    - [Consistency] ([internal/consistency]): five session guarantees, behind the classes
      [ConsistencyGuarantee] and [ClockGuarantee].
    - [SimClock] ([internal/simclock/clock.go]): the virtual clock on a binary heap, with the sift
      operations of [container/heap].
    - [Transport] ([internal/transport]): messages, and the network with its link workers as steps.
    - [Events] ([internal/events/bus.go], [internal/simulation/history.go]): the event bus and the
      replayable history.
    - [Node] ([internal/node/base.go]): the state every node shares.
    - [SingleLeader] ([internal/node/leader.go, follower.go]): leader and follower, and a system of
      them on a network that loses, reorders and duplicates messages, in which client calls interleave.
    - [MultiLeader] ([internal/node/multileader.go]): the multi-leader node, and a system of them on a
      network that loses, reorders and duplicates messages.
    - [Leaderless], [LeaderlessQuorum] ([internal/node/leaderless.go]): the leaderless node with its
      quorums, sloppy stand-ins, hints and repairs; and a system of them with its proofs.
    - [Raft] ([internal/node/raft.go]): the Raft node, and a cluster on a network that loses and
      reorders messages.
    - [Cluster], [Membership] ([internal/simulation/orchestrator.go, membership.go, observability.go,
      captheorem.go, presets.go], [internal/node/node.go]): clusters of nodes of any kind behind the
      class [HasBase], their creation, membership, faults, routing and classification; and the proofs
      about membership.
    - [Convergence] ([internal/simulation/convergence.go, antientropy.go, membership.go]): the
      convergence check, the anti-entropy pass and [SafeAddNode].
    - [ClusterQuorum]: from a cluster's configuration to the guarantees of its nodes.
    - [Demos] ([internal/simulation/demos.go]): the demos, as runs of the components above.
    - [Persistence] ([internal/persistence/db.go], [persistCluster] and [Restore] of the orchestrator,
      [history.go]): the tables, and the server with restarts as a step system.
    - [Metrics] ([internal/metrics/collector.go], [internal/failure/phi.go]): latency windows and
      percentiles, the phi-accrual failure detector and the heartbeat loop.
    - [Scenarios] ([internal/simulation/scenarios.go, scenario_engine.go, scenario_yaml.go,
      strategy_race.go]): the scripts as programs over the calls they make.
    - [Checks] ([internal/simulation/checkers.go, captheorem.go], [internal/quorum/calculator.go],
      [internal/config/config.go]): invariant reports, the stale-read estimate and grading, and the
      configuration of the server.
    - [Gateway] ([gateway/rest.go, features.go, ops.go, server.go], [internal/simulation/export.go]): the
      routes and handlers as programs over the calls of the orchestrator.
    - [Cli] ([cmd/replsim/main.go]): the commands and their exit codes.
    - [Stream] ([gateway/websocket.go]): the event stream of the web socket on the event bus.
    - [Ops] ([gateway/ops.go], [GetState] of clusters and nodes): reported states, the metrics page and the
      writer of the request log.
    - [Startup] ([cmd/server/main.go]): the server process from its flags to its clean-up.
    - [Runtime] (the message loops of the nodes): a system of nodes of any strategy, behind the class
      [System], on the network fabric of [Transport], and its simulation by the system on its own network.
    - [ClusterRuntime]: the clusters the orchestrator builds, running on that fabric.
    - [Service] ([Write], [Delete], [Read] of [internal/simulation/orchestrator.go]): client calls with
      their routing, clock readings, recorded operations, counters and events, as concurrent programs over
      the methods of a node, behind the classes [Backend] and [Register].
    - [LeaderService]: the single-leader cluster as an instance of [Service].

    ** How the code is modelled

    A struct is a record and a method a function from the receiver to the new receiver and the
    result; mutexes disappear, because each locked region is one step. Code that blocks is cut where
    it waits: a client call returns the messages it sends and what it waits for, and a second function
    says how the wait ends. A call that holds no lock is several steps, which interleave with those of
    other calls. Messages a handler sends are part of its result. A system of nodes is a state with a step
    function over explicit actions, so a theorem about all lists of actions is a theorem about all
    interleavings. The systems have a network of their own that does with messages what it likes; the
    real fabric, with its links, inboxes, latencies, drops and partitions, is put under them once, in
    [Runtime], by a simulation. Readings of the wall clock, random draws, expired timers and the
    order in which Go walks a map are arguments, and the theorems hold for all of them. Scripts, HTTP
    handlers and commands are programs over a type of calls, and their meaning is given for any
    function that answers the calls: what is proved of them holds whatever the cluster does meanwhile.

    A Go [string] is a [string]; a byte slice an [option string], [None] being nil; a map a [gmap];
    a nil clock [None]. Counters and timestamps keep their width where the code can reach it (the
    logical clock, vector clocks, incarnations, timers, hashing). Log indices, terms and sequence
    numbers are [nat]: they grow by one per operation from zero and the code never wraps them.
    A [float64] is binary64 in the arithmetic of [Floats.SpecFloat] where the code computes with it
    (metrics, the failure detector, the stale-read estimate) and an abstract type with its comparison
    in the network. The JSON encodings of stores, CRDTs and events are
    parameters with the round-trip they document as a hypothesis, where one is needed.

    ** What is shown

    - Clusters as the orchestrator builds them, on the fabric: at most one Raft leader per term, with no
      panic in any run ([created_raft_election_safety], from [raft_election_safety]); followers are
      prefixes of their leader ([created_single_leader_prefix], from [single_leader_prefix]); multi-leader
      nodes hold the newest write their clocks cover ([created_multi_leader_converges], from
      [multi_leader_converges]); a leaderless configuration classified as consistent gives reads that see
      confirmed writes ([created_quorum_consistent], from [created_cluster_quorum_consistent]).
    - Client calls, end to end: however calls to the leader of a cluster interleave, once they have
      returned the counters are right and the linearizability checker accepts what was recorded, if the
      cluster is asynchronous or no call failed ([created_leader_linearizable]).
    - Agreement: a single Paxos value under any interleaving ([paxos_agreement]), with the real proposer a
      run of the interleaved one ([propose_refines]); atomic commitment across crash and recovery
      ([two_phase_commit_atomic]).
    - Replication: a follower catches up in one exchange ([follower_catches_up]), an acknowledged write is
      where the mode says ([replication_modes_durable]), and calls that do not overlap leave leader and
      followers with the same content ([serial_calls_agree]); the log's merge and compaction meet their reference
      ([append_after_is_merge], [compact_transparent]); links are FIFO ([fabric_fifo]). Multi-leader
      nodes agree after one exchange ([multi_leader_antientropy]).
    - Operations on clusters: members, nodes and network stay in step
      ([cluster_membership_wf]); a node is added safely ([safe_add_node_correct]); an anti-entropy pass
      leaves the newest content everywhere ([anti_entropy_converges]), also after a copy was corrupted
      ([corruption_healed]).
    - Restarts, scripts and interfaces: a restart brings back what was saved ([restart_recovers]);
      scenarios run to their end ([scenario_outcomes]) and races clean up ([race_leaves_nothing]);
      requests about a missing cluster are refused and GET requests change nothing
      ([missing_cluster_refused], [get_requests_change_nothing]); [demos_resume_replica],
      [cors_allow_list], [check_exit_code] and [startup_configuration] treat the rest of the surface, and
      [web_socket_stream] says what a client of the event stream receives.
    - Convergence: CRDT merges are joins ([counters_converge], [orset_converges_add_wins],
      [lww_converges], [rga_converges]) and the vector-clock resolver agrees with last-write-wins
      ([vector_clock_resolver_converges]); Merkle comparison finds exactly the difference
      ([merkle_diff_correct], for a hash without collisions on the two stores).
    - Checkers and guarantees: the linearizability search is sound and complete
      ([checker_sound_and_complete]), and so are the convergence check and the invariant report
      ([convergence_check_exact], [invariant_report_exact]); session guarantees accept exactly the right reads
      ([session_guarantees_exact]).
    - Time and storage: timestamps are strictly monotone ([hlc_strictly_monotone]); the heap clock
      fires as a sorted list would ([virtual_clock_refines]); snapshots read the right version
      ([mvcc_snapshot_reads], [mvcc_compact_safe]); the write-ahead log loses what its mode allows and
      no more ([wal_durability]); history replays ([history_replay]).
    - Numbers: percentiles are exact although ranks are computed in floating point
      ([latency_percentiles_exact]), suspicion depends on a bounded window ([suspicion_window]), and the
      stale-read estimate is a quotient of exact binomials ([stale_read_estimate]).
    - Placement and membership: rings move only what they must ([ring_minimal_disruption]), quorums
      intersect exactly when they say ([quorum_overlap]), beliefs only move forward
      ([swim_views_grow]).
    - Where the code falls short, on concrete runs: [raft_commits_unreplicated],
      [raft_single_node_never_leads], [batch_not_atomic], [swim_gossiped_suspicion_unclocked],
      [swim_dead_diverges], [merkle_diff_misses], [history_evicted_gap], [sloppy_quorum_read_misses],
      [safe_add_node_window], [racing_writes_diverge], [history_accuses_correct_reads], [metrics_labels],
      [leaderless_digest_read_loses_value], [hinted_handoff_forgets],
      [add_after_remove_overwrites], [remove_leader_strands], [restart_anomalies], [scenario_crashes].

    ** Fuel

    Loops that are not structural take fuel, and lemmas show it is never exhausted: the carry of the
    logical clock takes one step per 65536 units, binary search one per halving, the sequence walk one
    level per element, the checker one level per operation, the heap one per level, the follower's
    apply loop one per buffered entry, the Raft apply loop one per index, and the wait for a Raft leader
    one per 20 milliseconds of its two seconds.

    ** What is not modelled

    Tracing and OpenTelemetry, which only move bytes through libraries; the texts of lessons, glossary,
    documentation, narratives, notes and error messages; parsing of JSON, YAML and flags and the SQLite
    engine, which are parameters or tables. Inside the modelled parts, log lines and published events are
    left out unless a component keeps them. The handlers of the gateway and the scripts are proved for any
    orchestrator behind their calls: [Service] gives the client calls and [LeaderService] an orchestrator
    of one single-leader cluster, but the hundred calls together are not one executable server. Clusters
    run on the fabric with the membership they were created with; changes of membership are proved on the
    cluster itself, in [Membership] and [Convergence]. *)

From stdpp Require Export prelude gmap strings list sorting.
From Stdlib Require Import OrderedTypeEx.

(** ** Notations, automation and hint databases *)

Declare Scope repl_scope.
Delimit Scope repl_scope with repl.

(** Lemmas that rewrite away map reads and writes. *)
Create HintDb repl.
Create Rewrite HintDb repl.

(** Splits every remaining [if]/[match] of the goal and of the hypotheses, and closes what
    the equations contradict. *)
Ltac split_cases :=
  repeat (case_match || case_decide || case_bool_decide); simplify_eq/=; try done.

(** ** Machine integers

    Go's [uint64] and [int64] wrap around; a uint64 that is only counted up or compared is an
    [N], one that is subtracted from or shifted is a [Z] with its wrap written out. *)

Definition two64 : Z := 18446744073709551616.
Definition two63 : Z := 9223372036854775808.
Definition two64N : N := 18446744073709551616.

Definition u64 (z : Z) : Z := z `mod` two64.
Definition i64 (z : Z) : Z := (z + two63) `mod` two64 - two63.
Definition u64N (n : N) : N := (n `mod` two64N)%N.

Definition in_u64 (z : Z) : Prop := (0 ≤ z < two64)%Z.
Definition in_i64 (z : Z) : Prop := (- two63 ≤ z < two63)%Z.

Lemma u64_id z : in_u64 z → u64 z = z.
Proof. intros. by apply Z.mod_small. Qed.

Lemma i64_id z : in_i64 z → i64 z = z.
Proof.
  unfold in_i64, i64, two63, two64. intros. rewrite Z.mod_small; lia.
Qed.

Lemma u64_range z : in_u64 (u64 z).
Proof. by apply Z.mod_pos_bound. Qed.

Lemma i64_range z : in_i64 (i64 z).
Proof.
  unfold in_i64, i64.
  pose proof (Z.mod_pos_bound (z + two63) two64 eq_refl). unfold two63, two64 in *. lia.
Qed.

Lemma u64N_id n : (n < two64N)%N → u64N n = n.
Proof. intros. by apply N.mod_small. Qed.

Lemma u64N_lt n : (u64N n < two64N)%N.
Proof. by apply N.mod_lt. Qed.

(** ** The order of Go strings

    Go compares strings bytewise; [String.compare] is that comparison on byte strings. *)

Definition str_lt (a b : string) : Prop := String.compare a b = Lt.
Definition str_ltb (a b : string) : bool :=
  match String.compare a b with Lt => true | _ => false end.
Definition str_leb (a b : string) : bool := negb (str_ltb b a).

#[export] Instance str_lt_dec : RelDecision str_lt.
Proof. intros a b. unfold str_lt. solve_decision. Defined.

Lemma str_compare_cmp a b : String.compare a b = String_as_OT.cmp a b.
Proof. done. Qed.

#[export] Instance str_lt_trans : Transitive str_lt.
Proof.
  intros a b c. unfold str_lt. rewrite !str_compare_cmp, !String_as_OT.cmp_lt.
  apply String_as_OT.lt_trans.
Qed.

Lemma str_compare_refl a : String.compare a a = Eq.
Proof.
  pose proof (String.compare_antisym a a). by destruct (String.compare a a).
Qed.

#[export] Instance str_lt_irrefl : Irreflexive str_lt.
Proof. intros a. unfold str_lt, complement. by rewrite str_compare_refl. Qed.

#[export] Instance str_lt_strict : StrictOrder str_lt.
Proof. split; apply _. Qed.

Lemma str_lt_trichotomy a b : str_lt a b ∨ a = b ∨ str_lt b a.
Proof.
  unfold str_lt. rewrite (String.compare_antisym b a).
  destruct (String.compare a b) eqn:E; simpl; auto.
  right; left. by apply String.compare_eq_iff.
Qed.

Lemma str_ltb_lt a b : str_ltb a b = true ↔ str_lt a b.
Proof. unfold str_ltb, str_lt. by destruct (String.compare a b). Qed.

Lemma str_ltb_nlt a b : str_ltb a b = false ↔ ¬ str_lt a b.
Proof. rewrite <- str_ltb_lt. by destruct (str_ltb a b). Qed.

Lemma str_ltb_irrefl a : str_ltb a a = false.
Proof. apply str_ltb_nlt, str_lt_irrefl. Qed.

Lemma str_lt_asym a b : str_lt a b → ¬ str_lt b a.
Proof. intros H1 H2. destruct (str_lt_irrefl a). by transitivity b. Qed.

Lemma str_ltb_antisym a b : str_ltb a b = false → str_ltb b a = false → a = b.
Proof.
  rewrite !str_ltb_nlt. intros. by destruct (str_lt_trichotomy a b) as [?|[?|?]].
Qed.

Lemma str_ltb_asym a b : str_ltb a b = true → str_ltb b a = false.
Proof. rewrite str_ltb_lt, str_ltb_nlt. apply str_lt_asym. Qed.

Lemma str_leb_total a b : str_leb a b = true ∨ str_leb b a = true.
Proof.
  unfold str_leb. destruct (str_ltb b a) eqn:E; simpl; auto.
  right. apply str_ltb_asym in E. by rewrite E.
Qed.

Lemma str_leb_trans a b c : str_leb a b = true → str_leb b c = true → str_leb a c = true.
Proof.
  unfold str_leb. rewrite !negb_true_iff, !str_ltb_nlt. intros H1 H2 H3.
  destruct (str_lt_trichotomy a b) as [Hab|[->|Hba]]; [|done|done].
  apply H2. by transitivity a.
Qed.

Lemma str_leb_antisym a b : str_leb a b = true → str_leb b a = true → a = b.
Proof.
  unfold str_leb. rewrite !negb_true_iff. intros. by apply str_ltb_antisym.
Qed.

(** ** Reads of a Go map: the zero value for a missing key *)

Definition get0 (m : gmap string N) (k : string) : N := default 0%N (m !! k).

Notation "m .[ k ]" := (get0 m k) (at level 1, k at level 200, left associativity, format "m .[ k ]") : repl_scope.
Open Scope repl_scope.

Lemma get0_insert (m : gmap string N) k v k' :
  (<[k:=v]> m).[k'] = if decide (k = k') then v else m.[k'].
Proof.
  unfold get0. destruct (decide (k = k')) as [->|].
  - by rewrite lookup_insert_eq.
  - by rewrite lookup_insert_ne.
Qed.

Lemma get0_empty k : get0 ∅ k = 0%N.
Proof. unfold get0. by rewrite lookup_empty. Qed.

#[export] Hint Rewrite get0_insert get0_empty : repl.

(** ** [sort.Slice] and [sort.Strings]: sorting by a boolean order *)

Section isort.
Context {A : Type} (leb : A → A → bool).

Fixpoint insert_sorted (x : A) (l : list A) : list A :=
  match l with
  | [] => [x]
  | y :: l' => if leb x y then x :: y :: l' else y :: insert_sorted x l'
  end.

Fixpoint isort (l : list A) : list A :=
  match l with
  | [] => []
  | x :: l' => insert_sorted x (isort l')
  end.

Lemma insert_sorted_perm x l : insert_sorted x l ≡ₚ x :: l.
Proof.
  induction l as [|y l IH]; simpl; [done|].
  destruct (leb x y); [done|]. by rewrite IH, Permutation_swap.
Qed.

Lemma isort_perm l : isort l ≡ₚ l.
Proof. induction l as [|x l IH]; simpl; [done|]. by rewrite insert_sorted_perm, IH. Qed.

Lemma elem_of_isort x l : x ∈ isort l ↔ x ∈ l.
Proof. by rewrite isort_perm. Qed.

Lemma length_isort l : length (isort l) = length l.
Proof. by rewrite isort_perm. Qed.

Lemma NoDup_isort l : NoDup (isort l) ↔ NoDup l.
Proof. by rewrite isort_perm. Qed.

Context (leb_total : ∀ x y, leb x y = true ∨ leb y x = true).
Context (leb_trans : ∀ x y z, leb x y = true → leb y z = true → leb x z = true).

Lemma insert_sorted_sorted x l : StronglySorted leb l → StronglySorted leb (insert_sorted x l).
Proof using leb_total leb_trans.
  induction 1 as [|y l Hl IH Hy]; simpl.
  { constructor; constructor. }
  destruct (leb x y) eqn:E.
  - constructor; [by constructor|]. constructor; [by rewrite E|].
    eapply Forall_impl; [exact Hy|]. intros z Hz. apply Is_true_true in Hz.
    apply Is_true_true. by eapply leb_trans.
  - constructor; [done|]. rewrite insert_sorted_perm. constructor; [|done].
    apply Is_true_true. destruct (leb_total x y); congruence.
Qed.

Lemma isort_sorted l : StronglySorted leb (isort l).
Proof using leb_total leb_trans.
  induction l as [|x l IH]; simpl; [constructor|]. by apply insert_sorted_sorted.
Qed.

(** Two permutations of each other sort to the same list when the order tells their elements
    apart. *)
Lemma isort_unique l1 l2 :
  (∀ x y, x ∈ l1 → y ∈ l1 → leb x y = true → leb y x = true → x = y) →
  l1 ≡ₚ l2 → isort l1 = isort l2.
Proof using leb_total leb_trans.
  intros Hanti Hp.
  apply (StronglySorted_unique_strong leb).
  - intros x y Hx Hy ?%Is_true_true ?%Is_true_true.
    apply Hanti; [by apply elem_of_isort| |done|done].
    rewrite Hp. by apply elem_of_isort.
  - by apply isort_sorted.
  - by apply isort_sorted.
  - by rewrite !isort_perm.
Qed.
End isort.

Definition sort_strings : list string → list string := isort str_leb.

Lemma sort_strings_perm l1 l2 : l1 ≡ₚ l2 → sort_strings l1 = sort_strings l2.
Proof.
  apply isort_unique.
  - apply str_leb_total.
  - intros *. apply str_leb_trans.
  - intros *. intros _ _. apply str_leb_antisym.
Qed.

Lemma sort_strings_sorted l : StronglySorted str_leb (sort_strings l).
Proof. apply isort_sorted; [apply str_leb_total|intros *; apply str_leb_trans]. Qed.

Lemma elem_of_sort_strings x l : x ∈ sort_strings l ↔ x ∈ l.
Proof. apply elem_of_isort. Qed.

Lemma NoDup_sort_strings l : NoDup (sort_strings l) ↔ NoDup l.
Proof. apply NoDup_isort. Qed.

(** ** [sort.Search]: binary search for the first index at which a predicate turns true *)

Fixpoint search_loop (fuel : nat) (f : nat → bool) (i j : nat) : nat :=
  match fuel with
  | O => i
  | S fuel =>
      if i <? j then
        let h := ((i + j) / 2)%nat in
        if f h then search_loop fuel f i h else search_loop fuel f (S h) j
      else i
  end.

(** The interval halves, so [n] rounds always suffice. *)
Definition Search (n : nat) (f : nat → bool) : nat := search_loop n f 0 n.

Lemma Search_ext n f g : (∀ i, f i = g i) → Search n f = Search n g.
Proof.
  intros Hfg. unfold Search. generalize 0 as i. generalize n at 2 4 as j.
  induction n as [|n IH]; intros j i; [done|]. cbn [search_loop]. by rewrite Hfg, !IH.
Qed.

Lemma half_bounds i j : i < j → (i ≤ (i + j) / 2 < j)%nat.
Proof.
  intros. split; [apply Nat.div_le_lower_bound; lia|apply Nat.Div0.div_lt_upper_bound; lia].
Qed.

Lemma search_loop_spec fuel f i j n :
  j - i ≤ fuel → i ≤ j ≤ n →
  (∀ a b, a ≤ b < n → f a = true → f b = true) →
  let r := search_loop fuel f i j in
  i ≤ r ≤ j ∧ (∀ k, i ≤ k < r → f k = false) ∧ (∀ k, r ≤ k < j → f k = true).
Proof.
  intros Hf Hij Hmono. revert i j Hf Hij.
  induction fuel as [|fuel IH]; intros i j Hf Hij; cbn [search_loop].
  { split; [lia|split; intros; lia]. }
  destruct (Nat.ltb_spec i j) as [Hlt|Hge]; [|split; [lia|split; intros; lia]].
  pose proof (half_bounds i j Hlt) as Hh. revert Hh.
  generalize ((i + j) / 2)%nat. intros h Hh.
  destruct (f h) eqn:Eh.
  - destruct (IH i h ltac:(lia) ltac:(lia)) as (H1 & H2 & H3).
    split; [lia|split; [done|]]. intros k Hk.
    destruct (decide (k < h)); [apply H3; lia|]. apply (Hmono h k); [lia|done].
  - destruct (IH (S h) j ltac:(lia) ltac:(lia)) as (H1 & H2 & H3).
    split; [lia|split; [|done]]. intros k Hk.
    destruct (decide (k ≤ h)); [|apply H2; lia].
    destruct (f k) eqn:Ek; [|done]. apply (Hmono k h) in Ek; [congruence|lia].
Qed.

Lemma Search_spec n f :
  (∀ a b, a ≤ b < n → f a = true → f b = true) →
  Search n f ≤ n ∧ (∀ k, k < Search n f → f k = false) ∧ (∀ k, Search n f ≤ k < n → f k = true).
Proof.
  intros Hmono. destruct (search_loop_spec n f 0 n n ltac:(lia) ltac:(lia) Hmono) as (H1&H2&H3).
  unfold Search. split; [lia|]. split; [intros; apply H2; lia|done].
Qed.

(** ** Code that can panic

    An out-of-range slice access stops a Go program; [Panic] is that outcome. *)

Inductive Res (A : Type) : Type :=
  | Ok (a : A)
  | Panic.
Arguments Ok {_} _.
Arguments Panic {_}.

#[export] Instance Res_ret : MRet Res := λ A a, Ok a.
#[export] Instance Res_bind : MBind Res := λ A B f m,
  match m with Ok a => f a | Panic => Panic end.

Definition res_of {A} (o : option A) : Res A :=
  match o with Some a => Ok a | None => Panic end.

Lemma Res_bind_Ok {A B} (f : A → Res B) a : (Ok a ≫= f) = f a.
Proof. done. Qed.

Lemma res_of_Ok {A} (o : option A) a : res_of o = Ok a ↔ o = Some a.
Proof. destruct o; simpl; naive_solver. Qed.

(** ** More machine arithmetic: a sum wrapped at every step is the wrapped sum *)

Lemma i64_add_l x y : i64 (i64 x + y) = i64 (x + y).
Proof.
  unfold i64. f_equal.
  replace ((x + two63) `mod` two64 - two63 + y + two63)%Z
    with ((x + two63) `mod` two64 + y)%Z by lia.
  rewrite Z.add_mod_idemp_l by (unfold two64; lia). f_equal. lia.
Qed.

Lemma u64N_add_l x y : u64N (u64N x + y) = u64N (x + y).
Proof. unfold u64N. by rewrite N.Div0.add_mod_idemp_l. Qed.

(** ** Lists *)

(** An element of a duplicate-free list has one position. *)
Lemma app_split_NoDup {A} (l1 l2 r1 r2 : list A) x :
  NoDup (l1 ++ x :: l2) → l1 ++ x :: l2 = r1 ++ x :: r2 → l1 = r1.
Proof.
  revert r1. induction l1 as [|y l1 IH]; intros [|z r1] Hnd Heq; simpl in *; [done|..].
  - injection Heq as <- ->. apply NoDup_cons in Hnd as [[] _]. set_solver.
  - injection Heq as -> _. apply NoDup_cons in Hnd as [[] _]. set_solver.
  - injection Heq as <- Heq. apply NoDup_cons in Hnd as [_ Hnd]. f_equal. by apply IH.
Qed.

Lemma list_filter_iff' {A} (P Q : A → Prop) `{!∀ x, Decision (P x), !∀ x, Decision (Q x)} (l : list A) :
  (∀ x, x ∈ l → P x ↔ Q x) → filter P l = filter Q l.
Proof.
  induction l as [|x l IH]; intros HPQ; [done|].
  rewrite !filter_cons, IH by (intros; apply HPQ; by right).
  specialize (HPQ x ltac:(by left)). repeat case_decide; naive_solver.
Qed.

Lemma list_filter_nil_2 {A} (P : A → Prop) `{!∀ x, Decision (P x)} (l : list A) :
  (∀ x, x ∈ l → ¬ P x) → filter P l = [].
Proof.
  induction l as [|x l IH]; intros HPQ; [done|].
  rewrite filter_cons_False; [apply IH; intros; apply HPQ; by right|]. apply HPQ. by left.
Qed.

(** Two duplicate-free collections that together exceed the universe they are drawn from share a
    member: the overlap of quorums. *)
Lemma quorums_intersect {A} `{EqDecision A} (U l1 l2 : list A) :
  NoDup l1 → NoDup l2 → (∀ x, x ∈ l1 → x ∈ U) → (∀ x, x ∈ l2 → x ∈ U) →
  length U < length l1 + length l2 → ∃ x, x ∈ l1 ∧ x ∈ l2.
Proof.
  intros H1 H2 Hs1 Hs2 Hlen.
  destruct (decide (Exists (λ x, x ∈ l2) l1)) as [(x & ? & ?)%Exists_exists|Hno]; [eauto|].
  exfalso. assert (Hnd : NoDup (l1 ++ l2)).
  { apply NoDup_app. split_and!; [done| |done]. intros x Hx1 Hx2. apply Hno, Exists_exists. eauto. }
  assert (l1 ++ l2 ⊆+ U) as Hsub%submseteq_length.
  { apply NoDup_submseteq; [done|]. intros x [?|?]%elem_of_app; auto. }
  rewrite length_app in Hsub. lia.
Qed.

Lemma list_filter_all {A} (P : A → Prop) `{!∀ x, Decision (P x)} (l : list A) :
  (∀ x, x ∈ l → P x) → filter P l = l.
Proof.
  induction l as [|x l IH]; intros HP; [done|].
  rewrite filter_cons_True by (apply HP; by left). f_equal. apply IH. intros. apply HP. by right.
Qed.

(** Binary search in a sorted list splits it at the predicate. *)
Section sorted_split.
Context {A : Type} (R : relation A) (P : A → bool).
Context (P_mono : ∀ v w, R v w → P v = true → P w = true).

Lemma StronglySorted_lookup l i j x y :
  StronglySorted R l → i < j → l !! i = Some x → l !! j = Some y → R x y.
Proof.
  intros Hs. revert i j. induction Hs as [|z l _ IH Hz]; intros [|i] [|j] Hij Hi Hj; simpl in *;
    try done; try lia.
  - injection Hi as <-. rewrite Forall_forall in Hz. apply Hz. by eapply list_elem_of_lookup_2.
  - eapply IH; [|done..]. lia.
Qed.

(** The closure given to [sort.Search]; it is only called inside the list. *)
Definition at_index (d : bool) (l : list A) (i : nat) : bool :=
  match l !! i with Some v => P v | None => d end.

Lemma Search_index d l :
  StronglySorted R l →
  let i := Search (length l) (at_index d l) in
  i ≤ length l ∧ ∀ k v, l !! k = Some v → P v = bool_decide (i ≤ k).
Proof using P_mono.
  intros Hsorted i. destruct (Search_spec (length l) (at_index d l)) as (Hi & Hlt & Hge).
  - unfold at_index. intros a b [Hab Hb]. destruct (lookup_lt_is_Some_2 l b Hb) as [vb Eb].
    destruct (lookup_lt_is_Some_2 l a ltac:(lia)) as [va Ea]. rewrite Ea, Eb.
    destruct (decide (a = b)) as [->|]; [congruence|].
    apply P_mono. eapply StronglySorted_lookup; [done| |done..]. lia.
  - fold i in Hi, Hlt, Hge. split; [done|]. intros k v Hk. unfold at_index in Hlt, Hge.
    destruct (decide (i ≤ k)).
    + specialize (Hge k ltac:(apply lookup_lt_Some in Hk; lia)). rewrite Hk in Hge.
      by rewrite bool_decide_true.
    + specialize (Hlt k ltac:(lia)). rewrite Hk in Hlt. by rewrite bool_decide_false.
Qed.

Lemma sorted_split d l :
  StronglySorted R l →
  let i := Search (length l) (at_index d l) in
  i ≤ length l ∧ take i l = filter (λ v, P v = false) l ∧ drop i l = filter (λ v, P v = true) l.
Proof using P_mono.
  intros Hsorted i. destruct (Search_index d l Hsorted) as [Hi HP]. fold i in Hi, HP.
  split; [done|]. clearbody i.
  clear Hsorted P_mono. revert i Hi HP.
  induction l as [|v l IH]; intros i Hi HP; [by rewrite take_nil, drop_nil|].
  destruct i as [|i].
  - rewrite take_0, drop_0. assert (Hall : ∀ w, w ∈ v :: l → P w = true).
    { intros w [k Hk]%list_elem_of_lookup. rewrite (HP k w Hk). apply bool_decide_true. lia. }
    rewrite list_filter_nil_2 by (intros w ?%Hall; congruence).
    by rewrite list_filter_all.
  - simpl in Hi. destruct (IH i ltac:(lia)) as [Ht Hd].
    { intros k w Hk. rewrite (HP (S k) w Hk). apply bool_decide_ext. lia. }
    assert (HPv : P v = false) by (rewrite (HP 0 v eq_refl); apply bool_decide_false; lia).
    rewrite filter_cons_True by done. rewrite filter_cons_False by congruence.
    simpl. by rewrite Ht, Hd.
Qed.
End sorted_split.

Lemma last_app_ne {A} (l1 l2 : list A) : l2 ≠ [] → last (l1 ++ l2) = last l2.
Proof. intros. rewrite last_app. destruct (last l2) eqn:E; [done|]. by apply last_None in E. Qed.

Lemma app_cons_last {A} (l1 l2 : list A) x : l2 ≠ [] → last (l1 ++ x :: l2) = last l2.
Proof. intros. rewrite last_app_ne by done. by destruct l2. Qed.

Lemma StronglySorted_filter {A} (R : relation A) (P : A → Prop) `{!∀ x, Decision (P x)} l :
  StronglySorted R l → StronglySorted R (filter P l).
Proof.
  induction 1 as [|x l _ IH Hx]; [constructor|]. rewrite filter_cons. case_decide; [|done].
  constructor; [done|]. apply Forall_forall. intros y [_ Hy]%list_elem_of_filter.
  rewrite Forall_forall in Hx. auto.
Qed.

Lemma last_drop {A} n (l : list A) : n < length l → last (drop n l) = last l.
Proof.
  intros Hn. rewrite <-(take_drop n l) at 2. rewrite last_app_ne; [done|].
  intros Hnil%(f_equal length). rewrite length_drop in Hnil. simpl in Hnil. lia.
Qed.

Lemma list_filter_filter_comm {A} (P Q : A → Prop)
    `{!∀ x, Decision (P x), !∀ x, Decision (Q x)} (l : list A) :
  filter P (filter Q l) = filter Q (filter P l).
Proof.
  rewrite !list_filter_filter. apply list_filter_iff. intros x. naive_solver.
Qed.

Lemma elem_of_take_sub {A} n (l : list A) x : x ∈ take n l → x ∈ l.
Proof. intros Hx. rewrite <-(take_drop n l). set_solver. Qed.

(** Two sorted lists of distinct strings with the same members are the same list. *)
Lemma sorted_strings_unique l1 l2 :
  NoDup l1 → NoDup l2 → StronglySorted str_leb l1 → StronglySorted str_leb l2 →
  (∀ x, x ∈ l1 ↔ x ∈ l2) → l1 = l2.
Proof.
  intros H1 H2 Hs1 Hs2 Hin. apply (StronglySorted_unique_strong str_leb); [|done|done|].
  - intros x y _ _ Hxy%Is_true_true Hyx%Is_true_true. by apply str_leb_antisym.
  - by apply NoDup_Permutation.
Qed.

Lemma filter_fmap_swap {A B} (f : A → B) (P : B → Prop) `{!∀ x, Decision (P x)} (l : list A) :
  filter P (f <$> l) = f <$> filter (λ x, P (f x)) l.
Proof.
  induction l as [|x l IH]; [done|]. rewrite fmap_cons, !filter_cons, IH. by case_decide.
Qed.

Lemma omap_perm {A B} (f : A → option B) (l l' : list A) : l ≡ₚ l' → omap f l ≡ₚ omap f l'.
Proof.
  induction 1 as [|x l l' _ IH|x y l|l1 l2 l3 _ IH1 _ IH2]; simpl.
  - done.
  - destruct (f x); [by rewrite IH|done].
  - destruct (f x), (f y); try done. constructor.
  - by etransitivity.
Qed.

Lemma omap_all_None {A B} (f : A → option B) (l : list A) : (∀ x, x ∈ l → f x = None) → omap f l = [].
Proof.
  induction l as [|x l IH]; intros H; simpl; [done|]. rewrite (H x) by left. apply IH. intros. apply H. by right.
Qed.

(** What every step of a fold preserves. *)
Lemma foldl_inv {A B} (P : A → Prop) (f : A → B → A) (l : list B) : ∀ a,
  P a → (∀ a b, P a → P (f a b)) → P (foldl f a l).
Proof. induction l as [|b l IH]; intros a Ha Hf; simpl; auto. Qed.

(** The parts of a map's values, put together. *)
Section flat.
Context `{Countable K} {A B : Type} (g : A → list B).
Implicit Types m : gmap K A.

Definition flat (m : gmap K A) : list B := map_to_list m ≫= λ p, g p.2.

Lemma flat_insert_None m k v : m !! k = None → flat (<[k := v]> m) ≡ₚ g v ++ flat m.
Proof. intros Hk. unfold flat. by rewrite map_to_list_insert by done. Qed.

Lemma flat_delete m k v : m !! k = Some v → flat m ≡ₚ g v ++ flat (delete k m).
Proof. intros Hk. unfold flat. by rewrite <- (map_to_list_delete _ _ _ Hk). Qed.

(** Replacing one element: the new part is the old one with [ms] added. *)
Lemma flat_insert m k v ms : g v ≡ₚ ms ++ from_option g [] (m !! k) → flat (<[k := v]> m) ≡ₚ ms ++ flat m.
Proof.
  intros Hg. destruct (m !! k) as [w|] eqn:E; simpl in Hg.
  - rewrite <- insert_delete_eq, flat_insert_None, Hg, (flat_delete m k w E), (assoc_L (++)) by apply lookup_delete_eq. done.
  - rewrite flat_insert_None by done. by rewrite Hg, app_nil_r.
Qed.
End flat.

(** Filtering one element out of a list without duplicates. *)
Lemma length_filter_ne {A} `{EqDecision A} (l : list A) (x : A) :
  NoDup l → x ∈ l → length l = S (length (filter (λ y, y ≠ x) l)).
Proof.
  intros Hnd (l1 & l2 & ->)%list_elem_of_split. apply NoDup_app in Hnd as (_ & H1 & [H2 _]%NoDup_cons).
  rewrite filter_app, filter_cons_False by (by intros []).
  rewrite (list_filter_all _ l1), (list_filter_all _ l2);
    [|by intros y Hy ->|intros y Hy ->; apply (H1 x); [done|by left]].
  rewrite !length_app. simpl. lia.
Qed.
