(* ===== verification/Base64.v ===== *)
(** * Base64

    Models [base64.StdEncoding.EncodeToString] of Go's standard library, which the cluster checks use
    to print values.  [decode] is its inverse and is used in the proofs only. *)

From Stdlib Require Import Ascii.
From S2P Require Import Prelude.

Module Base64.
#[local] Open Scope N_scope.

Definition alphabet : string := "ABCDEFGHIJKLMNOPQRSTUVWXYZabcdefghijklmnopqrstuvwxyz0123456789+/".

Definition byte (c : Ascii.ascii) : N := Ascii.N_of_ascii c.

(** [enc.encode[val>>shift&0x3F]] *)
Definition digit (val : N) (shift : N) : Ascii.ascii :=
  default "A"%char (String.get (N.to_nat (N.land (N.shiftr val shift) 63)) alphabet).

Definition pad : Ascii.ascii := "="%char.

(** Three bytes give four digits; a rest of one or two bytes is padded. *)
Fixpoint encode (s : string) : string :=
  match s with
  | EmptyString => ""
  | String a EmptyString =>
      let val := N.shiftl (byte a) 16 in
      String (digit val 18) (String (digit val 12) (String pad (String pad "")))
  | String a (String b EmptyString) =>
      let val := N.lor (N.shiftl (byte a) 16) (N.shiftl (byte b) 8) in
      String (digit val 18) (String (digit val 12) (String (digit val 6) (String pad "")))
  | String a (String b (String c r)) =>
      let val := N.lor (N.lor (N.shiftl (byte a) 16) (N.shiftl (byte b) 8)) (byte c) in
      String (digit val 18) (String (digit val 12) (String (digit val 6) (String (digit val 0) (encode r))))
  end.

(** ** The inverse *)

Fixpoint index_of (c : Ascii.ascii) (s : string) (i : N) : N :=
  match s with
  | EmptyString => i
  | String a s => if Ascii.eqb a c then i else index_of c s (i + 1)
  end.

Definition value (c : Ascii.ascii) : N := index_of c alphabet 0.
Definition char (n : N) : Ascii.ascii := Ascii.ascii_of_N (n mod 256).

Fixpoint decode (s : string) : string :=
  match s with
  | String a (String b (String c (String d r))) =>
      let v := value a * 262144 + value b * 4096 in
      if Ascii.eqb c pad then String (char (v / 65536)) ""
      else
        let v := v + value c * 64 in
        if Ascii.eqb d pad then String (char (v / 65536)) (String (char (v / 256)) "")
        else
          let v := v + value d in
          String (char (v / 65536)) (String (char (v / 256)) (String (char v) (decode r)))
  | _ => ""
  end.

Lemma digit_ok n : n < 64 →
  let c := default "A"%char (String.get (N.to_nat n) alphabet) in value c = n ∧ Ascii.eqb c pad = false ∧ Ascii.eqb c "<"%char = false.
Proof.
  intros Hn. assert (Hall : forallb (λ k, let n := N.of_nat k in
    let c := default "A"%char (String.get k alphabet) in
    (value c =? n) && negb (Ascii.eqb c pad) && negb (Ascii.eqb c "<"%char)) (seq 0 64) = true) by (by vm_compute).
  rewrite forallb_forall in Hall. specialize (Hall (N.to_nat n)). cbv zeta in *.
  rewrite in_seq, N2Nat.id, !andb_true_iff, !negb_true_iff, N.eqb_eq in Hall. destruct Hall as [[? ?] ?]; [lia|]. done.
Qed.

Lemma land_63 n : N.land n 63 = n mod 64.
Proof. change 63 with (N.ones 6). by rewrite N.land_ones. Qed.

Lemma digit_spec val shift : value (digit val shift) = (val / 2 ^ shift) mod 64 ∧
  Ascii.eqb (digit val shift) pad = false ∧ Ascii.eqb (digit val shift) "<"%char = false.
Proof.
  unfold digit. rewrite land_63, N.shiftr_div_pow2. apply digit_ok. by apply N.mod_upper_bound.
Qed.

Lemma byte_lt c : byte c < 256.
Proof. destruct c as [[] [] [] [] [] [] [] []]; by vm_compute. Qed.

Lemma char_byte c : char (byte c) = c.
Proof. unfold char. rewrite N.mod_small by apply byte_lt. apply Ascii.ascii_N_embedding. Qed.

Ltac powers :=
  change (2 ^ 18) with 262144 in *; change (2 ^ 16) with 65536 in *; change (2 ^ 12) with 4096 in *;
  change (2 ^ 8) with 256 in *; change (2 ^ 6) with 64 in *; change (2 ^ 0) with 1 in *.

Ltac div_lia := zify; Z.to_euclidean_division_equations; lia.

(** Bytes packed by shifting do not overlap. *)
Lemma lor_shiftl a b k : b < 2 ^ k → N.lor (N.shiftl a k) b = a * 2 ^ k + b.
Proof.
  intros Hb. rewrite <- N.shiftl_mul_pow2, N.add_nocarry_lxor, N.lxor_lor; [done|..]; apply N.bits_inj_0; intros i;
    rewrite N.land_spec; (destruct (N.lt_ge_cases i k) as [Hi|Hi]; [by rewrite N.shiftl_spec_low|]);
    (destruct (decide (b = 0)) as [->|Hnz]; [by rewrite N.bits_0, andb_false_r|]);
    rewrite (N.bits_above_log2 b), ?andb_false_r; [done| |done|];
    (eapply N.lt_le_trans; [|exact Hi]); apply N.log2_lt_pow2; lia.
Qed.

Lemma pack3 a b c : N.lor (N.lor (N.shiftl (byte a) 16) (N.shiftl (byte b) 8)) (byte c) = byte a * 65536 + byte b * 256 + byte c.
Proof.
  pose proof (byte_lt b). pose proof (byte_lt c). rewrite <- N.lor_assoc, (lor_shiftl (byte b)), lor_shiftl by (powers; lia). powers. lia.
Qed.

Lemma pack2 a b : N.lor (N.shiftl (byte a) 16) (N.shiftl (byte b) 8) = byte a * 65536 + byte b * 256.
Proof. pose proof (byte_lt b). rewrite lor_shiftl, N.shiftl_mul_pow2; [done|rewrite N.shiftl_mul_pow2; powers; lia]. Qed.

(** Three bytes at a time. *)
Lemma string_ind3 (P : string → Prop) :
  P "" → (∀ a, P (String a "")) → (∀ a b, P (String a (String b ""))) →
  (∀ a b c r, P r → P (String a (String b (String c r)))) → ∀ s, P s.
Proof.
  intros H0 H1 H2 H3 s. assert (Hs : ∀ n s, (String.length s ≤ n)%nat → P s); [|by eapply Hs].
  intros n. induction n as [|n IH]; intros t Ht; destruct t as [|a [|b [|c r]]]; simpl in *; auto; try lia.
  apply H3, IH. lia.
Qed.

Lemma decode_encode s : decode (encode s) = s.
Proof.
  induction s as [|a|a b|a b c r IH] using string_ind3; [done|..]; cbn [encode]; rewrite ?pack3, ?pack2, ?N.shiftl_mul_pow2; cbn [decode].
  - pose proof (byte_lt a). set (v := byte a * 2 ^ 16). destruct (digit_spec v 18) as (-> & _), (digit_spec v 12) as (-> & _).
    rewrite Ascii.eqb_refl. set (x := _ + _ : N). assert (x = v) as -> by (unfold x, v; powers; div_lia).
    unfold v. f_equal. etransitivity; [|apply char_byte]. unfold char. powers. f_equal. div_lia.
  - pose proof (byte_lt a). pose proof (byte_lt b). set (v := byte a * 65536 + byte b * 256).
    destruct (digit_spec v 18) as (-> & _), (digit_spec v 12) as (-> & _), (digit_spec v 6) as (-> & -> & _).
    rewrite Ascii.eqb_refl. set (x := _ + _ + _ : N). assert (x = v) as -> by (unfold x, v; powers; div_lia).
    unfold v. f_equal; [|f_equal]; (etransitivity; [|apply char_byte]); unfold char; f_equal; div_lia.
  - pose proof (byte_lt a). pose proof (byte_lt b). pose proof (byte_lt c). set (v := byte a * 65536 + byte b * 256 + byte c).
    destruct (digit_spec v 18) as (-> & _), (digit_spec v 12) as (-> & _), (digit_spec v 6) as (-> & -> & _), (digit_spec v 0) as (-> & -> & _).
    set (x := _ + _ + _ + _ : N). assert (x = v) as -> by (unfold x, v; powers; div_lia).
    unfold v. rewrite IH. f_equal; [|f_equal; [|f_equal]]; (etransitivity; [|apply char_byte]); unfold char; f_equal; div_lia.
Qed.

Lemma encode_inj s t : encode s = encode t → s = t.
Proof. intros H. by rewrite <- (decode_encode s), H, decode_encode. Qed.

(** No encoding starts with a bracket, as the markers for missing and deleted keys do. *)
Lemma encode_no_marker s r : encode s ≠ String "<"%char r.
Proof.
  destruct s as [|a [|b [|c s]]]; cbn [encode]; intros [= H _];
    destruct (digit_spec (N.shiftl (byte a) 16) 18) as (_ & _ & H1);
    try destruct (digit_spec (N.lor (N.shiftl (byte a) 16) (N.shiftl (byte b) 8)) 18) as (_ & _ & H2);
    try destruct (digit_spec (N.lor (N.lor (N.shiftl (byte a) 16) (N.shiftl (byte b) 8)) (byte c)) 18) as (_ & _ & H3);
    rewrite ?H in *; done.
Qed.

End Base64.
