(* ===== verification/Storage.v ===== *)
(** * Vector clocks, log entries and the key/value store

    Models [src/internal/storage]: [entry.go] (vector clocks and the two entry types) and
    [store.go] (the per-node key/value store).  A vector clock is a finite map; a nil map, which
    Go reads as empty, is [None] in the entry types.  A byte slice is a byte string, [None] when
    nil.  The store's entries are values: [Set] and [Delete] copy the entry and clone its clock,
    so no two stores share a mutable clock. *)

From S2P Require Import Prelude.

Inductive OpType := OpSet | OpDelete.

#[export] Instance OpType_eq_dec : EqDecision OpType.
Proof. solve_decision. Defined.

(** ** Vector clocks *)

Module VectorClock.

Definition NewVectorClock : gmap string N := ∅.

Definition Increment (vc : gmap string N) (nodeID : string) : gmap string N :=
  <[nodeID := u64N (vc.[nodeID] + 1)]> vc.

Definition Merge (vc other : gmap string N) : gmap string N :=
  map_fold (λ nodeID ts acc, if (acc.[nodeID] <? ts)%N then <[nodeID := ts]> acc else acc)
    vc other.

(** The first loop of [HappensBefore]: [None] is its early [return false]. *)
Fixpoint hb_scan (other : gmap string N) (l : list (string * N)) (dominated : bool)
  : option bool :=
  match l with
  | [] => Some dominated
  | (nodeID, ts) :: l =>
      if (other.[nodeID] <? ts)%N then None
      else hb_scan other l (if (ts <? other.[nodeID])%N then true else dominated)
  end.

(** Its second loop: a node the receiver has never heard of. *)
Definition hb_new (vc : gmap string N) (l : list (string * N)) (dominated : bool) : bool :=
  foldl (λ d '(nodeID, ts),
    if bool_decide (vc !! nodeID = None) && (0 <? ts)%N then true else d) dominated l.

Definition HappensBefore (vc other : gmap string N) : bool :=
  match hb_scan other (map_to_list vc) false with
  | None => false
  | Some dominated => hb_new vc (map_to_list other) dominated
  end.

Definition Dominates (vc other : gmap string N) : bool :=
  forallb (λ '(nodeID, ts), negb (vc.[nodeID] <? ts)%N) (map_to_list other).

Definition Equal (vc other : gmap string N) : bool :=
  if bool_decide (size vc = size other)
  then forallb (λ '(nodeID, ts), (other.[nodeID] =? ts)%N) (map_to_list vc)
  else false.

Definition Concurrent (vc other : gmap string N) : bool :=
  negb (HappensBefore vc other) && negb (HappensBefore other vc) && negb (Equal vc other).

Definition Clone (vc : option (gmap string N)) : gmap string N :=
  map_fold (λ k v clone, <[k := v]> clone) ∅ (default ∅ vc).

(** *** The pointwise order the clocks represent *)

Definition vc_le (a b : gmap string N) : Prop := ∀ n, (a.[n] ≤ b.[n])%N.
Definition vc_equiv (a b : gmap string N) : Prop := ∀ n, a.[n] = b.[n].

(** No counter is stored as an explicit zero. *)
Definition vc_normal (a : gmap string N) : Prop := ∀ n, a !! n ≠ Some 0%N.

#[export] Instance vc_equiv_equivalence : Equivalence vc_equiv.
Proof.
  split; [by intros ? ?|intros ? ? H n; by rewrite (H n)|].
  intros ? ? ? H1 H2 n. by rewrite (H1 n), (H2 n).
Qed.

#[export] Instance vc_le_preorder : PreOrder vc_le.
Proof.
  split; [by intros ? ?|]. intros a b c H1 H2 n. specialize (H1 n); specialize (H2 n); lia.
Qed.

Lemma vc_le_antisym a b : vc_le a b → vc_le b a → vc_equiv a b.
Proof. intros H1 H2 n. specialize (H1 n); specialize (H2 n). lia. Qed.

#[export] Instance vc_le_proper : Proper (vc_equiv ==> vc_equiv ==> iff) vc_le.
Proof.
  intros a a' Ha b b' Hb. split; intros H n; specialize (H n); specialize (Ha n);
    specialize (Hb n); lia.
Qed.

Lemma get0_Some (m : gmap string N) n ts : m !! n = Some ts → m.[n] = ts.
Proof. unfold get0. by intros ->. Qed.

Lemma get0_pos (m : gmap string N) n : (0 < m.[n])%N → m !! n = Some m.[n].
Proof. unfold get0. destruct (m !! n); simpl; [done|lia]. Qed.

Lemma Clone_id vc : Clone vc = default ∅ vc.
Proof.
  unfold Clone. generalize (default ∅ vc) as m. clear vc. intros m.
  apply (map_fold_weak_ind (λ r m, r = m)); [done|]. by intros ? ? ? ? _ ->.
Qed.

Lemma Merge_get0 vc other n : (Merge vc other).[n] = N.max vc.[n] other.[n].
Proof.
  unfold Merge.
  apply (map_fold_weak_ind (λ r o, r.[n] = N.max vc.[n] o.[n])).
  - rewrite get0_empty. lia.
  - intros k ts o r Hk IH. rewrite get0_insert.
    assert (o.[k] = 0%N) as Ho0 by (unfold get0; by rewrite Hk).
    destruct (N.ltb_spec r.[k] ts); rewrite ?get0_insert; case_decide; subst; lia.
Qed.

Lemma Increment_get0 vc m n :
  (Increment vc m).[n] = if decide (m = n) then u64N (vc.[m] + 1) else vc.[n].
Proof. apply get0_insert. Qed.

#[export] Hint Rewrite Merge_get0 Increment_get0 : repl.

#[export] Instance Merge_proper : Proper (vc_equiv ==> vc_equiv ==> vc_equiv) Merge.
Proof. intros a a' Ha b b' Hb n. by rewrite !Merge_get0, (Ha n), (Hb n). Qed.

Lemma hb_scan_None other l d :
  hb_scan other l d = None ↔ ∃ n ts, (n, ts) ∈ l ∧ (other.[n] < ts)%N.
Proof.
  revert d. induction l as [|[n ts] l IH]; intros d; simpl.
  { split; [done|]. by intros (?&?&?%elem_of_nil&_). }
  destruct (N.ltb_spec other.[n] ts) as [Hlt|Hge].
  - split; [|done]. intros _. exists n, ts. by split; [left|].
  - rewrite IH. setoid_rewrite elem_of_cons. split; [naive_solver|].
    intros (n'&ts'&[[=-> ->]|?]&?); [lia|naive_solver].
Qed.

Lemma hb_scan_Some other l d r :
  hb_scan other l d = Some r →
  r = true ↔ d = true ∨ ∃ n ts, (n, ts) ∈ l ∧ (ts < other.[n])%N.
Proof.
  revert d r. induction l as [|[n ts] l IH]; intros d r; simpl.
  { intros [= ->]. split; [by left|]. by intros [?|(?&?&?%elem_of_nil&_)]. }
  destruct (N.ltb_spec other.[n] ts); [done|].
  intros ->%IH. setoid_rewrite elem_of_cons.
  destruct (N.ltb_spec ts other.[n]).
  - split; [|by left]. intros _. right. exists n, ts. auto.
  - split; [intros [?|(?&?&?&?)]; [by left|right; eauto]|].
    intros [?|(?&?&[[=-> ->]|?]&?)]; [by left|lia|right; eauto].
Qed.

Lemma hb_new_true vc l d :
  hb_new vc l d = true ↔ d = true ∨ ∃ n ts, (n, ts) ∈ l ∧ vc !! n = None ∧ (0 < ts)%N.
Proof.
  unfold hb_new. revert d. induction l as [|[n ts] l IH]; intros d; simpl.
  { split; [by left|]. by intros [?|(?&?&?%elem_of_nil&_)]. }
  rewrite IH. setoid_rewrite elem_of_cons.
  case_bool_decide; destruct (N.ltb_spec 0 ts); simpl; naive_solver lia.
Qed.

(** [HappensBefore] decides the strict pointwise order. *)
Lemma HappensBefore_spec vc other :
  HappensBefore vc other = true ↔ vc_le vc other ∧ ∃ n, (vc.[n] < other.[n])%N.
Proof.
  unfold HappensBefore. destruct (hb_scan other (map_to_list vc) false) as [d|] eqn:E.
  - rewrite hb_new_true, (hb_scan_Some _ _ _ _ E).
    assert (vc_le vc other) as Hle.
    { intros n. destruct (N.le_gt_cases vc.[n] other.[n]); [done|].
      assert (hb_scan other (map_to_list vc) false = None) as HN; [|congruence].
      apply hb_scan_None. exists n, vc.[n]. split; [|done].
      apply elem_of_map_to_list, get0_pos. lia. }
    split.
    + intros [[?|(n&ts&Hin%elem_of_map_to_list&?)]|(n&ts&Hin%elem_of_map_to_list&HN&?)].
      * done.
      * split; [done|]. exists n. by rewrite (get0_Some _ _ _ Hin).
      * split; [done|]. exists n. rewrite (get0_Some _ _ _ Hin). unfold get0. by rewrite HN.
    + intros [_ [n Hn]]. destruct (vc !! n) as [ts|] eqn:Hv.
      * left; right. exists n, ts. rewrite (get0_Some _ _ _ Hv) in Hn.
        by rewrite elem_of_map_to_list.
      * right. exists n, other.[n]. rewrite elem_of_map_to_list.
        unfold get0 in Hn at 1. rewrite Hv in Hn. simpl in Hn.
        split; [by apply get0_pos|done].
  - apply hb_scan_None in E as (n&ts&Hin%elem_of_map_to_list&Hlt).
    split; [done|]. intros [Hle _]. specialize (Hle n). rewrite (get0_Some _ _ _ Hin) in Hle. lia.
Qed.

Lemma Dominates_spec vc other : Dominates vc other = true ↔ vc_le other vc.
Proof.
  unfold Dominates. rewrite forallb_forall. split.
  - intros H n. destruct (other !! n) as [ts|] eqn:E.
    + specialize (H (n, ts)). rewrite <- list_elem_of_In, elem_of_map_to_list in H.
      specialize (H E). rewrite (get0_Some _ _ _ E). by apply negb_true_iff, N.ltb_ge in H.
    + unfold get0 at 1. rewrite E. simpl. lia.
  - intros H [n ts] Hin%list_elem_of_In%elem_of_map_to_list.
    specialize (H n). rewrite (get0_Some _ _ _ Hin) in H. by apply negb_true_iff, N.ltb_ge.
Qed.

Lemma Equal_spec vc other :
  Equal vc other = true ↔ size vc = size other ∧ ∀ n ts, vc !! n = Some ts → other.[n] = ts.
Proof.
  unfold Equal. case_bool_decide as Hs; [|naive_solver].
  rewrite forallb_forall. split.
  - intros H. split; [done|]. intros n ts Hn. specialize (H (n, ts)).
    rewrite <- list_elem_of_In, elem_of_map_to_list, N.eqb_eq in H. auto.
  - intros [_ H] [n ts] Hin%list_elem_of_In%elem_of_map_to_list. apply N.eqb_eq. auto.
Qed.

(** On clocks without explicit zeros, [Equal] is equality of maps. *)
Lemma Equal_normal a b : vc_normal a → vc_normal b → Equal a b = true ↔ a = b.
Proof.
  intros Ha Hb. rewrite Equal_spec. split; [|intros ->; split; [done|by apply get0_Some]].
  intros [Hsz Hsub].
  assert (a ⊆ b) as Hab.
  { apply map_subseteq_spec. intros n ts Hn. pose proof (Hsub n ts Hn) as Hb'.
    rewrite <- Hb'. apply get0_pos. rewrite Hb'.
    destruct (decide (ts = 0%N)) as [->|]; [by destruct (Ha n)|lia]. }
  apply map_subseteq_size_eq; [done|lia].
Qed.

Lemma Increment_normal vc n : (vc.[n] + 1 < two64N)%N → vc_normal vc → vc_normal (Increment vc n).
Proof.
  intros Hlt Hn m. unfold Increment. rewrite u64N_id by done.
  destruct (decide (n = m)) as [->|]; [rewrite lookup_insert_eq; intros [= ?]; lia|].
  rewrite lookup_insert_ne by done. apply Hn.
Qed.

Lemma Merge_normal a b : vc_normal a → vc_normal b → vc_normal (Merge a b).
Proof.
  intros Ha Hb. unfold Merge.
  apply (map_fold_weak_ind (λ r _, vc_normal r)); [done|].
  intros k ts o r _ IH. destruct (N.ltb_spec r.[k] ts); [|done].
  intros m. destruct (decide (k = m)) as [->|]; [rewrite lookup_insert_eq; intros [= ?]; lia|].
  rewrite lookup_insert_ne by done. apply IH.
Qed.

(** [Merge] is the join of the pointwise order. *)
Lemma Merge_ub_l a b : vc_le a (Merge a b).
Proof. intros n. rewrite Merge_get0. lia. Qed.

Lemma Merge_ub_r a b : vc_le b (Merge a b).
Proof. intros n. rewrite Merge_get0. lia. Qed.

Lemma Merge_lub a b c : vc_le a c → vc_le b c → vc_le (Merge a b) c.
Proof. intros H1 H2 n. rewrite Merge_get0. specialize (H1 n); specialize (H2 n); lia. Qed.

Lemma Merge_comm a b : vc_equiv (Merge a b) (Merge b a).
Proof. intros n. rewrite !Merge_get0. lia. Qed.

Lemma Merge_absorb a b : vc_le b a → Merge a b = a.
Proof.
  intros Hle. unfold Merge. revert Hle.
  apply (map_fold_weak_ind (λ r b, vc_le b a → r = a)); [done|].
  intros k ts o r Hk IH Hle.
  assert (vc_le o a) as Hoa.
  { intros n. specialize (Hle n). rewrite get0_insert in Hle. case_decide as Hkn; [|done].
    subst. unfold get0 at 1. rewrite Hk. simpl. lia. }
  rewrite (IH Hoa). specialize (Hle k). rewrite get0_insert, decide_True in Hle by done.
  destruct (N.ltb_spec a.[k] ts); [lia|done].
Qed.

#[export] Hint Resolve Merge_ub_l Merge_ub_r Merge_lub : repl.

Lemma Equal_equiv a b : vc_normal a → vc_normal b → Equal a b = true ↔ vc_equiv a b.
Proof.
  intros Ha Hb. rewrite Equal_normal by done. split; [by intros -> n|].
  intros He. apply map_eq. intros n. specialize (He n). unfold get0 in He.
  pose proof (Ha n). pose proof (Hb n).
  destruct (a !! n), (b !! n); simpl in *; congruence.
Qed.

(** Two clocks that are neither ordered nor equal are incomparable. *)
Lemma not_ordered_incomparable a b :
  vc_normal a → vc_normal b →
  HappensBefore a b = false → Equal a b = false → ¬ vc_le a b.
Proof.
  intros Ha Hb Hhb Heq Hle.
  apply not_true_iff_false in Hhb, Heq. rewrite Equal_equiv in Heq by done.
  rewrite HappensBefore_spec in Hhb. apply Heq, vc_le_antisym; [done|].
  intros n. destruct (N.le_gt_cases b.[n] a.[n]); [done|]. destruct Hhb. eauto.
Qed.

Lemma HappensBefore_irrefl a : HappensBefore a a = false.
Proof. apply not_true_iff_false. rewrite HappensBefore_spec. intros [_ [n ?]]. lia. Qed.

Lemma HappensBefore_trans a b c :
  HappensBefore a b = true → HappensBefore b c = true → HappensBefore a c = true.
Proof.
  rewrite !HappensBefore_spec. intros [H1 [n Hn]] [H2 _]. split; [by transitivity b|].
  exists n. specialize (H2 n). lia.
Qed.

Lemma HappensBefore_asym a b : HappensBefore a b = true → HappensBefore b a = false.
Proof.
  intros H. apply not_true_iff_false. intros H'.
  pose proof (HappensBefore_trans _ _ _ H H'). by rewrite HappensBefore_irrefl in *.
Qed.

(** *** Classification of two clocks *)

Lemma HappensBefore_not_Equal a b :
  vc_normal a → vc_normal b → HappensBefore a b = true → Equal a b = false.
Proof.
  intros Ha Hb. rewrite HappensBefore_spec, <- not_true_iff_false, Equal_equiv by done.
  intros [_ [n Hn]] He. specialize (He n). lia.
Qed.

Lemma Equal_sym a b : vc_normal a → vc_normal b → Equal a b = Equal b a.
Proof.
  intros Ha Hb. apply eq_true_iff_eq. rewrite !Equal_normal by done. by split.
Qed.

Lemma HappensBefore_strict a b : HappensBefore a b = true ↔ vc_le a b ∧ ¬ vc_le b a.
Proof.
  rewrite HappensBefore_spec. split.
  - intros [Hle [n Hn]]. split; [done|]. intros Hge. specialize (Hge n). lia.
  - intros [Hle Hn]. split; [done|].
    destruct (HappensBefore a b) eqn:E; [by apply HappensBefore_spec in E as [_ ?]|].
    destruct (decide (map_Exists (λ n ts, (a.[n] < ts)%N) b)) as [(n&ts&Hl&?)|Hall].
    { exists n. by rewrite (get0_Some _ _ _ Hl). }
    destruct Hn. intros n. destruct (b !! n) as [ts|] eqn:Hl.
    + rewrite (get0_Some _ _ _ Hl). destruct (N.le_gt_cases ts a.[n]); [done|].
      destruct Hall. by exists n, ts.
    + unfold get0 at 1. rewrite Hl. simpl. lia.
Qed.

Lemma Dominates_Merge a b c : Dominates c (Merge a b) = Dominates c a && Dominates c b.
Proof.
  apply eq_true_iff_eq. rewrite andb_true_iff, !Dominates_spec. split.
  - intros H. split; (etransitivity; [|exact H]); auto with repl.
  - intros [? ?]. auto with repl.
Qed.

Lemma vc_normal_dec a :
  bool_decide (map_Forall (λ _ ts, ts ≠ 0%N) a) = true → vc_normal a.
Proof. intros H%bool_decide_eq_true n Hn. by apply (H _ _ Hn). Qed.

End VectorClock.

(** ** Entries *)

Record LogEntry := MkLogEntry {
  le_Index : nat;
  le_Term : nat;
  le_Key : string;
  le_Value : option string;
  le_Op : OpType;
  le_Timestamp : Z;
  le_OriginID : string;
  le_VClock : option (gmap string N);
}.

Record KVEntry := MkKVEntry {
  kv_Key : string;
  kv_Value : option string;
  kv_VClock : option (gmap string N);
  kv_Timestamp : Z;
  kv_NodeID : string;
  kv_Tombstone : bool;
  kv_Version : N;
}.

#[export] Instance LogEntry_eq_dec : EqDecision LogEntry.
Proof. solve_decision. Defined.
#[export] Instance KVEntry_eq_dec : EqDecision KVEntry.
Proof. solve_decision. Defined.

(** The clock a nil-or-map field denotes when it is read. *)
Definition clock_of (vc : option (gmap string N)) : gmap string N := default ∅ vc.

(** What replication carries: an entry up to the per-store version stamp. *)
Definition kv_with_version (v : N) (e : KVEntry) : KVEntry :=
  MkKVEntry (kv_Key e) (kv_Value e) (kv_VClock e) (kv_Timestamp e) (kv_NodeID e)
    (kv_Tombstone e) v.

Definition kv_with_clock (vc : gmap string N) (e : KVEntry) : KVEntry :=
  MkKVEntry (kv_Key e) (kv_Value e) (Some vc) (kv_Timestamp e) (kv_NodeID e)
    (kv_Tombstone e) (kv_Version e).

(** ** The store *)

Module Store.

Record Store := MkStore {
  data : gmap string KVEntry;
  version : N;
}.

Definition NewStore : Store := MkStore ∅ 0.

Definition GetRaw (s : Store) (key : string) : option KVEntry := data s !! key.

Definition Get (s : Store) (key : string) : option KVEntry :=
  match data s !! key with
  | None => None
  | Some e => if kv_Tombstone e then None else Some e
  end.

Definition Set_ (s : Store) (entry : KVEntry) : Store :=
  let v := u64N (version s + 1) in
  let cp := MkKVEntry (kv_Key entry) (kv_Value entry)
              (match kv_VClock entry with
               | Some vc => Some (VectorClock.Clone (Some vc))
               | None => None
               end)
              (kv_Timestamp entry) (kv_NodeID entry) (kv_Tombstone entry) v in
  MkStore (<[kv_Key cp := cp]> (data s)) v.

Definition Delete (s : Store) (key nodeID : string) (ts : Z) (vc : option (gmap string N))
  : Store :=
  let v := u64N (version s + 1) in
  match data s !! key with
  | Some existing =>
      MkStore (<[key := MkKVEntry (kv_Key existing) (kv_Value existing)
                          (Some (VectorClock.Clone vc)) ts nodeID true v]> (data s)) v
  | None =>
      MkStore (<[key := MkKVEntry key None (Some (VectorClock.Clone vc)) ts nodeID true v]>
                 (data s)) v
  end.

Definition Keys (s : Store) : list string := (map_to_list (data s)).*1.

Definition Snapshot (s : Store) : gmap string KVEntry :=
  map_fold (λ k v snap, <[k := v]> snap) ∅ (data s).

Definition Version (s : Store) : N := version s.

(** Snapshots travel as JSON; the codec of the data map is [encoding/json]'s, a parameter. *)
Section Serialized.
Context (Marshal : gmap string KVEntry → string)
        (Unmarshal : string → option (gmap string KVEntry)).

Definition SnapshotBytes (s : Store) : string := Marshal (data s).

(** The new store and whether the bytes decoded; on an error nothing changes. *)
Definition RestoreSnapshot (s : Store) (b : string) : Store * bool :=
  if decide (b = "") then (MkStore ∅ (version s), true)
  else match Unmarshal b with
       | Some d => (MkStore d (version s), true)
       | None => (s, false)
       end.
End Serialized.

Lemma Snapshot_data s : Snapshot s = data s.
Proof.
  unfold Snapshot. apply (map_fold_weak_ind (λ r m, r = m)); [done|]. by intros ? ? ? ? _ ->.
Qed.

Lemma elem_of_Keys s k : k ∈ Keys s ↔ is_Some (GetRaw s k).
Proof.
  unfold Keys, GetRaw. rewrite list_elem_of_fmap. split.
  - intros ([k' v] & -> & Hin%elem_of_map_to_list). simpl. eauto.
  - intros [v Hv]. exists (k, v). by rewrite elem_of_map_to_list.
Qed.

Lemma clone_clock vc :
  match vc with Some v => Some (VectorClock.Clone (Some v)) | None => None end = vc.
Proof. destruct vc; [|done]. by rewrite VectorClock.Clone_id. Qed.

(** [Set] stores the entry itself, under its own key, with a fresh version. *)
Lemma GetRaw_Set s e k :
  GetRaw (Set_ s e) k =
    if decide (kv_Key e = k) then Some (kv_with_version (u64N (version s + 1)) e)
    else GetRaw s k.
Proof.
  unfold GetRaw, Set_, kv_with_version. simpl. rewrite clone_clock, lookup_insert. done.
Qed.

Lemma GetRaw_Delete s k0 n ts vc k :
  GetRaw (Delete s k0 n ts vc) k =
    if decide (k0 = k) then
      Some (MkKVEntry (default k0 (kv_Key <$> GetRaw s k0)) (GetRaw s k0 ≫= kv_Value)
              (Some (clock_of vc)) ts n true (u64N (version s + 1)))
    else GetRaw s k.
Proof.
  unfold GetRaw, Delete. rewrite VectorClock.Clone_id.
  destruct (data s !! k0) eqn:E; simpl; rewrite lookup_insert; done.
Qed.

Lemma Get_GetRaw s k e : Get s k = Some e ↔ GetRaw s k = Some e ∧ kv_Tombstone e = false.
Proof.
  unfold Get, GetRaw. destruct (data s !! k) as [e'|]; [|naive_solver].
  destruct (kv_Tombstone e') eqn:E; naive_solver congruence.
Qed.

(** *** Invariant: every entry is stored under its key, with a version issued by this store,
    and no two entries share one. *)
Definition wf (s : Store) : Prop :=
  (∀ k e, data s !! k = Some e → kv_Key e = k ∧ (kv_Version e ≤ version s)%N) ∧
  (∀ k1 k2 e1 e2, data s !! k1 = Some e1 → data s !! k2 = Some e2 →
     kv_Version e1 = kv_Version e2 → k1 = k2).

Lemma wf_NewStore : wf NewStore.
Proof. split; intros *; simpl; by rewrite lookup_empty. Qed.

Lemma wf_insert s k e :
  wf s → kv_Key e = k → kv_Version e = (version s + 1)%N →
  wf (MkStore (<[k := e]> (data s)) (version s + 1)).
Proof.
  intros [H1 H2] Hk Hv. split; simpl.
  - intros k' e' [[<- <-]|[? Hl]]%lookup_insert_Some; [split; [done|lia]|].
    destruct (H1 _ _ Hl). split; [done|lia].
  - intros k1 k2 e1 e2 [[<- <-]|[? Hl1]]%lookup_insert_Some
      [[<- <-]|[? Hl2]]%lookup_insert_Some Heq; [done| | |by eapply H2].
    + destruct (H1 _ _ Hl2). lia.
    + destruct (H1 _ _ Hl1). lia.
Qed.

(** The mutating operations of the store. *)
Inductive store_op :=
  | OSet (e : KVEntry)
  | ODelete (key nodeID : string) (ts : Z) (vc : option (gmap string N)).

Definition apply_op (s : Store) (o : store_op) : Store :=
  match o with
  | OSet e => Set_ s e
  | ODelete key nodeID ts vc => Delete s key nodeID ts vc
  end.

Definition op_key (o : store_op) : string :=
  match o with OSet e => kv_Key e | ODelete key _ _ _ => key end.

Lemma apply_op_version s o :
  (version s + 1 < two64N)%N → version (apply_op s o) = (version s + 1)%N.
Proof.
  intros. destruct o; simpl; unfold Set_, Delete; try case_match; simpl; by apply u64N_id.
Qed.

Lemma apply_op_wf s o : (version s + 1 < two64N)%N → wf s → wf (apply_op s o).
Proof.
  intros Hv Hwf. destruct o as [e|key nodeID ts vc]; simpl; unfold Set_, Delete;
    rewrite u64N_id by done.
  - by apply wf_insert.
  - destruct (data s !! key) as [e'|] eqn:E; apply wf_insert; try done.
    by destruct Hwf as [H _]; destruct (H _ _ E).
Qed.

Lemma run_ops_wf ops : ∀ s,
  (version s + N.of_nat (length ops) < two64N)%N → wf s →
  wf (foldl apply_op s ops) ∧
  version (foldl apply_op s ops) = (version s + N.of_nat (length ops))%N.
Proof.
  induction ops as [|o ops IH]; intros s Hv Hwf; simpl; [split; [done|lia]|].
  simpl in Hv. destruct (IH (apply_op s o)) as [H1 H2].
  - rewrite apply_op_version by lia. lia.
  - apply apply_op_wf; [lia|done].
  - split; [done|]. rewrite H2, apply_op_version by lia. lia.
Qed.

(** The entry last written to a key, with the position of that write as its version. *)
Fixpoint last_write (key : string) (ops : list store_op) (v : N) (cur : option KVEntry)
  : option KVEntry :=
  match ops with
  | [] => cur
  | o :: ops =>
      let cur' :=
        if decide (op_key o = key) then
          Some match o with
               | OSet e => kv_with_version (v + 1) e
               | ODelete k n ts vc =>
                   MkKVEntry k (cur ≫= kv_Value) (Some (clock_of vc)) ts n true (v + 1)
               end
        else cur in
      last_write key ops (v + 1) cur'
  end.

Lemma run_ops_last key ops : ∀ s,
  (version s + N.of_nat (length ops) < two64N)%N → wf s →
  GetRaw (foldl apply_op s ops) key = last_write key ops (version s) (GetRaw s key).
Proof.
  induction ops as [|o ops IH]; intros s Hv Hwf; simpl; [done|].
  simpl in Hv.
  rewrite IH; [|rewrite apply_op_version by lia; lia|apply apply_op_wf; [lia|done]].
  rewrite apply_op_version by lia. f_equal.
  destruct o as [e|k n ts vc]; simpl.
  - rewrite GetRaw_Set, u64N_id by lia. by case_decide.
  - rewrite GetRaw_Delete, u64N_id by lia. case_decide as Hk; [|done]. subst.
    do 2 f_equal. unfold GetRaw. destruct (data s !! key) as [e'|] eqn:E; [|done].
    destruct Hwf as [H _]. by destruct (H _ _ E).
Qed.

End Store.

(** ** Properties *)

(** [HappensBefore] is exactly the strict pointwise order on counters (a missing node counts
    zero), hence a strict partial order; [Dominates] is the reverse non-strict order; and [Merge]
    is its least upper bound: a clock dominates a merge iff it dominates both parts. *)
Theorem vector_clock_causality (a b c : gmap string N) :
  (VectorClock.HappensBefore a b = true ↔
     VectorClock.vc_le a b ∧ ¬ VectorClock.vc_le b a) ∧
  VectorClock.HappensBefore a a = false ∧
  (VectorClock.HappensBefore a b = true → VectorClock.HappensBefore b c = true →
     VectorClock.HappensBefore a c = true) ∧
  (VectorClock.Dominates a b = true ↔ VectorClock.vc_le b a) ∧
  VectorClock.Dominates c (VectorClock.Merge a b)
    = VectorClock.Dominates c a && VectorClock.Dominates c b.
Proof.
  split_and!.
  - apply VectorClock.HappensBefore_strict.
  - apply VectorClock.HappensBefore_irrefl.
  - apply VectorClock.HappensBefore_trans.
  - apply VectorClock.Dominates_spec.
  - apply VectorClock.Dominates_Merge.
Qed.

(** Two clocks without explicit zero counters stand in exactly one of the four relations the
    multi-leader node branches on: one happens before the other, they are equal, or they are
    concurrent. *)
Theorem vector_clock_classification (a b : gmap string N)
    (Ha : VectorClock.vc_normal a) (Hb : VectorClock.vc_normal b) :
  Nat.b2n (VectorClock.HappensBefore a b) + Nat.b2n (VectorClock.HappensBefore b a)
    + Nat.b2n (VectorClock.Equal a b) + Nat.b2n (VectorClock.Concurrent a b) = 1.
Proof.
  unfold VectorClock.Concurrent.
  destruct (VectorClock.HappensBefore a b) eqn:E1.
  { rewrite (VectorClock.HappensBefore_asym _ _ E1).
    by rewrite (VectorClock.HappensBefore_not_Equal _ _ Ha Hb E1). }
  destruct (VectorClock.HappensBefore b a) eqn:E2.
  { rewrite (VectorClock.Equal_sym a b) by done.
    by rewrite (VectorClock.HappensBefore_not_Equal _ _ Hb Ha E2). }
  by destruct (VectorClock.Equal a b).
Qed.

Definition clock_ab : gmap string N := {["a" := 2%N; "b" := 1%N]}.
Definition clock_ac : gmap string N := {["a" := 1%N; "c" := 4%N]}.

Lemma clock_ab_normal : VectorClock.vc_normal clock_ab.
Proof. by apply VectorClock.vc_normal_dec. Qed.
Lemma clock_ac_normal : VectorClock.vc_normal clock_ac.
Proof. by apply VectorClock.vc_normal_dec. Qed.

Lemma vector_clock_classification_witness :
  VectorClock.Concurrent clock_ab clock_ac = true ∧
  Nat.b2n (VectorClock.HappensBefore clock_ab clock_ac)
    + Nat.b2n (VectorClock.HappensBefore clock_ac clock_ab)
    + Nat.b2n (VectorClock.Equal clock_ab clock_ac)
    + Nat.b2n (VectorClock.Concurrent clock_ab clock_ac) = 1.
Proof.
  split; [by vm_compute|].
  apply (vector_clock_classification clock_ab clock_ac clock_ab_normal clock_ac_normal).
Defined.

(** After any sequence of fewer than 2^64 [Set] and [Delete] calls on a fresh store, [GetRaw]
    returns the entry of the last operation on that key, stamped with that operation's position
    (a delete keeps the value under a tombstone), [Get] hides tombstones, and entries of
    different keys carry different versions. *)
Theorem store_last_write (ops : list Store.store_op) (key : string)
    (Hlen : (N.of_nat (length ops) < two64N)%N) :
  let s := foldl Store.apply_op Store.NewStore ops in
  Store.GetRaw s key = Store.last_write key ops 0 None ∧
  Store.Get s key =
    (e ← Store.last_write key ops 0 None; if kv_Tombstone e then None else Some e) ∧
  Store.wf s ∧ Store.Version s = N.of_nat (length ops).
Proof.
  intros s.
  assert (Store.GetRaw s key = Store.last_write key ops 0 None) as Hraw
    by (apply Store.run_ops_last; [done|apply Store.wf_NewStore]).
  destruct (Store.run_ops_wf ops Store.NewStore) as [Hwf Hv];
    [done|apply Store.wf_NewStore|].
  split_and!; try done. rewrite <- Hraw. unfold Store.Get, Store.GetRaw.
  by destruct (Store.data s !! key).
Qed.

Definition sample_ops : list Store.store_op :=
  [Store.OSet (MkKVEntry "x" (Some "1") (Some clock_ab) 10 "n1" false 0);
   Store.OSet (MkKVEntry "y" (Some "2") None 11 "n1" false 0);
   Store.ODelete "x" "n2" 12 (Some clock_ac)].

Lemma store_last_write_witness :
  Store.Get (foldl Store.apply_op Store.NewStore sample_ops) "x" = None ∧
  Store.GetRaw (foldl Store.apply_op Store.NewStore sample_ops) "x"
    = Some (MkKVEntry "x" (Some "1") (Some clock_ac) 12 "n2" true 3).
Proof.
  destruct (store_last_write sample_ops "x" eq_refl) as (H1 & H2 & _).
  split; [rewrite H2|rewrite H1]; reflexivity.
Defined.
