(* ===== verification/Clock.v ===== *)
(** * The hybrid logical clock

    Models [src/internal/clock/hlc.go].  A timestamp is an int64 holding milliseconds above 16
    bits of logical counter.  All arithmetic is int64 arithmetic ([i64] wraps the results); the
    wall-clock reading [now().UnixNano()] is an argument of each operation. *)

From S2P Require Import Prelude.

#[local] Open Scope Z_scope.

Module HLC.

Definition logicalBits : Z := 16.
Definition logicalMask : Z := 65535.

Record HLC := MkHLC {
  lastPhysical : Z;
  logical : Z;
  skewNanos : Z;
}.

Definition NewHLC : HLC := MkHLC 0 0 0.

(** Go's integer division truncates towards zero. *)
Definition wallPhysical (h : HLC) (nowNanos : Z) : Z :=
  Z.quot (i64 (nowNanos + skewNanos h)) 1000000.

Definition encode (physical logical : Z) : Z :=
  i64 (Z.lor (Z.shiftl physical logicalBits) (Z.land logical logicalMask)).

(** [for logical > logicalMask { physical++; logical -= logicalMask + 1 }]; each round takes
    65536 off the counter, so the fuel given by [carry_fuel] is never exhausted. *)
Fixpoint carry (fuel : nat) (physical logical : Z) : Z * Z :=
  match fuel with
  | O => (physical, logical)
  | S fuel =>
      if logicalMask <? logical
      then carry fuel (i64 (physical + 1)) (i64 (logical - (logicalMask + 1)))
      else (physical, logical)
  end.

Definition carry_fuel (logical : Z) : nat := Z.to_nat (logical / 65536 + 1).

Definition Now (h : HLC) (nowNanos : Z) : Z * HLC :=
  let wall := wallPhysical h nowNanos in
  if lastPhysical h <? wall then
    (encode wall 0, MkHLC wall 0 (skewNanos h))
  else
    let l := i64 (logical h + 1) in
    let '(p, l) := carry (carry_fuel l) (lastPhysical h) l in
    (encode p l, MkHLC p l (skewNanos h)).

Definition Update (h : HLC) (nowNanos remote : Z) : Z * HLC :=
  let remotePhysical := Z.shiftr remote logicalBits in
  let remoteLogical := Z.land remote logicalMask in
  let wall := wallPhysical h nowNanos in
  let newPhysical := lastPhysical h in
  let newPhysical := if newPhysical <? wall then wall else newPhysical in
  let newPhysical := if newPhysical <? remotePhysical then remotePhysical else newPhysical in
  let l :=
    if (newPhysical =? lastPhysical h) && (newPhysical =? remotePhysical) then
      i64 ((if logical h <? remoteLogical then remoteLogical else logical h) + 1)
    else if newPhysical =? lastPhysical h then i64 (logical h + 1)
    else if newPhysical =? remotePhysical then i64 (remoteLogical + 1)
    else 0 in
  let '(p, l) := carry (carry_fuel l) newPhysical l in
  (encode p l, MkHLC p l (skewNanos h)).

Definition SetSkewMillis (h : HLC) (ms : Z) : HLC :=
  MkHLC (lastPhysical h) (logical h) (i64 (ms * 1000000)).

Definition PhysicalMillis (ts : Z) : Z := Z.shiftr ts logicalBits.
Definition Logical (ts : Z) : Z := u64 (Z.land ts logicalMask).

(** ** Encoding *)

(** The physical components for which [encode] does not overflow an int64. *)
Definition phys_ok (p : Z) : Prop := - 140737488355328 ≤ p < 140737488355328.
Definition logical_ok (l : Z) : Prop := 0 ≤ l ≤ logicalMask.

Lemma land_mask z : Z.land z logicalMask = z `mod` 65536.
Proof. change logicalMask with (Z.ones 16). rewrite Z.land_ones by done. done. Qed.

Lemma shiftr_bits z : Z.shiftr z logicalBits = z / 65536.
Proof. unfold logicalBits. by rewrite Z.shiftr_div_pow2. Qed.

Lemma land_shift p l : logical_ok l → Z.land (Z.shiftl p logicalBits) l = 0.
Proof.
  intros Hl. rewrite <- (Z.mod_small l 65536) by (unfold logical_ok, logicalMask in Hl; lia).
  rewrite <- land_mask. apply Z.bits_inj'. intros n Hn.
  rewrite !Z.land_spec, Z.bits_0. change logicalMask with (Z.ones 16).
  rewrite Z.testbit_ones by done. unfold logicalBits.
  destruct (decide (n < 16)); [rewrite Z.shiftl_spec_low by done; done|].
  destruct (Z.ltb_spec n 16); [lia|]. by rewrite !andb_false_r.
Qed.

Lemma lor_shift p l : logical_ok l → Z.lor (Z.shiftl p logicalBits) l = p * 65536 + l.
Proof.
  intros Hl. pose proof (Z.add_lor_land (Z.shiftl p logicalBits) l) as H.
  rewrite land_shift in H by done. unfold logicalBits in *.
  rewrite Z.shiftl_mul_pow2 in * by done. lia.
Qed.

Lemma encode_eq p l : phys_ok p → logical_ok l → encode p l = p * 65536 + l.
Proof.
  unfold encode. intros Hp Hl. rewrite land_mask.
  rewrite Z.mod_small by (unfold logical_ok, logicalMask in Hl; lia).
  rewrite lor_shift by done. apply i64_id.
  unfold in_i64, two63, phys_ok, logical_ok, logicalMask in *. lia.
Qed.

Lemma carry_small fuel p l : l ≤ logicalMask → carry fuel p l = (p, l).
Proof. intros. destruct fuel; simpl; [done|]. destruct (Z.ltb_spec logicalMask l); [lia|done]. Qed.

(** The counter a step produces before carrying is at most [logicalMask + 1]. *)
Lemma carry_step p l :
  0 ≤ l ≤ logicalMask + 1 → phys_ok p →
  let r := carry (carry_fuel l) p l in
  r.1 * 65536 + r.2 = p * 65536 + l ∧ logical_ok r.2 ∧ p ≤ r.1 ≤ p + 1.
Proof.
  intros Hl Hp. destruct (decide (l ≤ logicalMask)) as [Hs|Hs].
  { rewrite carry_small by done. unfold logical_ok. simpl. lia. }
  assert (l = 65536) as -> by (unfold logicalMask in *; lia).
  change (carry_fuel 65536) with 2%nat. simpl.
  rewrite !i64_id by (unfold in_i64, two63, phys_ok, logicalMask in *; lia).
  destruct (Z.ltb_spec logicalMask (65536 - (logicalMask + 1))); simpl;
    unfold logical_ok, logicalMask in *; lia.
Qed.

(** ** Invariant *)

Definition wf (h : HLC) : Prop :=
  0 ≤ lastPhysical h < 140737488355327 ∧ logical_ok (logical h).

(** The timestamp most recently emitted (zero for a fresh clock). *)
Definition current (h : HLC) : Z := encode (lastPhysical h) (logical h).

Lemma current_eq h : wf h → current h = lastPhysical h * 65536 + logical h.
Proof. intros [? ?]. unfold current. rewrite encode_eq; [done|unfold phys_ok; lia|done]. Qed.

(** The wall reading is always far below the encoding limit: an int64 of nanoseconds is less
    than 2^44 milliseconds. *)
Lemma wallPhysical_range h now : - 9223372036855 ≤ wallPhysical h now ≤ 9223372036855.
Proof.
  unfold wallPhysical. pose proof (i64_range (now + skewNanos h)) as Hr.
  unfold in_i64, two63 in Hr. revert Hr. generalize (i64 (now + skewNanos h)). intros z Hz.
  pose proof (Z.quot_rem z 1000000 ltac:(done)).
  pose proof (Z.rem_bound_abs z 1000000 ltac:(done)). lia.
Qed.

Lemma Now_spec h now :
  wf h →
  current h < (Now h now).1 ∧
  (Now h now).1 = lastPhysical (Now h now).2 * 65536 + logical (Now h now).2 ∧
  logical_ok (logical (Now h now).2) ∧
  0 ≤ lastPhysical (Now h now).2 ≤ Z.max (lastPhysical h + 1) 9223372036855.
Proof.
  intros Hwf. rewrite current_eq by done. destruct Hwf as [Hp Hl]. unfold Now.
  pose proof (wallPhysical_range h now) as Hw. revert Hw.
  generalize (wallPhysical h now). intros wall Hw.
  destruct (Z.ltb_spec (lastPhysical h) wall); simpl.
  - unfold logical_ok, logicalMask in *.
    rewrite encode_eq by (unfold phys_ok, logical_ok, logicalMask; lia).
    split_and!; lia.
  - rewrite (i64_id (logical h + 1)) by (unfold in_i64, two63, logical_ok, logicalMask in *; lia).
    destruct (carry_step (lastPhysical h) (logical h + 1)) as (He & Hlo & Hph);
      [unfold logical_ok in *; lia|unfold phys_ok; lia|].
    destruct (carry _ _ _) as [p l]. simpl in *.
    rewrite encode_eq by (unfold phys_ok in *; try done; lia). split_and!; try done; lia.
Qed.

Lemma Update_spec h now remote :
  wf h → 0 ≤ remote < 9223372036854710272 →
  current h < (Update h now remote).1 ∧ remote < (Update h now remote).1 ∧
  (Update h now remote).1
    = lastPhysical (Update h now remote).2 * 65536 + logical (Update h now remote).2 ∧
  logical_ok (logical (Update h now remote).2) ∧
  0 ≤ lastPhysical (Update h now remote).2
    ≤ Z.max (Z.max (lastPhysical h) (remote / 65536) + 1) 9223372036856.
Proof.
  intros Hwf Hr. rewrite current_eq by done. destruct Hwf as [Hp Hl]. unfold Update.
  rewrite land_mask, shiftr_bits.
  pose proof (wallPhysical_range h now) as Hw. revert Hw.
  generalize (wallPhysical h now). intros wall Hw.
  pose proof (Z.div_mod remote 65536 ltac:(done)) as Hdm.
  pose proof (Z.mod_pos_bound remote 65536 ltac:(done)) as Hmb.
  set (rp := remote / 65536) in *. set (rl := remote `mod` 65536) in *.
  set (np := if _ <? rp then rp else _).
  assert (np = Z.max (Z.max (lastPhysical h) wall) rp) as Hnp.
  { subst np. destruct (Z.ltb_spec (lastPhysical h) wall);
      [destruct (Z.ltb_spec wall rp)|destruct (Z.ltb_spec (lastPhysical h) rp)]; lia. }
  clearbody np.
  set (l := if _ && _ then _ else _).
  assert (0 ≤ l ≤ logicalMask + 1 ∧
          lastPhysical h * 65536 + logical h < np * 65536 + l ∧ remote < np * 65536 + l)
    as (Hlr & Hgt1 & Hgt2).
  { unfold logical_ok, logicalMask in *. subst l.
    rewrite (i64_id (logical h + 1)), (i64_id (rl + 1)) by (unfold in_i64, two63; lia).
    rewrite i64_id by (unfold in_i64, two63; destruct (logical h <? rl); lia).
    destruct (Z.eqb_spec np (lastPhysical h)), (Z.eqb_spec np rp); simpl;
      destruct (Z.ltb_spec (logical h) rl); lia. }
  clearbody l.
  destruct (carry_step np l) as (He & Hlo & Hph); [done|unfold phys_ok; lia|].
  destruct (carry _ _ _) as [p l']. simpl in *.
  rewrite encode_eq by (unfold phys_ok in *; try done; lia). split_and!; try done; lia.
Qed.

(** ** Histories of one clock *)

Inductive op :=
  | ONow (nowNanos : Z)
  | OUpdate (nowNanos remote : Z)
  | OSkew (ms : Z).

(** The timestamp an operation emits, if any, paired with the remote timestamp it merged. *)
Definition step (h : HLC) (o : op) : option (option Z * Z) * HLC :=
  match o with
  | ONow now => let '(ts, h') := Now h now in (Some (None, ts), h')
  | OUpdate now remote => let '(ts, h') := Update h now remote in (Some (Some remote, ts), h')
  | OSkew ms => (None, SetSkewMillis h ms)
  end.

Fixpoint emitted (h : HLC) (ops : list op) : list (option Z * Z) :=
  match ops with
  | [] => []
  | o :: ops => option_list (step h o).1 ++ emitted (step h o).2 ops
  end.

(** Remote timestamps lie below 2^62 (more than two thousand years of milliseconds). *)
Definition op_ok (o : op) : Prop :=
  match o with OUpdate _ remote => 0 ≤ remote < 4611686018427387904 | _ => True end.

Definition wf_within (k : Z) (h : HLC) : Prop :=
  0 ≤ lastPhysical h ≤ 70368744177664 + k ∧ logical_ok (logical h).

Lemma wf_within_wf k h : k < 70368744177662 → wf_within k h → wf h.
Proof. unfold wf_within, wf. intros ? [? ?]. split; [lia|done]. Qed.

Definition event_ok (h : HLC) (e : option Z * Z) : Prop :=
  current h < e.2 ∧ (∀ r, e.1 = Some r → r < e.2).

Lemma step_within k h o :
  0 ≤ k < 70368744177661 → op_ok o → wf_within k h →
  wf_within (k + 1) (step h o).2 ∧
  match (step h o).1 with
  | Some e => event_ok h e ∧ e.2 = current (step h o).2
  | None => current h = current (step h o).2
  end.
Proof.
  intros Hk Ho Hw. pose proof (wf_within_wf k h ltac:(lia) Hw) as Hwf.
  destruct Hw as [Hp Hl]. destruct o as [now|now remote|ms]; simpl in *.
  - pose proof (Now_spec h now Hwf) as (H1 & H2 & H3 & H4).
    destruct (Now h now) as [ts h']. simpl in *.
    assert (wf h') by (split; [lia|done]). rewrite (current_eq h') by done.
    split_and!; [split; [lia|done]|by split|done].
  - pose proof (Z.div_lt_upper_bound remote 65536 70368744177664) as Hd.
    pose proof (Update_spec h now remote Hwf ltac:(lia)) as (H1 & H2 & H3 & H4 & H5).
    destruct (Update h now remote) as [ts h']. simpl in *.
    assert (wf h') by (split; [lia|done]). rewrite (current_eq h') by done.
    split_and!; [split; [lia|done]|split; naive_solver|done].
  - split_and!; [split; [simpl; lia|done]|done].
Qed.

Lemma emitted_sorted ops : ∀ k h,
  0 ≤ k → k + Z.of_nat (length ops) ≤ 70368744177661 → Forall op_ok ops → wf_within k h →
  StronglySorted Z.lt (emitted h ops).*2 ∧ Forall (event_ok h) (emitted h ops).
Proof.
  induction ops as [|o ops IH]; intros k h Hk Hlen Hok Hw; simpl; [by repeat constructor|].
  apply Forall_cons in Hok as [Ho Hok]. simpl in Hlen.
  destruct (step_within k h o ltac:(lia) Ho Hw) as (Hw' & Hts).
  destruct (IH (k + 1) (step h o).2 ltac:(lia) ltac:(lia) Hok Hw') as [Hs Hf].
  destruct (step h o) as [[e|] h']; simpl in *.
  - destruct Hts as [[Hlt Hr] Heq]. split.
    + constructor; [done|]. rewrite Forall_fmap, Heq. eapply Forall_impl; [exact Hf|].
      by intros ? [? _].
    + constructor; [by split|]. eapply Forall_impl; [exact Hf|].
      intros ? [? ?]. split; [lia|done].
  - split; [done|]. eapply Forall_impl; [exact Hf|]. intros ? [? ?]. split; [lia|done].
Qed.

End HLC.

(** ** Properties *)

(** C29. Whatever the wall clock reads and however it is skewed, a clock emits strictly increasing
    timestamps over any history of [Now], [Update] and [SetSkewMillis] calls (fewer than 2^46
    of them, remote timestamps below 2^62), and every [Update] returns a timestamp above the
    remote one it merged. *)
Theorem hlc_strictly_monotone (ops : list HLC.op)
    (Hlen : Z.of_nat (length ops) ≤ 70368744177661) (Hok : Forall HLC.op_ok ops) :
  StronglySorted Z.lt (HLC.emitted HLC.NewHLC ops).*2 ∧
  Forall (λ e, 0 < e.2 ∧ ∀ remote, e.1 = Some remote → remote < e.2)
    (HLC.emitted HLC.NewHLC ops).
Proof.
  by apply (HLC.emitted_sorted ops 0 HLC.NewHLC).
Qed.

Definition sample_history : list HLC.op :=
  [HLC.ONow 5000000; HLC.ONow 5000000; HLC.OSkew (-3); HLC.ONow 6000000;
   HLC.OUpdate 7000000 655365; HLC.ONow 900000000].

Lemma hlc_strictly_monotone_witness :
  StronglySorted Z.lt (HLC.emitted HLC.NewHLC sample_history).*2 ∧
  (HLC.emitted HLC.NewHLC sample_history).*2 = [327680; 327681; 327682; 655366; 58785792].
Proof.
  split; [|reflexivity].
  apply (hlc_strictly_monotone sample_history); [done|].
  repeat constructor; done.
Defined.

(** Encoding and decoding are inverse, and comparing encoded timestamps compares physical time
    first and the logical counter second; a physical component needs 47 bits and a sign. *)
Theorem hlc_encode_roundtrip (p l p' l' : Z)
    (Hp : HLC.phys_ok p) (Hl : HLC.logical_ok l)
    (Hp' : HLC.phys_ok p') (Hl' : HLC.logical_ok l') :
  HLC.PhysicalMillis (HLC.encode p l) = p ∧ HLC.Logical (HLC.encode p l) = l ∧
  (HLC.encode p l < HLC.encode p' l' ↔ p < p' ∨ p = p' ∧ l < l').
Proof.
  unfold HLC.PhysicalMillis, HLC.Logical. rewrite HLC.land_mask, HLC.shiftr_bits.
  rewrite !HLC.encode_eq by done. unfold HLC.logical_ok, HLC.logicalMask in *.
  rewrite Z.div_add_l, Z.div_small by lia.
  rewrite (Z.add_comm (p * 65536) l), Z.mod_add, Z.mod_small by lia.
  rewrite u64_id by (unfold in_u64, two64; lia). split_and!; lia.
Qed.

Lemma hlc_encode_roundtrip_witness :
  HLC.PhysicalMillis (HLC.encode (-7) 65535) = -7 ∧ HLC.Logical (HLC.encode (-7) 65535) = 65535.
Proof.
  destruct (hlc_encode_roundtrip (-7) 65535 1 0 ltac:(by split) ltac:(by split)
              ltac:(by split) ltac:(by split)) as (H1 & H2 & _).
  split; [exact H1|exact H2].
Defined.
