(* ===== verification/ReplicationLog.v ===== *)
(** * The replication log

    Models [src/internal/replication/log.go]: a 1-based log whose prefix can be compacted into a
    snapshot.  Entry [i] sits at slice position [i - snapshotIndex - 1]; an access outside the
    slice is a [Panic].  Indices and terms, counted up from one by the code, are natural numbers
    (a uint64 overflow would need 2^64 appends). *)

From S2P Require Import Prelude Storage.

Module Log.

Record ReplicationLog := MkLog {
  entries : list LogEntry;
  commitIndex : nat;
  nextIndex : nat;
  snapshotIndex : nat;
  snapshotTerm : nat;
}.

Definition NewReplicationLog : ReplicationLog := MkLog [] 0 1 0 0.

Definition pos (l : ReplicationLog) (index : nat) : Z :=
  (Z.of_nat index - Z.of_nat (snapshotIndex l) - 1)%Z.

(** [l.entries[p]] *)
Definition at_pos (l : ReplicationLog) (p : Z) : Res LogEntry :=
  if (p <? 0)%Z then Panic else res_of (entries l !! Z.to_nat p).

(** [l.entries[:p]].  Go would also accept a [p] between the length and the capacity; a
    well-formed log never asks for one. *)
Definition prefix_to (l : ReplicationLog) (p : Z) : Res (list LogEntry) :=
  if (p <? 0)%Z || (Z.of_nat (length (entries l)) <? p)%Z then Panic
  else Ok (take (Z.to_nat p) (entries l)).

Definition with_index (i : nat) (e : LogEntry) : LogEntry :=
  MkLogEntry i (le_Term e) (le_Key e) (le_Value e) (le_Op e) (le_Timestamp e) (le_OriginID e)
    (le_VClock e).

Definition Append (l : ReplicationLog) (entry : LogEntry) : nat * ReplicationLog :=
  let e := with_index (nextIndex l) entry in
  (le_Index e,
   MkLog (entries l ++ [e]) (commitIndex l) (S (nextIndex l)) (snapshotIndex l) (snapshotTerm l)).

Definition Get (l : ReplicationLog) (index : nat) : Res (option LogEntry) :=
  if (index =? 0) || (index <=? snapshotIndex l) || (nextIndex l <=? index) then Ok None
  else e ← at_pos l (pos l index); Ok (Some e).

Definition GetFrom (l : ReplicationLog) (startIndex : nat) : Res (list LogEntry) :=
  if nextIndex l <=? startIndex then Ok []
  else
    let startIndex := if startIndex <=? snapshotIndex l then S (snapshotIndex l) else startIndex in
    let start := pos l startIndex in
    let start := if (start <? 0)%Z then 0%Z else start in
    if (Z.of_nat (length (entries l)) <? start)%Z then Panic
    else Ok (drop (Z.to_nat start) (entries l)).

Definition LastIndex (l : ReplicationLog) : nat := nextIndex l - 1.

Definition CommitIndex (l : ReplicationLog) : nat := commitIndex l.

Definition SetCommitIndex (l : ReplicationLog) (idx : nat) : ReplicationLog :=
  if commitIndex l <? idx
  then MkLog (entries l) idx (nextIndex l) (snapshotIndex l) (snapshotTerm l)
  else l.

Definition Len (l : ReplicationLog) : nat := length (entries l).

Definition Snapshot (l : ReplicationLog) : list LogEntry := entries l.

Definition TruncateFrom (l : ReplicationLog) (index : nat) : Res ReplicationLog :=
  if (index =? 0) || (nextIndex l <? index) then Ok l
  else
    let p := pos l index in
    let p := if (p <? 0)%Z then 0%Z else p in
    es ← prefix_to l p;
    Ok (MkLog es (commitIndex l) index (snapshotIndex l) (snapshotTerm l)).

Definition TermAt (l : ReplicationLog) (index : nat) : Res nat :=
  if index =? 0 then Ok 0
  else if index =? snapshotIndex l then Ok (snapshotTerm l)
  else if (index <=? snapshotIndex l) || (nextIndex l <=? index) then Ok 0
  else e ← at_pos l (pos l index); Ok (le_Term e).

Definition LastIndexTerm (l : ReplicationLog) : Res (nat * nat) :=
  let last := nextIndex l - 1 in
  if last =? 0 then Ok (0, 0)
  else if last =? snapshotIndex l then Ok (last, snapshotTerm l)
  else e ← at_pos l (pos l last); Ok (last, le_Term e).

Definition Matches (l : ReplicationLog) (prevIndex prevTerm : nat) : Res bool :=
  if prevIndex =? 0 then Ok true
  else if prevIndex =? snapshotIndex l then Ok (prevTerm =? snapshotTerm l)
  else if (prevIndex <? snapshotIndex l) || (nextIndex l <=? prevIndex) then Ok false
  else e ← at_pos l (pos l prevIndex); Ok (le_Term e =? prevTerm).

(** The end of the loop body of [AppendAfter]. *)
Definition append_if_next (l : ReplicationLog) (e : LogEntry) : ReplicationLog :=
  if le_Index e =? nextIndex l
  then MkLog (entries l ++ [e]) (commitIndex l) (S (nextIndex l)) (snapshotIndex l) (snapshotTerm l)
  else l.

(** One round of the loop of [AppendAfter]. *)
Definition append_one (l : ReplicationLog) (e : LogEntry) : Res ReplicationLog :=
  let idx := le_Index e in
  if idx <=? snapshotIndex l then Ok l
  else if idx <? nextIndex l then
    let p := pos l idx in
    cur ← at_pos l p;
    if le_Term cur =? le_Term e then Ok l
    else
      es ← prefix_to l p;
      Ok (append_if_next (MkLog es (commitIndex l) idx (snapshotIndex l) (snapshotTerm l)) e)
  else Ok (append_if_next l e).

Fixpoint append_loop (l : ReplicationLog) (es : list LogEntry) : Res ReplicationLog :=
  match es with
  | [] => Ok l
  | e :: es => l' ← append_one l e; append_loop l' es
  end.

Definition AppendAfter (l : ReplicationLog) (prevIndex : nat) (es : list LogEntry)
  : Res (nat * ReplicationLog) :=
  l' ← append_loop l es;
  Ok (nextIndex l' - 1, l').

Definition SnapshotBoundary (l : ReplicationLog) : nat * nat := (snapshotIndex l, snapshotTerm l).

Definition Compact (l : ReplicationLog) (uptoIndex term : nat) : Res ReplicationLog :=
  if uptoIndex <=? snapshotIndex l then Ok l
  else
    let uptoIndex := if nextIndex l <=? uptoIndex then nextIndex l - 1 else uptoIndex in
    if uptoIndex <=? snapshotIndex l then Ok l
    else
      let drop_ := uptoIndex - snapshotIndex l in
      let drop_ := if length (entries l) <? drop_ then length (entries l) else drop_ in
      e ← at_pos l (Z.of_nat drop_ - 1);
      let st := if term =? 0 then le_Term e else term in
      Ok (MkLog (drop drop_ (entries l)) (commitIndex l) (nextIndex l) uptoIndex st).

Definition InstallSnapshot (l : ReplicationLog) (index term : nat) : ReplicationLog :=
  if index <=? snapshotIndex l then l
  else MkLog [] (if commitIndex l <? index then index else commitIndex l) (S index) index term.

(** ** Invariant: the slice holds exactly the indices after the snapshot, in order *)

Definition contiguous (start : nat) (es : list LogEntry) : Prop :=
  ∀ i e, es !! i = Some e → le_Index e = start + i.

Definition wf (l : ReplicationLog) : Prop :=
  nextIndex l = snapshotIndex l + length (entries l) + 1 ∧
  contiguous (snapshotIndex l + 1) (entries l).

(** The entry a well-formed log holds at an absolute index. *)
Definition entry_at (l : ReplicationLog) (index : nat) : option LogEntry :=
  if index <=? snapshotIndex l then None else entries l !! (index - snapshotIndex l - 1).

(** The term known for an index: of the snapshot boundary or of an entry. *)
Definition term_at (l : ReplicationLog) (index : nat) : option nat :=
  if index =? snapshotIndex l then Some (if index =? 0 then 0 else snapshotTerm l)
  else le_Term <$> entry_at l index.

Lemma contiguous_app start es es' :
  contiguous start (es ++ es') ↔ contiguous start es ∧ contiguous (start + length es) es'.
Proof.
  unfold contiguous. split.
  - intros H. split; intros i e Hi.
    + apply H. by apply lookup_app_l_Some.
    + rewrite (H (length es + i)); [lia|]. rewrite lookup_app_r by lia.
      by replace (length es + i - length es) with i by lia.
  - intros [H1 H2] i e [Hi|[Hge Hi]]%lookup_app_Some; [by apply H1|].
    rewrite (H2 _ _ Hi). lia.
Qed.

Lemma contiguous_take start es n : contiguous start es → contiguous start (take n es).
Proof. intros H i e [? _]%lookup_take_Some. by apply H. Qed.

Lemma contiguous_drop start es n : contiguous start es → contiguous (start + n) (drop n es).
Proof. intros H i e Hi. rewrite lookup_drop in Hi. rewrite (H _ _ Hi). lia. Qed.

Lemma contiguous_cons start e es :
  contiguous start (e :: es) ↔ le_Index e = start ∧ contiguous (S start) es.
Proof.
  unfold contiguous. split.
  - intros H. split; [rewrite (H 0 e) by done; lia|].
    intros i e' Hi. rewrite (H (S i) e') by done. lia.
  - intros [H1 H2] [|i] e' Hi; simpl in Hi; [naive_solver lia|].
    rewrite (H2 i e') by done. lia.
Qed.

Lemma contiguous_nil start : contiguous start [].
Proof. intros i e Hi. by rewrite lookup_nil in Hi. Qed.

Lemma contiguous_single start e : contiguous start [e] ↔ le_Index e = start.
Proof. rewrite contiguous_cons. split; [by intros []|]. by auto using contiguous_nil. Qed.

Lemma wf_New : wf NewReplicationLog.
Proof. split; [done|]. apply contiguous_nil. Qed.

Lemma at_pos_entry l index e :
  at_pos l (pos l index) = Ok e ↔ entry_at l index = Some e.
Proof.
  unfold at_pos, pos, entry_at.
  destruct (Z.ltb_spec (Z.of_nat index - Z.of_nat (snapshotIndex l) - 1) 0).
  - destruct (Nat.leb_spec index (snapshotIndex l)); [done|lia].
  - destruct (Nat.leb_spec index (snapshotIndex l)); [lia|].
    rewrite res_of_Ok. by replace (Z.to_nat (Z.of_nat index - Z.of_nat (snapshotIndex l) - 1))
      with (index - snapshotIndex l - 1) by lia.
Qed.

Lemma entry_at_in l index :
  wf l → snapshotIndex l < index < nextIndex l → is_Some (entry_at l index).
Proof.
  intros [Hn _] ?. unfold entry_at. destruct (Nat.leb_spec index (snapshotIndex l)); [lia|].
  apply lookup_lt_is_Some. lia.
Qed.

Lemma entry_at_out l index :
  wf l → index ≤ snapshotIndex l ∨ nextIndex l ≤ index → entry_at l index = None.
Proof.
  intros [Hn _] ?. unfold entry_at. destruct (Nat.leb_spec index (snapshotIndex l)); [done|].
  apply lookup_ge_None. lia.
Qed.

Lemma entry_at_index l index e : wf l → entry_at l index = Some e → le_Index e = index.
Proof.
  intros [_ Hc]. unfold entry_at. destruct (Nat.leb_spec index (snapshotIndex l)); [done|].
  intros He%Hc. lia.
Qed.

Lemma at_pos_in l index :
  wf l → snapshotIndex l < index < nextIndex l →
  ∃ e, entry_at l index = Some e ∧ at_pos l (pos l index) = Ok e.
Proof.
  intros Hwf Hi. destruct (entry_at_in l index Hwf Hi) as [e He].
  exists e. split; [done|]. by apply at_pos_entry.
Qed.

(** ** Reads never panic on a well-formed log *)

Lemma Get_spec l index : wf l → Get l index = Ok (entry_at l index).
Proof.
  intros Hwf. unfold Get.
  destruct (decide (snapshotIndex l < index < nextIndex l)) as [Hin|Hout].
  - destruct (at_pos_in l index Hwf Hin) as (e & He & Hp). rewrite He.
    destruct (Nat.eqb_spec index 0), (Nat.leb_spec index (snapshotIndex l)),
      (Nat.leb_spec (nextIndex l) index); try lia. simpl. by rewrite Hp.
  - rewrite entry_at_out by (done || lia).
    destruct (Nat.eqb_spec index 0), (Nat.leb_spec index (snapshotIndex l)),
      (Nat.leb_spec (nextIndex l) index); try done; lia.
Qed.

Lemma TermAt_spec l index : wf l → TermAt l index = Ok (default 0 (term_at l index)).
Proof.
  intros Hwf. unfold TermAt, term_at.
  destruct (Nat.eqb_spec index 0) as [->|Hnz].
  { destruct (Nat.eqb_spec 0 (snapshotIndex l)); [done|]. by rewrite entry_at_out by (done || lia). }
  destruct (Nat.eqb_spec index (snapshotIndex l)); [done|].
  destruct (decide (snapshotIndex l < index < nextIndex l)) as [Hin|Hout].
  - destruct (at_pos_in l index Hwf Hin) as (e & He & Hp). rewrite He.
    destruct (Nat.leb_spec index (snapshotIndex l)), (Nat.leb_spec (nextIndex l) index);
      try lia. simpl. by rewrite Hp.
  - rewrite entry_at_out by (done || lia).
    destruct (Nat.leb_spec index (snapshotIndex l)), (Nat.leb_spec (nextIndex l) index);
      try done; lia.
Qed.

Lemma Matches_spec l i t :
  wf l →
  Matches l i t =
    Ok (if i =? 0 then true
        else match term_at l i with Some t' => t' =? t | None => false end).
Proof.
  intros Hwf. unfold Matches, term_at.
  destruct (Nat.eqb_spec i 0) as [->|Hnz]; [done|].
  destruct (Nat.eqb_spec i (snapshotIndex l)); [by rewrite Nat.eqb_sym|].
  destruct (decide (snapshotIndex l < i < nextIndex l)) as [Hin|Hout].
  - destruct (at_pos_in l i Hwf Hin) as (e & He & Hp). rewrite He.
    destruct (Nat.ltb_spec i (snapshotIndex l)), (Nat.leb_spec (nextIndex l) i);
      try lia. simpl. by rewrite Hp.
  - rewrite entry_at_out by (done || lia).
    destruct (Nat.ltb_spec i (snapshotIndex l)), (Nat.leb_spec (nextIndex l) i);
      try done; lia.
Qed.

Lemma LastIndexTerm_spec l :
  wf l → LastIndexTerm l = Ok (LastIndex l, default 0 (term_at l (LastIndex l))).
Proof.
  intros Hwf. pose proof Hwf as [Hn _]. unfold LastIndexTerm, LastIndex, term_at.
  destruct (Nat.eqb_spec (nextIndex l - 1) 0) as [Hz|Hnz].
  { rewrite Hz. destruct (Nat.eqb_spec 0 (snapshotIndex l)); [done|].
    by rewrite entry_at_out by (done || lia). }
  destruct (Nat.eqb_spec (nextIndex l - 1) (snapshotIndex l)); [done|].
  destruct (at_pos_in l (nextIndex l - 1) Hwf ltac:(lia)) as (e & He & Hp).
  by rewrite He, Hp.
Qed.

Lemma GetFrom_spec l start :
  wf l → GetFrom l start = Ok (drop (start - 1 - snapshotIndex l) (entries l)).
Proof.
  intros [Hn _]. unfold GetFrom, pos.
  destruct (Nat.leb_spec (nextIndex l) start); [by rewrite drop_ge by lia|].
  set (s := if start <=? snapshotIndex l then _ else _).
  assert (s = start `max` S (snapshotIndex l)) as ->
    by (subst s; destruct (Nat.leb_spec start (snapshotIndex l)); lia).
  destruct (Z.ltb_spec (Z.of_nat (start `max` S (snapshotIndex l)) - Z.of_nat (snapshotIndex l) - 1) 0);
    [lia|].
  destruct (Z.ltb_spec (Z.of_nat (length (entries l)))
    (Z.of_nat (start `max` S (snapshotIndex l)) - Z.of_nat (snapshotIndex l) - 1)); [lia|].
  do 2 f_equal. lia.
Qed.

(** ** Every writer keeps the invariant *)

Lemma Append_spec l e :
  wf l →
  let '(i, l') := Append l e in
  i = nextIndex l ∧ wf l' ∧ LastIndex l' = i ∧ entry_at l' i = Some (with_index i e) ∧
  ∀ j, j ≠ i → entry_at l' j = entry_at l j.
Proof.
  intros [Hn Hc]. unfold Append, wf, LastIndex, entry_at; simpl. split_and!; try done.
  - rewrite length_app; simpl. lia.
  - apply contiguous_app. split; [done|]. apply contiguous_single. simpl. lia.
  - lia.
  - destruct (Nat.leb_spec (nextIndex l) (snapshotIndex l)); [lia|].
    rewrite lookup_app_r by lia.
    by replace (nextIndex l - snapshotIndex l - 1 - length (entries l)) with 0 by lia.
  - intros j Hj. destruct (Nat.leb_spec j (snapshotIndex l)); [done|].
    destruct (decide (j - snapshotIndex l - 1 < length (entries l))).
    + by rewrite lookup_app_l.
    + rewrite !lookup_ge_None_2; [done| |]; rewrite ?length_app; simpl; lia.
Qed.

Lemma SetCommitIndex_wf l i : wf l → wf (SetCommitIndex l i).
Proof. unfold SetCommitIndex. by case_match. Qed.

Lemma SetCommitIndex_entry_at l i j : entry_at (SetCommitIndex l i) j = entry_at l j.
Proof. unfold SetCommitIndex. by case_match. Qed.

Lemma SetCommitIndex_max l i : commitIndex (SetCommitIndex l i) = commitIndex l `max` i.
Proof. unfold SetCommitIndex. destruct (Nat.ltb_spec (commitIndex l) i); simpl; lia. Qed.

Lemma prefix_to_in l p :
  (0 ≤ p ≤ Z.of_nat (length (entries l)))%Z → prefix_to l p = Ok (take (Z.to_nat p) (entries l)).
Proof.
  intros Hp. unfold prefix_to.
  by destruct (Z.ltb_spec p 0), (Z.ltb_spec (Z.of_nat (length (entries l))) p); try lia.
Qed.

Lemma TruncateFrom_spec l index :
  wf l → snapshotIndex l < index ≤ nextIndex l →
  ∃ l', TruncateFrom l index = Ok l' ∧ wf l' ∧ nextIndex l' = index ∧
        ∀ j, entry_at l' j = if j <? index then entry_at l j else None.
Proof.
  intros [Hn Hc] Hi. unfold TruncateFrom.
  destruct (Nat.eqb_spec index 0), (Nat.ltb_spec (nextIndex l) index); try lia; simpl.
  unfold pos. destruct (Z.ltb_spec (Z.of_nat index - Z.of_nat (snapshotIndex l) - 1) 0); [lia|].
  rewrite prefix_to_in by lia. simpl.
  eexists. split; [done|]. unfold wf, entry_at; simpl. split_and!; try done.
  - rewrite length_take. lia.
  - by apply contiguous_take.
  - intros j. destruct (Nat.leb_spec j (snapshotIndex l)), (Nat.ltb_spec j index); try done.
    + rewrite lookup_take_lt by lia. done.
    + rewrite lookup_take_ge by lia. done.
Qed.

(** ** AppendEntries *)

(** The reference merge of a suffix [cur] of the log with the incoming entries: entries of the same
    term are kept, the first difference replaces everything after it. *)
Fixpoint merge_entries (cur es : list LogEntry) : list LogEntry :=
  match cur, es with
  | _, [] => cur
  | [], _ => es
  | c :: cur', e :: es' =>
      if le_Term c =? le_Term e then c :: merge_entries cur' es' else es
  end.

Lemma append_one_skip l e : le_Index e ≤ snapshotIndex l → append_one l e = Ok l.
Proof. intros H. unfold append_one. by destruct (Nat.leb_spec (le_Index e) (snapshotIndex l)); [|lia]. Qed.

(** One round: entry [k] places after the snapshot meets the slice position [k]. *)
Lemma append_one_spec l e k :
  wf l → le_Index e = snapshotIndex l + k + 1 → k ≤ length (entries l) →
  append_one l e =
    Ok match entries l !! k with
       | Some c =>
           if le_Term c =? le_Term e then l
           else MkLog (take k (entries l) ++ [e]) (commitIndex l) (S (le_Index e))
                  (snapshotIndex l) (snapshotTerm l)
       | None => MkLog (entries l ++ [e]) (commitIndex l) (S (nextIndex l))
                  (snapshotIndex l) (snapshotTerm l)
       end.
Proof.
  intros [Hn Hc] He Hk. unfold append_one, append_if_next.
  destruct (Nat.leb_spec (le_Index e) (snapshotIndex l)); [lia|].
  assert (pos l (le_Index e) = Z.of_nat k) as -> by (unfold pos; lia).
  destruct (Nat.ltb_spec (le_Index e) (nextIndex l)) as [Hlt|Hge].
  - destruct (lookup_lt_is_Some_2 (entries l) k ltac:(lia)) as [c Hk'].
    unfold at_pos. destruct (Z.ltb_spec (Z.of_nat k) 0); [lia|].
    rewrite Nat2Z.id, Hk'. simpl. case_match; [done|].
    rewrite prefix_to_in by lia. simpl. by rewrite Nat.eqb_refl, Nat2Z.id.
  - rewrite lookup_ge_None_2 by lia.
    by destruct (Nat.eqb_spec (le_Index e) (nextIndex l)); [|lia].
Qed.

Lemma wf_take_snoc l e k :
  wf l → le_Index e = snapshotIndex l + k + 1 → k ≤ length (entries l) →
  wf (MkLog (take k (entries l) ++ [e]) (commitIndex l) (S (le_Index e))
        (snapshotIndex l) (snapshotTerm l)).
Proof.
  intros [Hn Hc] He Hk. split; simpl.
  - rewrite length_app, length_take. simpl. lia.
  - apply contiguous_app. split; [by apply contiguous_take|].
    apply contiguous_single. rewrite length_take. lia.
Qed.

Lemma append_loop_merge es : ∀ l k,
  wf l → k ≤ length (entries l) → contiguous (snapshotIndex l + k + 1) es →
  ∃ n, append_loop l es =
         Ok (MkLog (take k (entries l) ++ merge_entries (drop k (entries l)) es)
               (commitIndex l) n (snapshotIndex l) (snapshotTerm l)) ∧
       wf (MkLog (take k (entries l) ++ merge_entries (drop k (entries l)) es)
               (commitIndex l) n (snapshotIndex l) (snapshotTerm l)).
Proof.
  induction es as [|e es IH]; intros l k Hwf Hk Hes.
  { exists (nextIndex l).
    replace (merge_entries _ []) with (drop k (entries l)) by (by destruct (drop k _)).
    rewrite take_drop. by destruct l. }
  apply contiguous_cons in Hes as [He Hes]. simpl.
  rewrite (append_one_spec l e k) by done. simpl.
  destruct (entries l !! k) as [c|] eqn:Hck.
  - rewrite (drop_S _ _ _ Hck). simpl. destruct (le_Term c =? le_Term e).
    + destruct (IH l (S k)) as (n & HIH & HIHwf); [done| | |].
      { by apply lookup_lt_Some in Hck. }
      { by replace (snapshotIndex l + S k + 1) with (S (snapshotIndex l + k + 1)) by lia. }
      exists n. rewrite HIH. revert HIHwf.
      by rewrite (take_S_r _ _ _ Hck), <-(assoc_L (++)).
    + pose proof (wf_take_snoc l e k Hwf He Hk) as Hwf'.
      destruct (IH _ (S k) Hwf') as (n & HIH & HIHwf); simpl.
      { rewrite length_app, length_take. simpl. lia. }
      { by replace (snapshotIndex l + S k + 1) with (S (snapshotIndex l + k + 1)) by lia. }
      simpl in HIH, HIHwf. revert HIH HIHwf.
      rewrite (drop_ge (_ ++ [e])), (take_ge (_ ++ [e])) by (rewrite length_app, length_take; simpl; lia).
      simpl. rewrite <-(assoc_L (++)). simpl. destruct es; eauto.
  - apply lookup_ge_None in Hck. assert (k = length (entries l)) as -> by lia.
    pose proof (wf_take_snoc l e (length (entries l)) Hwf He (le_n _)) as Hwf'.
    rewrite take_ge in Hwf' by lia. rewrite He in Hwf'.
    assert (S (nextIndex l) = S (snapshotIndex l + length (entries l) + 1)) as ->
      by (destruct Hwf; lia).
    destruct (IH _ (S (length (entries l))) Hwf') as (n & HIH & HIHwf); simpl.
    { rewrite length_app. simpl. lia. }
    { by replace (snapshotIndex l + S (length (entries l)) + 1)
        with (S (snapshotIndex l + length (entries l) + 1)) by lia. }
    simpl in HIH, HIHwf. revert HIH HIHwf.
    rewrite !drop_ge, !take_ge by (rewrite ?length_app; simpl; lia).
    simpl. rewrite <-(assoc_L (++)). simpl. destruct es; eauto.
Qed.

Lemma append_loop_skip l es1 es2 :
  Forall (λ e, le_Index e ≤ snapshotIndex l) es1 →
  append_loop l (es1 ++ es2) = append_loop l es2.
Proof.
  induction 1 as [|e es1 He _ IH]; [done|]. simpl. by rewrite append_one_skip.
Qed.

(** Entries already folded into the snapshot are skipped; the others are merged. *)
Lemma AppendAfter_merge l prev es :
  wf l → prev ≤ LastIndex l → contiguous (prev + 1) es →
  ∃ l', AppendAfter l prev es = Ok (LastIndex l', l') ∧ wf l' ∧
    snapshotIndex l' = snapshotIndex l ∧ snapshotTerm l' = snapshotTerm l ∧
    commitIndex l' = commitIndex l ∧
    entries l' = take (prev - snapshotIndex l) (entries l) ++
      merge_entries (drop (prev - snapshotIndex l) (entries l)) (drop (snapshotIndex l - prev) es).
Proof.
  intros Hwf Hprev Hes. pose proof Hwf as [Hn _]. unfold LastIndex in Hprev.
  unfold AppendAfter.
  rewrite <-(take_drop (snapshotIndex l - prev) es), append_loop_skip, take_drop; last first.
  { apply Forall_lookup. intros i e [Hi Hlt]%lookup_take_Some. rewrite (Hes _ _ Hi). lia. }
  destruct (decide (length es ≤ snapshotIndex l - prev)) as [Hle|_].
  - rewrite (drop_ge es) by lia. simpl. exists l. split_and!; try done.
    replace (merge_entries _ []) with (drop (prev - snapshotIndex l) (entries l))
      by (by destruct (drop _ (entries l))).
    by rewrite take_drop.
  - destruct (append_loop_merge (drop (snapshotIndex l - prev) es) l (prev - snapshotIndex l))
      as (n & -> & Hwf'); [done|lia| |].
    { apply (contiguous_drop _ _ (snapshotIndex l - prev)) in Hes.
      by replace (snapshotIndex l + (prev - snapshotIndex l) + 1)
        with (prev + 1 + (snapshotIndex l - prev)) by lia. }
    simpl. eexists (MkLog _ _ n _ _). split; [done|]. by split_and!.
Qed.

Lemma merge_entries_term cur : ∀ es i e,
  es !! i = Some e → ∃ c, merge_entries cur es !! i = Some c ∧ le_Term c = le_Term e.
Proof.
  induction cur as [|c cur IH]; intros [|e' es] i e Hi; simpl; try done; [naive_solver|].
  destruct (Nat.eqb_spec (le_Term c) (le_Term e')); [|naive_solver].
  destruct i as [|i]; simpl in *; naive_solver.
Qed.

Lemma merge_entries_same es : merge_entries es es = es.
Proof. induction es as [|e es IH]; [done|]. simpl. by rewrite Nat.eqb_refl, IH. Qed.

Lemma merge_entries_idem cur : ∀ es, merge_entries (merge_entries cur es) es = merge_entries cur es.
Proof.
  induction cur as [|c cur IH]; intros [|e es]; simpl; try done.
  - by rewrite Nat.eqb_refl, merge_entries_same.
  - destruct (Nat.eqb_spec (le_Term c) (le_Term e)) as [Heq|]; simpl.
    + destruct (Nat.eqb_spec (le_Term c) (le_Term e)); [|done]. by rewrite IH.
    + by rewrite Nat.eqb_refl, merge_entries_same.
Qed.

Lemma merge_entries_length cur : ∀ es, length es ≤ length (merge_entries cur es).
Proof.
  induction cur as [|c cur IH]; intros [|e es]; simpl; try lia.
  case_match; simpl; [|lia]. specialize (IH es). lia.
Qed.

(** A well-formed log is determined by its fields other than [nextIndex]. *)
Lemma wf_eq l1 l2 :
  wf l1 → wf l2 → entries l1 = entries l2 → commitIndex l1 = commitIndex l2 →
  snapshotIndex l1 = snapshotIndex l2 → snapshotTerm l1 = snapshotTerm l2 → l1 = l2.
Proof.
  intros [H1 _] [H2 _]. destruct l1, l2; simpl in *. intros -> -> -> ->. f_equal. lia.
Qed.

Lemma AppendAfter_replay l l' last prev es :
  wf l → prev ≤ LastIndex l → contiguous (prev + 1) es →
  AppendAfter l prev es = Ok (last, l') → AppendAfter l' prev es = Ok (last, l').
Proof.
  intros Hwf Hprev Hes Heq.
  destruct (AppendAfter_merge l prev es Hwf Hprev Hes) as (l0 & Heq0 & Hwf0 & Hsi & Hst & Hci & Hent).
  rewrite Heq in Heq0. injection Heq0 as -> ->.
  pose proof Hwf as [Hn _]. pose proof Hwf0 as [Hn0 _]. unfold LastIndex in Hprev.
  set (k := prev - snapshotIndex l) in *.
  assert (Htk : length (take k (entries l)) = k) by (rewrite length_take; lia).
  assert (Hprev' : prev ≤ LastIndex l0).
  { unfold LastIndex. rewrite Hn0, Hent, Hsi, length_app, Htk.
    destruct (decide (snapshotIndex l ≤ prev)); lia. }
  destruct (AppendAfter_merge l0 prev es Hwf0 Hprev' Hes)
    as (l1 & -> & Hwf1 & Hsi1 & Hst1 & Hci1 & Hent1).
  enough (l1 = l0) as -> by done.
  apply wf_eq; try congruence. rewrite Hent1, Hsi. fold k. rewrite Hent at 1 2.
  rewrite take_app_le, take_ge, drop_app_ge, Htk, Nat.sub_diag, drop_0 by lia.
  rewrite merge_entries_idem. by rewrite Hent.
Qed.

(** ** Compaction *)

Lemma Compact_spec l upto term :
  wf l → snapshotIndex l < upto < nextIndex l →
  (term = 0 ∨ term_at l upto = Some term) →
  ∃ l', Compact l upto term = Ok l' ∧ wf l' ∧ snapshotIndex l' = upto ∧
    nextIndex l' = nextIndex l ∧ commitIndex l' = commitIndex l ∧
    term_at l' upto = term_at l upto ∧
    ∀ i, upto < i → entry_at l' i = entry_at l i.
Proof.
  intros Hwf Hu Ht. pose proof Hwf as [Hn Hc]. unfold Compact.
  destruct (Nat.leb_spec upto (snapshotIndex l)); [lia|].
  destruct (Nat.leb_spec (nextIndex l) upto); [lia|].
  destruct (Nat.leb_spec upto (snapshotIndex l)); [lia|].
  destruct (Nat.ltb_spec (length (entries l)) (upto - snapshotIndex l)); [lia|].
  destruct (at_pos_in l upto Hwf Hu) as (e & He & Hp).
  replace (Z.of_nat (upto - snapshotIndex l) - 1)%Z with (pos l upto) by (unfold pos; lia).
  rewrite Hp. simpl. eexists. split; [done|].
  assert (Hterm : term_at l upto = Some (if term =? 0 then le_Term e else term)).
  { destruct Ht as [->|Ht].
    - unfold term_at. destruct (Nat.eqb_spec upto (snapshotIndex l)); [lia|]. by rewrite He.
    - rewrite Ht. unfold term_at in Ht. destruct (Nat.eqb_spec upto (snapshotIndex l)); [lia|].
      rewrite He in Ht. simpl in Ht. destruct (Nat.eqb_spec term 0); congruence. }
  split_and!; try done.
  - split; simpl; [rewrite length_drop; lia|].
    apply (contiguous_drop _ _ (upto - snapshotIndex l)) in Hc.
    by replace (upto + 1) with (snapshotIndex l + 1 + (upto - snapshotIndex l)) by lia.
  - rewrite Hterm. unfold term_at; simpl. rewrite Nat.eqb_refl.
    destruct (Nat.eqb_spec upto 0); [lia|done].
  - intros i Hi. unfold entry_at; simpl.
    destruct (Nat.leb_spec i upto), (Nat.leb_spec i (snapshotIndex l)); try lia.
    rewrite lookup_drop. f_equal. lia.
Qed.

Lemma InstallSnapshot_wf l index term : wf l → wf (InstallSnapshot l index term).
Proof.
  intros Hwf. unfold InstallSnapshot. case_match; [done|].
  split; simpl; [lia|]. apply contiguous_nil.
Qed.

End Log.

Import Log.

(** C14. AppendEntries is the reference merge: from a previous index inside the log and a
    contiguous batch, [AppendAfter] never panics, keeps the log well formed, leaves everything up
    to the previous index alone, keeps entries that agree with the batch by term and replaces the
    log from the first disagreement on; batch entries at or below the snapshot are skipped.  The
    returned index is the last index of the resulting log, and a redelivery of the same batch
    changes nothing. *)
Theorem append_after_is_merge l prev es :
  wf l → prev ≤ LastIndex l → contiguous (prev + 1) es →
  ∃ l', AppendAfter l prev es = Ok (LastIndex l', l') ∧ wf l' ∧
    SnapshotBoundary l' = SnapshotBoundary l ∧ CommitIndex l' = CommitIndex l ∧
    Snapshot l' = take (prev - snapshotIndex l) (Snapshot l) ++
      merge_entries (drop (prev - snapshotIndex l) (Snapshot l)) (drop (snapshotIndex l - prev) es) ∧
    AppendAfter l' prev es = Ok (LastIndex l', l').
Proof.
  intros Hwf Hprev Hes.
  destruct (AppendAfter_merge l prev es Hwf Hprev Hes) as (l' & Heq & Hwf' & Hsi & Hst & Hci & Hent).
  exists l'. unfold SnapshotBoundary, CommitIndex. rewrite Hsi, Hst.
  split_and!; try done. by apply (AppendAfter_replay l).
Qed.

Definition demo_entry (i t : nat) : LogEntry :=
  MkLogEntry i t "k" (Some "v") OpSet 0 "n1" None.

Definition demo_log : ReplicationLog :=
  MkLog [demo_entry 3 1; demo_entry 4 1; demo_entry 5 1] 3 6 2 1.

Lemma append_after_is_merge_witness :
  ∃ l', AppendAfter demo_log 3 [demo_entry 4 1; demo_entry 5 2] = Ok (LastIndex l', l') ∧ wf l' ∧
    SnapshotBoundary l' = SnapshotBoundary demo_log ∧ CommitIndex l' = CommitIndex demo_log ∧
    Snapshot l' = [demo_entry 3 1; demo_entry 4 1; demo_entry 5 2] ∧
    AppendAfter l' 3 [demo_entry 4 1; demo_entry 5 2] = Ok (LastIndex l', l').
Proof.
  apply (append_after_is_merge demo_log 3 [demo_entry 4 1; demo_entry 5 2]).
  - split; [done|]. simpl. repeat (apply contiguous_cons; split; [done|]). apply contiguous_nil.
  - unfold LastIndex; simpl. lia.
  - repeat (apply contiguous_cons; split; [done|]). apply contiguous_nil.
Defined.

(** Compaction is invisible above its boundary: compacting a well-formed log up to one of its
    own indices succeeds, keeps the log well formed, and every later read (entry, term, tail, last
    index and term, consistency check) at or after the boundary gives what it gave before. *)
Theorem compact_transparent l upto term :
  wf l → snapshotIndex l < upto < nextIndex l → (term = 0 ∨ TermAt l upto = Ok term) →
  ∃ l', Compact l upto term = Ok l' ∧ wf l' ∧ fst (SnapshotBoundary l') = upto ∧
    LastIndexTerm l' = LastIndexTerm l ∧
    (∀ i, upto < i → Get l' i = Get l i ∧ GetFrom l' i = GetFrom l i) ∧
    (∀ i, upto ≤ i → TermAt l' i = TermAt l i ∧ ∀ t, Matches l' i t = Matches l i t).
Proof.
  intros Hwf Hu Ht.
  destruct (Compact_spec l upto term Hwf Hu) as (l' & Heq & Hwf' & Hsi & Hni & Hci & Hta & Hea).
  { destruct Ht as [?|Ht]; [by left|right]. rewrite TermAt_spec in Ht by done.
    destruct (at_pos_in l upto Hwf Hu) as (e & He & _). revert Ht. unfold term_at.
    destruct (Nat.eqb_spec upto (snapshotIndex l)); [lia|]. rewrite He. simpl. congruence. }
  assert (Hterm : ∀ i, upto ≤ i → term_at l' i = term_at l i).
  { intros i Hi. destruct (decide (i = upto)) as [->|]; [done|]. unfold term_at.
    destruct (Nat.eqb_spec i (snapshotIndex l)), (Nat.eqb_spec i (snapshotIndex l')); try lia.
    by rewrite Hea by lia. }
  exists l'. split_and!; try done.
  - rewrite !LastIndexTerm_spec by done. unfold LastIndex. rewrite Hni, Hterm; [done|lia].
  - intros i Hi. rewrite !Get_spec, Hea by done. split; [done|].
    assert (Hent : entries l' = drop (upto - snapshotIndex l) (entries l)).
    { apply list_eq. intros j. rewrite lookup_drop.
      specialize (Hea (upto + S j) ltac:(lia)). revert Hea. unfold entry_at. rewrite Hsi.
      destruct (Nat.leb_spec (upto + S j) upto), (Nat.leb_spec (upto + S j) (snapshotIndex l));
        try lia.
      replace (upto + S j - upto - 1) with j by lia. intros ->. f_equal. lia. }
    rewrite !GetFrom_spec, Hent, drop_drop, Hsi by done. do 2 f_equal. lia.
  - intros i Hi. rewrite !TermAt_spec, Hterm by done. split; [done|].
    intros t. by rewrite !Matches_spec, Hterm.
Qed.

Lemma compact_transparent_witness :
  ∃ l', Compact demo_log 4 0 = Ok l' ∧ wf l' ∧ fst (SnapshotBoundary l') = 4 ∧
    LastIndexTerm l' = LastIndexTerm demo_log ∧
    (∀ i, 4 < i → Get l' i = Get demo_log i ∧ GetFrom l' i = GetFrom demo_log i) ∧
    (∀ i, 4 ≤ i → TermAt l' i = TermAt demo_log i ∧ ∀ t, Matches l' i t = Matches demo_log i t).
Proof.
  apply (compact_transparent demo_log 4 0).
  - split; [done|]. simpl. repeat (apply contiguous_cons; split; [done|]). apply contiguous_nil.
  - simpl. lia.
  - by left.
Defined.
