(* ===== verification/Crdt.v ===== *)
(** * State-based CRDTs

    Models the convergent data types of [src/internal/conflict]: the last-write-wins register and
    the grow-only counter of [crdt.go], and the positive-negative counter, observed-remove set and
    last-write-wins map of [crdt_types.go].  [Crdt] is the interface they promise: on valid states
    the merge is a join (commutative, associative, idempotent) up to an observational equivalence.
    Convergence is proved once against the interface, for arbitrary merge trees. *)

From S2P Require Import Prelude Storage.
Import (hints) VectorClock.

(** ** The interface *)

Class Crdt (A : Type) (eqv : relation A) (ok : A → Prop) (merge : A → A → A) := {
  crdt_equiv :: Equivalence eqv;
  crdt_closed a b : ok a → ok b → ok (merge a b);
  crdt_proper a a' b b' :
    ok a → ok a' → ok b → ok b' → eqv a a' → eqv b b' → eqv (merge a b) (merge a' b');
  crdt_comm a b : ok a → ok b → eqv (merge a b) (merge b a);
  crdt_assoc a b c : ok a → ok b → ok c → eqv (merge a (merge b c)) (merge (merge a b) c);
  crdt_idem a : ok a → eqv (merge a a) a;
}.

(** A history of deliveries: states are merged pairwise, in any grouping, with repetitions. *)
Inductive mtree (A : Type) :=
  | Leaf (a : A)
  | Node (l r : mtree A).
Arguments Leaf {_} _.
Arguments Node {_} _ _.

Fixpoint leaves {A} (t : mtree A) : list A :=
  match t with Leaf a => [a] | Node l r => leaves l ++ leaves r end.

Fixpoint run_merges {A} (merge : A → A → A) (t : mtree A) : A :=
  match t with
  | Leaf a => a
  | Node l r => merge (run_merges merge l) (run_merges merge r)
  end.

Section convergence.
Context {A : Type} {eqv : relation A} {ok : A → Prop} {merge : A → A → A} `{!Crdt A eqv ok merge}.

Definition below (a b : A) : Prop := eqv (merge a b) b.

Lemma merge_ok a b : ok a → ok b → ok (merge a b).
Proof using All. apply (crdt_closed (eqv := eqv)). Qed.

Lemma run_merges_ok t : Forall ok (leaves t) → ok (run_merges merge t).
Proof using All.
  induction t as [a|l IHl r IHr]; simpl.
  - intros H. by apply Forall_inv in H.
  - intros [? ?]%Forall_app. apply merge_ok; auto.
Qed.

Lemma below_merge_l a b c : ok a → ok b → ok c → below a b → below a (merge b c).
Proof using All.
  intros Ha Hb Hc Hab. unfold below in *.
  etransitivity; [by apply crdt_assoc|].
  apply crdt_proper; auto using merge_ok. reflexivity.
Qed.

Lemma below_merge_r a b c : ok a → ok b → ok c → below a c → below a (merge b c).
Proof using All.
  intros Ha Hb Hc Hac. unfold below.
  transitivity (merge a (merge c b)).
  { apply crdt_proper; auto using merge_ok; [reflexivity|by apply crdt_comm]. }
  etransitivity; [by apply below_merge_l|]. by apply crdt_comm.
Qed.

Lemma below_lub a b c : ok a → ok b → ok c → below a c → below b c → below (merge a b) c.
Proof using All.
  intros Ha Hb Hc Hac Hbc. unfold below in *.
  etransitivity; [symmetry; by apply crdt_assoc|].
  transitivity (merge a c); [|done].
  apply crdt_proper; auto using merge_ok. reflexivity.
Qed.

Lemma leaf_below t a : Forall ok (leaves t) → a ∈ leaves t → below a (run_merges merge t).
Proof using All.
  induction t as [x|l IHl r IHr]; simpl.
  - intros Hx%Forall_inv ->%list_elem_of_singleton. by apply crdt_idem.
  - intros Hok [Hin|Hin]%elem_of_app.
    all: assert (ok a) by (eapply Forall_forall; [exact Hok|set_solver]).
    all: apply Forall_app in Hok as [? ?].
    + apply below_merge_l; auto using run_merges_ok.
    + apply below_merge_r; auto using run_merges_ok.
Qed.

Lemma run_merges_lub t c :
  Forall ok (leaves t) → ok c → (∀ a, a ∈ leaves t → below a c) → below (run_merges merge t) c.
Proof using All.
  induction t as [x|l IHl r IHr]; simpl.
  - intros _ _ H. apply H. by left.
  - intros [? ?]%Forall_app Hc Hall.
    apply below_lub; auto using run_merges_ok.
    + apply IHl; auto. intros. apply Hall. set_solver.
    + apply IHr; auto. intros. apply Hall. set_solver.
Qed.

(** Two replicas that received the same states, in whatever order and grouping, agree. *)
Lemma merges_converge t1 t2 :
  Forall ok (leaves t1) → (∀ a, a ∈ leaves t1 ↔ a ∈ leaves t2) →
  eqv (run_merges merge t1) (run_merges merge t2).
Proof using All.
  intros Hok1 Hsame.
  assert (Hok2 : Forall ok (leaves t2)).
  { apply Forall_forall. intros a Ha%Hsame. by eapply Forall_forall in Hok1. }
  assert (H12 : below (run_merges merge t1) (run_merges merge t2)).
  { apply run_merges_lub; auto using run_merges_ok. intros a Ha%Hsame. by apply leaf_below. }
  assert (H21 : below (run_merges merge t2) (run_merges merge t1)).
  { apply run_merges_lub; auto using run_merges_ok. intros a Ha%Hsame. by apply leaf_below. }
  unfold below in *. rewrite <-H12. rewrite <-H21 at 1.
  apply crdt_comm; auto using run_merges_ok.
Qed.
End convergence.

(** ** Folding the counters of a map does not see zero entries *)

Section fold_counts.
Context {B : Type} (f : N → B → B) (P : B → Prop).
Context (f_comm : ∀ v w b, f v (f w b) = f w (f v b)).
Context (f_inv : ∀ v b, P b → P (f v b)).
Context (f_zero : ∀ b, P b → f 0%N b = b).

Definition fold_counts (b : B) (m : gmap string N) : B := map_fold (λ _ v s, f v s) b m.

Lemma fold_counts_insert b m k v :
  m !! k = None → fold_counts b (<[k:=v]> m) = f v (fold_counts b m).
Proof using f_comm. intros Hk. unfold fold_counts. rewrite map_fold_insert_L; [done| |done]. auto. Qed.

Lemma fold_counts_P b m : P b → P (fold_counts b m).
Proof using f_inv. intros Hb. by apply (map_fold_weak_ind (λ r _, P r)); auto. Qed.

Lemma fold_counts_filter b m :
  P b → fold_counts b m = fold_counts b (filter (λ kv, kv.2 ≠ 0%N) m).
Proof using f_comm f_inv f_zero.
  intros Hb. induction m as [|k v m Hk IH] using map_ind; [by rewrite map_filter_empty|].
  rewrite fold_counts_insert by done. destruct (decide (v = 0%N)) as [->|Hv].
  - rewrite map_filter_insert_not' by naive_solver.
    rewrite f_zero by by apply fold_counts_P. done.
  - rewrite map_filter_insert_True by done.
    rewrite fold_counts_insert by (by rewrite map_lookup_filter_None; left). by rewrite IH.
Qed.

Lemma fold_counts_equiv b m1 m2 :
  P b → VectorClock.vc_equiv m1 m2 → fold_counts b m1 = fold_counts b m2.
Proof using f_comm f_inv f_zero.
  intros Hb He. rewrite (fold_counts_filter b m1), (fold_counts_filter b m2) by done.
  f_equal. apply map_eq. intros k. specialize (He k). unfold get0 in He.
  apply option_eq. intros x. rewrite !map_lookup_filter_Some. simpl.
  destruct (m1 !! k), (m2 !! k); simpl in He; naive_solver.
Qed.
End fold_counts.

(** ** The grow-only counter *)

Module GCounter.

Definition GCounterType : string := "gcounter".

Record GCounter := MkGCounter { Type_ : string; Counts : gmap string N }.

Definition NewGCounter : GCounter := MkGCounter GCounterType ∅.

Definition Increment (g : GCounter) (nodeID : string) : GCounter :=
  MkGCounter (Type_ g) (<[nodeID := u64N ((Counts g).[nodeID] + 1)]> (Counts g)).

Definition Value (g : GCounter) : N := map_fold (λ _ v sum, u64N (sum + v)) 0%N (Counts g).

Definition Merge (g other : GCounter) : GCounter :=
  let copy := map_fold (λ k v r, <[k := v]> r) ∅ (Counts g) in
  MkGCounter GCounterType
    (map_fold (λ k v r, if (r.[k] <? v)%N then <[k := v]> r else r) copy (Counts other)).

Lemma Merge_Counts g h : Counts (Merge g h) = VectorClock.Merge (Counts g) (Counts h).
Proof.
  unfold Merge; simpl. f_equal. apply (VectorClock.Clone_id (Some (Counts g))).
Qed.

Definition ok (g : GCounter) : Prop := Type_ g = GCounterType.
Definition eqv (g h : GCounter) : Prop := VectorClock.vc_equiv (Counts g) (Counts h).

#[export] Instance eqv_equivalence : Equivalence eqv.
Proof.
  unfold eqv. split; [intros ?; reflexivity|by intros ? ? ->|by intros ? ? ? -> ->].
Qed.

#[export] Instance crdt : Crdt GCounter eqv ok Merge.
Proof.
  split; [apply _|done|..]; unfold eqv; intros; rewrite ?Merge_Counts.
  - by repeat match goal with H : VectorClock.vc_equiv _ _ |- _ => rewrite H; clear H end.
  - apply VectorClock.Merge_comm.
  - intros n. rewrite !VectorClock.Merge_get0. lia.
  - intros n. rewrite VectorClock.Merge_get0. lia.
Qed.

Lemma gcounter_Value_eqv g h : eqv g h → Value g = Value h.
Proof.
  apply (fold_counts_equiv (λ v s, u64N (s + v)) (λ s, (s < two64N)%N)).
  - intros v w b. rewrite !u64N_add_l. f_equal. lia.
  - intros. apply u64N_lt.
  - intros b Hb. rewrite N.add_0_r. by apply u64N_id.
  - done.
Qed.
End GCounter.

(** ** The positive-negative counter *)

Module PNCounter.

Definition PNCounterType : string := "pncounter".

Record PNCounter := MkPNCounter { Type_ : string; P : gmap string N; N_ : gmap string N }.

Definition Value (a : PNCounter) : Z :=
  let sum := map_fold (λ _ v sum, i64 (sum + i64 (Z.of_N v))) 0%Z (P a) in
  map_fold (λ _ v sum, i64 (sum - i64 (Z.of_N v))) sum (N_ a).

(** One of the two loops over [src]. *)
Definition max_into (out src : gmap string N) : gmap string N :=
  map_fold (λ k v out, if (out.[k] <? v)%N then <[k := v]> out else out) out src.

Definition Merge (a b : PNCounter) : PNCounter :=
  MkPNCounter PNCounterType
    (foldl max_into ∅ [P a; P b]) (foldl max_into ∅ [N_ a; N_ b]).

Lemma max_into_get0 out src k : (max_into out src).[k] = N.max out.[k] src.[k].
Proof. apply VectorClock.Merge_get0. Qed.

Lemma Merge_P a b k : (P (Merge a b)).[k] = N.max (P a).[k] (P b).[k].
Proof. simpl. rewrite !max_into_get0, get0_empty. lia. Qed.

Lemma Merge_N a b k : (N_ (Merge a b)).[k] = N.max (N_ a).[k] (N_ b).[k].
Proof. simpl. rewrite !max_into_get0, get0_empty. lia. Qed.

Definition ok (a : PNCounter) : Prop := Type_ a = PNCounterType.
Definition eqv (a b : PNCounter) : Prop :=
  VectorClock.vc_equiv (P a) (P b) ∧ VectorClock.vc_equiv (N_ a) (N_ b).

#[export] Instance eqv_equivalence : Equivalence eqv.
Proof.
  unfold eqv. split; [intros ?; split; reflexivity|by intros ? ? [-> ->]|].
  by intros ? ? ? [-> ->] [-> ->].
Qed.

#[export] Instance crdt : Crdt PNCounter eqv ok Merge.
Proof.
  split; [apply _|done|..]; intros; split; intros k; rewrite ?Merge_P, ?Merge_N; try lia.
  all: repeat match goal with H : eqv _ _ |- _ => destruct H as [? ?] end.
  all: repeat match goal with H : VectorClock.vc_equiv _ _ |- _ => specialize (H k) end; lia.
Qed.

Lemma pncounter_Value_eqv a b : eqv a b → Value a = Value b.
Proof.
  intros [HP HN]. unfold Value.
  pose proof (fold_counts_equiv (λ v s, i64 (s + i64 (Z.of_N v))) in_i64) as FP.
  pose proof (fold_counts_equiv (λ v s, i64 (s - i64 (Z.of_N v))) in_i64) as FN.
  unfold fold_counts in FP, FN.
  rewrite (FP) with (m2 := P b); [rewrite FN with (m2 := N_ b); [done|..]|..]; try done.
  - intros v w s. rewrite <-!Z.add_opp_r, !i64_add_l. f_equal. lia.
  - intros. apply i64_range.
  - intros s Hs. simpl. rewrite (i64_id 0) by (unfold in_i64, two63; lia). rewrite Z.sub_0_r. by apply i64_id.
  - apply (map_fold_weak_ind (λ r _, in_i64 r)); [by unfold in_i64, two63; lia|].
    intros. apply i64_range.
  - intros v w s. rewrite !i64_add_l. f_equal. lia.
  - intros. apply i64_range.
  - intros s Hs. simpl. rewrite (i64_id 0) by (unfold in_i64, two63; lia). rewrite Z.add_0_r. by apply i64_id.
Qed.
End PNCounter.

(** ** Last-write-wins register and map *)

Module LWW.

Record LWWRegister := MkReg { reg_Value : option string; reg_Timestamp : Z; reg_NodeID : string }.

(** Whether [Merge] returns its argument. *)
Definition other_wins (r other : LWWRegister) : bool :=
  (reg_Timestamp r <? reg_Timestamp other)%Z ||
  ((reg_Timestamp other =? reg_Timestamp r)%Z && str_ltb (reg_NodeID r) (reg_NodeID other)).

Definition Merge (r other : LWWRegister) : LWWRegister := if other_wins r other then other else r.

Definition LWWMapType : string := "lwwmap".

Record LWWMapEntry := MkEntry { e_Value : string; e_Timestamp : Z; e_NodeID : string }.

Record LWWMap := MkLWWMap { Type_ : string; Entries : gmap string LWWMapEntry }.

Definition lwwMapEntryWins (x y : LWWMapEntry) : bool :=
  if negb (e_Timestamp x =? e_Timestamp y)%Z then (e_Timestamp y <? e_Timestamp x)%Z
  else if negb (String.eqb (e_NodeID x) (e_NodeID y)) then str_ltb (e_NodeID y) (e_NodeID x)
  else str_ltb (e_Value y) (e_Value x).

Definition MapMerge (a b : LWWMap) : LWWMap :=
  let out := map_fold (λ k v out, <[k := v]> out) ∅ (Entries a) in
  MkLWWMap LWWMapType
    (map_fold (λ k v out,
       match out !! k with
       | Some cur => if lwwMapEntryWins v cur then <[k := v]> out else out
       | None => <[k := v]> out
       end) out (Entries b)).

(** The order the winner is taken from: timestamp, then node, then value. *)
Definition entry_lt (x y : LWWMapEntry) : Prop :=
  (e_Timestamp x < e_Timestamp y)%Z ∨
  e_Timestamp x = e_Timestamp y ∧
    (str_lt (e_NodeID x) (e_NodeID y) ∨
     e_NodeID x = e_NodeID y ∧ str_lt (e_Value x) (e_Value y)).

Lemma wins_spec x y : lwwMapEntryWins x y = true ↔ entry_lt y x.
Proof.
  unfold lwwMapEntryWins, entry_lt.
  destruct (Z.eqb_spec (e_Timestamp x) (e_Timestamp y)) as [Ht|Ht]; simpl.
  - destruct (String.eqb_spec (e_NodeID x) (e_NodeID y)) as [Hn|Hn]; simpl;
      rewrite str_ltb_lt; rewrite ?Ht, ?Hn.
    + split; [naive_solver|]. intros [?|[_ [?|[_ ?]]]]; [lia| |done].
      by destruct (str_lt_irrefl (e_NodeID y)).
    + split; [naive_solver|]. intros [?|[_ [?|[? _]]]]; [lia|done|congruence].
  - rewrite Z.ltb_lt. split; [by left|]. intros [?|[? _]]; [done|congruence].
Qed.

Lemma entry_lt_irrefl x : ¬ entry_lt x x.
Proof.
  intros [?|[_ [H|[_ H]]]]; [lia|..]; by apply str_lt_irrefl in H.
Qed.

Lemma entry_lt_trans x y z : entry_lt x y → entry_lt y z → entry_lt x z.
Proof.
  unfold entry_lt. intros [?|[-> Hxy]] [?|[Ht Hyz]].
  1-3: left; lia.
  right. split; [done|]. destruct Hxy as [?|[-> ?]], Hyz as [?|[<- ?]].
  - left. by etransitivity.
  - by left.
  - by left.
  - right. split; [done|]. by etransitivity.
Qed.

Lemma entry_lt_total x y : entry_lt x y ∨ x = y ∨ entry_lt y x.
Proof.
  unfold entry_lt. destruct x as [v t n], y as [v' t' n']; simpl.
  destruct (Z.lt_trichotomy t t') as [?|[->|?]]; [naive_solver| |naive_solver].
  destruct (str_lt_trichotomy n n') as [?|[->|?]]; [naive_solver| |naive_solver].
  destruct (str_lt_trichotomy v v') as [?|[->|?]]; naive_solver.
Qed.

Definition pick (x y : LWWMapEntry) : LWWMapEntry := if lwwMapEntryWins y x then y else x.

Lemma pick_cases x y : (pick x y = y ∧ entry_lt x y) ∨ (pick x y = x ∧ (x = y ∨ entry_lt y x)).
Proof.
  unfold pick. destruct (lwwMapEntryWins y x) eqn:E; [left|right]; (split; [done|]).
  - by apply wins_spec.
  - destruct (entry_lt_total x y) as [H|[?|?]]; [|auto..]. apply wins_spec in H. congruence.
Qed.

Lemma entry_lt_asym x y : entry_lt x y → ¬ entry_lt y x.
Proof. intros H1 H2. by eapply entry_lt_irrefl, entry_lt_trans. Qed.

Lemma pick_comm x y : pick x y = pick y x.
Proof.
  destruct (pick_cases x y) as [[-> H1]|[-> H1]], (pick_cases y x) as [[-> H2]|[-> H2]];
    try done; [by apply entry_lt_asym in H1|].
  destruct H1 as [?|H1], H2 as [?|H2]; try done. by apply entry_lt_asym in H1.
Qed.

Lemma pick_lt x y : entry_lt x y → pick x y = y.
Proof. intros H%wins_spec. unfold pick. by rewrite H. Qed.

Lemma pick_ge x y : x = y ∨ entry_lt y x → pick x y = x.
Proof.
  destruct (pick_cases x y) as [[_ H]|[-> _]]; [|done].
  intros [<-|?]; [by apply entry_lt_irrefl in H|by apply entry_lt_asym in H].
Qed.

Lemma pick_assoc x y z : pick x (pick y z) = pick (pick x y) z.
Proof.
  destruct (pick_cases y z) as [[Eyz Hyz]|[Eyz Hyz]], (pick_cases x y) as [[Exy Hxy]|[Exy Hxy]];
    rewrite Eyz, Exy.
  - rewrite Eyz. apply pick_lt. by eapply entry_lt_trans.
  - done.
  - by rewrite ?Exy, Eyz.
  - rewrite ?Exy. symmetry. apply pick_ge.
    destruct Hyz as [<-|Hyz], Hxy as [<-|Hxy]; eauto using entry_lt_trans.
Qed.

Lemma MapMerge_lookup a b k :
  Entries (MapMerge a b) !! k = union_with (λ x y, Some (pick x y)) (Entries a !! k) (Entries b !! k).
Proof.
  unfold MapMerge; cbn [Entries].
  replace (map_fold (λ k v out, <[k:=v]> out) ∅ (Entries a)) with (Entries a); last first.
  { symmetry. apply (map_fold_weak_ind (λ r m, r = m)); [done|]. by intros ? ? ? ? _ ->. }
  apply (map_fold_weak_ind
    (λ r m, r !! k = union_with (λ x y, Some (pick x y)) (Entries a !! k) (m !! k))).
  - rewrite lookup_empty. by destruct (Entries a !! k).
  - intros i x m r Hi IH. destruct (decide (i = k)) as [->|Hne].
    + rewrite IH, Hi, lookup_insert_eq. unfold pick.
      destruct (Entries a !! k) as [y|] eqn:E; simpl; [|by rewrite lookup_insert_eq].
      destruct (lwwMapEntryWins x y); [by rewrite lookup_insert_eq|].
      by rewrite IH, Hi.
    + rewrite lookup_insert_ne by done.
      destruct (r !! i); [destruct (lwwMapEntryWins x _)|]; by rewrite ?lookup_insert_ne by done.
Qed.

Definition ok (a : LWWMap) : Prop := Type_ a = LWWMapType.
Definition eqv (a b : LWWMap) : Prop := Entries a = Entries b.

#[export] Instance eqv_equivalence : Equivalence eqv.
Proof. unfold eqv. split; [by intros ?|by intros ? ? ->|by intros ? ? ? -> ->]. Qed.

#[export] Instance crdt : Crdt LWWMap eqv ok MapMerge.
Proof.
  split; [apply _|done|..]; unfold eqv; intros; apply map_eq; intros k;
    rewrite ?MapMerge_lookup; try congruence.
  - destruct (Entries a !! k), (Entries b !! k); simpl; try done. by rewrite pick_comm.
  - destruct (Entries a !! k), (Entries b !! k), (Entries c !! k); simpl; try done.
    by rewrite pick_assoc.
  - destruct (Entries a !! k); simpl; [|done]. unfold pick. by destruct (lwwMapEntryWins _ _).
Qed.

(** Registers written by at most one writer per timestamp and node. *)
Section register.
Context (written : Z → string → option string).

Definition reg_ok (r : LWWRegister) : Prop := reg_Value r = written (reg_Timestamp r) (reg_NodeID r).

Definition reg_key (r : LWWRegister) : Z * string := (reg_Timestamp r, reg_NodeID r).

Lemma reg_ok_eq r s : reg_ok r → reg_ok s → reg_key r = reg_key s → r = s.
Proof. unfold reg_ok, reg_key. destruct r, s; simpl. by intros -> -> [= -> ->]. Qed.

(** Embedding into map entries carries the order laws over. *)
Definition as_entry (r : LWWRegister) : LWWMapEntry :=
  MkEntry "" (reg_Timestamp r) (reg_NodeID r).

Lemma as_entry_Merge r s : as_entry (Merge r s) = pick (as_entry r) (as_entry s).
Proof.
  unfold Merge, other_wins, pick, lwwMapEntryWins; simpl. rewrite str_ltb_irrefl.
  destruct (Z.ltb_spec (reg_Timestamp r) (reg_Timestamp s)),
    (Z.eqb_spec (reg_Timestamp s) (reg_Timestamp r)); simpl; try lia; try done.
  destruct (String.eqb_spec (reg_NodeID s) (reg_NodeID r)) as [->|]; simpl.
  - by rewrite str_ltb_irrefl.
  - by destruct (str_ltb (reg_NodeID r) (reg_NodeID s)).
Qed.

Lemma as_entry_inj r s : reg_ok r → reg_ok s → as_entry r = as_entry s → r = s.
Proof. intros Hr Hs [= Ht Hn]. apply reg_ok_eq; [done..|]. unfold reg_key. by rewrite Ht, Hn. Qed.

Lemma reg_Merge_ok r s : reg_ok r → reg_ok s → reg_ok (Merge r s).
Proof. intros. unfold Merge. repeat case_match; done. Qed.

#[export] Instance reg_crdt : Crdt LWWRegister eq reg_ok Merge.
Proof.
  split; [apply _|apply reg_Merge_ok|congruence|..]; intros;
    apply as_entry_inj; auto using reg_Merge_ok; rewrite !as_entry_Merge.
  - apply pick_comm.
  - apply pick_assoc.
  - unfold pick. by destruct (lwwMapEntryWins _ _).
Qed.
End register.
End LWW.

(** ** The observed-remove set *)

Module ORSet.

Definition ORSetType : string := "orset".

Record ORSet := MkORSet {
  Type_ : string;
  Adds : gmap string (list string);
  Removes : gmap string bool;
}.

(** [Removes[t]] of a Go map *)
Definition removed (a : ORSet) (t : string) : bool := default false (Removes a !! t).

Definition tags_of (adds : gmap string (list string)) (el : string) : list string :=
  default [] (adds !! el).

Definition Elements (a : ORSet) : list string :=
  sort_strings (map_fold (λ el tags out,
    if existsb (λ t, negb (removed a t)) tags then out ++ [el] else out) [] (Adds a)).

(** The closure [add] of [Merge]: [seen] holds the tags already copied per element. *)
Definition add_tag (el : string) (st : gmap string (gset string) * gmap string (list string))
    (t : string) : gmap string (gset string) * gmap string (list string) :=
  let '(seen, out) := st in
  if bool_decide (t ∈ default ∅ (seen !! el)) then (seen, out)
  else (<[el := {[t]} ∪ default ∅ (seen !! el)]> seen, <[el := tags_of out el ++ [t]]> out).

Definition add (st : gmap string (gset string) * gmap string (list string))
    (src : gmap string (list string)) : gmap string (gset string) * gmap string (list string) :=
  map_fold (λ el tags st,
    let '(seen, out) := st in
    let seen := match seen !! el with None => <[el := ∅]> seen | Some _ => seen end in
    foldl (add_tag el) (seen, out) tags) st src.

Definition Merge (a b : ORSet) : ORSet :=
  let '(_, adds) := add (add (∅, ∅) (Adds a)) (Adds b) in
  let removes := foldl (λ out src, map_fold (λ t _ out, <[t := true]> out) out src) ∅
                   [Removes a; Removes b] in
  MkORSet ORSetType (sort_strings <$> adds) removes.

(** The tags copied so far are those seen, per element. *)
Definition add_inv (st : gmap string (gset string) * gmap string (list string)) : Prop :=
  ∀ el t, t ∈ default ∅ (st.1 !! el) ↔ t ∈ tags_of st.2 el.

Lemma tags_of_insert out el l el' :
  tags_of (<[el := l]> out) el' = if decide (el = el') then l else tags_of out el'.
Proof.
  unfold tags_of. case_decide; subst; [by rewrite lookup_insert_eq|by rewrite lookup_insert_ne].
Qed.

Lemma add_tag_spec el st t :
  add_inv st →
  add_inv (add_tag el st t) ∧
  ∀ el' t', t' ∈ tags_of (add_tag el st t).2 el' ↔ t' ∈ tags_of st.2 el' ∨ el' = el ∧ t' = t.
Proof.
  destruct st as [seen out]. intros Hinv. unfold add_tag. case_bool_decide as Hin.
  - split; [done|]. intros el' t'. simpl. apply Hinv in Hin. simpl in Hin. naive_solver.
  - split.
    + intros el' t'. simpl. rewrite tags_of_insert. case_decide; subst.
      * rewrite lookup_insert_eq. simpl. rewrite elem_of_app, elem_of_union, (Hinv el' t').
        set_solver.
      * rewrite lookup_insert_ne by done. apply Hinv.
    + intros el' t'. simpl. rewrite tags_of_insert. case_decide; subst; set_solver.
Qed.

Lemma add_tags_spec el tags : ∀ st,
  add_inv st →
  add_inv (foldl (add_tag el) st tags) ∧
  ∀ el' t', t' ∈ tags_of (foldl (add_tag el) st tags).2 el' ↔
    t' ∈ tags_of st.2 el' ∨ el' = el ∧ t' ∈ tags.
Proof.
  induction tags as [|t tags IH]; intros st Hinv; simpl; [split; [done|set_solver]|].
  destruct (add_tag_spec el st t Hinv) as [Hinv1 Hs1].
  destruct (IH _ Hinv1) as [Hinv2 Hs2]. split; [done|].
  intros el' t'. rewrite Hs2, Hs1, elem_of_cons. naive_solver.
Qed.

Lemma add_spec st src :
  add_inv st →
  add_inv (add st src) ∧
  ∀ el t, t ∈ tags_of (add st src).2 el ↔ t ∈ tags_of st.2 el ∨ t ∈ tags_of src el.
Proof.
  intros Hinv. unfold add.
  apply (map_fold_weak_ind (λ st' src, add_inv st' ∧
    ∀ el t, t ∈ tags_of st'.2 el ↔ t ∈ tags_of st.2 el ∨ t ∈ tags_of src el)).
  { split; [done|]. intros el t. unfold tags_of at 3. rewrite lookup_empty. set_solver. }
  intros el tags src' [seen out] Hel [Hinv' Hs].
  set (seen' := match seen !! el with None => _ | Some _ => _ end).
  assert (Hinv'' : add_inv (seen', out)).
  { intros el' t. rewrite <-(Hinv' el' t). subst seen'. simpl.
    destruct (seen !! el) eqn:E; [done|].
    destruct (decide (el = el')) as [->|]; [by rewrite lookup_insert_eq, E|].
    by rewrite lookup_insert_ne. }
  destruct (add_tags_spec el tags _ Hinv'') as [Hinv3 Hs3]. split; [done|].
  intros el' t. rewrite Hs3. simpl in *. rewrite Hs, tags_of_insert. case_decide; subst.
  - unfold tags_of at 2. rewrite Hel. set_solver.
  - naive_solver.
Qed.

Lemma Merge_tags a b el t :
  t ∈ tags_of (Adds (Merge a b)) el ↔ t ∈ tags_of (Adds a) el ∨ t ∈ tags_of (Adds b) el.
Proof.
  unfold Merge. destruct (add (add (∅, ∅) (Adds a)) (Adds b)) as [seen adds] eqn:E. simpl.
  assert (H0 : add_inv (∅, ∅)).
  { intros el' t'. unfold tags_of. simpl. rewrite !lookup_empty. set_solver. }
  destruct (add_spec _ (Adds a) H0) as [H1 Hs1].
  destruct (add_spec _ (Adds b) H1) as [_ Hs2].
  rewrite E in Hs2. simpl in Hs2. specialize (Hs2 el t). rewrite Hs1 in Hs2.
  unfold tags_of at 1. rewrite lookup_fmap. simpl in Hs2.
  replace (tags_of ∅ el) with (@nil string) in Hs2 by (unfold tags_of; by rewrite lookup_empty).
  unfold tags_of at 1 in Hs2.
  destruct (adds !! el); simpl in *; rewrite ?elem_of_sort_strings, Hs2; set_solver.
Qed.

Lemma mark_all (out src : gmap string bool) (t : string) :
  map_fold (λ t _ out, <[t := true]> out) out src !! t =
    match src !! t with Some _ => Some true | None => out !! t end.
Proof.
  apply (map_fold_weak_ind (λ r src, r !! t = match src !! t with Some _ => Some true | None => out !! t end)).
  { by rewrite lookup_empty. }
  intros k v m r Hk IH. destruct (decide (k = t)) as [->|].
  - by rewrite !lookup_insert_eq.
  - by rewrite !lookup_insert_ne by done.
Qed.

Lemma Merge_removes a b t :
  Removes (Merge a b) !! t =
    if decide (is_Some (Removes a !! t) ∨ is_Some (Removes b !! t)) then Some true else None.
Proof.
  unfold Merge. destruct (add _ _) as [seen adds]. simpl. rewrite !mark_all, lookup_empty.
  destruct (Removes a !! t), (Removes b !! t); case_decide as H; try done.
  all: first [by destruct H as [[]|[]]|destruct H; eauto].
Qed.

(** A tag map as the code builds it: only [true] is ever stored. *)
Definition ok (a : ORSet) : Prop :=
  Type_ a = ORSetType ∧ ∀ t, Removes a !! t ≠ Some false.

Definition eqv (a b : ORSet) : Prop :=
  (∀ el t, t ∈ tags_of (Adds a) el ↔ t ∈ tags_of (Adds b) el) ∧
  (∀ t, removed a t = removed b t).

Lemma removed_ok a t : ok a → removed a t = bool_decide (is_Some (Removes a !! t)).
Proof.
  intros [_ H]. specialize (H t). unfold removed. by destruct (Removes a !! t) as [[]|].
Qed.

Lemma orset_Merge_ok a b : ok (Merge a b).
Proof.
  split; [unfold Merge; by destruct (add _ _)|].
  intros t. rewrite Merge_removes. by case_decide.
Qed.

Lemma Merge_removed a b t : ok a → ok b → removed (Merge a b) t = removed a t || removed b t.
Proof.
  intros Ha Hb. rewrite !removed_ok by auto using orset_Merge_ok.
  rewrite Merge_removes. case_decide as H; repeat case_bool_decide; naive_solver.
Qed.

#[export] Instance eqv_equivalence : Equivalence eqv.
Proof.
  unfold eqv. split; [done|..].
  - intros a b [H1 H2]. split; intros; [by rewrite H1|by rewrite H2].
  - intros a b c [H1 H2] [H3 H4]. split; intros; [by rewrite H1, H3|by rewrite H2, H4].
Qed.

#[export] Instance crdt : Crdt ORSet eqv ok Merge.
Proof.
  split; [apply _|auto using orset_Merge_ok|..]; intros; split; intros;
    rewrite ?Merge_tags, ?Merge_removed by auto using orset_Merge_ok.
  - unfold eqv in *. naive_solver.
  - unfold eqv in *. naive_solver congruence.
  - naive_solver.
  - by rewrite orb_comm.
  - naive_solver.
  - by rewrite orb_assoc.
  - naive_solver.
  - by rewrite orb_diag.
Qed.

Definition present (a : ORSet) (el : string) : Prop :=
  ∃ t, t ∈ tags_of (Adds a) el ∧ removed a t = false.

Lemma collect_spec (p : list string → bool) (m : gmap string (list string)) :
  NoDup (map_fold (λ el tags out, if p tags then out ++ [el] else out) [] m) ∧
  ∀ el, el ∈ map_fold (λ el tags out, if p tags then out ++ [el] else out) [] m ↔
        ∃ tags, m !! el = Some tags ∧ p tags = true.
Proof.
  apply (map_fold_weak_ind (λ r m, NoDup r ∧ ∀ el, el ∈ r ↔ ∃ tags, m !! el = Some tags ∧ p tags = true)).
  { split; [constructor|]. intros el. rewrite lookup_empty. set_solver. }
  intros k tags m' r Hk [Hnd Hin]. split.
  - destruct (p tags) eqn:E; [|done]. apply NoDup_app. split_and!; [done| |apply NoDup_singleton].
    intros x Hx ->%list_elem_of_singleton. apply Hin in Hx as (? & ? & _). congruence.
  - intros el. destruct (decide (k = el)) as [->|].
    + rewrite lookup_insert_eq. destruct (p tags) eqn:E.
      * rewrite elem_of_app, list_elem_of_singleton. naive_solver.
      * rewrite Hin, Hk. split; [by intros (? & [=] & _)|]. intros (? & [= <-] & ?). congruence.
    + rewrite lookup_insert_ne by done. destruct (p tags); rewrite ?elem_of_app, <-Hin; set_solver.
Qed.

Lemma elem_of_Elements a el : el ∈ Elements a ↔ present a el.
Proof.
  unfold Elements, present, tags_of. rewrite elem_of_sort_strings.
  rewrite (proj2 (collect_spec _ _) el).
  split.
  - intros (tags & Hl & (t & Hin%list_elem_of_In & Hr%negb_true_iff)%existsb_exists).
    exists t. by rewrite Hl.
  - intros (t & Hin & Hr). destruct (Adds a !! el) as [tags|]; simpl in Hin; [|by apply elem_of_nil in Hin].
    exists tags. split; [done|]. apply existsb_exists. exists t.
    split; [by apply list_elem_of_In|by rewrite Hr].
Qed.

Lemma Elements_eqv a b : eqv a b → Elements a = Elements b.
Proof.
  intros [Ht Hr]. unfold Elements. apply sort_strings_perm, NoDup_Permutation.
  - apply collect_spec.
  - apply collect_spec.
  - intros el. pose proof (elem_of_Elements a el) as Ha. pose proof (elem_of_Elements b el) as Hb.
    unfold Elements in Ha, Hb. rewrite elem_of_sort_strings in Ha, Hb. rewrite Ha, Hb.
    unfold present. setoid_rewrite Ht. by setoid_rewrite Hr.
Qed.
End ORSet.

(** ** Convergence of the five types *)

Import (hints) GCounter.
Import (hints) PNCounter.
Import (hints) LWW.
Import (hints) ORSet.

(** Counters converge: two replicas whose histories merged the same counter states, in any
    order, grouping and multiplicity, read the same value, for the grow-only and for the
    positive-negative counter. *)
Theorem counters_converge (g1 g2 : mtree GCounter.GCounter) (p1 p2 : mtree PNCounter.PNCounter) :
  Forall GCounter.ok (leaves g1) → (∀ a, a ∈ leaves g1 ↔ a ∈ leaves g2) →
  Forall PNCounter.ok (leaves p1) → (∀ a, a ∈ leaves p1 ↔ a ∈ leaves p2) →
  GCounter.Value (run_merges GCounter.Merge g1) = GCounter.Value (run_merges GCounter.Merge g2) ∧
  PNCounter.Value (run_merges PNCounter.Merge p1) = PNCounter.Value (run_merges PNCounter.Merge p2).
Proof.
  intros Hg Hgs Hp Hps. split.
  - by apply GCounter.gcounter_Value_eqv, (merges_converge (ok := GCounter.ok)).
  - by apply PNCounter.pncounter_Value_eqv, (merges_converge (ok := PNCounter.ok)).
Qed.

Definition demo_g (n : string) (v : N) := GCounter.MkGCounter "gcounter" {[n := v]}.
Definition demo_p (n : string) (v w : N) := PNCounter.MkPNCounter "pncounter" {[n := v]} {[n := w]}.

Lemma counters_converge_witness :
  GCounter.Value (run_merges GCounter.Merge (Node (Leaf (demo_g "a" 2)) (Leaf (demo_g "b" 0)))) =
  GCounter.Value (run_merges GCounter.Merge
    (Node (Leaf (demo_g "b" 0)) (Node (Leaf (demo_g "a" 2)) (Leaf (demo_g "b" 0))))) ∧
  PNCounter.Value (run_merges PNCounter.Merge (Node (Leaf (demo_p "a" 2 5)) (Leaf (demo_p "b" 1 0)))) =
  PNCounter.Value (run_merges PNCounter.Merge (Node (Leaf (demo_p "b" 1 0)) (Leaf (demo_p "a" 2 5)))).
Proof.
  apply (counters_converge
    (Node (Leaf (demo_g "a" 2)) (Leaf (demo_g "b" 0)))
    (Node (Leaf (demo_g "b" 0)) (Node (Leaf (demo_g "a" 2)) (Leaf (demo_g "b" 0))))
    (Node (Leaf (demo_p "a" 2 5)) (Leaf (demo_p "b" 1 0)))
    (Node (Leaf (demo_p "b" 1 0)) (Leaf (demo_p "a" 2 5)))).
  - by repeat constructor.
  - set_solver.
  - by repeat constructor.
  - set_solver.
Defined.

(** C26. The observed-remove set converges and lets adds win: replicas that merged the same states
    list the same elements, and after merging two states an element is present exactly when one
    of its add-tags, from either side, is removed on neither side; an add whose fresh tag no remove
    has observed therefore survives a concurrent remove. *)
Theorem orset_converges_add_wins (t1 t2 : mtree ORSet.ORSet) (a b : ORSet.ORSet) (el : string) :
  Forall ORSet.ok (leaves t1) → (∀ s, s ∈ leaves t1 ↔ s ∈ leaves t2) →
  ORSet.ok a → ORSet.ok b →
  ORSet.Elements (run_merges ORSet.Merge t1) = ORSet.Elements (run_merges ORSet.Merge t2) ∧
  (el ∈ ORSet.Elements (ORSet.Merge a b) ↔
   ∃ t, (t ∈ ORSet.tags_of (ORSet.Adds a) el ∨ t ∈ ORSet.tags_of (ORSet.Adds b) el) ∧
        ORSet.removed a t = false ∧ ORSet.removed b t = false).
Proof.
  intros Hok Hs Ha Hb. split; [by apply ORSet.Elements_eqv, (merges_converge (ok := ORSet.ok))|].
  rewrite ORSet.elem_of_Elements. unfold ORSet.present. f_equiv. intros t.
  by rewrite ORSet.Merge_tags, ORSet.Merge_removed, orb_false_iff.
Qed.

Definition demo_or1 := ORSet.MkORSet "orset" {["x" := ["n1:1"]]} {["n1:1" := true]}.
Definition demo_or2 := ORSet.MkORSet "orset" {["x" := ["n2:1"; "n1:1"]]} ∅.

Lemma demo_or_ok : ORSet.ok demo_or1 ∧ ORSet.ok demo_or2.
Proof.
  split; split; try done; intros t; simpl.
  destruct (decide (t = "n1:1")) as [->|]; [done|]. by rewrite lookup_singleton_ne.
Qed.

Lemma orset_converges_add_wins_witness :
  ORSet.Elements (run_merges ORSet.Merge (Node (Leaf demo_or1) (Leaf demo_or2))) =
  ORSet.Elements (run_merges ORSet.Merge (Node (Leaf demo_or2) (Leaf demo_or1))) ∧
  ("x" ∈ ORSet.Elements (ORSet.Merge demo_or1 demo_or2) ↔
   ∃ t, (t ∈ ORSet.tags_of (ORSet.Adds demo_or1) "x" ∨ t ∈ ORSet.tags_of (ORSet.Adds demo_or2) "x") ∧
        ORSet.removed demo_or1 t = false ∧ ORSet.removed demo_or2 t = false).
Proof.
  apply (orset_converges_add_wins (Node (Leaf demo_or1) (Leaf demo_or2))
    (Node (Leaf demo_or2) (Leaf demo_or1)) demo_or1 demo_or2 "x").
  - repeat constructor; apply demo_or_ok.
  - set_solver.
  - apply demo_or_ok.
  - apply demo_or_ok.
Defined.

(** The last-write-wins map and register converge: replicas that merged the same maps hold the
    same entries, with ties on timestamp and node broken by value; registers need the writers'
    guarantee that a timestamp and node determine the value, because their merge has no value
    tiebreak: without it two replicas can keep different values forever. *)
Theorem lww_converges (m1 m2 : mtree LWW.LWWMap) (written : Z → string → option string)
    (r1 r2 : mtree LWW.LWWRegister) :
  Forall LWW.ok (leaves m1) → (∀ a, a ∈ leaves m1 ↔ a ∈ leaves m2) →
  Forall (LWW.reg_ok written) (leaves r1) → (∀ a, a ∈ leaves r1 ↔ a ∈ leaves r2) →
  LWW.Entries (run_merges LWW.MapMerge m1) = LWW.Entries (run_merges LWW.MapMerge m2) ∧
  run_merges LWW.Merge r1 = run_merges LWW.Merge r2 ∧
  ∃ x y, LWW.reg_key x = LWW.reg_key y ∧ LWW.Merge x y ≠ LWW.Merge y x.
Proof.
  intros Hm Hms Hr Hrs. split_and!.
  - by apply (merges_converge (eqv := LWW.eqv) (ok := LWW.ok)).
  - by apply (merges_converge (ok := LWW.reg_ok written)).
  - by exists (LWW.MkReg (Some "a") 1 "n"), (LWW.MkReg (Some "b") 1 "n").
Qed.

Definition demo_m (v : string) := LWW.MkLWWMap "lwwmap" {["k" := LWW.MkEntry v 1 "n"]}.
Definition demo_written (ts : Z) (n : string) : option string := Some n.
Definition demo_r (ts : Z) (n : string) := LWW.MkReg (Some n) ts n.

Lemma lww_converges_witness :
  LWW.Entries (run_merges LWW.MapMerge (Node (Leaf (demo_m "a")) (Leaf (demo_m "b")))) =
  LWW.Entries (run_merges LWW.MapMerge (Node (Leaf (demo_m "b")) (Leaf (demo_m "a")))) ∧
  run_merges LWW.Merge (Node (Leaf (demo_r 1 "a")) (Leaf (demo_r 1 "b"))) =
  run_merges LWW.Merge (Node (Leaf (demo_r 1 "b")) (Leaf (demo_r 1 "a"))) ∧
  ∃ x y, LWW.reg_key x = LWW.reg_key y ∧ LWW.Merge x y ≠ LWW.Merge y x.
Proof.
  apply (lww_converges (Node (Leaf (demo_m "a")) (Leaf (demo_m "b")))
    (Node (Leaf (demo_m "b")) (Leaf (demo_m "a"))) demo_written
    (Node (Leaf (demo_r 1 "a")) (Leaf (demo_r 1 "b")))
    (Node (Leaf (demo_r 1 "b")) (Leaf (demo_r 1 "a")))).
  - by repeat constructor.
  - set_solver.
  - by repeat constructor.
  - set_solver.
Defined.
