(* ===== verification/Rga.v ===== *)
(** * The replicated growable array

    Models [src/internal/conflict/rga.go].  The depth-first walk of [order] recurses on the
    anchors it has just marked, so its depth is bounded by the number of distinct element
    identifiers; the fuel [S (length Elems)] is proved to be enough.  [sort.Slice] leaves the
    order of equal keys open: the theorems are about arrays whose identifiers are distinct, which
    every merge produces. *)

From S2P Require Import Prelude Storage Crdt.

Module RGA.

Definition RGAType : string := "rga".

Record RGAElem := MkElem { ID : string; Value_ : string; After : string; Deleted : bool }.

Record RGA := MkRGA { Type_ : string; Elems : list RGAElem }.

#[export] Instance RGAElem_eq_dec : EqDecision RGAElem.
Proof. solve_decision. Defined.

Definition id_desc (x y : RGAElem) : bool := str_leb (ID y) (ID x).
Definition id_asc (x y : RGAElem) : bool := str_leb (ID x) (ID y).

Definition at_anchor (children : gmap string (list RGAElem)) (anchor : string) : list RGAElem :=
  default [] (children !! anchor).

(** The children of each anchor, siblings sorted by identifier, higher first. *)
Definition group (es : list RGAElem) : gmap string (list RGAElem) :=
  foldl (λ children e, <[After e := at_anchor children (After e) ++ [e]]> children) ∅ es.

Definition children_of (a : RGA) : gmap string (list RGAElem) := isort id_desc <$> group (Elems a).

(** The closure [walk]: the state is the visited set and the output so far. *)
Fixpoint walk (fuel : nat) (children : gmap string (list RGAElem)) (anchor : string)
    (st : gset string * list RGAElem) : gset string * list RGAElem :=
  match fuel with
  | 0 => st
  | S fuel =>
      foldl (λ st e,
        if bool_decide (ID e ∈ st.1) then st
        else walk fuel children (ID e) ({[ID e]} ∪ st.1, st.2 ++ [e]))
        st (at_anchor children anchor)
  end.

(** The loop that collects what the walk did not reach. *)
Definition collect_rest (es : list RGAElem) (st : gset string * list RGAElem)
  : gset string * list RGAElem :=
  foldl (λ st e,
    if bool_decide (ID e ∈ st.1) then st else ({[ID e]} ∪ st.1, st.2 ++ [e])) st es.

Definition order (a : RGA) : list RGAElem :=
  let '(visited, out) := walk (S (length (Elems a))) (children_of a) "" (∅, []) in
  if negb (length out =? length (Elems a)) then
    let '(_, rest) := collect_rest (Elems a) (visited, []) in
    out ++ isort id_desc rest
  else out.

Definition Value (a : RGA) : string :=
  foldl (λ b e, if Deleted e then b else (b +:+ Value_ e)%string) "" (order a).

Definition or_deleted (cur e : RGAElem) : RGAElem :=
  MkElem (ID cur) (Value_ cur) (After cur) (Deleted cur || Deleted e).

Definition merge_elem (byID : gmap string RGAElem) (e : RGAElem) : gmap string RGAElem :=
  match byID !! ID e with
  | Some cur => <[ID e := or_deleted cur e]> byID
  | None => <[ID e := e]> byID
  end.

Definition Merge (a b : RGA) : RGA :=
  let byID := foldl (foldl merge_elem) ∅ [Elems a; Elems b] in
  MkRGA RGAType (isort id_asc (snd <$> map_to_list byID)).

(** ** Merge as a union of maps *)

Definition by_id (es : list RGAElem) : gmap string RGAElem :=
  list_to_map ((λ e, (ID e, e)) <$> es).

Definition distinct (a : RGA) : Prop := NoDup (ID <$> Elems a).

Lemma by_id_fst es : ((λ e, (ID e, e)) <$> es).*1 = ID <$> es.
Proof. rewrite <-list_fmap_compose. done. Qed.

Lemma by_id_lookup es id e :
  NoDup (ID <$> es) → by_id es !! id = Some e ↔ e ∈ es ∧ ID e = id.
Proof.
  intros Hnd. unfold by_id. rewrite <-elem_of_list_to_map by by rewrite by_id_fst.
  rewrite list_elem_of_fmap. split.
  - by intros (? & [= -> ->] & ?).
  - intros [? <-]. by exists e.
Qed.

Lemma by_id_None es id : by_id es !! id = None ↔ id ∉ ID <$> es.
Proof. unfold by_id. rewrite <-not_elem_of_list_to_map. by rewrite by_id_fst. Qed.

Lemma merge_elems_lookup es : ∀ m id,
  NoDup (ID <$> es) →
  foldl merge_elem m es !! id = union_with (λ x y, Some (or_deleted x y)) (m !! id) (by_id es !! id).
Proof.
  induction es as [|e es IH]; intros m id Hnd; simpl.
  { unfold by_id. simpl. rewrite lookup_empty. by destruct (m !! id). }
  apply NoDup_cons in Hnd as [Hni Hnd]. rewrite IH by done.
  unfold by_id at 2; simpl. fold (by_id es).
  destruct (decide (ID e = id)) as [<-|Hne].
  - rewrite (proj2 (by_id_None es (ID e)) Hni), lookup_insert_eq. unfold merge_elem.
    destruct (m !! ID e); by rewrite lookup_insert_eq.
  - rewrite lookup_insert_ne by done. unfold merge_elem.
    destruct (m !! ID e); by rewrite lookup_insert_ne.
Qed.

Definition merged (a b : RGA) : gmap string RGAElem := foldl (foldl merge_elem) ∅ [Elems a; Elems b].

Lemma merged_lookup a b id :
  distinct a → distinct b →
  merged a b !! id =
    union_with (λ x y, Some (or_deleted x y)) (by_id (Elems a) !! id) (by_id (Elems b) !! id).
Proof.
  intros Ha Hb. unfold merged. simpl. rewrite !merge_elems_lookup, lookup_empty by done.
  by destruct (by_id (Elems a) !! id).
Qed.

Lemma merged_keys a b id e : distinct a → distinct b → merged a b !! id = Some e → ID e = id.
Proof.
  intros Ha Hb. rewrite merged_lookup by done.
  destruct (by_id (Elems a) !! id) as [x|] eqn:E1, (by_id (Elems b) !! id) as [y|] eqn:E2;
    simpl; intros [= <-]; simpl.
  - by apply by_id_lookup in E1 as [_ ?].
  - by apply by_id_lookup in E1 as [_ ?].
  - by apply by_id_lookup in E2 as [_ ?].
Qed.

Lemma values_distinct (m : gmap string RGAElem) :
  (∀ id e, m !! id = Some e → ID e = id) → NoDup (ID <$> (snd <$> map_to_list m)).
Proof.
  intros Hk. rewrite <-list_fmap_compose.
  replace ((ID ∘ snd) <$> map_to_list m) with ((map_to_list m).*1); [apply NoDup_fst_map_to_list|].
  apply list_fmap_ext. intros i [id e] Hi. simpl. symmetry. apply Hk.
  apply elem_of_map_to_list. by eapply list_elem_of_lookup_2.
Qed.

Lemma distinct_perm es1 es2 : es1 ≡ₚ es2 → NoDup (ID <$> es1) → NoDup (ID <$> es2).
Proof. by intros ->. Qed.

Lemma Merge_distinct a b : distinct a → distinct b → distinct (Merge a b).
Proof.
  intros Ha Hb. unfold distinct, Merge. cbn [Elems].
  eapply distinct_perm; [symmetry; apply isort_perm|].
  apply values_distinct. intros id e. by apply merged_keys.
Qed.

Lemma Merge_by_id a b : distinct a → distinct b → by_id (Elems (Merge a b)) = merged a b.
Proof.
  intros Ha Hb. pose proof (Merge_distinct a b Ha Hb) as Hd.
  apply map_eq. intros id. apply option_eq. intros e.
  rewrite by_id_lookup by done. unfold Merge. cbn [Elems]. fold (merged a b).
  rewrite elem_of_isort, list_elem_of_fmap. split.
  - intros [([id' e'] & -> & Hin%elem_of_map_to_list) <-]. simpl.
    by rewrite <-(merged_keys _ _ _ _ Ha Hb Hin) in Hin.
  - intros Hl. split; [|by apply (merged_keys a b)].
    exists (id, e). split; [done|]. by apply elem_of_map_to_list.
Qed.

(** ** The interface *)

Section origin.
(** What the writer of an identifier chose: an identifier is used for one insert only. *)
Context (origin : string → string * string).

Definition ok (a : RGA) : Prop :=
  Type_ a = RGAType ∧ distinct a ∧ ∀ e, e ∈ Elems a → (Value_ e, After e) = origin (ID e).

Definition eqv (a b : RGA) : Prop := by_id (Elems a) = by_id (Elems b).

#[export] Instance eqv_equivalence : Equivalence eqv.
Proof. unfold eqv. split; [by intros ?|by intros ? ? ->|by intros ? ? ? -> ->]. Qed.

Lemma ok_origin a id e :
  ok a → by_id (Elems a) !! id = Some e → ID e = id ∧ (Value_ e, After e) = origin id.
Proof. intros (_ & Hd & Ho) [Hin <-]%by_id_lookup; auto. Qed.

Lemma Merge_lookup a b id :
  ok a → ok b →
  by_id (Elems (Merge a b)) !! id =
    union_with (λ x y, Some (or_deleted x y)) (by_id (Elems a) !! id) (by_id (Elems b) !! id).
Proof.
  intros (_ & Ha & _) (_ & Hb & _). by rewrite Merge_by_id, merged_lookup.
Qed.

Lemma rga_Merge_ok a b : ok a → ok b → ok (Merge a b).
Proof.
  intros Ha Hb. pose proof Ha as (_ & Hda & Hoa). pose proof Hb as (_ & Hdb & Hob).
  pose proof (Merge_distinct a b Hda Hdb) as Hd. split_and!; [done|done|].
  intros e He. assert (Hl : by_id (Elems (Merge a b)) !! ID e = Some e) by by apply by_id_lookup.
  rewrite Merge_lookup in Hl by done.
  destruct (by_id (Elems a) !! ID e) as [x|] eqn:E1, (by_id (Elems b) !! ID e) as [y|] eqn:E2;
    simpl in Hl; try done; injection Hl as <-; simpl in *.
  - by apply (ok_origin a) in E1 as [_ ?].
  - by apply (ok_origin a) in E1 as [_ ?].
  - by apply (ok_origin b) in E2 as [_ ?].
Qed.

(** Same identifier, same element up to the tombstone. *)
Lemma or_deleted_comm a b id x y :
  ok a → ok b → by_id (Elems a) !! id = Some x → by_id (Elems b) !! id = Some y →
  or_deleted x y = or_deleted y x.
Proof.
  intros Ha Hb [Hix Hox]%(ok_origin a) [Hiy Hoy]%(ok_origin b); [|done..].
  unfold or_deleted. rewrite Hix, Hiy, (orb_comm (Deleted x)). congruence.
Qed.

Lemma or_deleted_idem x : or_deleted x x = x.
Proof. destruct x. unfold or_deleted; simpl. by rewrite orb_diag. Qed.

#[export] Instance crdt : Crdt RGA eqv ok Merge.
Proof.
  split; [apply _|apply rga_Merge_ok|..]; unfold eqv; intros; apply map_eq; intros id;
    rewrite ?Merge_lookup by auto using rga_Merge_ok; try congruence.
  - destruct (by_id (Elems a) !! id) eqn:E1, (by_id (Elems b) !! id) eqn:E2; simpl; try done.
    f_equal. by apply (or_deleted_comm a b id).
  - destruct (by_id (Elems a) !! id), (by_id (Elems b) !! id), (by_id (Elems c) !! id);
      simpl; try done.
    unfold or_deleted; simpl. by rewrite orb_assoc.
  - destruct (by_id (Elems a) !! id); simpl; [|done]. by rewrite or_deleted_idem.
Qed.
End origin.

(** ** The walk *)

Lemma group_app es : ∀ m k,
  at_anchor (foldl (λ children e, <[After e := at_anchor children (After e) ++ [e]]> children) m es) k
  = at_anchor m k ++ filter (λ e, After e = k) es.
Proof.
  induction es as [|e es IH]; intros m k; simpl; [by rewrite app_nil_r|].
  rewrite IH. unfold at_anchor at 1. destruct (decide (After e = k)) as [<-|Hne].
  - rewrite lookup_insert_eq, filter_cons_True by done. simpl. by rewrite <-(assoc_L (++)).
  - rewrite lookup_insert_ne, filter_cons_False by done. done.
Qed.

Lemma children_of_at a k :
  at_anchor (children_of a) k = isort id_desc (filter (λ e, After e = k) (Elems a)).
Proof.
  pose proof (group_app (Elems a) ∅ k) as Hg. fold (group (Elems a)) in Hg.
  unfold at_anchor in *. rewrite lookup_empty in Hg. simpl in Hg.
  unfold children_of. rewrite lookup_fmap, <-Hg. by destruct (group (Elems a) !! k).
Qed.

Lemma elem_of_children a k e : e ∈ at_anchor (children_of a) k ↔ e ∈ Elems a ∧ After e = k.
Proof. rewrite children_of_at, elem_of_isort, list_elem_of_filter. naive_solver. Qed.

Section walk.
Context (children : gmap string (list RGAElem)).

Definition step (fuel : nat) (st : gset string * list RGAElem) (e : RGAElem) :=
  if bool_decide (ID e ∈ st.1) then st
  else walk fuel children (ID e) ({[ID e]} ∪ st.1, st.2 ++ [e]).

Lemma walk_S fuel anchor st :
  walk (S fuel) children anchor st = foldl (step fuel) st (at_anchor children anchor).
Proof. done. Qed.

(** An invariant of single visits is an invariant of the whole walk. *)
Lemma walk_ind (I : gset string * list RGAElem → Prop) :
  (∀ st anchor e, I st → e ∈ at_anchor children anchor →
     (anchor = "" ∨ anchor ∈ st.1) → ID e ∉ st.1 → I ({[ID e]} ∪ st.1, st.2 ++ [e])) →
  ∀ fuel anchor st, (anchor = "" ∨ anchor ∈ st.1) → I st →
    I (walk fuel children anchor st) ∧ st.1 ⊆ (walk fuel children anchor st).1.
Proof.
  intros Hvisit. induction fuel as [|fuel IH]; intros anchor st Ha HI; [done|].
  rewrite walk_S.
  assert (Hsub : ∀ e, e ∈ at_anchor children anchor → e ∈ at_anchor children anchor) by done.
  revert Hsub. generalize (at_anchor children anchor) at 1 3 4 as l.
  intros l. revert st Ha HI. induction l as [|e l IHl]; intros st Ha HI Hsub; simpl; [done|].
  assert (Hst : I (step fuel st e) ∧ st.1 ⊆ (step fuel st e).1).
  { unfold step. case_bool_decide as Hin; [done|].
    destruct (IH (ID e) ({[ID e]} ∪ st.1, st.2 ++ [e])) as [? Hs].
    - right. simpl. set_solver.
    - apply (Hvisit st anchor); auto. apply Hsub. by left.
    - simpl in Hs. split; [done|]. set_solver. }
  destruct Hst as [HI' Hs]. destruct (IHl (step fuel st e)) as [? ?].
  - destruct Ha; [by left|right; set_solver].
  - done.
  - intros. apply Hsub. by right.
  - split; [done|]. set_solver.
Qed.

Lemma walk_mono fuel anchor st :
  (anchor = "" ∨ anchor ∈ st.1) → st.1 ⊆ (walk fuel children anchor st).1.
Proof. intros Ha. by apply (walk_ind (λ _, True)). Qed.

(** Enough fuel: more fuel than unvisited identifiers. *)
Context (ids : gset string).
Context (Hids : ∀ k e, e ∈ at_anchor children k → ID e ∈ ids).

Lemma unvisited_lt (visited : gset string) id :
  id ∈ ids → id ∉ visited → size (ids ∖ ({[id]} ∪ visited)) < size (ids ∖ visited).
Proof. intros. apply subset_size. set_solver. Qed.

Lemma unvisited_le (v1 v2 : gset string) : v1 ⊆ v2 → size (ids ∖ v2) ≤ size (ids ∖ v1).
Proof. intros. apply subseteq_size. set_solver. Qed.

Lemma walk_fuel : ∀ f g anchor st,
  (anchor = "" ∨ anchor ∈ st.1) →
  size (ids ∖ st.1) < f → size (ids ∖ st.1) < g →
  walk f children anchor st = walk g children anchor st.
Proof using Hids.
  induction f as [|f IH]; intros [|g] anchor st Ha Hf Hg; try lia.
  rewrite !walk_S.
  assert (Hsub : ∀ e, e ∈ at_anchor children anchor → ID e ∈ ids) by (intros; by eapply Hids).
  revert Hsub. generalize (at_anchor children anchor) as l.
  intros l. revert st Ha Hf Hg. induction l as [|e l IHl]; intros st Ha Hf Hg Hsub; simpl; [done|].
  assert (Hin : ID e ∈ ids) by (apply Hsub; by left).
  assert (Hst : step f st e = step g st e ∧ st.1 ⊆ (step f st e).1).
  { unfold step. case_bool_decide as Hv; [done|].
    pose proof (unvisited_lt st.1 (ID e) Hin Hv) as Hlt. split.
    - apply IH; simpl; [right; set_solver|lia|lia].
    - etransitivity; [|apply walk_mono; right; set_solver]. set_solver. }
  destruct Hst as [<- Hs]. pose proof (unvisited_le _ _ Hs).
  apply IHl; [|lia|lia|].
  - destruct Ha; [by left|right; set_solver].
  - intros. apply Hsub. by right.
Qed.

(** The walk visits every child of its anchor, and of everything it visits. *)
Definition closed_from (old new : gset string) : Prop :=
  ∀ id e, id ∈ new → id ∉ old → e ∈ at_anchor children id → ID e ∈ new.

Lemma walk_closed : ∀ f anchor st,
  (anchor = "" ∨ anchor ∈ st.1) → size (ids ∖ st.1) < f →
  (∀ e, e ∈ at_anchor children anchor → ID e ∈ (walk f children anchor st).1) ∧
  closed_from st.1 (walk f children anchor st).1.
Proof using Hids.
  induction f as [|f IH]; intros anchor st Ha Hf; [lia|]. rewrite walk_S.
  assert (Hsub : ∀ e, e ∈ at_anchor children anchor → ID e ∈ ids) by (intros; by eapply Hids).
  revert Hsub. generalize (at_anchor children anchor) as l.
  intros l. revert st Ha Hf. induction l as [|e l IHl]; intros st Ha Hf Hsub; simpl.
  { split; [set_solver|]. by intros id e ?. }
  assert (Hin : ID e ∈ ids) by (apply Hsub; by left).
  assert (Hst : st.1 ⊆ (step f st e).1 ∧ ID e ∈ (step f st e).1 ∧ closed_from st.1 (step f st e).1).
  { unfold step. case_bool_decide as Hv; [split_and!; [done..|by intros ???]|].
    pose proof (unvisited_lt st.1 (ID e) Hin Hv) as Hlt.
    destruct (IH (ID e) ({[ID e]} ∪ st.1, st.2 ++ [e])) as [Hch Hcl]; [right; set_solver|simpl; lia|].
    pose proof (walk_mono f (ID e) ({[ID e]} ∪ st.1, st.2 ++ [e])) as Hm. simpl in Hm, Hcl.
    specialize (Hm ltac:(right; set_solver)). split_and!; [set_solver..|].
    intros id e' Hnew Hold He'. destruct (decide (id = ID e)) as [->|]; [by apply Hch|].
    apply (Hcl id); [done|set_solver|done]. }
  destruct Hst as (Hs & Hine & Hc1). pose proof (unvisited_le _ _ Hs).
  assert (Ha' : anchor = "" ∨ anchor ∈ (step f st e).1) by (destruct Ha; [by left|right; set_solver]).
  destruct (IHl (step f st e) Ha' ltac:(lia)) as [Hch Hc2]; [intros; apply Hsub; by right|].
  assert (Hmono : (step f st e).1 ⊆ (foldl (step f) (step f st e) l).1).
  { clear -Ha'. revert Ha'. generalize (step f st e) as st'. induction l as [|e' l IHl]; intros st' Ha'; simpl; [done|].
    assert (Hs : st'.1 ⊆ (step f st' e').1).
    { unfold step. case_bool_decide; [done|]. etransitivity; [|apply walk_mono; right; set_solver]. set_solver. }
    etransitivity; [exact Hs|]. apply IHl. destruct Ha'; [by left|right; set_solver]. }
  split.
  - intros e' [->|He']%elem_of_cons; [set_solver|auto].
  - intros id e' Hnew Hold He'. destruct (decide (id ∈ (step f st e).1)) as [Hi|Hi].
    + apply Hmono. by eapply Hc1.
    + by eapply Hc2.
Qed.
End walk.

(** ** The order *)

Definition walked (a : RGA) : gset string * list RGAElem :=
  walk (S (length (Elems a))) (children_of a) "" (∅, []).

Definition all_ids (a : RGA) : gset string := list_to_set (ID <$> Elems a).

Lemma all_ids_children a k e : e ∈ at_anchor (children_of a) k → ID e ∈ all_ids a.
Proof.
  intros [? _]%elem_of_children. apply elem_of_list_to_set, list_elem_of_fmap. eauto.
Qed.

Lemma all_ids_size a : size (all_ids a) ≤ length (Elems a).
Proof.
  unfold all_ids. induction (Elems a) as [|e es IH]; [done|].
  rewrite fmap_cons, list_to_set_cons. cbn [length].
  destruct (decide (ID e ∈ (list_to_set (ID <$> es) : gset string))).
  - rewrite subseteq_union_1_L by set_solver. lia.
  - rewrite size_union, size_singleton by set_solver. lia.
Qed.

(** Each element comes after the element it was inserted after. *)
Definition anchored (l : list RGAElem) : Prop :=
  ∀ pre e post, l = pre ++ e :: post → After e = "" ∨ ∃ p, p ∈ pre ∧ ID p = After e.

Lemma anchored_snoc l e :
  anchored l → (After e = "" ∨ ∃ p, p ∈ l ∧ ID p = After e) → anchored (l ++ [e]).
Proof.
  intros Hl He pre e' post Heq. destruct post as [|x post _] using rev_ind.
  - by apply app_inj_tail in Heq as [-> ->].
  - rewrite app_comm_cons, app_assoc in Heq. apply app_inj_tail in Heq as [-> _]. by eapply Hl.
Qed.

Definition walk_inv (a : RGA) (st : gset string * list RGAElem) : Prop :=
  (∀ id, id ∈ st.1 ↔ id ∈ ID <$> st.2) ∧ NoDup (ID <$> st.2) ∧
  (∀ e, e ∈ st.2 → e ∈ Elems a) ∧ anchored st.2.

Lemma walked_inv a : walk_inv a (walked a).
Proof.
  unfold walked. apply walk_ind; [|by left|].
  - intros [visited out] anchor e (Hv & Hnd & Hin & Han) He Ha Hne. simpl in *.
    apply elem_of_children in He as [He Haf]. split_and!; simpl.
    + intros id. rewrite fmap_app, elem_of_app, elem_of_union, Hv. set_solver.
    + rewrite fmap_app. apply NoDup_app. split_and!; [done| |apply NoDup_singleton].
      intros id Hid ->%list_elem_of_singleton. by apply Hv in Hid.
    + intros e' [? | ->%list_elem_of_singleton]%elem_of_app; auto.
    + apply anchored_snoc; [done|]. rewrite Haf. destruct Ha as [->|Ha]; [by left|right].
      apply Hv, list_elem_of_fmap in Ha as (p & -> & ?). eauto.
  - split_and!; simpl; [set_solver|constructor|set_solver|]. intros [|? ?] ? ? ?; discriminate.
Qed.

(** Elements the head reaches through the anchors. *)
Inductive reachable (a : RGA) : RGAElem → Prop :=
  | reach_head e : e ∈ Elems a → After e = "" → reachable a e
  | reach_after p e : reachable a p → e ∈ Elems a → After e = ID p → reachable a e.

Lemma reachable_walked a e : reachable a e → ID e ∈ (walked a).1.
Proof.
  pose proof (all_ids_size a) as Hsz.
  destruct (walk_closed (children_of a) (all_ids a) (all_ids_children a)
    (S (length (Elems a))) "" (∅, [])) as [Hhead Hcl]; [by left|simpl; rewrite difference_empty_L; lia|].
  induction 1 as [e He Ha|p e Hp IH He Ha].
  - apply Hhead. by apply elem_of_children.
  - apply (Hcl (ID p)); [done|set_solver|by apply elem_of_children].
Qed.

(** The fuel of the walk is enough: any larger fuel gives the same result. *)
Lemma walked_fuel a fuel :
  length (Elems a) < fuel → walk fuel (children_of a) "" (∅, []) = walked a.
Proof.
  intros Hf. pose proof (all_ids_size a).
  apply (walk_fuel _ (all_ids a) (all_ids_children a)); [by left|..];
    simpl; rewrite difference_empty_L; lia.
Qed.

Lemma collect_rest_spec es : ∀ st,
  NoDup (ID <$> es) →
  (collect_rest es st).2 = st.2 ++ filter (λ e, ID e ∉ st.1) es.
Proof.
  unfold collect_rest. induction es as [|e es IH]; intros [visited rest] Hnd; simpl.
  { by rewrite app_nil_r. }
  apply NoDup_cons in Hnd as [Hni Hnd]. rewrite IH by done. case_bool_decide as Hv; simpl.
  - rewrite filter_cons_False by naive_solver. done.
  - rewrite filter_cons_True by done. rewrite <-(assoc_L (++)). simpl. do 2 f_equal.
    apply list_filter_iff'. intros e' He'. set_solver.
Qed.

Lemma order_eq a :
  distinct a →
  order a = (walked a).2 ++ isort id_desc (filter (λ e, ID e ∉ (walked a).1) (Elems a)).
Proof.
  intros Hd. unfold order. fold (walked a).
  pose proof (walked_inv a) as (Hv & Hnd & Hin & _).
  pose proof (collect_rest_spec (Elems a) ((walked a).1, []) Hd) as Hr. simpl in Hr.
  destruct (walked a) as [visited out]. simpl in *.
  destruct (Nat.eqb_spec (length out) (length (Elems a))) as [Hlen|]; simpl.
  - assert (Hp : out ≡ₚ Elems a).
    { apply submseteq_length_Permutation; [|lia]. apply NoDup_submseteq; [by eapply NoDup_fmap_1|done]. }
    replace (filter _ (Elems a)) with (@nil RGAElem); [by rewrite app_nil_r|].
    symmetry. apply list_filter_nil_2. intros e He Hn. apply Hn, Hv, list_elem_of_fmap.
    exists e. by rewrite Hp.
  - destruct (collect_rest _ _). simpl in Hr. by subst.
Qed.

Lemma distinct_inj a e e' : distinct a → e ∈ Elems a → e' ∈ Elems a → ID e = ID e' → e = e'.
Proof.
  intros Hd He He' Heq. assert (H : by_id (Elems a) !! ID e = Some e) by by apply by_id_lookup.
  assert (by_id (Elems a) !! ID e = Some e') by (rewrite Heq; by apply by_id_lookup). congruence.
Qed.

Lemma order_perm a : distinct a → order a ≡ₚ Elems a.
Proof.
  intros Hd. rewrite order_eq, isort_perm by done.
  pose proof (walked_inv a) as (Hv & Hnd & Hin & _).
  apply NoDup_Permutation.
  - apply NoDup_app. split_and!.
    + by eapply NoDup_fmap_1.
    + intros e He [Hn _]%list_elem_of_filter. apply Hn, Hv, list_elem_of_fmap. eauto.
    + apply NoDup_filter. by eapply NoDup_fmap_1.
  - by eapply NoDup_fmap_1.
  - intros e. rewrite elem_of_app, list_elem_of_filter. split; [naive_solver|].
    intros He. destruct (decide (ID e ∈ (walked a).1)) as [Hid|]; [left|by right].
    apply Hv, list_elem_of_fmap in Hid as (e' & Heq & He').
    by rewrite (distinct_inj a e e' Hd He (Hin _ He') Heq).
Qed.

(** ** Equivalent arrays read alike *)

Lemma eqv_perm a b : distinct a → distinct b → eqv a b → Elems a ≡ₚ Elems b.
Proof.
  intros Ha Hb He. apply NoDup_Permutation; [by eapply NoDup_fmap_1..|].
  intros e. pose proof (by_id_lookup (Elems a) (ID e) e Ha) as H1.
  pose proof (by_id_lookup (Elems b) (ID e) e Hb) as H2. unfold eqv in He. rewrite He in H1.
  naive_solver.
Qed.

Lemma id_desc_unique a l1 l2 :
  distinct a → (∀ e, e ∈ l1 → e ∈ Elems a) → l1 ≡ₚ l2 → isort id_desc l1 = isort id_desc l2.
Proof.
  intros Hd Hin. apply isort_unique.
  - intros x y. unfold id_desc. destruct (str_leb_total (ID x) (ID y)); auto.
  - intros x y z. unfold id_desc. intros H1 H2. by eapply str_leb_trans.
  - intros x y Hx Hy H1 H2. apply (distinct_inj a); auto. by apply str_leb_antisym.
Qed.

Lemma walk_ext c1 c2 fuel : (∀ k, at_anchor c1 k = at_anchor c2 k) →
  ∀ k st, walk fuel c1 k st = walk fuel c2 k st.
Proof.
  intros Hc. induction fuel as [|fuel IH]; intros k st; [done|]. rewrite !walk_S, Hc.
  revert st. induction (at_anchor c2 k) as [|e l IHl]; intros st; [done|]. simpl.
  unfold step at 2 4. by rewrite IH, IHl.
Qed.

Lemma order_eqv a b : distinct a → distinct b → eqv a b → order a = order b.
Proof.
  intros Ha Hb He. pose proof (eqv_perm a b Ha Hb He) as Hp.
  assert (Hw : walked a = walked b).
  { unfold walked. rewrite Hp. apply walk_ext. intros k. rewrite !children_of_at.
    apply (id_desc_unique a); [done| |by rewrite Hp].
    by intros e [_ ?]%list_elem_of_filter. }
  rewrite !order_eq, Hw by done. f_equal.
  apply (id_desc_unique a); [done| |by rewrite Hp].
  by intros e [_ ?]%list_elem_of_filter.
Qed.

Lemma rga_Value_eqv a b : distinct a → distinct b → eqv a b → Value a = Value b.
Proof. intros. unfold Value. by rewrite (order_eqv a b). Qed.
End RGA.

Import RGA.

(** C25. The sequence type converges: replicas that merged the same arrays, in any order, grouping
    and multiplicity, show the same text, provided an identifier stands for one insert. *)
Theorem rga_converges origin (t1 t2 : mtree RGA) :
  Forall (ok origin) (leaves t1) → (∀ a, a ∈ leaves t1 ↔ a ∈ leaves t2) →
  Value (run_merges Merge t1) = Value (run_merges Merge t2).
Proof.
  intros Hok Hs.
  assert (Hok2 : Forall (ok origin) (leaves t2)).
  { apply Forall_forall. intros a Ha%Hs. by eapply Forall_forall in Hok. }
  apply rga_Value_eqv.
  - by apply (run_merges_ok (eqv := eqv) (ok := ok origin)).
  - by apply (run_merges_ok (eqv := eqv) (ok := ok origin)).
  - by apply (merges_converge (ok := ok origin)).
Qed.

Definition demo_origin (id : string) : string * string :=
  if String.eqb id "a:1" then ("H", "") else ("i", "a:1").
Definition demo_rga1 := MkRGA "rga" [MkElem "a:1" "H" "" false; MkElem "b:1" "i" "a:1" true].
Definition demo_rga2 := MkRGA "rga" [MkElem "c:1" "i" "a:1" false; MkElem "a:1" "H" "" false].

Lemma rga_converges_witness :
  Value (run_merges Merge (Node (Leaf demo_rga1) (Leaf demo_rga2))) =
  Value (run_merges Merge (Node (Leaf demo_rga2) (Leaf demo_rga1))).
Proof.
  apply (rga_converges demo_origin).
  - repeat constructor; try set_solver; intros e He; simpl in He;
      repeat (apply elem_of_cons in He as [->|He]; [done|]); by apply elem_of_nil in He.
  - set_solver.
Defined.

(** The order of an array with distinct identifiers is a permutation of its elements in which
    every element reachable from the head comes after the element it was inserted after, and no
    larger recursion depth than the number of elements is ever needed. *)
Theorem rga_order_correct a :
  distinct a →
  order a ≡ₚ Elems a ∧
  (∀ pre e post, order a = pre ++ e :: post → reachable a e →
     After e = "" ∨ ∃ p, p ∈ pre ∧ ID p = After e) ∧
  (∀ fuel, length (Elems a) < fuel →
     walk fuel (children_of a) "" (∅, []) = walk (S (length (Elems a))) (children_of a) "" (∅, [])).
Proof.
  intros Hd. split_and!; [by apply order_perm| |apply walked_fuel].
  intros pre e post Heq Hr. rewrite order_eq in Heq by done.
  pose proof (walked_inv a) as (Hv & Hnd & Hin & Han).
  apply reachable_walked, Hv, list_elem_of_fmap in Hr as (e' & Hid & He').
  assert (HeIn : e ∈ Elems a).
  { rewrite <-(order_perm a Hd), (order_eq a Hd), Heq. set_solver. }
  rewrite <-(distinct_inj a e e' Hd HeIn (Hin _ He') Hid) in He'.
  apply list_elem_of_split in He' as (l1 & l2 & Hw).
  enough (pre = l1) as -> by by eapply Han.
  assert (Hnd' : NoDup (pre ++ e :: post)).
  { rewrite <-Heq, <-(order_eq a Hd), (order_perm a Hd). by eapply NoDup_fmap_1. }
  rewrite Hw, <-app_assoc in Heq. simpl in Heq. symmetry in Heq.
  eapply app_split_NoDup; eauto.
Qed.

Lemma rga_order_correct_witness :
  order demo_rga2 ≡ₚ Elems demo_rga2 ∧
  (∀ pre e post, order demo_rga2 = pre ++ e :: post → reachable demo_rga2 e →
     After e = "" ∨ ∃ p, p ∈ pre ∧ ID p = After e) ∧
  (∀ fuel, 2 < fuel →
     walk fuel (children_of demo_rga2) "" (∅, []) = walk 3 (children_of demo_rga2) "" (∅, [])).
Proof. apply (rga_order_correct demo_rga2). repeat constructor; set_solver. Defined.
