(* ===== verification/Conflict.v ===== *)
(** * Conflict resolvers

    Models [src/internal/conflict]: [resolver.go] (the resolver interface and the manual resolver),
    [lww.go], [vectorclock.go] and the CRDT resolver of [crdt.go].  The Go interface is a record of
    its two methods.  [encoding/json] is a parameter (a [Codec]), as are the rendering of a clock
    inside a reason text and the wall clock. *)

From S2P Require Import Prelude Storage Crdt Rga.

Module Resolver.

Inductive ResolverType := ResolverLWW | ResolverVectorClock | ResolverCRDT | ResolverManual.

Definition type_string (t : ResolverType) : string :=
  match t with
  | ResolverLWW => "lww"
  | ResolverVectorClock => "vector_clock"
  | ResolverCRDT => "crdt"
  | ResolverManual => "manual"
  end.

Record Conflict := MkConflict {
  c_ID : string;
  c_Key : string;
  Local_ : KVEntry;
  Remote : KVEntry;
  DetectedAt : Z;
  c_NodeID : string;
  ClusterID : string;
}.

Record Resolution := MkResolution {
  ConflictID : string;
  Winner : KVEntry;
  ResolverType_ : ResolverType;
  Reason : string;
  ResolvedAt : Z;
}.

Record ConflictResolver := MkResolver {
  Type_ : ResolverType;
  Resolve : Conflict → Resolution;
}.

Section resolvers.
(** [time.Now()] and [VectorClock.String()]. *)
Context (now : Z) (vc_string : gmap string N → string).

Definition ManualResolver : ConflictResolver :=
  MkResolver ResolverManual (λ c,
    MkResolution (c_ID c) (Local_ c) ResolverManual "pending_manual" now).

Definition lww_Resolve (c : Conflict) : Resolution :=
  let '(winner, reason) :=
    if (kv_Timestamp (Local_ c) <? kv_Timestamp (Remote c))%Z then (Remote c, "remote_newer")
    else if (kv_Timestamp (Remote c) =? kv_Timestamp (Local_ c))%Z then
      if str_ltb (kv_NodeID (Local_ c)) (kv_NodeID (Remote c)) then
        (Remote c, "timestamp_tie_nodeID_tiebreak:remote=" +:+ kv_NodeID (Remote c) +:+
                   ">local=" +:+ kv_NodeID (Local_ c))
      else
        (Local_ c, "timestamp_tie_nodeID_tiebreak:local=" +:+ kv_NodeID (Local_ c) +:+
                  ">=remote=" +:+ kv_NodeID (Remote c))
    else (Local_ c, "local_newer") in
  MkResolution (c_ID c) winner ResolverLWW reason now.

Definition LWWResolver : ConflictResolver := MkResolver ResolverLWW lww_Resolve.

Definition vc_Resolve (fallback : ConflictResolver) (c : Conflict) : Resolution :=
  match kv_VClock (Local_ c), kv_VClock (Remote c) with
  | None, None => Resolve fallback c
  | None, Some _ =>
      MkResolution (c_ID c) (Remote c) ResolverVectorClock "local_has_no_vclock" now
  | Some _, None =>
      MkResolution (c_ID c) (Local_ c) ResolverVectorClock "remote_has_no_vclock" now
  | Some localVC, Some remoteVC =>
      if VectorClock.HappensBefore remoteVC localVC then
        MkResolution (c_ID c) (Local_ c) ResolverVectorClock
          ("remote_happens_before_local: local=" +:+ vc_string localVC +:+
           " remote=" +:+ vc_string remoteVC) now
      else if VectorClock.HappensBefore localVC remoteVC then
        MkResolution (c_ID c) (Remote c) ResolverVectorClock
          ("local_happens_before_remote: local=" +:+ vc_string localVC +:+
           " remote=" +:+ vc_string remoteVC) now
      else
        let res := Resolve fallback c in
        MkResolution (ConflictID res) (Winner res) (ResolverType_ res)
          ("concurrent_fallback_to_" +:+ type_string (Type_ fallback) +:+ ": " +:+ Reason res)
          (ResolvedAt res)
  end.

Definition NewVectorClockResolver (fallback : option ConflictResolver) : ConflictResolver :=
  let fallback := match fallback with None => LWWResolver | Some f => f end in
  MkResolver ResolverVectorClock (vc_Resolve fallback).

(** The parts of [encoding/json] the CRDT resolver uses.  A decoder returns [None] on an error;
    the counts of a decoded G-counter are [None] when the field is absent or null. *)
Record Codec := MkCodec {
  dec_tag : option string → option string;
  dec_gcounter : option string → option (string * option (gmap string N));
  dec_pncounter : option string → option PNCounter.PNCounter;
  dec_orset : option string → option ORSet.ORSet;
  dec_lwwmap : option string → option LWW.LWWMap;
  dec_rga : option string → option RGA.RGA;
  enc_gcounter : GCounter.GCounter → string;
  enc_pncounter : PNCounter.PNCounter → string;
  enc_orset : ORSet.ORSet → string;
  enc_lwwmap : LWW.LWWMap → string;
  enc_rga : RGA.RGA → string;
}.

Context (codec : Codec).

Definition mergeCRDT (localVal remoteVal : option string) : option (string * string) :=
  match dec_tag codec localVal, dec_tag codec remoteVal with
  | Some lt, Some rt =>
      if String.eqb lt "" || negb (String.eqb lt rt) then None
      else if String.eqb lt GCounter.GCounterType then
        match dec_gcounter codec localVal, dec_gcounter codec remoteVal with
        | Some (ta, Some ca), Some (tb, Some cb) =>
            Some (enc_gcounter codec
                    (GCounter.Merge (GCounter.MkGCounter ta ca) (GCounter.MkGCounter tb cb)),
                  "gcounter_merge")
        | _, _ => None
        end
      else if String.eqb lt PNCounter.PNCounterType then
        a ← dec_pncounter codec localVal; b ← dec_pncounter codec remoteVal;
        Some (enc_pncounter codec (PNCounter.Merge a b), "pncounter_merge")
      else if String.eqb lt ORSet.ORSetType then
        a ← dec_orset codec localVal; b ← dec_orset codec remoteVal;
        Some (enc_orset codec (ORSet.Merge a b), "orset_merge")
      else if String.eqb lt LWW.LWWMapType then
        a ← dec_lwwmap codec localVal; b ← dec_lwwmap codec remoteVal;
        Some (enc_lwwmap codec (LWW.MapMerge a b), "lwwmap_merge")
      else if String.eqb lt RGA.RGAType then
        a ← dec_rga codec localVal; b ← dec_rga codec remoteVal;
        Some (enc_rga codec (RGA.Merge a b), "rga_merge")
      else None
  | _, _ => None
  end.

Definition max64 (a b : Z) : Z := if (b <? a)%Z then a else b.
Definition maxStr (a b : string) : string := if str_ltb b a then a else b.

Definition crdt_Resolve (c : Conflict) : Resolution :=
  let l := Local_ c in let r := Remote c in
  match mergeCRDT (kv_Value l) (kv_Value r) with
  | Some (mergedBytes, reason) =>
      let winner := MkKVEntry (kv_Key l) (Some mergedBytes)
        (Some (VectorClock.Merge (VectorClock.Clone (kv_VClock l)) (default ∅ (kv_VClock r))))
        (max64 (kv_Timestamp l) (kv_Timestamp r)) (maxStr (kv_NodeID l) (kv_NodeID r)) false 0%N in
      MkResolution (c_ID c) winner ResolverCRDT reason now
  | None =>
      let localReg := LWW.MkReg (kv_Value l) (kv_Timestamp l) (kv_NodeID l) in
      let remoteReg := LWW.MkReg (kv_Value r) (kv_Timestamp r) (kv_NodeID r) in
      (* [winner == remoteReg] compares pointers: [Merge] returned its argument *)
      if LWW.other_wins localReg remoteReg
      then MkResolution (c_ID c) r ResolverCRDT "lww_register_remote" now
      else MkResolution (c_ID c) l ResolverCRDT "lww_register_local" now
  end.

Definition CRDTResolver : ConflictResolver := MkResolver ResolverCRDT crdt_Resolve.

(** ** The winner as a function of the two entries *)

Definition between (l r : KVEntry) : Conflict := MkConflict "c" (kv_Key l) l r 0 "n" "cl".

Definition winner_of (R : ConflictResolver) (l r : KVEntry) : KVEntry := Winner (Resolve R (between l r)).

Definition stamp (e : KVEntry) : LWW.LWWMapEntry := LWW.MkEntry "" (kv_Timestamp e) (kv_NodeID e).

Lemma lww_winner_cases l r :
  (winner_of LWWResolver l r = r ∧ LWW.entry_lt (stamp l) (stamp r)) ∨
  (winner_of LWWResolver l r = l ∧ ¬ LWW.entry_lt (stamp l) (stamp r)).
Proof.
  unfold winner_of, LWWResolver; simpl. unfold lww_Resolve; simpl.
  unfold LWW.entry_lt, stamp; simpl.
  destruct (Z.ltb_spec (kv_Timestamp l) (kv_Timestamp r)); [left; auto|].
  destruct (Z.eqb_spec (kv_Timestamp r) (kv_Timestamp l)) as [Ht|]; simpl; last first.
  { right. split; [done|]. intros [?|[? _]]; lia. }
  destruct (str_ltb (kv_NodeID l) (kv_NodeID r)) eqn:E; [left|right].
  - split; [done|]. right. apply str_ltb_lt in E. auto.
  - split; [done|]. apply str_ltb_nlt in E. intros [?|[_ [?|[_ H']]]]; [lia|done|].
    by apply str_lt_irrefl in H'.
Qed.

Lemma lww_winner_stamp l r : stamp (winner_of LWWResolver l r) = LWW.pick (stamp l) (stamp r).
Proof.
  destruct (lww_winner_cases l r) as [[-> H]|[-> H]].
  - by rewrite LWW.pick_lt.
  - rewrite LWW.pick_ge; [done|]. destruct (LWW.entry_lt_total (stamp l) (stamp r)) as [?|[?|?]]; auto.
    done.
Qed.

(** Entries of one key whose stamps identify them. *)
Section universe.
Context (U : KVEntry → Prop).
Context (U_stamp : ∀ e1 e2, U e1 → U e2 → stamp e1 = stamp e2 → e1 = e2).

Lemma lww_winner_in l r : U l → U r → U (winner_of LWWResolver l r).
Proof. intros. by destruct (lww_winner_cases l r) as [[-> _]|[-> _]]. Qed.

Lemma lww_crdt : Crdt KVEntry eq U (winner_of LWWResolver).
Proof using U_stamp.
  split; [apply _|apply lww_winner_in|congruence|..]; intros;
    apply U_stamp; auto using lww_winner_in; rewrite !lww_winner_stamp.
  - apply LWW.pick_comm.
  - apply LWW.pick_assoc.
  - unfold LWW.pick. by destruct (LWW.lwwMapEntryWins _ _).
Qed.

(** Timestamps that respect causality: what hybrid logical clocks give. *)
Context (U_clock : ∀ e, U e → ∃ v, kv_VClock e = Some v).
Context (U_causal : ∀ e1 e2 v1 v2, U e1 → U e2 → kv_VClock e1 = Some v1 → kv_VClock e2 = Some v2 →
  VectorClock.HappensBefore v1 v2 = true → (kv_Timestamp e1 < kv_Timestamp e2)%Z).

Lemma vc_winner_lww l r :
  U l → U r → winner_of (NewVectorClockResolver None) l r = winner_of LWWResolver l r.
Proof using U_clock U_causal.
  intros Hl Hr. destruct (U_clock l Hl) as [vl El], (U_clock r Hr) as [vr Er].
  unfold winner_of at 1; simpl. unfold vc_Resolve; simpl. rewrite El, Er.
  destruct (VectorClock.HappensBefore vr vl) eqn:E1; simpl.
  { pose proof (U_causal r l vr vl Hr Hl Er El E1).
    destruct (lww_winner_cases l r) as [[_ [H'|[H' _]]]|[-> _]]; simpl in *; [lia..|done]. }
  destruct (VectorClock.HappensBefore vl vr) eqn:E2; simpl; [|done].
  pose proof (U_causal l r vl vr Hl Hr El Er E2).
  destruct (lww_winner_cases l r) as [[-> _]|[_ H']]; [done|]. destruct H'. by left.
Qed.

Lemma vc_merges_lww t :
  Forall U (leaves t) →
  run_merges (winner_of (NewVectorClockResolver None)) t = run_merges (winner_of LWWResolver) t ∧
  U (run_merges (winner_of LWWResolver) t).
Proof using U_clock U_causal.
  induction t as [e|t1 IH1 t2 IH2]; simpl; [intros H%Forall_inv; done|].
  intros [[-> ?]%IH1 [-> ?]%IH2]%Forall_app. split; [by apply vc_winner_lww|by apply lww_winner_in].
Qed.
End universe.
End resolvers.

(** ** The last-write-wins order on entries *)

(** [a] does not win over [b] under last-write-wins. *)
Definition stamp_le (a b : KVEntry) : Prop := ¬ LWW.entry_lt (stamp b) (stamp a).

Lemma stamp_le_trans a b c : stamp_le a b → stamp_le b c → stamp_le a c.
Proof.
  unfold stamp_le. intros H1 H2 H3. destruct (LWW.entry_lt_total (stamp a) (stamp b)) as [H|[H|H]]; [| |done].
  - eapply H2, LWW.entry_lt_trans; [exact H3|done].
  - rewrite H in H3. done.
Qed.

Lemma stamp_le_ts a b : stamp_le a b → (kv_Timestamp a ≤ kv_Timestamp b)%Z.
Proof. unfold stamp_le, LWW.entry_lt; simpl. intros H. destruct (Z.le_gt_cases (kv_Timestamp a) (kv_Timestamp b)); [done|]. destruct H; by left. Qed.

Lemma stamp_le_lt a b : (kv_Timestamp a < kv_Timestamp b)%Z → stamp_le a b.
Proof. unfold stamp_le, LWW.entry_lt; simpl. intros ? [?|[? _]]; lia. Qed.

Lemma stamp_le_antisym a b :
  stamp_le a b → stamp_le b a → kv_Timestamp a = kv_Timestamp b ∧ kv_NodeID a = kv_NodeID b.
Proof.
  unfold stamp_le. intros H1 H2. destruct (LWW.entry_lt_total (stamp a) (stamp b)) as [H|[H|H]]; [done| |done].
  unfold stamp in H. by injection H.
Qed.

Lemma stamp_le_refl a : stamp_le a a.
Proof. apply LWW.entry_lt_irrefl. Qed.

End Resolver.

Import Resolver.

(** The vector-clock resolver converges: when every version of a key carries a clock, its
    timestamp respects causality and timestamp and node identify it, replicas that resolved the
    same versions in any order and grouping keep the same one, which is the one last-write-wins
    keeps. *)
Theorem vector_clock_resolver_converges now vc_string (U : KVEntry → Prop) (t1 t2 : mtree KVEntry) :
  (∀ e1 e2, U e1 → U e2 → kv_Timestamp e1 = kv_Timestamp e2 → kv_NodeID e1 = kv_NodeID e2 → e1 = e2) →
  (∀ e, U e → ∃ v, kv_VClock e = Some v) →
  (∀ e1 e2 v1 v2, U e1 → U e2 → kv_VClock e1 = Some v1 → kv_VClock e2 = Some v2 →
     VectorClock.HappensBefore v1 v2 = true → (kv_Timestamp e1 < kv_Timestamp e2)%Z) →
  Forall U (leaves t1) → (∀ e, e ∈ leaves t1 ↔ e ∈ leaves t2) →
  let vc := winner_of (NewVectorClockResolver now vc_string None) in
  run_merges vc t1 = run_merges vc t2 ∧
  run_merges vc t1 = run_merges (winner_of (LWWResolver now)) t1.
Proof.
  intros HU Hclock Hcausal Hok Hs vc.
  assert (Hok2 : Forall U (leaves t2)).
  { apply Forall_forall. intros a Ha%Hs. by eapply Forall_forall in Hok. }
  assert (HU' : ∀ e1 e2, U e1 → U e2 → stamp e1 = stamp e2 → e1 = e2).
  { intros e1 e2 H1 H2 [= ? ?]. auto. }
  destruct (vc_merges_lww now vc_string U Hclock Hcausal t1 Hok) as [H1 _].
  destruct (vc_merges_lww now vc_string U Hclock Hcausal t2 Hok2) as [H2 _].
  unfold vc. split; [|done]. rewrite H1, H2.
  pose proof (lww_crdt now U HU'). by apply (merges_converge (ok := U)).
Qed.

Definition demo_kv (n : string) (ts : Z) : KVEntry :=
  MkKVEntry "k" (Some n) (Some {[n := 1%N]}) ts n false 0.

Lemma vector_clock_resolver_converges_witness :
  let vc := winner_of (NewVectorClockResolver 0 (λ _, "vc") None) in
  run_merges vc (Node (Leaf (demo_kv "a" 1)) (Leaf (demo_kv "b" 2))) =
  run_merges vc (Node (Leaf (demo_kv "b" 2)) (Leaf (demo_kv "a" 1))) ∧
  run_merges vc (Node (Leaf (demo_kv "a" 1)) (Leaf (demo_kv "b" 2))) =
  run_merges (winner_of (LWWResolver 0)) (Node (Leaf (demo_kv "a" 1)) (Leaf (demo_kv "b" 2))).
Proof.
  apply (vector_clock_resolver_converges 0 (λ _, "vc")
    (λ e, e = demo_kv "a" 1 ∨ e = demo_kv "b" 2)
    (Node (Leaf (demo_kv "a" 1)) (Leaf (demo_kv "b" 2)))
    (Node (Leaf (demo_kv "b" 2)) (Leaf (demo_kv "a" 1)))).
  - by intros e1 e2 [-> | ->] [-> | ->].
  - intros e [-> | ->]; by eexists.
  - intros e1 e2 v1 v2 [-> | ->] [-> | ->] [= <-] [= <-]; vm_compute; done.
  - constructor; [by left|]. constructor; [by right|constructor].
  - set_solver.
Defined.
