(* ===== verification/Paxos.v ===== *)
(** * Paxos

    Models [src/internal/paxos/paxos.go]: acceptors, proposers and the Multi-Paxos log.  A value
    is an [option V]: [None] is the nil interface, which the code uses for "nothing accepted".
    Proposal numbers are uint64.  Besides the functions of the source, [proposer_step] cuts
    [Propose] at its calls to acceptors, so that agreement can be proved for any interleaving of
    any number of proposers and not only for calls that run to completion one after the other. *)

From S2P Require Import Prelude.

Module Paxos.

Section paxos.
Context {V : Type}.

Record Acceptor := MkAcceptor { promisedN : N; acceptedN : N; acceptedV : option V }.

Definition Prepare (a : Acceptor) (n : N) : (bool * N * option V) * Acceptor :=
  if (promisedN a <? n)%N
  then ((true, acceptedN a, acceptedV a), MkAcceptor n (acceptedN a) (acceptedV a))
  else ((false, acceptedN a, acceptedV a), a).

Definition Accept (a : Acceptor) (n : N) (v : option V) : bool * Acceptor :=
  if (promisedN a <=? n)%N then (true, MkAcceptor n n v) else (false, a).

Record Proposer := MkProposer { p_id : N; p_round : N }.

Definition NewProposer (id : N) : Proposer := MkProposer id 0.

Definition nextProposalNumber (p : Proposer) : N * Proposer :=
  let round := u64N (p_round p + 1) in
  (N.lor (u64N (N.shiftl round 16)) (N.land (p_id p) 65535), MkProposer (p_id p) round).

Definition majority (n : nat) : nat := n / 2 + 1.

(** The body of the first loop: promises, adopted value, highest accepted number. *)
Definition adopt (reply : bool * N * option V) (st : nat * option V * N) : nat * option V * N :=
  let '(promises, chosenV, highest) := st in
  let '(promised, accN, accV) := reply in
  if promised then
    match accV with
    | Some _ => if (highest <? accN)%N then (S promises, accV, accN) else (S promises, chosenV, highest)
    | None => (S promises, chosenV, highest)
    end
  else (promises, chosenV, highest).

Fixpoint prepare_loop (n : N) (todo : list Acceptor) (st : nat * option V * N)
  : list Acceptor * (nat * option V * N) :=
  match todo with
  | [] => ([], st)
  | a :: todo =>
      let '(reply, a') := Prepare a n in
      let '(done_, st') := prepare_loop n todo (adopt reply st) in
      (a' :: done_, st')
  end.

Fixpoint accept_loop (n : N) (v : option V) (todo : list Acceptor) (accepts : nat)
  : list Acceptor * nat :=
  match todo with
  | [] => ([], accepts)
  | a :: todo =>
      let '(ok, a') := Accept a n v in
      let '(done_, accepts') := accept_loop n v todo (if ok then S accepts else accepts) in
      (a' :: done_, accepts')
  end.

(** The result is [None] for [(nil, false)] and [Some chosen] for [(chosen, true)]. *)
Definition Propose (p : Proposer) (acceptors : list Acceptor) (v : option V)
  : option (option V) * list Acceptor * Proposer :=
  if length acceptors =? 0 then (None, acceptors, p)
  else
    let need := majority (length acceptors) in
    let '(n, p) := nextProposalNumber p in
    let '(acceptors, (promises, chosenV, _)) := prepare_loop n acceptors (0, v, 0%N) in
    if promises <? need then (None, acceptors, p)
    else
      let '(acceptors, accepts) := accept_loop n chosenV acceptors 0 in
      if accepts <? need then (None, acceptors, p) else (Some chosenV, acceptors, p).

(** ** Multi-Paxos *)

Record MultiPaxos := MkMulti {
  numAcceptors : nat;
  slots : list (list Acceptor);
  log : list (option V);
}.

Definition NewMultiPaxos (n : Z) : MultiPaxos :=
  MkMulti (if (n <=? 0)%Z then 1 else Z.to_nat n) [] [].

Definition fresh_acceptor : Acceptor := MkAcceptor 0 0 None.

(** Each round of the loop adds one slot; [slot + 1 - len] rounds reach it. *)
Fixpoint grow (rounds : nat) (m : MultiPaxos) : MultiPaxos :=
  match rounds with
  | 0 => m
  | S rounds =>
      grow rounds (MkMulti (numAcceptors m)
        (slots m ++ [replicate (numAcceptors m) fresh_acceptor]) (log m ++ [None]))
  end.

Definition growTo (m : MultiPaxos) (slot : nat) : MultiPaxos := grow (S slot - length (slots m)) m.

Definition Acceptors (m : MultiPaxos) (slot : nat) : Res (list Acceptor * MultiPaxos) :=
  let m := growTo m slot in
  set ← res_of (slots m !! slot); Ok (set, m).

(** [slots[slot]] is a slice of pointers: the proposer's calls update it in place. *)
Definition Decide (m : MultiPaxos) (slot : nat) (proposerID : N) (v : option V)
  : Res (option (option V) * MultiPaxos) :=
  let m := growTo m slot in
  let p := NewProposer proposerID in
  set ← res_of (slots m !! slot);
  let '(result, set', _) := Propose p set v in
  let log' := match result with Some chosen => <[slot := chosen]> (log m) | None => log m end in
  Ok (result, MkMulti (numAcceptors m) (<[slot := set']> (slots m)) log').

Definition Log (m : MultiPaxos) : list (option V) := log m.

(** ** Proposers that interleave *)

(** Where a proposer is: in one of its loops with its local variables, or returned. *)
Inductive PState :=
  | Phase1 (k : nat) (promises : nat) (chosenV : option V) (highest : N)
  | Phase2 (k : nat) (accepts : nat) (chosenV : option V)
  | Returned (result : option (option V)).

(** Up to and including the next call to an acceptor, or the check after a loop. *)
Definition proposer_step (n : N) (accs : list Acceptor) (p : PState) : list Acceptor * PState :=
  match p with
  | Phase1 k promises chosenV highest =>
      match accs !! k with
      | Some a =>
          let '(reply, a') := Prepare a n in
          let '(promises, chosenV, highest) := adopt reply (promises, chosenV, highest) in
          (<[k := a']> accs, Phase1 (S k) promises chosenV highest)
      | None =>
          (accs, if promises <? majority (length accs) then Returned None else Phase2 0 0 chosenV)
      end
  | Phase2 k accepts chosenV =>
      match accs !! k with
      | Some a =>
          let '(ok, a') := Accept a n chosenV in
          (<[k := a']> accs, Phase2 (S k) (if ok then S accepts else accepts) chosenV)
      | None =>
          (accs, if accepts <? majority (length accs) then Returned None
                 else Returned (Some chosenV))
      end
  | Returned _ => (accs, p)
  end.

Record System := MkSystem { accs : list Acceptor; procs : gmap N PState }.

Inductive sys_step : System → System → Prop :=
  | sys_start s n v :
      (0 < n)%N → procs s !! n = None →
      sys_step s (MkSystem (accs s) (<[n := Phase1 0 0 (Some v) 0]> (procs s)))
  | sys_run s n p accs' p' :
      procs s !! n = Some p → proposer_step n (accs s) p = (accs', p') →
      sys_step s (MkSystem accs' (<[n := p']> (procs s))).

Definition sys_init (size : nat) : System := MkSystem (replicate size fresh_acceptor) ∅.

Definition sys_reachable (size : nat) (s : System) : Prop := rtc sys_step (sys_init size) s.
End paxos.
Arguments Acceptor : clear implicits.
Arguments PState : clear implicits.
Arguments System : clear implicits.
Arguments MultiPaxos : clear implicits.


(** ** The invariant *)

Section agreement.
Context {V : Type}.
Implicit Types (votes : list (nat * N * V)) (props : gmap N V) (a : Acceptor V).

(** [votes]: every acceptance there ever was; [props]: the value each number was proposed with. *)

Definition acc_ok votes (i : nat) a : Prop :=
  (acceptedN a ≤ promisedN a)%N ∧
  (∀ m w, (i, m, w) ∈ votes → (m ≤ acceptedN a)%N) ∧
  match acceptedV a with
  | Some w => (i, acceptedN a, w) ∈ votes
  | None => acceptedN a = 0%N
  end.

(** What the promises of [Q] for number [n] say: their votes below [n] end at [hi], and [v] is a
    value voted for at [hi] (unless nobody has voted). *)
Definition heard (acs : list (Acceptor V)) votes (n : N) (Q : list nat) (hi : N) (v : V) : Prop :=
  NoDup Q ∧
  (∀ i, i ∈ Q → ∃ a, acs !! i = Some a ∧ (n ≤ promisedN a)%N) ∧
  (∀ i m w, i ∈ Q → (i, m, w) ∈ votes → (m < n)%N → (m ≤ hi)%N) ∧
  (hi = 0%N ∨ ∃ i, (i, hi, v) ∈ votes ∧ (hi < n)%N).

Definition chosen (size : nat) votes (n : N) (v : V) : Prop :=
  ∃ Q, NoDup Q ∧ majority size ≤ length Q ∧ ∀ i, i ∈ Q → i < size ∧ (i, n, v) ∈ votes.

Definition proc_ok (acs : list (Acceptor V)) votes props (n : N) (p : PState V) : Prop :=
  match p with
  | Phase1 k promises cv hi =>
      props !! n = None ∧
      ∃ v Q, cv = Some v ∧ length Q = promises ∧ (∀ i, i ∈ Q → i < k) ∧ heard acs votes n Q hi v
  | Phase2 k accepts cv =>
      ∃ v Q, cv = Some v ∧ props !! n = Some v ∧ length Q = accepts ∧ NoDup Q ∧
             ∀ i, i ∈ Q → i < k ∧ i < length acs ∧ (i, n, v) ∈ votes
  | Returned None => True
  | Returned (Some cv) => ∃ v, cv = Some v ∧ props !! n = Some v ∧ chosen (length acs) votes n v
  end.

Record Inv (size : nat) (s : System V) votes props : Prop := {
  inv_size : length (accs s) = size;
  inv_accs : ∀ i a, accs s !! i = Some a → acc_ok votes i a;
  inv_votes : ∀ i m w, (i, m, w) ∈ votes → (0 < m)%N ∧ props !! m = Some w;
  inv_procs : ∀ n p, procs s !! n = Some p → (0 < n)%N ∧ proc_ok (accs s) votes props n p;
  inv_props : ∀ n v, props !! n = Some v →
    is_Some (procs s !! n) ∧
    ∃ Q hi, majority size ≤ length Q ∧ heard (accs s) votes n Q hi v;
}.

(** One call to an acceptor: promises grow, and a new vote is at or above its voter's promise. *)
Record ext (acs : list (Acceptor V)) votes (acs' : list (Acceptor V)) votes' : Prop := {
  ext_len : length acs' = length acs;
  ext_promise : ∀ i a, acs !! i = Some a → ∃ a', acs' !! i = Some a' ∧ (promisedN a ≤ promisedN a')%N;
  ext_sub : votes ⊆ votes';
  ext_new : ∀ i m w, (i, m, w) ∈ votes' →
    (i, m, w) ∈ votes ∨ ∃ a, acs !! i = Some a ∧ (promisedN a ≤ m)%N;
}.

Lemma ext_refl acs votes : ext acs votes acs votes.
Proof. split; [done| |done|by left]. intros i a Hi. exists a. split; [done|lia]. Qed.

Lemma heard_ext acs votes acs' votes' n Q hi v :
  ext acs votes acs' votes' → heard acs votes n Q hi v → heard acs' votes' n Q hi v.
Proof.
  intros Hext (Hnd & Hp & Hv & Hhi). split_and!; [done|..].
  - intros i (a & Ha & Hle)%Hp. destruct (ext_promise _ _ _ _ Hext i a Ha) as (a' & ? & ?).
    exists a'. split; [done|lia].
  - intros i m w Hi Hvote Hm. destruct (ext_new _ _ _ _ Hext _ _ _ Hvote) as [?|(a & Ha & Hle)].
    + by eapply Hv.
    + destruct (Hp i Hi) as (a' & Ha' & ?). assert (a = a') as -> by congruence. lia.
  - destruct Hhi as [?|(i & ? & ?)]; [by left|right]. exists i. split; [|done].
    by apply (ext_sub _ _ _ _ Hext).
Qed.

Lemma chosen_sub size votes votes' n v : votes ⊆ votes' → chosen size votes n v → chosen size votes' n v.
Proof. intros Hs (Q & ? & ? & HQ). exists Q. split_and!; [done..|]. intros i [? ?]%HQ. auto. Qed.

Lemma proc_ok_ext acs votes props acs' votes' props' n p :
  ext acs votes acs' votes' → props' !! n = props !! n →
  proc_ok acs votes props n p → proc_ok acs' votes' props' n p.
Proof.
  intros Hext Hprops. destruct p as [k pr cv hi|k ac cv|[cv|]]; simpl; rewrite ?Hprops.
  - intros (? & v & Q & ? & ? & ? & ?). split; [done|]. exists v, Q. eauto using heard_ext.
  - intros (v & Q & ? & ? & ? & ? & HQ). exists v, Q. split_and!; [done..|].
    intros i (? & ? & ?)%HQ. rewrite (ext_len _ _ _ _ Hext).
    split_and!; [done..|]. by apply (ext_sub _ _ _ _ Hext).
  - intros (v & ? & ? & ?). exists v. rewrite (ext_len _ _ _ _ Hext).
    eauto using chosen_sub, ext_sub.
  - done.
Qed.

(** Replacing the acceptor [k] by one that has promised at least as much. *)
Lemma ext_insert acs votes k a a' :
  acs !! k = Some a → (promisedN a ≤ promisedN a')%N → ext acs votes (<[k := a']> acs) votes.
Proof.
  intros Hk Hle. split; [by rewrite length_insert| |done|by left].
  intros i b Hi. destruct (decide (i = k)) as [->|].
  - rewrite list_lookup_insert_eq by by eapply lookup_lt_Some. exists a'. split; [done|].
    by assert (b = a) as -> by congruence.
  - rewrite list_lookup_insert_ne by done. exists b. split; [done|lia].
Qed.

Lemma ext_vote acs votes k a a' m w :
  acs !! k = Some a → (promisedN a ≤ promisedN a')%N → (promisedN a ≤ m)%N →
  ext acs votes (<[k := a']> acs) ((k, m, w) :: votes).
Proof.
  intros Hk Hle Hm. destruct (ext_insert acs votes k a a' Hk Hle) as [H1 H2 _ _].
  split; [done|done|set_solver|].
  intros i m' w' [[= -> -> ->]|?]%elem_of_cons; [right; eauto|by left].
Qed.

(** The proposer [n] moves; every other proposer keeps what it knows. *)
Lemma Inv_update size s votes props n p' acs' votes' props' :
  Inv size s votes props → ext (accs s) votes acs' votes' →
  (0 < n)%N →
  (∀ m, m ≠ n → props' !! m = props !! m) →
  (∀ v, props' !! n = Some v →
     ∃ Q hi, majority size ≤ length Q ∧ heard acs' votes' n Q hi v) →
  (∀ i a, acs' !! i = Some a → acc_ok votes' i a) →
  (∀ i m w, (i, m, w) ∈ votes' → (0 < m)%N ∧ props' !! m = Some w) →
  proc_ok acs' votes' props' n p' →
  Inv size (MkSystem acs' (<[n := p']> (procs s))) votes' props'.
Proof.
  intros HI Hext Hn Hother Hprop Hacc Hvotes Hp. split; simpl.
  - rewrite (ext_len _ _ _ _ Hext). apply HI.
  - done.
  - done.
  - intros m p [[<- <-]|[Hne Hm]]%lookup_insert_Some; [done|].
    destruct (inv_procs _ _ _ _ HI m p Hm) as [? Hok]. split; [done|].
    eapply proc_ok_ext; [exact Hext|by apply Hother|done].
  - intros m v Hm. destruct (decide (m = n)) as [->|Hne].
    + rewrite lookup_insert_eq. eauto.
    + rewrite Hother in Hm by done. destruct (inv_props _ _ _ _ HI m v Hm) as (? & Q & hi & ? & ?).
      rewrite lookup_insert_ne by done. split; [done|]. exists Q, hi. eauto using heard_ext.
Qed.

(** The parts of the invariant a move leaves alone. *)
Ltac inv_auto HI :=
  first [apply ext_refl
        | intros ? ? ?; by eapply (inv_accs _ _ _ _ HI)
        | intros ? ? ? ?; by eapply (inv_votes _ _ _ _ HI)
        | intros ? ?; by eapply (inv_props _ _ _ _ HI) ].

Lemma acc_ok_same votes i a b :
  acc_ok votes i a → acceptedN b = acceptedN a → acceptedV b = acceptedV a →
  (promisedN a ≤ promisedN b)%N → acc_ok votes i b.
Proof. intros (? & ? & ?) E1 E2 ?. unfold acc_ok. rewrite E1, E2. split_and!; [lia|done..]. Qed.

(** A granted promise adds its acceptor to the quorum heard from. *)
Lemma heard_promise acs votes n k a promises v hi Q :
  (∀ i m w, (i, m, w) ∈ votes → (0 < m)%N) →
  acs !! k = Some a → acc_ok votes k a → (promisedN a < n)%N →
  (∀ i, i ∈ Q → i < k) → length Q = promises → heard acs votes n Q hi v →
  ∃ v' hi',
    adopt (true, acceptedN a, acceptedV a) (promises, Some v, hi) = (S promises, Some v', hi') ∧
    heard (<[k := MkAcceptor n (acceptedN a) (acceptedV a)]> acs) votes n (k :: Q) hi' v'.
Proof.
  intros Hpos Hk (Hle & Hmax & Hlast) Hlt HQk HQ Hh.
  set (a' := MkAcceptor n (acceptedN a) (acceptedV a)).
  assert (Hext : ext acs votes (<[k := a']> acs) votes) by (apply (ext_insert _ _ _ a); [done|simpl; lia]).
  pose proof (heard_ext _ _ _ _ _ _ _ _ Hext Hh) as (Hnd & Hp & Hv & Hhi).
  assert (Hgen : ∀ v' hi', (hi ≤ hi')%N → (acceptedN a ≤ hi')%N →
    (hi' = 0%N ∨ ∃ i, (i, hi', v') ∈ votes ∧ (hi' < n)%N) →
    heard (<[k := a']> acs) votes n (k :: Q) hi' v').
  { intros v' hi' H1 H2 H3. split_and!; [|..|done].
    - apply NoDup_cons. split; [|done]. intros ?%HQk. lia.
    - intros i [->|Hi]%elem_of_cons; [|by apply Hp].
      exists a'. rewrite list_lookup_insert_eq by by eapply lookup_lt_Some. split; [done|simpl; lia].
    - intros i m w [->|Hi]%elem_of_cons Hvote Hm.
      + apply Hmax in Hvote. lia.
      + specialize (Hv i m w Hi Hvote Hm). lia. }
  unfold adopt. destruct (acceptedV a) as [w|] eqn:Ew; simpl.
  - destruct (N.ltb_spec hi (acceptedN a)) as [Hhigh|Hhigh].
    + exists w, (acceptedN a). split; [done|]. apply Hgen; [lia|lia|]. right. exists k. split; [done|lia].
    + exists v, hi. split; [done|]. apply Hgen; [lia|lia|done].
  - exists v, hi. split; [done|]. apply Hgen; [lia|lia|done].
Qed.

Lemma Inv_phase1 size s votes props n k promises cv hi acs' p' :
  Inv size s votes props → procs s !! n = Some (Phase1 k promises cv hi) →
  proposer_step n (accs s) (Phase1 k promises cv hi) = (acs', p') →
  ∃ props', Inv size (MkSystem acs' (<[n := p']> (procs s))) votes props'.
Proof.
  intros HI Hp Hstep. destruct (inv_procs _ _ _ _ HI n _ Hp) as [Hn (Hnone & v & Q & -> & HQ & HQk & Hh)].
  assert (Hpos : ∀ i m w, (i, m, w) ∈ votes → (0 < m)%N) by (intros i m w H; by apply (inv_votes _ _ _ _ HI) in H as [? _]).
  cbn [proposer_step] in Hstep. destruct (accs s !! k) as [a|] eqn:Ha.
  - pose proof (inv_accs _ _ _ _ HI k a Ha) as Hacc. exists props.
    unfold Prepare in Hstep. destruct (N.ltb_spec (promisedN a) n) as [Hlt|Hge].
    + destruct (heard_promise (accs s) votes n k a promises v hi Q) as (v' & hi' & Had & Hh'); try done.
      rewrite Had in Hstep. injection Hstep as <- <-.
      eapply (Inv_update size s votes props); try done.
      * apply (ext_insert _ _ _ a); [done|simpl; lia].
      * intros w Hw. congruence.
      * intros i b. rewrite list_lookup_insert_Some. intros [(<- & <- & _)|[Hne Hi]].
        -- eapply acc_ok_same; [exact Hacc|done|done|simpl; lia].
        -- by eapply inv_accs.
      * by eapply inv_votes.
      * split; [done|]. exists v', (k :: Q). split_and!; [done|by simpl; rewrite HQ| |done].
        intros i [->|?%HQk]%elem_of_cons; lia.
    + simpl in Hstep. injection Hstep as <- <-. rewrite list_insert_id by done.
      eapply (Inv_update size s votes props); try done; try by inv_auto HI.
      * split; [done|]. exists v, Q. split_and!; try done. intros i ?%HQk. lia.
  - injection Hstep as <- <-. rewrite (inv_size _ _ _ _ HI).
    destruct (Nat.ltb_spec promises (majority size)).
    + exists props. eapply (Inv_update size s votes props); try done; try by inv_auto HI.
    + exists (<[n := v]> props). eapply (Inv_update size s votes props); try done; try by inv_auto HI.
      * intros m Hm. by rewrite lookup_insert_ne.
      * intros w. rewrite lookup_insert_eq. intros [= <-]. exists Q, hi. split; [lia|done].
      * intros i m w Hvote. destruct (inv_votes _ _ _ _ HI _ _ _ Hvote) as [? Hm]. split; [done|].
        rewrite lookup_insert_ne; [done|]. congruence.
      * exists v, []. rewrite lookup_insert_eq. split_and!; try done; [constructor|set_solver].
Qed.

Lemma Inv_phase2 size s votes props n k accepts cv acs' p' :
  Inv size s votes props → procs s !! n = Some (Phase2 k accepts cv) →
  proposer_step n (accs s) (Phase2 k accepts cv) = (acs', p') →
  ∃ votes', Inv size (MkSystem acs' (<[n := p']> (procs s))) votes' props.
Proof.
  intros HI Hp Hstep.
  destruct (inv_procs _ _ _ _ HI n _ Hp) as [Hn (v & Q & -> & Hprop & HQ & Hnd & HQk)].
  destruct (inv_props _ _ _ _ HI n v Hprop) as (_ & Q0 & hi & HQ0 & Hh).
  cbn [proposer_step] in Hstep. destruct (accs s !! k) as [a|] eqn:Ha.
  - pose proof (inv_accs _ _ _ _ HI k a Ha) as (Hle & Hmax & Hlast).
    pose proof (lookup_lt_Some _ _ _ Ha) as Hlen.
    unfold Accept in Hstep. destruct (N.leb_spec (promisedN a) n) as [Hok|Hno].
    + injection Hstep as <- <-. exists ((k, n, v) :: votes).
      assert (Hext : ext (accs s) votes (<[k := MkAcceptor n n (Some v)]> (accs s)) ((k, n, v) :: votes))
        by (by apply (ext_vote _ _ _ a)).
      eapply (Inv_update size s votes props); try done.
      * intros w Hw. assert (w = v) as -> by congruence. exists Q0, hi. eauto using heard_ext.
      * intros i b. rewrite list_lookup_insert_Some. intros [(<- & <- & _)|[Hne Hi]].
        -- split_and!; simpl; [lia| |by left].
           intros m w [[= -> ->]|Hvote%Hmax]%elem_of_cons; lia.
        -- destruct (inv_accs _ _ _ _ HI i b Hi) as (Hle' & Hmax' & Hlast'). split_and!; [done| |].
           ++ intros m w [[= -> _ _]|?]%elem_of_cons; [done|by eapply Hmax'].
           ++ destruct (acceptedV b); [by right|done].
      * intros i m w [[= -> -> ->]|?]%elem_of_cons; [done|by eapply inv_votes].
      * exists v, (k :: Q). split_and!; try done; [by simpl; rewrite HQ| |].
        { apply NoDup_cons. split; [|done]. intros [? _]%HQk. lia. }
        intros i [->|(? & ? & ?)%HQk]%elem_of_cons; rewrite length_insert.
        { split_and!; [lia|done|by left]. } { split_and!; [lia|done|by right]. }
    + injection Hstep as <- <-. rewrite list_insert_id by done. exists votes.
      eapply (Inv_update size s votes props); try done; try by inv_auto HI.
      * exists v, Q. split_and!; try done. intros i (? & ? & ?)%HQk. split_and!; [lia|done..].
  - injection Hstep as <- <-. exists votes.
    eapply (Inv_update size s votes props); try done; try by inv_auto HI.
    + destruct (Nat.ltb_spec accepts (majority (length (accs s)))); [done|].
      exists v. split_and!; try done. exists Q. split_and!; [done|lia|]. intros i (? & ? & ?)%HQk. done.
Qed.

Lemma Inv_init size : Inv size (sys_init size) [] ∅.
Proof.
  split; simpl.
  - apply length_replicate.
  - intros i a [-> _]%lookup_replicate. split_and!; [done|set_solver|done].
  - set_solver.
  - intros n p. by rewrite lookup_empty.
  - intros n v. by rewrite lookup_empty.
Qed.

Lemma Inv_step size s s' votes props :
  Inv size s votes props → sys_step s s' → ∃ votes' props', Inv size s' votes' props'.
Proof.
  intros HI Hst. destruct Hst as [s0 n v Hn Hnone|s0 n p acs' p' Hp Hstep].
  - exists votes, props. assert (props !! n = None) as Hpn.
    { destruct (props !! n) eqn:E; [|done]. apply (inv_props _ _ _ _ HI) in E as [[? ?] _]. congruence. }
    eapply (Inv_update size s0 votes props); try done; try by inv_auto HI.
    + split; [done|]. exists v, []. split_and!; try done; [set_solver|].
      split_and!; [constructor|set_solver|set_solver|by left].
  - destruct p as [k pr cv hi|k ac cv|r].
    + destruct (Inv_phase1 size s0 votes props n k pr cv hi acs' p' HI Hp Hstep). eauto.
    + destruct (Inv_phase2 size s0 votes props n k ac cv acs' p' HI Hp Hstep). eauto.
    + injection Hstep as <- <-. exists votes, props. rewrite insert_id by done. by destruct s0.
Qed.

Lemma reachable_Inv size s : sys_reachable size s → ∃ votes props, Inv size s votes props.
Proof.
  unfold sys_reachable. intros Hr.
  assert (∃ votes props, Inv size (sys_init (V := V) size) votes props) as H by eauto using Inv_init.
  revert H. induction Hr as [s|s1 s2 s3 Hs _ IH]; [done|].
  intros (votes & props & HI). apply IH. by eapply Inv_step.
Qed.

(** ** Agreement *)

Lemma majorities_meet size Q1 Q2 :
  NoDup Q1 → NoDup Q2 → (∀ i, i ∈ Q1 → i < size) → (∀ i, i ∈ Q2 → i < size) →
  majority size ≤ length Q1 → majority size ≤ length Q2 → ∃ i, i ∈ Q1 ∧ i ∈ Q2.
Proof.
  intros ? ? H1 H2 ? ?. apply (quorums_intersect (seq 0 size)); [done..| | |].
  - intros i ?%H1. apply elem_of_seq. lia.
  - intros i ?%H2. apply elem_of_seq. lia.
  - rewrite length_seq. unfold majority in *. pose proof (Nat.div_mod_eq size 2).
    pose proof (Nat.mod_upper_bound size 2 ltac:(done)). lia.
Qed.

(** Once a value is chosen at [m], every later proposal carries it. *)
Lemma chosen_stable size s votes props m w :
  Inv size s votes props → chosen size votes m w →
  ∀ n v, props !! n = Some v → (m ≤ n)%N → v = w.
Proof.
  intros HI (Q & Hnd & Hmaj & HQ) n. induction (N.lt_wf_0 n) as [n _ IH]. intros v Hn Hle.
  destruct (decide (m = n)) as [->|Hne].
  { assert (∃ i, i ∈ Q) as [i Hi].
    { destruct Q as [|i Q]; [simpl in Hmaj; unfold majority in Hmaj; lia|]. exists i. by left. }
    apply HQ in Hi as [_ Hvote]. apply (inv_votes _ _ _ _ HI) in Hvote as [_ ?]. congruence. }
  destruct (inv_props _ _ _ _ HI n v Hn) as (_ & Q' & hi & Hmaj' & Hnd' & Hp' & Hv' & Hhi).
  destruct (majorities_meet size Q Q') as (i & Hi & Hi'); try done.
  { by intros i [? _]%HQ. }
  { intros i (a & Ha & _)%Hp'. rewrite <-(inv_size _ _ _ _ HI). by eapply lookup_lt_Some. }
  apply HQ in Hi as [_ Hvote]. pose proof (Hv' i m w Hi' Hvote ltac:(lia)) as Hmhi.
  pose proof (inv_votes _ _ _ _ HI _ _ _ Hvote) as [Hmpos _].
  destruct Hhi as [->|(j & Hj & Hlt)]; [lia|].
  apply (inv_votes _ _ _ _ HI) in Hj as [_ Hprop]. by apply (IH hi).
Qed.

Lemma returned_chosen size s votes props n v :
  Inv size s votes props → procs s !! n = Some (Returned (Some v)) →
  ∃ w, v = Some w ∧ props !! n = Some w ∧ chosen size votes n w.
Proof.
  intros HI Hn. destruct (inv_procs _ _ _ _ HI n _ Hn) as [_ (w & -> & ? & ?)].
  rewrite (inv_size _ _ _ _ HI) in *. eauto.
Qed.
End agreement.

(** ** [Propose] is an uninterrupted run of its steps *)

Section sequential.
Context {V : Type}.

Fixpoint run_steps (fuel : nat) (n : N) (acs : list (Acceptor V)) (p : PState V)
  : list (Acceptor V) * PState V :=
  match fuel with
  | 0 => (acs, p)
  | S fuel => let '(acs', p') := proposer_step n acs p in run_steps fuel n acs' p'
  end.

Lemma run_steps_add f1 f2 n acs p :
  run_steps (f1 + f2) n acs p = let '(acs', p') := run_steps f1 n acs p in run_steps f2 n acs' p'.
Proof.
  revert acs p. induction f1 as [|f1 IH]; intros acs p; simpl; [done|].
  destruct (proposer_step n acs p). apply IH.
Qed.

Lemma prepare_loop_length n todo st : length (prepare_loop (V := V) n todo st).1 = length todo.
Proof.
  revert st. induction todo as [|a todo IH]; intros st; simpl; [done|].
  destruct (Prepare a n) as [reply a']. specialize (IH (adopt reply st)).
  destruct (prepare_loop n todo (adopt reply st)) as [d st']. simpl in *. by rewrite IH.
Qed.

Lemma run_prepare n todo : ∀ pre promises cv hi,
  run_steps (length todo) n (pre ++ todo) (Phase1 (length pre) promises cv hi) =
    let '(d, (promises', cv', hi')) := prepare_loop (V := V) n todo (promises, cv, hi) in
    (pre ++ d, Phase1 (length pre + length todo) promises' cv' hi').
Proof.
  induction todo as [|a todo IH]; intros pre promises cv hi;
    cbn [length run_steps proposer_step prepare_loop]; [by rewrite Nat.add_0_r|].
  rewrite list_lookup_middle by done. destruct (Prepare a n) as [reply a'].
  destruct (adopt reply (promises, cv, hi)) as [[pr1 cv1] hi1].
  rewrite insert_app_r_alt, Nat.sub_diag by done. simpl.
  specialize (IH (pre ++ [a']) pr1 cv1 hi1). rewrite <-(assoc_L (++)), length_app in IH. simpl in IH.
  rewrite Nat.add_1_r in IH. rewrite IH.
  destruct (prepare_loop n todo (pr1, cv1, hi1)) as [d [[pr2 cv2] hi2]].
  rewrite <-(assoc_L (++)). simpl. by rewrite Nat.add_succ_r.
Qed.

Lemma run_accept n cv todo : ∀ pre accepts,
  run_steps (length todo) n (pre ++ todo) (Phase2 (length pre) accepts cv) =
    let '(d, accepts') := accept_loop (V := V) n cv todo accepts in
    (pre ++ d, Phase2 (length pre + length todo) accepts' cv).
Proof.
  induction todo as [|a todo IH]; intros pre accepts; simpl; [by rewrite Nat.add_0_r|].
  rewrite list_lookup_middle by done. destruct (Accept a n cv) as [ok a'].
  rewrite insert_app_r_alt, Nat.sub_diag by done. simpl.
  specialize (IH (pre ++ [a']) (if ok then S accepts else accepts)).
  rewrite <-(assoc_L (++)), length_app in IH. simpl in IH. rewrite Nat.add_1_r in IH. rewrite IH.
  destruct (accept_loop n cv todo _) as [d ac2].
  rewrite <-(assoc_L (++)). simpl. by rewrite Nat.add_succ_r.
Qed.

Lemma accept_loop_length n cv todo ac : length (accept_loop (V := V) n cv todo ac).1 = length todo.
Proof.
  revert ac. induction todo as [|a todo IH]; intros ac; simpl; [done|].
  destruct (Accept a n cv) as [ok a']. specialize (IH (if ok then S ac else ac)).
  destruct (accept_loop n cv todo _) as [d ac']. simpl in *. by rewrite IH.
Qed.

Lemma Propose_run p acs v :
  acs ≠ [] →
  let n := (nextProposalNumber p).1 in
  let '(result, acs', _) := Propose (V := V) p acs v in
  ∃ fuel, run_steps fuel n acs (Phase1 0 0 v 0) = (acs', Returned result).
Proof.
  intros Hne n. unfold Propose.
  destruct (Nat.eqb_spec (length acs) 0) as [Hz%nil_length_inv|_]; [done|].
  subst n. destruct (nextProposalNumber p) as [n p']. simpl.
  pose proof (run_prepare n acs [] 0 v 0) as H1. pose proof (prepare_loop_length n acs (0, v, 0%N)) as Hl1.
  destruct (prepare_loop n acs (0, v, 0%N)) as [acs1 [[promises cv] hi]]. simpl in H1, Hl1.
  assert (H2 : run_steps (length acs + 1) n acs (Phase1 0 0 v 0) =
    (acs1, if promises <? majority (length acs) then Returned None else Phase2 0 0 cv)).
  { rewrite run_steps_add, H1. simpl. by rewrite lookup_ge_None_2, Hl1 by lia. }
  destruct (promises <? majority (length acs)); [by eexists|].
  pose proof (run_accept n cv acs1 [] 0) as H3. pose proof (accept_loop_length n cv acs1 0) as Hl2.
  destruct (accept_loop n cv acs1 0) as [acs2 accepts]. simpl in H3, Hl2.
  assert (H4 : run_steps (length acs + 1 + (length acs1 + 1)) n acs (Phase1 0 0 v 0) =
    (acs2, if accepts <? majority (length acs) then Returned None else Returned (Some cv))).
  { rewrite run_steps_add, H2, run_steps_add, H3. simpl. by rewrite lookup_ge_None_2, Hl2, Hl1 by lia. }
  destruct (accepts <? majority (length acs)); eauto.
Qed.

(** ** Slots of the Multi-Paxos log *)

(** Proposals that run one after the other leave all acceptors of a slot in the same state. *)
Lemma prepare_loop_uniform n k a : ∀ st,
  (promisedN a < n)%N →
  ∃ m, prepare_loop (V := V) n (replicate k a) st =
    (replicate k (MkAcceptor n (acceptedN a) (acceptedV a)), m) ∧
    m = Nat.iter k (adopt (true, acceptedN a, acceptedV a)) st.
Proof.
  induction k as [|k IH]; intros st Hlt; [by eexists|]. simpl. unfold Prepare.
  destruct (N.ltb_spec (promisedN a) n); [|lia].
  destruct (IH (adopt (true, acceptedN a, acceptedV a) st) Hlt) as (m & -> & ->).
  eexists. split; [done|]. by rewrite Nat.iter_swap.
Qed.

Lemma prepare_loop_refused n k a : ∀ st,
  (n ≤ promisedN a)%N → prepare_loop (V := V) n (replicate k a) st = (replicate k a, st).
Proof.
  induction k as [|k IH]; intros [[pr cv] hi] Hle; [done|]. simpl. unfold Prepare.
  destruct (N.ltb_spec (promisedN a) n); [lia|]. simpl. by rewrite IH.
Qed.

Lemma accept_loop_uniform n cv k a : ∀ ac,
  (promisedN a ≤ n)%N →
  accept_loop (V := V) n cv (replicate k a) ac = (replicate k (MkAcceptor n n cv), k + ac).
Proof.
  induction k as [|k IH]; intros ac Hle; [done|]. simpl. unfold Accept.
  destruct (N.leb_spec (promisedN a) n); [|lia]. rewrite IH by done. simpl. do 2 f_equal. lia.
Qed.

(** The state of a slot decided at number [n], or untouched. *)
Definition slot_state (n : N) (cv : option V) : Acceptor V := MkAcceptor n n cv.

Lemma adopt_uniform n cv v k :
  (match cv with Some _ => (0 < n)%N | None => n = 0%N end) →
  (Nat.iter (S k) (adopt (V := V) (true, n, cv)) (0, Some v, 0%N)).1 =
    (S k, Some (default v cv)).
Proof.
  intros Hcv.
  enough (Nat.iter (S k) (adopt (V := V) (true, n, cv)) (0, Some v, 0%N) =
    (S k, Some (default v cv), n)) as -> by done.
  induction k as [|k IH]; simpl in *.
  - destruct cv as [w|]; simpl; [|by subst]. by destruct (N.ltb_spec 0 n); [|lia].
  - rewrite IH. destruct cv as [w|]; simpl; [|done]. destruct (N.ltb_spec n n); [lia|done].
Qed.

Lemma first_number id : (nextProposalNumber (NewProposer id)).1 = (65536 + id `mod` 65536)%N.
Proof.
  unfold nextProposalNumber, NewProposer. simpl.
  change 65535%N with (N.ones 16). rewrite N.land_ones.
  change (u64N (N.shiftl (u64N 1) 16)) with (N.shiftl 1 16).
  assert (Hland : N.land (N.shiftl 1 16) (id `mod` 2 ^ 16) = 0%N).
  { apply N.bits_inj_0. intros i. rewrite N.land_spec. destruct (decide (i < 16)%N).
    - by rewrite N.shiftl_spec_low.
    - rewrite N.mod_pow2_bits_high by lia. by rewrite andb_false_r. }
  by rewrite <-N.lxor_lor, <-N.add_nocarry_lxor.
Qed.

Lemma run_steps_reachable fuel n : ∀ (s : System V) p acs' p',
  procs s !! n = Some p → run_steps fuel n (accs s) p = (acs', p') →
  rtc sys_step s (MkSystem acs' (<[n := p']> (procs s))).
Proof.
  induction fuel as [|fuel IH]; intros s p acs' p' Hp; simpl.
  { intros [= <- <-]. rewrite insert_id by done. by destruct s. }
  destruct (proposer_step n (accs s) p) as [acs1 p1] eqn:Hs. intros Hrun.
  eapply rtc_l; [by eapply sys_run|].
  specialize (IH (MkSystem acs1 (<[n := p1]> (procs s))) p1 acs' p').
  simpl in IH. rewrite lookup_insert_eq, insert_insert_eq in IH. auto.
Qed.

(** Starting the proposer [n] and letting it run. *)
Lemma start_run_reachable size (s : System V) n v fuel acs' p' :
  sys_reachable size s → (0 < n)%N → procs s !! n = None →
  run_steps fuel n (accs s) (Phase1 0 0 (Some v) 0) = (acs', p') →
  sys_reachable size (MkSystem acs' (<[n := p']> (procs s))).
Proof.
  intros Hr Hn Hnone Hrun. unfold sys_reachable. etransitivity; [exact Hr|].
  eapply rtc_l; [by apply (sys_start s n v)|].
  pose proof (run_steps_reachable fuel n
    (MkSystem (accs s) (<[n := Phase1 0 0 (Some v) 0]> (procs s))) (Phase1 0 0 (Some v) 0) acs' p') as H.
  simpl in H. rewrite lookup_insert_eq, insert_insert_eq in H. auto.
Qed.

Lemma sys_reachable_size size (s : System V) : sys_reachable size s → length (accs s) = size.
Proof. intros (votes & props & HI)%reachable_Inv. apply HI. Qed.

(** Every slot of a log driven by [Decide] is untouched or decided. *)
Definition multi_wf (m : MultiPaxos V) : Prop :=
  0 < numAcceptors m ∧ length (log m) = length (slots m) ∧
  ∀ k set, slots m !! k = Some set →
    ∃ n cv, set = replicate (numAcceptors m) (slot_state n cv) ∧ log m !! k = Some cv ∧
            match cv with Some _ => (0 < n)%N | None => n = 0%N end.

Lemma NewMultiPaxos_wf n : multi_wf (NewMultiPaxos n).
Proof.
  split_and!; simpl; [|done|].
  - destruct (Z.leb_spec n 0); lia.
  - intros k set Hk. by rewrite lookup_nil in Hk.
Qed.

Lemma grow_spec rounds : ∀ m,
  multi_wf m →
  multi_wf (grow rounds m) ∧ numAcceptors (grow rounds m) = numAcceptors m ∧
  slots (grow rounds m) = slots m ++ replicate rounds (replicate (numAcceptors m) fresh_acceptor) ∧
  log (grow rounds m) = log m ++ replicate rounds None.
Proof.
  induction rounds as [|rounds IH]; intros m Hwf; simpl.
  { by rewrite !app_nil_r. }
  destruct Hwf as (Hn & Hl & Hs).
  destruct (IH (MkMulti (numAcceptors m)
        (slots m ++ [replicate (numAcceptors m) fresh_acceptor]) (log m ++ [None])))
    as (H1 & H2 & H3 & H4).
  - split_and!; simpl; [done|rewrite !length_app; simpl; lia|].
    intros k set [Hk|[Hk1 Hk2]]%lookup_app_Some.
    + destruct (Hs k set Hk) as (n & cv & -> & Hlog & Hcv). exists n, cv. split_and!; try done.
      by apply lookup_app_l_Some.
    + apply list_lookup_singleton_Some in Hk2 as [Hz <-]. exists 0%N, None. split_and!; try done.
      rewrite lookup_app_r by lia. by rewrite Hl, Hz.
  - split_and!; try done.
    + simpl in H3. by rewrite <-(assoc_L (++)) in H3.
    + simpl in H4. by rewrite <-(assoc_L (++)) in H4.
Qed.

(** The slot a call of [Decide] works on, after the log has grown to it. *)
Lemma growTo_slot m slot :
  multi_wf m →
  multi_wf (growTo m slot) ∧ numAcceptors (growTo m slot) = numAcceptors m ∧
  (∀ k w, log m !! k = Some w → log (growTo m slot) !! k = Some w) ∧
  ∃ n cv, slots (growTo m slot) !! slot = Some (replicate (numAcceptors m) (slot_state n cv)) ∧
    log (growTo m slot) !! slot = Some cv ∧ cv = default None (log m !! slot) ∧
    (is_Some cv → slots m !! slot = Some (replicate (numAcceptors m) (slot_state n cv))) ∧
    match cv with Some _ => (0 < n)%N | None => n = 0%N end.
Proof.
  intros Hwf. unfold growTo.
  destruct (grow_spec (S slot - length (slots m)) m Hwf) as (Hwf1 & Hnum & Hslots & Hlog).
  set (m1 := grow _ m) in *. pose proof Hwf as (_ & Hll & _). split_and!; [done|done| |].
  { intros k w Hk. rewrite Hlog. by apply lookup_app_l_Some. }
  assert (Hlen : slot < length (slots m1)) by (rewrite Hslots, length_app, length_replicate; lia).
  destruct (lookup_lt_is_Some_2 _ _ Hlen) as [set Hset]. destruct Hwf1 as (_ & _ & Hs1).
  destruct (Hs1 slot set Hset) as (n & cv & -> & Hcv & Hn). rewrite Hnum in Hset.
  assert (Hdef : cv = default None (log m !! slot)).
  { rewrite Hlog in Hcv. apply lookup_app_Some in Hcv as [Hl|[Hl Hr]]; [by rewrite Hl|].
    rewrite (lookup_ge_None_2 (log m)) by done. by apply lookup_replicate in Hr as [-> _]. }
  exists n, cv. split_and!; try done. intros [w ->].
  rewrite Hslots in Hset. apply lookup_app_Some in Hset as [?|[Hge _]]; [done|].
  by rewrite (lookup_ge_None_2 (log m)) in Hdef by lia.
Qed.

Lemma Propose_uniform id k n cv v :
  0 < k → (match cv with Some _ => (0 < n)%N | None => n = 0%N end) →
  (Propose (V := V) (NewProposer id) (replicate k (slot_state n cv)) (Some v)).1 =
    if (n <? 65536 + id `mod` 65536)%N
    then (Some (Some (default v cv)),
          replicate k (slot_state (65536 + id `mod` 65536) (Some (default v cv))))
    else (None, replicate k (slot_state n cv)).
Proof.
  intros Hk Hcv. unfold Propose. rewrite length_replicate.
  destruct (Nat.eqb_spec k 0); [lia|].
  pose proof (first_number id) as Hnum. destruct (nextProposalNumber (NewProposer id)) as [num p].
  simpl in Hnum. subst num. set (num := (65536 + id `mod` 65536)%N).
  assert (Hmaj : majority k ≤ k).
  { unfold majority. pose proof (Nat.div_lt k 2 ltac:(lia) ltac:(lia)). lia. }
  destruct (N.ltb_spec n num) as [Hlt|Hge].
  - destruct (prepare_loop_uniform num k (slot_state n cv) (0, Some v, 0%N) Hlt) as (m & -> & ->).
    destruct k as [|k]; [lia|]. pose proof (adopt_uniform n cv v k Hcv) as Had.
    cbn [slot_state acceptedN acceptedV] in *.
    destruct (Nat.iter (S k) _ _) as [[pr cv'] hi]. simpl in Had. injection Had as -> ->.
    destruct (Nat.ltb_spec (S k) (majority (S k))); [lia|].
    rewrite accept_loop_uniform by (simpl; lia). rewrite Nat.add_0_r.
    destruct (Nat.ltb_spec (S k) (majority (S k))); [lia|done].
  - rewrite prepare_loop_refused by done.
    destruct (Nat.ltb_spec 0 (majority k)) as [_|H]; [done|]. unfold majority in H. lia.
Qed.
End sequential.
End Paxos.

Import Paxos.


Definition demo_sys : System string :=
  MkSystem [MkAcceptor 65538 65538 (Some "a"); MkAcceptor 65538 65538 (Some "a");
            MkAcceptor 65538 65538 (Some "a")]
    (<[65538%N := Returned (Some (Some "a"))]>
       (<[65537%N := Returned (Some (Some "a"))]> ∅)).

Definition demo_sys1 : System string :=
  MkSystem (replicate 3 (MkAcceptor 65537 65537 (Some "a")))
    (<[65537%N := Returned (Some (Some "a"))]> ∅).

Lemma demo_sys_reachable : sys_reachable 3 demo_sys.
Proof.
  assert (H1 : sys_reachable 3 demo_sys1).
  { exact (start_run_reachable 3 (sys_init 3) 65537 "a" 8 _ _ (rtc_refl _ _) eq_refl eq_refl eq_refl). }
  exact (start_run_reachable 3 demo_sys1 65538 "b" 8 _ _ H1 eq_refl eq_refl eq_refl).
Qed.




(** The Multi-Paxos log: [Decide] with a non-nil value never panics and keeps the log well formed;
    an undecided slot is decided with the proposed value; a decided slot keeps its value and the
    call returns that value when the proposer's identifier (modulo 2^16) is above that of the
    deciding proposer, and reports failure otherwise; no other slot changes. *)
Theorem multi_paxos_decide {V} (m : MultiPaxos V) slot id v :
  multi_wf m →
  ∃ result m', Decide m slot id (Some v) = Ok (result, m') ∧ multi_wf m' ∧
    (∀ k w, k ≠ slot → log m !! k = Some w → Log m' !! k = Some w) ∧
    match log m !! slot with
    | Some (Some w) =>
        Log m' !! slot = Some (Some w) ∧
        ∃ n, slots m !! slot = Some (replicate (numAcceptors m) (slot_state n (Some w))) ∧
          result = if (n <? 65536 + id `mod` 65536)%N then Some (Some w) else None
    | _ => Log m' !! slot = Some (Some v) ∧ result = Some (Some v)
    end.
Proof.
  intros Hwf. unfold Decide.
  destruct (growTo_slot m slot Hwf) as (Hwf1 & Hnum & Hold & n & cv & Hset & Hcv & Hdef & Hslot & Hn).
  set (m1 := growTo m slot) in *. destruct Hwf1 as (Hpos & Hl1 & Hs1).
  pose proof (lookup_lt_Some _ _ _ Hset) as Hlen. rewrite Hset. simpl.
  pose proof (Propose_uniform id (numAcceptors m) n cv v ltac:(lia) Hn) as HP.
  destruct (Propose _ _ _) as [[result set'] p']. simpl in HP.
  assert (Hshape : set' = replicate (numAcceptors m) (slot_state
      (if (n <? 65536 + id `mod` 65536)%N then 65536 + id `mod` 65536 else n)
      (if (n <? 65536 + id `mod` 65536)%N then Some (default v cv) else cv)) ∧
    result = if (n <? 65536 + id `mod` 65536)%N then Some (Some (default v cv)) else None).
  { by destruct (n <? _)%N; injection HP as -> ->. }
  destruct Hshape as [-> ->]. clear HP. eexists _, _. split; [done|].
  set (granted := (n <? 65536 + id `mod` 65536)%N).
  assert (Hgr : cv = None → granted = true) by (intros Hnone; rewrite Hnone in Hn; apply N.ltb_lt; rewrite Hn; by apply N.lt_lt_add_r).
  set (log' := match _ with Some chosen => _ | None => _ end).
  assert (Hlog' : log' = <[slot := if granted then Some (default v cv) else cv]> (log m1)).
  { subst log'. destruct granted; [done|]. by rewrite list_insert_id. }
  rewrite Hlog'. split_and!.
  - split_and!; simpl; [done|by rewrite !length_insert|].
    intros k set. rewrite list_lookup_insert_Some. intros [(<- & <- & _)|[Hne Hk]].
    + eexists _, _. rewrite Hnum. split_and!; [done|apply list_lookup_insert_eq; lia|].
      destruct granted; [by apply N.lt_lt_add_r|done].
    + rewrite list_lookup_insert_ne by done. by apply Hs1.
  - intros k w Hne Hk. simpl. rewrite list_lookup_insert_ne by done. auto.
  - simpl. rewrite list_lookup_insert_eq by lia.
    destruct (log m !! slot) as [[w|]|]; simpl in Hdef; subst cv.
    + split; [by destruct granted|]. exists n. split; [by apply Hslot|done].
    + by rewrite Hgr.
    + by rewrite Hgr.
Qed.

Lemma multi_paxos_decide_witness :
  ∃ result m', Decide (NewMultiPaxos 3) 1 5 (Some "x") = Ok (result, m') ∧ multi_wf m' ∧
    (∀ k w, k ≠ 1 → log (NewMultiPaxos 3) !! k = Some w → Log m' !! k = Some w) ∧
    Log m' !! 1 = Some (Some "x") ∧ result = Some (Some "x").
Proof.
  apply (multi_paxos_decide (NewMultiPaxos 3) 1 5 "x"). apply NewMultiPaxos_wf.
Defined.
