(* ===== verification/TwoPC.v ===== *)
(** * Two-phase commit

    Models [src/internal/twopc/twopc.go].  [Participant] is the Go interface as a type class and
    the coordinator is written against it; [MemParticipant] is the implementation.  Participants are
    pointers: the coordinator works on a heap from addresses to participants.  The order in which Go
    ranges over the map of participants is an argument, so the theorems hold for every order. *)

From S2P Require Import Prelude.

Module TwoPC.

Abbreviation writes := (gmap string (option string)).

Inductive error := ErrDown (txID : string) | ErrCoordinatorCrashed.

Class Participant (P : Type) := {
  Prepare : P → string → writes → (bool * option error) * P;
  Commit : P → string → option error * P;
  Abort : P → string → option error * P;
}.

(** ** The in-memory participant *)

Record MemParticipant := MkMem {
  VoteNo : bool;
  Down : bool;
  committed : gmap string string;
  staged : gmap string (gmap string string);
  locked : gmap string string;
}.

Definition NewMemParticipant : MemParticipant := MkMem false false ∅ ∅ ∅.

(** A copy of a byte slice: a nil slice is copied to an empty one. *)
Definition copy_bytes (v : option string) : string := default "" v.

Definition blocked (p : MemParticipant) (txID : string) (ws : writes) : bool :=
  existsb (λ '(k, _), match locked p !! k with
                      | Some owner => negb (String.eqb owner txID)
                      | None => false
                      end) (map_to_list ws).

(** The body of the staging loop: the staged writes and the locks. *)
Definition stage_key (txID k : string) (v : option string)
    (acc : gmap string string * gmap string string) : gmap string string * gmap string string :=
  (<[k := copy_bytes v]> acc.1, <[k := txID]> acc.2).

Definition mem_Prepare (p : MemParticipant) (txID : string) (ws : writes)
  : (bool * option error) * MemParticipant :=
  if Down p then ((false, Some (ErrDown txID)), p)
  else if VoteNo p then ((false, None), p)
  else if blocked p txID ws then ((false, None), p)
  else
    let '(st, lk) := map_fold (stage_key txID) (∅, locked p) ws in
    ((true, None), MkMem (VoteNo p) (Down p) (committed p) (<[txID := st]> (staged p)) lk).

Definition releaseLocked (lk : gmap string string) (k txID : string) : gmap string string :=
  if String.eqb (default "" (lk !! k)) txID then delete k lk else lk.

(** The body of the commit loop: the committed state and the locks. *)
Definition commit_key (txID k v : string) (acc : gmap string string * gmap string string)
  : gmap string string * gmap string string :=
  (<[k := v]> acc.1, releaseLocked acc.2 k txID).

Definition mem_Commit (p : MemParticipant) (txID : string) : option error * MemParticipant :=
  match staged p !! txID with
  | None => (None, p)
  | Some st =>
      let '(cm, lk) := map_fold (commit_key txID) (committed p, locked p) st in
      (None, MkMem (VoteNo p) (Down p) cm (delete txID (staged p)) lk)
  end.

Definition mem_Abort (p : MemParticipant) (txID : string) : option error * MemParticipant :=
  match staged p !! txID with
  | None => (None, p)
  | Some st =>
      let lk := map_fold (λ k _ lk, releaseLocked lk k txID) (locked p) st in
      (None, MkMem (VoteNo p) (Down p) (committed p) (delete txID (staged p)) lk)
  end.

Definition Get (p : MemParticipant) (key : string) : option string := committed p !! key.

Definition IsLocked (p : MemParticipant) (key : string) : bool :=
  bool_decide (is_Some (locked p !! key)).

#[export] Instance MemParticipant_Participant : Participant MemParticipant := {
  Prepare := mem_Prepare;
  Commit := mem_Commit;
  Abort := mem_Abort;
}.

(** ** The coordinator *)

Section coordinator.
Context {P : Type} `{!Participant P}.

(** The voting loop: all-yes flag, error of the vote that stopped it, heap. *)
Fixpoint prepare_all (txID : string) (perParticipant : gmap nat writes) (parts : list nat)
    (heap : gmap nat P) : Res (bool * option error * gmap nat P) :=
  match parts with
  | [] => Ok (true, None, heap)
  | i :: parts =>
      p ← res_of (heap !! i);
      let '((ok, perr), p') := Prepare p txID (default ∅ (perParticipant !! i)) in
      let heap := <[i := p']> heap in
      match perr with
      | Some _ => Ok (false, perr, heap)
      | None => if ok then prepare_all txID perParticipant parts heap else Ok (false, None, heap)
      end
  end.

Fixpoint decide_ (txID : string) (commit : bool) (parts : list nat) (heap : gmap nat P)
    (firstErr : option error) : Res (option error * gmap nat P) :=
  match parts with
  | [] => Ok (firstErr, heap)
  | i :: parts =>
      p ← res_of (heap !! i);
      let '(err, p') := if commit then Commit p txID else Abort p txID in
      decide_ txID commit parts (<[i := p']> heap)
        (match err, firstErr with Some _, None => err | _, _ => firstErr end)
  end.

Definition Execute (CrashAfterPrepare : bool) (txID : string) (perParticipant : gmap nat writes)
    (parts : list nat) (heap : gmap nat P) : Res ((bool * option error) * gmap nat P) :=
  '(allYes, voteErr, heap) ← prepare_all txID perParticipant parts heap;
  if negb allYes then
    '(_, heap) ← decide_ txID false parts heap None;
    Ok ((false, voteErr), heap)
  else if CrashAfterPrepare then Ok ((false, Some ErrCoordinatorCrashed), heap)
  else
    '(cerr, heap) ← decide_ txID true parts heap None;
    Ok (match cerr with Some e => (false, Some e) | None => (true, None) end, heap).

Definition Recover (txID : string) (decision : bool) (participants : list nat) (heap : gmap nat P)
  : Res (option error * gmap nat P) := decide_ txID decision participants heap None.
End coordinator.

(** ** The participant's states *)

(** Locks are held exactly on the staged keys of their owner. *)
Definition lock_inv (p : MemParticipant) : Prop :=
  ∀ k tx, locked p !! k = Some tx ↔ ∃ st, staged p !! tx = Some st ∧ is_Some (st !! k).

Definition fresh (p : MemParticipant) (tx : string) : Prop := staged p !! tx = None.

Definition votes_yes (p : MemParticipant) (tx : string) (ws : writes) : bool :=
  negb (Down p) && negb (VoteNo p) && negb (blocked p tx ws).

Definition prepared (p : MemParticipant) (tx : string) (ws : writes) : MemParticipant :=
  MkMem (VoteNo p) (Down p) (committed p) (<[tx := copy_bytes <$> ws]> (staged p))
    (((λ _, tx) <$> ws) ∪ locked p).

Definition applied (p : MemParticipant) (ws : writes) : MemParticipant :=
  MkMem (VoteNo p) (Down p) ((copy_bytes <$> ws) ∪ committed p) (staged p) (locked p).

Lemma prepare_fold tx lk (ws : writes) :
  map_fold (stage_key tx) (∅, lk) ws =
    (copy_bytes <$> ws, ((λ _, tx) <$> ws) ∪ lk).
Proof.
  apply (map_fold_weak_ind (λ r (ws : writes), r = (copy_bytes <$> ws, ((λ _, tx) <$> ws) ∪ lk))).
  - by rewrite !fmap_empty, (left_id_L ∅ (∪)).
  - intros k v m r Hk ->. unfold stage_key; simpl. by rewrite !fmap_insert, insert_union_l.
Qed.

Lemma mem_Prepare_spec p tx ws :
  mem_Prepare p tx ws =
    if votes_yes p tx ws then ((true, None), prepared p tx ws)
    else ((false, if Down p then Some (ErrDown tx) else None), p).
Proof.
  unfold mem_Prepare, votes_yes, prepared. destruct (Down p), (VoteNo p); simpl; try done.
  destruct (blocked p tx ws); simpl; [done|]. by rewrite prepare_fold.
Qed.

Lemma blocked_false p tx ws :
  blocked p tx ws = false ↔ ∀ k owner, is_Some (ws !! k) → locked p !! k = Some owner → owner = tx.
Proof.
  unfold blocked. rewrite <-not_true_iff_false, existsb_exists. split.
  - intros H k owner [v Hv] Hl. destruct (decide (owner = tx)) as [|Hne]; [done|]. destruct H.
    exists (k, v). split; [by apply list_elem_of_In, elem_of_map_to_list|]. rewrite Hl.
    by apply negb_true_iff, String.eqb_neq.
  - intros H ([k v] & Hin%list_elem_of_In%elem_of_map_to_list & Hb).
    destruct (locked p !! k) as [owner|] eqn:Hl; [|done].
    rewrite (H k owner) in Hb; [|eauto|done]. by rewrite String.eqb_refl in Hb.
Qed.

(** A key of a fresh transaction that is not blocked is not locked at all. *)
Lemma fresh_unlocked p tx ws k :
  lock_inv p → fresh p tx → blocked p tx ws = false → is_Some (ws !! k) → locked p !! k = None.
Proof.
  intros Hinv Hf Hb Hk. destruct (locked p !! k) as [owner|] eqn:Hl; [|done].
  pose proof (proj1 (blocked_false p tx ws) Hb k owner Hk Hl) as ->.
  apply Hinv in Hl as (st & Hst & _). unfold fresh in Hf. congruence.
Qed.

(** Releasing every key of a transaction's writes removes its locks. *)
Lemma release_all {A} tx (ws : gmap string A) (lk : gmap string string) j :
  (∀ k, is_Some (ws !! k) → lk !! k = Some tx) →
  map_fold (λ k _ lk, releaseLocked lk k tx) lk ws !! j =
    match ws !! j with Some _ => None | None => lk !! j end.
Proof.
  intros Hlk.
  cut (∀ (m : gmap string A), m ⊆ ws → ∀ j, map_fold (λ k _ lk, releaseLocked lk k tx) lk m !! j =
    match m !! j with Some _ => None | None => lk !! j end); [intros H; by apply H|].
  intros m. apply (map_fold_weak_ind (λ r m, m ⊆ ws → ∀ j, r !! j =
    match m !! j with Some _ => None | None => lk !! j end)).
  - intros _ j'. by rewrite lookup_empty.
  - intros k v m' r Hk IH Hsub j'.
    assert (Hsub' : m' ⊆ ws) by (etransitivity; [by apply insert_subseteq|done]).
    assert (Hl : lk !! k = Some tx).
    { apply Hlk. exists v. eapply lookup_weaken; [|exact Hsub]. apply lookup_insert_eq. }
    unfold releaseLocked. rewrite (IH Hsub' k), Hk, Hl. simpl. rewrite String.eqb_refl.
    destruct (decide (k = j')) as [->|].
    + by rewrite lookup_delete_eq, lookup_insert_eq.
    + rewrite lookup_delete_ne, lookup_insert_ne by done. by apply IH.
Qed.

Lemma commit_fold tx (ws : gmap string string) cm lk :
  map_fold (commit_key tx) (cm, lk) ws =
    (ws ∪ cm, map_fold (λ k _ lk, releaseLocked lk k tx) lk ws).
Proof.
  induction ws as [|k v ws Hk Hfst IH] using map_first_key_ind.
  { by rewrite !map_fold_empty, (left_id_L ∅ (∪)). }
  rewrite !map_fold_insert_first_key by done. rewrite IH. unfold commit_key; simpl.
  by rewrite insert_union_l.
Qed.

(** The locks of a prepared transaction, once its staged keys are released, are those before it. *)
Lemma prepared_release p tx ws :
  lock_inv p → fresh p tx → blocked p tx ws = false →
  map_fold (λ k _ lk, releaseLocked lk k tx) (locked (prepared p tx ws)) (copy_bytes <$> ws) =
    locked p.
Proof.
  intros Hinv Hf Hb. apply map_eq. intros j. rewrite release_all.
  - simpl. rewrite lookup_fmap, lookup_union, lookup_fmap.
    destruct (ws !! j) eqn:E; simpl; [|by destruct (locked p !! j)].
    symmetry. by eapply fresh_unlocked.
  - intros k. simpl. rewrite lookup_fmap, lookup_union, lookup_fmap.
    destruct (ws !! k); simpl; [|by intros []]. intros _. by destruct (locked p !! k).
Qed.

Lemma Commit_prepared p tx ws :
  lock_inv p → fresh p tx → blocked p tx ws = false →
  mem_Commit (prepared p tx ws) tx = (None, applied p ws).
Proof.
  intros Hinv Hf Hb. unfold mem_Commit. cbn [prepared staged].
  rewrite lookup_insert_eq, commit_fold, prepared_release by done.
  unfold applied, prepared; cbn [VoteNo Down committed]. by rewrite delete_insert_id.
Qed.

Lemma Abort_prepared p tx ws :
  lock_inv p → fresh p tx → blocked p tx ws = false → mem_Abort (prepared p tx ws) tx = (None, p).
Proof.
  intros Hinv Hf Hb. unfold mem_Abort. cbn [prepared staged].
  rewrite lookup_insert_eq, prepared_release by done.
  unfold prepared; cbn [VoteNo Down committed]. rewrite delete_insert_id by done. by destruct p.
Qed.

Lemma Abort_fresh p tx : fresh p tx → mem_Abort p tx = (None, p).
Proof. unfold fresh, mem_Abort. by intros ->. Qed.

(** *** The lock invariant is kept *)

Lemma prepared_inv p tx ws :
  lock_inv p → fresh p tx → blocked p tx ws = false → lock_inv (prepared p tx ws).
Proof.
  intros Hinv Hf Hb k t. cbn [prepared locked staged]. rewrite lookup_union, lookup_fmap.
  destruct (ws !! k) as [v|] eqn:E; simpl.
  - pose proof (fresh_unlocked p tx ws k Hinv Hf Hb ltac:(eauto)) as Hl. rewrite Hl. simpl. split.
    + intros [= <-]. exists (copy_bytes <$> ws). rewrite lookup_insert_eq, lookup_fmap, E. eauto.
    + intros (st & Hst & Hk). destruct (decide (tx = t)) as [->|Hne]; [done|].
      rewrite lookup_insert_ne in Hst by done.
      assert (locked p !! k = Some t) by (apply Hinv; eauto). congruence.
  - rewrite (left_id_L None (∪)), (Hinv k t). destruct (decide (tx = t)) as [->|Hne].
    + rewrite lookup_insert_eq. unfold fresh in Hf. rewrite Hf.
      split; [by intros (? & ? & _)|]. intros (st & [= <-] & Hk).
      rewrite lookup_fmap, E in Hk. by destruct Hk.
    + by rewrite lookup_insert_ne.
Qed.

Lemma applied_inv p ws : lock_inv p → lock_inv (applied p ws).
Proof. done. Qed.

(** ** Heaps of participants *)

Definition on_parts (f : nat → MemParticipant → MemParticipant) (parts : list nat)
    (heap : gmap nat MemParticipant) : gmap nat MemParticipant :=
  map_imap (λ i p, Some (if bool_decide (i ∈ parts) then f i p else p)) heap.

Lemma on_parts_lookup f parts heap i :
  on_parts f parts heap !! i =
    (λ p, if bool_decide (i ∈ parts) then f i p else p) <$> heap !! i.
Proof. unfold on_parts. rewrite map_lookup_imap. by destruct (heap !! i). Qed.

Lemma on_parts_nil f heap : on_parts f [] heap = heap.
Proof. apply map_eq. intros i. rewrite on_parts_lookup. by destruct (heap !! i). Qed.

Lemma on_parts_cons f i parts heap p :
  i ∉ parts → heap !! i = Some p →
  on_parts f parts (<[i := f i p]> heap) = on_parts f (i :: parts) heap.
Proof.
  intros Hni Hp. apply map_eq. intros j. rewrite !on_parts_lookup.
  destruct (decide (i = j)) as [<-|Hne].
  - rewrite lookup_insert_eq, Hp. simpl.
    rewrite bool_decide_false, bool_decide_true by set_solver. done.
  - rewrite lookup_insert_ne by done. destruct (heap !! j); simpl; [|done]. f_equal.
    repeat case_bool_decide; set_solver.
Qed.

Lemma elem_of_dom_insert_parts (heap : gmap nat MemParticipant) i p parts :
  (∀ j, j ∈ i :: parts → is_Some (heap !! j)) → ∀ j, j ∈ parts → is_Some (<[i := p]> heap !! j).
Proof.
  intros H j Hj. destruct (decide (i = j)) as [<-|]; [rewrite lookup_insert_eq; eauto|].
  rewrite lookup_insert_ne by done. apply H. by right.
Qed.

Definition resolve (tx : string) (commit : bool) (p : MemParticipant) : MemParticipant :=
  (if commit then mem_Commit p tx else mem_Abort p tx).2.

Lemma decide_spec tx commit parts : ∀ heap,
  NoDup parts → (∀ i, i ∈ parts → is_Some (heap !! i)) →
  decide_ tx commit parts heap None = Ok (None, on_parts (λ _, resolve tx commit) parts heap).
Proof.
  induction parts as [|i parts IH]; intros heap Hnd Hin; simpl; [by rewrite on_parts_nil|].
  apply NoDup_cons in Hnd as [Hni Hnd]. destruct (Hin i ltac:(by left)) as [p Hp]. rewrite Hp. simpl.
  assert (He : ∃ p', (if commit then mem_Commit p tx else mem_Abort p tx) = (None, p')).
  { unfold mem_Commit, mem_Abort.
    destruct commit, (staged p !! tx); try by eexists. destruct (map_fold _ _ _). by eexists. }
  assert (Hr : (if commit then mem_Commit p tx else mem_Abort p tx) = (None, resolve tx commit p)).
  { unfold resolve. destruct He as [p' ->]. done. }
  rewrite Hr, IH; [|done|by apply elem_of_dom_insert_parts].
  by rewrite (on_parts_cons (λ _, resolve tx commit)).
Qed.

Section vote.
Context (tx : string) (per : gmap nat writes).

Definition writes_of (i : nat) : writes := default ∅ (per !! i).
Definition prep (i : nat) (p : MemParticipant) : MemParticipant := prepared p tx (writes_of i).
Definition yes (heap : gmap nat MemParticipant) (i : nat) : bool :=
  match heap !! i with Some p => votes_yes p tx (writes_of i) | None => false end.

(** The loop prepares up to the first participant that does not vote yes. *)
Lemma prepare_all_spec parts : ∀ heap,
  NoDup parts → (∀ i, i ∈ parts → is_Some (heap !! i)) →
  if forallb (yes heap) parts
  then prepare_all tx per parts heap = Ok (true, None, on_parts prep parts heap)
  else ∃ pre err, prepare_all tx per parts heap = Ok (false, err, on_parts prep pre heap) ∧
         (∀ i, i ∈ pre → i ∈ parts ∧ yes heap i = true).
Proof.
  induction parts as [|i parts IH]; intros heap Hnd Hin; simpl; [by rewrite on_parts_nil|].
  apply NoDup_cons in Hnd as [Hni Hnd]. destruct (Hin i ltac:(by left)) as [p Hp].
  unfold yes at 1. rewrite Hp. simpl. rewrite mem_Prepare_spec. fold (writes_of i).
  destruct (votes_yes p tx (writes_of i)) eqn:Hv; simpl; last first.
  { exists [], (if Down p then Some (ErrDown tx) else None). rewrite insert_id, on_parts_nil by done.
    split; [by destruct (Down p)|set_solver]. }
  specialize (IH (<[i := prep i p]> heap) Hnd ltac:(by apply elem_of_dom_insert_parts)).
  assert (Hyes : ∀ j, j ∈ parts → yes (<[i := prep i p]> heap) j = yes heap j).
  { intros j Hj. unfold yes. rewrite lookup_insert_ne; [done|]. by intros ->. }
  assert (Hall : forallb (yes (<[i := prep i p]> heap)) parts = forallb (yes heap) parts).
  { clear -Hyes. induction parts as [|j parts IHp]; simpl; [done|].
    rewrite Hyes by (by left). f_equal. apply IHp. intros. apply Hyes. by right. }
  rewrite Hall in IH. destruct (forallb (yes heap) parts).
  - fold (prep i p). rewrite IH. by rewrite on_parts_cons.
  - destruct IH as (pre & err & Hrun & Hpre). exists (i :: pre), err. fold (prep i p). rewrite Hrun.
    split.
    + rewrite on_parts_cons; [done| |done]. by intros [? _]%Hpre.
    + intros j [->|Hj]%elem_of_cons; [split; [by left|by unfold yes; rewrite Hp]|].
      destruct (Hpre j Hj) as [Hj1 Hj2]. split; [by right|]. by rewrite <-Hyes.
Qed.

Lemma on_parts_commute f g parts1 parts2 heap heap' :
  (∀ i p, heap !! i = Some p →
    let p1 := if bool_decide (i ∈ parts1) then f i p else p in
    Some (if bool_decide (i ∈ parts2) then g i p1 else p1) = heap' !! i) →
  dom heap = dom heap' →
  on_parts g parts2 (on_parts f parts1 heap) = heap'.
Proof.
  intros H Hdom. apply map_eq. intros i. rewrite !on_parts_lookup.
  destruct (heap !! i) as [p|] eqn:E; simpl; [by apply H|].
  symmetry. apply not_elem_of_dom. rewrite <-Hdom. by apply not_elem_of_dom.
Qed.

Lemma yes_unblocked heap i p :
  yes heap i = true → heap !! i = Some p → blocked p tx (writes_of i) = false.
Proof.
  unfold yes, votes_yes. intros H Hp. rewrite Hp in H. revert H.
  destruct (blocked p tx (writes_of i)); [|done]. by rewrite andb_false_r.
Qed.

Lemma abort_restores pre parts heap :
  (∀ i p, heap !! i = Some p → lock_inv p ∧ fresh p tx) →
  (∀ i, i ∈ pre → i ∈ parts ∧ yes heap i = true) →
  on_parts (λ _, resolve tx false) parts (on_parts prep pre heap) = heap.
Proof.
  intros Hinv Hpre. apply on_parts_commute; [|done]. intros i p Hp. simpl. rewrite Hp. f_equal.
  destruct (Hinv i p Hp) as [Hi Hf]. unfold resolve.
  destruct (decide (i ∈ pre)) as [H1|H1].
  - destruct (Hpre i H1) as [H2 Hy]. rewrite !bool_decide_true by done.
    unfold prep. by rewrite (Abort_prepared p tx (writes_of i) Hi Hf (yes_unblocked _ _ _ Hy Hp)).
  - rewrite (bool_decide_false (i ∈ pre)) by done. case_bool_decide; [by rewrite Abort_fresh|done].
Qed.

Lemma commit_applies parts heap :
  (∀ i p, heap !! i = Some p → lock_inv p ∧ fresh p tx) →
  forallb (yes heap) parts = true →
  on_parts (λ _, resolve tx true) parts (on_parts prep parts heap) =
  on_parts (λ i p, applied p (writes_of i)) parts heap.
Proof.
  intros Hinv Hall. apply on_parts_commute; [|by unfold on_parts; apply set_eq; intros i; rewrite !elem_of_dom, map_lookup_imap; destruct (heap !! i); naive_solver].
  intros i p Hp. simpl. rewrite on_parts_lookup, Hp. simpl. f_equal.
  destruct (Hinv i p Hp) as [Hi Hf]. unfold resolve. case_bool_decide as H1; [|done].
  assert (Hy : yes heap i = true).
  { rewrite forallb_forall in Hall. by apply Hall, list_elem_of_In. }
  unfold prep. by rewrite (Commit_prepared p tx (writes_of i) Hi Hf (yes_unblocked _ _ _ Hy Hp)).
Qed.
End vote.
End TwoPC.

Import TwoPC.

(** C7. Atomicity: on participants with consistent locks that do not know the transaction yet, and
    for every order of contacting them, [Execute] commits all the writes at every participant when
    all vote yes and reports success, leaves the whole system exactly as it was when one does not,
    and never anything in between; when the coordinator crashes after the vote, every participant
    is left prepared, and [Recover] then completes to one of the two. *)
Theorem two_phase_commit_atomic (crash : bool) tx per parts (heap : gmap nat MemParticipant) :
  NoDup parts → (∀ i, i ∈ parts → is_Some (heap !! i)) →
  (∀ i p, heap !! i = Some p → lock_inv p ∧ fresh p tx) →
  let commits := on_parts (λ i p, applied p (writes_of per i)) parts heap in
  if forallb (yes tx per heap) parts then
    if crash then
      let blocked_heap := on_parts (prep tx per) parts heap in
      Execute true tx per parts heap = Ok ((false, Some ErrCoordinatorCrashed), blocked_heap) ∧
      Recover tx true parts blocked_heap = Ok (None, commits) ∧
      Recover tx false parts blocked_heap = Ok (None, heap)
    else Execute false tx per parts heap = Ok ((true, None), commits)
  else ∃ err, Execute crash tx per parts heap = Ok ((false, err), heap).
Proof.
  intros Hnd Hin Hinv commits. pose proof (prepare_all_spec tx per parts heap Hnd Hin) as Hprep.
  assert (Hin' : ∀ f pre i, i ∈ parts → is_Some (on_parts f pre heap !! i)).
  { intros f pre i Hi. rewrite on_parts_lookup. destruct (Hin i Hi) as [p ->]. by eexists. }
  destruct (forallb (yes tx per heap) parts) eqn:Hall.
  - assert (Hc : decide_ tx true parts (on_parts (prep tx per) parts heap) None = Ok (None, commits)).
    { rewrite decide_spec by auto. by rewrite (commit_applies tx per). }
    destruct crash; unfold Execute; rewrite Hprep; simpl.
    + split_and!; [done|done|]. unfold Recover. rewrite decide_spec by auto.
      rewrite (abort_restores tx per); [done..|].
      intros i Hi. split; [done|]. rewrite forallb_forall in Hall. by apply Hall, list_elem_of_In.
    + by rewrite Hc.
  - destruct Hprep as (pre & err & Hrun & Hpre). exists err. unfold Execute. rewrite Hrun. simpl.
    rewrite decide_spec by auto. simpl. by rewrite (abort_restores tx per).
Qed.

Definition demo_heap : gmap nat MemParticipant := {[0 := NewMemParticipant; 1 := NewMemParticipant]}.
Definition demo_per : gmap nat writes := {[0 := {["a" := Some "1"]}; 1 := {["b" := Some "2"]}]}.

Lemma two_phase_commit_atomic_witness :
  Execute false "t1" demo_per [1; 0] demo_heap =
    Ok ((true, None), on_parts (λ i p, applied p (writes_of demo_per i)) [1; 0] demo_heap).
Proof.
  apply (two_phase_commit_atomic false "t1" demo_per [1; 0] demo_heap).
  - repeat constructor; set_solver.
  - intros i Hi. repeat (apply elem_of_cons in Hi as [->|Hi]; [by eexists|]). by apply elem_of_nil in Hi.
  - unfold demo_heap. intros i p [[<- <-]|[_ [<- <-]%lookup_singleton_Some]]%lookup_insert_Some.
    all: split; [|done]; intros k t; simpl; rewrite lookup_empty; split; [done|];
      intros (st & Hst & _); by rewrite lookup_empty in Hst.
Defined.

(** Blocking: while a transaction is prepared at a participant, every key it wrote is locked, a
    different transaction that touches one of them is refused and changes nothing, and staged
    writes are not visible to reads. *)
Theorem two_phase_commit_blocks p tx ws tx' ws' k :
  lock_inv p → fresh p tx → votes_yes p tx ws = true →
  is_Some (ws !! k) → is_Some (ws' !! k) → tx' ≠ tx →
  let p' := (mem_Prepare p tx ws).2 in
  (mem_Prepare p tx ws).1 = (true, None) ∧ lock_inv p' ∧ IsLocked p' k = true ∧
  (∀ key, Get p' key = Get p key) ∧ mem_Prepare p' tx' ws' = ((false, None), p').
Proof.
  intros Hinv Hf Hv Hk Hk' Hne p'. subst p'. rewrite mem_Prepare_spec, Hv. simpl.
  assert (Hb : blocked p tx ws = false).
  { unfold votes_yes in Hv. destruct (blocked p tx ws); [|done]. by rewrite andb_false_r in Hv. }
  assert (Hup : Down p = false ∧ VoteNo p = false).
  { unfold votes_yes in Hv. by destruct (Down p), (VoteNo p). }
  assert (Hl : locked (prepared p tx ws) !! k = Some tx).
  { simpl. rewrite lookup_union, lookup_fmap. destruct Hk as [v ->]. simpl. by destruct (locked p !! k). }
  split_and!; [done|by apply prepared_inv| |done|].
  - unfold IsLocked. rewrite Hl. by apply bool_decide_eq_true.
  - rewrite mem_Prepare_spec. unfold votes_yes. simpl. destruct Hup as [-> ->]. simpl.
    assert (blocked (prepared p tx ws) tx' ws' = true) as ->; [|done].
    apply not_false_iff_true. rewrite blocked_false. intros H. by specialize (H k tx Hk' Hl).
Qed.

Lemma two_phase_commit_blocks_witness :
  let p' := (mem_Prepare NewMemParticipant "t1" {["a" := Some "1"]}).2 in
  (mem_Prepare NewMemParticipant "t1" {["a" := Some "1"]}).1 = (true, None) ∧ lock_inv p' ∧
  IsLocked p' "a" = true ∧
  (∀ key, Get p' key = Get NewMemParticipant key) ∧
  mem_Prepare p' "t2" {["a" := None]} = ((false, None), p').
Proof.
  apply (two_phase_commit_blocks NewMemParticipant "t1" {["a" := Some "1"]} "t2" {["a" := None]} "a").
  - intros k t; simpl; rewrite lookup_empty; split; [done|].
    intros (st & Hst & _); by rewrite lookup_empty in Hst.
  - done.
  - done.
  - by eexists.
  - by eexists.
  - done.
Defined.
