(* ===== verification/Mvcc.v ===== *)
(** * Multi-version store

    Models [src/internal/mvcc/mvcc.go]: version chains sorted by commit timestamp, snapshot reads by
    binary search, out-of-order commits and compaction. *)

From S2P Require Import Prelude.

Module Mvcc.

Record Version := MkVersion { v_Value : option string; v_Timestamp : Z; v_Tombstone : bool }.

Record Store := MkStore { versions : gmap string (list Version) }.

Definition New : Store := MkStore ∅.

Definition chain_of (s : Store) (key : string) : list Version := default [] (versions s !! key).

(** [chain[i].Timestamp] inside the closures given to [sort.Search], which only pass valid
    indices. *)
Definition ts_at (chain : list Version) (i : nat) : Z :=
  match chain !! i with Some v => v_Timestamp v | None => 0 end.

Definition append_version (s : Store) (key : string) (v : Version) : Store :=
  let chain := chain_of s key in
  if (length chain =? 0) || (ts_at chain (length chain - 1) <=? v_Timestamp v)%Z
  then MkStore (<[key := chain ++ [v]]> (versions s))
  else
    let i := Search (length chain) (λ i, (v_Timestamp v <=? ts_at chain i)%Z) in
    MkStore (<[key := take i chain ++ v :: drop i chain]> (versions s)).

Definition Put (s : Store) (key : string) (value : option string) (ts : Z) : Store :=
  append_version s key (MkVersion value ts false).

Definition Delete (s : Store) (key : string) (ts : Z) : Store :=
  append_version s key (MkVersion None ts true).

(** [append([]byte(nil), b...)]: an empty slice comes back as nil. *)
Definition copy_out (b : option string) : option string :=
  match b with Some "" => None | _ => b end.

(** [None] is [ok = false]. *)
Definition ReadAt (s : Store) (key : string) (ts : Z) : option (option string) :=
  let chain := chain_of s key in
  if length chain =? 0 then None
  else
    let i := Search (length chain) (λ i, (ts <? ts_at chain i)%Z) in
    if i =? 0 then None
    else v ← chain !! (i - 1); if v_Tombstone v then None else Some (copy_out (v_Value v)).

Definition Latest (s : Store) (key : string) : option (option string) :=
  let chain := chain_of s key in
  if length chain =? 0 then None
  else v ← chain !! (length chain - 1); if v_Tombstone v then None else Some (copy_out (v_Value v)).

Definition Compact (s : Store) (key : string) (beforeTs : Z) : Store :=
  let chain := chain_of s key in
  if length chain =? 0 then s
  else
    let i := Search (length chain) (λ i, (beforeTs <=? ts_at chain i)%Z) in
    let keepFrom := if 0 <? i then i - 1 else i in
    if keepFrom =? 0 then s
    else MkStore (<[key := drop keepFrom chain]> (versions s)).

(** ** Chains are sorted *)

Definition ts_le (v w : Version) : Prop := (v_Timestamp v ≤ v_Timestamp w)%Z.

#[export] Instance ts_le_trans : Transitive ts_le.
Proof. intros x y z. unfold ts_le. lia. Qed.

Definition wf (s : Store) : Prop := ∀ key, StronglySorted ts_le (chain_of s key).

(** Binary search by timestamp, with [ts_at] as the closure's access. *)
Lemma Search_ts (P : Z → bool) chain :
  (∀ a b, (a ≤ b)%Z → P a = true → P b = true) → StronglySorted ts_le chain →
  let i := Search (length chain) (λ i, P (ts_at chain i)) in
  i ≤ length chain ∧ take i chain = filter (λ v, P (v_Timestamp v) = false) chain ∧
  drop i chain = filter (λ v, P (v_Timestamp v) = true) chain.
Proof.
  intros Hmono Hs. cbv zeta.
  rewrite (Search_ext _ _ (at_index (λ v, P (v_Timestamp v)) (P 0%Z) chain)); last first.
  { intros i. unfold at_index, ts_at. by destruct (chain !! i). }
  apply (sorted_split ts_le (λ v, P (v_Timestamp v))); [|done]. intros v w. apply Hmono.
Qed.

(** ** What a read sees *)

(** The newest version at or before [ts]. *)
Definition visible (chain : list Version) (ts : Z) : option Version :=
  last (filter (λ v, (v_Timestamp v ≤ ts)%Z) chain).

Definition value_of (v : Version) : option (option string) :=
  if v_Tombstone v then None else Some (copy_out (v_Value v)).

Lemma last_nth {A} (l : list A) : last l = l !! (length l - 1).
Proof. by rewrite last_lookup, Nat.sub_1_r. Qed.

Lemma ReadAt_spec s key ts : wf s → ReadAt s key ts = visible (chain_of s key) ts ≫= value_of.
Proof.
  intros Hwf. unfold ReadAt, visible. specialize (Hwf key). revert Hwf.
  generalize (chain_of s key) as chain. intros chain Hs.
  destruct (Search_ts (λ t, ts <? t)%Z chain) as (Hle & Ht & Hd); [|done|].
  { intros a b ? ?%Z.ltb_lt. apply Z.ltb_lt. lia. }
  set (i := Search (length chain) _) in *.
  rewrite (list_filter_iff' (λ v, (v_Timestamp v ≤ ts)%Z) (λ v, (ts <? v_Timestamp v)%Z = false))
    by (intros; rewrite Z.ltb_ge; done).
  rewrite <-Ht. destruct (Nat.eqb_spec (length chain) 0) as [Hz%nil_length_inv|Hnz].
  { by rewrite Hz, take_nil. }
  destruct (Nat.eqb_spec i 0) as [->|Hi]; [by rewrite take_0|].
  rewrite last_nth, length_take_le, lookup_take_lt by lia. done.
Qed.
(** ** Writes *)

Lemma sorted_snoc chain v :
  StronglySorted ts_le chain → (∀ w, w ∈ chain → ts_le w v) → StronglySorted ts_le (chain ++ [v]).
Proof.
  intros Hs Hall. apply StronglySorted_app_2; [|done|by repeat constructor].
  intros x y Hx ->%list_elem_of_singleton. auto.
Qed.

(** The chain of an out-of-order commit, split at its timestamp. *)
Lemma sorted_insert chain v :
  StronglySorted ts_le chain →
  StronglySorted ts_le (filter (λ w, (v_Timestamp v <=? v_Timestamp w)%Z = false) chain ++
    v :: filter (λ w, (v_Timestamp v <=? v_Timestamp w)%Z = true) chain).
Proof.
  intros Hs. apply StronglySorted_app_2.
  - intros x y [Hx%Z.leb_gt _]%list_elem_of_filter [->|[Hy%Z.leb_le _]%list_elem_of_filter]%elem_of_cons;
      unfold ts_le; lia.
  - by apply StronglySorted_filter.
  - constructor; [by apply StronglySorted_filter|]. apply Forall_forall.
    intros y [Hy%Z.leb_le _]%list_elem_of_filter. done.
Qed.

Definition insert_version (chain : list Version) (v : Version) : list Version :=
  if forallb (λ w, (v_Timestamp w <=? v_Timestamp v)%Z) chain then chain ++ [v]
  else filter (λ w, (v_Timestamp v <=? v_Timestamp w)%Z = false) chain ++
    v :: filter (λ w, (v_Timestamp v <=? v_Timestamp w)%Z = true) chain.

Lemma sorted_last chain t :
  StronglySorted ts_le chain → chain ≠ [] →
  (ts_at chain (length chain - 1) <=? t)%Z = forallb (λ w, (v_Timestamp w <=? t)%Z) chain.
Proof.
  intros Hs Hne. unfold ts_at. rewrite <-last_nth.
  destruct (last chain) as [l|] eqn:El; [|by apply last_None in El].
  apply last_Some in El as [chain' ->]. rewrite forallb_app. simpl. rewrite andb_true_r.
  destruct (Z.leb_spec (v_Timestamp l) t); simpl; [|by rewrite andb_false_r].
  rewrite andb_true_r. symmetry. apply forallb_forall. intros w Hw%list_elem_of_In. apply Z.leb_le.
  assert (ts_le w l) as Hle by (apply (StronglySorted_app_1_elem_of ts_le chain' [l]); set_solver).
  unfold ts_le in Hle. lia.
Qed.

Lemma append_version_chain s key v :
  wf s → append_version s key v = MkStore (<[key := insert_version (chain_of s key) v]> (versions s)).
Proof.
  intros Hwf. specialize (Hwf key). unfold append_version, insert_version. revert Hwf.
  generalize (chain_of s key) as chain. intros chain Hs.
  destruct (decide (chain = [])) as [->|Hne]; [done|].
  destruct (Nat.eqb_spec (length chain) 0) as [Hz%nil_length_inv|_]; [done|].
  rewrite sorted_last by done. cbn [orb]. destruct (forallb _ chain); [done|].
  destruct (Search_ts (λ t, v_Timestamp v <=? t)%Z chain) as (_ & -> & ->); [|done|done].
  intros a b ? ?%Z.leb_le. apply Z.leb_le. lia.
Qed.

Lemma insert_version_sorted chain v :
  StronglySorted ts_le chain → StronglySorted ts_le (insert_version chain v).
Proof.
  intros Hs. unfold insert_version. destruct (forallb _ chain) eqn:E; [|by apply sorted_insert].
  apply sorted_snoc; [done|]. intros w Hw%list_elem_of_In.
  rewrite forallb_forall in E. specialize (E w Hw). apply Z.leb_le in E. done.
Qed.

Lemma chain_of_insert s key c key' :
  chain_of (MkStore (<[key := c]> (versions s))) key' = if decide (key = key') then c else chain_of s key'.
Proof.
  unfold chain_of; simpl. case_decide; subst; [by rewrite lookup_insert_eq|by rewrite lookup_insert_ne].
Qed.

Lemma append_version_wf s key v : wf s → wf (append_version s key v).
Proof.
  intros Hwf key'. rewrite append_version_chain, chain_of_insert by done.
  case_decide; [by apply insert_version_sorted|apply Hwf].
Qed.

(** Whether a version committed at [t] is what a read at [ts] sees: not before its time, and not
    when a version at or after it is also visible, except at the end of the chain, where the last
    of equal timestamps wins. *)
Definition takes_effect (chain : list Version) (t ts : Z) : bool :=
  (t <=? ts)%Z &&
  (forallb (λ w, (v_Timestamp w <=? t)%Z) chain ||
   negb (existsb (λ w, (t <=? v_Timestamp w)%Z && (v_Timestamp w <=? ts)%Z) chain)).

Lemma filter_existsb_nil chain t ts :
  existsb (λ w, (t <=? v_Timestamp w)%Z && (v_Timestamp w <=? ts)%Z) chain = false ↔
  filter (λ w, (v_Timestamp w ≤ ts)%Z) (filter (λ w, (t <=? v_Timestamp w)%Z = true) chain) = [].
Proof.
  induction chain as [|w chain IH]; [done|]. simpl. rewrite orb_false_iff, IH, (filter_cons _ w).
  destruct (Z.leb_spec t (v_Timestamp w)); simpl; [|naive_solver].
  rewrite filter_cons.
  destruct (Z.leb_spec (v_Timestamp w) ts).
  - rewrite decide_True by done. naive_solver.
  - rewrite decide_False by lia. naive_solver.
Qed.

Lemma filter_split chain t :
  StronglySorted ts_le chain →
  filter (λ w, (t <=? v_Timestamp w)%Z = false) chain ++
    filter (λ w, (t <=? v_Timestamp w)%Z = true) chain = chain.
Proof.
  intros Hs. destruct (Search_ts (λ x, t <=? x)%Z chain) as (_ & <- & <-); [|done|apply take_drop].
  intros a b ? ?%Z.leb_le. apply Z.leb_le. lia.
Qed.

Lemma visible_insert chain v ts :
  StronglySorted ts_le chain →
  visible (insert_version chain v) ts =
    if takes_effect chain (v_Timestamp v) ts then Some v else visible chain ts.
Proof.
  intros Hs. unfold visible, takes_effect, insert_version.
  destruct (Z.leb_spec (v_Timestamp v) ts) as [Hle|Hgt]; cbn [andb].
  - destruct (forallb _ chain) eqn:E; cbn [orb].
    + rewrite filter_app, filter_cons_True, filter_nil by done. by rewrite last_snoc.
    + rewrite filter_app, filter_cons_True by done.
      destruct (existsb _ chain) eqn:Ex; simpl.
      * rewrite <-(filter_split chain (v_Timestamp v) Hs) at 3. rewrite filter_app.
        set (r := filter _ (filter (λ w, (v_Timestamp v <=? v_Timestamp w)%Z = true) chain)).
        destruct (decide (r = [])) as [Hr|Hr].
        { apply filter_existsb_nil in Hr. congruence. }
        rewrite app_cons_last by done. by rewrite last_app_ne.
      * apply filter_existsb_nil in Ex. rewrite Ex. by rewrite last_snoc.
  - assert (Hdrop : ∀ l1 l2, filter (λ w, (v_Timestamp w ≤ ts)%Z) (l1 ++ v :: l2) =
      filter (λ w, (v_Timestamp w ≤ ts)%Z) (l1 ++ l2)).
    { intros. by rewrite !filter_app, filter_cons_False by lia. }
    destruct (forallb _ chain); rewrite Hdrop; [by rewrite app_nil_r|].
    by rewrite (filter_split chain).
Qed.
(** ** Compaction *)

Definition older (beforeTs : Z) (chain : list Version) : list Version :=
  filter (λ v, (beforeTs <=? v_Timestamp v)%Z = false) chain.

Lemma Compact_chain s key beforeTs :
  wf s →
  ∀ key', chain_of (Compact s key beforeTs) key' =
    if decide (key = key') then drop (length (older beforeTs (chain_of s key)) - 1) (chain_of s key)
    else chain_of s key'.
Proof.
  intros Hwf key'. unfold Compact, older. specialize (Hwf key). revert Hwf.
  destruct (Nat.eqb_spec (length (chain_of s key)) 0) as [Hz%nil_length_inv|Hnz].
  { intros _. case_decide; subst; [|done]. by rewrite Hz, drop_nil. }
  intros Hs. destruct (Search_ts (λ t, beforeTs <=? t)%Z (chain_of s key)) as (Hle & Ht & _); [|done|].
  { intros a b ? ?%Z.leb_le. apply Z.leb_le. lia. }
  set (i := Search _ _) in *. rewrite <-Ht, length_take_le by done.
  set (keep := if 0 <? i then i - 1 else i).
  assert (keep = i - 1) as -> by (subst keep; destruct (Nat.ltb_spec 0 i); lia).
  destruct (Nat.eqb_spec (i - 1) 0) as [->|]; [|by rewrite chain_of_insert].
  rewrite drop_0. case_decide; by subst.
Qed.

Lemma StronglySorted_drop n chain : StronglySorted ts_le chain → StronglySorted ts_le (drop n chain).
Proof. rewrite <-(take_drop n chain) at 1. apply StronglySorted_app_1_r. Qed.

Lemma Compact_wf s key beforeTs : wf s → wf (Compact s key beforeTs).
Proof.
  intros Hwf key'. rewrite Compact_chain by done. case_decide; [by apply StronglySorted_drop|apply Hwf].
Qed.

(** Everything dropped is older than a version that is kept and already visible. *)
Lemma visible_compact chain beforeTs ts :
  StronglySorted ts_le chain → (beforeTs ≤ ts)%Z →
  visible (drop (length (older beforeTs chain) - 1) chain) ts = visible chain ts.
Proof.
  intros Hs Hts. unfold visible.
  assert (Hsplit : chain = older beforeTs chain ++ filter (λ w, (beforeTs <=? v_Timestamp w)%Z = true) chain)
    by (symmetry; by apply filter_split).
  set (o := older beforeTs chain) in *.
  destruct o as [|v o' _] eqn:Eo using rev_ind; [done|]. rewrite length_app, Nat.add_sub.
  assert (Hv : (v_Timestamp v ≤ ts)%Z).
  { assert (v ∈ older beforeTs chain) as [Hv%Z.leb_gt _]%list_elem_of_filter; [|lia].
    fold o. rewrite Eo. set_solver. }
  rewrite Hsplit. rewrite <-(assoc_L (++)). rewrite drop_app_length.
  rewrite (filter_app _ o'). rewrite (last_app_ne (filter _ o')); [done|].
  rewrite <-app_comm_cons, filter_cons_True by done. done.
Qed.

Lemma Latest_spec s key : Latest s key = last (chain_of s key) ≫= value_of.
Proof.
  unfold Latest. rewrite last_nth.
  destruct (Nat.eqb_spec (length (chain_of s key)) 0) as [->%nil_length_inv|]; done.
Qed.
End Mvcc.

Import Mvcc.

(** Snapshot reads: on a well-formed store a write keeps it well formed, a read at [ts] returns
    the newest version at or before [ts] (nothing for a tombstone), and after committing a version
    at [t] a read sees that version exactly when [takes_effect] says so and otherwise what it saw
    before; in particular a write later than [ts], or to another key, never changes a read at
    [ts]. *)
Theorem mvcc_snapshot_reads s key v key' ts :
  wf s →
  let s' := append_version s key v in
  wf s' ∧
  ReadAt s' key' ts =
    (if decide (key = key') then
       if takes_effect (chain_of s key) (v_Timestamp v) ts then value_of v else ReadAt s key' ts
     else ReadAt s key' ts) ∧
  ReadAt s key' ts = last (filter (λ w, (v_Timestamp w ≤ ts)%Z) (chain_of s key')) ≫= value_of ∧
  ((ts < v_Timestamp v)%Z → ReadAt s' key' ts = ReadAt s key' ts).
Proof.
  intros Hwf s'. pose proof (append_version_wf s key v Hwf) as Hwf'.
  assert (Hread : ReadAt s' key' ts =
    (if decide (key = key') then
       if takes_effect (chain_of s key) (v_Timestamp v) ts then value_of v else ReadAt s key' ts
     else ReadAt s key' ts)).
  { rewrite !ReadAt_spec by done. subst s'. rewrite append_version_chain, chain_of_insert by done.
    case_decide; subst; [|done]. rewrite visible_insert by apply Hwf. by case_match. }
  split_and!; [done|done|by apply ReadAt_spec|].
  intros Hlt. rewrite Hread. case_decide; [|done]. unfold takes_effect.
  by destruct (Z.leb_spec (v_Timestamp v) ts); [lia|].
Qed.

Definition demo_store : Store := Put (Put New "k" (Some "a") 1) "k" (Some "c") 5.

Lemma demo_store_wf : wf demo_store.
Proof.
  apply append_version_wf, append_version_wf. intros key. unfold chain_of; simpl.
  rewrite lookup_empty. constructor.
Qed.

Lemma mvcc_snapshot_reads_witness :
  let v := MkVersion (Some "b") 3 false in
  let s' := append_version demo_store "k" v in
  wf s' ∧
  ReadAt s' "k" 4 =
    (if decide ("k" = "k") then
       if takes_effect (chain_of demo_store "k") (v_Timestamp v) 4 then value_of v
       else ReadAt demo_store "k" 4
     else ReadAt demo_store "k" 4) ∧
  ReadAt demo_store "k" 4 =
    last (filter (λ w, (v_Timestamp w ≤ 4)%Z) (chain_of demo_store "k")) ≫= value_of ∧
  ((4 < v_Timestamp v)%Z → ReadAt s' "k" 4 = ReadAt demo_store "k" 4).
Proof.
  apply (mvcc_snapshot_reads demo_store "k" (MkVersion (Some "b") 3 false) "k" 4).
  apply demo_store_wf.
Defined.

(** Compaction is safe for the readers it promises to keep: reads at or after the compaction
    timestamp, the latest value and every other key are unchanged, the store stays well formed,
    every version at or after the timestamp is retained and at most one older one is. *)
Theorem mvcc_compact_safe s key beforeTs :
  wf s →
  let s' := Compact s key beforeTs in
  wf s' ∧
  (∀ key' ts, (key' ≠ key ∨ beforeTs ≤ ts)%Z → ReadAt s' key' ts = ReadAt s key' ts) ∧
  (∀ key', Latest s' key' = Latest s key') ∧
  filter (λ v, (beforeTs ≤ v_Timestamp v)%Z) (chain_of s' key) =
    filter (λ v, (beforeTs ≤ v_Timestamp v)%Z) (chain_of s key) ∧
  length (older beforeTs (chain_of s' key)) ≤ 1.
Proof.
  intros Hwf s'. pose proof (Compact_wf s key beforeTs Hwf) as Hwf'.
  assert (Hch := Compact_chain s key beforeTs Hwf). fold s' in Hch.
  assert (Hkey : chain_of s' key = drop (length (older beforeTs (chain_of s key)) - 1) (chain_of s key))
    by (by rewrite Hch, decide_True).
  set (chain := chain_of s key) in *. pose proof (Hwf key) as Hs. fold chain in Hs.
  pose proof (filter_split chain beforeTs Hs) as Hsplit.
  set (newer := filter (λ w, (beforeTs <=? v_Timestamp w)%Z = true) chain) in *.
  change (older beforeTs chain ++ newer = chain) in Hsplit.
  assert (Hdrop : drop (length (older beforeTs chain) - 1) chain =
    drop (length (older beforeTs chain) - 1) (older beforeTs chain) ++ newer).
  { rewrite <-Hsplit at 2. by rewrite drop_app_le by lia. }
  split_and!; [done|..].
  - intros key' ts Hor. rewrite !ReadAt_spec by done. rewrite Hch. case_decide; subst; [|done].
    fold chain. rewrite visible_compact; [done|done|]. naive_solver.
  - intros key'. rewrite !Latest_spec, Hch. case_decide; subst; [|done]. fold chain.
    destruct (decide (length chain = 0)) as [->%nil_length_inv|]; [by rewrite drop_nil|].
    rewrite last_drop; [done|]. assert (length (older beforeTs chain) ≤ length chain) by apply length_filter.
    lia.
  - rewrite Hkey, Hdrop. rewrite <-Hsplit at 3. rewrite !filter_app. f_equal.
    rewrite !list_filter_nil_2; [done| |].
    + intros v [Hv%Z.leb_gt _]%list_elem_of_filter. lia.
    + intros v (i & Hi)%list_elem_of_lookup. rewrite lookup_drop in Hi.
      apply list_elem_of_lookup_2 in Hi. apply list_elem_of_filter in Hi as [Hv%Z.leb_gt _]. lia.
  - rewrite Hkey, Hdrop. unfold older at 1. rewrite filter_app, length_app.
    rewrite (list_filter_nil_2 _ newer) by (intros v [Hv _]%list_elem_of_filter; congruence).
    etransitivity; [apply Nat.add_le_mono_r, length_filter|]. rewrite length_drop. simpl. lia.
Qed.

Lemma mvcc_compact_safe_witness :
  let s' := Compact demo_store "k" 6 in
  wf s' ∧
  (∀ key' ts, (key' ≠ "k" ∨ 6 ≤ ts)%Z → ReadAt s' key' ts = ReadAt demo_store key' ts) ∧
  (∀ key', Latest s' key' = Latest demo_store key') ∧
  filter (λ v, (6 ≤ v_Timestamp v)%Z) (chain_of s' "k") =
    filter (λ v, (6 ≤ v_Timestamp v)%Z) (chain_of demo_store "k") ∧
  length (older 6 (chain_of s' "k")) ≤ 1.
Proof. apply (mvcc_compact_safe demo_store "k" 6). apply demo_store_wf. Defined.
