(* ===== verification/Quorum.v ===== *)
(** * Quorum arithmetic

    Models [src/internal/quorum/calculator.go].  [StaleReadProbability] and [choose] compute in
    float64 and are left out. *)

From S2P Require Import Prelude.

Module Quorum.
#[local] Open Scope Z_scope.

Record QuorumConfig := MkConfig { N_ : Z; W : Z; R : Z }.

Inductive QuorumPreset :=
  | PresetStrongConsistency | PresetQuorumConsistency | PresetHighAvailability
  | PresetWriteOptimized | PresetReadOptimized | PresetOther (name : string).

(** Go's integer division truncates toward zero. *)
Definition Preset (p : QuorumPreset) (n : Z) : QuorumConfig :=
  match p with
  | PresetStrongConsistency => MkConfig n n 1
  | PresetQuorumConsistency => let q := Z.quot n 2 + 1 in MkConfig n q q
  | PresetHighAvailability => MkConfig n 1 1
  | PresetWriteOptimized => MkConfig n 1 n
  | PresetReadOptimized => MkConfig n n 1
  | PresetOther _ => let q := Z.quot n 2 + 1 in MkConfig n q q
  end.

Inductive config_error := ErrN (n : Z) | ErrW (n w : Z) | ErrR (n r : Z).

Definition IsValid (q : QuorumConfig) : option config_error :=
  if N_ q <=? 0 then Some (ErrN (N_ q))
  else if (W q <=? 0) || (N_ q <? W q) then Some (ErrW (N_ q) (W q))
  else if (R q <=? 0) || (N_ q <? R q) then Some (ErrR (N_ q) (R q))
  else None.

Definition IsStronglyConsistent (q : QuorumConfig) : bool := N_ q <? W q + R q.

Definition WriteNodes (q : QuorumConfig) : Z := W q.
Definition ReadNodes (q : QuorumConfig) : Z := R q.
Definition TotalNodes (q : QuorumConfig) : Z := N_ q.

Definition OverlapCount (q : QuorumConfig) : Z :=
  let overlap := W q + R q - N_ q in
  if overlap <? 0 then 0 else overlap.

Lemma IsValid_spec q : IsValid q = None ↔ 0 < N_ q ∧ 0 < W q ≤ N_ q ∧ 0 < R q ≤ N_ q.
Proof.
  unfold IsValid.
  destruct (Z.leb_spec (N_ q) 0), (Z.leb_spec (W q) 0), (Z.ltb_spec (N_ q) (W q)),
    (Z.leb_spec (R q) 0), (Z.ltb_spec (N_ q) (R q)); simpl; split; try done; lia.
Qed.

(** A choice of [k] of the replicas [0 .. N-1]. *)
Definition replica_set (q : QuorumConfig) (k : Z) (X : gset nat) : Prop :=
  (∀ i, i ∈ X → Z.of_nat i < N_ q) ∧ Z.of_nat (size X) = k.

Definition all_replicas (q : QuorumConfig) : gset nat := set_seq 0 (Z.to_nat (N_ q)).

Lemma size_all_replicas q : 0 ≤ N_ q → Z.of_nat (size (all_replicas q)) = N_ q.
Proof. intros. unfold all_replicas. rewrite size_set_seq. lia. Qed.

(** Inclusion and exclusion. *)
Lemma overlap_lower q X Y :
  0 ≤ N_ q → replica_set q (W q) X → replica_set q (R q) Y →
  OverlapCount q ≤ Z.of_nat (size (X ∩ Y)).
Proof.
  intros HN [HX HsX] [HY HsY]. unfold OverlapCount.
  assert (Hu : (size (X ∪ Y) ≤ size (all_replicas q))%nat).
  { apply subseteq_size. intros i [Hi|Hi]%elem_of_union; unfold all_replicas;
      apply elem_of_set_seq; [apply HX in Hi|apply HY in Hi]; lia. }
  pose proof (size_all_replicas q HN).
  assert (size (X ∪ Y) + size (X ∩ Y) = size X + size Y)%nat.
  { rewrite size_union_alt.
    pose proof (size_union (Y ∖ X) (X ∩ Y) ltac:(set_solver)) as Hy.
    replace (Y ∖ X ∪ X ∩ Y) with Y in Hy; [lia|].
    apply set_eq. intros i. destruct (decide (i ∈ X)); set_solver. }
  destruct (Z.ltb_spec (W q + R q - N_ q) 0); lia.
Qed.

(** The first [W] and the last [R] replicas meet the bound. *)
Definition first_k (k : Z) : gset nat := set_seq 0 (Z.to_nat k).
Definition last_k (q : QuorumConfig) (k : Z) : gset nat := set_seq (Z.to_nat (N_ q - k)) (Z.to_nat k).

Lemma overlap_tight q :
  IsValid q = None →
  replica_set q (W q) (first_k (W q)) ∧ replica_set q (R q) (last_k q (R q)) ∧
  Z.of_nat (size (first_k (W q) ∩ last_k q (R q))) = OverlapCount q.
Proof.
  intros (HN & HW & HR)%IsValid_spec. unfold replica_set, first_k, last_k. split_and!.
  - intros i Hi%elem_of_set_seq. lia.
  - rewrite size_set_seq. lia.
  - intros i Hi%elem_of_set_seq. lia.
  - rewrite size_set_seq. lia.
  - unfold OverlapCount.
    assert ((set_seq 0 (Z.to_nat (W q)) : gset nat) ∩ set_seq (Z.to_nat (N_ q - R q)) (Z.to_nat (R q)) =
      set_seq (Z.to_nat (N_ q - R q)) (Z.to_nat (W q + R q - N_ q))) as ->.
    { apply set_eq. intros i. rewrite elem_of_intersection, !elem_of_set_seq. lia. }
    rewrite size_set_seq. destruct (Z.ltb_spec (W q + R q - N_ q) 0); lia.
Qed.
End Quorum.

Import Quorum.

(** Quorum overlap: for a valid configuration every write set and read set share at least
    [OverlapCount] replicas and some pair shares no more, so [IsStronglyConsistent] holds exactly
    when every read set meets every write set. *)
Theorem quorum_overlap q :
  IsValid q = None →
  (∀ X Y, replica_set q (WriteNodes q) X → replica_set q (ReadNodes q) Y →
     (OverlapCount q ≤ Z.of_nat (size (X ∩ Y)))%Z) ∧
  (∃ X Y, replica_set q (WriteNodes q) X ∧ replica_set q (ReadNodes q) Y ∧
     Z.of_nat (size (X ∩ Y)) = OverlapCount q) ∧
  (IsStronglyConsistent q = true ↔
   ∀ X Y, replica_set q (WriteNodes q) X → replica_set q (ReadNodes q) Y → ∃ i, i ∈ X ∩ Y).
Proof.
  intros Hv. pose proof (proj1 (IsValid_spec q) Hv) as (HN & HW & HR).
  destruct (overlap_tight q Hv) as (H1 & H2 & H3). split_and!.
  - intros X Y HX HY. apply overlap_lower; [lia|done|done].
  - by exists (first_k (W q)), (last_k q (R q)).
  - unfold IsStronglyConsistent. rewrite Z.ltb_lt. split.
    + intros Hlt X Y HX HY. pose proof (overlap_lower q X Y ltac:(lia) HX HY) as Hlow.
      unfold OverlapCount in Hlow. destruct (Z.ltb_spec (W q + R q - N_ q) 0); [lia|].
      apply set_choose_L. intros Hemp. rewrite Hemp, size_empty in Hlow. lia.
    + intros Hall. destruct (Hall _ _ H1 H2) as [i Hi].
      assert (size (first_k (W q) ∩ last_k q (R q)) ≠ 0)%nat as Hne.
      { intros Hz. apply size_empty_inv in Hz. set_solver. }
      unfold OverlapCount in H3. destruct (Z.ltb_spec (W q + R q - N_ q) 0); lia.
Qed.

Lemma quorum_overlap_witness :
  let q := Preset PresetQuorumConsistency 3 in
  (∀ X Y, replica_set q (WriteNodes q) X → replica_set q (ReadNodes q) Y →
     (OverlapCount q ≤ Z.of_nat (size (X ∩ Y)))%Z) ∧
  (∃ X Y, replica_set q (WriteNodes q) X ∧ replica_set q (ReadNodes q) Y ∧
     Z.of_nat (size (X ∩ Y)) = OverlapCount q) ∧
  (IsStronglyConsistent q = true ↔
   ∀ X Y, replica_set q (WriteNodes q) X → replica_set q (ReadNodes q) Y → ∃ i, i ∈ X ∩ Y).
Proof. apply (quorum_overlap (Preset PresetQuorumConsistency 3)). reflexivity. Defined.

(** The presets: for a positive number of replicas every preset is a valid configuration, and
    every one of them guarantees overlap except high availability, which does so for a single
    replica only. *)
Theorem presets_valid p n :
  (0 < n)%Z →
  IsValid (Preset p n) = None ∧ TotalNodes (Preset p n) = n ∧
  (IsStronglyConsistent (Preset p n) = true ↔ p ≠ PresetHighAvailability ∨ n = 1%Z).
Proof.
  intros Hn. pose proof (Z.quot_div_nonneg n 2 ltac:(lia) ltac:(lia)) as Hq.
  pose proof (Z.div_mod n 2 ltac:(lia)). pose proof (Z.mod_pos_bound n 2 ltac:(lia)).
  unfold TotalNodes, IsStronglyConsistent. rewrite IsValid_spec, Z.ltb_lt.
  destruct p; simpl; rewrite ?Hq; (split_and!; [lia..|]); split; try (intros; lia).
  all: try (intros _; by left). all: try (intros; right; lia).
  intros [H1|H1]; [done|lia].
Qed.

Lemma presets_valid_witness :
  IsValid (Preset PresetHighAvailability 5) = None ∧ TotalNodes (Preset PresetHighAvailability 5) = 5%Z ∧
  (IsStronglyConsistent (Preset PresetHighAvailability 5) = true ↔
   PresetHighAvailability ≠ PresetHighAvailability ∨ 5%Z = 1%Z).
Proof. apply (presets_valid PresetHighAvailability 5). lia. Defined.
