(* ===== verification/HashRing.v ===== *)
(** * Consistent hashing

    Models [src/internal/hashring/ring.go].  The hash is FNV-1a on 64 bits, as [hash/fnv] computes
    it.  [sort.Slice] leaves the order of equal tokens open; the placement theorems therefore
    assume distinct tokens where the order of a sort matters. *)

From stdpp Require Import pretty.
From S2P Require Import Prelude.

Module Ring.

Record vnode := MkVnode { token : N; node : string }.

Record Ring := MkRing { tokens : list vnode; nodes : gset string; vnodes : nat }.

#[export] Instance vnode_eq_dec : EqDecision vnode.
Proof. solve_decision. Defined.

Definition NewRing (vnodes : Z) : Ring :=
  MkRing [] ∅ (if (vnodes <=? 0)%Z then 128 else Z.to_nat vnodes).

(** FNV-1a: xor with the byte, multiply by the prime, modulo 2^64. *)
Fixpoint fnv1a (h : N) (s : string) : N :=
  match s with
  | EmptyString => h
  | String c s => fnv1a (u64N (N.lxor h (Ascii.N_of_ascii c) * 1099511628211)) s
  end.

Definition hashKey (s : string) : N := fnv1a 14695981039346656037 s.

(** [fmt.Sprintf("%s#%d", nodeID, i)] *)
Definition vnode_name (nodeID : string) (i : nat) : string := nodeID +:+ "#" +:+ pretty i.

Definition token_leb (x y : vnode) : bool := (token x <=? token y)%N.

Definition new_vnodes (r : Ring) (nodeID : string) : list vnode :=
  (λ i, MkVnode (hashKey (vnode_name nodeID i)) nodeID) <$> seq 0 (vnodes r).

Definition Add (r : Ring) (nodeID : string) : Ring :=
  if bool_decide (nodeID ∈ nodes r) then r
  else MkRing (isort token_leb (tokens r ++ new_vnodes r nodeID)) ({[nodeID]} ∪ nodes r) (vnodes r).

Definition Remove (r : Ring) (nodeID : string) : Ring :=
  if bool_decide (nodeID ∈ nodes r)
  then MkRing (filter (λ v, node v ≠ nodeID) (tokens r)) (nodes r ∖ {[nodeID]}) (vnodes r)
  else r.

Definition Nodes (r : Ring) : list string := sort_strings (elements (nodes r)).

(** The loop of [PreferenceList] over the vnodes it meets, with its early exit. *)
Fixpoint collect (n : nat) (seen : gset string) (result : list string) (vs : list vnode)
  : list string :=
  match vs with
  | [] => result
  | v :: vs =>
      if bool_decide (node v ∈ seen) then collect n seen result vs
      else
        let result := result ++ [node v] in
        if length result =? n then result else collect n ({[node v]} ∪ seen) result vs
  end.

(** [r.tokens[(start+i)%len(r.tokens)]] for [i = 0, 1, ..] *)
Definition clockwise (ts : list vnode) (start : nat) : list vnode :=
  omap (λ i, ts !! ((start + i) `mod` length ts)) (seq 0 (length ts)).

Definition start_of (r : Ring) (h : N) : nat :=
  let start := Search (length (tokens r)) (λ i,
    match tokens r !! i with Some v => (h <=? token v)%N | None => false end) in
  if start =? length (tokens r) then 0 else start.

Definition PreferenceList (r : Ring) (key : string) (n : Z) : list string :=
  if (n <=? 0)%Z || (length (tokens r) =? 0) then []
  else
    let n := if (Z.of_nat (size (nodes r)) <? n)%Z then size (nodes r) else Z.to_nat n in
    collect n ∅ [] (clockwise (tokens r) (start_of r (hashKey key))).

(** ** The ring is sorted and covers its nodes *)

Definition token_le (x y : vnode) : Prop := (token x ≤ token y)%N.

Record wf (r : Ring) : Prop := {
  wf_sorted : StronglySorted token_le (tokens r);
  wf_nodes : ∀ x, x ∈ nodes r ↔ ∃ v, v ∈ tokens r ∧ node v = x;
  wf_vnodes : 0 < vnodes r;
}.

Lemma token_leb_total x y : token_leb x y = true ∨ token_leb y x = true.
Proof. unfold token_leb. rewrite !N.leb_le. lia. Qed.

Lemma token_leb_trans x y z : token_leb x y = true → token_leb y z = true → token_leb x z = true.
Proof. unfold token_leb. rewrite !N.leb_le. lia. Qed.

Lemma isort_token_sorted l : StronglySorted token_le (isort token_leb l).
Proof.
  pose proof (isort_sorted token_leb token_leb_total token_leb_trans l) as H.
  induction H as [|x l' _ IH Hx]; constructor; [done|].
  eapply Forall_impl; [exact Hx|]. intros y Hy%Is_true_true. unfold token_leb in Hy.
  by apply N.leb_le in Hy.
Qed.

Lemma NewRing_wf v : wf (NewRing v).
Proof.
  split; simpl; [constructor|set_solver|]. destruct (Z.leb_spec v 0); lia.
Qed.

Lemma new_vnodes_node r x v : v ∈ new_vnodes r x → node v = x.
Proof. by intros (i & -> & _)%list_elem_of_fmap. Qed.

Lemma new_vnodes_nonempty r x : 0 < vnodes r → ∃ v, v ∈ new_vnodes r x.
Proof.
  intros. exists (MkVnode (hashKey (vnode_name x 0)) x). apply list_elem_of_fmap. exists 0.
  split; [done|]. apply elem_of_seq. lia.
Qed.

Lemma Add_wf r x : wf r → wf (Add r x).
Proof.
  intros [Hs Hn Hv]. unfold Add. case_bool_decide; [done|]. split; simpl; [apply isort_token_sorted| |done].
  intros y. setoid_rewrite elem_of_isort. setoid_rewrite elem_of_app.
  rewrite elem_of_union, elem_of_singleton, Hn. split.
  - intros [->|(v & ? & ?)]; [|by eauto].
    destruct (new_vnodes_nonempty r x Hv) as [v Hvn]. exists v. split; [by right|].
    by apply (new_vnodes_node r).
  - intros (v & [?|Hvn] & <-); [right; eauto|left]. by apply (new_vnodes_node r).
Qed.

Lemma Remove_wf r x : wf r → wf (Remove r x).
Proof.
  intros [Hs Hn Hv]. unfold Remove. case_bool_decide; [|done]. split; simpl; [|..|done].
  - by apply StronglySorted_filter.
  - intros y. setoid_rewrite list_elem_of_filter. rewrite elem_of_difference, not_elem_of_singleton, Hn.
    naive_solver.
Qed.

(** ** The clockwise walk *)

(** All the nodes in the order the walk first meets them. *)
Fixpoint distinct_nodes (seen : gset string) (vs : list vnode) : list string :=
  match vs with
  | [] => []
  | v :: vs =>
      if bool_decide (node v ∈ seen) then distinct_nodes seen vs
      else node v :: distinct_nodes ({[node v]} ∪ seen) vs
  end.

Lemma collect_take n vs : ∀ seen result,
  length result < n → collect n seen result vs = result ++ take (n - length result) (distinct_nodes seen vs).
Proof.
  induction vs as [|v vs IH]; intros seen result Hlt; simpl; [by rewrite take_nil, app_nil_r|].
  case_bool_decide; [by apply IH|]. rewrite length_app. simpl.
  destruct (Nat.eqb_spec (length result + 1) n) as [<-|].
  - replace (length result + 1 - length result) with 1 by lia. done.
  - rewrite IH by (rewrite length_app; simpl; lia). rewrite length_app, <-(assoc_L (++)). simpl.
    by replace (n - length result) with (S (n - (length result + 1))) by lia.
Qed.

Lemma elem_of_distinct_nodes vs : ∀ seen x,
  x ∈ distinct_nodes seen vs ↔ (x ∉ seen) ∧ ∃ v, v ∈ vs ∧ node v = x.
Proof.
  induction vs as [|v vs IH]; intros seen x; simpl; [set_solver|].
  case_bool_decide as Hin; [|rewrite elem_of_cons]; rewrite IH.
  - split; [set_solver|]. intros (? & w & [->|?]%elem_of_cons & <-); [done|eauto].
  - split.
    + intros [->|(? & w & ? & ?)]; [split; [done|]; exists v; set_solver|set_solver].
    + intros (? & w & [->|?]%elem_of_cons & <-); [by left|].
      destruct (decide (node w = node v)); [by left|right]. split; [set_solver|eauto].
Qed.

Lemma NoDup_distinct_nodes vs : ∀ seen, NoDup (distinct_nodes seen vs).
Proof.
  induction vs as [|v vs IH]; intros seen; simpl; [constructor|].
  case_bool_decide; [done|]. constructor; [|done]. rewrite elem_of_distinct_nodes. set_solver.
Qed.

(** Dropping a node from the walk drops it from the order and moves nothing else. *)
Lemma distinct_nodes_filter x vs : ∀ seen,
  distinct_nodes seen (filter (λ v, node v ≠ x) vs) = filter (λ y, y ≠ x) (distinct_nodes seen vs).
Proof.
  induction vs as [|v vs IH]; intros seen; [done|]. rewrite filter_cons. simpl.
  destruct (decide (node v ≠ x)) as [Hne|Heq]; simpl.
  - case_bool_decide; [done|]. rewrite IH, filter_cons_True by done. done.
  - assert (node v = x) as -> by (destruct (decide (node v = x)); tauto).
    case_bool_decide as Hin; [done|]. rewrite filter_cons_False by tauto. rewrite IH.
    clear -Hin. revert seen Hin. induction vs as [|w vs IHvs]; intros seen Hin; [done|]. simpl.
    destruct (decide (node w = x)) as [->|Hwx].
    + rewrite (bool_decide_false (x ∈ seen)), (bool_decide_true (x ∈ {[x]} ∪ seen)) by set_solver.
      by rewrite filter_cons_False by tauto.
    + destruct (decide (node w ∈ seen)).
      * rewrite !bool_decide_true by set_solver. by apply IHvs.
      * rewrite !bool_decide_false by set_solver. rewrite !filter_cons_True by done. f_equal.
        rewrite (IHvs ({[node w]} ∪ seen)) by set_solver.
        by replace ({[x]} ∪ ({[node w]} ∪ seen)) with ({[node w]} ∪ ({[x]} ∪ seen)) by set_solver.
Qed.

Lemma clockwise_rotate ts start :
  start ≤ length ts → clockwise ts start = drop start ts ++ take start ts.
Proof.
  intros Hs. unfold clockwise.
  assert (Hgen : ∀ n k, k + n ≤ length ts → omap (λ i, ts !! ((start + i) `mod` length ts)) (seq k n) =
    take n (drop k (drop start ts ++ take start ts))).
  { induction n as [|n IH]; intros k Hk; [done|].
    assert (Hlen : length (drop start ts ++ take start ts) = length ts)
      by (rewrite length_app, length_drop, length_take; lia).
    assert (He : (drop start ts ++ take start ts) !! k = ts !! ((start + k) `mod` length ts)).
    { destruct (decide (start + k < length ts)).
      - rewrite Nat.mod_small, lookup_app_l, lookup_drop by (rewrite ?length_drop; lia). done.
      - rewrite lookup_app_r, length_drop, lookup_take_lt by (rewrite ?length_drop; lia).
        f_equal. rewrite <-(Nat.mod_unique (start + k) (length ts) 1 (start + k - length ts)); lia. }
    destruct (lookup_lt_is_Some_2 (drop start ts ++ take start ts) k ltac:(lia)) as [v Hv].
    rewrite (drop_S _ _ _ Hv). simpl. rewrite <-He, Hv. simpl. f_equal. apply IH. lia. }
  rewrite Hgen by lia. rewrite drop_0, take_ge; [done|].
  rewrite length_app, length_drop, length_take. lia.
Qed.

(** The vnodes in the order the walk from hash [h] meets them: those at or after it, then the
    others. *)
Definition walk_order (r : Ring) (h : N) : list vnode :=
  filter (λ v, (h <=? token v)%N = true) (tokens r) ++ filter (λ v, (h <=? token v)%N = false) (tokens r).

Lemma clockwise_order r h :
  wf r → clockwise (tokens r) (start_of r h) = walk_order r h.
Proof.
  intros [Hs _ _].
  destruct (sorted_split token_le (λ v, (h <=? token v)%N)) with (d := false) (l := tokens r)
    as (Hle & Ht & Hd); [|done|].
  { intros v w Hvw. rewrite !N.leb_le. unfold token_le in Hvw. lia. }
  unfold start_of, walk_order.
  change (λ i, match tokens r !! i with Some v => (h <=? token v)%N | None => false end)
    with (at_index (λ v, (h <=? token v)%N) false (tokens r)).
  set (i := Search _ _) in *. rewrite <-Ht, <-Hd.
  destruct (Nat.eqb_spec i (length (tokens r))) as [->|].
  - rewrite clockwise_rotate by lia. rewrite drop_0, take_0, drop_ge, take_ge by lia. by rewrite app_nil_r.
  - by rewrite clockwise_rotate by lia.
Qed.

Definition full_order (r : Ring) (key : string) : list string :=
  distinct_nodes ∅ (walk_order r (hashKey key)).

Lemma elem_of_full_order r key x : wf r → x ∈ full_order r key ↔ x ∈ nodes r.
Proof.
  intros Hwf. unfold full_order, walk_order. rewrite elem_of_distinct_nodes, (wf_nodes r Hwf).
  setoid_rewrite elem_of_app. setoid_rewrite list_elem_of_filter. split; [set_solver|].
  intros (v & Hv & <-). split; [set_solver|]. exists v. split; [|done].
  destruct (hashKey key <=? token v)%N; auto.
Qed.

Lemma full_order_length r key : wf r → length (full_order r key) = size (nodes r).
Proof.
  intros Hwf. rewrite <-(size_list_to_set (C := gset string)) by apply NoDup_distinct_nodes.
  f_equal. apply set_eq. intros x. by rewrite elem_of_list_to_set, elem_of_full_order.
Qed.

Lemma PreferenceList_spec r key n :
  wf r → PreferenceList r key n = take (Z.to_nat n) (full_order r key).
Proof.
  intros Hwf. unfold PreferenceList.
  destruct (Z.leb_spec n 0); simpl; [by replace (Z.to_nat n) with 0 by lia|].
  pose proof (full_order_length r key Hwf) as Hlen.
  destruct (Nat.eqb_spec (length (tokens r)) 0) as [Hz%nil_length_inv|Hnz].
  { unfold full_order, walk_order. rewrite Hz, !filter_nil. simpl. by rewrite take_nil. }
  assert (Hsz : 0 < size (nodes r)).
  { destruct (tokens r) as [|v ts] eqn:Et; [done|].
    assert (node v ∈ nodes r) by (apply (wf_nodes r Hwf); rewrite Et; exists v; set_solver).
    destruct (decide (size (nodes r) = 0)) as [Hempty%size_empty_inv|]; [set_solver|lia]. }
  rewrite clockwise_order by done. fold (full_order r key).
  destruct (Z.ltb_spec (Z.of_nat (size (nodes r))) n).
  - rewrite collect_take by (simpl; lia). simpl. rewrite Nat.sub_0_r.
    fold (full_order r key). rewrite !take_ge by lia. done.
  - rewrite collect_take by (simpl; lia). simpl. by rewrite Nat.sub_0_r.
Qed.

(** ** Membership changes *)

Lemma Remove_order r x key :
  wf r → x ∈ nodes r → full_order (Remove r x) key = filter (λ y, y ≠ x) (full_order r key).
Proof.
  intros Hwf Hx. unfold full_order, Remove, walk_order. rewrite bool_decide_true by done. simpl.
  rewrite <-distinct_nodes_filter, filter_app. f_equal. f_equal; apply list_filter_filter_comm.
Qed.

Lemma sorted_token_unique l1 l2 :
  NoDup (token <$> l1) → StronglySorted token_le l1 → StronglySorted token_le l2 → l1 ≡ₚ l2 → l1 = l2.
Proof.
  intros Hnd H1 H2 Hp. apply (StronglySorted_unique_strong token_le); [|done..].
  intros v w Hv Hw Hvw Hwv. rewrite <-Hp in Hw. unfold token_le in *.
  assert (token v = token w) as Heq by lia.
  apply list_elem_of_lookup in Hv as [i Hi]. apply list_elem_of_lookup in Hw as [j Hj].
  assert (i = j) as ->; [|congruence].
  eapply (NoDup_lookup (token <$> l1)); [done|by rewrite list_lookup_fmap, Hi|by rewrite list_lookup_fmap, Hj, Heq].
Qed.

Lemma Add_Remove r x :
  wf r → x ∉ nodes r → NoDup (token <$> tokens (Add r x)) → Remove (Add r x) x = r.
Proof.
  intros Hwf Hx Hnd. pose proof (Add_wf r x Hwf) as [Hs _ _]. unfold Remove, Add in *.
  rewrite (bool_decide_false (x ∈ nodes r)) in * by done. cbn [nodes tokens vnodes] in *.
  rewrite bool_decide_true by set_solver.
  replace (({[x]} ∪ nodes r) ∖ {[x]}) with (nodes r) by set_solver.
  enough (filter (λ v, node v ≠ x) (isort token_leb (tokens r ++ new_vnodes r x)) = tokens r) as ->
    by by destruct r.
  assert (Hp : filter (λ v, node v ≠ x) (isort token_leb (tokens r ++ new_vnodes r x)) ≡ₚ tokens r).
  { rewrite isort_perm, filter_app.
    rewrite list_filter_all.
    - rewrite list_filter_nil_2; [by rewrite app_nil_r|]. intros v Hv%new_vnodes_node. tauto.
    - intros v Hv Heq. apply Hx, (wf_nodes r Hwf). eauto. }
  apply sorted_token_unique; [|by apply StronglySorted_filter|apply Hwf|done].
  rewrite Hp. rewrite isort_perm, fmap_app in Hnd. by apply NoDup_app in Hnd as [? _].
Qed.

(** A ring built from a list of members. *)
Lemma foldl_Add_wf l : ∀ r, wf r → wf (foldl Add r l) ∧ nodes (foldl Add r l) = nodes r ∪ list_to_set l.
Proof.
  induction l as [|x l IH]; intros r Hwf; simpl; [split; [done|set_solver]|].
  destruct (IH (Add r x) (Add_wf r x Hwf)) as [? ->]. split; [done|].
  unfold Add. case_bool_decide; simpl; set_solver.
Qed.

Lemma NoDup_PreferenceList r key n : wf r → NoDup (PreferenceList r key n).
Proof.
  intros Hwf. rewrite PreferenceList_spec by done.
  pose proof (NoDup_distinct_nodes (walk_order r (hashKey key)) ∅) as Hnd.
  fold (full_order r key) in Hnd. rewrite <-(take_drop (Z.to_nat n)) in Hnd. by apply NoDup_app in Hnd as [? _].
Qed.

Lemma elem_of_PreferenceList r key n x : wf r → x ∈ PreferenceList r key n → x ∈ nodes r.
Proof.
  intros Hwf Hx. rewrite PreferenceList_spec in Hx by done. apply (elem_of_full_order r key x Hwf). by eapply elem_of_take_sub.
Qed.

Lemma PreferenceList_length r key n : wf r → length (PreferenceList r key n) = Z.to_nat n `min` size (nodes r).
Proof. intros Hwf. by rewrite PreferenceList_spec, length_take, full_order_length. Qed.
End Ring.

Import Ring.

(** Preference lists: on a ring built by any sequence of additions and removals, the list for a
    key has no duplicates, names members only, has the requested length capped at the number of
    members, and a shorter list is a prefix of a longer one. *)
Theorem preference_list_correct r key n m :
  wf r → (n ≤ m)%Z →
  NoDup (PreferenceList r key n) ∧
  (∀ x, x ∈ PreferenceList r key n → x ∈ Nodes r) ∧
  length (PreferenceList r key n) = Z.to_nat n `min` length (Nodes r) ∧
  PreferenceList r key n `prefix_of` PreferenceList r key m.
Proof.
  intros Hwf Hnm. rewrite !PreferenceList_spec by done.
  assert (Hnodes : length (Nodes r) = size (nodes r)).
  { unfold Nodes, sort_strings. by rewrite length_isort. }
  split_and!.
  - rewrite <- PreferenceList_spec by done. by apply NoDup_PreferenceList.
  - intros x Hx. unfold Nodes. rewrite elem_of_sort_strings, elem_of_elements.
    apply (elem_of_full_order r key x Hwf). by eapply elem_of_take_sub.
  - rewrite length_take, full_order_length, Hnodes by done. done.
  - exists (take (Z.to_nat m - Z.to_nat n) (drop (Z.to_nat n) (full_order r key))).
    rewrite take_take_drop. f_equal. lia.
Qed.

Definition demo_ring : Ring := Add (Add (Add (NewRing 4) "n1") "n2") "n3".

Lemma demo_ring_wf : wf demo_ring.
Proof. repeat apply Add_wf. apply NewRing_wf. Qed.

Lemma preference_list_correct_witness :
  NoDup (PreferenceList demo_ring "user:1" 2) ∧
  (∀ x, x ∈ PreferenceList demo_ring "user:1" 2 → x ∈ Nodes demo_ring) ∧
  length (PreferenceList demo_ring "user:1" 2) = Z.to_nat 2 `min` length (Nodes demo_ring) ∧
  PreferenceList demo_ring "user:1" 2 `prefix_of` PreferenceList demo_ring "user:1" 5.
Proof. apply (preference_list_correct demo_ring "user:1" 2 5); [apply demo_ring_wf|lia]. Defined.

(** C33. Minimal disruption: removing a member takes it out of every key's node order and moves
    nothing else, and adding one only inserts it; both keep the ring well formed.  The addition
    assumes that no two tokens collide. *)
Theorem ring_minimal_disruption r x y key n :
  wf r → x ∈ nodes r → (y ∉ nodes r) → NoDup (token <$> tokens (Add r y)) →
  wf (Remove r x) ∧ wf (Add r y) ∧
  PreferenceList (Remove r x) key n =
    take (Z.to_nat n) (filter (λ z, z ≠ x) (PreferenceList r key (Z.of_nat (size (nodes r))))) ∧
  PreferenceList r key n =
    take (Z.to_nat n) (filter (λ z, z ≠ y)
      (PreferenceList (Add r y) key (Z.of_nat (size (nodes (Add r y)))))).
Proof.
  intros Hwf Hx Hy Hnd. pose proof (Remove_wf r x Hwf) as Hwfx. pose proof (Add_wf r y Hwf) as Hwfy.
  assert (Hfull : ∀ r key, wf r → PreferenceList r key (Z.of_nat (size (nodes r))) = full_order r key).
  { intros r' key' Hr. rewrite PreferenceList_spec by done. apply take_ge.
    rewrite full_order_length by done. lia. }
  split_and!; [done|done|..].
  - rewrite Hfull, <-Remove_order by done. by apply PreferenceList_spec.
  - rewrite Hfull by done. rewrite <-Remove_order; [|done|].
    + rewrite Add_Remove by done. by apply PreferenceList_spec.
    + unfold Add. rewrite bool_decide_false by done. simpl. set_solver.
Qed.

Lemma ring_minimal_disruption_witness :
  wf (Remove demo_ring "n2") ∧ wf (Add demo_ring "n4") ∧
  PreferenceList (Remove demo_ring "n2") "user:1" 2 =
    take (Z.to_nat 2) (filter (λ z, z ≠ "n2")
      (PreferenceList demo_ring "user:1" (Z.of_nat (size (nodes demo_ring))))) ∧
  PreferenceList demo_ring "user:1" 2 =
    take (Z.to_nat 2) (filter (λ z, z ≠ "n4")
      (PreferenceList (Add demo_ring "n4") "user:1" (Z.of_nat (size (nodes (Add demo_ring "n4")))))).
Proof.
  apply (ring_minimal_disruption demo_ring "n2" "n4" "user:1" 2).
  - apply demo_ring_wf.
  - apply (bool_decide_unpack ("n2" ∈ nodes demo_ring)). by vm_compute.
  - apply (bool_decide_unpack ("n4" ∉ nodes demo_ring)). by vm_compute.
  - apply (bool_decide_unpack (NoDup (token <$> tokens (Add demo_ring "n4")))). by vm_compute.
Defined.
