(* ===== verification/Sha256.v ===== *)
(** * SHA-256

    [crypto/sha256] and [encoding/hex] as [src/internal/antientropy/merkle.go] uses them: the digest
    of a byte string, hex encoded.  Words are 32-bit naturals. *)

From S2P Require Import Prelude.

Module Sha256.
#[local] Open Scope N_scope.

Definition two32 : N := 4294967296.
Definition add32 (x y : N) : N := (x + y) `mod` two32.
Definition rotr (n x : N) : N := N.lor (N.shiftr x n) ((N.shiftl x (32 - n)) `mod` two32).
Definition not32 (x : N) : N := N.lxor x 4294967295.

Definition Ch (x y z : N) : N := N.lxor (N.land x y) (N.land (not32 x) z).
Definition Maj (x y z : N) : N := N.lxor (N.land x y) (N.lxor (N.land x z) (N.land y z)).
Definition Sigma0 (x : N) : N := N.lxor (rotr 2 x) (N.lxor (rotr 13 x) (rotr 22 x)).
Definition Sigma1 (x : N) : N := N.lxor (rotr 6 x) (N.lxor (rotr 11 x) (rotr 25 x)).
Definition sigma0 (x : N) : N := N.lxor (rotr 7 x) (N.lxor (rotr 18 x) (N.shiftr x 3)).
Definition sigma1 (x : N) : N := N.lxor (rotr 17 x) (N.lxor (rotr 19 x) (N.shiftr x 10)).

Definition K : list N :=
  [1116352408; 1899447441; 3049323471; 3921009573; 961987163; 1508970993; 2453635748; 2870763221;
   3624381080; 310598401; 607225278; 1426881987; 1925078388; 2162078206; 2614888103; 3248222580;
   3835390401; 4022224774; 264347078; 604807628; 770255983; 1249150122; 1555081692; 1996064986;
   2554220882; 2821834349; 2952996808; 3210313671; 3336571891; 3584528711; 113926993; 338241895;
   666307205; 773529912; 1294757372; 1396182291; 1695183700; 1986661051; 2177026350; 2456956037;
   2730485921; 2820302411; 3259730800; 3345764771; 3516065817; 3600352804; 4094571909; 275423344;
   430227734; 506948616; 659060556; 883997877; 958139571; 1322822218; 1537002063; 1747873779;
   1955562222; 2024104815; 2227730452; 2361852424; 2428436474; 2756734187; 3204031479; 3329325298].

Record state := MkState { sa : N; sb : N; sc : N; sd : N; se : N; sf : N; sg : N; sh : N }.

Definition H0 : state :=
  MkState 1779033703 3144134277 1013904242 2773480762 1359893119 2600822924 528734635 1541459225.

(** The message schedule, newest word first. *)
Fixpoint schedule (rounds : nat) (rev_ws : list N) : list N :=
  match rounds with
  | O => rev rev_ws
  | S rounds =>
      let w i := nth i rev_ws 0 in
      schedule rounds (add32 (add32 (sigma1 (w 1%nat)) (w 6%nat)) (add32 (sigma0 (w 14%nat)) (w 15%nat)) :: rev_ws)
  end.

Definition round (s : state) (kw : N * N) : state :=
  let '(k, w) := kw in
  let t1 := add32 (add32 (sh s) (Sigma1 (se s)))
              (add32 (Ch (se s) (sf s) (sg s)) (add32 k w)) in
  let t2 := add32 (Sigma0 (sa s)) (Maj (sa s) (sb s) (sc s)) in
  MkState (add32 t1 t2) (sa s) (sb s) (sc s) (add32 (sd s) t1) (se s) (sf s) (sg s).

Definition compress (s : state) (block : list N) : state :=
  let r := foldl round s (zip K (schedule 48 (rev block))) in
  MkState (add32 (sa s) (sa r)) (add32 (sb s) (sb r)) (add32 (sc s) (sc r)) (add32 (sd s) (sd r))
    (add32 (se s) (se r)) (add32 (sf s) (sf r)) (add32 (sg s) (sg r)) (add32 (sh s) (sh r)).

Fixpoint bytes_of (s : string) : list N :=
  match s with EmptyString => [] | String c s => Ascii.N_of_ascii c :: bytes_of s end.

(** Big-endian bytes of a number. *)
Fixpoint be_bytes (count : nat) (n : N) : list N :=
  match count with
  | O => []
  | S count => N.shiftr n (8 * N.of_nat count) `mod` 256 :: be_bytes count n
  end.

Definition pad (msg : list N) : list N :=
  let len := length msg in
  let zeros := ((119 - len `mod` 64) `mod` 64)%nat in
  msg ++ [128] ++ replicate zeros 0 ++ be_bytes 8 (8 * N.of_nat len).

Fixpoint words (bs : list N) : list N :=
  match bs with
  | b0 :: b1 :: b2 :: b3 :: bs => (b0 * 16777216 + b1 * 65536 + b2 * 256 + b3) :: words bs
  | _ => []
  end.

Fixpoint blocks (fuel : nat) (ws : list N) (s : state) : state :=
  match fuel, ws with
  | S fuel, _ :: _ => blocks fuel (drop 16 ws) (compress s (take 16 ws))
  | _, _ => s
  end.

Definition hex_digit (n : N) : Ascii.ascii :=
  Ascii.ascii_of_N (if n <? 10 then 48 + n else 87 + n).

Fixpoint hex (digits : nat) (n : N) : string :=
  match digits with
  | O => ""
  | S digits => String (hex_digit (N.shiftr n (4 * N.of_nat digits) `mod` 16)) (hex digits n)
  end.

Definition hex_state (s : state) : string :=
  foldr (λ w acc, (hex 8 w +:+ acc)%string) ""
    [sa s; sb s; sc s; sd s; se s; sf s; sg s; sh s].

(** [hex.EncodeToString(sha256.Sum256([]byte(s))[:])] *)
Definition hashString (s : string) : string :=
  let ws := words (pad (bytes_of s)) in
  hex_state (blocks (length ws) ws H0).

Example sha256_abc :
  hashString "abc" = "ba7816bf8f01cfea414140de5dae2223b00361a396177a9cb410ff61f20015ad".
Proof. vm_compute. reflexivity. Qed.

(** Every digest has 64 characters, none of which is an equals sign. *)

Close Scope N_scope.

Lemma str_length_app (a b : string) : String.length (a +:+ b) = String.length a + String.length b.
Proof. induction a as [|c a IH]; simpl; [done|]. by rewrite IH. Qed.

Lemma hex_length n w : String.length (hex n w) = n.
Proof. induction n as [|n IH]; simpl; [done|]. by rewrite IH. Qed.

Lemma hashString_length s : String.length (hashString s) = 64.
Proof.
  unfold hashString, hex_state. cbn [foldr]. rewrite !str_length_app, !hex_length. done.
Qed.

Fixpoint str_in (c : Ascii.ascii) (s : string) : bool :=
  match s with EmptyString => false | String d s => Ascii.eqb c d || str_in c s end.

Lemma str_in_app c a b : str_in c (a +:+ b) = str_in c a || str_in c b.
Proof. induction a as [|d a IH]; simpl; [done|]. by rewrite IH, orb_assoc. Qed.

(** The character that separates key and value in a leaf. *)
Definition equals : Ascii.ascii := Ascii.ascii_of_nat 61.

Lemma hex_digit_not_eq n : (n < 16)%N → Ascii.eqb equals (hex_digit n) = false.
Proof.
  intros Hn. assert (Hall : forallb (λ k, negb (Ascii.eqb equals (hex_digit (N.of_nat k)))) (seq 0 16) = true)
    by by vm_compute.
  rewrite forallb_forall in Hall. specialize (Hall (N.to_nat n)).
  rewrite N2Nat.id in Hall. apply negb_true_iff, Hall, in_seq. lia.
Qed.

Lemma hex_not_eq n w : str_in equals (hex n w) = false.
Proof.
  induction n as [|n IH]; [done|]. cbn [hex str_in].
  rewrite hex_digit_not_eq, IH by by apply N.mod_lt. done.
Qed.

Lemma hashString_not_eq s : str_in equals (hashString s) = false.
Proof.
  unfold hashString, hex_state. cbn [foldr]. rewrite !str_in_app, !hex_not_eq. done.
Qed.

Lemma str_app_inj (a1 b1 a2 b2 : string) :
  String.length a1 = String.length b1 → a1 +:+ a2 = b1 +:+ b2 → a1 = b1 ∧ a2 = b2.
Proof.
  revert b1. induction a1 as [|c a1 IH]; intros [|d b1] Hl Heq; simpl in *; try done.
  injection Heq as -> Heq. injection Hl as Hl. destruct (IH b1 Hl Heq) as [-> ->]. done.
Qed.
End Sha256.
