(* ===== verification/Merkle.v ===== *)
(** * Merkle trees for anti-entropy

    Models [src/internal/antientropy/merkle.go].  A tree is a [Node] or the nil pointer; the key sets
    the code accumulates in maps are finite sets.  [buildLevel] halves its slice, so as many
    recursion levels as there are leaves are more than enough.  That equal digests mean equal
    contents is an assumption on SHA-256, stated for exactly the strings the two trees hash. *)

From S2P Require Import Prelude Sha256.
Import Sha256.

Module Merkle.

#[local] Opaque hashString.

Inductive Node :=
  | Nil
  | MkNode (Hash : string) (Left Right : Node) (Key : string).

Definition emptyRootHash : string :=
  "empty:0000000000000000000000000000000000000000000000000000000000000000".

Definition node_hash (n : Node) : string := match n with Nil => "" | MkNode h _ _ _ => h end.

Definition leaf_text (key value : string) : string := key +:+ "=" +:+ value.

Definition leafHash (key value : string) : string := hashString (leaf_text key value).

Fixpoint buildLevel (fuel : nat) (nodes : list Node) : Node :=
  match fuel with
  | 0 => Nil
  | S fuel =>
      match nodes with
      | [n] => n
      | _ =>
          let mid := length nodes / 2 in
          let left := buildLevel fuel (take mid nodes) in
          let right := buildLevel fuel (drop mid nodes) in
          MkNode (hashString (node_hash left +:+ node_hash right)) left right ""
      end
  end.

Definition leaf (kv : string * string) : Node := MkNode (leafHash kv.1 kv.2) Nil Nil kv.1.

(** The entries of the map by sorted key. *)
Definition sorted_entries (kv : gmap string string) : list (string * string) :=
  (λ k, (k, default "" (kv !! k))) <$> sort_strings ((map_to_list kv).*1).

Definition BuildTree (kv : gmap string string) : Node :=
  if bool_decide (size kv = 0) then MkNode emptyRootHash Nil Nil ""
  else let leaves := leaf <$> sorted_entries kv in buildLevel (length leaves) leaves.

Definition is_nil (n : Node) : bool := match n with Nil => true | _ => false end.

Definition isLeaf (n : Node) : bool :=
  match n with
  | Nil => false
  | MkNode _ l r k => is_nil l && is_nil r && negb (String.eqb k "")
  end.

Fixpoint collectLeaves (n : Node) (diffs : gset string) : gset string :=
  match n with
  | Nil => diffs
  | MkNode _ l r k =>
      if isLeaf n then {[k]} ∪ diffs else collectLeaves r (collectLeaves l diffs)
  end.

Fixpoint collectKeySet (n : Node) (out : gset string) : gset string :=
  match n with
  | Nil => out
  | MkNode _ l r k =>
      if isLeaf n then {[k]} ∪ out else collectKeySet r (collectKeySet l out)
  end.

Fixpoint collectLeafHashes (n : Node) (out : gmap string string) : gmap string string :=
  match n with
  | Nil => out
  | MkNode h l r k =>
      if isLeaf n then <[k := h]> out else collectLeafHashes r (collectLeafHashes l out)
  end.

Definition sameKeys (a b : Node) : bool :=
  let ak := collectKeySet a ∅ in
  let bk := collectKeySet b ∅ in
  if negb (size ak =? size bk) then false
  else forallb (λ k, bool_decide (k ∈ bk)) (elements ak).

Definition reconcile (a b : Node) (diffs : gset string) : gset string :=
  let aLeaves := collectLeafHashes a ∅ in
  let bLeaves := collectLeafHashes b ∅ in
  let diffs := map_fold (λ k h diffs,
    match bLeaves !! k with
    | Some bh => if String.eqb bh h then diffs else {[k]} ∪ diffs
    | None => {[k]} ∪ diffs
    end) diffs aLeaves in
  map_fold (λ k _ diffs,
    match aLeaves !! k with Some _ => diffs | None => {[k]} ∪ diffs end) diffs bLeaves.

Fixpoint diffNodes (a b : Node) (diffs : gset string) : gset string :=
  match a, b with
  | Nil, Nil => diffs
  | Nil, MkNode _ _ _ _ => collectLeaves b diffs
  | MkNode _ _ _ _, Nil => collectLeaves a diffs
  | MkNode ha la ra _, MkNode hb lb rb _ =>
      if String.eqb ha hb then diffs
      else if negb (isLeaf a) && negb (isLeaf b) && sameKeys a b
      then diffNodes ra rb (diffNodes la lb diffs)
      else reconcile a b diffs
  end.

Definition Diff (a b : Node) : list string := sort_strings (elements (diffNodes a b ∅)).

(** ** Trees over a list of entries *)

(** The strings hashed while building over sorted entries. *)
Fixpoint level_inputs (fuel : nat) (es : list (string * string)) : list string :=
  match fuel with
  | 0 => []
  | S fuel =>
      match es with
      | [(k, v)] => [leaf_text k v]
      | _ =>
          let mid := length es / 2 in
          (node_hash (buildLevel fuel (leaf <$> take mid es)) +:+
           node_hash (buildLevel fuel (leaf <$> drop mid es)))
          :: level_inputs fuel (take mid es) ++ level_inputs fuel (drop mid es)
      end
  end.

Definition hashed_by (kv : gmap string string) : list string :=
  let es := sorted_entries kv in level_inputs (length es) es.

Definition no_collisions (I : list string) : bool :=
  let hs := (λ x, (x, hashString x)) <$> I in
  forallb (λ '(x, hx), forallb (λ '(y, hy), negb (String.eqb hx hy) || String.eqb x y) hs) hs.

Lemma no_collisions_spec I x y :
  no_collisions I = true → x ∈ I → y ∈ I → hashString x = hashString y → x = y.
Proof.
  unfold no_collisions. rewrite forallb_forall. intros H Hx Hy Heq.
  assert (Hin : ∀ z, z ∈ I → In (z, hashString z) ((λ x, (x, hashString x)) <$> I)).
  { intros z Hz. apply list_elem_of_In, list_elem_of_fmap. eauto. }
  specialize (H _ (Hin x Hx)). simpl in H. rewrite forallb_forall in H. specialize (H _ (Hin y Hy)).
  simpl in H. apply orb_true_iff in H as [H|H].
  - rewrite Heq, String.eqb_refl in H. done.
  - by apply String.eqb_eq.
Qed.

Lemma no_collisions_sub I J : (∀ x, x ∈ J → x ∈ I) → no_collisions I = true → no_collisions J = true.
Proof.
  intros Hsub HI. unfold no_collisions. apply forallb_forall. intros p (x & -> & Hx)%list_elem_of_In%list_elem_of_fmap.
  apply forallb_forall. intros q (y & -> & Hy)%list_elem_of_In%list_elem_of_fmap.
  destruct (String.eqb_spec (hashString x) (hashString y)) as [Heq|]; [|done].
  apply String.eqb_eq, (no_collisions_spec I); auto.
Qed.

(** [built I t es]: [t] is the balanced tree over [es], and [I] contains everything hashed in it. *)
Inductive built (I : list string) : Node → list (string * string) → Prop :=
  | built_leaf k v : leaf_text k v ∈ I → built I (leaf (k, v)) [(k, v)]
  | built_inner l r xs ys :
      built I l xs → built I r ys → length xs = length (xs ++ ys) / 2 → 0 < length xs →
      node_hash l +:+ node_hash r ∈ I →
      built I (MkNode (hashString (node_hash l +:+ node_hash r)) l r "") (xs ++ ys).

Lemma half_lt n : 2 ≤ n → 0 < n / 2 < n.
Proof.
  intros. split; [|apply Nat.div_lt; lia].
  apply Nat.div_str_pos. lia.
Qed.

Lemma buildLevel_built I fuel : ∀ es,
  0 < length es ≤ fuel → (∀ x, x ∈ level_inputs fuel es → x ∈ I) →
  built I (buildLevel fuel (leaf <$> es)) es.
Proof.
  induction fuel as [|fuel IH]; intros es Hlen Hin; [lia|].
  destruct es as [|[k v] [|e2 es']]; [simpl in Hlen; lia| |].
  { simpl in *. apply built_leaf. apply Hin. by left. }
  set (es := (k, v) :: e2 :: es') in *.
  assert (Hl : 2 ≤ length es) by (simpl; lia). pose proof (half_lt (length es) Hl) as Hmid.
  assert (Hb : buildLevel (S fuel) (leaf <$> es) =
    let l := buildLevel fuel (leaf <$> take (length es / 2) es) in
    let r := buildLevel fuel (leaf <$> drop (length es / 2) es) in
    MkNode (hashString (node_hash l +:+ node_hash r)) l r "").
  { cbn [buildLevel]. change (leaf <$> es) with (leaf (k, v) :: leaf e2 :: (leaf <$> es')).
    cbv iota. change (leaf (k, v) :: leaf e2 :: (leaf <$> es')) with (leaf <$> es).
    by rewrite length_fmap, <-fmap_take, <-fmap_drop. }
  assert (Hi : ∀ x, x ∈ level_inputs (S fuel) es ↔
    x ∈ (node_hash (buildLevel fuel (leaf <$> take (length es / 2) es)) +:+
         node_hash (buildLevel fuel (leaf <$> drop (length es / 2) es)))
      :: level_inputs fuel (take (length es / 2) es) ++ level_inputs fuel (drop (length es / 2) es)).
  { intros x. done. }
  rewrite Hb. cbv zeta. remember (length es / 2) as m eqn:Hm.
  pose proof (built_inner I (buildLevel fuel (leaf <$> take m es)) (buildLevel fuel (leaf <$> drop m es))
    (take m es) (drop m es)) as Hinner. rewrite take_drop in Hinner. apply Hinner.
  - apply IH; [rewrite length_take; lia|]. intros x Hx. apply Hin, Hi. right. apply elem_of_app. by left.
  - apply IH; [rewrite length_drop; lia|]. intros x Hx. apply Hin, Hi. right. apply elem_of_app. by right.
  - rewrite length_take, <-Hm. lia.
  - rewrite length_take. lia.
  - apply Hin, Hi. by left.
Qed.

Definition keys_ok (es : list (string * string)) : Prop :=
  ∀ k, k ∈ es.*1 → k ≠ "" ∧ str_in equals k = false.

Lemma keys_ok_app xs ys : keys_ok (xs ++ ys) ↔ keys_ok xs ∧ keys_ok ys.
Proof.
  unfold keys_ok. rewrite fmap_app. setoid_rewrite elem_of_app. naive_solver.
Qed.

Lemma leaf_text_inj k1 v1 k2 v2 :
  str_in equals k1 = false → str_in equals k2 = false →
  leaf_text k1 v1 = leaf_text k2 v2 → k1 = k2 ∧ v1 = v2.
Proof.
  unfold leaf_text. revert k2. induction k1 as [|c k1 IH]; intros [|d k2] H1 H2 Heq; simpl in *.
  - by injection Heq.
  - injection Heq as <- _. done.
  - injection Heq as -> _. done.
  - apply orb_false_iff in H1 as [_ H1], H2 as [_ H2]. injection Heq as -> Heq.
    destruct (IH k2 H1 H2 Heq) as [-> ->]. done.
Qed.

Lemma leaf_text_has_equals k v : str_in equals (leaf_text k v) = true.
Proof. unfold leaf_text. rewrite !str_in_app. simpl. by rewrite orb_true_r. Qed.

Lemma built_hash_length I t es : built I t es → String.length (node_hash t) = 64.
Proof. destruct 1; apply hashString_length. Qed.

Lemma built_hash_not_equals I t es : built I t es → str_in equals (node_hash t) = false.
Proof. destruct 1; apply hashString_not_eq. Qed.

(** Equal digests prune equal contents. *)
Lemma same_hash I a xs : built I a xs → ∀ b ys,
  built I b ys → no_collisions I = true → keys_ok xs → keys_ok ys →
  node_hash a = node_hash b → xs = ys.
Proof.
  induction 1 as [k v Hin|l r xs1 xs2 Hl IHl Hr IHr Hlen Hpos Hin]; intros b ys Hb HI Hkx Hky Heq.
  - destruct Hb as [k' v' Hin'|l' r' ys1 ys2 Hl' Hr' _ _ Hin']; unfold leaf, leafHash in Heq; simpl in Heq.
    + apply (no_collisions_spec I) in Heq; [|done..]. simpl in Heq.
      apply leaf_text_inj in Heq as [-> ->]; [done|apply Hkx; simpl; set_solver|apply Hky; simpl; set_solver].
    + apply (no_collisions_spec I) in Heq; [|done..]. apply (f_equal (str_in equals)) in Heq. simpl in Heq.
      rewrite leaf_text_has_equals, str_in_app in Heq.
      by rewrite (built_hash_not_equals _ _ _ Hl'), (built_hash_not_equals _ _ _ Hr') in Heq.
  - destruct Hb as [k' v' Hin'|l' r' ys1 ys2 Hl' Hr' _ _ Hin']; unfold leaf, leafHash in Heq; simpl in Heq.
    + apply (no_collisions_spec I) in Heq; [|done..]. apply (f_equal (str_in equals)) in Heq. simpl in Heq.
      rewrite leaf_text_has_equals, str_in_app in Heq.
      by rewrite (built_hash_not_equals _ _ _ Hl), (built_hash_not_equals _ _ _ Hr) in Heq.
    + apply (no_collisions_spec I) in Heq; [|done..].
      apply str_app_inj in Heq as [H1 H2];
        [|by rewrite (built_hash_length _ _ _ Hl), (built_hash_length _ _ _ Hl')].
      apply keys_ok_app in Hkx as [? ?], Hky as [? ?]. by rewrite (IHl l' ys1), (IHr r' ys2).
Qed.
Lemma built_nonempty I t es : built I t es → es ≠ [].
Proof. intros []; [done|]. by destruct xs; [simpl in *; lia|]. Qed.

Lemma built_not_nil I t es : built I t es → is_nil t = false.
Proof. by destruct 1. Qed.

Lemma inner_not_leaf I h l r k xs : built I l xs → isLeaf (MkNode h l r k) = false.
Proof. intros Hl. simpl. by rewrite (built_not_nil _ _ _ Hl). Qed.

Lemma leaf_isLeaf h k : k ≠ "" → isLeaf (MkNode h Nil Nil k) = true.
Proof. intros Hk. simpl. by apply negb_true_iff, String.eqb_neq. Qed.

(** Unfolding the collectors at a leaf and at an inner node. *)
Lemma collectLeafHashes_unfold h l r k out :
  collectLeafHashes (MkNode h l r k) out =
    if isLeaf (MkNode h l r k) then <[k := h]> out else collectLeafHashes r (collectLeafHashes l out).
Proof. done. Qed.

Lemma collectKeySet_unfold h l r k out :
  collectKeySet (MkNode h l r k) out =
    if isLeaf (MkNode h l r k) then {[k]} ∪ out else collectKeySet r (collectKeySet l out).
Proof. done. Qed.

Definition entry_map (es : list (string * string)) : gmap string string := list_to_map es.

Lemma entry_map_None es k : entry_map es !! k = None ↔ k ∉ es.*1.
Proof. symmetry. apply not_elem_of_list_to_map. Qed.

Lemma entry_map_app xs ys k :
  entry_map (xs ++ ys) !! k = match entry_map xs !! k with Some v => Some v | None => entry_map ys !! k end.
Proof.
  unfold entry_map. rewrite list_to_map_app, lookup_union.
  by destruct (list_to_map xs !! k), (list_to_map ys !! k).
Qed.

Lemma collectKeySet_built I t es : built I t es → keys_ok es → ∀ out k,
  k ∈ collectKeySet t out ↔ k ∈ out ∨ k ∈ es.*1.
Proof.
  induction 1 as [k v Hin|l r xs ys Hl IHl Hr IHr _ _ _]; intros Hk out k'.
  - unfold leaf. rewrite collectKeySet_unfold.
    cbn [fst snd]. rewrite leaf_isLeaf by (apply Hk; by left). cbn [fst]. set_solver.
  - rewrite collectKeySet_unfold, (inner_not_leaf I _ _ _ _ xs) by done.
    apply keys_ok_app in Hk as [? ?]. rewrite IHr, IHl, fmap_app, elem_of_app by done. tauto.
Qed.

Lemma collectLeafHashes_built I t es : built I t es → keys_ok es → NoDup (es.*1) → ∀ out k,
  collectLeafHashes t out !! k =
    match entry_map es !! k with Some v => Some (leafHash k v) | None => out !! k end.
Proof.
  induction 1 as [k v Hin|l r xs ys Hl IHl Hr IHr _ _ _]; intros Hk Hnd out k'.
  - unfold leaf. rewrite collectLeafHashes_unfold.
    cbn [fst snd]. rewrite leaf_isLeaf by (apply Hk; by left). unfold entry_map. cbn.
    destruct (decide (k = k')) as [<-|].
    + by rewrite !lookup_insert_eq.
    + by rewrite !lookup_insert_ne, lookup_empty by done.
  - rewrite collectLeafHashes_unfold, (inner_not_leaf I _ _ _ _ xs) by done.
    apply keys_ok_app in Hk as [? ?]. rewrite fmap_app in Hnd. apply NoDup_app in Hnd as (? & Hdis & ?).
    rewrite IHr, IHl, entry_map_app by done.
    destruct (entry_map xs !! k') as [v|] eqn:E; [|done].
    assert (entry_map ys !! k' = None) as ->; [|done].
    apply entry_map_None, Hdis. destruct (decide (k' ∈ xs.*1)) as [|Hn]; [done|].
    apply entry_map_None in Hn. congruence.
Qed.

Lemma built_inputs I t es : built I t es → ∀ k v, (k, v) ∈ es → leaf_text k v ∈ I.
Proof.
  induction 1 as [k v Hin|l r xs ys Hl IHl Hr IHr _ _ _]; intros k' v'.
  - intros [= -> ->]%list_elem_of_singleton. done.
  - intros [?|?]%elem_of_app; eauto.
Qed.

Lemma sameKeys_spec I a xs b ys :
  built I a xs → built I b ys → keys_ok xs → keys_ok ys →
  sameKeys a b = true → ∀ k, k ∈ xs.*1 ↔ k ∈ ys.*1.
Proof.
  intros Ha Hb Hkx Hky. unfold sameKeys.
  destruct (Nat.eqb_spec (size (collectKeySet a ∅)) (size (collectKeySet b ∅))) as [Hsz|]; simpl; [|done].
  rewrite forallb_forall. intros Hall k.
  assert (Hsub : collectKeySet a ∅ ⊆ collectKeySet b ∅).
  { intros x Hx. specialize (Hall x). rewrite <-list_elem_of_In, elem_of_elements, bool_decide_eq_true in Hall.
    auto. }
  apply set_subseteq_size_eq in Hsub; [|lia].
  pose proof (collectKeySet_built I a xs Ha Hkx ∅ k) as H1.
  pose proof (collectKeySet_built I b ys Hb Hky ∅ k) as H2.
  rewrite Hsub in H1. set_solver.
Qed.

Lemma fold_diff {A} (P : string → A → bool) (m : gmap string A) (D : gset string) k :
  k ∈ map_fold (λ k x D, if P k x then D else {[k]} ∪ D) D m ↔
  k ∈ D ∨ match m !! k with Some x => P k x = false | None => False end.
Proof.
  apply (map_fold_weak_ind (λ r m, k ∈ r ↔
    k ∈ D ∨ match m !! k with Some x => P k x = false | None => False end)).
  - rewrite lookup_empty. tauto.
  - intros i x m' r Hi IH. destruct (decide (i = k)) as [->|Hne].
    + rewrite lookup_insert_eq. rewrite Hi in IH. destruct (P k x) eqn:E.
      * rewrite IH. intuition congruence.
      * rewrite elem_of_union, elem_of_singleton. tauto.
    + rewrite lookup_insert_ne by done. destruct (P i x); [done|]. rewrite <-IH. set_solver.
Qed.

Lemma map_fold_ext_bool {A B} (f g : string → A → B → B) b (m : gmap string A) :
  (∀ k x b, f k x b = g k x b) → map_fold f b m = map_fold g b m.
Proof.
  intros Hfg. rewrite !map_fold_foldr. induction (map_to_list m) as [|[k x] l IH]; [done|].
  simpl. by rewrite IH, Hfg.
Qed.

Lemma reconcile_spec a b D k :
  k ∈ reconcile a b D ↔ k ∈ D ∨ collectLeafHashes a ∅ !! k ≠ collectLeafHashes b ∅ !! k.
Proof.
  unfold reconcile. generalize (collectLeafHashes a ∅) as A. generalize (collectLeafHashes b ∅) as B.
  intros B A.
  rewrite (map_fold_ext_bool _ (λ k x D, if (match A !! k with Some _ => true | None => false end)
    then D else {[k]} ∪ D)) by (intros; by destruct (A !! _)).
  rewrite (fold_diff (λ k _, match A !! k with Some _ => true | None => false end)).
  rewrite (map_fold_ext_bool _ (λ k h D, if (match B !! k with Some bh => String.eqb bh h | None => false end)
    then D else {[k]} ∪ D)) by (intros; by destruct (B !! _)).
  rewrite (fold_diff (λ k h, match B !! k with Some bh => String.eqb bh h | None => false end)).
  destruct (A !! k) as [x|], (B !! k) as [y|]; try (intuition congruence).
  destruct (String.eqb_spec y x) as [->|]; intuition congruence.
Qed.
(** ** The diff *)

Record entries_ok (es : list (string * string)) : Prop := {
  eo_keys : keys_ok es;
  eo_nodup : NoDup (es.*1);
  eo_sorted : StronglySorted str_leb (es.*1);
}.

Lemma entries_ok_app xs ys : entries_ok (xs ++ ys) → entries_ok xs ∧ entries_ok ys.
Proof.
  intros [Hk Hnd Hs]. apply keys_ok_app in Hk as [? ?]. rewrite fmap_app in Hnd, Hs.
  apply NoDup_app in Hnd as (? & _ & ?).
  pose proof (StronglySorted_app_1_l _ _ _ Hs). pose proof (StronglySorted_app_1_r _ _ _ Hs).
  by split; split.
Qed.

(** The leaf digests differ exactly where the values do. *)
Lemma leaf_hashes_differ I a xs b ys k :
  built I a xs → built I b ys → no_collisions I = true → entries_ok xs → entries_ok ys →
  collectLeafHashes a ∅ !! k ≠ collectLeafHashes b ∅ !! k ↔ entry_map xs !! k ≠ entry_map ys !! k.
Proof.
  intros Ha Hb HI [Hkx Hndx _] [Hky Hndy _].
  rewrite (collectLeafHashes_built I a xs), (collectLeafHashes_built I b ys), !lookup_empty by done.
  destruct (entry_map xs !! k) as [v|] eqn:Ex, (entry_map ys !! k) as [w|] eqn:Ey; try (intuition congruence).
  enough (Hiff : leafHash k v = leafHash k w ↔ v = w)
    by (split; intros Hne Heq; apply Hne; f_equal; apply Hiff; congruence).
  split; [|by intros ->]. intros Heq. apply elem_of_list_to_map in Ex, Ey; [|done..].
  unfold leafHash in Heq. apply (no_collisions_spec I) in Heq;
    [|done|by apply (built_inputs I a xs)|by apply (built_inputs I b ys)].
  assert (Hk : str_in equals k = false) by (apply Hkx, list_elem_of_fmap; by exists (k, v)).
  by apply leaf_text_inj in Heq as [_ ?].
Qed.

(** With the same keys the two halves line up. *)
Lemma halves_align (xs1 xs2 ys1 ys2 : list (string * string)) :
  (xs1 ++ xs2).*1 = (ys1 ++ ys2).*1 →
  length xs1 = length (xs1 ++ xs2) / 2 → length ys1 = length (ys1 ++ ys2) / 2 →
  xs1.*1 = ys1.*1 ∧ xs2.*1 = ys2.*1.
Proof.
  intros Heq Hx Hy. pose proof (f_equal length Heq) as Hlen. rewrite !length_fmap in Hlen.
  rewrite !fmap_app in Heq. apply app_inj_1 in Heq; [done|]. rewrite !length_fmap. congruence.
Qed.

Lemma differ_app xs1 xs2 ys1 ys2 k :
  NoDup ((xs1 ++ xs2).*1) → xs1.*1 = ys1.*1 → xs2.*1 = ys2.*1 →
  entry_map (xs1 ++ xs2) !! k ≠ entry_map (ys1 ++ ys2) !! k ↔
  entry_map xs1 !! k ≠ entry_map ys1 !! k ∨ entry_map xs2 !! k ≠ entry_map ys2 !! k.
Proof.
  intros Hnd H1 H2. rewrite !entry_map_app. rewrite fmap_app in Hnd.
  apply NoDup_app in Hnd as (_ & Hdis & _). destruct (decide (k ∈ xs1.*1)) as [Hin|Hn].
  - pose proof (Hdis k Hin) as Hn2. pose proof Hn2 as Hn2'. rewrite H2 in Hn2'.
    apply entry_map_None in Hn2, Hn2'. rewrite Hn2, Hn2'.
    destruct (entry_map xs1 !! k), (entry_map ys1 !! k); intuition congruence.
  - pose proof Hn as Hn'. rewrite H1 in Hn'. apply entry_map_None in Hn, Hn'. rewrite Hn, Hn'.
    intuition congruence.
Qed.

Lemma diffNodes_unfold ha la ra ka hb lb rb kb D :
  diffNodes (MkNode ha la ra ka) (MkNode hb lb rb kb) D =
    if String.eqb ha hb then D
    else if negb (isLeaf (MkNode ha la ra ka)) && negb (isLeaf (MkNode hb lb rb kb)) &&
            sameKeys (MkNode ha la ra ka) (MkNode hb lb rb kb)
    then diffNodes ra rb (diffNodes la lb D)
    else reconcile (MkNode ha la ra ka) (MkNode hb lb rb kb) D.
Proof. done. Qed.

Lemma same_keys_list I a xs b ys :
  built I a xs → built I b ys → entries_ok xs → entries_ok ys → sameKeys a b = true → xs.*1 = ys.*1.
Proof.
  intros Ha Hb [? ? ?] [? ? ?] Hs. apply sorted_strings_unique; try done.
  by apply (sameKeys_spec I a xs b ys).
Qed.

Lemma diffNodes_spec I a xs : built I a xs → ∀ b ys D k,
  built I b ys → no_collisions I = true → entries_ok xs → entries_ok ys →
  k ∈ diffNodes a b D ↔ k ∈ D ∨ entry_map xs !! k ≠ entry_map ys !! k.
Proof.
  induction 1 as [k v Hin|l r xs1 xs2 Hl IHl Hr IHr Hlen Hpos Hin]; intros b ys D k' Hb HI Hx Hy.
  - assert (Ha : built I (leaf (k, v)) [(k, v)]) by by constructor.
    assert (Hd : diffNodes (leaf (k, v)) b D =
      if String.eqb (leafHash k v) (node_hash b) then D else reconcile (leaf (k, v)) b D).
    { destruct Hb; unfold leaf; rewrite diffNodes_unfold; cbn [fst snd];
        rewrite leaf_isLeaf by (apply Hx; by left); done. }
    rewrite Hd. destruct (String.eqb_spec (leafHash k v) (node_hash b)) as [Heq|].
    + rewrite (same_hash I _ _ Ha b ys Hb HI (eo_keys _ Hx) (eo_keys _ Hy) Heq). tauto.
    + rewrite reconcile_spec, (leaf_hashes_differ I _ [(k, v)] _ ys) by done. done.
  - set (a := MkNode (hashString (node_hash l +:+ node_hash r)) l r "").
    assert (Ha : built I a (xs1 ++ xs2)) by by constructor.
    assert (Hrec : k' ∈ reconcile a b D ↔ k' ∈ D ∨ entry_map (xs1 ++ xs2) !! k' ≠ entry_map ys !! k').
    { by rewrite reconcile_spec, (leaf_hashes_differ I a (xs1 ++ xs2) b ys). }
    assert (Heqh : node_hash a = node_hash b → xs1 ++ xs2 = ys).
    { intros Heq. by apply (same_hash I a _ Ha b ys Hb HI (eo_keys _ Hx) (eo_keys _ Hy)). }
    assert (Hkeys : sameKeys a b = true → (xs1 ++ xs2).*1 = ys.*1) by by apply (same_keys_list I).
    destruct Hb as [kb vb Hinb|lb rb ys1 ys2 Hlb Hrb Hlenb Hposb Hinb].
    + unfold leaf, a in *. rewrite diffNodes_unfold. cbn [fst snd node_hash] in *.
      rewrite (leaf_isLeaf _ kb) by (apply Hy; by left). rewrite andb_false_r. cbn [andb].
      destruct (String.eqb_spec (hashString (node_hash l +:+ node_hash r)) (leafHash kb vb)) as [Heq|]; [|done].
      rewrite <-(Heqh Heq). tauto.
    + unfold a in *. rewrite diffNodes_unfold. cbn [node_hash] in *.
      destruct (String.eqb_spec (hashString (node_hash l +:+ node_hash r))
        (hashString (node_hash lb +:+ node_hash rb))) as [Heq|]; [rewrite <-(Heqh Heq); tauto|].
      rewrite (inner_not_leaf I _ l r _ xs1), (inner_not_leaf I _ lb rb _ ys1) by done. cbn [negb andb].
      destruct (sameKeys _ _) eqn:Es; [|done].
      destruct (halves_align xs1 xs2 ys1 ys2 (Hkeys eq_refl) Hlen Hlenb) as [H1 H2].
      pose proof (eo_nodup _ Hx) as Hnd.
      apply entries_ok_app in Hx as [Hx1 Hx2], Hy as [Hy1 Hy2].
      rewrite (IHr rb ys2), (IHl lb ys1), differ_app by done. tauto.
Qed.

(** ** Whole stores *)

Definition store_ok (kv : gmap string string) : Prop :=
  ∀ k v, kv !! k = Some v → k ≠ "" ∧ str_in equals k = false.

Lemma sorted_entries_keys kv : (sorted_entries kv).*1 = sort_strings ((map_to_list kv).*1).
Proof.
  unfold sorted_entries. rewrite <-list_fmap_compose.
  rewrite <-(list_fmap_id (sort_strings _)) at 2. by apply list_fmap_ext.
Qed.

Lemma elem_of_sorted_keys kv k : k ∈ (sorted_entries kv).*1 ↔ is_Some (kv !! k).
Proof.
  rewrite sorted_entries_keys, elem_of_sort_strings, list_elem_of_fmap. split.
  - intros ([k' v] & -> & Hin%elem_of_map_to_list). eauto.
  - intros [v Hv]. exists (k, v). by rewrite elem_of_map_to_list.
Qed.

Lemma sorted_entries_ok kv : store_ok kv → entries_ok (sorted_entries kv).
Proof.
  intros Hkv. split.
  - intros k [v Hv]%elem_of_sorted_keys. by eapply Hkv.
  - rewrite sorted_entries_keys. apply NoDup_sort_strings, NoDup_fst_map_to_list.
  - rewrite sorted_entries_keys. apply sort_strings_sorted.
Qed.

Lemma entry_map_sorted kv k : entry_map (sorted_entries kv) !! k = kv !! k.
Proof.
  destruct (kv !! k) as [v|] eqn:E.
  - apply elem_of_list_to_map.
    + rewrite sorted_entries_keys. apply NoDup_sort_strings, NoDup_fst_map_to_list.
    + apply list_elem_of_fmap. exists k. rewrite E. split; [done|].
      rewrite elem_of_sort_strings, list_elem_of_fmap. exists (k, v). by rewrite elem_of_map_to_list.
  - apply entry_map_None. rewrite elem_of_sorted_keys, E. by intros [].
Qed.

Lemma BuildTree_cases kv I :
  (∀ x, x ∈ hashed_by kv → x ∈ I) →
  (kv = ∅ ∧ BuildTree kv = MkNode emptyRootHash Nil Nil "") ∨
  (kv ≠ ∅ ∧ built I (BuildTree kv) (sorted_entries kv)).
Proof.
  intros HI. unfold BuildTree. case_bool_decide as Hsz.
  - left. by apply map_size_empty_inv in Hsz.
  - right. split; [intros ->; by rewrite map_size_empty in Hsz|].
    rewrite length_fmap. apply buildLevel_built; [|done]. split; [|done].
    destruct (sorted_entries kv) as [|e es] eqn:E; [|simpl; lia]. exfalso. apply Hsz, map_size_empty_iff.
    apply map_eq. intros k. rewrite lookup_empty. apply eq_None_not_Some. intros Hk%elem_of_sorted_keys.
    rewrite E in Hk. by apply elem_of_nil in Hk.
Qed.

Lemma empty_hash_differs I t es : built I t es → String.eqb emptyRootHash (node_hash t) = false.
Proof.
  intros Ht. apply String.eqb_neq. intros Heq. apply built_hash_length in Ht. by rewrite <-Heq in Ht.
Qed.

Definition empty_root : Node := MkNode emptyRootHash Nil Nil "".

Lemma sameKeys_empty I t es :
  built I t es → keys_ok es → sameKeys empty_root t = false ∧ sameKeys t empty_root = false.
Proof.
  intros Ht Hk. assert (Hsz : size (collectKeySet t ∅) ≠ 0).
  { intros Hz%size_empty_inv. destruct es as [|[k v] es]; [by apply built_nonempty in Ht|].
    pose proof (collectKeySet_built I t _ Ht Hk ∅ k) as Hin. set_solver. }
  unfold sameKeys, empty_root. cbn -[size].
  destruct (Nat.eqb_spec (size (collectKeySet t ∅)) (size (∅ : gset string))) as [Hz|];
    [by rewrite size_empty in Hz|].
  by rewrite Nat.eqb_sym, (proj2 (Nat.eqb_neq _ _)).
Qed.

(** Against the empty store everything differs. *)
Lemma diffNodes_empty I t es k :
  built I t es → entries_ok es →
  (k ∈ diffNodes empty_root t ∅ ↔ entry_map es !! k ≠ None) ∧
  (k ∈ diffNodes t empty_root ∅ ↔ entry_map es !! k ≠ None).
Proof.
  intros Ht [Hk Hnd _]. pose proof (empty_hash_differs I t es Ht) as Hne.
  destruct (sameKeys_empty I t es Ht Hk) as [Hs1 Hs2].
  pose proof (collectLeafHashes_built I t es Ht Hk Hnd ∅ k) as Hc. rewrite lookup_empty in Hc.
  assert (Hr : (k ∈ reconcile empty_root t ∅ ↔ entry_map es !! k ≠ None) ∧
    (k ∈ reconcile t empty_root ∅ ↔ entry_map es !! k ≠ None)).
  { rewrite !reconcile_spec, Hc. cbn. rewrite lookup_empty.
    destruct (entry_map es !! k); set_solver. }
  destruct t as [|h l r key]; [by inversion Ht|]. cbn [node_hash] in Hne.
  unfold empty_root in *. rewrite !diffNodes_unfold. rewrite Hs1, Hs2, !andb_false_r.
  rewrite (String.eqb_sym h), Hne. done.
Qed.

Lemma Diff_spec kv1 kv2 k :
  store_ok kv1 → store_ok kv2 → no_collisions (hashed_by kv1 ++ hashed_by kv2) = true →
  k ∈ Diff (BuildTree kv1) (BuildTree kv2) ↔ kv1 !! k ≠ kv2 !! k.
Proof.
  intros H1 H2 HI. unfold Diff. rewrite elem_of_sort_strings, elem_of_elements.
  set (I := hashed_by kv1 ++ hashed_by kv2) in *.
  pose proof (sorted_entries_ok kv1 H1) as Hx. pose proof (sorted_entries_ok kv2 H2) as Hy.
  destruct (BuildTree_cases kv1 I ltac:(subst I; set_solver)) as [[-> Ea]|[_ Ha]],
    (BuildTree_cases kv2 I ltac:(subst I; set_solver)) as [[-> Eb]|[_ Hb]].
  - by rewrite Ea.
  - rewrite Ea. destruct (diffNodes_empty I _ _ k Hb Hy) as [H _]. unfold empty_root in H.
    rewrite H, entry_map_sorted, lookup_empty. by destruct (kv2 !! k).
  - rewrite Eb. destruct (diffNodes_empty I _ _ k Ha Hx) as [_ H]. unfold empty_root in H.
    by rewrite H, entry_map_sorted, lookup_empty.
  - rewrite (diffNodes_spec I _ _ Ha _ _ ∅ k Hb HI Hx Hy), !entry_map_sorted. set_solver.
Qed.

End Merkle.

Import Merkle.


Definition demo_kv1 : gmap string string := {["a" := "1"; "b" := "2"]}.
Definition demo_kv2 : gmap string string := {["b" := "2"]}.

Lemma store_ok_check kv :
  forallb (λ '(k, _), negb (String.eqb k "") && negb (str_in equals k)) (map_to_list kv) = true →
  store_ok kv.
Proof.
  rewrite forallb_forall. intros H k v Hk%elem_of_map_to_list%list_elem_of_In.
  specialize (H _ Hk). simpl in H. apply andb_true_iff in H as [Hk1 Hk2].
  by apply negb_true_iff, String.eqb_neq in Hk1; apply negb_true_iff in Hk2.
Qed.


(** What the leaf encoding loses: the text [key=value] does not determine the key when keys may
    contain an equals sign, so two stores without a single key in common get the same tree and
    [Diff] reports nothing; and a leaf with the empty key is not a leaf for [isLeaf], so its value
    can diverge without ever being reported. *)
Theorem merkle_diff_misses :
  let kv1 : gmap string string := {["a=b" := "c"]} in
  let kv2 : gmap string string := {["a" := "b=c"]} in
  let kv3 : gmap string string := {["" := "x"]} in
  let kv4 : gmap string string := {["" := "y"]} in
  kv1 ##ₘ kv2 ∧ Diff (BuildTree kv1) (BuildTree kv2) = [] ∧
  kv3 ≠ kv4 ∧ Diff (BuildTree kv3) (BuildTree kv4) = [].
Proof.
  split_and!.
  - apply map_disjoint_singleton_l. by rewrite lookup_singleton_ne.
  - vm_compute. reflexivity.
  - intros Heq%(f_equal (lookup "")). by rewrite !lookup_singleton_eq in Heq.
  - vm_compute. reflexivity.
Qed.
