(* ===== verification/Linearizability.v ===== *)
(** * The linearizability checker

    Models [src/internal/checker/linearizability.go]: the Wing and Gong search over the operations of
    one register per key.  The closure [search] recurses once per placed operation; the flags of the
    remaining operations are restored before every return, so they are passed as an argument, and
    the operation to blame is threaded through. *)

From S2P Require Import Prelude.

Module Lin.

Inductive OpKind := OpWrite | OpRead | OpOther.

Record Op := MkOp {
  ClientID : string;
  Kind : OpKind;
  Value : string;
  Key : string;
  Invoke : Z;
  Complete : Z;
}.

#[export] Instance OpKind_eq_dec : EqDecision OpKind.
Proof. solve_decision. Defined.
#[export] Instance Op_eq_dec : EqDecision Op.
Proof. solve_decision. Defined.

Record History := MkHistory { ops : list Op }.

Definition Record_ (h : History) (op : Op) : History := MkHistory (ops h ++ [op]).

Definition Ops (h : History) : list Op := ops h.

Definition op_leb (x y : Op) : bool :=
  if negb (Invoke x =? Invoke y)%Z then (Invoke x <? Invoke y)%Z
  else negb (Complete y <? Complete x)%Z.

Definition maxInt64 : Z := 9223372036854775807.

Definition minComplete (os : list Op) (remaining : list bool) : Z :=
  foldl (λ m '(op, r), if (r : bool) && (Complete op <? m)%Z then Complete op else m)
    maxInt64 (zip os remaining).

(** The effect of an operation on the register: [None] for a read of another value. *)
Definition apply (op : Op) (current : string) : option string :=
  match Kind op with
  | OpWrite => Some (Value op)
  | OpRead => if String.eqb (Value op) current then Some current else None
  | OpOther => Some current
  end.

(** The loop over the candidates; [recurse] is the recursive call of [search]. *)
Fixpoint try_from (recurse : list bool → string → option Op → bool * option Op) (minC : Z)
    (os : list Op) (remaining : list bool) (current : string) (js : list nat) (blame : option Op)
  : bool * option Op :=
  match js with
  | [] => (false, blame)
  | i :: js =>
      match os !! i, remaining !! i with
      | Some op, Some true =>
          if (minC <? Invoke op)%Z then try_from recurse minC os remaining current js blame
          else
            match apply op current with
            | None => try_from recurse minC os remaining current js (Some op)
            | Some next =>
                match recurse (<[i := false]> remaining) next blame with
                | (true, blame) => (true, blame)
                | (false, blame) => try_from recurse minC os remaining current js blame
                end
            end
      | _, _ => try_from recurse minC os remaining current js blame
      end
  end.

Fixpoint search (fuel : nat) (os : list Op) (remaining : list bool) (current : string) (count : nat)
    (blame : option Op) : bool * option Op :=
  match fuel with
  | 0 => (false, blame)
  | S fuel =>
      if count =? length os then (true, blame)
      else
        try_from (λ remaining next blame, search fuel os remaining next (S count) blame)
          (minComplete os remaining) os remaining current (seq 0 (length os)) blame
  end.

Definition linearizeKey (sub : list Op) : bool * option Op :=
  let os := isort op_leb sub in
  match search (S (length os)) os (replicate (length os) true) "" 0 None with
  | (true, _) => (true, None)
  | (false, Some op) => (false, Some op)
  | (false, None) => (false, os !! 0)
  end.

(** Partition by key, remembering the keys in order of appearance. *)
Definition partition_step (st : gmap string (list Op) * list string) (op : Op)
  : gmap string (list Op) * list string :=
  let '(byKey, keys) := st in
  (<[Key op := default [] (byKey !! Key op) ++ [op]]> byKey,
   match byKey !! Key op with None => keys ++ [Key op] | Some _ => keys end).

Fixpoint check_keys (byKey : gmap string (list Op)) (keys : list string) : bool * option Op :=
  match keys with
  | [] => (true, None)
  | key :: keys =>
      match linearizeKey (default [] (byKey !! key)) with
      | (true, _) => check_keys byKey keys
      | (false, bad) => (false, bad)
      end
  end.

Definition CheckRegister (os : list Op) : bool * option Op :=
  let '(byKey, keys) := foldl partition_step (∅, []) os in
  check_keys byKey (sort_strings keys).

(** ** Linearizability *)

(** A sequential order of operations a register starting from [current] can execute. *)
Fixpoint legal (current : string) (l : list Op) : Prop :=
  match l with
  | [] => True
  | op :: l => match apply op current with Some next => legal next l | None => False end
  end.

(** No operation is placed after one that it completed before. *)
Fixpoint real_time (l : list Op) : Prop :=
  match l with
  | [] => True
  | op :: l => Forall (λ op', (Invoke op ≤ Complete op')%Z) l ∧ real_time l
  end.

Definition linearizable_from (current : string) (os : list Op) : Prop :=
  ∃ l, l ≡ₚ os ∧ real_time l ∧ legal current l.

Definition linearizable (os : list Op) : Prop := linearizable_from "" os.

Definition op_ok (op : Op) : Prop := (Invoke op ≤ Complete op ≤ maxInt64)%Z.

(** ** The remaining operations *)

Fixpoint rest (os : list Op) (remaining : list bool) : list Op :=
  match os, remaining with
  | op :: os, r :: remaining => (if r then [op] else []) ++ rest os remaining
  | _, _ => []
  end.

Lemma rest_pick os : ∀ remaining i op,
  os !! i = Some op → remaining !! i = Some true →
  rest os remaining ≡ₚ op :: rest os (<[i := false]> remaining).
Proof.
  induction os as [|o os IH]; intros [|r remaining] [|i] op Ho Hr; simpl in *; try done.
  - by injection Ho as ->; injection Hr as ->.
  - rewrite (IH remaining i op Ho Hr). destruct r; simpl; [apply perm_swap|done].
Qed.

Lemma elem_of_rest os : ∀ remaining op,
  op ∈ rest os remaining ↔ ∃ i, os !! i = Some op ∧ remaining !! i = Some true.
Proof.
  induction os as [|o os IH]; intros [|r remaining] op; simpl.
  - rewrite elem_of_nil. split; [done|]. by intros (i & Hi & _).
  - rewrite elem_of_nil. split; [done|]. by intros (i & Hi & _).
  - rewrite elem_of_nil. split; [done|]. by intros (i & _ & Hi).
  - rewrite elem_of_app, IH. split.
    + intros [Hin|(i & ? & ?)]; [|by exists (S i)]. destruct r; [|by apply elem_of_nil in Hin].
      apply list_elem_of_singleton in Hin as ->. by exists 0.
    + intros ([|i] & Ho & Hr); simpl in *; [left|right; eauto].
      injection Ho as ->; injection Hr as ->. by left.
Qed.

Lemma rest_all os : rest os (replicate (length os) true) = os.
Proof. induction os as [|o os IH]; simpl; [done|]. by rewrite IH. Qed.

Lemma rest_nil os : ∀ remaining, length remaining = length os → rest os remaining = [] →
  ∀ i, remaining !! i ≠ Some true.
Proof.
  intros remaining Hlen Hnil i Hi.
  destruct (lookup_lt_is_Some_2 os i) as [op Hop]; [rewrite <-Hlen; by eapply lookup_lt_Some|].
  assert (op ∈ rest os remaining) as Hin by (apply elem_of_rest; eauto).
  rewrite Hnil in Hin. by apply elem_of_nil in Hin.
Qed.

Lemma minComplete_spec os remaining t :
  (t ≤ minComplete os remaining)%Z ↔
  (t ≤ maxInt64)%Z ∧ ∀ op, op ∈ rest os remaining → (t ≤ Complete op)%Z.
Proof.
  unfold minComplete. generalize maxInt64 as m. revert remaining.
  induction os as [|o os IH]; intros [|r remaining] m; simpl; try (set_solver).
  rewrite IH. destruct r; simpl.
  - setoid_rewrite elem_of_cons. destruct (Z.ltb_spec (Complete o) m); naive_solver lia.
  - done.
Qed.

(** ** The search decides linearizability of what remains *)

Section search.
Context (os : list Op) (os_ok : Forall op_ok os).

(** Which operations may be placed next, and that one of them is, in any linearization. *)
Definition candidate (remaining : list bool) (current : string) (i : nat) : Prop :=
  ∃ op next, os !! i = Some op ∧ remaining !! i = Some true ∧
    (Invoke op ≤ minComplete os remaining)%Z ∧ apply op current = Some next ∧
    linearizable_from next (rest os (<[i := false]> remaining)).

Lemma linearizable_candidate remaining current :
  rest os remaining ≠ [] →
  linearizable_from current (rest os remaining) ↔ ∃ i, candidate remaining current i.
Proof using os_ok.
  intros Hne. split.
  - intros (l & Hp & Hrt & Hleg). destruct l as [|op l]; [by apply Permutation_nil_l in Hp|].
    destruct Hrt as [Hall Hrt]. simpl in Hleg.
    destruct (apply op current) as [next|] eqn:Ea; [|done].
    assert (op ∈ rest os remaining) as (i & Ho & Hr)%elem_of_rest by (rewrite <-Hp; by left).
    exists i, op, next. split_and!; try done.
    + rewrite Forall_lookup in os_ok. pose proof (os_ok i op Ho) as Hok. unfold op_ok in Hok.
      apply minComplete_spec. split; [lia|].
      intros op'. rewrite <-Hp. intros [->|Hin]%elem_of_cons; [lia|].
      by eapply Forall_forall in Hall.
    + exists l. split_and!; [|done|done].
      rewrite (rest_pick os remaining i op Ho Hr) in Hp. by apply Permutation_cons_inv in Hp.
  - intros (i & op & next & Ho & Hr & Hmin & Ha & l & Hp & Hrt & Hleg).
    exists (op :: l). split_and!.
    + by rewrite (rest_pick os remaining i op Ho Hr), Hp.
    + split; [|done]. apply Forall_forall. intros op'. rewrite Hp. intros Hin.
      apply minComplete_spec in Hmin as [_ Hmin]. apply Hmin.
      rewrite (rest_pick os remaining i op Ho Hr). by right.
    + simpl. by rewrite Ha.
Qed.

Lemma length_rest_pick remaining i op :
  os !! i = Some op → remaining !! i = Some true →
  length (rest os remaining) = S (length (rest os (<[i := false]> remaining))).
Proof. intros Ho Hr. by rewrite (rest_pick os remaining i op Ho Hr). Qed.

(** The outcome of a search or of a loop: found, or not, and then only operations of the history
    are blamed. *)
Definition outcome (found : Prop) (blame : option Op) (r : bool * option Op) : Prop :=
  (r.1 = true ∧ found) ∨
  (r.1 = false ∧ ¬ found ∧ ∀ op, r.2 = Some op → blame = Some op ∨ op ∈ os).

Lemma outcome_iff (P Q : Prop) blame r : (P ↔ Q) → outcome P blame r → outcome Q blame r.
Proof. unfold outcome. tauto. Qed.

Lemma outcome_blame P blame1 blame2 r :
  (∀ op, blame2 = Some op → blame1 = Some op ∨ op ∈ os) → outcome P blame2 r → outcome P blame1 r.
Proof.
  intros Hb [H|(H1 & H2 & H3)]; [by left|right]. split_and!; [done..|].
  intros op Hop. destruct (H3 op Hop); auto.
Qed.

(** The loop looks for a candidate among the indices it is given. *)
Lemma try_from_correct recurse remaining current js : ∀ blame,
  (∀ i op next blame, os !! i = Some op → remaining !! i = Some true →
     outcome (linearizable_from next (rest os (<[i := false]> remaining))) blame
       (recurse (<[i := false]> remaining) next blame)) →
  outcome (∃ i, i ∈ js ∧ candidate remaining current i) blame
    (try_from recurse (minComplete os remaining) os remaining current js blame).
Proof.
  induction js as [|i js IH]; intros blame Hrec; simpl.
  { right. split_and!; [done| |by left]. by intros (i & ?%elem_of_nil & _). }
  assert (Hskip : ∀ blame2, ¬ candidate remaining current i →
    (∀ op, blame2 = Some op → blame = Some op ∨ op ∈ os) →
    outcome (∃ j, j ∈ i :: js ∧ candidate remaining current j) blame
      (try_from recurse (minComplete os remaining) os remaining current js blame2)).
  { intros blame2 Hno Hb. apply (outcome_blame _ _ blame2); [done|].
    eapply outcome_iff; [|by apply IH]. setoid_rewrite elem_of_cons. naive_solver. }
  destruct (os !! i) as [op|] eqn:Ho; last first.
  { apply Hskip; [|by left]. intros (? & ? & ? & _). congruence. }
  destruct (remaining !! i) as [[]|] eqn:Hr.
  2,3: apply Hskip; [|by left]; intros (? & ? & _ & ? & _); congruence.
  destruct (Z.ltb_spec (minComplete os remaining) (Invoke op)) as [Hlt|Hle].
  { apply Hskip; [|by left]. intros (op' & ? & Ho' & _ & Hmin & _).
    assert (op' = op) as -> by congruence. lia. }
  destruct (apply op current) as [next|] eqn:Ha; last first.
  { apply Hskip.
    - intros (op' & ? & Ho' & _ & _ & Ha' & _). assert (op' = op) as -> by congruence. congruence.
    - intros op' [= <-]. right. by eapply list_elem_of_lookup_2. }
  destruct (Hrec i op next blame Ho Hr) as [[Hs Hl]|(Hs & Hl & Hb)].
  - destruct (recurse _ next blame) as [[] blame']; [|done]. left. split; [done|].
    exists i. split; [by left|]. by exists op, next.
  - destruct (recurse _ next blame) as [[] blame']; [done|]. apply Hskip; [|done].
    intros (op' & next' & Ho' & _ & _ & Ha' & Hl'). assert (op' = op) as -> by congruence.
    assert (next' = next) as -> by congruence. done.
Qed.

Lemma search_correct fuel : ∀ remaining current count blame,
  length remaining = length os → count + length (rest os remaining) = length os →
  length (rest os remaining) < fuel →
  outcome (linearizable_from current (rest os remaining)) blame
    (search fuel os remaining current count blame).
Proof using os_ok.
  induction fuel as [|fuel IH]; intros remaining current count blame Hlen Hcount Hfuel; [lia|].
  cbn [search]. destruct (Nat.eqb_spec count (length os)) as [->|Hne].
  { left. split; [done|]. exists []. split_and!; [|done|done].
    by rewrite (nil_length_inv (rest os remaining)) by lia. }
  assert (Hnonempty : rest os remaining ≠ []).
  { intros Hnil. rewrite Hnil in Hcount. simpl in Hcount. lia. }
  eapply outcome_iff; [|apply try_from_correct].
  - rewrite (linearizable_candidate remaining current Hnonempty). split; [naive_solver|].
    intros (i & Hc). exists i. split; [|done]. destruct Hc as (op & _ & Ho & _).
    apply elem_of_seq. apply lookup_lt_Some in Ho. lia.
  - intros i op next blame' Ho Hr. pose proof (length_rest_pick remaining i op Ho Hr).
    apply IH; [by rewrite length_insert|lia|lia].
Qed.
End search.

Lemma linearizable_perm os1 os2 : os1 ≡ₚ os2 → linearizable os1 ↔ linearizable os2.
Proof. intros Hp. unfold linearizable, linearizable_from. by setoid_rewrite Hp. Qed.

Lemma linearizeKey_correct sub :
  Forall op_ok sub →
  (linearizeKey sub = (true, None) ∧ linearizable sub) ∨
  (∃ op, linearizeKey sub = (false, Some op) ∧ op ∈ sub ∧ ¬ linearizable sub).
Proof.
  intros Hok. unfold linearizeKey. set (os := isort op_leb sub).
  assert (Hp : os ≡ₚ sub) by apply isort_perm.
  assert (Hok' : Forall op_ok os) by (by rewrite Hp).
  pose proof (search_correct os Hok' (S (length os)) (replicate (length os) true) "" 0 None) as Hs.
  rewrite rest_all in Hs. specialize (Hs (length_replicate _ _) ltac:(lia) ltac:(lia)).
  fold (linearizable os) in Hs. apply (outcome_iff os _ _ _ _ (linearizable_perm os sub Hp)) in Hs.
  destruct (search _ _ _ _ _ _) as [[] blame]; destruct Hs as [[? Hl]|(? & Hl & Hb)]; simpl in *; try done.
  - by left.
  - right. destruct blame as [op|].
    + exists op. destruct (Hb op eq_refl) as [|Hin]; [done|]. rewrite Hp in Hin. done.
    + destruct os as [|op os'] eqn:E.
      * exfalso. apply Hl. exists []. by rewrite <-Hp.
      * exists op. split_and!; [done| |done]. rewrite <-Hp. by left.
Qed.

(** ** All keys *)

Definition sub_history (os : list Op) (k : string) : list Op := filter (λ op, Key op = k) os.

Lemma partition_spec os : ∀ byKey keys,
  (∀ k, k ∈ keys ↔ is_Some (byKey !! k)) →
  let '(byKey', keys') := foldl partition_step (byKey, keys) os in
  (∀ k, default [] (byKey' !! k) = default [] (byKey !! k) ++ sub_history os k) ∧
  (∀ k, k ∈ keys' ↔ is_Some (byKey' !! k)) ∧
  (∀ k, is_Some (byKey' !! k) ↔ is_Some (byKey !! k) ∨ sub_history os k ≠ []).
Proof.
  unfold sub_history. induction os as [|op os IH]; intros byKey keys Hk; simpl.
  { split_and!; [intros; by rewrite app_nil_r|done|naive_solver]. }
  specialize (IH (<[Key op := default [] (byKey !! Key op) ++ [op]]> byKey)
    (match byKey !! Key op with None => keys ++ [Key op] | Some _ => keys end)).
  destruct (foldl partition_step _ os) as [byKey' keys']. destruct IH as (H1 & H2 & H3).
  { intros k. destruct (decide (Key op = k)) as [<-|Hne].
    - rewrite lookup_insert_eq. destruct (byKey !! Key op) eqn:E.
      + rewrite Hk, E. naive_solver.
      + rewrite elem_of_app, list_elem_of_singleton. naive_solver.
    - rewrite lookup_insert_ne, <-Hk by done. destruct (byKey !! Key op); [done|]. set_solver. }
  split_and!; [|done|].
  - intros k. rewrite H1, filter_cons. destruct (decide (Key op = k)) as [<-|Hne].
    + rewrite lookup_insert_eq. simpl. by rewrite <-(assoc_L (++)).
    + by rewrite lookup_insert_ne.
  - intros k. rewrite H3, filter_cons. destruct (decide (Key op = k)) as [<-|Hne].
    + rewrite lookup_insert_eq. naive_solver.
    + by rewrite lookup_insert_ne.
Qed.

Lemma check_keys_correct byKey keys :
  (∀ k, Forall op_ok (default [] (byKey !! k))) →
  (check_keys byKey keys = (true, None) ∧ ∀ k, k ∈ keys → linearizable (default [] (byKey !! k))) ∨
  (∃ k op, check_keys byKey keys = (false, Some op) ∧ op ∈ default [] (byKey !! k) ∧
           ¬ linearizable (default [] (byKey !! k))).
Proof.
  intros Hok. induction keys as [|k keys IH]; simpl; [left; split; [done|set_solver]|].
  destruct (linearizeKey_correct _ (Hok k)) as [[-> Hl]|(op & -> & Hin & Hl)]; [|right; eauto].
  destruct IH as [[-> Hall]|?]; [left|by right]. split; [done|].
  intros k' [->|?]%elem_of_cons; auto.
Qed.

Lemma CheckRegister_correct os :
  Forall op_ok os →
  (CheckRegister os = (true, None) ∧ ∀ k, linearizable (sub_history os k)) ∨
  (∃ op, CheckRegister os = (false, Some op) ∧ op ∈ os ∧ ¬ linearizable (sub_history os (Key op))).
Proof.
  intros Hok. unfold CheckRegister. pose proof (partition_spec os ∅ []) as Hp.
  destruct (foldl partition_step (∅, []) os) as [byKey keys].
  destruct Hp as (H1 & H2 & H3); [intros k; rewrite lookup_empty, elem_of_nil; split; [done|by intros []]|].
  assert (Hsub : ∀ k, default [] (byKey !! k) = sub_history os k).
  { intros k. by rewrite H1, lookup_empty. }
  destruct (check_keys_correct byKey (sort_strings keys)) as [[-> Hall]|(k & op & -> & Hin & Hl)].
  - intros k. rewrite Hsub. apply Forall_forall. intros op [_ Hin]%list_elem_of_filter.
    by eapply Forall_forall in Hok.
  - left. split; [done|]. intros k. rewrite <-Hsub.
    destruct (byKey !! k) eqn:E; [|by exists []]. rewrite <-E.
    apply Hall, elem_of_sort_strings, H2. eauto.
  - right. rewrite Hsub in Hin, Hl. apply list_elem_of_filter in Hin as [<- Hin]. eauto.
Qed.

(** ** Locality: one order for the whole history

    Each operation gets a point in its interval, the latest invocation up to it in the order of
    its key; sorting all the operations by their points keeps every key's order and real time. *)

Fixpoint points (t : Z) (l : list Op) : list (Z * Op) :=
  match l with
  | [] => []
  | op :: l => let t := Z.max t (Invoke op) in (t, op) :: points t l
  end.

Definition point_leb (x y : Z * Op) : bool := (x.1 <=? y.1)%Z.
Definition point_le (x y : Z * Op) : Prop := (x.1 ≤ y.1)%Z.
Definition in_interval (x : Z * Op) : Prop := (Invoke x.2 ≤ x.1 ≤ Complete x.2)%Z.

Lemma points_ops t l : (points t l).*2 = l.
Proof. revert t. induction l as [|op l IH]; intros t; simpl; [done|]. by rewrite IH. Qed.

Lemma points_ge t l x : x ∈ points t l → (t ≤ x.1)%Z.
Proof.
  revert t. induction l as [|op l IH]; intros t; simpl; [by intros ?%elem_of_nil|].
  intros [->|Hin]%elem_of_cons; simpl; [lia|]. apply IH in Hin. lia.
Qed.

Lemma points_sorted t l : StronglySorted point_le (points t l).
Proof.
  revert t. induction l as [|op l IH]; intros t; simpl; constructor; [done|].
  apply Forall_forall. intros x Hx. by apply points_ge in Hx.
Qed.

Lemma points_in_interval l : ∀ t,
  real_time l → Forall op_ok l → Forall (λ op, (t ≤ Complete op)%Z) l →
  Forall in_interval (points t l).
Proof.
  induction l as [|op l IH]; intros t Hrt Hok Ht; simpl; constructor.
  - unfold in_interval; simpl. apply Forall_cons in Hok as [Hop _], Ht as [Ht _].
    unfold op_ok in Hop. lia.
  - destruct Hrt as [Hall Hrt]. apply Forall_cons in Hok as [_ ?], Ht as [_ Ht].
    apply IH; [done|done|]. rewrite Forall_forall in Ht, Hall |- *. intros op' Hin.
    specialize (Ht op' Hin). specialize (Hall op' Hin). simpl in *. lia.
Qed.

Lemma real_time_points ps :
  StronglySorted point_le ps → Forall in_interval ps → real_time (ps.*2).
Proof.
  induction 1 as [|x ps Hs IH Hx]; intros Hin; simpl; [done|].
  apply Forall_cons in Hin as [Hix Hin]. split; [|auto]. apply Forall_fmap, Forall_forall.
  intros y Hy. rewrite Forall_forall in Hx, Hin. specialize (Hx y Hy). specialize (Hin y Hy).
  unfold in_interval, point_le in *. simpl. lia.
Qed.

Lemma insert_sorted_filter (P : Z * Op → Prop) `{!∀ x, Decision (P x)} x l :
  StronglySorted point_le l →
  filter P (insert_sorted point_leb x l) =
    if decide (P x) then insert_sorted point_leb x (filter P l) else filter P l.
Proof.
  induction 1 as [|y l Hs IH Hy]; simpl; [by rewrite filter_cons|].
  unfold point_leb at 1. destruct (Z.leb_spec x.1 y.1) as [Hle|Hgt].
  - rewrite filter_cons. case_decide as HP; [|done].
    destruct (filter P (y :: l)) as [|z l'] eqn:Ez; [done|]. simpl.
    assert (Hz : z ∈ y :: l).
    { assert (z ∈ filter P (y :: l)) as [_ ?]%list_elem_of_filter by (rewrite Ez; by left). done. }
    unfold point_leb. destruct (Z.leb_spec x.1 z.1); [done|].
    apply elem_of_cons in Hz as [->|Hz]; [lia|]. rewrite Forall_forall in Hy.
    specialize (Hy z Hz). unfold point_le in Hy. lia.
  - rewrite !filter_cons, IH. repeat case_decide; try done. simpl. unfold point_leb at 2.
    by destruct (Z.leb_spec x.1 y.1); [lia|].
Qed.

Lemma isort_points_sorted l : StronglySorted point_le (isort point_leb l).
Proof.
  pose proof (isort_sorted point_leb) as H.
  assert (StronglySorted point_leb (isort point_leb l)) as Hs.
  { apply H; unfold point_leb; intros *; rewrite ?Z.leb_le; lia. }
  induction Hs as [|x l' _ IH Hx]; constructor; [done|].
  eapply Forall_impl; [exact Hx|]. intros y Hy%Is_true_true. by apply Z.leb_le in Hy.
Qed.

Lemma isort_filter (P : Z * Op → Prop) `{!∀ x, Decision (P x)} l :
  filter P (isort point_leb l) = isort point_leb (filter P l).
Proof.
  induction l as [|x l IH]; [done|]. simpl. rewrite insert_sorted_filter by apply isort_points_sorted.
  rewrite filter_cons, IH. by case_decide.
Qed.

Lemma isort_id l : StronglySorted point_le l → isort point_leb l = l.
Proof.
  induction 1 as [|x l _ IH Hx]; [done|]. simpl. rewrite IH. destruct l as [|y l]; [done|]. simpl.
  apply Forall_cons in Hx as [Hxy _]. unfold point_leb, point_le in *. by destruct (Z.leb_spec x.1 y.1); [|lia].
Qed.

(** An order of the whole history for an array of registers. *)
Definition globally_linearizable (os : list Op) : Prop :=
  ∃ l, l ≡ₚ os ∧ real_time l ∧ ∀ k, legal "" (sub_history l k).

Lemma real_time_filter (P : Op → Prop) `{!∀ x, Decision (P x)} l : real_time l → real_time (filter P l).
Proof.
  induction l as [|op l IH]; [done|]. intros [Hall Hrt]. rewrite filter_cons. case_decide; [|auto].
  split; [|auto]. apply Forall_forall. intros op' [_ Hin]%list_elem_of_filter.
  by eapply Forall_forall in Hall.
Qed.

(** The keys one by one, each with the order found for it. *)
Lemma merge_keys os (keys : list string) :
  Forall op_ok os → NoDup keys → (∀ k, k ∈ keys → linearizable (sub_history os k)) →
  ∃ ps, Forall in_interval ps ∧ ps.*2 ≡ₚ filter (λ op, Key op ∈ keys) os ∧
    ∀ k, StronglySorted point_le (filter (λ x, Key x.2 = k) ps) ∧
         legal "" (sub_history (ps.*2) k).
Proof.
  intros Hok. induction keys as [|k keys IH]; intros Hnd Hlin.
  { exists []. split_and!; [constructor| |].
    - rewrite list_filter_nil_2; [done|]. by intros op _ ?%elem_of_nil.
    - intros k. split; [constructor|done]. }
  apply NoDup_cons in Hnd as [Hni Hnd].
  destruct IH as (ps & Hint & Hp & Hk); [done|intros; apply Hlin; by right|].
  destruct (Hlin k ltac:(by left)) as (l & Hl & Hrt & Hleg).
  assert (Hokl : Forall op_ok l).
  { rewrite Hl. apply Forall_forall. intros op [_ Hin]%list_elem_of_filter. by eapply Forall_forall in Hok. }
  assert (Hkey : ∀ op, op ∈ l → Key op = k).
  { intros op. rewrite Hl. by intros [? _]%list_elem_of_filter. }
  assert (Hother : ∀ x, x ∈ ps → Key x.2 ≠ k).
  { intros x Hx Heq. assert (x.2 ∈ ps.*2) as Hin by (apply list_elem_of_fmap; eauto).
    rewrite Hp in Hin. apply list_elem_of_filter in Hin as [Hin _]. congruence. }
  set (t := match l with [] => 0%Z | op :: _ => Invoke op end).
  exists (points t l ++ ps). split_and!.
  - apply Forall_app. split; [|done]. apply points_in_interval; [done|done|].
    subst t. destruct l as [|op l]; [constructor|]. destruct Hrt as [Hall _].
    apply Forall_cons in Hokl as [Hop _]. constructor; [|done]. unfold op_ok in Hop. lia.
  - rewrite fmap_app, points_ops, Hl, Hp. unfold sub_history. clear -Hni.
    induction os as [|op os IH]; [done|]. rewrite !filter_cons.
    destruct (decide (Key op = k)) as [Heq|Hne].
    + rewrite decide_False by congruence. rewrite decide_True by (rewrite Heq; by left).
      rewrite <-IH. done.
    + destruct (decide (Key op ∈ keys)).
      * rewrite decide_True by by right. rewrite <-IH. symmetry. apply Permutation_middle.
      * rewrite decide_False; [done|]. rewrite elem_of_cons. tauto.
  - intros k'. rewrite filter_app. unfold sub_history. rewrite fmap_app, points_ops, filter_app.
    destruct (decide (k' = k)) as [->|Hne].
    + rewrite (list_filter_nil_2 _ ps) by auto.
      rewrite (list_filter_nil_2 (λ op, Key op = k) (ps.*2));
        [|by intros op (x & -> & Hx)%list_elem_of_fmap; auto].
      rewrite !app_nil_r. split.
      * rewrite list_filter_all; [apply points_sorted|]. intros x Hx. apply Hkey.
        rewrite <-(points_ops t l). apply list_elem_of_fmap. eauto.
      * by rewrite list_filter_all.
    + rewrite (list_filter_nil_2 _ (points t l)); last first.
      { intros x Hx Heq. apply Hne. rewrite <-Heq. apply Hkey.
        rewrite <-(points_ops t l). apply list_elem_of_fmap. eauto. }
      rewrite (list_filter_nil_2 (λ op, Key op = k') l) by (intros op Hin Heq; apply Hne; rewrite <-Heq; auto).
      apply Hk.
Qed.

Lemma locality os :
  Forall op_ok os → globally_linearizable os ↔ ∀ k, linearizable (sub_history os k).
Proof.
  intros Hok. split.
  - intros (l & Hp & Hrt & Hleg) k. exists (sub_history l k). split_and!; [|by apply real_time_filter|done].
    unfold sub_history. by rewrite Hp.
  - intros Hall. destruct (merge_keys os (elements (list_to_set (Key <$> os) : gset string)) Hok)
      as (ps & Hint & Hp & Hk); [apply NoDup_elements|auto|].
    exists ((isort point_leb ps).*2). split_and!.
    + rewrite isort_perm, Hp. rewrite list_filter_all; [done|].
      intros op Hin. rewrite elem_of_elements, elem_of_list_to_set. apply list_elem_of_fmap. eauto.
    + apply real_time_points; [apply isort_points_sorted|]. by rewrite isort_perm.
    + intros k. destruct (Hk k) as [Hs Hleg]. unfold sub_history in *.
      rewrite filter_fmap_swap in Hleg. by rewrite filter_fmap_swap, isort_filter, isort_id.
Qed.
End Lin.

Import Lin.

(** C8. The checker is sound and complete: for operations with sensible intervals it accepts a
    history exactly when one total order of all its operations respects real time and is a legal
    run of one register per key; when it rejects, it names an operation of the history whose key
    has no linearization. *)
Theorem checker_sound_and_complete os :
  Forall op_ok os →
  (CheckRegister os = (true, None) ↔ globally_linearizable os) ∧
  (CheckRegister os ≠ (true, None) →
   ∃ op, CheckRegister os = (false, Some op) ∧ op ∈ os ∧ ¬ linearizable (sub_history os (Key op))).
Proof.
  intros Hok. rewrite locality by done.
  destruct (CheckRegister_correct os Hok) as [[-> Hl]|(op & -> & Hin & Hl)]; [done|].
  split; [|eauto]. split; [done|]. intros Hall. by destruct Hl.
Qed.

Definition demo_ops : list Op :=
  [MkOp "c1" OpWrite "x" "k" 0 10; MkOp "c2" OpRead "x" "k" 5 6; MkOp "c2" OpRead "" "j" 7 8].

Lemma checker_sound_and_complete_witness :
  (CheckRegister demo_ops = (true, None) ↔ globally_linearizable demo_ops) ∧
  (CheckRegister demo_ops ≠ (true, None) →
   ∃ op, CheckRegister demo_ops = (false, Some op) ∧ op ∈ demo_ops ∧
     ¬ linearizable (sub_history demo_ops (Key op))).
Proof.
  apply (checker_sound_and_complete demo_ops).
  repeat constructor; unfold maxInt64; simpl; lia.
Defined.
