(* ===== verification/Wal.v ===== *)
(** * The write-ahead log

    Models [src/internal/durability/wal.go]: a durable segment that survives a crash and a buffer that
    does not, under three durability modes. *)

From S2P Require Import Prelude.

Module Wal.

Inductive Mode := Buffered | Fsync | GroupCommit.

Record WAL := MkWAL {
  mode : Mode;
  groupSize : nat;
  durable : list string;
  buffer : list string;
  acked : nat;
  lost : nat;
}.

Definition New (m : Mode) (g : Z) : WAL := MkWAL m (if (g <? 1)%Z then 1 else Z.to_nat g) [] [] 0 0.

Definition flushLocked (w : WAL) : nat * WAL :=
  let n := length (buffer w) in
  if n =? 0 then (0, w)
  else (n, MkWAL (mode w) (groupSize w) (durable w ++ buffer w) [] (acked w) (lost w)).

Definition Flush (w : WAL) : nat * WAL := flushLocked w.

Definition Append (w : WAL) (record : option string) : bool * WAL :=
  let cp := default "" record in
  let w := MkWAL (mode w) (groupSize w) (durable w) (buffer w) (S (acked w)) (lost w) in
  match mode w with
  | Fsync => (true, MkWAL (mode w) (groupSize w) (durable w ++ [cp]) (buffer w) (acked w) (lost w))
  | GroupCommit =>
      let w := MkWAL (mode w) (groupSize w) (durable w) (buffer w ++ [cp]) (acked w) (lost w) in
      if groupSize w <=? length (buffer w) then (true, (flushLocked w).2) else (false, w)
  | Buffered => (false, MkWAL (mode w) (groupSize w) (durable w) (buffer w ++ [cp]) (acked w) (lost w))
  end.

Definition Crash (w : WAL) : WAL :=
  MkWAL (mode w) (groupSize w) (durable w) [] (acked w) (lost w + length (buffer w)).

Definition cloneRecords (src : list string) : list string := (λ r, r) <$> src.

Definition DurableRecords (w : WAL) : list string := cloneRecords (durable w).
Definition BufferedRecords (w : WAL) : list string := cloneRecords (buffer w).
Definition Acked (w : WAL) : nat := acked w.
Definition Lost (w : WAL) : nat := lost w.
Definition Mode_ (w : WAL) : Mode := mode w.

(** ** Runs *)

Inductive op := OAppend (r : option string) | OFlush | OCrash.

Definition step (w : WAL) (o : op) : WAL :=
  match o with
  | OAppend r => (Append w r).2
  | OFlush => (Flush w).2
  | OCrash => Crash w
  end.

Definition run (w : WAL) (os : list op) : WAL := foldl step w os.

(** What the clients were acked, in order. *)
Definition appended (os : list op) : list string :=
  omap (λ o, match o with OAppend r => Some (default "" r) | _ => None end) os.

Lemma flush_eq w :
  (flushLocked w).2 = MkWAL (mode w) (groupSize w) (durable w ++ buffer w) [] (acked w) (lost w).
Proof.
  unfold flushLocked. destruct (Nat.eqb_spec (length (buffer w)) 0) as [Hz%nil_length_inv|]; [|done].
  simpl. rewrite Hz, app_nil_r. destruct w; simpl in *. by rewrite Hz.
Qed.

(** The three outcomes of an append. *)
Lemma append_cases w r :
  let '(d, w') := Append w r in
  mode w' = mode w ∧ groupSize w' = groupSize w ∧ acked w' = S (acked w) ∧ lost w' = lost w ∧
  match mode w with
  | Fsync => d = true ∧ durable w' = durable w ++ [default "" r] ∧ buffer w' = buffer w
  | GroupCommit =>
      if groupSize w <=? S (length (buffer w))
      then d = true ∧ durable w' = durable w ++ buffer w ++ [default "" r] ∧ buffer w' = []
      else d = false ∧ durable w' = durable w ∧ buffer w' = buffer w ++ [default "" r]
  | Buffered => d = false ∧ durable w' = durable w ∧ buffer w' = buffer w ++ [default "" r]
  end.
Proof.
  unfold Append. destruct (mode w) eqn:Em; cbn [mode groupSize durable buffer acked lost]; try done.
  rewrite length_app, Nat.add_1_r.
  destruct (groupSize w <=? S (length (buffer w))); [rewrite flush_eq|]; cbn [mode groupSize durable buffer acked lost snd]; rewrite <-?(assoc_L (++)); done.
Qed.

(** Accounting and, per mode, what can be lost. *)
Definition inv (w : WAL) : Prop :=
  acked w = length (durable w) + length (buffer w) + lost w ∧
  match mode w with
  | Fsync => buffer w = [] ∧ lost w = 0
  | GroupCommit => 0 < groupSize w ∧ length (buffer w) < groupSize w
  | Buffered => True
  end.

Lemma New_inv m g : inv (New m g).
Proof.
  unfold inv, New; simpl. split; [done|]. destruct m; try done.
  destruct (Z.ltb_spec g 1); lia.
Qed.

Lemma wal_step_inv w o : inv w → inv (step w o) ∧ mode (step w o) = mode w ∧ groupSize (step w o) = groupSize w.
Proof.
  intros [Ha Hm]. destruct o as [r| |]; simpl.
  - pose proof (append_cases w r) as Hc. destruct (Append w r) as [d w']. simpl.
    destruct Hc as (Hmode & Hg & Hack & Hlost & Hc). unfold inv. rewrite Hmode, Hg, Hack, Hlost.
    destruct (mode w).
    + destruct Hc as (_ & -> & ->). rewrite length_app. simpl. split; [split; [lia|done]|done].
    + destruct Hc as (_ & -> & ->), Hm as [Hb Hl]. rewrite Hb, Hl in *. rewrite length_app. simpl in *.
      split; [split; [lia|done]|done].
    + destruct (Nat.leb_spec (groupSize w) (S (length (buffer w)))); destruct Hc as (_ & -> & ->);
        rewrite ?length_app; simpl; (split; [split; [lia|lia]|done]).
  - unfold Flush. rewrite flush_eq. unfold inv; simpl. rewrite length_app.
    split; [split; [lia|]|done]. destruct (mode w); [done| |simpl; lia]. by destruct Hm.
  - unfold inv; simpl. split; [split; [lia|]|done]. destruct (mode w); [done| |lia].
    destruct Hm as [-> ->]. done.
Qed.

(** Durable records are only ever added, at the end. *)
Lemma step_durable w o : durable w `prefix_of` durable (step w o).
Proof.
  destruct o as [r| |]; simpl.
  - pose proof (append_cases w r) as Hc. destruct (Append w r) as [d w']. simpl.
    destruct Hc as (_ & _ & _ & _ & Hc). destruct (mode w); [| |case_match];
      destruct Hc as (_ & -> & _); try done; by apply prefix_app_r.
  - unfold Flush. rewrite flush_eq. simpl. by apply prefix_app_r.
  - done.
Qed.

Lemma run_durable w os : durable w `prefix_of` durable (run w os).
Proof.
  revert w. induction os as [|o os IH]; intros w; simpl; [done|].
  etransitivity; [apply step_durable|apply IH].
Qed.

Lemma wal_run_inv w os :
  inv w → inv (run w os) ∧ mode (run w os) = mode w ∧ groupSize (run w os) = groupSize w.
Proof.
  revert w. induction os as [|o os IH]; intros w Hw; simpl; [done|].
  destruct (wal_step_inv w o Hw) as (H1 & <- & <-). by apply IH.
Qed.

(** The log holds the acked records in order, except those lost. *)
Lemma step_sublist w o :
  inv w → durable (step w o) ++ buffer (step w o) `sublist_of` (durable w ++ buffer w) ++ appended [o].
Proof.
  intros [_ Hw]. destruct o as [r| |]; simpl.
  - pose proof (append_cases w r) as Hc. destruct (Append w r) as [d w']. simpl.
    destruct Hc as (_ & _ & _ & _ & Hc). destruct (mode w); [| |case_match];
      destruct Hc as (_ & -> & ->); try (destruct Hw as [Hb _]; rewrite Hb); by rewrite ?app_nil_r, <-?(assoc_L (++)).
  - unfold Flush. rewrite flush_eq. simpl. by rewrite !app_nil_r.
  - rewrite !app_nil_r. by apply sublist_inserts_r.
Qed.

Lemma appended_cons o os : appended (o :: os) = appended [o] ++ appended os.
Proof. unfold appended. simpl. by case_match. Qed.

Lemma run_sublist os : ∀ w, inv w →
  durable (run w os) ++ buffer (run w os) `sublist_of` (durable w ++ buffer w) ++ appended os.
Proof.
  induction os as [|o os IH]; intros w Hw; [by rewrite app_nil_r|].
  etransitivity; [apply (IH (step w o)), wal_step_inv, Hw|].
  rewrite appended_cons, (assoc_L (++)). apply sublist_app; [by apply step_sublist|done].
Qed.

Lemma sublist_length_eq (l1 l2 : list string) : l1 `sublist_of` l2 → length l2 ≤ length l1 → l1 = l2.
Proof.
  induction 1 as [|x l1 l2 Hs IH|x l1 l2 Hs IH]; simpl; intros Hlen; [done| |].
  - rewrite IH by lia. done.
  - apply sublist_length in Hs. lia.
Qed.

Lemma appended_length os : ∀ w, inv w → acked (run w os) = acked w + length (appended os).
Proof.
  induction os as [|o os IH]; intros w Hw; [simpl; lia|].
  change (run w (o :: os)) with (run (step w o) os).
  rewrite (IH (step w o)) by apply wal_step_inv, Hw. rewrite appended_cons, length_app.
  destruct o as [r| |]; simpl; [|by unfold Flush; rewrite flush_eq|done].
  pose proof (append_cases w r) as Hc. destruct (Append w r) as [d w']. simpl.
  destruct Hc as (_ & _ & -> & _). lia.
Qed.

End Wal.

Import Wal.

(** C30. Durability of the write-ahead log. After any sequence of appends, flushes and crashes: every
    acknowledged record is durable, buffered or counted as lost, and the surviving records are
    acknowledged records in acknowledgement order. With [Fsync] nothing is ever buffered or lost, so
    the durable segment is exactly what was acknowledged; with [GroupCommit] one further crash loses
    fewer than [groupSize] records. Whatever is durable stays durable for good, and when [Append]
    returns [true] the record, and everything buffered before it, is durable. *)
Theorem wal_durability (m : Mode) (g : Z) (os os' : list op) (r : option string) :
  let w := run (New m g) os in
  acked w = length (appended os) ∧
  acked w = length (DurableRecords w) + length (BufferedRecords w) + lost w ∧
  DurableRecords w ++ BufferedRecords w `sublist_of` appended os ∧
  (m = Fsync → DurableRecords w = appended os ∧ lost w = 0) ∧
  (m = GroupCommit → lost (Crash w) < lost w + Z.to_nat (Z.max 1 g)) ∧
  DurableRecords w `prefix_of` DurableRecords (run w os') ∧
  ((Append w r).1 = true → DurableRecords (run (Append w r).2 os') !! (length (durable w) + length (buffer w)) = Some (default "" r)).
Proof.
  intros w. destruct (wal_run_inv (New m g) os (New_inv m g)) as ([Hack Hw] & Hm & Hg).
  fold w in Hack, Hw, Hm, Hg. unfold DurableRecords, BufferedRecords, cloneRecords. rewrite !list_fmap_id.
  pose proof (appended_length os (New m g) (New_inv m g)) as Hlen. fold w in Hlen. simpl in Hlen.
  pose proof (run_sublist os (New m g) (New_inv m g)) as Hsub. fold w in Hsub. simpl in Hsub, Hm.
  split_and!; [done|done|done| | |apply run_durable|].
  - intros ->. rewrite Hm in Hw. destruct Hw as [Hb Hl]. split; [|done].
    rewrite Hb, app_nil_r in Hsub. apply sublist_length_eq; [done|].
    rewrite <-Hlen, Hack, Hb, Hl. simpl. lia.
  - intros ->. rewrite Hm in Hw. simpl in Hg |- *. rewrite Hg in Hw. case_match; lia.
  - pose proof (append_cases w r) as Hc. destruct (Append w r) as [d w']. simpl. intros ->.
    destruct Hc as (_ & _ & _ & _ & Hc). rewrite Hm in *. apply (prefix_lookup_Some (durable w')); [|apply run_durable].
    destruct m; [by destruct Hc| |].
    + destruct Hc as (_ & -> & _), Hw as [-> _]. rewrite Nat.add_0_r. by apply list_lookup_middle.
    + case_match; [|by destruct Hc]. destruct Hc as (_ & -> & _).
      rewrite (assoc_L (++)). apply list_lookup_middle. by rewrite length_app.
Qed.
