(* ===== verification/Swim.v ===== *)
(** * SWIM membership

    Models [src/internal/swim/swim.go]: one node's view of the cluster, its local transitions and the
    reconciliation of gossip. Incarnations are [uint64] and wrap. *)

From S2P Require Import Prelude.

Module Swim.

Inductive MemberState := Alive | Suspect | Dead.

#[export] Instance MemberState_eq_dec : EqDecision MemberState.
Proof. solve_decision. Defined.

Definition String (s : MemberState) : string :=
  match s with Alive => "Alive" | Suspect => "Suspect" | Dead => "Dead" end.

Definition precedence (s : MemberState) : Z := match s with Alive => 0 | Suspect => 1 | Dead => 2 end.

Record Member := MkMember {
  ID : string;
  State : MemberState;
  Incarnation : N;
  suspectedAt : Z;
}.

#[export] Instance Member_eq_dec : EqDecision Member.
Proof. solve_decision. Defined.

Record Membership := MkMembership { selfID : string; members : gmap string Member }.

Definition put (m : Membership) (id : string) (x : Member) : Membership :=
  MkMembership (selfID m) (<[id := x]> (members m)).

Definition NewMembership (self : string) : Membership :=
  MkMembership self {[ self := MkMember self Alive 0 0 ]}.

(** [m.members[m.selfID]] is dereferenced without a check: a missing entry panics. *)
Definition SelfIncarnation (m : Membership) : Res N := res_of (Incarnation <$> members m !! selfID m).

Definition Get (m : Membership) (id : string) : Member * bool :=
  match members m !! id with Some x => (x, true) | None => (MkMember "" Alive 0 0, false) end.

Definition AliveOp (m : Membership) (id : string) (inc : N) : Membership :=
  match members m !! id with
  | None => put m id (MkMember id Alive inc 0)
  | Some cur =>
      if decide (State cur = Dead) then m
      else if (inc <? Incarnation cur)%N then m
      else if (inc =? Incarnation cur)%N && bool_decide (State cur = Suspect) then m
      else put m id (MkMember (ID cur) Alive inc 0)
  end.

Definition refuteSuspicionLocked (m : Membership) : Res Membership :=
  match members m !! selfID m with
  | None => Panic
  | Some self => Ok (put m (selfID m) (MkMember (ID self) Alive (u64N (Incarnation self + 1)) 0))
  end.

Definition RefuteSuspicion (m : Membership) : Res Membership := refuteSuspicionLocked m.

Definition SuspectOp (m : Membership) (id : string) (inc : N) (now : Z) : Res Membership :=
  if decide (id = selfID m) then refuteSuspicionLocked m
  else match members m !! id with
  | None => Ok (put m id (MkMember id Suspect inc now))
  | Some cur =>
      if decide (State cur = Dead) then Ok m
      else if (inc <? Incarnation cur)%N then Ok m
      else if bool_decide (State cur = Suspect) && (inc =? Incarnation cur)%N then Ok m
      else Ok (put m id (MkMember (ID cur) Suspect inc now))
  end.

Definition DeadOp (m : Membership) (id : string) : Membership :=
  match members m !! id with
  | None => put m id (MkMember id Dead 0 0)
  | Some cur => put m id (MkMember (ID cur) Dead (Incarnation cur) 0)
  end.

Definition Confirm (m : Membership) (id : string) : Membership := DeadOp m id.

Definition stale (deadline : Z) (x : Member) : bool :=
  bool_decide (State x = Suspect) && (suspectedAt x <? deadline)%Z.

Definition promote (deadline : Z) (x : Member) : Member :=
  if stale deadline x then MkMember (ID x) Dead (Incarnation x) 0 else x.

Definition TickSuspicions (m : Membership) (deadline : Z) : list string * Membership :=
  (sort_strings (ID <$> filter (λ x, stale deadline x = true) (map_to_list (members m)).*2),
   MkMembership (selfID m) (promote deadline <$> members m)).

Definition gossipWinsLocked (cur g : Member) : bool :=
  if (Incarnation cur <? Incarnation g)%N then true
  else if (Incarnation g <? Incarnation cur)%N then false
  else (precedence (State cur) <? precedence (State g))%Z.

Definition mergeSelfLocked (m : Membership) (g : Member) : Res Membership :=
  match members m !! selfID m with
  | None => Panic
  | Some self =>
      if decide (State g = Alive) then
        if (Incarnation self <? Incarnation g)%N
        then Ok (put m (selfID m) (MkMember (ID self) (State self) (Incarnation g) (suspectedAt self)))
        else Ok m
      else if (Incarnation g <? Incarnation self)%N then Ok m
      else Ok (put m (selfID m) (MkMember (ID self) Alive (u64N (Incarnation g + 1)) 0))
  end.

(** One iteration of [Merge]. *)
Definition merge_one (m : Membership) (g : Member) : Res Membership :=
  if decide (ID g = selfID m) then mergeSelfLocked m g
  else match members m !! ID g with
  | None => Ok (put m (ID g) (MkMember (ID g) (State g) (Incarnation g) 0))
  | Some cur =>
      if decide (State cur = Dead) then Ok m
      else if gossipWinsLocked cur g
      then Ok (put m (ID g) (MkMember (ID cur) (State g) (Incarnation g) 0))
      else Ok m
  end.

Fixpoint Merge (m : Membership) (gossip : list Member) : Res Membership :=
  match gossip with
  | [] => Ok m
  | g :: gossip' => m' ← merge_one m g; Merge m' gossip'
  end.

Definition membersByState (m : Membership) (s : MemberState) : list string :=
  sort_strings (filter (λ kx, State kx.2 = s) (map_to_list (members m))).*1.

Definition AliveMembers (m : Membership) : list string := membersByState m Alive.
Definition SuspectMembers (m : Membership) : list string := membersByState m Suspect.
Definition DeadMembers (m : Membership) : list string := membersByState m Dead.

Definition by_id (a b : Member) : bool := str_leb (ID a) (ID b).

Definition Snapshot (m : Membership) : list Member :=
  isort by_id ((λ x, MkMember (ID x) (State x) (Incarnation x) 0) <$> (map_to_list (members m)).*2).

(** ** Steps *)

Inductive op :=
  | OAlive (id : string) (inc : N)
  | OSuspect (id : string) (inc : N) (now : Z)
  | ORefute
  | ODead (id : string)
  | OTick (deadline : Z)
  | OMerge (gossip : list Member).

Definition step (m : Membership) (o : op) : Res Membership :=
  match o with
  | OAlive id inc => Ok (AliveOp m id inc)
  | OSuspect id inc now => SuspectOp m id inc now
  | ORefute => RefuteSuspicion m
  | ODead id => Ok (DeadOp m id)
  | OTick d => Ok (TickSuspicions m d).2
  | OMerge g => Merge m g
  end.

Fixpoint run (m : Membership) (os : list op) : Res Membership :=
  match os with
  | [] => Ok m
  | o :: os' => m' ← step m o; run m' os'
  end.

(** The order in which beliefs about a remote member grow: [Dead] is final, and otherwise the pair of
    incarnation and precedence does not decrease. *)
Definition belief_le (a b : Member) : Prop :=
  match State a with
  | Dead => State b = Dead ∧ Incarnation b = Incarnation a
  | _ => State b = Dead ∧ (Incarnation a ≤ Incarnation b)%N ∨ (Incarnation a < Incarnation b)%N ∨
         Incarnation b = Incarnation a ∧ (precedence (State a) ≤ precedence (State b))%Z
  end.

#[export] Instance belief_le_preorder : PreOrder belief_le.
Proof.
  split.
  - intros a. unfold belief_le. destruct (State a); [right; right..|]; done.
  - intros a b c. unfold belief_le. destruct (State a), (State b), (State c); simpl; intuition (try congruence; try lia).
Qed.

(** Every entry is filed under its own ID and the local node has one. *)
Definition wf (m : Membership) : Prop :=
  is_Some (members m !! selfID m) ∧ ∀ k x, members m !! k = Some x → ID x = k.

Lemma wf_ID m k x : wf m → members m !! k = Some x → ID x = k.
Proof. intros [_ Hw]. apply Hw. Qed.

(** What an operation may do to a view: keep it well formed and only grow the beliefs on others. *)
Definition grows (m m' : Membership) : Prop :=
  selfID m' = selfID m ∧ wf m' ∧
  ∀ id a, id ≠ selfID m → members m !! id = Some a → ∃ b, members m' !! id = Some b ∧ belief_le a b.

Lemma grows_refl m : wf m → grows m m.
Proof. intros Hw. split_and!; [done|done|]. intros id a _ Ha. exists a. split; [done|reflexivity]. Qed.

Lemma grows_trans m1 m2 m3 : grows m1 m2 → grows m2 m3 → grows m1 m3.
Proof.
  intros (E1 & W1 & H1) (E2 & W2 & H2). split_and!; [congruence|done|].
  intros id a Hid Ha. destruct (H1 id a Hid Ha) as (b & Hb & Hab).
  destruct (H2 id b) as (c & Hc & Hbc); [congruence|done|]. exists c. split; [done|]. by transitivity b.
Qed.

(** All operations write entries with [put]. *)
Lemma put_grows m id x :
  wf m → ID x = id → (id ≠ selfID m → ∀ a, members m !! id = Some a → belief_le a x) → grows m (put m id x).
Proof.
  intros [[s Hs] Hw] Hx Hle. split_and!; [done| |].
  - split; simpl.
    + destruct (decide (id = selfID m)) as [->|]; [by rewrite lookup_insert_eq|by rewrite lookup_insert_ne].
    + intros k y. rewrite lookup_insert_Some. naive_solver.
  - intros k a Hk Ha. simpl. destruct (decide (id = k)) as [->|Hne].
    + rewrite lookup_insert_eq. eauto.
    + rewrite lookup_insert_ne by done. exists a. split; [done|reflexivity].
Qed.

Lemma NewMembership_wf self : wf (NewMembership self).
Proof.
  split; simpl; [by rewrite lookup_singleton_eq|]. intros k x. rewrite lookup_singleton_Some. by intros [<- <-].
Qed.

Lemma AliveOp_grows m id inc : wf m → grows m (AliveOp m id inc).
Proof.
  intros Hw. unfold AliveOp. destruct (members m !! id) as [cur|] eqn:Hc.
  - destruct (decide (State cur = Dead)) as [|Hd]; [by apply grows_refl|].
    destruct (N.ltb_spec inc (Incarnation cur)); [by apply grows_refl|].
    destruct ((inc =? Incarnation cur)%N && bool_decide (State cur = Suspect)) eqn:E; [by apply grows_refl|].
    apply put_grows; [done|simpl; by eapply wf_ID|]. intros _ a [= <-]%(transitivity (eq_sym Hc)).
    unfold belief_le. simpl. destruct (State cur); [| |done].
    + right. destruct (decide (inc = Incarnation cur)); [by right|left; lia].
    + right; left. rewrite bool_decide_eq_true_2, andb_true_r in E by done. apply N.eqb_neq in E. lia.
  - apply put_grows; [done|done|]. congruence.
Qed.

Lemma refute_grows m : wf m → ∃ m', refuteSuspicionLocked m = Ok m' ∧ grows m m'.
Proof.
  intros Hw. unfold refuteSuspicionLocked. destruct (proj1 Hw) as [s Hs]. rewrite Hs. eexists; split; [done|].
  apply put_grows; [done|simpl; by eapply wf_ID|done].
Qed.

Lemma SuspectOp_grows m id inc now : wf m → ∃ m', SuspectOp m id inc now = Ok m' ∧ grows m m'.
Proof.
  intros Hw. unfold SuspectOp. destruct (decide (id = selfID m)) as [->|Hid]; [by apply refute_grows|].
  destruct (members m !! id) as [cur|] eqn:Hc.
  - destruct (decide (State cur = Dead)) as [|Hd]; [eauto using grows_refl|].
    destruct (N.ltb_spec inc (Incarnation cur)); [eauto using grows_refl|].
    destruct (bool_decide _ && _); [eauto using grows_refl|]. eexists; split; [done|].
    apply put_grows; [done|simpl; by eapply wf_ID|]. intros _ a [= <-]%(transitivity (eq_sym Hc)).
    unfold belief_le. simpl. destruct (State cur); try done; simpl;
      (right; destruct (decide (inc = Incarnation cur)); [by right|left; lia]).
  - eexists; split; [done|]. apply put_grows; [done|done|]. congruence.
Qed.

Lemma DeadOp_grows m id : wf m → grows m (DeadOp m id).
Proof.
  intros Hw. unfold DeadOp. destruct (members m !! id) as [cur|] eqn:Hc.
  - apply put_grows; [done|simpl; by eapply wf_ID|]. intros _ a [= <-]%(transitivity (eq_sym Hc)).
    unfold belief_le. simpl. destruct (State cur); [left..|]; done.
  - apply put_grows; [done|done|]. congruence.
Qed.

Lemma promote_le d x : belief_le x (promote d x).
Proof.
  unfold promote, stale. case_bool_decide as Hs; simpl; [|reflexivity].
  case_match; [|reflexivity]. unfold belief_le. rewrite Hs. by left.
Qed.

Lemma promote_ID d x : ID (promote d x) = ID x.
Proof. unfold promote. by case_match. Qed.

Lemma Tick_grows m d : wf m → grows m (TickSuspicions m d).2.
Proof.
  intros [[s Hs] Hw]. split_and!; simpl; [done|split; simpl|].
  - rewrite lookup_fmap, Hs. by eexists.
  - intros k x. rewrite lookup_fmap_Some. intros (y & <- & Hy). rewrite promote_ID. eauto.
  - intros id a _ Ha. rewrite lookup_fmap, Ha. eexists; split; [done|apply promote_le].
Qed.

Lemma wins_le cur g : State cur ≠ Dead → gossipWinsLocked cur g = true →
  ∀ i z, belief_le cur (MkMember i (State g) (Incarnation g) z).
Proof.
  unfold gossipWinsLocked, belief_le. intros Hd. simpl.
  destruct (N.ltb_spec (Incarnation cur) (Incarnation g)), (N.ltb_spec (Incarnation g) (Incarnation cur));
    try done; try lia; [intros _ i z|rewrite Z.ltb_lt; intros Hp i z]; destruct (State cur); try done;
    try (right; left; lia); right; right; split; lia.
Qed.

Lemma merge_one_grows m g : wf m → ∃ m', merge_one m g = Ok m' ∧ grows m m'.
Proof.
  intros Hw. unfold merge_one. destruct (decide (ID g = selfID m)) as [Hid|Hid].
  - unfold mergeSelfLocked. destruct (proj1 Hw) as [s Hs]. rewrite Hs.
    assert (Hput : ∀ st i z, ∃ m', Ok (put m (selfID m) (MkMember (ID s) st i z)) = Ok m' ∧ grows m m').
    { intros st i z. eexists; split; [done|]. apply put_grows; [done|simpl; by eapply wf_ID|done]. }
    destruct (decide (State g = Alive)); case_match; eauto using grows_refl.
  - destruct (members m !! ID g) as [cur|] eqn:Hc.
    + destruct (decide (State cur = Dead)) as [|Hd]; [eauto using grows_refl|].
      destruct (gossipWinsLocked cur g) eqn:Hwin; [|eauto using grows_refl]. eexists; split; [done|].
      apply put_grows; [done|simpl; by eapply wf_ID|]. intros _ a [= <-]%(transitivity (eq_sym Hc)). by apply wins_le.
    + eexists; split; [done|]. apply put_grows; [done|done|]. congruence.
Qed.

Lemma Merge_grows gs : ∀ m, wf m → ∃ m', Merge m gs = Ok m' ∧ grows m m'.
Proof.
  induction gs as [|g gs IH]; intros m Hw; simpl; [eauto using grows_refl|].
  destruct (merge_one_grows m g Hw) as (m1 & -> & H1). rewrite Res_bind_Ok.
  destruct (IH m1 (proj1 (proj2 H1))) as (m2 & -> & H2). eauto using grows_trans.
Qed.

Lemma step_grows m o : wf m → ∃ m', step m o = Ok m' ∧ grows m m'.
Proof.
  intros Hw. destruct o as [id inc|id inc now| |id|d|gs]; simpl.
  - eauto using AliveOp_grows.
  - by apply SuspectOp_grows.
  - by apply refute_grows.
  - eauto using DeadOp_grows.
  - eexists; split; [done|]. by apply Tick_grows.
  - by apply Merge_grows.
Qed.

Lemma run_grows os : ∀ m, wf m → ∃ m', run m os = Ok m' ∧ grows m m'.
Proof.
  induction os as [|o os IH]; intros m Hw; simpl; [eauto using grows_refl|].
  destruct (step_grows m o Hw) as (m1 & -> & H1). rewrite Res_bind_Ok.
  destruct (IH m1 (proj1 (proj2 H1))) as (m2 & -> & H2). eauto using grows_trans.
Qed.

(** ** The local node's own entry *)

Definition self_alive (m : Membership) : Prop :=
  ∃ x, members m !! selfID m = Some x ∧ State x = Alive.

Lemma put_self_alive m id x :
  self_alive m → (id = selfID m → State x = Alive) → self_alive (put m id x).
Proof.
  intros (y & Hy & Ha) Hx. unfold self_alive. simpl. destruct (decide (id = selfID m)) as [->|].
  - rewrite lookup_insert_eq. eauto.
  - rewrite lookup_insert_ne by done. eauto.
Qed.

Lemma merge_one_self_alive m g m' : self_alive m → merge_one m g = Ok m' → self_alive m'.
Proof.
  intros Hs. unfold merge_one, mergeSelfLocked. destruct (Hs) as (x & Hx & Ha).
  destruct (decide (ID g = selfID m)) as [Hid|Hid]; [rewrite Hx|]; repeat case_match; intros [= <-];
    try done; apply put_self_alive; done.
Qed.

Lemma Merge_self_alive gs : ∀ m m', self_alive m → Merge m gs = Ok m' → self_alive m'.
Proof.
  induction gs as [|g gs IH]; intros m m' Hs; simpl; [by intros [= <-]|].
  destruct (merge_one m g) as [m1|] eqn:H1; [|done]. rewrite Res_bind_Ok. eauto using merge_one_self_alive.
Qed.

Lemma refute_self_alive m m' : self_alive m → refuteSuspicionLocked m = Ok m' → self_alive m'.
Proof. intros Hs. unfold refuteSuspicionLocked. case_match; intros [= <-]. by apply put_self_alive. Qed.

Lemma step_self_alive m o m' :
  self_alive m → o ≠ ODead (selfID m) → step m o = Ok m' → self_alive m'.
Proof.
  intros Hs Ho. destruct (Hs) as (x & Hx & Ha). destruct o as [id inc|id inc now| |id|d|gs]; simpl.
  - intros [= <-]. unfold AliveOp. repeat case_match; try done; by apply put_self_alive.
  - unfold SuspectOp. case_decide; [by apply refute_self_alive|].
    repeat case_match; intros [= <-]; try done; by apply put_self_alive.
  - by apply refute_self_alive.
  - intros [= <-]. unfold DeadOp. case_match; (apply put_self_alive; [done|congruence]).
  - intros [= <-]. exists x. simpl. split; [|done]. rewrite lookup_fmap, Hx. simpl. unfold promote, stale.
    by rewrite bool_decide_eq_false_2 by congruence.
  - by apply Merge_self_alive.
Qed.

Lemma run_self_alive os : ∀ m m',
  wf m → self_alive m → ODead (selfID m) ∉ os → run m os = Ok m' → self_alive m'.
Proof.
  induction os as [|o os IH]; intros m m' Hw Hs Hn; simpl; [by intros [= <-]|].
  destruct (step_grows m o Hw) as (m1 & H1 & E1 & W1 & _). rewrite H1, Res_bind_Ok.
  apply IH; [done| |rewrite E1; set_solver].
  eapply step_self_alive; [done| |done]. intros ->. set_solver.
Qed.

(** ** Gossip, one member at a time *)

(** What gossip [g] about a remote member makes of the belief held on it. *)
Definition view_one (o : option Member) (g : Member) : option Member :=
  match o with
  | None => Some (MkMember (ID g) (State g) (Incarnation g) 0)
  | Some cur =>
      if decide (State cur = Dead) then Some cur
      else if gossipWinsLocked cur g then Some (MkMember (ID cur) (State g) (Incarnation g) 0) else Some cur
  end.

Lemma view_one_Some o g : is_Some (view_one o g).
Proof. unfold view_one. repeat case_match; eauto. Qed.

Lemma merge_one_view m g m' id :
  merge_one m g = Ok m' → id ≠ selfID m →
  members m' !! id = if decide (ID g = id) then view_one (members m !! id) g else members m !! id.
Proof.
  unfold merge_one, mergeSelfLocked, view_one. intros H Hid.
  destruct (decide (ID g = selfID m)) as [Hg|Hg].
  - rewrite (decide_False (P := ID g = id)) by congruence.
    repeat case_match; simplify_eq/=; rewrite ?lookup_insert_ne by done; done.
  - destruct (decide (ID g = id)) as [<-|Hne]; repeat case_match; simplify_eq/=;
      rewrite ?lookup_insert_eq, ?lookup_insert_ne by done; done.
Qed.

Lemma merge_one_selfID m g m' : merge_one m g = Ok m' → selfID m' = selfID m.
Proof. unfold merge_one, mergeSelfLocked. intros. by repeat case_match; simplify_eq/=. Qed.

Lemma Merge_view gs id : ∀ m m', Merge m gs = Ok m' → id ≠ selfID m →
  members m' !! id = foldl view_one (members m !! id) (filter (λ g, ID g = id) gs).
Proof.
  induction gs as [|g gs IH]; intros m m' H Hid; simpl in *; [by simplify_eq|].
  destruct (merge_one m g) as [m1|] eqn:H1; [|done]. rewrite Res_bind_Ok in H.
  rewrite (IH m1 m' H) by (by rewrite (merge_one_selfID _ _ _ H1)).
  rewrite (merge_one_view m g m1 id H1 Hid), filter_cons. by case_decide.
Qed.

Lemma Merge_selfID gs : ∀ m m', Merge m gs = Ok m' → selfID m' = selfID m.
Proof.
  induction gs as [|g gs IH]; intros m m' H; simpl in *; [by simplify_eq|].
  destruct (merge_one m g) as [m1|] eqn:H1; [|done]. rewrite Res_bind_Ok in H.
  rewrite (IH _ _ H). by eapply merge_one_selfID.
Qed.

Definition strip (x : Member) : Member := MkMember (ID x) (State x) (Incarnation x) 0.

(** A snapshot says exactly one thing about each known member. *)
Lemma Snapshot_about m id : wf m →
  filter (λ g, ID g = id) (Snapshot m) = option_list (strip <$> members m !! id).
Proof.
  intros [_ Hw].
  assert (Hp : filter (λ g, ID g = id) (Snapshot m) ≡ₚ
               filter (λ g, ID g = id) (strip <$> (map_to_list (members m)).*2)).
  { unfold Snapshot. by rewrite isort_perm. }
  assert (Hrest : ∀ M : gmap string Member, (∀ k x, M !! k = Some x → ID x = k) → M !! id = None →
            filter (λ g, ID g = id) (strip <$> (map_to_list M).*2) = []).
  { intros M HM Hn. apply list_filter_nil_2. intros g (x & -> & ((k & x') & -> & Hx)%list_elem_of_fmap)%list_elem_of_fmap.
    apply elem_of_map_to_list in Hx. simpl. intros <-. apply HM in Hx as Hid. simpl in *. congruence. }
  destruct (members m !! id) as [x|] eqn:Hx; simpl.
  - apply Permutation_singleton_r. rewrite Hp.
    rewrite <-(insert_delete_id (members m) id x Hx), map_to_list_insert by apply lookup_delete_eq.
    simpl. rewrite filter_cons_True by (simpl; eauto).
    rewrite (Hrest (delete id (members m))); [done| |apply lookup_delete_eq].
    intros k y [_ Hy]%lookup_delete_Some. eauto.
  - apply Permutation_nil_r. rewrite Hp. by rewrite Hrest.
Qed.

(** Merging a snapshot applies what it says about each member once. *)
Lemma Merge_snapshot m p m' id : wf p → Merge m (Snapshot p) = Ok m' → id ≠ selfID m →
  members m' !! id = match members p !! id with
                     | Some x => view_one (members m !! id) (strip x)
                     | None => members m !! id
                     end.
Proof.
  intros Hp H Hid. rewrite (Merge_view _ id _ _ H Hid), Snapshot_about by done.
  by destruct (members p !! id).
Qed.

(** What gossip [g] about the local node makes of its own entry. *)
Definition self_one (s g : Member) : Member :=
  if decide (State g = Alive) then
    if (Incarnation s <? Incarnation g)%N then MkMember (ID s) (State s) (Incarnation g) (suspectedAt s) else s
  else if (Incarnation g <? Incarnation s)%N then s
  else MkMember (ID s) Alive (u64N (Incarnation g + 1)) 0.

Lemma Merge_self gs : ∀ m m' s, Merge m gs = Ok m' → members m !! selfID m = Some s →
  members m' !! selfID m = Some (foldl self_one s (filter (λ g, ID g = selfID m) gs)).
Proof.
  induction gs as [|g gs IH]; intros m m' s H Hs; simpl in *; [by simplify_eq|].
  destruct (merge_one m g) as [m1|] eqn:H1; [|done]. rewrite Res_bind_Ok in H.
  assert (Hs1 : members m1 !! selfID m1 = Some (if decide (ID g = selfID m) then self_one s g else s)).
  { rewrite (merge_one_selfID _ _ _ H1). unfold merge_one, mergeSelfLocked in H1. rewrite Hs in H1. unfold self_one.
    destruct (decide (ID g = selfID m)); repeat case_match; simplify_eq/=;
      rewrite ?lookup_insert_eq, ?lookup_insert_ne by done; done. }
  pose proof (IH m1 m' _ H Hs1) as Hr. rewrite (merge_one_selfID _ _ _ H1) in Hr. rewrite Hr, filter_cons.
  by case_decide.
Qed.

(** The two views agree on a member. *)
Definition agree (o1 o2 : option Member) : Prop := strip <$> o1 = strip <$> o2.

(** One view has the member dead while the other holds a younger incarnation of it as not dead. *)
Definition conflicting (a b : Member) : Prop :=
  State a = Dead ∧ State b ≠ Dead ∧ (Incarnation a < Incarnation b)%N ∨
  State b = Dead ∧ State a ≠ Dead ∧ (Incarnation b < Incarnation a)%N ∨
  State a = Dead ∧ State b = Dead ∧ Incarnation a ≠ Incarnation b.

Lemma wins_not g x : gossipWinsLocked x g = false →
  (Incarnation g < Incarnation x)%N ∨
  Incarnation g = Incarnation x ∧ (precedence (State g) ≤ precedence (State x))%Z.
Proof.
  unfold gossipWinsLocked.
  destruct (N.ltb_spec (Incarnation x) (Incarnation g)), (N.ltb_spec (Incarnation g) (Incarnation x)); try done; try lia.
Qed.

Lemma wins_yes g x : gossipWinsLocked x g = true →
  (Incarnation x < Incarnation g)%N ∨
  Incarnation g = Incarnation x ∧ (precedence (State x) < precedence (State g))%Z.
Proof.
  unfold gossipWinsLocked.
  destruct (N.ltb_spec (Incarnation x) (Incarnation g)), (N.ltb_spec (Incarnation g) (Incarnation x)); try done; try lia.
Qed.

(** A round trip of gossip makes two beliefs equal unless they conflict over a death. *)
Lemma exchange_view (a b : Member) :
  ID a = ID b → ¬ conflicting a b →
  agree (view_one (Some a) (strip b)) (view_one (Some b) (strip (default b (view_one (Some a) (strip b))))).
Proof.
  intros Hid Hn. unfold agree, view_one, strip.
  destruct a as [ia sa na ta], b as [ib sb nb tb]. simpl in *. subst ib.
  unfold conflicting in Hn. simpl in Hn.
  assert (Hn' : match sa, sb with Dead, Dead => na = nb | Dead, _ => (nb ≤ na)%N | _, Dead => (na ≤ nb)%N | _, _ => True end).
  { destruct sa, sb; try done; destruct (N.lt_trichotomy na nb) as [? | [? | ?]]; try lia; exfalso; apply Hn;
      first [left; split_and!; [done|done|lia] | right; left; split_and!; [done|done|lia] | right; right; split_and!; [done|done|lia]]. }
  clear Hn. unfold gossipWinsLocked.
  destruct sa, sb; cbn -[N.ltb Z.ltb] in *; repeat (case_decide; try done);
    repeat match goal with |- context [(?x <? ?y)%N] => destruct (N.ltb_spec x y); cbn -[N.ltb] end;
    try lia; repeat (case_decide; try done); simpl; repeat f_equal; lia.
Qed.

Lemma gossip_irrefl x g : Incarnation g = Incarnation x → State g = State x → gossipWinsLocked x g = false.
Proof. intros Hi Hst. unfold gossipWinsLocked. by rewrite Hi, Hst, !N.ltb_irrefl, Z.ltb_irrefl. Qed.

(** A member first heard of from a peer is not changed at that peer by the reply. *)
Lemma exchange_new b : agree (view_one None (strip b)) (view_one (Some b) (strip (default b (view_one None (strip b))))).
Proof. unfold agree. simpl. rewrite gossip_irrefl by done. by case_decide. Qed.

(** A node that hears it is suspected answers with an entry that clears the suspicion. *)
Lemma refute_view s x :
  State s = Alive → State x = Suspect → (Incarnation x < two64N - 1)%N →
  ∃ y, view_one (Some x) (strip (self_one s (strip x))) = Some y ∧ State y = Alive ∧ (Incarnation x < Incarnation y)%N.
Proof.
  intros Hs Hx Hlt. unfold self_one, view_one. cbn [strip State Incarnation].
  rewrite !decide_False by congruence. unfold gossipWinsLocked.
  destruct (N.ltb_spec (Incarnation x) (Incarnation s)) as [Hl|Hge]; cbn [strip State Incarnation].
  - destruct (N.ltb_spec (Incarnation x) (Incarnation s)); [|lia]. eauto.
  - rewrite u64N_id by lia. destruct (N.ltb_spec (Incarnation x) (Incarnation x + 1)); [|lia].
    eexists; split_and!; [done|done|simpl; lia].
Qed.

(** ** Gossiping pairs *)

(** [true]: the first node merges the snapshot of the second; [false]: the other way round. *)
Fixpoint exchanges (a b : Membership) (dirs : list bool) : Res (Membership * Membership) :=
  match dirs with
  | [] => Ok (a, b)
  | true :: dirs' => a' ← Merge a (Snapshot b); exchanges a' b dirs'
  | false :: dirs' => b' ← Merge b (Snapshot a); exchanges a b' dirs'
  end.

(** Neither belief wins over the other: gossip leaves both as they are. *)
Lemma exchanges_stuck dirs id x y : ∀ a b a' b',
  wf a → wf b → id ≠ selfID a → id ≠ selfID b → members a !! id = Some x → members b !! id = Some y →
  State x = Dead → gossipWinsLocked y (strip x) = false →
  exchanges a b dirs = Ok (a', b') → members a' !! id = Some x ∧ members b' !! id = Some y.
Proof.
  induction dirs as [|[] dirs IH]; intros a b a' b' Wa Wb Ia Ib Ha Hb Hx Hy He; simpl in He; [by simplify_eq| |].
  - destruct (Merge_grows (Snapshot b) a Wa) as (a1 & E1 & Es & W1 & _). rewrite E1, Res_bind_Ok in He.
    apply (IH a1 b); try done; [congruence|].
    by rewrite (Merge_snapshot a b a1 id Wb E1 Ia), Hb, Ha; simpl; rewrite decide_True.
  - destruct (Merge_grows (Snapshot a) b Wb) as (b1 & E1 & Es & W1 & _). rewrite E1, Res_bind_Ok in He.
    apply (IH a b1); try done; [congruence|].
    rewrite (Merge_snapshot b a b1 id Wa E1 Ib), Ha, Hb. simpl. rewrite Hy. by case_decide.
Qed.

Lemma exchanges_total dirs : ∀ a b, wf a → wf b → ∃ r, exchanges a b dirs = Ok r.
Proof.
  induction dirs as [|[] dirs IH]; intros a b Wa Wb; simpl; [eauto| |].
  - destruct (Merge_grows (Snapshot b) a Wa) as (a1 & -> & Es & W1 & _). by apply IH.
  - destruct (Merge_grows (Snapshot a) b Wb) as (b1 & -> & Es & W1 & _). by apply IH.
Qed.

Lemma elem_of_ticked m d id x : members m !! id = Some x → ID x = id → stale d x = true →
  id ∈ (TickSuspicions m d).1.
Proof.
  intros Hm Hid Hs. unfold TickSuspicions. simpl. apply elem_of_sort_strings. rewrite <-Hid.
  apply list_elem_of_fmap_2, list_elem_of_filter. split; [done|].
  apply list_elem_of_fmap. exists (id, x). split; [done|]. by apply elem_of_map_to_list.
Qed.

End Swim.

Import Swim.

(** Views of other nodes only move forward. From any start, any sequence of operations
    ([Alive], [Suspect], [RefuteSuspicion], [Dead], [TickSuspicions], [Merge]) runs without a panic,
    never forgets a member, and moves each belief about another node up the order in which [Dead] is
    final and otherwise incarnation, then precedence, does not decrease. Unless the node declares
    itself dead, it remains [Alive] in its own view whatever it is told. *)
Theorem swim_views_grow (self : string) (os1 os2 : list op) :
  ∃ m m', run (NewMembership self) os1 = Ok m ∧ run m os2 = Ok m' ∧
    (∀ id a, id ≠ self → members m !! id = Some a → ∃ b, members m' !! id = Some b ∧ belief_le a b) ∧
    (ODead self ∉ os1 ++ os2 → ∃ x, Get m' self = (x, true) ∧ State x = Alive).
Proof.
  destruct (run_grows os1 _ (NewMembership_wf self)) as (m & Hm & E & W & _).
  destruct (run_grows os2 m W) as (m' & Hm' & E' & W' & Hle).
  exists m, m'. split_and!; [done|done|by rewrite E in Hle|].
  rewrite not_elem_of_app. intros [H1 H2].
  assert (Hs : self_alive m).
  { apply (run_self_alive os1 (NewMembership self)); [apply NewMembership_wf| |done|done]. eexists. split; [apply lookup_singleton_eq|done]. }
  assert (Hs' : self_alive m') by (apply (run_self_alive os2 m); [done|done|by rewrite E|done]).
  destruct Hs' as (x & Hx & Ha). rewrite E', E in Hx. simpl in Hx. exists x. unfold Get. by rewrite Hx.
Qed.

(** C31. One round of gossip in each direction. Node [n] merges the snapshot of [p], then [p] merges the
    snapshot of [n]. Afterwards both hold the same state and incarnation for every third member on
    which they did not conflict over a death; and if [p] suspected [n], [n] has refuted it: [p] now
    believes [n] alive at a higher incarnation. *)
Theorem swim_exchange (n p n' p' : Membership)
  (Hn : wf n) (Hp : wf p) (Hne : selfID n ≠ selfID p) (Hself : self_alive n)
  (H1 : Merge n (Snapshot p) = Ok n') (H2 : Merge p (Snapshot n') = Ok p') :
  (∀ id, id ≠ selfID n → id ≠ selfID p →
     (∀ a b, members n !! id = Some a → members p !! id = Some b → ¬ conflicting a b) →
     agree (members n' !! id) (members p' !! id)) ∧
  (∀ x, members p !! selfID n = Some x → State x = Suspect → (Incarnation x < two64N - 1)%N →
     ∃ y, members p' !! selfID n = Some y ∧ State y = Alive ∧ (Incarnation x < Incarnation y)%N).
Proof.
  destruct (Merge_grows (Snapshot p) n Hn) as (n1 & En & HE & Wn' & _). rewrite H1 in En. injection En as <-.
  split.
  - intros id Hin Hip Hc. rewrite (Merge_snapshot p n' p' id Wn' H2 Hip), (Merge_snapshot n p n' id Hp H1 Hin).
    destruct (members p !! id) as [b|] eqn:Hb; destruct (members n !! id) as [a|] eqn:Ha; [|apply exchange_new|done|done].
    assert (HID : ID a = ID b) by (by rewrite (wf_ID _ _ _ Hn Ha), (wf_ID _ _ _ Hp Hb)).
    pose proof (exchange_view a b HID (Hc a b eq_refl eq_refl)) as He.
    destruct (view_one_Some (Some a) (strip b)) as [c Ec]. by rewrite Ec in *.
  - intros x Hx Hsus Hlt. destruct Hself as (s & Hs & Halive).
    pose proof (Merge_self _ n n' s H1 Hs) as Hs'. rewrite Snapshot_about, Hx in Hs' by done.
    rewrite (Merge_snapshot p n' p' (selfID n) Wn' H2 Hne), Hs', Hx. by apply refute_view.
Qed.

Lemma swim_exchange_witness :
  ∃ n p n' p', Merge n (Snapshot p) = Ok n' ∧ Merge p (Snapshot n') = Ok p' ∧
    agree (members n' !! "c") (members p' !! "c") ∧ is_Some (members n' !! "c") ∧
    ∃ y, members p' !! "a" = Some y ∧ State y = Alive ∧ (3 < Incarnation y)%N.
Proof.
  pose (n := put (NewMembership "a") "c" (MkMember "c" Alive 4 0)).
  pose (p := put (put (NewMembership "b") "c" (MkMember "c" Suspect 4 7)) "a" (MkMember "a" Suspect 3 9)).
  pose (n' := MkMembership "a" {[ "a" := MkMember "a" Alive 4 0; "b" := MkMember "b" Alive 0 0; "c" := MkMember "c" Suspect 4 0 ]}).
  pose (p' := MkMembership "b" {[ "a" := MkMember "a" Alive 4 0; "b" := MkMember "b" Alive 0 0; "c" := MkMember "c" Suspect 4 7 ]}).
  assert (H1 : Merge n (Snapshot p) = Ok n') by (by vm_compute).
  assert (H2 : Merge p (Snapshot n') = Ok p') by (by vm_compute).
  assert (Hput : ∀ m id x, wf m → ID x = id → id ∉ dom (members m) → wf (put m id x)).
  { intros m id x Hw Hx Hd. apply put_grows; [done|done|]. intros _ a Ha. apply not_elem_of_dom in Hd. congruence. }
  assert (Hn : wf n) by (apply Hput; [apply NewMembership_wf|done|by vm_compute]).
  assert (Hp : wf p) by (apply Hput; [apply Hput; [apply NewMembership_wf|done|by vm_compute]|done|by vm_compute]).
  destruct (swim_exchange n p n' p' Hn Hp) as [Ha Hb]; [done|by eexists|done|done|].
  exists n, p, n', p'. split_and!; [done|done| |by eexists|].
  - apply Ha; [done|done|]. intros a b [= <-] [= <-]. unfold conflicting. simpl. naive_solver.
  - by apply (Hb (MkMember "a" Suspect 3 9)).
Defined.

(** A suspicion learnt from gossip has no clock. When [Merge] makes a remote member [Suspect], its
    suspicion start is 0, and a later local [Suspect] at the same incarnation does not set it; so the
    next [TickSuspicions] with any positive deadline declares the member dead, even if that deadline
    lies before the local suspicion began. *)
Theorem swim_gossiped_suspicion_unclocked (m : Membership) (g : Member) (now deadline : Z)
  (Hw : wf m) (Hid : ID g ≠ selfID m) (Hg : State g = Suspect) (Hd : (0 < deadline)%Z)
  (Hwin : match members m !! ID g with
          | None => True
          | Some cur => State cur ≠ Dead ∧ gossipWinsLocked cur g = true
          end) :
  ∃ m1 m2, Merge m [g] = Ok m1 ∧ SuspectOp m1 (ID g) (Incarnation g) now = Ok m2 ∧
    ID g ∈ (TickSuspicions m2 deadline).1.
Proof.
  destruct (Merge_grows [g] m Hw) as (m1 & E1 & Es & W1 & _).
  assert (Hv : members m1 !! ID g = Some (MkMember (ID g) Suspect (Incarnation g) 0)).
  { rewrite (Merge_view [g] (ID g) m m1 E1 Hid), filter_cons_True by done. simpl.
    destruct (members m !! ID g) as [cur|] eqn:Hc; simpl; [|by rewrite Hg].
    rewrite decide_False, (proj2 Hwin), Hg by apply Hwin. by rewrite (wf_ID _ _ _ Hw Hc). }
  exists m1, m1. split_and!; [done| |].
  - unfold SuspectOp. rewrite decide_False, Hv by congruence. simpl. by rewrite N.ltb_irrefl, N.eqb_refl.
  - eapply elem_of_ticked; [done|done|]. unfold stale. simpl. by apply Z.ltb_lt.
Qed.

Lemma swim_gossiped_suspicion_unclocked_witness :
  ∃ m1 m2, Merge (NewMembership "a") [MkMember "b" Suspect 1 0] = Ok m1 ∧ SuspectOp m1 "b" 1 100 = Ok m2 ∧
    "b" ∈ (TickSuspicions m2 50).1.
Proof.
  apply (swim_gossiped_suspicion_unclocked (NewMembership "a") (MkMember "b" Suspect 1 0) 100 50);
    [apply NewMembership_wf|done|done|done|exact I].
Defined.

(** Views need not converge. Two nodes that receive the same two gossip messages about a third, in
    different orders, hold it dead and alive respectively, and no number of snapshot exchanges in
    either direction ever makes them agree: the dead belief is final where it was heard first, and is
    outranked by the higher incarnation where it was heard second. *)
Theorem swim_dead_diverges (dirs : list bool) :
  let gd := MkMember "c" Dead 1 0 in
  let ga := MkMember "c" Alive 2 0 in
  ∃ a b a' b', Merge (NewMembership "a") [gd; ga] = Ok a ∧ Merge (NewMembership "b") [ga; gd] = Ok b ∧
    exchanges a b dirs = Ok (a', b') ∧ members a' !! "c" = Some gd ∧ members b' !! "c" = Some ga.
Proof.
  intros gd ga.
  destruct (Merge_grows [gd; ga] _ (NewMembership_wf "a")) as (a & Ea & Ia & Wa & _).
  destruct (Merge_grows [ga; gd] _ (NewMembership_wf "b")) as (b & Eb & Ib & Wb & _).
  destruct (exchanges_total dirs a b Wa Wb) as [[a' b'] He].
  exists a, b, a', b'. split_and!; [done..| |];
    eapply (exchanges_stuck dirs "c" gd ga a b a' b'); try done; try (by rewrite ?Ia, ?Ib);
    vm_compute in Ea, Eb; by simplify_eq.
Qed.
