(* ===== verification/Consistency.v ===== *)
(** * Session guarantees

    Models [src/internal/consistency]: the [ConsistencyGuarantee] interface and its five
    implementations.  A guarantee records what clients read and wrote and refuses a read that would
    contradict it.  Entry pointers are options; dereferencing a nil one panics. *)

From S2P Require Import Prelude Storage.
Import (hints) VectorClock.

Module Consistency.
Import VectorClock.

Abbreviation clock := (gmap string N).
Abbreviation frontiers := (gmap string (gmap string clock)).

(** The four errors, with the values their messages print. *)
Inductive ReadError :=
  | CausalViolation (clientID : string) (required : clock) (key : string) (got : option clock)
  | MonotonicReadViolation (clientID : string) (seen : clock) (key : string) (got : option clock)
  | RYWViolation (clientID : string) (required : clock) (key : string) (got : option clock)
  | ConsistentPrefixViolation (key : string) (last : clock) (got : option clock)
  | BoundedStalenessViolation (key : string) (lagMs bound : Z).

(** The interface.  [ValidateRead] returns the error, if any. *)
Class ConsistencyGuarantee (S : Type) := {
  Name : S → string;
  ValidateRead : S → string → option KVEntry → Res (option ReadError);
  RecordRead : S → string → option KVEntry → Res S;
  RecordWrite : S → string → option KVEntry → Res S;
}.

Definition deref {A} (p : option A) : Res A := res_of p.

(** [cur.Clone().Merge(entry.VClock)], where a nil [cur] is first replaced by an empty clock. *)
Definition advanced (cur : option clock) (vc : option clock) : clock :=
  Merge (Clone (Some (default NewVectorClock cur))) (clock_of vc).

(** The per-client update shared by three of the implementations. *)
Definition bump (m : frontiers) (clientID : string) (entry : KVEntry) : frontiers :=
  let m := match m !! clientID with None => <[clientID := ∅]> m | Some _ => m end in
  let keys := default ∅ (m !! clientID) in
  <[clientID := <[kv_Key entry := advanced (keys !! kv_Key entry) (kv_VClock entry)]> keys]> m.

(** The per-client check shared by them. *)
Definition check (m : frontiers) (clientID : string) (proposed : option KVEntry)
  (err : clock → string → option clock → ReadError) : Res (option ReadError) :=
  match m !! clientID with
  | None => Ok None
  | Some keys =>
      p ← deref proposed;
      match keys !! kv_Key p with
      | None => Ok None
      | Some required =>
          Ok (if negb (Dominates (clock_of (kv_VClock p)) required)
              then Some (err required (kv_Key p) (kv_VClock p)) else None)
      end
  end.

Record CausalConsistency := MkCausal { observed : frontiers }.
Definition NewCausalConsistency : CausalConsistency := MkCausal ∅.

Definition causal_record (c : CausalConsistency) (clientID : string) (entry : option KVEntry)
  : Res CausalConsistency :=
  match entry with
  | None => Ok c
  | Some e =>
      match kv_VClock e with
      | None => Ok c
      | Some _ => Ok (MkCausal (bump (observed c) clientID e))
      end
  end.

Definition causal_ValidateRead (c : CausalConsistency) (clientID : string) (proposed : option KVEntry)
  : Res (option ReadError) := check (observed c) clientID proposed (CausalViolation clientID).

#[export] Instance causal_guarantee : ConsistencyGuarantee CausalConsistency := {
  Name _ := "causal";
  ValidateRead := causal_ValidateRead;
  RecordRead c clientID entry := causal_record c clientID entry;
  RecordWrite c clientID entry := causal_record c clientID entry;
}.

Record MonotonicReads := MkMonotonic { clientReads : frontiers }.
Definition NewMonotonicReads : MonotonicReads := MkMonotonic ∅.

Definition monotonic_ValidateRead (m : MonotonicReads) (clientID : string) (proposed : option KVEntry)
  : Res (option ReadError) := check (clientReads m) clientID proposed (MonotonicReadViolation clientID).

Definition monotonic_RecordRead (m : MonotonicReads) (clientID : string) (entry : option KVEntry)
  : Res MonotonicReads :=
  e ← deref entry; Ok (MkMonotonic (bump (clientReads m) clientID e)).

#[export] Instance monotonic_guarantee : ConsistencyGuarantee MonotonicReads := {
  Name _ := "monotonic_reads";
  ValidateRead := monotonic_ValidateRead;
  RecordRead := monotonic_RecordRead;
  RecordWrite m clientID entry := Ok m;
}.

Record ReadYourWrites := MkRYW { clientWrites : frontiers }.
Definition NewReadYourWrites : ReadYourWrites := MkRYW ∅.

Definition ryw_ValidateRead (r : ReadYourWrites) (clientID : string) (proposed : option KVEntry)
  : Res (option ReadError) := check (clientWrites r) clientID proposed (RYWViolation clientID).

Definition ryw_RecordWrite (r : ReadYourWrites) (clientID : string) (entry : option KVEntry)
  : Res ReadYourWrites :=
  e ← deref entry; Ok (MkRYW (bump (clientWrites r) clientID e)).

#[export] Instance ryw_guarantee : ConsistencyGuarantee ReadYourWrites := {
  Name _ := "read_your_writes";
  ValidateRead := ryw_ValidateRead;
  RecordRead r clientID entry := Ok r;
  RecordWrite := ryw_RecordWrite;
}.

Record ConsistentPrefix := MkPrefix { sequence : gmap string clock }.
Definition NewConsistentPrefix : ConsistentPrefix := MkPrefix ∅.

Definition prefix_advance (c : ConsistentPrefix) (entry : option KVEntry) : Res ConsistentPrefix :=
  e ← deref entry;
  Ok (MkPrefix (<[kv_Key e := advanced (sequence c !! kv_Key e) (kv_VClock e)]> (sequence c))).

Definition prefix_validate (c : ConsistentPrefix) (proposed : option KVEntry) : Res (option ReadError) :=
  p ← deref proposed;
  match sequence c !! kv_Key p with
  | None => Ok None
  | Some last =>
      Ok (if negb (Dominates (clock_of (kv_VClock p)) last)
          then Some (ConsistentPrefixViolation (kv_Key p) last (kv_VClock p)) else None)
  end.

#[export] Instance prefix_guarantee : ConsistencyGuarantee ConsistentPrefix := {
  Name _ := "consistent_prefix";
  ValidateRead c _ proposed := prefix_validate c proposed;
  RecordRead c _ entry := prefix_advance c entry;
  RecordWrite c _ entry := prefix_advance c entry;
}.

Record BoundedStaleness := MkBounded { MaxLagMillis : Z; freshest : gmap string Z }.

Definition NewBoundedStaleness (maxLagMillis : Z) : BoundedStaleness :=
  MkBounded (if (maxLagMillis <=? 0)%Z then 1000 else maxLagMillis) ∅.

Definition bounded_validate (b : BoundedStaleness) (proposed : option KVEntry) : Res (option ReadError) :=
  p ← deref proposed;
  match freshest b !! kv_Key p with
  | None => Ok None
  | Some newest =>
      let lagMs := Z.quot (i64 (newest - kv_Timestamp p)) 1000000 in
      Ok (if (MaxLagMillis b <? lagMs)%Z
          then Some (BoundedStalenessViolation (kv_Key p) lagMs (MaxLagMillis b)) else None)
  end.

Definition bounded_record_write (b : BoundedStaleness) (entry : option KVEntry) : BoundedStaleness :=
  match entry with
  | None => b
  | Some e =>
      if (default 0 (freshest b !! kv_Key e) <? kv_Timestamp e)%Z
      then MkBounded (MaxLagMillis b) (<[kv_Key e := kv_Timestamp e]> (freshest b)) else b
  end.

#[export] Instance bounded_guarantee : ConsistencyGuarantee BoundedStaleness := {
  Name _ := "bounded_staleness";
  ValidateRead b _ proposed := bounded_validate b proposed;
  RecordRead b _ entry := Ok b;
  RecordWrite b _ entry := Ok (bounded_record_write b entry);
}.

(** ** Sessions *)

(** A client's read or write of an entry, in the order the guarantee records them. *)
Inductive event := ERead (clientID : string) (e : KVEntry) | EWrite (clientID : string) (e : KVEntry).

Definition ev_client (ev : event) : string := match ev with ERead c _ | EWrite c _ => c end.
Definition ev_entry (ev : event) : KVEntry := match ev with ERead _ e | EWrite _ e => e end.
Definition is_read (ev : event) : bool := match ev with ERead _ _ => true | EWrite _ _ => false end.

Section sessions.
Context {S : Type} `{!ConsistencyGuarantee S}.

Definition record_event (s : S) (ev : event) : Res S :=
  match ev with
  | ERead c e => RecordRead s c (Some e)
  | EWrite c e => RecordWrite s c (Some e)
  end.

Fixpoint record_all (s : S) (evs : list event) : Res S :=
  match evs with
  | [] => Ok s
  | ev :: evs' => s' ← record_event s ev; record_all s' evs'
  end.

(** The read passes. *)
Definition accepts (s : S) (c : string) (p : KVEntry) : Prop := ValidateRead s c (Some p) = Ok None.

End sessions.

(** A guarantee that keeps one clock per client and key: [front] reads it, [relevant] says which
    events a client's reads must dominate. *)
Class ClockGuarantee (S : Type) `{!ConsistencyGuarantee S} := {
  front : S → string → string → option clock;
  relevant : string → event → bool;
  record_front s ev : ∃ s', record_event s ev = Ok s' ∧
    ∀ c k, front s' c k =
      if relevant c ev && bool_decide (kv_Key (ev_entry ev) = k)
      then Some (advanced (front s c k) (kv_VClock (ev_entry ev))) else front s c k;
  accepts_front s c p : accepts s c p ↔
    ∀ f, front s c (kv_Key p) = Some f → Dominates (clock_of (kv_VClock p)) f = true;
}.

Lemma Dominates_advanced vc cur new :
  Dominates vc (advanced cur new) = Dominates vc (default ∅ cur) && Dominates vc (clock_of new).
Proof. unfold advanced. by rewrite Dominates_Merge, Clone_id. Qed.

Lemma Dominates_empty vc : Dominates vc ∅ = true.
Proof. apply Dominates_spec. intros n. unfold get0. rewrite lookup_empty. simpl. lia. Qed.

Section clock_guarantee.
Context {S : Type} `{ClockGuarantee S}.

Lemma record_all_front evs c p : ∀ s,
  ∃ s', record_all s evs = Ok s' ∧
    (accepts s' c p ↔ accepts s c p ∧
       ∀ ev, ev ∈ evs → relevant (S := S) c ev = true → kv_Key (ev_entry ev) = kv_Key p →
             Dominates (clock_of (kv_VClock p)) (clock_of (kv_VClock (ev_entry ev))) = true).
Proof.
  induction evs as [|ev evs IH]; intros s; cbn [record_all].
  { exists s. split; [done|]. split; [|by intros [? _]]. intros ?. split; [done|]. by intros ev ?%elem_of_nil. }
  destruct (record_front s ev) as (s1 & -> & Hf). rewrite Res_bind_Ok.
  destruct (IH s1) as (s' & -> & Hs'). exists s'. split; [done|]. rewrite Hs'.
  assert (Hone : accepts s1 c p ↔ accepts s c p ∧
    (relevant (S := S) c ev = true → kv_Key (ev_entry ev) = kv_Key p →
     Dominates (clock_of (kv_VClock p)) (clock_of (kv_VClock (ev_entry ev))) = true)).
  { rewrite !accepts_front. rewrite Hf. destruct (relevant c ev); simpl; [|naive_solver].
    case_bool_decide as Hk; [|naive_solver]. split.
    - intros Ha. specialize (Ha _ eq_refl). rewrite Dominates_advanced, andb_true_iff in Ha.
      destruct Ha as [Hc Hn]. split; [|done]. intros f Hfr. by rewrite Hfr in Hc.
    - intros [Hc Hn] f [= <-]. rewrite Dominates_advanced, andb_true_iff. split; [|by apply Hn].
      destruct (front s c (kv_Key p)); [by apply Hc|apply Dominates_empty]. }
  rewrite Hone. setoid_rewrite elem_of_cons. naive_solver.
Qed.

End clock_guarantee.

(** What [bump] does to the clock of a client and key. *)
Definition front_of (m : frontiers) (c k : string) : option clock := m !! c ≫= λ keys, keys !! k.

Lemma bump_front m cl e c k :
  front_of (bump m cl e) c k =
    if bool_decide (cl = c) && bool_decide (kv_Key e = k)
    then Some (advanced (front_of m c k) (kv_VClock e)) else front_of m c k.
Proof.
  unfold bump, front_of. case_bool_decide as Hc; [subst cl|]; simpl.
  - destruct (m !! c) as [keys|] eqn:Hm; rewrite !lookup_insert_eq; simpl.
    + rewrite Hm. simpl. case_bool_decide as Hk; [subst k; by rewrite lookup_insert_eq|by rewrite lookup_insert_ne].
    + case_bool_decide as Hk; [subst k|by rewrite lookup_insert_ne]. rewrite lookup_insert_eq. by rewrite lookup_empty.
  - rewrite lookup_insert_ne by done. destruct (m !! cl); [done|by rewrite lookup_insert_ne].
Qed.

Lemma check_front m c p err :
  check m c (Some p) err = Ok None ↔
    ∀ f, front_of m c (kv_Key p) = Some f → Dominates (clock_of (kv_VClock p)) f = true.
Proof.
  unfold check, front_of. destruct (m !! c) as [keys|]; simpl; [|naive_solver].
  destruct (keys !! kv_Key p) as [f|]; [|naive_solver].
  destruct (Dominates _ f) eqn:Hd; simpl; [naive_solver|]. split; [done|]. intros Hf.
  rewrite Hf in Hd; done.
Qed.

#[export] Program Instance causal_clock : ClockGuarantee CausalConsistency := {
  front s c k := front_of (observed s) c k;
  relevant c ev := bool_decide (ev_client ev = c) && bool_decide (is_Some (kv_VClock (ev_entry ev)));
}.
Next Obligation.
  intros s ev. destruct ev as [cl e|cl e]; simpl; (destruct (kv_VClock e) eqn:Hv;
    [rewrite (bool_decide_eq_true_2 (is_Some (Some _))) by eauto; eexists; split; [done|]; intros c k; simpl;
     by rewrite bump_front, andb_true_r, Hv
    |rewrite (bool_decide_eq_false_2 (is_Some None)) by (by intros []); exists s; split; [done|];
     intros c k; by rewrite andb_false_r]).
Qed.
Next Obligation. intros s c p. apply check_front. Qed.

#[export] Program Instance monotonic_clock : ClockGuarantee MonotonicReads := {
  front s c k := front_of (clientReads s) c k;
  relevant c ev := is_read ev && bool_decide (ev_client ev = c);
}.
Next Obligation.
  intros s [cl e|cl e]; eexists; (split; [done|]); intros c k; simpl; [apply bump_front|done].
Qed.
Next Obligation. intros s c p. apply check_front. Qed.

#[export] Program Instance ryw_clock : ClockGuarantee ReadYourWrites := {
  front s c k := front_of (clientWrites s) c k;
  relevant c ev := negb (is_read ev) && bool_decide (ev_client ev = c);
}.
Next Obligation.
  intros s [cl e|cl e]; eexists; (split; [done|]); intros c k; simpl; [done|apply bump_front].
Qed.
Next Obligation. intros s c p. apply check_front. Qed.

#[export] Program Instance prefix_clock : ClockGuarantee ConsistentPrefix := {
  front s _ k := sequence s !! k;
  relevant _ _ := true;
}.
Next Obligation.
  intros s [cl e|cl e]; eexists; (split; [done|]); intros c k; simpl;
    (case_bool_decide as Hk; [subst k; by rewrite lookup_insert_eq|by rewrite lookup_insert_ne]).
Qed.
Next Obligation.
  intros s c p. unfold accepts. simpl. unfold prefix_validate. simpl.
  destruct (sequence s !! kv_Key p) as [f|]; [|naive_solver].
  destruct (Dominates _ f) eqn:Hd; simpl; [naive_solver|]. split; [done|]. intros Hf.
  rewrite Hf in Hd; done.
Qed.

(** *** Bounded staleness *)

(** The newest positive write timestamp of a key in a trace, starting from [cur]. *)
Fixpoint newest_write (k : string) (evs : list event) (cur : option Z) : option Z :=
  match evs with
  | [] => cur
  | EWrite _ e :: evs' =>
      newest_write k evs'
        (if bool_decide (kv_Key e = k) && (default 0 cur <? kv_Timestamp e)%Z then Some (kv_Timestamp e) else cur)
  | ERead _ _ :: evs' => newest_write k evs' cur
  end.

Lemma newest_write_spec k evs : ∀ cur,
  (∀ t, cur = Some t → (0 < t)%Z) →
  match newest_write k evs cur with
  | None => cur = None ∧ ∀ c e, EWrite c e ∈ evs → kv_Key e = k → (kv_Timestamp e ≤ 0)%Z
  | Some t => (0 < t)%Z ∧ (default 0 cur ≤ t)%Z ∧
      (cur = Some t ∨ ∃ c e, EWrite c e ∈ evs ∧ kv_Key e = k ∧ kv_Timestamp e = t) ∧
      ∀ c e, EWrite c e ∈ evs → kv_Key e = k → (kv_Timestamp e ≤ t)%Z
  end.
Proof.
  induction evs as [|[c0 e0|c0 e0] evs IH]; intros cur Hcur; cbn [newest_write].
  - destruct cur as [t|]; [|split; [done|by intros ? ? ?%elem_of_nil]].
    split_and!; [by apply Hcur|done|by left|by intros ? ? ?%elem_of_nil].
  - specialize (IH cur Hcur). destruct (newest_write k evs cur); setoid_rewrite elem_of_cons; naive_solver.
  - match goal with |- context [newest_write k evs ?x] => set (cur' := x) end.
    assert (Hc' : ∀ t, cur' = Some t → (0 < t)%Z).
    { subst cur'. intros t. case_match eqn:Hm; [|apply Hcur]. apply andb_true_iff in Hm as [_ Hlt%Z.ltb_lt].
      intros [= <-]. destruct cur as [t0|]; simpl in Hlt; [specialize (Hcur t0 eq_refl)|]; lia. }
    specialize (IH cur' Hc'). subst cur'. case_bool_decide as Hk; simpl in IH |- *.
    + destruct (Z.ltb_spec (default 0%Z cur) (kv_Timestamp e0)) as [Hlt|Hge]; simpl in IH.
      * destruct (newest_write k evs _) as [t|]; [|by destruct IH]. destruct IH as (H1 & H2 & H3 & H4).
        split_and!; [done|lia| |].
        -- right. destruct H3 as [[= <-] | (c & e & Hin & ? & ?)].
           ++ exists c0, e0. split; [left|done].
           ++ exists c, e. split; [by right|done].
        -- intros c e [[= -> ->] | Hin]%elem_of_cons ?; [lia|eauto].
      * destruct (newest_write k evs cur) as [t|].
        -- destruct IH as (H1 & H2 & H3 & H4). split_and!; [done|done| |].
           ++ destruct H3 as [H3 | (c & e & Hin & ? & ?)]; [by left|]. right. exists c, e. split; [by right|done].
           ++ intros c e [[= -> ->] | Hin]%elem_of_cons ?; [lia|eauto].
        -- destruct IH as [-> H4]. split; [done|].
           intros c e [[= -> ->] | Hin]%elem_of_cons ?; [simpl in Hge; lia|eauto].
    + destruct (newest_write k evs cur) as [t|].
      * destruct IH as (H1 & H2 & H3 & H4). split_and!; [done|done| |].
        -- destruct H3 as [H3 | (c & e & Hin & ? & ?)]; [by left|]. right. exists c, e. split; [by right|done].
        -- intros c e [[= -> ->] | Hin]%elem_of_cons ?; [done|eauto].
      * destruct IH as [-> H4]. split; [done|]. intros c e [[= -> ->] | Hin]%elem_of_cons ?; [done|eauto].
Qed.

Lemma bounded_freshest k evs : ∀ b : BoundedStaleness,
  ∃ b', record_all b evs = Ok b' ∧ MaxLagMillis b' = MaxLagMillis b ∧
    freshest b' !! k = newest_write k evs (freshest b !! k).
Proof.
  induction evs as [|[c e|c e] evs IH]; intros b; cbn [record_all newest_write]; [by exists b|apply IH|].
  destruct (IH (bounded_record_write b (Some e))) as (b' & Hb' & Hm & Hf). exists b'. split; [exact Hb'|].
  rewrite Hm, Hf. simpl. split; [by case_match|].
  case_bool_decide as Hk; [subst k|]; destruct (_ <? _)%Z; simpl; try done.
  - by rewrite lookup_insert_eq.
  - by rewrite lookup_insert_ne.
Qed.

End Consistency.

Import Consistency.


(** Bounded staleness. Whatever has been recorded, a read is refused exactly when some write to its
    key carries a positive timestamp and the newest such timestamp is ahead of the read's by at least
    one millisecond more than the bound, lags being truncated to whole milliseconds. Timestamps are
    non-negative [int64] values. *)
Theorem bounded_staleness_exact (bound : Z) (evs : list event) (c : string) (p : KVEntry)
  (Hp : (0 ≤ kv_Timestamp p < 9223372036854775808)%Z)
  (Hevs : ∀ ev, ev ∈ evs → (0 ≤ kv_Timestamp (ev_entry ev) < 9223372036854775808)%Z) :
  let B := if (bound <=? 0)%Z then 1000%Z else bound in
  ∃ b, record_all (NewBoundedStaleness bound) evs = Ok b ∧
    (¬ accepts b c p ↔
      ∃ c' e, EWrite c' e ∈ evs ∧ kv_Key e = kv_Key p ∧
        ((B + 1) * 1000000 ≤ kv_Timestamp e - kv_Timestamp p)%Z).
Proof.
  intros B. destruct (bounded_freshest (kv_Key p) evs (NewBoundedStaleness bound)) as (b & Hb & HB & Hf).
  exists b. split; [done|]. unfold accepts. simpl. unfold bounded_validate. simpl. rewrite Hf, HB. simpl. fold B.
  rewrite lookup_empty. assert (HBpos : (0 < B)%Z) by (unfold B; destruct (Z.leb_spec bound 0); lia).
  pose proof (newest_write_spec (kv_Key p) evs None ltac:(done)) as Hn.
  destruct (newest_write (kv_Key p) evs None) as [t|].
  - destruct Hn as (Ht & _ & Hsrc & Hmax). destruct Hsrc as [? | (c1 & e1 & Hin1 & Hk1 & Ht1)]; [done|].
    pose proof (Hevs _ Hin1) as Hr1. simpl in Hr1. rewrite i64_id by (unfold in_i64, two63; lia).
    assert (Hlag : (B <? Z.quot (t - kv_Timestamp p) 1000000)%Z = true ↔ ((B + 1) * 1000000 ≤ t - kv_Timestamp p)%Z).
    { rewrite Z.ltb_lt. split; intros Hq; [|].
      - destruct (Z.le_gt_cases 0 (t - kv_Timestamp p)).
        + rewrite Z.quot_div_nonneg in Hq by lia. pose proof (Z.mul_div_le (t - kv_Timestamp p) 1000000). lia.
        + pose proof (Z.quot_le_upper_bound (t - kv_Timestamp p) 1000000 0). lia.
      - rewrite Z.quot_div_nonneg by lia. apply Z.le_succ_l. apply Z.div_le_lower_bound; lia. }
    split.
    + intros Ha. exists c1, e1. split_and!; [done|done|]. rewrite Ht1. apply Hlag.
      destruct (_ <? _)%Z; [done|]. by destruct Ha.
    + intros (c2 & e2 & Hin2 & Hk2 & Hl2). specialize (Hmax _ _ Hin2 Hk2).
      rewrite (proj2 Hlag) by lia. done.
  - destruct Hn as [_ Hn]. split; [by intros []|]. intros (c' & e & Hin & Hk & Hl).
    specialize (Hn _ _ Hin Hk). lia.
Qed.

Lemma bounded_staleness_exact_witness :
  let w := MkKVEntry "k" None None 1000000000 "n" false 1 in
  let p := MkKVEntry "k" None None 700000000 "n" false 1 in
  ∃ b, record_all (NewBoundedStaleness 100) [EWrite "c1" w] = Ok b ∧ ¬ accepts b "c2" p.
Proof.
  intros w p. destruct (bounded_staleness_exact 100 [EWrite "c1" w] "c2" p) as (b & Hb & Ha).
  - split; by vm_compute.
  - intros ev ->%list_elem_of_singleton. split; by vm_compute.
  - exists b. split; [done|]. apply Ha. exists "c1", w. split_and!; [left|done|by vm_compute].
Defined.
