(* ===== verification/SimClock.v ===== *)
(** * The virtual clock

    Models [VirtualClock] of [src/internal/simclock/clock.go]: a logical time and a binary min-heap of
    timers ordered by (deadline, seq), maintained with the sift-up and sift-down of Go's
    [container/heap].  A timer's channel is identified by its [seq]; the heap position that
    [container/heap] lets a timer record ([index]) is written but never read and is left out. *)

From S2P Require Import Prelude.

Module Heap.

Section heap.
Context {A : Type} (less : A → A → bool).

(** [h.Swap(i, j)] and [h.Less(i, j)]; an index out of range panics. *)
Definition Swap (h : list A) (i j : nat) : Res (list A) :=
  match h !! i, h !! j with
  | Some a, Some b => Ok (<[j := a]> (<[i := b]> h))
  | _, _ => Panic
  end.

Definition Less (h : list A) (i j : nat) : Res bool :=
  match h !! i, h !! j with
  | Some a, Some b => Ok (less a b)
  | _, _ => Panic
  end.

(** [up(h, j)]: the child climbs while it is smaller than its parent.  In Go the parent of 0 is
    [(0-1)/2 = 0], as it is here. *)
Fixpoint up (fuel : nat) (h : list A) (j : nat) : Res (list A) :=
  match fuel with
  | O => Panic
  | S fuel' =>
      let i := (j - 1) / 2 in
      if i =? j then Ok h
      else b ← Less h j i;
           if negb b then Ok h else h' ← Swap h i j; up fuel' h' i
  end.

(** The child [down] compares with: the right one when it is there and smaller. *)
Definition smaller_child (h : list A) (j1 n : nat) : Res nat :=
  let j2 := j1 + 1 in
  if j2 <? n then b ← Less h j2 j1; Ok (if b : bool then j2 else j1) else Ok j1.

(** [down(h, i, n)]: the parent sinks below its smaller child. *)
Fixpoint down (fuel : nat) (h : list A) (i n : nat) : Res (list A) :=
  match fuel with
  | O => Panic
  | S fuel' =>
      let j1 := 2 * i + 1 in
      if n <=? j1 then Ok h
      else
        j ← smaller_child h j1 n;
        b ← Less h j i;
        if negb b then Ok h else h' ← Swap h i j; down fuel' h' j n
  end.

(** [heap.Push] and [heap.Pop], with the heap's own [Push] (append) and [Pop] (drop the last). *)
Definition Push (h : list A) (x : A) : Res (list A) := up (S (length h)) (h ++ [x]) (length h).

Definition Pop (h : list A) : Res (A * list A) :=
  match length h with
  | O => Panic
  | S n =>
      h1 ← Swap h 0 n;
      h2 ← down (S n) h1 0 n;
      x ← res_of (h2 !! n);
      Ok (x, take n h2)
  end.

(** ** Correctness *)

Context (Htot : ∀ a b, less a b = false ∨ less b a = false).
Context (Htrans : ∀ a b c, less b a = false → less c b = false → less c a = false).

Definition le (a b : A) : Prop := less b a = false.

(** The element at [i] is at most the one at [j], when both are there. *)
Definition le_at (h : list A) (i j : nat) : Prop := ∀ a b, h !! i = Some a → h !! j = Some b → le a b.

Definition parent (k : nat) : nat := (k - 1) / 2.

(** The first [n] positions form a heap. *)
Definition is_heap (h : list A) (n : nat) : Prop := ∀ k, 0 < k → k < n → le_at h (parent k) k.

Lemma le_refl a : le a a.
Proof. unfold le. by destruct (Htot a a). Qed.

Lemma less_le a b : less a b = true → le a b.
Proof. unfold le. destruct (Htot a b) as [->|]; done. Qed.

Lemma parent_lt k : 0 < k → parent k < k.
Proof. intros. apply Nat.Div0.div_lt_upper_bound; lia. Qed.

Lemma parent_child k i : 0 < k → parent k = i ↔ k = 2 * i + 1 ∨ k = 2 * i + 2.
Proof.
  intros. unfold parent. pose proof (Nat.div_mod (k - 1) 2 ltac:(lia)).
  pose proof (Nat.mod_upper_bound (k - 1) 2 ltac:(lia)). split; [lia|].
  intros [-> | ->]; [replace (2 * i + 1 - 1) with (i * 2) by lia|replace (2 * i + 2 - 1) with (1 + i * 2) by lia];
    [by apply Nat.div_mul|]. rewrite Nat.div_add by lia. done.
Qed.

Lemma Swap_spec h i j : i < length h → j < length h →
  ∃ h', Swap h i j = Ok h' ∧ h' ≡ₚ h ∧ length h' = length h ∧
    ∀ k, h' !! k = if decide (k = j) then h !! i else if decide (k = i) then h !! j else h !! k.
Proof.
  intros [a Ha]%lookup_lt_is_Some [b Hb]%lookup_lt_is_Some. unfold Swap. rewrite Ha, Hb.
  eexists; split; [done|]. split_and!.
  - by apply Permutation_insert_swap.
  - by rewrite !length_insert.
  - intros k. pose proof (lookup_lt_Some _ _ _ Ha). pose proof (lookup_lt_Some _ _ _ Hb).
    destruct (decide (k = j)) as [->|]; [by rewrite list_lookup_insert_eq by (by rewrite length_insert)|].
    rewrite list_lookup_insert_ne by done.
    destruct (decide (k = i)) as [->|]; [by rewrite list_lookup_insert_eq|by rewrite list_lookup_insert_ne].
Qed.

Lemma Less_spec h i j : i < length h → j < length h →
  ∃ b, Less h i j = Ok b ∧ (if b then le_at h i j else le_at h j i).
Proof.
  intros [a Ha]%lookup_lt_is_Some [b Hb]%lookup_lt_is_Some. unfold Less. rewrite Ha, Hb.
  eexists; split; [done|]. destruct (less a b) eqn:E; intros x y Hx Hy; simplify_eq; [by apply less_le|done].
Qed.

Lemma le_at_trans h i j k : j < length h → le_at h i j → le_at h j k → le_at h i k.
Proof.
  intros [b Hb]%lookup_lt_is_Some H1 H2 a c Ha Hc. unfold le in *. eapply Htrans; [by apply H1|by apply H2].
Qed.

(** Only position [j] may be smaller than its parent. *)
Definition up_inv (h : list A) (j : nat) : Prop :=
  (∀ k, 0 < k → k < length h → k ≠ j → le_at h (parent k) k) ∧
  (0 < j → ∀ k, 0 < k → k < length h → parent k = j → le_at h (parent j) k).

(** Rewrites a comparison in the swapped heap to one in the old heap. *)
Ltac swapped Hl := unfold le_at; rewrite !Hl; repeat first [rewrite decide_True by lia | rewrite decide_False by lia].

Lemma up_step h h' j : j < length h → 0 < j → up_inv h j → le_at h j (parent j) →
  length h' = length h →
  (∀ k, h' !! k = if decide (k = j) then h !! parent j else if decide (k = parent j) then h !! j else h !! k) →
  up_inv h' (parent j).
Proof.
  intros Hj Hpos [Ha Hb] Hless Hlen Hl. pose proof (parent_lt j Hpos) as Hp. split; rewrite Hlen.
  - intros k Hk Hkn Hne. pose proof (parent_lt k Hk) as Hpk. destruct (decide (k = j)) as [->|Hkj].
    + swapped Hl. exact Hless.
    + destruct (decide (parent k = j)) as [E|E].
      * swapped Hl. by apply Hb.
      * destruct (decide (parent k = parent j)) as [E'|E'].
        -- swapped Hl. apply (le_at_trans h j (parent j) k); [lia|done|]. rewrite <-E'. by apply Ha.
        -- swapped Hl. by apply Ha.
  - intros Hpp k Hk Hkn E. pose proof (parent_lt (parent j) Hpp). pose proof (parent_lt k Hk).
    destruct (decide (k = j)) as [->|Hkj]; swapped Hl.
    + apply Ha; lia.
    + apply (le_at_trans h _ (parent j) k); [lia|apply Ha; lia|]. rewrite <-E. apply Ha; lia.
Qed.

Lemma up_spec fuel : ∀ h j, j < length h → j < fuel → up_inv h j →
  ∃ h', up fuel h j = Ok h' ∧ h' ≡ₚ h ∧ is_heap h' (length h').
Proof.
  induction fuel as [|fuel IH]; intros h j Hj Hf Hinv; [lia|]. cbn [up].
  change ((j - 1) / 2) with (parent j). destruct (Nat.eqb_spec (parent j) j) as [E|E].
  { exists h. split_and!; [done|done|]. intros k Hk Hkn. apply Hinv; [done|done|]. intros ->.
    pose proof (parent_lt j Hk). lia. }
  assert (0 < j). { destruct j; [done|lia]. }
  pose proof (parent_lt j ltac:(done)).
  destruct (Less_spec h j (parent j)) as (b & -> & Hb); [lia|lia|]. rewrite Res_bind_Ok. destruct b; simpl.
  - destruct (Swap_spec h (parent j) j) as (h1 & -> & Hp1 & Hlen1 & Hl1); [lia|lia|]. rewrite Res_bind_Ok.
    destruct (IH h1 (parent j)) as (h' & -> & Hp' & Hh'); [lia|lia|by apply (up_step h h1 j)|].
    exists h'. split_and!; [done|by rewrite Hp'|done].
  - exists h. split_and!; [done|done|]. intros k Hk Hkn. destruct (decide (k = j)) as [->|]; [done|]. by apply Hinv.
Qed.

(** Only position [i] may be greater than its children. *)
Definition down_inv (h : list A) (i n : nat) : Prop :=
  (∀ k, 0 < k → k < n → parent k ≠ i → le_at h (parent k) k) ∧
  (0 < i → ∀ k, 0 < k → k < n → parent k = i → le_at h (parent i) k).

Lemma down_step h h' i j n : n ≤ length h → j < n → 0 < j → parent j = i → down_inv h i n → le_at h j i →
  (∀ k, 0 < k → k < n → parent k = i → le_at h j k) →
  (∀ k, h' !! k = if decide (k = j) then h !! i else if decide (k = i) then h !! j else h !! k) →
  down_inv h' j n.
Proof.
  intros Hn Hj Hpos Hpar [Ha Hb] Hless Hmin Hl. pose proof (parent_lt j Hpos) as Hp. split.
  - intros k Hk Hkn Hne. pose proof (parent_lt k Hk) as Hpk. destruct (decide (parent k = i)) as [E|E].
    + destruct (decide (k = j)) as [->|Hkj]; swapped Hl; [exact Hless|by apply Hmin].
    + assert (k ≠ j) by congruence. destruct (decide (k = i)) as [->|Hki]; swapped Hl; [|by apply Ha].
      apply Hb; lia.
  - intros _ k Hk Hkn E. pose proof (parent_lt k Hk). rewrite Hpar. swapped Hl. rewrite <-E. apply Ha; lia.
Qed.

Lemma smaller_child_spec h i n : n ≤ length h → 2 * i + 1 < n →
  ∃ j, smaller_child h (2 * i + 1) n = Ok j ∧ 0 < j ∧ j < n ∧ parent j = i ∧
    ∀ k, 0 < k → k < n → parent k = i → le_at h j k.
Proof.
  intros Hn Hi. unfold smaller_child.
  assert (Hch : ∀ j, j = 2 * i + 1 ∨ j = 2 * i + 2 → 0 < j ∧ parent j = i).
  { intros j Hj. split; [lia|]. apply parent_child; [lia|done]. }
  assert (Hrefl : ∀ j, le_at h j j) by (intros j a b Hx Hy; simplify_eq; apply le_refl).
  destruct (Nat.ltb_spec (2 * i + 1 + 1) n) as [H2|H2].
  - destruct (Less_spec h (2 * i + 1 + 1) (2 * i + 1)) as (b & -> & Hb); [lia|lia|]. rewrite Res_bind_Ok.
    exists (if b then 2 * i + 1 + 1 else 2 * i + 1). split; [done|].
    destruct (Hch (if b then 2 * i + 1 + 1 else 2 * i + 1)) as [Hp Hq]; [destruct b; lia|].
    split_and!; [done|destruct b; lia|done|]. intros k Hk Hkn [-> | ->]%parent_child; [| |done].
    + destruct b; [done|apply Hrefl].
    + replace (2 * i + 2) with (2 * i + 1 + 1) by lia. destruct b; [apply Hrefl|done].
  - exists (2 * i + 1). destruct (Hch (2 * i + 1)) as [Hp Hq]; [lia|].
    split_and!; [done|done|lia|done|]. intros k Hk Hkn [-> | ->]%parent_child; [apply Hrefl|lia|done].
Qed.

Lemma down_spec fuel : ∀ h i n, n ≤ length h → n - i < fuel → down_inv h i n →
  ∃ h', down fuel h i n = Ok h' ∧ h' ≡ₚ h ∧ is_heap h' n ∧ ∀ k, n ≤ k → h' !! k = h !! k.
Proof.
  induction fuel as [|fuel IH]; intros h i n Hn Hf Hinv; [lia|]. cbn [down].
  destruct (Nat.leb_spec n (2 * i + 1)) as [Hle|Hlt].
  { exists h. split_and!; try done. intros k Hk Hkn. apply Hinv; [done|done|]. rewrite parent_child by done. lia. }
  destruct (smaller_child_spec h i n Hn Hlt) as (j & -> & Hpos & Hj & Hpar & Hmin). rewrite Res_bind_Ok.
  pose proof (parent_lt j Hpos).
  destruct (Less_spec h j i) as (b & -> & Hb); [lia|lia|]. rewrite Res_bind_Ok. destruct b; simpl.
  - destruct (Swap_spec h i j) as (h1 & -> & Hp1 & Hlen1 & Hl1); [lia|lia|]. rewrite Res_bind_Ok.
    destruct (IH h1 j n) as (h' & -> & Hp' & Hh' & Hout); [lia|lia|by apply (down_step h h1 i j n)|].
    exists h'. split_and!; [done|by rewrite Hp'|done|]. intros k Hk. rewrite Hout by lia.
    rewrite Hl1, !decide_False by lia. done.
  - exists h. split_and!; try done. intros k Hk Hkn. destruct (decide (parent k = i)) as [E|E]; [|by apply Hinv].
    rewrite E. apply (le_at_trans h i j k); [lia|done|by apply Hmin].
Qed.

Lemma Push_spec h x : is_heap h (length h) →
  ∃ h', Push h x = Ok h' ∧ h' ≡ₚ x :: h ∧ is_heap h' (length h').
Proof.
  intros Hh. unfold Push. destruct (up_spec (S (length h)) (h ++ [x]) (length h)) as (h' & -> & Hp & Hh').
  - rewrite length_app. simpl. lia.
  - lia.
  - split; rewrite length_app; simpl.
    + intros k Hk Hkn Hne a b. pose proof (parent_lt k Hk). rewrite !lookup_app_l by lia. by apply Hh; lia.
    + intros _ k Hk Hkn E. pose proof (parent_lt k Hk). lia.
  - exists h'. split_and!; [done| |done]. rewrite Hp. symmetry. apply Permutation_cons_append.
Qed.

Lemma Pop_spec h : is_heap h (length h) → h ≠ [] →
  ∃ x h', Pop h = Ok (x, h') ∧ h !! 0 = Some x ∧ x :: h' ≡ₚ h ∧ is_heap h' (length h').
Proof.
  intros Hh Hne. unfold Pop. destruct (length h) as [|n] eqn:Hlen; [by destruct h|].
  destruct (Swap_spec h 0 n) as (h1 & -> & Hp1 & Hlen1 & Hl1); [lia|lia|]. rewrite Res_bind_Ok.
  destruct (down_spec (S n) h1 0 n) as (h2 & -> & Hp2 & Hh2 & Hout); [lia|lia| |].
  { split; [|lia]. intros k Hk Hkn Hpk. pose proof (parent_lt k Hk). swapped Hl1. apply Hh; lia. }
  rewrite Res_bind_Ok.
  assert (Hlen2 : length h2 = S n) by (rewrite Hp2; lia).
  assert (Hx : h2 !! n = h !! 0) by (by rewrite Hout, Hl1, decide_True by lia).
  destruct (h !! 0) as [x|] eqn:Hx0; [|by apply lookup_ge_None in Hx0; lia].
  rewrite Hx. simpl. eexists x, _. split_and!; [done|done| |].
  - rewrite Permutation_cons_append, <-Hp1, <-Hp2. rewrite <-(take_S_r h2 n x Hx), take_ge by lia. done.
  - rewrite length_take_le by lia. intros k Hk Hkn a b. pose proof (parent_lt k Hk).
    rewrite !lookup_take_lt by lia. by apply Hh2.
Qed.

Lemma root_min h a : is_heap h (length h) → h !! 0 = Some a → ∀ b, b ∈ h → le a b.
Proof.
  intros Hh Ha b [k Hk]%list_elem_of_lookup. revert b Hk.
  induction k as [k IH] using lt_wf_ind. intros b Hb. destruct (decide (k = 0)) as [->|Hne].
  - simplify_eq. apply le_refl.
  - pose proof (parent_lt k ltac:(lia)) as Hp. pose proof (lookup_lt_Some _ _ _ Hb) as Hlt.
    destruct (lookup_lt_is_Some_2 h (parent k) ltac:(lia)) as [c Hc].
    unfold le in *. eapply Htrans; [by apply (IH (parent k))|]. by apply (Hh k); [lia|lia|..].
Qed.

End heap.
End Heap.

Module SimClock.

Record virtualTimer := MkTimer { deadline : Z; t_seq : N }.

Record VirtualClock := MkClock { now : Z; timers : list virtualTimer; seq : N }.

#[export] Instance virtualTimer_eq_dec : EqDecision virtualTimer.
Proof. solve_decision. Defined.

Definition tless (a b : virtualTimer) : bool :=
  if negb (deadline a =? deadline b)%Z then (deadline a <? deadline b)%Z else (t_seq a <? t_seq b)%N.

Definition NewVirtualClock : VirtualClock := MkClock 0 [] 0.

Definition NewVirtualClockAt (start : Z) : VirtualClock := MkClock start (timers NewVirtualClock) (seq NewVirtualClock).

Definition Now (c : VirtualClock) : Z := now c.

(** [after]: the time already delivered on the returned channel, if any, and the new clock. *)
Definition after (c : VirtualClock) (d : Z) : Res (option Z * VirtualClock) :=
  let dl := i64 (now c + d) in
  let t := MkTimer dl (seq c) in
  let c := MkClock (now c) (timers c) (u64N (seq c + 1)) in
  if (dl <=? now c)%Z then Ok (Some (now c), c)
  else h ← Heap.Push tless (timers c) t; Ok (None, MkClock (now c) h (seq c)).

Definition After (c : VirtualClock) (d : Z) : Res (option Z * VirtualClock) := after c d.

(** The state changes of [Sleep]; the caller then waits on the channel. *)
Definition Sleep (c : VirtualClock) (d : Z) : Res VirtualClock :=
  if (d <=? 0)%Z then Ok c else r ← after c d; Ok r.2.

(** The loop of [Advance]: the timers fired, in order, and those left. *)
Fixpoint fire (fuel : nat) (h : list virtualTimer) (now : Z) : Res (list virtualTimer * list virtualTimer) :=
  match fuel with
  | O => Panic
  | S fuel' =>
      match h with
      | [] => Ok ([], h)
      | t0 :: _ =>
          if (deadline t0 <=? now)%Z
          then p ← Heap.Pop tless h; r ← fire fuel' p.2 now; Ok (p.1 :: r.1, r.2)
          else Ok ([], h)
      end
  end.

Definition Advance (c : VirtualClock) (d : Z) : Res (list virtualTimer * VirtualClock) :=
  if (d <=? 0)%Z then Ok ([], c)
  else
    let now := i64 (now c + d) in
    r ← fire (S (length (timers c))) (timers c) now;
    Ok (r.1, MkClock now r.2 (seq c)).

Definition Pending (c : VirtualClock) : nat := length (timers c).

(** ** Runs *)

Inductive op := OAfter (d : Z) | OSleep (d : Z) | OAdvance (d : Z).

(** One operation; the log collects the timers fired by [Advance]. *)
Definition step (s : VirtualClock * list virtualTimer) (o : op) : Res (VirtualClock * list virtualTimer) :=
  match o with
  | OAfter d => r ← After s.1 d; Ok (r.2, s.2)
  | OSleep d => c ← Sleep s.1 d; Ok (c, s.2)
  | OAdvance d => r ← Advance s.1 d; Ok (r.2, s.2 ++ r.1)
  end.

Fixpoint run (s : VirtualClock * list virtualTimer) (os : list op) : Res (VirtualClock * list virtualTimer) :=
  match os with
  | [] => Ok s
  | o :: os' => s' ← step s o; run s' os'
  end.

(** The abstract clock: time, registration counter and everything ever registered. *)
Record Spec := MkSpec { s_now : Z; s_seq : N; s_reg : list virtualTimer }.

Definition spec_register (s : Spec) (d : Z) : Spec :=
  MkSpec (s_now s) (s_seq s + 1) (s_reg s ++ (if (0 <? d)%Z then [MkTimer (s_now s + d) (s_seq s)] else [])).

Definition spec_step (s : Spec) (o : op) : Spec :=
  match o with
  | OAfter d => spec_register s d
  | OSleep d => if (0 <? d)%Z then spec_register s d else s
  | OAdvance d => MkSpec (s_now s + Z.max 0 d) (s_seq s) (s_reg s)
  end.

Definition spec_run (s : Spec) (os : list op) : Spec := foldl spec_step s os.

Definition tleb (a b : virtualTimer) : bool := negb (tless b a).

(** ** Proofs *)

Lemma tless_false a b :
  tless a b = false ↔ (deadline b < deadline a)%Z ∨ deadline a = deadline b ∧ (t_seq b ≤ t_seq a)%N.
Proof.
  unfold tless. destruct (Z.eqb_spec (deadline a) (deadline b)); simpl;
    [rewrite N.ltb_ge|rewrite Z.ltb_ge]; split; intros; lia.
Qed.

Lemma tless_total a b : tless a b = false ∨ tless b a = false.
Proof. rewrite !tless_false. lia. Qed.

Lemma tless_trans a b c : tless b a = false → tless c b = false → tless c a = false.
Proof. rewrite !tless_false. lia. Qed.

Abbreviation tle := (λ a b, tless b a = false).

Lemma tle_antisym a b : tle a b → tle b a → a = b.
Proof. rewrite !tless_false. destruct a, b; simpl. intros. f_equal; lia. Qed.

Definition due (now : Z) (t : virtualTimer) : Prop := (deadline t ≤ now)%Z.

(** The loop fires the due timers in order and stops at the first that is not. *)
Lemma fire_spec now fuel : ∀ h, length h < fuel → Heap.is_heap tless h (length h) →
  ∃ f h', fire fuel h now = Ok (f, h') ∧ f ++ h' ≡ₚ h ∧ Heap.is_heap tless h' (length h') ∧
    StronglySorted tle f ∧ Forall (due now) f ∧ Forall (λ t, ¬ due now t) h'.
Proof.
  induction fuel as [|fuel IH]; intros h Hf Hh; [lia|]. cbn [fire]. destruct h as [|t0 h0] eqn:Eh.
  { exists [], []. split_and!; try done; constructor. }
  rewrite <-Eh in *. assert (Hne : h ≠ []) by (by subst). assert (H0 : h !! 0 = Some t0) by (by subst).
  pose proof (Heap.root_min tless tless_total tless_trans h t0 Hh H0) as Hmin.
  destruct (Z.leb_spec (deadline t0) now) as [Hd|Hd].
  - destruct (Heap.Pop_spec tless tless_total tless_trans h Hh Hne) as (x & h1 & -> & Hx & Hp1 & Hh1).
    rewrite Res_bind_Ok. simpl. rewrite H0 in Hx. injection Hx as <-.
    assert (Hl : length h = S (length h1)) by (by rewrite <-Hp1).
    destruct (IH h1) as (f & h' & -> & Hp & Hh' & Hs & Hdue & Hnot); [lia|done|]. rewrite Res_bind_Ok. simpl.
    exists (t0 :: f), h'. split_and!; [done|by simpl; rewrite Hp|done| |by constructor|done].
    constructor; [done|]. apply Forall_forall. intros y Hy. apply Hmin. rewrite <-Hp1, <-Hp. set_solver.
  - exists [], h. split_and!; try done; [constructor..|]. apply Forall_forall. intros y Hy.
    specialize (Hmin y Hy). unfold Heap.le in Hmin. apply tless_false in Hmin. unfold due. lia.
Qed.

Definition op_d (o : op) : Z := match o with OAfter d | OSleep d | OAdvance d => d end.

(** No logical time or counter of the run leaves its machine width. *)
Definition fits (s : Spec) (os : list op) : Prop :=
  (0 ≤ s_now s)%Z ∧ (s_now s + foldr (λ o z, Z.max 0 (op_d o) + z)%Z 0%Z os < two63)%Z ∧
  (s_seq s + N.of_nat (length os) < two64N)%N ∧ Forall (λ o, (- two63 ≤ op_d o)%Z) os.

Definition inv (st : VirtualClock * list virtualTimer) (s : Spec) : Prop :=
  now st.1 = s_now s ∧ seq st.1 = s_seq s ∧ Heap.is_heap tless (timers st.1) (length (timers st.1)) ∧
  st.2 ++ timers st.1 ≡ₚ s_reg s ∧ StronglySorted tle st.2 ∧
  Forall (due (s_now s)) st.2 ∧ Forall (λ t, ¬ due (s_now s) t) (timers st.1).

Lemma total_nonneg os : (0 ≤ foldr (λ o z, Z.max 0 (op_d o) + z)%Z 0%Z os)%Z.
Proof. induction os; simpl; lia. Qed.

Lemma fits_step s o os : fits s (o :: os) → fits (spec_step s o) os.
Proof.
  intros (H0 & H1 & H2 & H3). apply Forall_cons in H3 as [Hd H3]. simpl in H1, H2. pose proof (total_nonneg os).
  unfold fits. destruct o as [d|d|d]; simpl in *; try case_match; simpl; split_and!; try done; lia.
Qed.

Lemma StronglySorted_app_2 (R : virtualTimer → virtualTimer → Prop) l1 l2 :
  StronglySorted R l1 → StronglySorted R l2 → (∀ a b, a ∈ l1 → b ∈ l2 → R a b) → StronglySorted R (l1 ++ l2).
Proof.
  intros H1 H2 H. induction H1 as [|x l Hl IH Hx]; simpl; [done|]. constructor.
  - apply IH. intros a b Ha Hb. apply H; [by right|done].
  - apply Forall_app. split; [done|]. apply Forall_forall. intros b Hb. apply H; [left|done].
Qed.

(** Registration: a positive delay is filed, any other fires on the spot. *)
Lemma after_spec c log s o d os : inv (c, log) s → fits s (o :: os) → op_d o = d →
  ∃ c', after c d = Ok ((if (0 <? d)%Z then None else Some (now c)), c') ∧ inv (c', log) (spec_register s d).
Proof.
  intros (Hn & Hq & Hh & Hp & Hs & Hd & Ht) (H0 & H1 & H2 & H3) Ho. apply Forall_cons in H3 as [Hd3 _].
  simpl in *. rewrite Ho in *. pose proof (total_nonneg os). unfold after. rewrite Hn, Hq.
  rewrite i64_id by (unfold in_i64, two63 in *; lia). rewrite u64N_id by lia. simpl.
  destruct (Z.ltb_spec 0 d) as [Hpos|Hneg].
  - destruct (Z.leb_spec (s_now s + d) (s_now s)); [lia|].
    destruct (Heap.Push_spec tless tless_total tless_trans (timers c) (MkTimer (s_now s + d) (s_seq s)) Hh)
      as (h & -> & Hph & Hhh). rewrite Res_bind_Ok. eexists; split; [done|].
    unfold inv, spec_register; simpl. destruct (Z.ltb_spec 0 d); [|lia]. split_and!; try done.
    + rewrite Hph, <-Hp. rewrite <-(Permutation_middle log), <-Permutation_cons_append. done.
    + rewrite Hph. constructor; [unfold due; simpl; lia|done].
  - destruct (Z.leb_spec (s_now s + d) (s_now s)); [|lia]. eexists; split; [done|].
    unfold inv, spec_register; simpl. destruct (Z.ltb_spec 0 d); [lia|]. rewrite app_nil_r. done.
Qed.

Lemma step_spec c log s o os : inv (c, log) s → fits s (o :: os) →
  ∃ st, step (c, log) o = Ok st ∧ inv st (spec_step s o).
Proof.
  intros Hi Hf. destruct o as [d|d|d]; simpl.
  - destruct (after_spec c log s _ d os Hi Hf eq_refl) as (c' & Ha & Hi'). unfold After. rewrite Ha. eexists; split; [done|done].
  - unfold Sleep. destruct (Z.leb_spec d 0), (Z.ltb_spec 0 d); try lia; [eexists; split; [done|done]|].
    destruct (after_spec c log s _ d os Hi Hf eq_refl) as (c' & -> & Hi'). eexists; split; [done|done].
  - destruct Hi as (Hn & Hq & Hh & Hp & Hs & Hd & Ht), Hf as (H0 & H1 & H2 & H3). simpl in *.
    pose proof (total_nonneg os). unfold Advance. destruct (Z.leb_spec d 0).
    { eexists; split; [done|]. rewrite Z.max_l, Z.add_0_r, app_nil_r by lia. done. }
    rewrite Z.max_r by lia. rewrite Hn, i64_id by (unfold in_i64, two63 in *; lia).
    destruct (fire_spec (s_now s + d) (S (length (timers c))) (timers c)) as (f & h' & -> & Hpf & Hh' & Hsf & Hdf & Hnf);
      [lia|done|]. rewrite Res_bind_Ok. simpl. eexists; split; [done|]. unfold inv; simpl. split_and!; try done.
    + rewrite <-(assoc_L (++)), Hpf. done.
    + apply StronglySorted_app_2; [done|done|]. intros a b Ha Hb. rewrite Forall_forall in Hd, Ht.
      apply tless_false. left. specialize (Hd a Ha). specialize (Ht b). unfold due in *.
      apply Z.nle_gt. intros Hle. apply Ht; [rewrite <-Hpf; set_solver|lia].
    + apply Forall_app. split; [|done]. eapply Forall_impl; [exact Hd|]. unfold due. intros; lia.
Qed.

Lemma run_spec os : ∀ st s, inv st s → fits s os →
  ∃ st', run st os = Ok st' ∧ inv st' (spec_run s os).
Proof.
  induction os as [|o os IH]; intros [c log] s Hi Hf; [by eexists|]. cbn [run].
  destruct (step_spec c log s o os Hi Hf) as (st & -> & Hst). rewrite Res_bind_Ok.
  apply (IH st (spec_step s o) Hst). by apply fits_step.
Qed.

(** A sorted arrangement is the sorted list. *)
Lemma sorted_isort l m : StronglySorted tle l → l ≡ₚ m → l = isort tleb m.
Proof.
  intros Hs Hp. apply (StronglySorted_unique_strong tleb).
  - intros a b _ _. unfold tleb. rewrite !Is_true_true, !negb_true_iff. apply tle_antisym.
  - clear Hp. induction Hs as [|x l Hl IH Hx]; constructor; [done|]. eapply Forall_impl; [exact Hx|].
    intros y Hy. unfold tleb. by rewrite Hy.
  - apply isort_sorted; unfold tleb; intros *; rewrite !negb_true_iff; [apply or_comm, tless_total|apply tless_trans].
  - by rewrite isort_perm.
Qed.

End SimClock.

Import SimClock.

(** C17. The virtual clock fires timers exactly in order. For any sequence of [After], [Sleep] and
    [Advance] that stays within the machine widths, the clock, whose timers sit in a binary heap, runs
    without a panic and behaves like the abstract clock that remembers every registration: the timers
    fired so far are the registered ones with a deadline at or before the current time, sorted by
    deadline and then by registration, and the pending ones are exactly the others. *)
Theorem virtual_clock_refines (start : Z) (os : list op)
  (Hfits : fits (MkSpec start 0 []) os) :
  let s := spec_run (MkSpec start 0 []) os in
  ∃ c log, run (NewVirtualClockAt start, []) os = Ok (c, log) ∧
    Now c = s_now s ∧
    log = isort tleb (filter (λ t, (deadline t ≤ s_now s)%Z) (s_reg s)) ∧
    timers c ≡ₚ filter (λ t, (s_now s < deadline t)%Z) (s_reg s).
Proof.
  intros s. destruct (run_spec os (NewVirtualClockAt start, []) (MkSpec start 0 [])) as ([c log] & Hr & Hi); [|done|].
  { unfold inv; simpl. split_and!; try done; try constructor. }
  fold s in Hi. destruct Hi as (Hn & Hq & Hh & Hp & Hs & Hd & Ht). simpl in *.
  exists c, log. split_and!; [done|done| |].
  - apply sorted_isort; [done|]. rewrite <-Hp, filter_app.
    rewrite list_filter_all, list_filter_nil_2, app_nil_r; [done| |].
    + intros t Hin. rewrite Forall_forall in Ht. by apply Ht.
    + intros t Hin. rewrite Forall_forall in Hd. by apply Hd.
  - rewrite <-Hp, filter_app. rewrite list_filter_nil_2, list_filter_all; [done| |].
    + intros t Hin. rewrite Forall_forall in Ht. specialize (Ht t Hin). unfold due in Ht. lia.
    + intros t Hin. rewrite Forall_forall in Hd. specialize (Hd t Hin). unfold due in Hd. lia.
Qed.

Lemma virtual_clock_refines_witness :
  ∃ c, run (NewVirtualClockAt 100, []) [OAfter 30; OAfter 10; OAfter 30; OSleep 50; OAfter 0; OAdvance 20; OAfter 5; OAdvance 15]
    = Ok (c, [MkTimer 110 1; MkTimer 125 5; MkTimer 130 0; MkTimer 130 2]) ∧ Pending c = 1.
Proof.
  destruct (virtual_clock_refines 100 [OAfter 30; OAfter 10; OAfter 30; OSleep 50; OAfter 0; OAdvance 20; OAfter 5; OAdvance 15])
    as (c & log & Hr & Hn & -> & Ht).
  - unfold fits, two63, two64N. simpl. split_and!; [lia|lia|lia|]. repeat constructor; simpl; lia.
  - exists c. rewrite Hr. split; [by vm_compute|]. unfold Pending. rewrite Ht. by vm_compute.
Defined.
