(* ===== verification/Transport.v ===== *)
(** * Messages and the network fabric

    Models [src/internal/transport]: the message struct of [message.go] and the simulated network of
    [fabric.go].  Times are nanoseconds, a zero [time.Time] is [None].  [float64] rates are an abstract
    type with the comparison the code uses, and the draws from the random source are arguments of
    [Send].  A link's worker goroutine is two steps, taking the next queued message and handing it
    over once its time has come; the queue and inbox channels keep their capacities. *)

From S2P Require Import Prelude Storage.

Module Message.

Inductive MessageType :=
  | MsgAppendEntries | MsgAppendAck | MsgWrite | MsgWriteAck | MsgClientWrite | MsgClientRead
  | MsgSync | MsgSyncAck | MsgReadRepair | MsgHintedHandoff | MsgHeartbeat | MsgHeartbeatAck
  | MsgVoteRequest | MsgVoteResponse | MsgInstallSnap.

#[export] Instance MessageType_eq_dec : EqDecision MessageType.
Proof. solve_decision. Defined.

Record QuorumConfig := MkQuorumConfig { qN : Z; qW : Z; qR : Z }.

#[export] Instance QuorumConfig_eq_dec : EqDecision QuorumConfig.
Proof. solve_decision. Defined.

Record Message := MkMessage {
  m_Type : MessageType;
  m_SeqNo : nat;
  m_SenderID : string;
  m_TargetID : string;
  m_Entries : list LogEntry;
  m_Entry : option KVEntry;
  m_AckIndex : nat;
  m_VClock : option (gmap string N);
  m_Quorum : option QuorumConfig;
  m_Error : string;
  m_Key : string;
  m_StaleNodes : list string;
  m_Term : nat;
  m_OriginalTarget : string;
  m_PrevLogIndex : nat;
  m_PrevLogTerm : nat;
  m_LeaderCommit : nat;
  m_Success : bool;
  m_ConflictIndex : nat;
  m_LastLogIndex : nat;
  m_LastLogTerm : nat;
  m_VoteGranted : bool;
  m_Snapshot : option string;
  m_Digest : bool;
  m_Hash : string;
}.

#[export] Instance Message_eq_dec : EqDecision Message.
Proof. solve_decision. Defined.

(** A composite literal with every other field at its zero value. *)
Definition msg (t : MessageType) (sender target : string) : Message :=
  MkMessage t 0 sender target [] None 0 None None "" "" [] 0 "" 0 0 0 false 0 0 0 false None false "".

Definition with_target (target : string) (m : Message) : Message :=
  MkMessage (m_Type m) (m_SeqNo m) (m_SenderID m) target (m_Entries m) (m_Entry m) (m_AckIndex m) (m_VClock m)
    (m_Quorum m) (m_Error m) (m_Key m) (m_StaleNodes m) (m_Term m) (m_OriginalTarget m) (m_PrevLogIndex m)
    (m_PrevLogTerm m) (m_LeaderCommit m) (m_Success m) (m_ConflictIndex m) (m_LastLogIndex m) (m_LastLogTerm m)
    (m_VoteGranted m) (m_Snapshot m) (m_Digest m) (m_Hash m).

(** What [Broadcast] hands to [Send]: one copy of the message per target. *)
Definition broadcast (m : Message) (targets : list string) : list Message := (λ p, with_target p m) <$> targets.

(** A message leaves a network that may reorder. *)
Definition remove_at (i : nat) (l : list Message) : list Message := take i l ++ drop (S i) l.

Lemma remove_at_perm i l m : l !! i = Some m → l ≡ₚ m :: remove_at i l.
Proof. intros Hm. unfold remove_at. rewrite <-(take_drop_middle l i m Hm) at 1. symmetry. apply Permutation_middle. Qed.

End Message.

Module Fabric.
Import Message.

(** The capacity of a link's queue. *)
Definition link_cap : nat := 1024.

Record Partition := MkPartition { pID : string; GroupA : gmap string bool; GroupB : gmap string bool }.

(** [m[k]] of a [map[string]bool]. *)
Definition in_group (g : gmap string bool) (k : string) : bool := default false (g !! k).

Definition Blocks (p : Partition) (from to : string) : bool :=
  let inA := in_group (GroupA p) from in
  let inB := in_group (GroupB p) from in
  let toInA := in_group (GroupA p) to in
  let toInB := in_group (GroupB p) to in
  (inA && toInB) || (inB && toInA).

Record timedMsg := MkTimed { t_msg : Message; t_at : Z }.

(** A link: its queue, the message its worker holds, and the time of the last message accepted. *)
Record link := MkLink { queue : list timedMsg; held : option timedMsg; lastAt : option Z }.

(** A registered channel: its capacity and contents. *)
Record inbox := MkInbox { cap : nat; items : list Message }.

Lemma Blocks_sym p from to : Blocks p from to = Blocks p to from.
Proof.
  unfold Blocks. by destruct (in_group (GroupA p) from), (in_group (GroupB p) from),
    (in_group (GroupA p) to), (in_group (GroupB p) to).
Qed.

Lemma Blocks_false p from to : Blocks p from to = false ↔
  ¬ (in_group (GroupA p) from = true ∧ in_group (GroupB p) to = true) ∧
  ¬ (in_group (GroupB p) from = true ∧ in_group (GroupA p) to = true).
Proof.
  unfold Blocks. destruct (in_group (GroupA p) from), (in_group (GroupB p) from),
    (in_group (GroupA p) to), (in_group (GroupB p) to); simpl; intuition congruence.
Qed.

Section fabric.
Context {float : Type} (fltb : float → float → bool) (fzero : float).

Record latencyModel := MkLatency { base : Z; jitter : Z; tailProb : float; tailMult : Z }.

(** The values drawn for one message: the drop roll, [Intn(2*jitter+1)] and the tail roll. *)
Record draws := MkDraws { roll : float; intn : Z; tailRoll : float }.

Definition sample (m : latencyModel) (r : draws) : Z :=
  let v := base m in
  let v := if (0 <? jitter m)%Z then (v + (intn r - jitter m))%Z else v in
  let v := if fltb fzero (tailProb m) && fltb (tailRoll r) (tailProb m)
           then (v + base m * (if (tailMult m <=? 0)%Z then 1 else tailMult m))%Z else v in
  if (v <? 0)%Z then 0%Z else v.

Record NetworkFabric := MkFabric {
  nodes : gmap string inbox;
  latencyMs : gmap string (gmap string Z);
  latencyDist : gmap string (gmap string latencyModel);
  dropRate : gmap string (gmap string float);
  partitions : gmap string Partition;
  links : gmap string link;
  closed : bool;
  dropped : N;
}.

Definition NewNetworkFabric : NetworkFabric := MkFabric ∅ ∅ ∅ ∅ ∅ ∅ false 0.

Definition set_links (f : NetworkFabric) (l : gmap string link) : NetworkFabric :=
  MkFabric (nodes f) (latencyMs f) (latencyDist f) (dropRate f) (partitions f) l (closed f) (dropped f).
Definition set_nodes (f : NetworkFabric) (n : gmap string inbox) : NetworkFabric :=
  MkFabric n (latencyMs f) (latencyDist f) (dropRate f) (partitions f) (links f) (closed f) (dropped f).
Definition set_partitions (f : NetworkFabric) (p : gmap string Partition) : NetworkFabric :=
  MkFabric (nodes f) (latencyMs f) (latencyDist f) (dropRate f) p (links f) (closed f) (dropped f).
Definition add_dropped (f : NetworkFabric) : NetworkFabric :=
  MkFabric (nodes f) (latencyMs f) (latencyDist f) (dropRate f) (partitions f) (links f) (closed f) (u64N (dropped f + 1)).

Definition Dropped (f : NetworkFabric) : N := dropped f.

Definition Close (f : NetworkFabric) : NetworkFabric :=
  if closed f then f
  else MkFabric (nodes f) (latencyMs f) (latencyDist f) (dropRate f) (partitions f) (links f) true (dropped f).

(** The map key of a link, ["from\x00to"]. *)
Definition link_key (from to : string) : string := from +:+ String.String (Ascii.ascii_of_nat 0) to.

Definition getOrCreateLink (f : NetworkFabric) (from to : string) : option link * NetworkFabric :=
  let key := link_key from to in
  if closed f then (None, f)
  else match links f !! key with
  | Some l => (Some l, f)
  | None => let l := MkLink [] None None in (Some l, set_links f (<[key := l]> (links f)))
  end.

Definition Register (f : NetworkFabric) (nodeID : string) (ch : inbox) : NetworkFabric :=
  set_nodes f (<[nodeID := ch]> (nodes f)).
Definition Deregister (f : NetworkFabric) (nodeID : string) : NetworkFabric :=
  set_nodes f (delete nodeID (nodes f)).

Definition lookup2 {A} (m : gmap string (gmap string A)) (from to : string) : option A :=
  m !! from ≫= λ r, r !! to.
Definition insert2 {A} (m : gmap string (gmap string A)) (from to : string) (v : A) : gmap string (gmap string A) :=
  <[from := <[to := v]> (default ∅ (m !! from))]> m.

Definition getLatency (f : NetworkFabric) (from to : string) : Z := default 0%Z (lookup2 (latencyMs f) from to).
Definition getLatencyModel (f : NetworkFabric) (from to : string) : option latencyModel := lookup2 (latencyDist f) from to.
Definition getDropRate (f : NetworkFabric) (from to : string) : float := default fzero (lookup2 (dropRate f) from to).

Definition isPartitioned (f : NetworkFabric) (from to : string) : bool :=
  existsb (λ kp, Blocks kp.2 from to) (map_to_list (partitions f)).

Definition SetLatency (f : NetworkFabric) (from to : string) (ms : Z) : NetworkFabric :=
  MkFabric (nodes f) (insert2 (latencyMs f) from to ms) (latencyDist f) (dropRate f) (partitions f) (links f) (closed f) (dropped f).
Definition SetLatencyDist (f : NetworkFabric) (from to : string) (m : latencyModel) : NetworkFabric :=
  MkFabric (nodes f) (latencyMs f) (insert2 (latencyDist f) from to m) (dropRate f) (partitions f) (links f) (closed f) (dropped f).
Definition SetDropRate (f : NetworkFabric) (from to : string) (rate : float) : NetworkFabric :=
  MkFabric (nodes f) (latencyMs f) (latencyDist f) (insert2 (dropRate f) from to rate) (partitions f) (links f) (closed f) (dropped f).
Definition AddPartition (f : NetworkFabric) (p : Partition) : NetworkFabric :=
  set_partitions f (<[pID p := p]> (partitions f)).
Definition RemovePartition (f : NetworkFabric) (id : string) : NetworkFabric :=
  set_partitions f (delete id (partitions f)).
Definition ClearFaults (f : NetworkFabric) : NetworkFabric :=
  MkFabric (nodes f) ∅ ∅ ∅ ∅ (links f) (closed f) (dropped f).
Definition GetPartitions (f : NetworkFabric) : gmap string Partition :=
  map_fold (λ k v result, <[k := v]> result) ∅ (partitions f).

(** [Send] at time [now]: the new fabric and the timed message accepted by the link, if any. *)
Definition Send (f : NetworkFabric) (m : Message) (r : draws) (now : Z) : NetworkFabric * option timedMsg :=
  let from := m_SenderID m in
  let to := m_TargetID m in
  let blocked := isPartitioned f from to in
  if bool_decide (nodes f !! to = None) || blocked then (f, None)
  else
    let latency := match getLatencyModel f from to with
                   | Some model => sample model r
                   | None => getLatency f from to
                   end in
    if fltb (roll r) (getDropRate f from to) then (f, None)
    else
      let at_ := (now + latency * 1000000)%Z in
      match getOrCreateLink f from to with
      | (None, f) => (f, None)
      | (Some l, f) =>
          let at_ := match lastAt l with Some t => if (at_ <? t)%Z then t else at_ | None => at_ end in
          let tm := MkTimed m at_ in
          if length (queue l) <? link_cap
          then (set_links f (<[link_key from to := MkLink (queue l ++ [tm]) (held l) (Some at_)]> (links f)), Some tm)
          else (add_dropped (set_links f (<[link_key from to := MkLink (queue l) (held l) (Some at_)]> (links f))), None)
      end.

Fixpoint Broadcast (f : NetworkFabric) (m : Message) (targets : list (string * draws * Z)) : NetworkFabric :=
  match targets with
  | [] => f
  | (id, r, now) :: rest => Broadcast (Send f (with_target id m) r now).1 m rest
  end.

(** The worker of link [key] receives from its queue ([case tm := <-l.ch]). *)
Definition worker_take (f : NetworkFabric) (key : string) : NetworkFabric :=
  if closed f then f
  else match links f !! key with
  | Some (MkLink (tm :: q) None la) => set_links f (<[key := MkLink q (Some tm) la]> (links f))
  | _ => f
  end.

(** The worker's timer has expired: hand the message to the target's inbox.  Returns the message the
    worker disposed of and whether it was delivered. *)
Definition worker_deliver (f : NetworkFabric) (key : string) (now : Z) : NetworkFabric * option (timedMsg * bool) :=
  if closed f then (f, None)
  else match links f !! key with
  | Some (MkLink q (Some tm) la) =>
      if (now <? t_at tm)%Z then (f, None)
      else
        let f := set_links f (<[key := MkLink q None la]> (links f)) in
        match nodes f !! m_TargetID (t_msg tm) with
        | None => (f, Some (tm, false))
        | Some ch =>
            if length (items ch) <? cap ch
            then (set_nodes f (<[m_TargetID (t_msg tm) := MkInbox (cap ch) (items ch ++ [t_msg tm])]> (nodes f)), Some (tm, true))
            else (add_dropped f, Some (tm, false))
        end
  | _ => (f, None)
  end.

(** ** Runs of the network *)

Inductive op :=
  | OSend (m : Message) (r : draws) (now : Z)
  | OTake (key : string)
  | ODeliver (key : string) (now : Z)
  | ORecv (id : string)
  | ORegister (id : string) (cap : nat)
  | ODeregister (id : string)
  | OSetLatency (from to : string) (ms : Z)
  | OSetLatencyDist (from to : string) (m : latencyModel)
  | OSetDropRate (from to : string) (rate : float)
  | OAddPartition (p : Partition)
  | ORemovePartition (id : string)
  | OClearFaults
  | OClose.

(** The fabric with what each link accepted and what its worker disposed of, in order. *)
Record Trace := MkTrace {
  fab : NetworkFabric;
  accepted : list (string * timedMsg);
  disposed : list (string * (timedMsg * bool));
}.

(** The owner of an inbox receives its oldest message. *)
Definition inbox_recv (f : NetworkFabric) (id : string) : NetworkFabric :=
  match nodes f !! id with
  | Some (MkInbox c (_ :: rest)) => set_nodes f (<[id := MkInbox c rest]> (nodes f))
  | _ => f
  end.

Definition step (t : Trace) (o : op) : Trace :=
  let f := fab t in
  match o with
  | OSend m r now =>
      let '(f', a) := Send f m r now in
      MkTrace f' (accepted t ++ option_list (pair (link_key (m_SenderID m) (m_TargetID m)) <$> a)) (disposed t)
  | OTake key => MkTrace (worker_take f key) (accepted t) (disposed t)
  | ODeliver key now =>
      let '(f', d) := worker_deliver f key now in
      MkTrace f' (accepted t) (disposed t ++ option_list (pair key <$> d))
  | ORecv id => MkTrace (inbox_recv f id) (accepted t) (disposed t)
  | ORegister id c => MkTrace (Register f id (MkInbox c [])) (accepted t) (disposed t)
  | ODeregister id => MkTrace (Deregister f id) (accepted t) (disposed t)
  | OSetLatency from to ms => MkTrace (SetLatency f from to ms) (accepted t) (disposed t)
  | OSetLatencyDist from to m => MkTrace (SetLatencyDist f from to m) (accepted t) (disposed t)
  | OSetDropRate from to r => MkTrace (SetDropRate f from to r) (accepted t) (disposed t)
  | OAddPartition p => MkTrace (AddPartition f p) (accepted t) (disposed t)
  | ORemovePartition id => MkTrace (RemovePartition f id) (accepted t) (disposed t)
  | OClearFaults => MkTrace (ClearFaults f) (accepted t) (disposed t)
  | OClose => MkTrace (Close f) (accepted t) (disposed t)
  end.

Definition run (os : list op) : Trace := foldl step (MkTrace NewNetworkFabric [] []) os.

(** The entries of a log that belong to link [key]. *)
Definition on_link {A} (key : string) (l : list (string * A)) : list A := (filter (λ p, p.1 = key) l).*2.

(** What link [key] still holds: the message in its worker's hands and its queue. *)
Definition in_transit (f : NetworkFabric) (key : string) : list timedMsg :=
  match links f !! key with Some l => option_list (held l) ++ queue l | None => [] end.

Definition delivered (key : string) (t : Trace) : list timedMsg :=
  (filter (λ p, p.2 = true) (on_link key (disposed t))).*1.

(** No message was accepted later than the link's clamp. *)
Definition last_bound (f : NetworkFabric) (key : string) (acc : list timedMsg) : Prop :=
  match links f !! key with
  | Some l => match lastAt l with
              | Some z => Forall (λ tm, (t_at tm ≤ z)%Z) acc
              | None => acc = []
              end
  | None => acc = []
  end.

Definition link_inv (t : Trace) : Prop := ∀ key,
  on_link key (accepted t) = (on_link key (disposed t)).*1 ++ in_transit (fab t) key ∧
  StronglySorted (λ a b, (t_at a ≤ t_at b)%Z) (on_link key (accepted t)) ∧
  last_bound (fab t) key (on_link key (accepted t)).

Lemma on_link_app {A} key (l1 l2 : list (string * A)) : on_link key (l1 ++ l2) = on_link key l1 ++ on_link key l2.
Proof. unfold on_link. by rewrite filter_app, fmap_app. Qed.

Lemma on_link_option {A} key k (o : option A) :
  on_link key (option_list (pair k <$> o)) = if decide (k = key) then option_list o else [].
Proof.
  unfold on_link. destruct o as [a|]; simpl; [|by case_decide].
  rewrite filter_cons. simpl. by case_decide.
Qed.

(** Operations that leave the links alone. *)
Lemma links_inv t f : links f = links (fab t) → link_inv t → link_inv (MkTrace f (accepted t) (disposed t)).
Proof. intros Hl Hi key. unfold in_transit, last_bound. simpl. rewrite Hl. apply Hi. Qed.

Lemma sends_sorted_snoc l tm : StronglySorted (λ a b, (t_at a ≤ t_at b)%Z) l → Forall (λ x, (t_at x ≤ t_at tm)%Z) l →
  StronglySorted (λ a b, (t_at a ≤ t_at b)%Z) (l ++ [tm]).
Proof.
  induction 1 as [|x l Hl IH Hx]; intros Hf; simpl; [repeat constructor|].
  apply Forall_cons in Hf as [Hxt Hf]. constructor; [by apply IH|]. apply Forall_app. split; [done|by constructor].
Qed.

Definition new_link : link := MkLink [] None None.

(** The effect of [Send] on the links. *)
Lemma Send_links f m r now f' a : Send f m r now = (f', a) →
  let k := link_key (m_SenderID m) (m_TargetID m) in
  (links f' = links f ∧ a = None) ∨
  ∃ at_, let l := default new_link (links f !! k) in
    (∀ z, lastAt l = Some z → (z ≤ at_)%Z) ∧
    (∀ tm, a = Some tm → t_at tm = at_ ∧ t_msg tm = m) ∧
    links f' = <[k := MkLink (queue l ++ option_list a) (held l) (Some at_)]> (links f).
Proof.
  intros H k. unfold Send in H. destruct (_ || _); [simplify_eq; by left|].
  destruct (fltb _ _); [simplify_eq; by left|].
  unfold getOrCreateLink in H. fold k in H. destruct (closed f); [simplify_eq; by left|]. right.
  set (at0 := (now + _ * 1000000)%Z) in H.
  destruct (links f !! k) as [l|] eqn:Hk; simpl in H |- *.
  - set (at_ := match lastAt l with Some t => _ | None => _ end) in H. exists at_. split.
    { intros z Hz. subst at_. rewrite Hz. destruct (Z.ltb_spec at0 z); lia. }
    destruct (length (queue l) <? link_cap); simplify_eq; simpl; (split; [by intros ? [= <-]|]); [done|by rewrite app_nil_r].
  - exists at0. split; [done|]. simplify_eq. simpl. split; [by intros ? [= <-]|]. by rewrite insert_insert_eq.
Qed.

Lemma Send_inv t m r now : link_inv t → link_inv (step t (OSend m r now)).
Proof.
  intros Hi. cbn [step]. destruct (Send (fab t) m r now) as [f' a] eqn:HS.
  set (k := link_key (m_SenderID m) (m_TargetID m)).
  destruct (Send_links _ _ _ _ _ _ HS) as [[Hl ->]|(at_ & Hat & Ha & Hl)].
  { rewrite app_nil_r. by apply links_inv. }
  fold k in Hat, Hl. intros key. destruct (Hi key) as (Heq & Hs & Hb).
  cbn [fab accepted disposed]. rewrite on_link_app, on_link_option.
  unfold in_transit, last_bound in *. rewrite Hl. cbn [fab]. destruct (decide (k = key)) as [<-|Hne].
  - rewrite lookup_insert_eq. cbn [queue held lastAt].
    assert (Hold : Forall (λ tm, (t_at tm ≤ at_)%Z) (on_link k (accepted t))).
    { destruct (links (fab t) !! k) as [l|]; simpl in Hat; [|by rewrite Hb].
      destruct (lastAt l) as [z|]; [|by rewrite Hb]. specialize (Hat z eq_refl).
      eapply Forall_impl; [exact Hb|]. simpl. intros; lia. }
    split_and!.
    + rewrite Heq. destruct (links (fab t) !! k) as [l|]; simpl; by rewrite <-!(assoc_L (++)).
    + destruct a as [tm|]; simpl; [|by rewrite app_nil_r]. destruct (Ha tm eq_refl) as [<- _]. by apply sends_sorted_snoc.
    + apply Forall_app. split; [done|]. destruct a as [tm|]; simpl; [|done].
      destruct (Ha tm eq_refl) as [<- _]. by constructor.
  - rewrite lookup_insert_ne, app_nil_r by done. done.
Qed.

Lemma Take_inv t key : link_inv t → link_inv (step t (OTake key)).
Proof.
  intros Hi. cbn [step]. unfold worker_take. destruct (closed (fab t)); [by apply links_inv|].
  destruct (links (fab t) !! key) as [[[|tm q] [h|] la]|] eqn:Hk; try by apply links_inv.
  intros k. destruct (Hi k) as (Heq & Hs & Hb). unfold in_transit, last_bound in *. simpl.
  destruct (decide (key = k)) as [<-|]; [|by rewrite lookup_insert_ne].
  rewrite Hk in Heq, Hb. by rewrite lookup_insert_eq.
Qed.

Lemma Deliver_inv t key now : link_inv t → link_inv (step t (ODeliver key now)).
Proof.
  intros Hi. cbn [step]. unfold worker_deliver. destruct (closed (fab t)); [rewrite app_nil_r; by apply links_inv|].
  destruct (links (fab t) !! key) as [[q [tm|] la]|] eqn:Hk; try (rewrite app_nil_r; by apply links_inv).
  destruct (now <? t_at tm)%Z; [rewrite app_nil_r; by apply links_inv|].
  match goal with |- link_inv (let '(f', d) := ?x in _) => assert (Hx : links x.1 = <[key := MkLink q None la]> (links (fab t)) ∧
    ∃ b, x.2 = Some (tm, b)); [|destruct x as [f' d]; simpl in Hx; destruct Hx as [Hl [b ->]]] end.
  { simpl. destruct (nodes (fab t) !! _) as [ch|]; simpl; [destruct (_ <? _); simpl|]; eauto. }
  intros k. destruct (Hi k) as (Heq & Hs & Hb). unfold in_transit, last_bound in *. simpl. rewrite Hl.
  rewrite on_link_app. change [(key, (tm, b))] with (option_list (pair key <$> Some (tm, b))). rewrite on_link_option.
  destruct (decide (key = k)) as [<-|]; [|by rewrite lookup_insert_ne, app_nil_r].
  rewrite Hk in Heq, Hb. rewrite lookup_insert_eq. simpl in *. split_and!; [|done|done].
  rewrite Heq, fmap_app. simpl. by rewrite <-(assoc_L (++)).
Qed.

Lemma fabric_step_inv t o : link_inv t → link_inv (step t o).
Proof.
  intros Hi. destruct o; [by apply Send_inv|by apply Take_inv|by apply Deliver_inv|..]; apply links_inv; try done.
  - unfold inbox_recv. by destruct (nodes (fab t) !! id) as [[c [|x rest]]|].
  - unfold Close. by destruct (closed (fab t)).
Qed.

Lemma fabric_run_inv os : link_inv (run os).
Proof.
  unfold run. assert (H0 : link_inv (MkTrace NewNetworkFabric [] [])).
  { intros key. unfold in_transit, last_bound. simpl. rewrite lookup_empty. split_and!; [done|constructor|done]. }
  revert H0. generalize (MkTrace NewNetworkFabric [] []). induction os as [|o os IH]; intros t Ht; simpl; [done|].
  apply IH. by apply fabric_step_inv.
Qed.

Lemma isPartitioned_false f from to : isPartitioned f from to = false ↔
  ∀ p, p ∈ (map_to_list (partitions f)).*2 → Blocks p from to = false.
Proof using Type.
  unfold isPartitioned. induction (map_to_list (partitions f)) as [|[k p] l IH]; simpl.
  - split; [by intros _ p ?%elem_of_nil|done].
  - rewrite orb_false_iff, IH. setoid_rewrite elem_of_cons. split.
    + intros [H1 H2] p' [-> | Hin]; [done|by apply H2].
    + intros H. split; [apply H; by left|]. intros p' Hin. apply H. by right.
Qed.

Lemma Send_accepts f m r now :
  is_Some (Send f m r now).2 ↔
    is_Some (nodes f !! m_TargetID m) ∧ isPartitioned f (m_SenderID m) (m_TargetID m) = false ∧
    fltb (roll r) (getDropRate f (m_SenderID m) (m_TargetID m)) = false ∧ closed f = false ∧
    length (queue (default new_link (links f !! link_key (m_SenderID m) (m_TargetID m)))) < link_cap.
Proof.
  unfold Send. destruct (nodes f !! m_TargetID m) as [ch|]; simpl; [|by split; [intros []|intros ([] & _)]].
  destruct (isPartitioned f _ _); simpl; [by split; [intros []|intros (_ & ? & _)]|].
  destruct (fltb _ _); simpl; [by split; [intros []|intros (_ & _ & ? & _)]|].
  unfold getOrCreateLink. destruct (closed f); simpl; [by split; [intros []|intros (_ & _ & _ & ? & _)]|].
  destruct (links f !! _) as [l|]; simpl.
  - destruct (Nat.ltb_spec (length (queue l)) link_cap); simpl; split; intros Hs; try (by eauto); first [lia|by destruct Hs].
  - split; [|by eauto]. intros _. split_and!; eauto. unfold link_cap. lia.
Qed.

End fabric.
End Fabric.

Import Message Fabric.


(** What the network accepts. A message enters the queue of its link exactly when the target is
    registered, no partition has sender and target on opposite sides, the drop roll does not fall
    below the link's rate, the fabric is open and the queue has room; otherwise no link queue
    changes. Partitions cut both directions, and after [ClearFaults] none is left. *)
Theorem send_accepts_iff {float : Type} (fltb : float → float → bool) (fzero : float)
  (f : NetworkFabric (float := float)) (m : Message) (r : draws) (now : Z) :
  let from := m_SenderID m in
  let to := m_TargetID m in
  let k := link_key from to in
  let q f' := queue (default new_link (links f' !! k)) in
  (is_Some (Send fltb fzero f m r now).2 ↔
     is_Some (nodes f !! to) ∧
     (∀ p, p ∈ (map_to_list (partitions f)).*2 →
        ¬ (in_group (GroupA p) from = true ∧ in_group (GroupB p) to = true) ∧
        ¬ (in_group (GroupB p) from = true ∧ in_group (GroupA p) to = true)) ∧
     fltb (roll r) (getDropRate fzero f from to) = false ∧ closed f = false ∧ length (q f) < link_cap) ∧
  (∀ tm, (Send fltb fzero f m r now).2 = Some tm → q (Send fltb fzero f m r now).1 = q f ++ [tm]) ∧
  ((Send fltb fzero f m r now).2 = None → q (Send fltb fzero f m r now).1 = q f) ∧
  isPartitioned f from to = isPartitioned f to from ∧
  isPartitioned (ClearFaults f) from to = false.
Proof.
  intros from to k q. split_and!.
  - rewrite Send_accepts, isPartitioned_false. by setoid_rewrite Blocks_false.
  - intros tm Htm. destruct (Send fltb fzero f m r now) as [f' a] eqn:HS. simpl in Htm. subst a.
    destruct (Send_links fltb fzero _ _ _ _ _ _ HS) as [[_ ?]|(at_ & _ & _ & Hl)]; [done|].
    unfold q. simpl. fold from to in Hl. fold k in Hl. by rewrite Hl, lookup_insert_eq.
  - intros Hn. destruct (Send fltb fzero f m r now) as [f' a] eqn:HS. simpl in Hn. subst a.
    destruct (Send_links fltb fzero _ _ _ _ _ _ HS) as [[Hl _]|(at_ & _ & _ & Hl)]; unfold q; simpl; [by rewrite Hl|].
    fold from to in Hl. fold k in Hl. rewrite Hl, lookup_insert_eq. simpl. by rewrite app_nil_r.
  - apply eq_bool_prop_intro. rewrite !Is_true_true, <-!not_false_iff_true, !isPartitioned_false.
    by setoid_rewrite (Blocks_sym _ from to).
  - done.
Qed.
