(* ===== verification/Events.v ===== *)
(** * The event bus and the event history

    Models [src/internal/events/bus.go] and [src/internal/simulation/history.go].  The payload of an
    event and the cluster state are types the code only carries; JSON decoding is a parameter of
    [loadRows].  The copy of each history entry that is written to the database is in
    [Persistence]. *)

From S2P Require Import Prelude.

Inductive EventType :=
  | EvtFollowerLag | EvtConflictDetected | EvtConflictResolved | EvtEntryReplicated | EvtNodeStateChanged
  | EvtPartitionCreated | EvtPartitionHealed | EvtReadRepair | EvtLeaderElected | EvtHintedHandoff
  | EvtQuorumAchieved | EvtQuorumFailed | EvtWriteReceived | EvtReadReceived | EvtScenarioStep | EvtScenarioVerdict.

#[export] Instance EventType_eq_dec : EqDecision EventType.
Proof. solve_decision. Defined.

Record Event (D : Type) := MkEvent {
  ev_Type : EventType;
  ev_ClusterID : string;
  ev_NodeID : string;
  ev_Timestamp : option Z;
  ev_Data : D;
}.
Arguments MkEvent {_} _ _ _ _ _.
Arguments ev_Type {_} _.
Arguments ev_ClusterID {_} _.
Arguments ev_NodeID {_} _.
Arguments ev_Timestamp {_} _.
Arguments ev_Data {_} _.

(** The last [n] elements. *)
Definition lastn {A} (n : nat) (l : list A) : list A := drop (length l - n) l.

Lemma lastn_snoc {A} n (l : list A) x : 0 < n →
  lastn n (l ++ [x]) = (if n <=? length (lastn n l) then drop 1 (lastn n l) else lastn n l) ++ [x].
Proof.
  intros Hn. unfold lastn. rewrite length_app, length_drop. simpl.
  destruct (Nat.leb_spec n (length l - (length l - n))).
  - rewrite drop_drop, drop_app_le by lia. f_equal. f_equal. lia.
  - rewrite drop_app_le by lia. f_equal. f_equal. lia.
Qed.

Lemma length_lastn {A} n (l : list A) : length (lastn n l) = n `min` length l.
Proof. unfold lastn. rewrite length_drop. lia. Qed.

(** ** The bus *)

Module Bus.

Section bus.
Context {D : Type}.
Abbreviation Event := (Event D).

(** A subscriber's channel holds at most 256 events. *)
Definition chan_cap : nat := 256.

Record Subscriber := MkSub { s_ID : string; Filter : list EventType; Ch : list Event }.

Record EventBus := MkBus { subscribers : gmap string Subscriber; buffer : list Event; maxBuffer : nat }.

Definition NewEventBus (bufferSize : nat) : EventBus := MkBus ∅ [] bufferSize.

Definition Subscribe (b : EventBus) (id : string) (filter : list EventType) : EventBus :=
  MkBus (<[id := MkSub id filter []]> (subscribers b)) (buffer b) (maxBuffer b).

Definition Unsubscribe (b : EventBus) (id : string) : EventBus :=
  match subscribers b !! id with
  | Some _ => MkBus (delete id (subscribers b)) (buffer b) (maxBuffer b)
  | None => b
  end.

Definition matchesFilter (t : EventType) (filter : list EventType) : bool :=
  if length filter =? 0 then true else existsb (λ f, bool_decide (f = t)) filter.

(** The non-blocking send to one subscriber. *)
Definition offer (evt : Event) (s : Subscriber) : Subscriber :=
  if matchesFilter (ev_Type evt) (Filter s) && (length (Ch s) <? chan_cap)
  then MkSub (s_ID s) (Filter s) (Ch s ++ [evt]) else s.

(** [Publish] at time [now]; slicing [buffer[1:]] of an empty buffer panics. *)
Definition Publish (b : EventBus) (evt : Event) (now : Z) : Res EventBus :=
  let evt := match ev_Timestamp evt with
             | None => MkEvent (ev_Type evt) (ev_ClusterID evt) (ev_NodeID evt) (Some now) (ev_Data evt)
             | Some _ => evt
             end in
  buf ← (if maxBuffer b <=? length (buffer b)
         then match buffer b with [] => Panic | _ :: r => Ok r end
         else Ok (buffer b));
  Ok (MkBus (offer evt <$> subscribers b) (buf ++ [evt]) (maxBuffer b)).

(** A subscriber receives from its channel. *)
Definition Receive (b : EventBus) (id : string) : option Event * EventBus :=
  match subscribers b !! id with
  | Some (MkSub i f (e :: rest)) => (Some e, MkBus (<[id := MkSub i f rest]> (subscribers b)) (buffer b) (maxBuffer b))
  | _ => (None, b)
  end.

(** The newest-first walk of [GetRecent] over the buffer, given reversed. *)
Fixpoint collect (rbuf : list Event) (n : nat) (filter : list EventType) (result : list Event) : list Event :=
  match rbuf with
  | [] => result
  | e :: rest =>
      if length result <? n
      then collect rest n filter (if matchesFilter (ev_Type e) filter then result ++ [e] else result)
      else result
  end.

(** The in-place reversal: [for l, r := 0, len-1; l < r; l, r = l+1, r-1]. *)
Fixpoint rev_loop (fuel l r : nat) (xs : list Event) : list Event :=
  match fuel with
  | O => xs
  | S fuel' =>
      if l <? r
      then match xs !! l, xs !! r with
           | Some a, Some b => rev_loop fuel' (l + 1) (r - 1) (<[r := a]> (<[l := b]> xs))
           | _, _ => xs
           end
      else xs
  end.

Definition GetRecent (b : EventBus) (n : nat) (filter : list EventType) : list Event :=
  let result := collect (reverse (buffer b)) n filter [] in
  rev_loop (length result) 0 (length result - 1) result.

(** *** Proofs *)

Lemma recent_collect_spec rbuf n f : ∀ result,
  length result ≤ n →
  collect rbuf n f result =
    result ++ take (n - length result) (filter (λ e, matchesFilter (ev_Type e) f = true) rbuf).
Proof.
  induction rbuf as [|e rbuf IH]; intros result Hr; cbn [collect]; [by rewrite filter_nil, take_nil, app_nil_r|].
  destruct (Nat.ltb_spec (length result) n) as [Hlt|Hge].
  - rewrite filter_cons. destruct (matchesFilter (ev_Type e) f) eqn:E; rewrite IH by (rewrite ?length_app; simpl; lia).
    + rewrite decide_True by done. rewrite length_app, <-(assoc_L (++)). simpl.
      replace (n - length result) with (S (n - (length result + 1))) by lia. done.
    + by rewrite decide_False by done.
  - replace (n - length result) with 0 by lia. by rewrite take_0, app_nil_r.
Qed.

Lemma rev_loop_lookup fuel : ∀ l r xs i, r < length xs → r - l < fuel →
  rev_loop fuel l r xs !! i = if decide (l ≤ i ≤ r) then xs !! (l + r - i) else xs !! i.
Proof.
  induction fuel as [|fuel IH]; intros l r xs i Hr Hf; [lia|]. cbn [rev_loop].
  destruct (Nat.ltb_spec l r) as [Hlt|Hge].
  - destruct (lookup_lt_is_Some_2 xs l ltac:(lia)) as [a Ha]. destruct (lookup_lt_is_Some_2 xs r Hr) as [b Hb].
    rewrite Ha, Hb. rewrite IH by (rewrite ?length_insert; lia).
    assert (Hsw : ∀ k, <[r := a]> (<[l := b]> xs) !! k =
      if decide (k = r) then xs !! l else if decide (k = l) then xs !! r else xs !! k).
    { intros k. destruct (decide (k = r)) as [->|]; [rewrite list_lookup_insert_eq by (rewrite length_insert; lia); done|].
      rewrite list_lookup_insert_ne by done. destruct (decide (k = l)) as [->|]; [|by rewrite list_lookup_insert_ne].
      rewrite list_lookup_insert_eq by lia. done. }
    rewrite !Hsw. repeat case_decide; try lia; f_equal; lia.
  - case_decide; [|done]. f_equal. lia.
Qed.

Lemma rev_loop_reverse xs : rev_loop (length xs) 0 (length xs - 1) xs = reverse xs.
Proof.
  destruct xs as [|x xs']; [done|]. set (xs := x :: xs').
  assert (Hlen : 0 < length xs) by (simpl; lia). clearbody xs.
  apply list_eq. intros i. rewrite rev_loop_lookup by lia. case_decide.
  - rewrite reverse_lookup by lia. f_equal. lia.
  - rewrite lookup_ge_None_2 by lia. symmetry. apply lookup_ge_None_2. rewrite length_reverse. lia.
Qed.

(** What the bus did to its buffer and subscribers. *)
Inductive op := OPublish (evt : Event) (now : Z) | OSubscribe (id : string) (f : list EventType)
  | OUnsubscribe (id : string) | OReceive (id : string).

Definition step (b : EventBus) (o : op) : Res EventBus :=
  match o with
  | OPublish evt now => Publish b evt now
  | OSubscribe id f => Ok (Subscribe b id f)
  | OUnsubscribe id => Ok (Unsubscribe b id)
  | OReceive id => Ok (Receive b id).2
  end.

Fixpoint run (b : EventBus) (os : list op) : Res EventBus :=
  match os with
  | [] => Ok b
  | o :: os' => b' ← step b o; run b' os'
  end.

(** The events published, with the timestamps they are stored with. *)
Definition published (os : list op) : list Event :=
  omap (λ o, match o with
             | OPublish evt now =>
                 Some (MkEvent (ev_Type evt) (ev_ClusterID evt) (ev_NodeID evt)
                         (Some (default now (ev_Timestamp evt))) (ev_Data evt))
             | _ => None
             end) os.

Lemma published_app os1 os2 : published (os1 ++ os2) = published os1 ++ published os2.
Proof. apply omap_app. Qed.

Lemma step_buffer b o past : 0 < maxBuffer b → buffer b = lastn (maxBuffer b) past →
  ∃ b', step b o = Ok b' ∧ maxBuffer b' = maxBuffer b ∧ buffer b' = lastn (maxBuffer b) (past ++ published [o]).
Proof.
  intros Hm Hb. destruct o as [evt now|id f|id|id]; simpl; rewrite ?app_nil_r.
  - unfold Publish.
    assert (He : (match ev_Timestamp evt with None => MkEvent (ev_Type evt) (ev_ClusterID evt) (ev_NodeID evt) (Some now) (ev_Data evt)
      | Some _ => evt end) = MkEvent (ev_Type evt) (ev_ClusterID evt) (ev_NodeID evt) (Some (default now (ev_Timestamp evt))) (ev_Data evt))
      by (destruct evt as [? ? ? [] ?]; done).
    rewrite He, lastn_snoc, <-Hb by done. destruct (Nat.leb_spec (maxBuffer b) (length (buffer b))).
    + destruct (buffer b) as [|x r] eqn:E; simpl in *; [lia|]. eexists; split_and!; [done..|]. simpl. by rewrite drop_0.
    + by eexists.
  - by eexists.
  - eexists; split; [done|]. unfold Unsubscribe. by destruct (subscribers b !! id).
  - eexists; split; [done|]. unfold Receive. by destruct (subscribers b !! id) as [[? ? []]|].
Qed.

Lemma run_buffer os : ∀ b past, 0 < maxBuffer b → buffer b = lastn (maxBuffer b) past →
  ∃ b', run b os = Ok b' ∧ maxBuffer b' = maxBuffer b ∧ buffer b' = lastn (maxBuffer b) (past ++ published os).
Proof.
  induction os as [|o os IH]; intros b past Hm Hb; cbn [run]; [exists b; by rewrite app_nil_r|].
  destruct (step_buffer b o past Hm Hb) as (b1 & -> & Hm1 & Hb1). rewrite Res_bind_Ok.
  destruct (IH b1 (past ++ published [o])) as (b' & -> & Hm' & Hb'); [lia|by rewrite Hm1|].
  exists b'. split_and!; [done|congruence|]. rewrite Hb', Hm1, <-(assoc_L (++)), <-published_app. done.
Qed.

(** The walk and the reversal return the newest [n] matching events, oldest first. *)
Lemma GetRecent_spec b n filt :
  GetRecent b n filt = lastn n (filter (λ e, matchesFilter (ev_Type e) filt = true) (buffer b)).
Proof.
  unfold GetRecent. rewrite rev_loop_reverse, recent_collect_spec by (simpl; lia). simpl. rewrite Nat.sub_0_r.
  generalize (buffer b). clear. intros l.
  assert (Hf : filter (λ e, matchesFilter (ev_Type e) filt = true) (reverse l) =
    reverse (filter (λ e, matchesFilter (ev_Type e) filt = true) l)).
  { induction l as [|e l IH]; [done|]. rewrite reverse_cons, filter_app, IH, !filter_cons.
    case_decide; [by rewrite reverse_cons|by rewrite app_nil_r]. }
  rewrite Hf. unfold lastn. by rewrite take_reverse, reverse_involutive.
Qed.

End bus.
End Bus.

(** The bus remembers the newest events. On a bus of positive size, whatever is published,
    subscribed, unsubscribed and received, publishing never panics, the buffer is the newest
    [bufferSize] published events in order, and [GetRecent n filter] returns the newest [n] of those
    that match the filter, oldest first: its newest-first walk and in-place reversal compute exactly
    that. *)
Theorem bus_get_recent {D : Type} (size n : nat) (filt : list EventType) (os : list (Bus.op (D := D)))
  (Hsize : 0 < size) :
  ∃ b, Bus.run (Bus.NewEventBus size) os = Ok b ∧
    Bus.buffer b = lastn size (Bus.published os) ∧
    Bus.GetRecent b n filt =
      lastn n (filter (λ e, Bus.matchesFilter (ev_Type e) filt = true) (lastn size (Bus.published os))).
Proof.
  destruct (Bus.run_buffer os (Bus.NewEventBus size) []) as (b & Hr & _ & Hb); [done|done|]. simpl in Hb.
  exists b. split_and!; [done|done|]. by rewrite Bus.GetRecent_spec, Hb.
Qed.

Lemma bus_get_recent_witness :
  ∃ b, Bus.run (Bus.NewEventBus 2) [Bus.OPublish (MkEvent EvtReadRepair "c" "n" None tt) 5;
                                    Bus.OPublish (MkEvent EvtLeaderElected "c" "n" (Some 3%Z) tt) 6;
                                    Bus.OPublish (MkEvent EvtReadRepair "c" "m" None tt) 7] = Ok b ∧
    Bus.GetRecent b 1 [EvtLeaderElected] = [MkEvent EvtLeaderElected "c" "n" (Some 3%Z) tt].
Proof.
  destruct (bus_get_recent 2 1 [EvtLeaderElected] [Bus.OPublish (MkEvent EvtReadRepair "c" "n" None tt) 5;
    Bus.OPublish (MkEvent EvtLeaderElected "c" "n" (Some 3%Z) tt) 6; Bus.OPublish (MkEvent EvtReadRepair "c" "m" None tt) 7])
    as (b & Hr & _ & Hg); [lia|].
  exists b. split; [done|]. rewrite Hg. by vm_compute.
Defined.

(** ** The history *)

Module History.

Definition historyMaxSize : nat := 1000.
Definition snapshotInterval : nat := 50.

Section history.
Context {D St : Type}.
Abbreviation Event := (Event D).

Record HistoryEntry := MkHistoryEntry { Seq : nat; h_Event : Event; State : option St }.

Record ClusterEventHistory := MkHistory { entries : list HistoryEntry; maxSize : nat; seq : nat }.

Definition newClusterEventHistory : ClusterEventHistory := MkHistory [] historyMaxSize 0.

(** [if len(h.entries) >= h.maxSize { h.entries = h.entries[1:] }; append]. *)
Definition push (h : ClusterEventHistory) (e : HistoryEntry) : list HistoryEntry :=
  (if maxSize h <=? length (entries h) then drop 1 (entries h) else entries h) ++ [e].

Record HistoryRow := MkRow { r_Seq : nat; EventJSON : string; StateJSON : option string }.

Definition load_row (decodeEvent : string → option Event) (decodeState : string → option St)
  (h : ClusterEventHistory) (r : HistoryRow) : ClusterEventHistory :=
  match decodeEvent (EventJSON r) with
  | None => h
  | Some evt =>
      let snap := StateJSON r ≫= decodeState in
      MkHistory (push h (MkHistoryEntry (r_Seq r) evt snap)) (maxSize h) (if seq h <? r_Seq r then r_Seq r else seq h)
  end.

Definition loadRows (decodeEvent : string → option Event) (decodeState : string → option St)
  (h : ClusterEventHistory) (rows : list HistoryRow) : ClusterEventHistory :=
  foldl (load_row decodeEvent decodeState) h rows.

Definition isStructuralEvent (t : EventType) : bool :=
  match t with
  | EvtPartitionCreated | EvtPartitionHealed | EvtNodeStateChanged | EvtLeaderElected => true
  | _ => false
  end.

(** [getSnapshot ()] is the argument [snapshot]. *)
Definition Append (h : ClusterEventHistory) (evt : Event) (snapshot : St) : ClusterEventHistory :=
  let seq := S (seq h) in
  let snap := if isStructuralEvent (ev_Type evt) || (seq mod snapshotInterval =? 0) then Some snapshot else None in
  MkHistory (push h (MkHistoryEntry seq evt snap)) (maxSize h) seq.

Fixpoint get_loop (es : list HistoryEntry) (from limit : nat) (result : list HistoryEntry) : list HistoryEntry :=
  match es with
  | [] => result
  | e :: es' =>
      if from <=? Seq e
      then let result := result ++ [e] in if limit <=? length result then result else get_loop es' from limit result
      else get_loop es' from limit result
  end.

Definition Get (h : ClusterEventHistory) (from limit : nat) : list HistoryEntry :=
  let limit := if (limit =? 0) || (500 <? limit) then 500 else limit in
  get_loop (entries h) from limit [].

Record HistoryStateResult := MkResult { BaseSeq : nat; BaseState : option St; Tail : list HistoryEntry; MaxSeq_ : nat }.

Definition base_step (target : nat) (acc : nat * option St) (e : HistoryEntry) : nat * option St :=
  match State e with
  | Some s => if Seq e <=? target then (Seq e, Some s) else acc
  | None => acc
  end.

Definition StateAt (h : ClusterEventHistory) (targetSeq : nat) : HistoryStateResult :=
  let '(baseSeq, baseState) := foldl (base_step targetSeq) (0, None) (entries h) in
  let tail := filter (λ e, baseSeq < Seq e ∧ Seq e ≤ targetSeq) (entries h) in
  MkResult baseSeq baseState tail (seq h).

Definition MaxSeq (h : ClusterEventHistory) : nat := seq h.

(** *** Proofs *)

Definition run (l : list (Event * St)) : ClusterEventHistory :=
  foldl (λ h p, Append h p.1 p.2) newClusterEventHistory l.

(** Every entry ever recorded, from sequence number [c + 1] on. *)
Fixpoint recorded (c : nat) (l : list (Event * St)) : list HistoryEntry :=
  match l with
  | [] => []
  | (e, s) :: l' =>
      MkHistoryEntry (S c) e (if isStructuralEvent (ev_Type e) || (S c mod snapshotInterval =? 0) then Some s else None)
      :: recorded (S c) l'
  end.

Lemma recorded_app l1 l2 : ∀ c, recorded c (l1 ++ l2) = recorded c l1 ++ recorded (c + length l1) l2.
Proof.
  induction l1 as [|[e s] l1 IH]; intros c; simpl; [by rewrite Nat.add_0_r|]. by rewrite IH, Nat.add_succ_r.
Qed.

Lemma length_recorded l : ∀ c, length (recorded c l) = length l.
Proof. induction l as [|[e s] l IH]; intros c; simpl; by rewrite ?IH. Qed.

Lemma recorded_lookup l : ∀ c i x, recorded c l !! i = Some x → ∃ e s, l !! i = Some (e, s) ∧
  x = MkHistoryEntry (S (c + i)) e (if isStructuralEvent (ev_Type e) || (S (c + i) mod snapshotInterval =? 0) then Some s else None).
Proof.
  induction l as [|[e s] l IH]; intros c i x; [done|]. destruct i as [|i]; cbn [recorded].
  - intros [= <-]. exists e, s. by rewrite Nat.add_0_r.
  - intros (e' & s' & Hl & ->)%IH. exists e', s'. split; [done|]. by rewrite Nat.add_succ_r.
Qed.

Lemma run_entries l : run l = MkHistory (lastn historyMaxSize (recorded 0 l)) historyMaxSize (length l).
Proof.
  induction l as [|[e s] l IH] using rev_ind; [done|]. unfold run in *. rewrite foldl_app, IH. simpl.
  unfold Append, push. cbn [seq entries maxSize].
  rewrite recorded_app. cbn [recorded]. rewrite lastn_snoc by (unfold historyMaxSize; lia). simpl.
  rewrite length_app, Nat.add_comm. done.
Qed.

(** Entries with consecutive numbers: selecting by number is slicing. *)
Lemma filter_range lo hi es : ∀ c, (∀ i e, es !! i = Some e → Seq e = S (c + i)) →
  filter (λ e, lo < Seq e ∧ Seq e ≤ hi) es = drop (lo - c) (take (hi - c) es).
Proof.
  induction es as [|e es IH]; intros c Hs; [by rewrite take_nil, drop_nil|].
  assert (He : Seq e = S c) by (by rewrite (Hs 0 e eq_refl), Nat.add_0_r).
  assert (Hs' : ∀ i x, es !! i = Some x → Seq x = S (S c + i)) by (intros i x Hx; rewrite (Hs (S i) x Hx); lia).
  rewrite filter_cons, (IH (S c) Hs'). destruct (decide (lo < Seq e ∧ Seq e ≤ hi)) as [[H1 H2]|Hn].
  - replace (lo - c) with 0 by lia. replace (lo - S c) with 0 by lia. replace (hi - c) with (S (hi - S c)) by lia. done.
  - destruct (decide (hi ≤ c)) as [Hhi|Hhi].
    { replace (hi - c) with 0 by lia. replace (hi - S c) with 0 by lia. by rewrite !take_0, !drop_nil. }
    replace (hi - c) with (S (hi - S c)) by lia. replace (lo - c) with (S (lo - S c)) by lia. done.
Qed.

Lemma base_spec t es : ∀ acc,
  foldl (base_step t) acc es = acc ∧ (∀ e, e ∈ es → Seq e ≤ t → State e = None) ∨
  ∃ e s, e ∈ es ∧ State e = Some s ∧ Seq e ≤ t ∧ foldl (base_step t) acc es = (Seq e, Some s).
Proof.
  induction es as [|e es IH]; intros acc; simpl; [left; split; [done|by intros ? ?%elem_of_nil]|].
  destruct (IH (base_step t acc e)) as [[-> Hn]|(e' & s & Hin & He)]; [|right; exists e', s; split; [by right|done]].
  unfold base_step. destruct (State e) as [s|] eqn:Hs.
  - destruct (Nat.leb_spec (Seq e) t).
    + right. exists e, s. split_and!; [by left|done|done|done].
    + left. split; [done|]. intros x [-> | Hx]%elem_of_cons ?; [lia|by apply Hn].
  - left. split; [done|]. intros x [-> | Hx]%elem_of_cons ?; [done|by apply Hn].
Qed.

Lemma recorded_events l : ∀ c, h_Event <$> recorded c l = l.*1.
Proof. induction l as [|[e s] l IH]; intros c; simpl; [done|]. by rewrite IH. Qed.

(** The retained entries are numbered from [k + 1], where [k] entries have been evicted. *)
Lemma run_lookup l i e : entries (run l) !! i = Some e →
  let k := length l - historyMaxSize in ∃ ev s, l !! (k + i) = Some (ev, s) ∧
  e = MkHistoryEntry (S (k + i)) ev (if isStructuralEvent (ev_Type ev) || (S (k + i) mod snapshotInterval =? 0) then Some s else None).
Proof.
  rewrite run_entries. cbn [entries]. unfold lastn. rewrite length_recorded, lookup_drop.
  intros (ev & s & Hl & ->)%recorded_lookup. exists ev, s. done.
Qed.

(** The events of a tail that starts at a retained entry, or at the beginning of time. *)
Lemma tail_events l base t : length l - historyMaxSize ≤ base → base ≤ t →
  h_Event <$> filter (λ e, base < Seq e ∧ Seq e ≤ t) (entries (run l)) = drop base (take t l.*1).
Proof.
  intros Hk Ht. set (k := length l - historyMaxSize) in *.
  rewrite (filter_range base t _ k).
  - rewrite run_entries. cbn [entries]. unfold lastn. rewrite length_recorded. fold k.
    rewrite fmap_drop, fmap_take, fmap_drop, recorded_events.
    rewrite take_drop_commute, drop_drop. replace (k + (base - k)) with base by lia.
    by replace (k + (t - k)) with t by lia.
  - intros i e (ev & s & _ & ->)%run_lookup. done.
Qed.

(** A snapshot is retained among any [snapshotInterval] consecutive retained entries. *)
Lemma snapshot_retained l t : length l - historyMaxSize + snapshotInterval ≤ t → t ≤ length l →
  ∃ e, e ∈ entries (run l) ∧ Seq e ≤ t ∧ State e ≠ None.
Proof.
  intros Hlo Hhi. set (k := length l - historyMaxSize) in *.
  set (q := t / snapshotInterval * snapshotInterval).
  assert (Hq : q ≤ t ∧ t < q + snapshotInterval).
  { unfold q. pose proof (Nat.div_mod t snapshotInterval ltac:(done)).
    pose proof (Nat.mod_upper_bound t snapshotInterval ltac:(done)). lia. }
  assert (Hlen : length (entries (run l)) = length l - k).
  { rewrite run_entries. cbn [entries]. rewrite length_lastn, length_recorded. lia. }
  destruct (lookup_lt_is_Some_2 (entries (run l)) (q - 1 - k)) as [e He]; [unfold snapshotInterval in *; lia|].
  exists e. split; [by eapply list_elem_of_lookup_2|].
  apply run_lookup in He as (ev & s & _ & ->). fold k. cbn [Seq State].
  replace (S (k + (q - 1 - k))) with q by (unfold snapshotInterval in *; lia). split; [lia|].
  unfold q. rewrite Nat.Div0.mod_mul. by rewrite orb_true_r.
Qed.

End history.
End History.

(** The history can be replayed. Feed the history a run of events with, for each, the true state
    right after it, where states evolve by some [apply]. For any recorded [target], when [StateAt]
    returns a base state, folding its tail over the base gives exactly the state after [target]
    events; when it returns none and nothing has been evicted yet, folding the tail over the initial
    state does. A base is always found once the target is at least [snapshotInterval] entries past the
    oldest retained one. *)
Theorem history_replay {D St : Type} (apply : St → Event D → St) (s0 : St) (l : list (Event D * St)) (target : nat)
  (Hstates : ∀ i e s, l !! i = Some (e, s) → s = foldl apply s0 (take (S i) l.*1))
  (Htarget : target ≤ length l) :
  let r := History.StateAt (History.run l) target in
  let truth := foldl apply s0 (take target l.*1) in
  let fold s := foldl apply s (History.h_Event <$> History.Tail r) in
  (∀ s, History.BaseState r = Some s → fold s = truth) ∧
  (History.BaseState r = None → length l ≤ History.historyMaxSize → fold s0 = truth) ∧
  (length l - History.historyMaxSize + History.snapshotInterval ≤ target → History.BaseState r ≠ None).
Proof.
  intros r truth fold. unfold fold, r, History.StateAt.
  destruct (History.base_spec target (History.entries (History.run l)) (0, None))
    as [[Hb Hnone]|(e & s & Hin & Hs & Hle & Hb)]; rewrite Hb; cbn [History.BaseState History.Tail].
  - split_and!; [done| |].
    + intros _ Hlen. rewrite History.tail_events by lia. by rewrite drop_0.
    + intros Hlo _. destruct (History.snapshot_retained l target Hlo Htarget) as (e & Hin & Hle & Hne).
      by apply Hne, Hnone.
  - split_and!; [|done|done]. intros s' [= <-].
    apply list_elem_of_lookup in Hin as [i Hi]. apply History.run_lookup in Hi as (ev & s' & Hl & ->).
    cbn [History.Seq History.State] in *.
    assert (s' = s) as -> by (by case_match; simplify_eq).
    rewrite History.tail_events by lia. rewrite (Hstates _ _ _ Hl). unfold truth.
    rewrite <-foldl_app. f_equal.
    match goal with |- take ?n ?x ++ _ = _ => assert (Ht : take n x = take n (take target x)) end.
    { rewrite take_take. by rewrite Nat.min_l by lia. }
    rewrite Ht. apply take_drop.
Qed.

Lemma history_replay_witness :
  let ev := MkEvent EvtReadRepair "c" "n" None tt in
  let l := (λ i, (ev, S i)) <$> List.seq 0 60 in
  let r := History.StateAt (History.run l) 55 in
  History.BaseState r = Some 50 ∧ foldl (λ n _, S n) 50 (History.h_Event <$> History.Tail r) = 55.
Proof.
  intros ev l r. destruct (history_replay (λ n _, S n) 0 l 55) as (H1 & _ & H3).
  - intros i e s Hi. subst l. apply list_lookup_fmap_Some in Hi as (j & [= -> ->] & Hj).
    apply lookup_seq in Hj as [-> Hlt]. simpl in Hlt.
    assert (Hfold : ∀ (x : list (Event unit)) n, foldl (λ n _, S n) n x = n + length x).
    { induction x as [|y x IH]; intros n; simpl; [lia|]. rewrite IH. lia. }
    rewrite Hfold, length_take, length_fmap, length_fmap, length_seq. lia.
  - by vm_compute; lia.
  - fold r in H1, H3. assert (Hb : History.BaseState r = Some 50) by (by vm_compute). split; [done|].
    rewrite (H1 50 Hb). by vm_compute.
Defined.

(** Evicted history looks complete. After 1001 ordinary events the first is evicted, and asking for
    the state at sequence number 2 returns no base, base sequence number 0 and a tail that lacks event
    1: the reply cannot be told from one whose tail starts at the beginning, and folding it from the
    initial state gives a wrong state. *)
Theorem history_evicted_gap :
  let ev := MkEvent EvtReadRepair "c" "n" None tt in
  let l := (λ i, (ev, S i)) <$> List.seq 0 1001 in
  let r := History.StateAt (History.run l) 2 in
  History.BaseState r = None ∧ History.BaseSeq r = 0 ∧ History.Seq <$> History.Tail r = [2] ∧
  foldl (λ n _, S n) 0 (History.h_Event <$> History.Tail r) ≠ 2.
Proof. vm_compute. split_and!; [done..|]. discriminate. Qed.
