(* ===== verification/Node.v ===== *)
(** * The state every node has

    Models [src/internal/node/node.go] and [base.go]: identity, role, run state, peers, store, log and
    hybrid clock.  Metrics and published events are not part of the replicated state and are left
    out; so are the context and the unused [inbox], [commitIndex] and [lastApplied] of the base. *)

From S2P Require Import Prelude Storage Clock ReplicationLog.

Module Node.

Inductive ReplicationStrategy := StrategySingleLeader | StrategyMultiLeader | StrategyLeaderless | StrategyRaft.
Inductive NodeRole := RoleLeader | RoleFollower | RoleReplica | RolePrimary.
Inductive NodeState := StateOnline | StateOffline | StatePaused.

#[export] Instance NodeRole_eq_dec : EqDecision NodeRole.
Proof. solve_decision. Defined.
#[export] Instance NodeState_eq_dec : EqDecision NodeState.
Proof. solve_decision. Defined.

Record BaseNode := MkBase {
  id : string;
  strategy : ReplicationStrategy;
  role : NodeRole;
  state : NodeState;
  peers : list string;
  store : Store.Store;
  log : Log.ReplicationLog;
  hlc : HLC.HLC;
  leaderID : string;
}.

Definition newBaseNode (id : string) (strategy : ReplicationStrategy) (role : NodeRole) : BaseNode :=
  MkBase id strategy role StateOnline [] Store.NewStore Log.NewReplicationLog HLC.NewHLC "".

Definition set_store (b : BaseNode) (s : Store.Store) : BaseNode :=
  MkBase (id b) (strategy b) (role b) (state b) (peers b) s (log b) (hlc b) (leaderID b).
Definition set_log (b : BaseNode) (l : Log.ReplicationLog) : BaseNode :=
  MkBase (id b) (strategy b) (role b) (state b) (peers b) (store b) l (hlc b) (leaderID b).
Definition set_hlc (b : BaseNode) (h : HLC.HLC) : BaseNode :=
  MkBase (id b) (strategy b) (role b) (state b) (peers b) (store b) (log b) h (leaderID b).
Definition set_state (b : BaseNode) (s : NodeState) : BaseNode :=
  MkBase (id b) (strategy b) (role b) s (peers b) (store b) (log b) (hlc b) (leaderID b).
Definition set_peers (b : BaseNode) (ps : list string) : BaseNode :=
  MkBase (id b) (strategy b) (role b) (state b) ps (store b) (log b) (hlc b) (leaderID b).

Definition HLCNow (b : BaseNode) (now : Z) : Z * BaseNode :=
  let '(ts, h) := HLC.Now (hlc b) now in (ts, set_hlc b h).

Definition HLCUpdate (b : BaseNode) (now remote : Z) : Z * BaseNode :=
  let '(ts, h) := HLC.Update (hlc b) now remote in (ts, set_hlc b h).

Definition SetClockSkewMillis (b : BaseNode) (ms : Z) : BaseNode := set_hlc b (HLC.SetSkewMillis (hlc b) ms).

Definition setRole (b : BaseNode) (r : NodeRole) : BaseNode :=
  MkBase (id b) (strategy b) r (state b) (peers b) (store b) (log b) (hlc b) (leaderID b).

Definition Pause (b : BaseNode) : BaseNode := set_state b StatePaused.
Definition Resume (b : BaseNode) : BaseNode := set_state b StateOnline.
Definition Stop (b : BaseNode) : BaseNode := set_state b StateOffline.

Definition isPaused (b : BaseNode) : bool :=
  bool_decide (state b = StatePaused) || bool_decide (state b = StateOffline).

Definition AddPeer (b : BaseNode) (nodeID : string) : BaseNode :=
  if existsb (λ p, bool_decide (p = nodeID)) (peers b) then b else set_peers b (peers b ++ [nodeID]).

Definition RemovePeer (b : BaseNode) (nodeID : string) : BaseNode :=
  set_peers b (filter (λ p, p ≠ nodeID) (peers b)).

Definition GetPeers (b : BaseNode) : list string := peers b.

(** The peer list never holds a node twice. *)
Lemma AddPeer_NoDup b p : NoDup (peers b) → NoDup (peers (AddPeer b p)).
Proof.
  intros Hnd. unfold AddPeer. destruct (existsb _ _) eqn:E; [done|]. simpl. apply NoDup_app. split_and!; [done| |apply NoDup_singleton].
  intros x Hx ->%list_elem_of_singleton. assert (Ht : existsb (λ y, bool_decide (y = p)) (peers b) = true).
  { apply existsb_exists. exists p. split; [by apply list_elem_of_In|by apply bool_decide_eq_true]. }
  congruence.
Qed.

Lemma RemovePeer_NoDup b p : NoDup (peers b) → NoDup (peers (RemovePeer b p)).
Proof. intros Hnd. by apply NoDup_filter. Qed.

End Node.
