(* ===== verification/MultiLeader.v ===== *)
(** * Multi-leader replication

    Models [src/internal/node/multileader.go].  Every node takes writes; a write received from a peer
    is compared with the local version by vector clock and, when they are concurrent, handed to the
    configured resolver or, in manual mode, parked.  Metrics and published events are left out.  The
    wall clock and the identifiers of new conflicts are arguments; a resolver is a function of the
    time it is asked at. *)

From S2P Require Import Prelude Storage Clock Crdt Conflict Transport Node.
Import (hints) VectorClock.

Module MultiLeader.
Import Message Resolver.

Record MultiLeaderNode := MkMulti {
  base : Node.BaseNode;
  clusterID : string;
  resolver : Z → ConflictResolver;
  conflicts : list Conflict;
  resolutions : list Resolution;
  pending : gmap string Conflict;
}.

Definition NewMultiLeaderNode (id clusterID : string) (resolver : option (Z → ConflictResolver)) : MultiLeaderNode :=
  MkMulti (Node.newBaseNode id Node.StrategyMultiLeader Node.RolePrimary) clusterID
    (default LWWResolver resolver) [] [] ∅.

Definition n_id (n : MultiLeaderNode) : string := Node.id (base n).
Definition n_store (n : MultiLeaderNode) : Store.Store := Node.store (base n).
Definition with_base (n : MultiLeaderNode) (b : Node.BaseNode) : MultiLeaderNode :=
  MkMulti b (clusterID n) (resolver n) (conflicts n) (resolutions n) (pending n).
Definition with_pending (n : MultiLeaderNode) (p : gmap string Conflict) : MultiLeaderNode :=
  MkMulti (base n) (clusterID n) (resolver n) (conflicts n) (resolutions n) p.

(** [n.store.Set(e)]. *)
Definition set_entry (n : MultiLeaderNode) (e : KVEntry) : MultiLeaderNode :=
  with_base n (Node.set_store (base n) (Store.Set_ (n_store n) e)).

Definition is_manual (R : ConflictResolver) : bool :=
  match Type_ R with ResolverManual => true | _ => false end.

(** The entry stored for a resolved conflict: the winner under the merge of all the clocks. *)
Definition resolved_entry (local remote winner : KVEntry) : KVEntry :=
  let merged := VectorClock.Merge (VectorClock.Clone (kv_VClock local)) (clock_of (kv_VClock remote)) in
  let merged := match kv_VClock winner with Some vc => VectorClock.Merge merged vc | None => merged end in
  kv_with_clock merged winner.

Definition receiveRemoteWrite (n : MultiLeaderNode) (now : Z) (uuid : string) (remote : KVEntry) : MultiLeaderNode :=
  let n := with_base n (Node.HLCUpdate (base n) now (kv_Timestamp remote)).2 in
  match Store.GetRaw (n_store n) (kv_Key remote) with
  | None => set_entry n remote
  | Some local =>
      let localVC := clock_of (kv_VClock local) in
      let remoteVC := clock_of (kv_VClock remote) in
      if VectorClock.Equal remoteVC localVC then n
      else if VectorClock.HappensBefore remoteVC localVC then n
      else if VectorClock.HappensBefore localVC remoteVC then
        let n := set_entry n remote in
        with_pending n (delete (kv_Key remote) (pending n))
      else
        let R := resolver n now in
        if is_manual R && bool_decide (is_Some (pending n !! kv_Key remote)) then n
        else
          let c := MkConflict uuid (kv_Key remote) local remote now (n_id n) (clusterID n) in
          let n := MkMulti (base n) (clusterID n) (resolver n) (conflicts n ++ [c]) (resolutions n) (pending n) in
          if is_manual R then with_pending n (<[kv_Key remote := c]> (pending n))
          else
            let res := Resolve R c in
            let n := MkMulti (base n) (clusterID n) (resolver n) (conflicts n) (resolutions n ++ [res]) (pending n) in
            set_entry n (resolved_entry local remote (Winner res))
  end.

Definition HandleMessage (n : MultiLeaderNode) (now : Z) (uuid : string) (m : Message) : MultiLeaderNode :=
  if Node.isPaused (base n) then n
  else match m_Type m, m_Entry m with
  | MsgWrite, Some e => receiveRemoteWrite n now uuid e
  | _, _ => n
  end.

Definition write_msg (n : MultiLeaderNode) (e : KVEntry) : Message :=
  MkMessage MsgWrite 0 (n_id n) "" [] (Some e) 0 None None "" "" [] 0 "" 0 0 0 false 0 0 0 false None false "".

(** One tick of [runAntiEntropy]: every stored entry to every peer. *)
Definition antientropy_tick (n : MultiLeaderNode) : list Message :=
  if Node.isPaused (base n) then []
  else (map_to_list (Store.Snapshot (n_store n))).*2 ≫= λ e, broadcast (write_msg n e) (Node.GetPeers (base n)).

Inductive error := ErrPaused | ErrNotFound | ErrNoPending.

(** The next clock of a key, as [Write] and [Delete] compute it under [applyMu]. *)
Definition next_clock (n : MultiLeaderNode) (key : string) : gmap string N :=
  let vc := match Store.GetRaw (n_store n) key with
            | Some existing =>
                match kv_VClock existing with
                | Some v => VectorClock.Clone (Some v)
                | None => VectorClock.NewVectorClock
                end
            | None => VectorClock.NewVectorClock
            end in
  VectorClock.Increment vc (n_id n).

Definition put_local (n : MultiLeaderNode) (now : Z) (key : string) (value : option string) (tombstone : bool)
  : KVEntry * MultiLeaderNode * list Message :=
  let vc := next_clock n key in
  let '(ts, b) := Node.HLCNow (base n) now in
  let e := MkKVEntry key value (Some vc) ts (n_id n) tombstone 0 in
  let n := set_entry (with_base n b) e in
  (e, n, broadcast (write_msg n e) (Node.GetPeers (base n))).

Definition Write (n : MultiLeaderNode) (now : Z) (key : string) (value : option string)
  : error + KVEntry * MultiLeaderNode * list Message :=
  if Node.isPaused (base n) then inl ErrPaused else inr (put_local n now key value false).

Definition Delete (n : MultiLeaderNode) (now : Z) (key : string) : error + KVEntry * MultiLeaderNode * list Message :=
  if Node.isPaused (base n) then inl ErrPaused else inr (put_local n now key None true).

Definition Read (n : MultiLeaderNode) (key : string) : error + KVEntry :=
  if Node.isPaused (base n) then inl ErrPaused
  else match Store.Get (n_store n) key with Some e => inr e | None => inl ErrNotFound end.

Definition PendingConflicts (n : MultiLeaderNode) : list Conflict := (map_to_list (pending n)).*2.

Definition ResolveConflict (n : MultiLeaderNode) (now : Z) (key choice : string)
  : error + KVEntry * MultiLeaderNode * list Message :=
  match pending n !! key with
  | None => inl ErrNoPending
  | Some c =>
      let n := with_pending n (delete key (pending n)) in
      let winner := if String.eqb choice "remote" then Remote c else Local_ c in
      let merged := VectorClock.Increment
        (VectorClock.Merge (VectorClock.Clone (kv_VClock (Local_ c))) (clock_of (kv_VClock (Remote c)))) (n_id n) in
      let '(ts, b) := Node.HLCNow (base n) now in
      let resolved := MkKVEntry (kv_Key winner) (kv_Value winner) (Some merged) ts (n_id n) (kv_Tombstone winner)
                        (kv_Version winner) in
      let n := set_entry (with_base n b) resolved in
      let res := MkResolution (c_ID c) resolved ResolverManual ("manual_" +:+ choice) now in
      let n := MkMulti (base n) (clusterID n) (resolver n) (conflicts n) (resolutions n ++ [res]) (pending n) in
      inr (resolved, n, broadcast (write_msg n resolved) (Node.GetPeers (base n)))
  end.

Definition GetConflicts (n : MultiLeaderNode) : list Conflict := conflicts n.
Definition GetResolutions (n : MultiLeaderNode) : list Resolution := resolutions n.

(** ** A cluster

    Every message ever sent stays deliverable, so a run may lose, delay, reorder and duplicate
    messages.  [written] records the entries clients got back from [Write] and [Delete]. *)

Record Sys := MkSys { nodes : gmap string MultiLeaderNode; sent : list Message; written : list KVEntry }.

Inductive action :=
  | AWrite (k : string) (now : Z) (key : string) (value : option string)
  | ADelete (k : string) (now : Z) (key : string)
  | ATick (k : string)
  | ADeliver (i : nat) (now : Z) (uuid : string)
  | AResolve (k : string) (now : Z) (key choice : string)
  | AState (k : string) (st : Node.NodeState)
  | ASkew (k : string) (ms : Z)
  | AAddPeer (k p : string)
  | ARemovePeer (k p : string).

(** Replace a node; append messages and client writes. *)
Definition put (y : Sys) (k : string) (n : MultiLeaderNode) (ms : list Message) (ws : list KVEntry) : Sys :=
  MkSys (<[k := n]> (nodes y)) (sent y ++ ms) (written y ++ ws).

Definition on_node (y : Sys) (k : string) (f : MultiLeaderNode → Sys) : Sys :=
  match nodes y !! k with Some n => f n | None => y end.

Definition put_result (y : Sys) (k : string) (client : bool) (r : error + KVEntry * MultiLeaderNode * list Message) : Sys :=
  match r with
  | inl _ => y
  | inr (e, n, ms) => put y k n ms (if client then [e] else [])
  end.

Definition sys_step (y : Sys) (a : action) : Sys :=
  match a with
  | AWrite k now key value => on_node y k (λ n, put_result y k true (Write n now key value))
  | ADelete k now key => on_node y k (λ n, put_result y k true (Delete n now key))
  | ATick k => on_node y k (λ n, put y k n (antientropy_tick n) [])
  | ADeliver i now uuid =>
      match sent y !! i with
      | Some m => on_node y (m_TargetID m) (λ n, put y (m_TargetID m) (HandleMessage n now uuid m) [] [])
      | None => y
      end
  | AResolve k now key choice => on_node y k (λ n, put_result y k false (ResolveConflict n now key choice))
  | AState k st => on_node y k (λ n, put y k (with_base n (Node.set_state (base n) st)) [] [])
  | ASkew k ms => on_node y k (λ n, put y k (with_base n (Node.SetClockSkewMillis (base n) ms)) [] [])
  | AAddPeer k p => on_node y k (λ n, put y k (with_base n (Node.AddPeer (base n) p)) [] [])
  | ARemovePeer k p => on_node y k (λ n, put y k (with_base n (Node.RemovePeer (base n) p)) [] [])
  end.

Definition sys_run (y : Sys) (acts : list action) : Sys := foldl sys_step y acts.

Definition fresh (cid : string) (R : Z → ConflictResolver) (ids : list string) (k : string) : MultiLeaderNode :=
  let n := NewMultiLeaderNode k cid (Some R) in
  with_base n (foldl Node.AddPeer (base n) (filter (λ p, p ≠ k) ids)).

Definition sys_init (cid : string) (R : Z → ConflictResolver) (ids : list string) : Sys :=
  MkSys (list_to_map ((λ k, (k, fresh cid R ids k)) <$> ids)) [] [].

(** ** Resolvers that pick the last write

    What convergence asks of a resolver: it never parks, and between concurrent versions it keeps the
    one last-write-wins keeps. *)
Class LwwLike (R : Z → ConflictResolver) : Prop := {
  lww_auto : ∀ now, is_manual (R now) = false;
  lww_choice : ∀ now c v1 v2, kv_VClock (Local_ c) = Some v1 → kv_VClock (Remote c) = Some v2 →
    VectorClock.HappensBefore v1 v2 = false → VectorClock.HappensBefore v2 v1 = false →
    Winner (Resolve (R now) c) = Winner (lww_Resolve now c);
}.

#[export] Instance LWWResolver_lww : LwwLike LWWResolver.
Proof. by split. Qed.

#[export] Instance VectorClockResolver_lww vc_string : LwwLike (λ now, NewVectorClockResolver now vc_string None).
Proof.
  split; [done|]. intros now c v1 v2 H1 H2 H3 H4. simpl. unfold vc_Resolve. by rewrite H1, H2, H3, H4.
Qed.

(** ** Entries and the writes they cover *)

Definition clk (e : KVEntry) : gmap string N := clock_of (kv_VClock e).

(** What replicas must agree on: everything but the clock and the local version number. *)
Definition content (e : KVEntry) : string * option string * Z * string * bool :=
  (kv_Key e, kv_Value e, kv_Timestamp e, kv_NodeID e, kv_Tombstone e).

Lemma stamp_le_content a b b' : content b = content b' → stamp_le a b → stamp_le a b'.
Proof. unfold stamp_le, stamp, content. by intros [= _ _ -> -> _]. Qed.

Lemma stamp_le_content_l a a' b : content a = content a' → stamp_le a b → stamp_le a' b.
Proof. unfold stamp_le, stamp, content. by intros [= _ _ -> -> _]. Qed.

Lemma lww_winner now c :
  let w := Winner (lww_Resolve now c) in
  (w = Local_ c ∨ w = Remote c) ∧ stamp_le (Local_ c) w ∧ stamp_le (Remote c) w.
Proof.
  assert (Hw : Winner (lww_Resolve now c) = winner_of (LWWResolver now) (Local_ c) (Remote c)).
  { unfold winner_of, LWWResolver; simpl. unfold lww_Resolve; simpl. repeat case_match; done. }
  rewrite Hw. cbv zeta. destruct (lww_winner_cases now (Local_ c) (Remote c)) as [[-> H]|[-> H]];
    (split; [auto|split]); unfold stamp_le; try done; try apply LWW.entry_lt_irrefl.
  by apply LWW.entry_lt_asym.
Qed.

(** An entry is accounted for by the writes [ws]: it covers a causally closed set of them, its content
    is that of the last one covered, and it counts no more writes of a node than [own] allows. *)
Record entry_ok (ws : list KVEntry) (own : string → string → N) (e : KVEntry) : Prop := {
  ok_clock : ∃ v, kv_VClock e = Some v ∧ VectorClock.vc_normal v;
  ok_closed : ∀ w, w ∈ ws → kv_Key w = kv_Key e → ((clk w).[kv_NodeID w] ≤ (clk e).[kv_NodeID w])%N →
    VectorClock.vc_le (clk w) (clk e) ∧ stamp_le w e;
  ok_origin : ∃ w, w ∈ ws ∧ VectorClock.vc_le (clk w) (clk e) ∧ content w = content e;
  ok_own : ∀ k, ((clk e).[k] ≤ own k (kv_Key e))%N;
}.

Lemma ok_normal ws own e : entry_ok ws own e → VectorClock.vc_normal (clk e).
Proof. intros [(v & Hv & Hn) _ _ _]. unfold clk. by rewrite Hv. Qed.

Lemma ok_Some ws own e : entry_ok ws own e → kv_VClock e = Some (clk e).
Proof. intros [(v & Hv & Hn) _ _ _]. unfold clk. by rewrite Hv. Qed.

(** The clock and the content are all that counts. *)
Lemma entry_ok_same ws own e e' :
  content e = content e' → kv_VClock e = kv_VClock e' → entry_ok ws own e → entry_ok ws own e'.
Proof.
  intros Hc Hv [H1 H2 H3 H4]. assert (Hk : kv_Key e' = kv_Key e) by (unfold content in Hc; congruence).
  assert (Hclk : clk e' = clk e) by (unfold clk; by rewrite Hv).
  split; rewrite ?Hclk, ?Hk, <- ?Hv; [done| |by rewrite <- Hc|done].
  intros w Hw Hkw Hle. destruct (H2 w Hw Hkw Hle). split; [done|]. by eapply stamp_le_content.
Qed.

Lemma entry_ok_version ws own v e : entry_ok ws own e → entry_ok ws own (kv_with_version v e).
Proof. by apply entry_ok_same. Qed.

(** Two entries of a key that cover the same writes have the same content. *)
Lemma ok_same_clock ws own e1 e2 :
  (∀ w w', w ∈ ws → w' ∈ ws → kv_Key w = kv_Key w' → kv_NodeID w = kv_NodeID w' →
     kv_Timestamp w = kv_Timestamp w' → w = w') →
  entry_ok ws own e1 → entry_ok ws own e2 → kv_Key e1 = kv_Key e2 → VectorClock.vc_equiv (clk e1) (clk e2) →
  content e1 = content e2.
Proof.
  intros Hinj Hok1 Hok2 Hk Hv. destruct Hok1 as [_ Hc1 (w1 & Hw1 & Hle1 & He1) _].
  destruct Hok2 as [_ Hc2 (w2 & Hw2 & Hle2 & He2) _].
  assert (Hk1 : kv_Key w1 = kv_Key e1) by (unfold content in He1; congruence).
  assert (Hk2 : kv_Key w2 = kv_Key e2) by (unfold content in He2; congruence).
  assert (S2 : stamp_le w1 e2).
  { eapply Hc2; [done|congruence|]. rewrite <- (Hv _). apply Hle1. }
  assert (S1 : stamp_le w2 e1).
  { eapply Hc1; [done|congruence|]. rewrite (Hv _). apply Hle2. }
  rewrite <- He1, <- He2. f_equal.
  destruct (stamp_le_antisym w1 w2) as [Ht Hn];
    [by eapply stamp_le_content|by eapply stamp_le_content|].
  apply Hinj; [done|done|congruence|done|done].
Qed.

(** Resolving two accounted entries by last-write-wins gives an accounted entry. *)
Lemma resolved_ok ws own l r w :
  entry_ok ws own l → entry_ok ws own r → kv_Key l = kv_Key r →
  (w = l ∨ w = r) → stamp_le l w → stamp_le r w →
  let e := resolved_entry l r w in
  entry_ok ws own e ∧ content e = content w ∧ ∀ k, (clk e).[k] = N.max (clk l).[k] (clk r).[k].
Proof.
  intros Hl Hr Hk Hw Hlw Hrw e.
  assert (Hc : content e = content w) by done.
  assert (Hclk : ∀ k, (clk e).[k] = N.max (clk l).[k] (clk r).[k]).
  { intros k. unfold e, resolved_entry, clk at 1; simpl. rewrite (ok_Some _ _ _ Hl), VectorClock.Clone_id. simpl.
    fold (clk r). destruct Hw as [-> | ->]; rewrite ?(ok_Some _ _ _ Hl), ?(ok_Some _ _ _ Hr);
      autorewrite with repl; lia. }
  assert (Hke : kv_Key e = kv_Key l ∧ kv_Key e = kv_Key r).
  { change (kv_Key e) with (kv_Key w). destruct Hw as [-> | ->]; auto. }
  destruct Hke as [Hkl Hkr]. split_and!; [|done|done]. split.
  - exists (clk e). split; [done|]. unfold e, resolved_entry, clk; simpl.
    rewrite (ok_Some _ _ _ Hl), VectorClock.Clone_id. simpl.
    pose proof (ok_normal _ _ _ Hl). pose proof (ok_normal _ _ _ Hr).
    destruct Hw as [-> | ->]; rewrite ?(ok_Some _ _ _ Hl), ?(ok_Some _ _ _ Hr); auto using VectorClock.Merge_normal.
  - intros w' Hin Hkw Hle. rewrite Hclk in Hle.
    assert (Hor : ((clk w').[kv_NodeID w'] ≤ (clk l).[kv_NodeID w'])%N ∨ ((clk w').[kv_NodeID w'] ≤ (clk r).[kv_NodeID w'])%N) by lia.
    destruct Hor as [Hor|Hor].
    + destruct (ok_closed _ _ _ Hl w' Hin ltac:(congruence) Hor) as [Hv Hs].
      split; [intros k; rewrite Hclk; specialize (Hv k); lia|]. by apply (stamp_le_trans _ l).
    + destruct (ok_closed _ _ _ Hr w' Hin ltac:(congruence) Hor) as [Hv Hs].
      split; [intros k; rewrite Hclk; specialize (Hv k); lia|]. by apply (stamp_le_trans _ r).
  - rewrite Hc. destruct Hw as [-> | ->].
    + destruct (ok_origin _ _ _ Hl) as (w' & ? & Hv & ?). exists w'. split_and!; [done| |done].
      intros k. rewrite Hclk. specialize (Hv k). lia.
    + destruct (ok_origin _ _ _ Hr) as (w' & ? & Hv & ?). exists w'. split_and!; [done| |done].
      intros k. rewrite Hclk. specialize (Hv k). lia.
  - intros k. rewrite Hclk. pose proof (ok_own _ _ _ Hl k). pose proof (ok_own _ _ _ Hr k).
    rewrite Hkl. rewrite <- Hk in *. lia.
Qed.

(** The clock a node has for a key. *)
Definition store_clk (n : MultiLeaderNode) (key : string) : gmap string N :=
  match Store.GetRaw (n_store n) key with Some e => clk e | None => ∅ end.

Definition store_ok (ws : list KVEntry) (own : string → string → N) (n : MultiLeaderNode) : Prop :=
  ∀ key e, Store.GetRaw (n_store n) key = Some e → kv_Key e = key ∧ entry_ok ws own e.

Lemma GetRaw_set_entry n e key :
  Store.GetRaw (n_store (set_entry n e)) key =
    if decide (kv_Key e = key) then Some (kv_with_version (u64N (Store.version (n_store n) + 1)) e)
    else Store.GetRaw (n_store n) key.
Proof. unfold set_entry. simpl. apply Store.GetRaw_Set. Qed.

(** What receiving a write does to the store: the key ends with the join of the two versions. *)
Record received (ws : list KVEntry) (own : string → string → N) (n n' : MultiLeaderNode) (now : Z) (r : KVEntry) : Prop := {
  rc_base : base n' = Node.set_store (Node.HLCUpdate (base n) now (kv_Timestamp r)).2 (n_store n');
  rc_resolver : resolver n' = resolver n;
  rc_pending : pending n = ∅ → pending n' = ∅;
  rc_other : ∀ key, key ≠ kv_Key r → Store.GetRaw (n_store n') key = Store.GetRaw (n_store n) key;
  rc_entry : ∃ e', Store.GetRaw (n_store n') (kv_Key r) = Some e' ∧ kv_Key e' = kv_Key r ∧ entry_ok ws own e' ∧
    (∀ k, (clk e').[k] = N.max (store_clk n (kv_Key r)).[k] (clk r).[k]) ∧
    (content e' = content r ∨ ∃ l, Store.GetRaw (n_store n) (kv_Key r) = Some l ∧ content e' = content l);
}.

Section receive.
Context (ws : list KVEntry) (own : string → string → N) (n : MultiLeaderNode) (now : Z) (r : KVEntry).
Let b : Node.BaseNode := (Node.HLCUpdate (base n) now (kv_Timestamp r)).2.

Lemma update_store : n_store (with_base n b) = n_store n.
Proof. unfold b, Node.HLCUpdate, n_store. simpl. by destruct (HLC.Update _ _ _). Qed.

Lemma received_keep l :
  Store.GetRaw (n_store n) (kv_Key r) = Some l → kv_Key l = kv_Key r → entry_ok ws own l →
  VectorClock.vc_le (clk r) (clk l) → received ws own n (with_base n b) now r.
Proof.
  intros El Hk Hl Hle. pose proof update_store as Hs. split; rewrite ?Hs; [|done|done|done|].
  - simpl. fold b. rewrite <- Hs. unfold n_store; simpl. by destruct b.
  - exists l. unfold store_clk. rewrite El. split_and!; [done|done|done| |right; eauto].
    intros k. specialize (Hle k). lia.
Qed.

Lemma received_set n' e :
  base n' = base (set_entry (with_base n b) e) → resolver n' = resolver n → (pending n = ∅ → pending n' = ∅) →
  kv_Key e = kv_Key r → entry_ok ws own e →
  (∀ k, (clk e).[k] = N.max (store_clk n (kv_Key r)).[k] (clk r).[k]) →
  (content e = content r ∨ ∃ l, Store.GetRaw (n_store n) (kv_Key r) = Some l ∧ content e = content l) →
  received ws own n n' now r.
Proof.
  intros Hb HR Hp Hk Hok Hclk Hc. assert (Hs : n_store n' = n_store (set_entry (with_base n b) e)).
  { unfold n_store. by rewrite Hb. }
  split; [|done|done|..].
  - rewrite Hs, Hb. done.
  - intros key Hne. rewrite Hs, GetRaw_set_entry, decide_False by congruence. by rewrite update_store.
  - eexists. rewrite Hs, GetRaw_set_entry, decide_True by done. split_and!; [done|done|by apply entry_ok_version|done|done].
Qed.
End receive.

Lemma receive_spec ws own n now uuid r :
  LwwLike (resolver n) → entry_ok ws own r → store_ok ws own n →
  received ws own n (receiveRemoteWrite n now uuid r) now r.
Proof.
  intros HR Hr Hst. unfold receiveRemoteWrite. rewrite update_store.
  destruct (Store.GetRaw (n_store n) (kv_Key r)) as [l|] eqn:El; last first.
  { apply (received_set _ _ _ _ _ _ r); [done|done|done|done|done| |by left].
    intros k. unfold store_clk. rewrite El, get0_empty. lia. }
  destruct (Hst _ _ El) as [Hkl Hl]. fold (clk l) (clk r). simpl.
  assert (Hsc : store_clk n (kv_Key r) = clk l) by (unfold store_clk; by rewrite El).
  destruct (VectorClock.Equal (clk r) (clk l)) eqn:Eq.
  { apply (received_keep _ _ _ _ _ l); [done..|]. intros k.
    apply VectorClock.Equal_equiv in Eq; [|by eapply ok_normal..]. by rewrite (Eq k). }
  destruct (VectorClock.HappensBefore (clk r) (clk l)) eqn:E1.
  { apply (received_keep _ _ _ _ _ l); [done..|]. by apply VectorClock.HappensBefore_spec in E1 as [? _]. }
  destruct (VectorClock.HappensBefore (clk l) (clk r)) eqn:E2.
  { apply (received_set _ _ _ _ _ _ r); [done|done| |done|done| |by left].
    { simpl. intros ->. apply delete_empty. }
    intros k. rewrite Hsc. apply VectorClock.HappensBefore_spec in E2 as [Hle _]. specialize (Hle k). lia. }
  rewrite (lww_auto (R := resolver n)). simpl. set (c := MkConflict _ _ _ _ _ _ _).
  rewrite (lww_choice (R := resolver n) now c (clk l) (clk r)) by (eauto using ok_Some).
  destruct (lww_winner now c) as (Hw & Hsl & Hsr).
  destruct (resolved_ok ws own l r _ Hl Hr ltac:(congruence) Hw Hsl Hsr) as (Hok & Hcont & Hclk).
  set (e := resolved_entry l r _) in *.
  apply (received_set _ _ _ _ _ _ e); [done|done|done| |done|by rewrite Hsc|].
  - assert (Hke : kv_Key e = kv_Key (Winner (lww_Resolve now c))) by done. rewrite Hke.
    destruct Hw as [-> | ->]; simpl; congruence.
  - destruct Hw as [Hw|Hw]; [right; exists l; split; [done|]|left]; (etransitivity; [exact Hcont|by rewrite Hw]).
Qed.

(** ** Clocks of a bounded run

    A clock moves at most one millisecond past the wall clocks with each step of the cluster, so for
    runs of fewer than 2^46 steps no timestamp overflows. *)

Definition max_steps : Z := 70368744177664.
Definition cap (t : nat) : Z := 9223372036856 + Z.of_nat t.
Definition hlc_ok (t : nat) (h : HLC.HLC) : Prop := (0 ≤ HLC.lastPhysical h ≤ cap t)%Z ∧ HLC.logical_ok (HLC.logical h).
Definition ts_ok (t : nat) (ts : Z) : Prop := (0 ≤ ts ≤ cap t * 65536 + 65535)%Z.

Lemma hlc_ok_wf t h : (Z.of_nat t ≤ max_steps)%Z → hlc_ok t h → HLC.wf h.
Proof. unfold hlc_ok, HLC.wf, cap, max_steps. intros ? [? ?]. split; [lia|done]. Qed.

Lemma hlc_current_ok t h : (Z.of_nat t ≤ max_steps)%Z → hlc_ok t h → ts_ok t (HLC.current h).
Proof.
  intros Ht Hh. rewrite HLC.current_eq by by eapply hlc_ok_wf. destruct Hh as [Hp Hl].
  unfold HLC.logical_ok, HLC.logicalMask, ts_ok in *. lia.
Qed.

Lemma hlc_now t h now :
  (Z.of_nat (S t) ≤ max_steps)%Z → hlc_ok t h →
  hlc_ok (S t) (HLC.Now h now).2 ∧ (HLC.current h < (HLC.Now h now).1)%Z ∧
  (HLC.Now h now).1 = HLC.current (HLC.Now h now).2.
Proof.
  intros Ht Hh. pose proof (hlc_ok_wf t h ltac:(lia) Hh) as Hwf.
  destruct (HLC.Now_spec h now Hwf) as (H1 & H2 & H3 & H4). destruct (HLC.Now h now) as [ts h']. simpl in *.
  assert (Hh' : hlc_ok (S t) h') by (destruct Hh as [Hp _]; split; [unfold cap in *; lia|done]).
  split_and!; [done|done|]. rewrite HLC.current_eq; [done|]. by eapply hlc_ok_wf.
Qed.

Lemma hlc_update t h now remote :
  (Z.of_nat (S t) ≤ max_steps)%Z → hlc_ok t h → ts_ok t remote →
  hlc_ok (S t) (HLC.Update h now remote).2 ∧ (HLC.current h < HLC.current (HLC.Update h now remote).2)%Z ∧
  (remote < HLC.current (HLC.Update h now remote).2)%Z.
Proof.
  intros Ht Hh Hr. pose proof (hlc_ok_wf t h ltac:(lia) Hh) as Hwf. unfold ts_ok, cap, max_steps in Hr, Ht.
  pose proof (Z.div_le_upper_bound remote 65536 (cap t)) as Hd.
  assert (Hd' : (remote / 65536 ≤ cap t)%Z).
  { apply Z.lt_succ_r, Z.div_lt_upper_bound; unfold cap; lia. }
  destruct (HLC.Update_spec h now remote Hwf ltac:(lia)) as (H1 & H2 & H3 & H4 & H5).
  destruct (HLC.Update h now remote) as [ts h']. simpl in *.
  assert (Hh' : hlc_ok (S t) h') by (destruct Hh as [Hp _]; split; [unfold cap in *; lia|done]).
  rewrite (HLC.current_eq h') by (eapply hlc_ok_wf; [|done]; unfold max_steps; lia). rewrite <- H3. done.
Qed.

(** ** The invariant of a cluster *)

(** How many writes of key [key] node [k] counts for itself. *)
Definition own (y : Sys) (k key : string) : N :=
  match nodes y !! k with Some n => (store_clk n key).[k] | None => 0%N end.

(** An entry somewhere in the cluster. *)
Definition live (y : Sys) (e : KVEntry) : Prop :=
  e ∈ written y ∨ (∃ k n key, nodes y !! k = Some n ∧ Store.GetRaw (n_store n) key = Some e) ∨
  (∃ m, m ∈ sent y ∧ m_Entry m = Some e).

Record node_ok (R : Z → ConflictResolver) (t : nat) (ws : list KVEntry) (k : string) (n : MultiLeaderNode) : Prop := {
  no_id : n_id n = k;
  no_resolver : resolver n = R;
  no_pending : pending n = ∅;
  no_hlc : hlc_ok t (Node.hlc (base n));
  no_stored : ∀ key e, Store.GetRaw (n_store n) key = Some e →
    kv_Key e = key ∧ (kv_Timestamp e ≤ HLC.current (Node.hlc (base n)))%Z;
  no_written : ∀ w, w ∈ ws → kv_NodeID w = k → (kv_Timestamp w ≤ HLC.current (Node.hlc (base n)))%Z;
}.

Record inv (R : Z → ConflictResolver) (t : nat) (y : Sys) : Prop := {
  i_live : ∀ e, live y e → entry_ok (written y) (own y) e;
  i_node : ∀ k n, nodes y !! k = Some n → node_ok R t (written y) k n;
  i_written : ∀ w, w ∈ written y →
    is_Some (nodes y !! kv_NodeID w) ∧ ts_ok t (kv_Timestamp w) ∧ (1 ≤ (clk w).[kv_NodeID w])%N;
  i_inj : ∀ w w', w ∈ written y → w' ∈ written y → kv_Key w = kv_Key w' → kv_NodeID w = kv_NodeID w' →
    kv_Timestamp w = kv_Timestamp w' → w = w';
  i_count : ∀ k key, (own y k key ≤ N.of_nat t)%N;
}.

Lemma entry_ok_own ws o o' e : (∀ k key, (o k key ≤ o' k key)%N) → entry_ok ws o e → entry_ok ws o' e.
Proof. intros Ho [H1 H2 H3 H4]. split; try done. intros k. etransitivity; [apply H4|apply Ho]. Qed.

(** A new write that no existing entry can count leaves them accounted for. *)
Lemma entry_ok_written ws o w e :
  (o (kv_NodeID w) (kv_Key w) < (clk w).[kv_NodeID w])%N → entry_ok ws o e → entry_ok (ws ++ [w]) o e.
Proof.
  intros Ho [H1 H2 (w' & ? & ? & ?) H4]. split; [done| |exists w'; rewrite elem_of_app; auto|done].
  intros w1 [Hw1 | ->%list_elem_of_singleton]%elem_of_app Hk Hle; [by apply H2|].
  pose proof (H4 (kv_NodeID w)). rewrite <- Hk in *. lia.
Qed.

Lemma node_ok_mono R t ws k n : node_ok R t ws k n → node_ok R (S t) ws k n.
Proof.
  intros [? ? ? [? ?] ? ?]. split; try done. split; [|done]. unfold cap in *. lia.
Qed.

Lemma stored_ok R t y k n : inv R t y → nodes y !! k = Some n → store_ok (written y) (own y) n.
Proof.
  intros Hi Hk key e He. split; [by eapply no_stored; [apply (i_node _ _ _ Hi k n Hk)|]|].
  apply (i_live _ _ _ Hi). right; left. eauto.
Qed.

Lemma live_ts R t y e : inv R t y → live y e → ts_ok t (kv_Timestamp e).
Proof.
  intros Hi He. destruct (ok_origin _ _ _ (i_live _ _ _ Hi e He)) as (w & Hw & _ & Hc).
  assert (kv_Timestamp e = kv_Timestamp w) as -> by (unfold content in Hc; congruence).
  by apply (i_written _ _ _ Hi w Hw).
Qed.

Lemma own_put y k n' ms ws k' key :
  own (put y k n' ms ws) k' key = if decide (k = k') then (store_clk n' key).[k] else own y k' key.
Proof.
  unfold own, put; simpl. destruct (decide (k = k')) as [->|]; [by rewrite lookup_insert_eq|by rewrite lookup_insert_ne].
Qed.

(** A step that adds no client write and leaves every node's own count alone. *)
Lemma inv_same R t y k n n' ms :
  inv R t y → nodes y !! k = Some n → node_ok R (S t) (written y) k n' → store_ok (written y) (own y) n' →
  (∀ key, (store_clk n' key).[k] = (store_clk n key).[k]) →
  (∀ m e, m ∈ ms → m_Entry m = Some e → entry_ok (written y) (own y) e) →
  inv R (S t) (put y k n' ms []).
Proof.
  intros Hi Hk Hn' Hst Hown Hms.
  assert (Ho : ∀ k' key, own (put y k n' ms []) k' key = own y k' key).
  { intros k' key. rewrite own_put. case_decide; [subst|done]. rewrite Hown. unfold own. by rewrite Hk. }
  split; simpl; rewrite ?app_nil_r.
  - intros e He. apply (entry_ok_own _ (own y)); [intros; by rewrite Ho|].
    destruct He as [He|[(k' & n1 & key & Hl & He)|(m & Hm & He)]].
    + apply (i_live _ _ _ Hi). left. simpl in He. by rewrite app_nil_r in He.
    + simpl in Hl. apply lookup_insert_Some in Hl as [[<- <-]|[? Hl]]; [by eapply Hst|].
      apply (i_live _ _ _ Hi). right; left; eauto.
    + simpl in Hm. apply elem_of_app in Hm as [Hm|Hm]; [|by eapply Hms].
      apply (i_live _ _ _ Hi). right; right; eauto.
  - intros k' n1 [[<- <-]|[? Hl]]%lookup_insert_Some; [done|]. by apply node_ok_mono, (i_node _ _ _ Hi).
  - intros w Hw. destruct (i_written _ _ _ Hi w Hw) as (H1 & H2 & H3). split_and!; [|unfold ts_ok, cap in *; lia|done].
    apply lookup_insert_is_Some'. auto.
  - apply (i_inj _ _ _ Hi).
  - intros k' key. rewrite Ho. pose proof (i_count _ _ _ Hi k' key). lia.
Qed.

Lemma next_clock_eq ws o n key :
  store_ok ws o n → next_clock n key = VectorClock.Increment (store_clk n key) (n_id n).
Proof.
  intros Hst. unfold next_clock, store_clk. destruct (Store.GetRaw (n_store n) key) as [e|] eqn:E; [|done].
  destruct (Hst _ _ E) as [_ Hok]. by rewrite (ok_Some _ _ _ Hok), VectorClock.Clone_id.
Qed.

Lemma store_clk_le ws o n key k : store_ok ws o n → ((store_clk n key).[k] ≤ o k key)%N.
Proof.
  intros Hst. unfold store_clk. destruct (Store.GetRaw (n_store n) key) as [e|] eqn:E; [|rewrite get0_empty; lia].
  destruct (Hst _ _ E) as [<- Hok]. apply (ok_own _ _ _ Hok).
Qed.

Lemma store_clk_normal ws o n key : store_ok ws o n → VectorClock.vc_normal (store_clk n key).
Proof.
  intros Hst. unfold store_clk. destruct (Store.GetRaw (n_store n) key) as [e|] eqn:E; [|by intros k].
  destruct (Hst _ _ E) as [<- Hok]. by eapply ok_normal.
Qed.

(** A client's entry at node [k]: the clock counts one more write of [k], the timestamp is new. *)
Section write.
Context (R : Z → ConflictResolver) (t : nat) (y : Sys) (k : string) (n : MultiLeaderNode).
Context (Hi : inv R t y) (Hk : nodes y !! k = Some n) (Ht : (Z.of_nat (S t) ≤ max_steps)%Z).
Context (now : Z) (key : string) (value : option string) (tomb : bool) (e : KVEntry) (n' : MultiLeaderNode) (ms : list Message).
Context (Hput : put_local n now key value tomb = (e, n', ms)).

Lemma write_entry :
  kv_Key e = key ∧ kv_NodeID e = k ∧ kv_VClock e = Some (clk e) ∧ VectorClock.vc_normal (clk e) ∧
  (∀ k', (clk e).[k'] = if decide (k' = k) then own y k key + 1 else (store_clk n key).[k'])%N ∧
  (HLC.current (Node.hlc (base n)) < kv_Timestamp e)%Z ∧ kv_Timestamp e = HLC.current (Node.hlc (base n')) ∧
  hlc_ok (S t) (Node.hlc (base n')) ∧ (n_id n' = k ∧ resolver n' = R ∧ pending n' = ∅) ∧
  (∀ key', Store.GetRaw (n_store n') key' =
     if decide (key = key') then Some (kv_with_version (u64N (Store.version (n_store n) + 1)) e)
     else Store.GetRaw (n_store n) key') ∧
  (∀ m x, m ∈ ms → m_Entry m = Some x → x = e).
Proof using Hi Hk Ht Hput.
  pose proof (stored_ok _ _ _ _ _ Hi Hk) as Hst. destruct (i_node _ _ _ Hi _ _ Hk) as [Hid HR Hpe Hh _ _].
  revert Hput. unfold put_local. rewrite (next_clock_eq _ _ _ _ Hst), Hid. unfold Node.HLCNow.
  destruct (hlc_now t (Node.hlc (base n)) now Ht Hh) as (H1 & H2 & H3).
  destruct (HLC.Now (Node.hlc (base n)) now) as [ts h]. simpl in *. intros [= <- <- <-]. simpl.
  assert (Hown : own y k key = (store_clk n key).[k]) by (unfold own; by rewrite Hk).
  pose proof (i_count _ _ _ Hi k key) as Hcount. unfold max_steps, two64N in *.
  split_and!; [done|done|done| | |done|done|done|done|done|done| |].
  - apply VectorClock.Increment_normal; [unfold two64N; lia|]. by eapply store_clk_normal.
  - intros k'. unfold clk; simpl. autorewrite with repl.
    destruct (decide (k = k')) as [->|Hne]; [rewrite decide_True by done|by rewrite decide_False by done].
    rewrite u64N_id by (unfold two64N; lia). lia.
  - intros key'. rewrite GetRaw_set_entry. simpl. by case_decide.
  - intros m x (p & -> & _)%list_elem_of_fmap [= <-]. done.
Qed.

Lemma write_ok : entry_ok (written y ++ [e]) (own (put y k n' ms [e])) e.
Proof using Hi Hk Ht Hput.
  destruct write_entry as (Hkey & Hnid & Hvc & Hnorm & Hclk & Hts & _ & _ & _ & Hget & _).
  pose proof (stored_ok _ _ _ _ _ Hi Hk) as Hst.
  assert (Hown : own y k key = (store_clk n key).[k]) by (unfold own; by rewrite Hk).
  assert (Hmono : VectorClock.vc_le (store_clk n key) (clk e)).
  { intros k'. rewrite Hclk. case_decide; [subst; lia|done]. }
  split.
  - eauto.
  - intros w [Hw | ->%list_elem_of_singleton]%elem_of_app Hkw Hle; last first.
    { split; [done|]. unfold stamp_le. apply LWW.entry_lt_irrefl. }
    assert (Hle' : ((clk w).[kv_NodeID w] ≤ (store_clk n key).[kv_NodeID w])%N).
    { rewrite Hclk in Hle. case_decide as Hn; [|done]. rewrite Hn, <- Hown, <- Hkey, <- Hkw.
      apply (ok_own _ _ _ (i_live _ _ _ Hi w ltac:(by left))). }
    unfold store_clk in Hle', Hmono. destruct (Store.GetRaw (n_store n) key) as [e0|] eqn:E; last first.
    { rewrite get0_empty in Hle'. destruct (i_written _ _ _ Hi w Hw) as (_ & _ & ?). lia. }
    destruct (Hst _ _ E) as [Hk0 Hok0].
    destruct (ok_closed _ _ _ Hok0 w Hw ltac:(congruence) Hle') as [Hv Hs].
    split; [by transitivity (clk e0)|]. apply stamp_le_lt. apply stamp_le_ts in Hs.
    destruct (no_stored _ _ _ _ _ (i_node _ _ _ Hi _ _ Hk) _ _ E). lia.
  - exists e. rewrite elem_of_app, list_elem_of_singleton. by split_and!; [right| |].
  - assert (Hnew : store_clk n' key = clk e) by (unfold store_clk; by rewrite Hget, decide_True).
    intros k'. rewrite own_put, Hkey, Hnew. case_decide as Hd; [by rewrite Hd|].
    rewrite Hclk, decide_False by done. by eapply store_clk_le.
Qed.

Lemma own_write k' key' : (own y k' key' ≤ own (put y k n' ms [e]) k' key' ≤ own y k' key' + 1)%N.
Proof using Hi Hk Ht Hput.
  destruct write_entry as (_ & _ & _ & _ & Hclk & _ & _ & _ & _ & Hget & _).
  rewrite own_put. destruct (decide (k = k')) as [<-|]; [|lia]. unfold store_clk. rewrite Hget.
  assert (Ho : ∀ kk, own y k kk = (store_clk n kk).[k]) by (intros; unfold own; by rewrite Hk).
  destruct (decide (key = key')) as [<-|]; [|rewrite Ho; unfold store_clk; lia].
  change (clk (kv_with_version _ e)) with (clk e). rewrite Hclk, decide_True by done. lia.
Qed.

Lemma write_old_ok x : live y x → entry_ok (written y ++ [e]) (own (put y k n' ms [e])) x.
Proof using Hi Hk Ht Hput.
  intros Hx. destruct write_entry as (Hkey & Hnid & _ & _ & Hclk & _).
  apply (entry_ok_own _ (own y)); [intros; apply own_write|].
  apply entry_ok_written; [|by apply (i_live _ _ _ Hi)]. rewrite Hnid, Hkey, Hclk, decide_True by done. lia.
Qed.

Lemma inv_write : inv R (S t) (put y k n' ms [e]).
Proof using Hi Hk Ht Hput.
  destruct write_entry as (Hkey & Hnid & _ & _ & Hclk & Hts & Hts' & Hh & (Hid & HR & Hpe) & Hget & Hms).
  pose proof (i_node _ _ _ Hi _ _ Hk) as [_ _ _ Hhn Hstored Hwr].
  assert (Hnew : ∀ w, w ∈ written y → kv_NodeID w = k → (kv_Timestamp w < kv_Timestamp e)%Z).
  { intros w Hw Hn. pose proof (Hwr w Hw Hn). lia. }
  split; simpl.
  - intros x [Hx|[(k' & n1 & key' & Hl & Hx)|(m & Hm & Hx)]]; simpl in *.
    + apply elem_of_app in Hx as [Hx | ->%list_elem_of_singleton]; [by apply write_old_ok; left|apply write_ok].
    + apply lookup_insert_Some in Hl as [[<- <-]|[? Hl]]; [|apply write_old_ok; right; left; eauto].
      rewrite Hget in Hx. case_decide; [injection Hx as <-; apply entry_ok_version, write_ok|].
      apply write_old_ok. right; left; eauto.
    + apply elem_of_app in Hm as [Hm|Hm]; [apply write_old_ok; right; right; eauto|].
      rewrite (Hms m x Hm Hx). apply write_ok.
  - intros k' n1 [[<- <-]|[Hne Hl]]%lookup_insert_Some.
    + split; [done|done|done|done| |].
      * intros key' x. rewrite Hget. case_decide; [intros [= <-]; simpl; split; [congruence|lia]|].
        intros Hx. destruct (Hstored _ _ Hx). split; [done|lia].
      * intros w [Hw | ->%list_elem_of_singleton]%elem_of_app Hn; [pose proof (Hnew w Hw Hn)|]; lia.
    + pose proof (node_ok_mono _ _ _ _ _ (i_node _ _ _ Hi _ _ Hl)) as [? ? ? ? ? Hw']. split; try done.
      intros w [Hw | ->%list_elem_of_singleton]%elem_of_app Hn; [by apply Hw'|congruence].
  - intros w [Hw | ->%list_elem_of_singleton]%elem_of_app.
    + destruct (i_written _ _ _ Hi w Hw) as (H1 & H2 & H3). split_and!; [|unfold ts_ok, cap in *; lia|done].
      apply lookup_insert_is_Some'. auto.
    + split_and!; [rewrite Hnid, lookup_insert_eq; eauto|rewrite Hts'; by apply hlc_current_ok|].
      rewrite Hnid, Hclk, decide_True by done. lia.
  - intros w w' [Hw | ->%list_elem_of_singleton]%elem_of_app [Hw' | ->%list_elem_of_singleton]%elem_of_app Hkk Hn Htt;
      [by apply (i_inj _ _ _ Hi)| | |done].
    + pose proof (Hnew w Hw ltac:(congruence)). lia.
    + pose proof (Hnew w' Hw' ltac:(congruence)). lia.
  - intros k' key'. pose proof (own_write k' key'). pose proof (i_count _ _ _ Hi k' key'). lia.
Qed.
End write.

(** ** Preservation *)

(** Only the clock's wall, the run state or the peers change. *)
Lemma inv_quiet R t y k n n' ms :
  inv R t y → nodes y !! k = Some n → n_store n' = n_store n → n_id n' = n_id n → resolver n' = resolver n →
  pending n' = pending n →
  HLC.lastPhysical (Node.hlc (base n')) = HLC.lastPhysical (Node.hlc (base n)) →
  HLC.logical (Node.hlc (base n')) = HLC.logical (Node.hlc (base n)) →
  (∀ m e, m ∈ ms → m_Entry m = Some e → live y e) → inv R (S t) (put y k n' ms []).
Proof.
  intros Hi Hk Hs Hid HR Hp Hph Hlo Hms. pose proof (i_node _ _ _ Hi _ _ Hk) as Hn.
  assert (Hcur : HLC.current (Node.hlc (base n')) = HLC.current (Node.hlc (base n))) by (unfold HLC.current; congruence).
  eapply inv_same; [done|done| | | |].
  - apply node_ok_mono. destruct Hn as [? ? ? [? ?] ? ?]. split; rewrite ?Hs, ?Hcur; try congruence; try done.
    unfold hlc_ok. by rewrite Hph, Hlo.
  - intros key e. rewrite Hs. by eapply stored_ok.
  - intros key. unfold store_clk. by rewrite Hs.
  - intros m e Hm He. apply (i_live _ _ _ Hi). eauto.
Qed.

Lemma inv_receive R t y k n now uuid e :
  LwwLike R → inv R t y → (Z.of_nat (S t) ≤ max_steps)%Z → nodes y !! k = Some n → live y e →
  inv R (S t) (put y k (receiveRemoteWrite n now uuid e) [] []).
Proof.
  intros HR Hi Ht Hk He. pose proof (i_node _ _ _ Hi _ _ Hk) as [Hid Hres Hpe Hh Hstored Hwr].
  pose proof (stored_ok _ _ _ _ _ Hi Hk) as Hst.
  destruct (receive_spec (written y) (own y) n now uuid e) as [Hbase Hres' Hpe' Hoth (e' & He' & Hke & Hok & Hclk & Hcont)];
    [by rewrite Hres|by apply (i_live _ _ _ Hi)|done|].
  set (n' := receiveRemoteWrite n now uuid e) in *.
  destruct (hlc_update t (Node.hlc (base n)) now (kv_Timestamp e) Ht Hh) as (Hh' & Hc1 & Hc2); [by eapply live_ts|].
  assert (Hb : Node.id (base n') = Node.id (base n) ∧
               Node.hlc (base n') = (HLC.Update (Node.hlc (base n)) now (kv_Timestamp e)).2).
  { rewrite Hbase. unfold Node.HLCUpdate. by destruct (HLC.Update _ _ _). }
  destruct Hb as [Hid' Hhlc]. assert (Hcases : ∀ key x, Store.GetRaw (n_store n') key = Some x →
    (key = kv_Key e ∧ x = e') ∨ Store.GetRaw (n_store n) key = Some x).
  { intros key x Hx. destruct (decide (key = kv_Key e)) as [->|Hne]; [left; split; [done|congruence]|].
    right. by rewrite <- Hoth. }
  eapply inv_same; [done|done| | | |by intros ? ? ?%elem_of_nil].
  - split; [by unfold n_id in *; congruence|congruence|by apply Hpe'|by rewrite Hhlc| |].
    + rewrite Hhlc. intros key x [[-> ->]|Hx]%Hcases.
      * split; [done|]. unfold content in Hcont.
        destruct Hcont as [[= _ _ -> _ _]|(l & Hl & [= _ _ -> _ _])]; [lia|]. destruct (Hstored _ _ Hl). lia.
      * destruct (Hstored _ _ Hx). split; [done|lia].
    + rewrite Hhlc. intros w Hw Hn. pose proof (Hwr w Hw Hn). lia.
  - intros key x [[-> ->]|Hx]%Hcases; [done|by apply Hst].
  - intros key. destruct (decide (key = kv_Key e)) as [->|Hne].
    + unfold store_clk at 1. rewrite He', Hclk. pose proof (ok_own _ _ _ (i_live _ _ _ Hi e He) k) as Ho.
      unfold own in Ho. rewrite Hk in Ho. lia.
    + unfold store_clk. by rewrite Hoth.
Qed.

Lemma tick_live y k n m e :
  nodes y !! k = Some n → m ∈ antientropy_tick n → m_Entry m = Some e → live y e.
Proof.
  intros Hk. unfold antientropy_tick. destruct (Node.isPaused _); [by intros ?%elem_of_nil|].
  rewrite Store.Snapshot_data. intros (x & Hm & Hx)%list_elem_of_bind.
  apply list_elem_of_fmap in Hx as ([key x'] & -> & Hx). apply elem_of_map_to_list in Hx.
  apply list_elem_of_fmap in Hm as (p & -> & _). intros [= <-]. right; left. eauto.
Qed.

Lemma inv_step R t y a :
  LwwLike R → inv R t y → (Z.of_nat (S t) ≤ max_steps)%Z → inv R (S t) (sys_step y a).
Proof.
  intros HR Hi Ht.
  assert (Hskip : inv R (S t) y).
  { destruct Hi as [H1 H2 H3 H4 H5]. split; try done.
    - intros k n Hn. by apply node_ok_mono, H2.
    - intros w Hw. destruct (H3 w Hw) as (? & ? & ?). split_and!; [done|unfold ts_ok, cap in *; lia|done].
    - intros k key. pose proof (H5 k key). lia. }
  destruct a as [k now key value|k now key|k|i now uuid|k now key choice|k st|k ms|k p|k p]; simpl;
    try (unfold on_node; destruct (nodes y !! k) as [n|] eqn:Hk; [|done]).
  - unfold Write. destruct (Node.isPaused _); [done|]. simpl.
    destruct (put_local n now key value false) as [[e n'] ms] eqn:E. by eapply inv_write.
  - unfold Delete. destruct (Node.isPaused _); [done|]. simpl.
    destruct (put_local n now key None true) as [[e n'] ms] eqn:E. by eapply inv_write.
  - eapply inv_quiet; try done. intros m e. by eapply tick_live.
  - destruct (sent y !! i) as [m|] eqn:Hm; [|done]. unfold on_node.
    destruct (nodes y !! m_TargetID m) as [n|] eqn:Hk; [|done].
    assert (Hq : inv R (S t) (put y (m_TargetID m) n [] [])).
    { eapply inv_quiet; try done. by intros ? ? ?%elem_of_nil. }
    unfold HandleMessage. destruct (Node.isPaused _); [done|]. destruct (m_Type m); try done.
    destruct (m_Entry m) as [e|] eqn:He; [|done]. eapply inv_receive; try done.
    right; right. exists m. split; [|done]. by eapply list_elem_of_lookup_2.
  - unfold ResolveConflict. rewrite (no_pending _ _ _ _ _ (i_node _ _ _ Hi _ _ Hk)), lookup_empty. done.
  - eapply inv_quiet; try done. by intros ? ? ?%elem_of_nil.
  - eapply inv_quiet; try done. by intros ? ? ?%elem_of_nil.
  - eapply inv_quiet; try done; try (simpl; unfold n_store, n_id, Node.AddPeer; simpl; by destruct (existsb _ _)).
    by intros ? ? ?%elem_of_nil.
  - eapply inv_quiet; try done. by intros ? ? ?%elem_of_nil.
Qed.

Lemma inv_init cid R ids : inv R 0 (sys_init cid R ids).
Proof.
  assert (Hn : ∀ k n, nodes (sys_init cid R ids) !! k = Some n → n = fresh cid R ids k).
  { intros k n Hl%elem_of_list_to_map_2. apply list_elem_of_fmap in Hl as (k' & [= -> ->] & _). done. }
  assert (Hf : ∀ k, n_store (fresh cid R ids k) = Store.NewStore ∧ n_id (fresh cid R ids k) = k ∧
                    Node.hlc (base (fresh cid R ids k)) = HLC.NewHLC).
  { intros k. unfold fresh, n_store, n_id. simpl. generalize (filter (λ p, p ≠ k) ids). intros l.
    set (b := Node.newBaseNode k Node.StrategyMultiLeader Node.RolePrimary).
    assert (H : Node.store b = Store.NewStore ∧ Node.id b = k ∧ Node.hlc b = HLC.NewHLC) by done. revert H.
    generalize b. induction l as [|p l IH]; intros b' H; simpl; [done|]. apply IH. unfold Node.AddPeer. by destruct (existsb _ _). }
  assert (Hst : ∀ k n key, nodes (sys_init cid R ids) !! k = Some n → Store.GetRaw (n_store n) key = None).
  { intros k n key ->%Hn. destruct (Hf k) as [-> _]. done. }
  split; simpl.
  - intros e [?%elem_of_nil|[(k & n & key & Hk & He)|(m & ?%elem_of_nil & _)]]; [done| |done].
    rewrite (Hst _ _ _ Hk) in He. done.
  - intros k n Hk. pose proof (Hn _ _ Hk) as ->. destruct (Hf k) as (H1 & H2 & H3).
    split; [done|done|done|rewrite H3; unfold hlc_ok, cap; simpl; by split| |by intros ? ?%elem_of_nil].
    intros key e He. rewrite (Hst _ _ _ Hk) in He. done.
  - by intros w ?%elem_of_nil.
  - by intros w w' ?%elem_of_nil.
  - intros k key. unfold own. destruct (nodes (sys_init cid R ids) !! k) as [n|] eqn:Hk; [|done].
    unfold store_clk. rewrite (Hst _ _ _ Hk), get0_empty. done.
Qed.

Lemma inv_run R acts : LwwLike R → ∀ t y,
  inv R t y → (Z.of_nat (t + length acts) ≤ max_steps)%Z → inv R (t + length acts) (sys_run y acts).
Proof.
  intros HR. induction acts as [|a acts IH]; intros t y Hi Ht; simpl in *; [by rewrite Nat.add_0_r|].
  rewrite <- Nat.add_succ_comm. apply IH; [apply inv_step; [done|done|lia]|lia].
Qed.

(** ** Anti-entropy *)

Definition deliver_all (n : MultiLeaderNode) (now : Z) (uuid : string) (ms : list Message) : MultiLeaderNode :=
  foldl (λ n m, HandleMessage n now uuid m) n ms.

Definition to_node (p : string) (ms : list Message) : list Message := filter (λ m, m_TargetID m = p) ms.

(** Two replicas agree on a key: both without it, or with the same content and clock. *)
Definition agree (a b : option KVEntry) : Prop :=
  match a, b with
  | None, None => True
  | Some x, Some y => content x = content y ∧ VectorClock.vc_equiv (clk x) (clk y)
  | _, _ => False
  end.

(** Messages that carry exactly the entries of [n]'s store. *)
Definition carries (n : MultiLeaderNode) (ms : list Message) : Prop :=
  (∀ m, m ∈ ms → m_Type m = MsgWrite ∧ ∃ e, m_Entry m = Some e ∧ Store.GetRaw (n_store n) (kv_Key e) = Some e) ∧
  (∀ key e, Store.GetRaw (n_store n) key = Some e → ∃ m, m ∈ ms ∧ m_Entry m = Some e).

Lemma tick_carries ws o n p :
  store_ok ws o n → Node.isPaused (base n) = false → p ∈ Node.GetPeers (base n) →
  carries n (to_node p (antientropy_tick n)).
Proof.
  intros Hst Hp Hpeer. unfold antientropy_tick, to_node. rewrite Hp, Store.Snapshot_data. split.
  - intros m [Ht Hm]%list_elem_of_filter. apply list_elem_of_bind in Hm as (x & Hm & Hx).
    apply list_elem_of_fmap in Hx as ([key x'] & -> & Hx). apply elem_of_map_to_list in Hx. simpl in *.
    apply list_elem_of_fmap in Hm as (q & -> & _). split; [done|]. exists x'. split; [done|].
    destruct (Hst key x' Hx) as [-> _]. done.
  - intros key e He. exists (with_target p (write_msg n e)). split; [|done].
    apply list_elem_of_filter. split; [done|]. apply list_elem_of_bind. exists e. split.
    + apply list_elem_of_fmap. eauto.
    + apply list_elem_of_fmap. exists (key, e). split; [done|]. by apply elem_of_map_to_list.
Qed.

(** [n'] is [n] with the entries [es] joined into its store, key by key. *)
Record joined (ws : list KVEntry) (o : string → string → N) (n n' : MultiLeaderNode) (es : list KVEntry) : Prop := {
  j_store : store_ok ws o n';
  j_resolver : resolver n' = resolver n;
  j_paused : Node.isPaused (base n') = Node.isPaused (base n);
  j_peers : Node.GetPeers (base n') = Node.GetPeers (base n);
  j_some : ∀ key, is_Some (Store.GetRaw (n_store n') key) ↔
    is_Some (Store.GetRaw (n_store n) key) ∨ ∃ e, e ∈ es ∧ kv_Key e = key;
  j_lub : ∀ key v, VectorClock.vc_le (store_clk n' key) v ↔
    VectorClock.vc_le (store_clk n key) v ∧ ∀ e, e ∈ es → kv_Key e = key → VectorClock.vc_le (clk e) v;
}.

Lemma receive_joined ws o n now uuid r :
  LwwLike (resolver n) → store_ok ws o n → entry_ok ws o r →
  joined ws o n (receiveRemoteWrite n now uuid r) [r].
Proof.
  intros HR Hst Hr. destruct (receive_spec ws o n now uuid r HR Hr Hst) as [Hb Hres _ Hoth (e' & He' & Hke & Hok & Hclk & _)].
  set (n' := receiveRemoteWrite n now uuid r) in *. split; [|done|..].
  - intros key x Hx. destruct (decide (key = kv_Key r)) as [->|Hne]; [|apply Hst; by rewrite <- Hoth].
    assert (x = e') as -> by congruence. done.
  - rewrite Hb. unfold Node.HLCUpdate. by destruct (HLC.Update _ _ _).
  - rewrite Hb. unfold Node.HLCUpdate. by destruct (HLC.Update _ _ _).
  - intros key. setoid_rewrite list_elem_of_singleton. destruct (decide (key = kv_Key r)) as [->|Hne].
    + rewrite He'. split; [intros _; right; eauto|eauto].
    + rewrite Hoth by done. split; [auto|]. intros [?|(e & -> & ?)]; [done|congruence].
  - intros key v. setoid_rewrite list_elem_of_singleton. destruct (decide (key = kv_Key r)) as [->|Hne].
    + unfold store_clk at 1. rewrite He'. split.
      * intros Hle. split; [|intros e -> _]; intros k; specialize (Hle k); rewrite Hclk in Hle; lia.
      * intros [H1 H2] k. rewrite Hclk. specialize (H1 k). specialize (H2 r eq_refl eq_refl k). lia.
    + unfold store_clk. rewrite Hoth by done. split; [|by intros [? _]]. intros H. split; [done|]. intros e -> ?. congruence.
Qed.

Lemma joined_trans ws o n1 n2 n3 es es' :
  joined ws o n1 n2 es → joined ws o n2 n3 es' → joined ws o n1 n3 (es ++ es').
Proof.
  intros [H1 H2 H3 H4 H5 H6] [K1 K2 K3 K4 K5 K6]. split; [done|congruence..| |].
  - intros key. rewrite K5, H5. setoid_rewrite elem_of_app. naive_solver.
  - intros key v. rewrite K6, H6. setoid_rewrite elem_of_app. naive_solver.
Qed.

Lemma deliver_joined ws o now uuid ms : ∀ n es,
  LwwLike (resolver n) → store_ok ws o n → Node.isPaused (base n) = false →
  Forall2 (λ m e, m_Type m = MsgWrite ∧ m_Entry m = Some e ∧ entry_ok ws o e) ms es →
  joined ws o n (deliver_all n now uuid ms) es.
Proof.
  induction ms as [|m ms IH]; intros n es HR Hst Hp Hms; inversion Hms as [|? e ? es' (Ht & He & Hok) Hms']; subst; simpl.
  { split; [done..| |]; setoid_rewrite elem_of_nil; naive_solver. }
  unfold HandleMessage. rewrite Hp, Ht, He.
  pose proof (receive_joined ws o n now uuid e HR Hst Hok) as Hj.
  apply (joined_trans _ _ _ _ _ [e] es' Hj). destruct Hj as [J1 J2 J3 _ _ _]. apply IH; [by rewrite J2|done|congruence|done].
Qed.

(** The entries of a store's broadcast, as a list. *)
Lemma carries_entries ws o n ms :
  store_ok ws o n → carries n ms →
  ∃ es, Forall2 (λ m e, m_Type m = MsgWrite ∧ m_Entry m = Some e ∧ entry_ok ws o e) ms es ∧
    ∀ key e, e ∈ es ∧ kv_Key e = key ↔ Store.GetRaw (n_store n) key = Some e.
Proof.
  intros Hst [H1 H2]. exists (omap m_Entry ms). split.
  - clear H2. induction ms as [|m ms IH]; [constructor|]. destruct (H1 m ltac:(by left)) as (Ht & e & He & Hg).
    simpl. rewrite He. constructor; [|by apply IH; intros; apply H1; right]. split_and!; [done|done|]. by eapply Hst.
  - intros key e. rewrite list_elem_of_omap. split.
    + intros [(m & Hm & He) <-]. destruct (H1 m Hm) as (_ & e' & He' & Hg). by simplify_eq.
    + intros He. destruct (H2 _ _ He) as (m & Hm & Hme). split; [eauto|]. by eapply Hst.
Qed.

(** Joining all of [p]'s store. *)
Lemma joined_clock ws o n n' p es :
  joined ws o n n' es → store_ok ws o p → (∀ key e, e ∈ es ∧ kv_Key e = key ↔ Store.GetRaw (n_store p) key = Some e) →
  ∀ key, (is_Some (Store.GetRaw (n_store n') key) ↔
            is_Some (Store.GetRaw (n_store n) key) ∨ is_Some (Store.GetRaw (n_store p) key)) ∧
    ∀ v, VectorClock.vc_le (store_clk n' key) v ↔
      VectorClock.vc_le (store_clk n key) v ∧ VectorClock.vc_le (store_clk p key) v.
Proof.
  intros [_ _ _ _ J5 J6] Hst Hes key. split.
  - rewrite J5. apply or_iff_compat_l. split.
    + intros (e & He). exists e. by apply Hes.
    + intros [e He]. exists e. by apply Hes.
  - intros v. rewrite J6. apply and_iff_compat_l. unfold store_clk.
    destruct (Store.GetRaw (n_store p) key) as [x|] eqn:Ex.
    + split; [intros H; by apply H; apply (Hes key x)|].
      intros H e He Hk. assert (Some e = Some x) as [= ->]; [|done]. rewrite <- Ex. symmetry. by apply Hes.
    + split; [intros _ k; rewrite get0_empty; lia|]. intros _ e He Hk.
      assert (Store.GetRaw (n_store p) key = Some e) by by apply Hes. congruence.
Qed.

(** Every replica stores, for a key, the newest client write its clock covers; no node loses a write of
    its own clients; and replicas whose clocks for a key agree have the same content for it. *)
Record convergent (y : Sys) : Prop := {
  cv_newest : ∀ k n key e, nodes y !! k = Some n → Store.GetRaw (n_store n) key = Some e →
    (∃ w, w ∈ written y ∧ VectorClock.vc_le (clk w) (clk e) ∧ content w = content e) ∧
    (∀ w, w ∈ written y → kv_Key w = key → VectorClock.vc_le (clk w) (clk e) → stamp_le w e);
  cv_own : ∀ w, w ∈ written y → ∃ n e, nodes y !! kv_NodeID w = Some n ∧
    Store.GetRaw (n_store n) (kv_Key w) = Some e ∧ VectorClock.vc_le (clk w) (clk e);
  cv_agree : ∀ k1 k2 n1 n2 key e1 e2, nodes y !! k1 = Some n1 → nodes y !! k2 = Some n2 →
    Store.GetRaw (n_store n1) key = Some e1 → Store.GetRaw (n_store n2) key = Some e2 →
    VectorClock.vc_equiv (clk e1) (clk e2) → content e1 = content e2;
}.

Lemma inv_convergent R t y : inv R t y → convergent y.
Proof.
  intros Hi. split.
  - intros k n key e Hk He. destruct (stored_ok _ _ _ _ _ Hi Hk _ _ He) as [<- Hok]. split; [apply Hok|].
    intros w Hw Hkw Hle. by apply (ok_closed _ _ _ Hok w Hw Hkw).
  - intros w Hw. destruct (i_written _ _ _ Hi w Hw) as ([n Hn] & _ & Hpos).
    pose proof (ok_own _ _ _ (i_live _ _ _ Hi w ltac:(by left)) (kv_NodeID w)) as Ho.
    unfold own, store_clk in Ho. rewrite Hn in Ho.
    destruct (Store.GetRaw (n_store n) (kv_Key w)) as [e|] eqn:He; [|rewrite get0_empty in Ho; lia].
    exists n, e. split_and!; [done|done|]. destruct (stored_ok _ _ _ _ _ Hi Hn _ _ He) as [Hk Hok].
    by apply (ok_closed _ _ _ Hok w Hw).
  - intros k1 k2 n1 n2 key e1 e2 H1 H2 He1 He2 Hv.
    destruct (stored_ok _ _ _ _ _ Hi H1 _ _ He1) as [Hk1 Hok1].
    destruct (stored_ok _ _ _ _ _ Hi H2 _ _ He2) as [Hk2 Hok2].
    eapply (ok_same_clock _ _ _ _ (i_inj _ _ _ Hi) Hok1 Hok2); [congruence|done].
Qed.

End MultiLeader.

Import Resolver MultiLeader.

(** Multi-leader replication converges under last-write-wins. In any cluster whose resolver keeps the
    last write, after any interleaving of writes, deletes, anti-entropy broadcasts, deliveries, pauses,
    clock skews and peer changes, where messages may be lost, delayed, reordered and duplicated: what a
    node stores for a key is one of the client writes its vector clock covers, and none it covers is
    newer; a node's clock always covers its own clients' writes, so an acknowledged write is never
    silently dropped by the node that took it; and two nodes whose clocks for a key are equal hold the
    same value, timestamp, origin and tombstone. *)
Theorem multi_leader_converges (cid : string) (R : Z → ConflictResolver) (ids : list string) (acts : list action)
  (HR : LwwLike R) (Hlen : (Z.of_nat (length acts) ≤ max_steps)%Z) :
  let y := sys_run (sys_init cid R ids) acts in
  (∀ k n key e, nodes y !! k = Some n → Store.GetRaw (n_store n) key = Some e →
     (∃ w, w ∈ written y ∧ VectorClock.vc_le (clk w) (clk e) ∧ content w = content e) ∧
     (∀ w, w ∈ written y → kv_Key w = key → VectorClock.vc_le (clk w) (clk e) → stamp_le w e)) ∧
  (∀ w, w ∈ written y → ∃ n e, nodes y !! kv_NodeID w = Some n ∧
     Store.GetRaw (n_store n) (kv_Key w) = Some e ∧ VectorClock.vc_le (clk w) (clk e)) ∧
  (∀ k1 k2 n1 n2 key e1 e2, nodes y !! k1 = Some n1 → nodes y !! k2 = Some n2 →
     Store.GetRaw (n_store n1) key = Some e1 → Store.GetRaw (n_store n2) key = Some e2 →
     VectorClock.vc_equiv (clk e1) (clk e2) → content e1 = content e2).
Proof.
  intros y. pose proof (inv_run R acts HR 0 _ (inv_init cid R ids) Hlen) as Hi.
  destruct (inv_convergent _ _ _ Hi) as [H1 H2 H3]. split_and!; [exact H1|exact H2|exact H3].
Qed.


(** Two concurrent writes, delivered to each other. *)
Definition demo_acts : list action :=
  [AWrite "a" 1000000 "x" (Some "1"); AWrite "b" 2000000 "x" (Some "2"); ADeliver 0 3000000 "u"; ADeliver 1 4000000 "v"].
Definition demo_sys : Sys := sys_run (sys_init "c" Resolver.LWWResolver ["a"; "b"]) demo_acts.

Definition stored (y : Sys) (k key : string) : option KVEntry := n ← nodes y !! k; Store.GetRaw (n_store n) key.

Lemma stored_Some y k key e : stored y k key = Some e → ∃ n, nodes y !! k = Some n ∧ Store.GetRaw (n_store n) key = Some e.
Proof. unfold stored. destruct (nodes y !! k) as [n|]; [|done]. simpl. eauto. Qed.

Definition demo_entry (k : string) : KVEntry := default (MkKVEntry "" None None 0 "" false 0) (stored demo_sys k "x").

Lemma multi_leader_converges_witness :
  content (demo_entry "a") = content (demo_entry "b") ∧ kv_Value (demo_entry "a") = Some "2" ∧
  clk (demo_entry "a") = {["a" := 1%N; "b" := 1%N]}.
Proof.
  destruct (multi_leader_converges "c" Resolver.LWWResolver ["a"; "b"] demo_acts _ ltac:(done)) as (_ & _ & H).
  fold demo_sys in H.
  destruct (stored_Some demo_sys "a" "x" (demo_entry "a") ltac:(by vm_compute)) as (n1 & N1 & G1).
  destruct (stored_Some demo_sys "b" "x" (demo_entry "b") ltac:(by vm_compute)) as (n2 & N2 & G2).
  split_and!; [|by vm_compute|by vm_compute]. apply (H "a" "b" n1 n2 "x" _ _ N1 N2 G1 G2).
  assert (clk (demo_entry "a") = clk (demo_entry "b")) as -> by by vm_compute. done.
Defined.

(** A partition: nothing is delivered. *)
Definition split_acts : list action :=
  [AWrite "a" 1000000 "x" (Some "1"); AWrite "b" 2000000 "x" (Some "2"); ADelete "a" 3000000 "y"].
Definition split_sys : Sys := sys_run (sys_init "c" Resolver.LWWResolver ["a"; "b"]) split_acts.

Definition split_node (k : string) : MultiLeaderNode := default (NewMultiLeaderNode "" "" None) (nodes split_sys !! k).


(** A conflict parked at [a], a later write at [a], and a resolution of the old conflict. *)
Definition manual_acts : list action :=
  [AWrite "a" 1000000 "x" (Some "1"); AWrite "b" 1000000 "x" (Some "2"); ADeliver 1 2000000 "u";
   AWrite "a" 3000000 "x" (Some "3"); AResolve "a" 4000000 "x" "remote";
   ADeliver 2 5000000 "v"; ADeliver 3 6000000 "w"].
Definition manual_sys : Sys := sys_run (sys_init "c" Resolver.ManualResolver ["a"; "b"]) manual_acts.

(** In manual mode a resolution silently drops a write. A conflict on a key is parked with the local
    version of that moment; the node then takes another client write of the key, and the human resolves
    the old conflict. The resolution is stamped with the parked clocks incremented once, which is the
    very count the later write has, so it dominates that write's clock: both nodes discard the
    acknowledged write in favour of a value chosen without it, and no conflict is left to show it. *)
Theorem multi_leader_manual_loses_write :
  ∃ w e1 e2, written manual_sys !! 2 = Some w ∧ kv_Value w = Some "3" ∧ kv_NodeID w = "a" ∧
    stored manual_sys "a" "x" = Some e1 ∧ stored manual_sys "b" "x" = Some e2 ∧
    kv_Value e1 = Some "2" ∧ kv_Value e2 = Some "2" ∧
    VectorClock.HappensBefore (clk w) (clk e1) = true ∧ clk e1 = clk e2 ∧
    (PendingConflicts <$> nodes manual_sys !! "a") = Some [] ∧ (PendingConflicts <$> nodes manual_sys !! "b") = Some [].
Proof.
  set (d := MkKVEntry "" None None 0 "" false 0).
  exists (default d (written manual_sys !! 2)), (default d (stored manual_sys "a" "x")), (default d (stored manual_sys "b" "x")).
  split_and!; vm_compute; reflexivity.
Qed.
