(* ===== verification/Leaderless.v ===== *)
(** * Leaderless replication

    Models [src/internal/node/leaderless.go]: the Dynamo-style node that coordinates quorum writes and
    reads over the replicas a consistent-hash ring assigns to a key.

    A coordinating call is a goroutine that waits on a channel; its local variables are a record
    ([WriteCall], [ReadCall]) and the code between two waits is a function: starting the call, taking
    one message from the channel, and the expiry of its timer.  Channels are queues with their
    capacity; sending to a full one drops, as the handlers do.  Wall-clock readings and the draws of
    [rand.Shuffle] are arguments.  Metrics and published events are left out. *)

From stdpp Require Import pretty.
From Stdlib Require Import HexadecimalString HexadecimalN.
From S2P Require Import Prelude Storage Clock Crdt Conflict Quorum HashRing Transport Node.
Import (hints) VectorClock.
#[local] Open Scope nat_scope.

Module Leaderless.
Import Message Resolver.

(** [ReadRepairMode] and [ConsistencyLevel] are strings with named values. *)
Definition RepairAsync : string := "async".
Definition RepairSync : string := "sync".
Definition RepairDigest : string := "digest".
Definition CLQuorum : string := "quorum".
Definition CLLocalQuorum : string := "local_quorum".
Definition CLEachQuorum : string := "each_quorum".

Record readResp := MkResp { senderID : string; entry : option KVEntry; hash : string }.

(** A buffered channel. *)
Record chan (A : Type) := MkChan { capacity : nat; queue : list A }.
Arguments MkChan {A}.
Arguments capacity {A}.
Arguments queue {A}.

(** [select { case ch <- x: default: }] *)
Definition offer {A} (c : chan A) (x : A) : chan A :=
  if length (queue c) <? capacity c then MkChan (capacity c) (queue c ++ [x]) else c.

Record LeaderlessNode := MkLL {
  base : Node.BaseNode;
  qConfig : Quorum.QuorumConfig;
  allNodes : list string;
  hints : gmap string (list KVEntry);
  ring : Ring.Ring;
  regions : gmap string string;
  selfRegion : string;
  repairMode : string;
  consistencyLevel : string;
  sloppy : bool;
  seqNo : nat;
  writeAcks : gmap nat (chan string);
  readResps : gmap nat (chan readResp);
}.

Definition NewLeaderlessNode (id : string) (q : Quorum.QuorumConfig) : LeaderlessNode :=
  MkLL (Node.newBaseNode id Node.StrategyLeaderless Node.RoleReplica) q [id] ∅ (Ring.Add (Ring.NewRing 128) id)
    ∅ "" RepairAsync CLQuorum true 0 ∅ ∅.

Definition n_id (n : LeaderlessNode) : string := Node.id (base n).
Definition n_store (n : LeaderlessNode) : Store.Store := Node.store (base n).

Definition with_base (n : LeaderlessNode) (b : Node.BaseNode) : LeaderlessNode :=
  MkLL b (qConfig n) (allNodes n) (hints n) (ring n) (regions n) (selfRegion n) (repairMode n) (consistencyLevel n)
    (sloppy n) (seqNo n) (writeAcks n) (readResps n).
Definition with_hints (n : LeaderlessNode) (h : gmap string (list KVEntry)) : LeaderlessNode :=
  MkLL (base n) (qConfig n) (allNodes n) h (ring n) (regions n) (selfRegion n) (repairMode n) (consistencyLevel n)
    (sloppy n) (seqNo n) (writeAcks n) (readResps n).
(** [n.seqNo++] with a new channel registered under it, and the channels alone. *)
Definition with_chans (n : LeaderlessNode) (s : nat) (wa : gmap nat (chan string)) (rr : gmap nat (chan readResp))
  : LeaderlessNode :=
  MkLL (base n) (qConfig n) (allNodes n) (hints n) (ring n) (regions n) (selfRegion n) (repairMode n) (consistencyLevel n)
    (sloppy n) s wa rr.

(** ** Configuration *)

Definition SetAllNodes (n : LeaderlessNode) (nodes : list string) : LeaderlessNode :=
  MkLL (base n) (qConfig n) nodes (hints n) (foldl Ring.Add (Ring.NewRing 128) nodes) (regions n) (selfRegion n)
    (repairMode n) (consistencyLevel n) (sloppy n) (seqNo n) (writeAcks n) (readResps n).

Definition SetRegions (n : LeaderlessNode) (rs : gmap string string) : LeaderlessNode :=
  MkLL (base n) (qConfig n) (allNodes n) (hints n) (ring n) rs (default "" (rs !! n_id n)) (repairMode n)
    (consistencyLevel n) (sloppy n) (seqNo n) (writeAcks n) (readResps n).

Definition SetReadRepairMode (n : LeaderlessNode) (m : string) : LeaderlessNode :=
  MkLL (base n) (qConfig n) (allNodes n) (hints n) (ring n) (regions n) (selfRegion n)
    (if String.eqb m "" then RepairAsync else m) (consistencyLevel n) (sloppy n) (seqNo n) (writeAcks n) (readResps n).

Definition SetConsistencyLevel (n : LeaderlessNode) (cl : string) : LeaderlessNode :=
  MkLL (base n) (qConfig n) (allNodes n) (hints n) (ring n) (regions n) (selfRegion n) (repairMode n)
    (if String.eqb cl "" then CLQuorum else cl) (sloppy n) (seqNo n) (writeAcks n) (readResps n).

Definition SetSloppyQuorum (n : LeaderlessNode) (on : bool) : LeaderlessNode :=
  MkLL (base n) (qConfig n) (allNodes n) (hints n) (ring n) (regions n) (selfRegion n) (repairMode n)
    (consistencyLevel n) on (seqNo n) (writeAcks n) (readResps n).

Definition UpdateQuorum (n : LeaderlessNode) (q : Quorum.QuorumConfig) : LeaderlessNode :=
  MkLL (base n) q (allNodes n) (hints n) (ring n) (regions n) (selfRegion n) (repairMode n)
    (consistencyLevel n) (sloppy n) (seqNo n) (writeAcks n) (readResps n).

(** ** Placement and quorums *)

Definition replicasFor (n : LeaderlessNode) (key : string) : list string :=
  let pl := Ring.PreferenceList (ring n) key (Quorum.N_ (qConfig n)) in
  if length pl =? 0 then allNodes n else pl.

Definition fallbackNodes (n : LeaderlessNode) (key : string) (replicas : list string) (extra : nat) : list string :=
  let walk := Ring.PreferenceList (ring n) key (Quorum.N_ (qConfig n) + Z.of_nat extra) in
  filter (λ id, ¬ (id ∈ replicas) ∧ id ≠ n_id n) walk.

Definition getOtherNodes (n : LeaderlessNode) : list string := filter (λ id, id ≠ n_id n) (allNodes n).

Definition regionOf (n : LeaderlessNode) (id : string) : string := default "" (regions n !! id).

(** The distinct regions of the replicas, in their order. *)
Fixpoint replicaRegions (n : LeaderlessNode) (seen : gset string) (replicas : list string) : list string :=
  match replicas with
  | [] => []
  | r :: rs =>
      let reg := regionOf n r in
      if bool_decide (reg ∈ seen) then replicaRegions n seen rs
      else reg :: replicaRegions n ({[reg]} ∪ seen) rs
  end.

Definition regionQuorum (n : LeaderlessNode) (replicas : list string) (region : string) : nat :=
  let count := length (filter (λ r, regionOf n r = region) replicas) in
  if count =? 0 then 1 else count / 2 + 1.

Definition countInRegion (n : LeaderlessNode) (acked : gset string) (region : string) : nat :=
  size (filter (λ id, regionOf n id = region) acked).

Definition writeQuorumMet (n : LeaderlessNode) (acked : gset string) (replicas : list string) (selfIsReplica : bool) : bool :=
  let total := if selfIsReplica then {[n_id n]} ∪ acked else acked in
  if String.eqb (consistencyLevel n) CLLocalQuorum then
    regionQuorum n replicas (selfRegion n) <=? countInRegion n total (selfRegion n)
  else if String.eqb (consistencyLevel n) CLEachQuorum then
    forallb (λ region, regionQuorum n replicas region <=? countInRegion n total region) (replicaRegions n ∅ replicas)
  else (Quorum.W (qConfig n) <=? Z.of_nat (size total))%Z.

(** ** Applying a write *)

Definition entryWins (a b : KVEntry) : bool :=
  if negb (kv_Timestamp a =? kv_Timestamp b)%Z then (kv_Timestamp b <? kv_Timestamp a)%Z
  else str_ltb (kv_NodeID b) (kv_NodeID a).

Definition applyWrite (n : LeaderlessNode) (now : Z) (e : KVEntry) : LeaderlessNode :=
  let b := (Node.HLCUpdate (base n) now (kv_Timestamp e)).2 in
  match Store.GetRaw (Node.store b) (kv_Key e) with
  | None => with_base n (Node.set_store b (Store.Set_ (Node.store b) e))
  | Some existing =>
      if entryWins e existing then with_base n (Node.set_store b (Store.Set_ (Node.store b) e)) else with_base n b
  end.

(** [%d], [%t] and [strconv.FormatUint(h, 16)]. *)
Definition format_bool (b : bool) : string := if b then "true" else "false".
Definition format_hex (h : N) : string := NilZero.string_of_uint (N.to_hex_uint h).

Definition entryHash (e : KVEntry) : string :=
  let nul := String.String (Ascii.ascii_of_nat 0) "" in
  format_hex (Ring.fnv1a 14695981039346656037
    (pretty (kv_Timestamp e) +:+ nul +:+ kv_NodeID e +:+ nul +:+ format_bool (kv_Tombstone e) +:+ nul
     +:+ default "" (kv_Value e))).

(** ** Messages *)

Definition lmsg (t : MessageType) (s : nat) (from to : string) (key : string) (e : option KVEntry) (orig : string)
  (digest : bool) (h : string) (err : string) : Message :=
  MkMessage t s from to [] e 0 None None err key [] 0 orig 0 0 0 false 0 0 0 false None digest h.

(** Append to the hints held for a node. *)
Definition add_hint (n : LeaderlessNode) (target : string) (e : KVEntry) : LeaderlessNode :=
  with_hints n (<[target := default [] (hints n !! target) ++ [e]]> (hints n)).

Definition HandleMessage (n : LeaderlessNode) (now : Z) (m : Message) : LeaderlessNode * list Message :=
  if Node.isPaused (base n) then (n, [])
  else match m_Type m with
  | MsgWrite | MsgHintedHandoff =>
      match m_Entry m with
      | Some e =>
          let n := applyWrite n now e in
          let n := if bool_decide (m_Type m = MsgWrite) && negb (String.eqb (m_OriginalTarget m) "")
                      && negb (String.eqb (m_OriginalTarget m) (n_id n))
                   then add_hint n (m_OriginalTarget m) e else n in
          (n, [lmsg MsgWriteAck (m_SeqNo m) (n_id n) (m_SenderID m) "" (Some e) "" false "" ""])
      | None => (n, [])
      end
  | MsgWriteAck =>
      match writeAcks n !! m_SeqNo m with
      | Some ch => (with_chans n (seqNo n) (<[m_SeqNo m := offer ch (m_SenderID m)]> (writeAcks n)) (readResps n), [])
      | None => (n, [])
      end
  | MsgClientRead =>
      let reply e digest h err := lmsg MsgSyncAck (m_SeqNo m) (n_id n) (m_SenderID m) (m_Key m) e "" digest h err in
      match Store.GetRaw (n_store n) (m_Key m) with
      | Some e =>
          if m_Digest m then
            let meta := MkKVEntry (kv_Key e) None None (kv_Timestamp e) (kv_NodeID e) (kv_Tombstone e) (kv_Version e) in
            (n, [reply (Some meta) true (entryHash e) ""])
          else (n, [reply (Some e) false "" ""])
      | None => (n, [reply None false "" "not_found"])
      end
  | MsgSyncAck =>
      match readResps n !! m_SeqNo m with
      | Some ch =>
          let r := MkResp (m_SenderID m) (m_Entry m) (m_Hash m) in
          (with_chans n (seqNo n) (writeAcks n) (<[m_SeqNo m := offer ch r]> (readResps n)), [])
      | None => (n, [])
      end
  | MsgReadRepair => match m_Entry m with Some e => (applyWrite n now e, []) | None => (n, []) end
  | _ => (n, [])
  end.

(** [deliverHints]: every held hint is sent and forgotten; a target with an empty list stays. *)
Definition deliverHints (n : LeaderlessNode) : LeaderlessNode * list Message :=
  let ms := map_to_list (hints n) ≫= λ '(target, es),
    (λ e, lmsg MsgHintedHandoff 0 (n_id n) target "" (Some e) target false "" "") <$> es in
  (with_hints n (filter (λ kv, kv.2 = []) (hints n)), ms).

Inductive error := ErrPaused | ErrWriteQuorum | ErrReadQuorum | ErrNotFound.

(** ** Coordinating a write *)

(** Waiting for the preferred replicas, for the stand-ins, or, after returning to the client, draining
    late acknowledgements in [collectHints]. *)
Inductive phase := Preferred | StandIns | Grace.

#[export] Instance phase_eq_dec : EqDecision phase.
Proof. solve_decision. Defined.

Record WriteCall := MkWrite {
  w_seq : nat;
  w_entry : KVEntry;
  w_replicas : list string;
  w_targets : list string;
  w_self : bool;
  w_acked : gset string;
  w_phase : phase;
}.

Definition with_phase (c : WriteCall) (p : phase) : WriteCall :=
  MkWrite (w_seq c) (w_entry c) (w_replicas c) (w_targets c) (w_self c) (w_acked c) p.
Definition with_acked (c : WriteCall) (a : gset string) : WriteCall :=
  MkWrite (w_seq c) (w_entry c) (w_replicas c) (w_targets c) (w_self c) a (w_phase c).

Definition quorum_met (n : LeaderlessNode) (c : WriteCall) : bool := writeQuorumMet n (w_acked c) (w_replicas c) (w_self c).

(** What a piece of the call leaves: its state, the client's answer if it is given now, messages. *)
Definition wstep : Type := WriteCall * option bool * list Message.

(** Return to the client with the given verdict; [collectHints] goes on with the call's state. *)
Definition answer (c : WriteCall) (met : bool) (ms : list Message) : wstep := (with_phase c Grace, Some met, ms).

Definition sloppyRound (n : LeaderlessNode) (c : WriteCall) : wstep :=
  let unacked := filter (λ r, r ≠ n_id n ∧ ¬ (r ∈ w_acked c)) (w_replicas c) in
  if length unacked =? 0 then answer c true []
  else
    let fallbacks := fallbackNodes n (kv_Key (w_entry c)) (w_replicas c) (length unacked + 2) in
    let ms := zip_with (λ fb orig, lmsg MsgWrite (w_seq c) (n_id n) fb "" (Some (w_entry c)) orig false "" "")
                fallbacks unacked in
    if length ms =? 0 then answer c false []
    else if quorum_met n c then answer c true ms
    else (with_phase c StandIns, None, ms).

(** [writeQuorumDone]: the preferred replicas have had their chance. *)
Definition preferred_done (n : LeaderlessNode) (c : WriteCall) : wstep :=
  let met := quorum_met n c in
  if negb met && sloppy n then sloppyRound n c else answer c met [].

Definition coordinate (n : LeaderlessNode) (now : Z) (e : KVEntry) : LeaderlessNode * wstep :=
  let n := applyWrite n now e in
  let replicas := replicasFor n (kv_Key e) in
  let selfIsReplica := bool_decide (n_id n ∈ replicas) in
  let targets := filter (λ r, r ≠ n_id n) replicas in
  let s := S (seqNo n) in
  let n := with_chans n s (<[s := MkChan (length (allNodes n) + 1) []]> (writeAcks n)) (readResps n) in
  let ms := (λ t, lmsg MsgWrite s (n_id n) t "" (Some e) "" false "" "") <$> targets in
  let c := MkWrite s e replicas targets selfIsReplica ∅ Preferred in
  if quorum_met n c then (n, let '(c, r, ms') := preferred_done n c in (c, r, ms ++ ms')) else (n, (c, None, ms)).

(** Take one acknowledgement from the call's channel. *)
Definition take_ack (n : LeaderlessNode) (c : WriteCall) : option (LeaderlessNode * WriteCall) :=
  ch ← writeAcks n !! w_seq c;
  match queue ch with
  | [] => None
  | x :: q => Some (with_chans n (seqNo n) (<[w_seq c := MkChan (capacity ch) q]> (writeAcks n)) (readResps n),
                    with_acked c ({[x]} ∪ w_acked c))
  end.

(** What the call does with it, by phase. *)
Definition coordinate_ack (n : LeaderlessNode) (c : WriteCall) : option (LeaderlessNode * wstep) :=
  '(n, c) ← take_ack n c;
  Some (n, match w_phase c with
           | Preferred =>
               if (length (w_targets c) <=? size (w_acked c)) || quorum_met n c then preferred_done n c else (c, None, [])
           | StandIns => if quorum_met n c then answer c true [] else (c, None, [])
           | Grace => (c, None, [])
           end).

(** The call's timer: one second, then 700 ms. *)
Definition coordinate_timer (n : LeaderlessNode) (c : WriteCall) : wstep :=
  match w_phase c with
  | Preferred => preferred_done n c
  | StandIns => answer c (quorum_met n c) []
  | Grace => (c, None, [])
  end.

(** The end of [collectHints]: the channel goes, and every target that never answered gets a hint. *)
Definition collectHints (n : LeaderlessNode) (c : WriteCall) : LeaderlessNode :=
  let n := with_chans n (seqNo n) (delete (w_seq c) (writeAcks n)) (readResps n) in
  foldl (λ n t, add_hint n t (w_entry c)) n (filter (λ t, ¬ (t ∈ w_acked c)) (w_targets c)).

Definition new_entry (n : LeaderlessNode) (now : Z) (key : string) (value : option string) (tombstone : bool)
  : KVEntry * LeaderlessNode :=
  let '(ts, b) := Node.HLCNow (base n) now in
  (MkKVEntry key value (Some (VectorClock.Increment VectorClock.NewVectorClock (n_id n))) ts (n_id n) tombstone 0,
   with_base n b).

Definition Write (n : LeaderlessNode) (now : Z) (key : string) (value : option string)
  : error + LeaderlessNode * wstep :=
  if Node.isPaused (base n) then inl ErrPaused
  else let '(e, n) := new_entry n now key value false in inr (coordinate n now e).

Definition Delete (n : LeaderlessNode) (now : Z) (key : string) : error + LeaderlessNode * wstep :=
  if Node.isPaused (base n) then inl ErrPaused
  else let '(e, n) := new_entry n now key None true in inr (coordinate n now e).

(** ** Coordinating a read *)

(** [rand.Shuffle]: position [i], from the last down to the second, is swapped with a draw below [i+1]. *)
Definition swap {A} (i j : nat) (l : list A) : list A :=
  match l !! i, l !! j with Some a, Some b => <[i := b]> (<[j := a]> l) | _, _ => l end.

Fixpoint shuffle_from {A} (draw : nat → nat) (i : nat) (l : list A) : list A :=
  match i with O => l | S i' => shuffle_from draw i' (swap i (draw i mod S i) l) end.

Definition Shuffle {A} (draw : nat → nat) (l : list A) : list A := shuffle_from draw (length l - 1) l.

(** The top-up of [readTargets] with members that are not replicas. *)
Fixpoint top_up (inSet : gset string) (ids : list string) : list string :=
  match ids with
  | [] => []
  | id :: ids => if bool_decide (id ∈ inSet) then top_up inSet ids else id :: top_up ({[id]} ∪ inSet) ids
  end.

Definition readTargets (n : LeaderlessNode) (draw : nat → nat) (key : string) (count : nat) : list string :=
  let others := filter (λ r, r ≠ n_id n) (replicasFor n key) in
  let others := if length others <? count
                then others ++ top_up ({[n_id n]} ∪ list_to_set others) (getOtherNodes n) else others in
  if length others <=? count then others else take count (Shuffle draw others).

Record ReadCall := MkRead {
  r_seq : nat;
  r_key : string;
  r_local : option KVEntry;
  r_digest : bool;
  r_needed : nat;
  r_resps : list readResp;
}.

Definition Read (n : LeaderlessNode) (draw : nat → nat) (key : string)
  : error + LeaderlessNode * ReadCall * list Message :=
  if Node.isPaused (base n) then inl ErrPaused
  else
    let localEntry := Store.GetRaw (n_store n) key in
    let localHits := match localEntry with Some _ => 1 | None => 0 end in
    let remoteNeeded := Z.to_nat (Quorum.R (qConfig n) - Z.of_nat localHits) in
    let targets := readTargets n draw key remoteNeeded in
    let digest := String.eqb (repairMode n) RepairDigest in
    let s := S (seqNo n) in
    let n := with_chans n s (writeAcks n) (<[s := MkChan (length targets + 1) []]> (readResps n)) in
    let ms := (λ t, lmsg MsgClientRead s (n_id n) t key None "" digest "" "") <$> targets in
    inr (n, MkRead s key localEntry digest (Nat.min remoteNeeded (length targets)) [], ms).

(** Take one response, while the loop still waits for one. *)
Definition read_recv (n : LeaderlessNode) (c : ReadCall) : option (LeaderlessNode * ReadCall) :=
  if r_needed c <=? length (r_resps c) then None
  else
    ch ← readResps n !! r_seq c;
    match queue ch with
    | [] => None
    | x :: q => Some (with_chans n (seqNo n) (writeAcks n) (<[r_seq c := MkChan (capacity ch) q]> (readResps n)),
                      MkRead (r_seq c) (r_key c) (r_local c) (r_digest c) (r_needed c) (r_resps c ++ [x]))
    end.

Definition responses (c : ReadCall) : list KVEntry := option_list (r_local c) ++ omap entry (r_resps c).

Definition newest (best : KVEntry) (rs : list KVEntry) : KVEntry :=
  foldl (λ best r, if entryWins r best then r else best) best rs.

(** [readDone]: quorum check, then the newest of the responses. *)
Definition read_done (n : LeaderlessNode) (c : ReadCall) : error + KVEntry :=
  if (Z.of_nat (1 + length (r_resps c)) <? Quorum.R (qConfig n))%Z then inl ErrReadQuorum
  else match responses c with
       | [] => inl ErrNotFound
       | r :: rs => inr (newest r rs)
       end.

(** A digest reply won: its value has to be fetched. *)
Definition metadata_only (c : ReadCall) (best : KVEntry) : bool :=
  r_digest c && bool_decide (kv_Value best = None) && negb (kv_Tombstone best).

(** [fetchFull] up to its wait: the local copy at once, or the request and its sequence number.  The
    request carries no target. *)
Definition fetchFull (n : LeaderlessNode) (nodeID key : string) : option KVEntry + LeaderlessNode * nat * list Message :=
  if String.eqb nodeID "" || String.eqb nodeID (n_id n) then inl (Store.GetRaw (n_store n) key)
  else
    let s := S (seqNo n) in
    inr (with_chans n s (writeAcks n) (<[s := MkChan 2 []]> (readResps n)), s,
         [lmsg MsgClientRead s (n_id n) "" key None "" false "" ""]).

(** Its end: the response that came, or nothing after 400 ms. *)
Definition fetch_end (n : LeaderlessNode) (s : nat) (timeout : bool) : option KVEntry * LeaderlessNode :=
  let r := match readResps n !! s with
           | Some ch => if timeout then None else x ← head (queue ch); entry x
           | None => None
           end in
  (r, with_chans n (seqNo n) (writeAcks n) (delete s (readResps n))).

Definition has_value (e : KVEntry) : bool := negb (bool_decide (kv_Value e = None)) || kv_Tombstone e.

Definition is_stale (best : KVEntry) (r : readResp) : bool :=
  match entry r with
  | None => true
  | Some e => if negb (String.eqb (hash r) "") then negb (String.eqb (hash r) (entryHash best)) else entryWins best e
  end.

(** [repairSync] up to its wait. *)
Definition repairSync (n : LeaderlessNode) (best : KVEntry) (staleNodes : list string) : LeaderlessNode * nat * list Message :=
  let s := S (seqNo n) in
  (with_chans n s (<[s := MkChan (length staleNodes + 1) []]> (writeAcks n)) (readResps n), s,
   (λ id, lmsg MsgWrite s (n_id n) id "" (Some best) "" false "" "") <$> staleNodes).

(** The rest of [Read] once the winner is known: repair the local copy and the stale responders.  The
    sequence number is that of a blocking repair. *)
Definition read_finish (n : LeaderlessNode) (now : Z) (c : ReadCall) (best : KVEntry)
  : (error + KVEntry) * LeaderlessNode * option nat * list Message :=
  let behind := match r_local c with None => true | Some l => entryWins best l end in
  let n := if behind && has_value best then applyWrite n now best else n in
  let staleNodes := senderID <$> filter (λ r, is_stale best r = true) (r_resps c) in
  let '(n, rep, ms) :=
    if negb (length staleNodes =? 0) && has_value best then
      if String.eqb (repairMode n) RepairSync then
        let '(n, s, ms) := repairSync n best staleNodes in (n, Some s, ms)
      else (n, None, broadcast (lmsg MsgReadRepair 0 (n_id n) "" "" (Some best) "" false "" "") staleNodes)
    else (n, None, []) in
  (if kv_Tombstone best then inl ErrNotFound else inr best, n, rep, ms).

(** The deferred clean-ups of a read and of its blocking repair. *)
Definition read_return (n : LeaderlessNode) (s : nat) (rep : option nat) : LeaderlessNode :=
  with_chans n (seqNo n) (match rep with Some s' => delete s' (writeAcks n) | None => writeAcks n end)
    (delete s (readResps n)).

(** ** The order replicas keep *)

(** [entryWins] is the strict last-write-wins order, the one [LWWResolver] uses. *)
Lemma entryWins_spec a b : entryWins a b = true ↔ LWW.entry_lt (stamp b) (stamp a).
Proof.
  unfold entryWins, LWW.entry_lt, stamp; simpl. destruct (Z.eqb_spec (kv_Timestamp a) (kv_Timestamp b)) as [->|Hne]; simpl.
  - rewrite str_ltb_lt. split; [intros H; right; auto|]. intros [?|[_ [?|[_ H]]]]; [lia|done|]. by apply str_lt_irrefl in H.
  - rewrite Z.ltb_lt. split; [auto|]. intros [?|[? _]]; [done|congruence].
Qed.

Lemma entryWins_false a b : entryWins a b = false ↔ stamp_le a b.
Proof. rewrite <- not_true_iff_false, entryWins_spec. done. Qed.

Lemma entryWins_le a b : entryWins a b = true → stamp_le b a.
Proof. rewrite entryWins_spec. apply LWW.entry_lt_asym. Qed.

(** A store whose entries are never replaced by older ones. *)
Definition store_le (s s' : Store.Store) : Prop :=
  ∀ key e, Store.GetRaw s key = Some e → ∃ e', Store.GetRaw s' key = Some e' ∧ stamp_le e e'.

#[export] Instance store_le_preorder : PreOrder store_le.
Proof.
  split; [intros s key e He; exists e; auto using stamp_le_refl|].
  intros a b c H1 H2 key e He. destruct (H1 _ _ He) as (e1 & He1 & ?), (H2 _ _ He1) as (e2 & ? & ?).
  exists e2. eauto using stamp_le_trans.
Qed.

(** The parts of a node no message and no call changes. *)
Definition same_config (n n' : LeaderlessNode) : Prop :=
  n_id n' = n_id n ∧ qConfig n' = qConfig n ∧ allNodes n' = allNodes n ∧ ring n' = ring n ∧
  consistencyLevel n' = consistencyLevel n ∧ sloppy n' = sloppy n ∧ repairMode n' = repairMode n.

#[export] Instance same_config_preorder : PreOrder same_config.
Proof. split; [by intros n|]. unfold same_config. intros a b c. naive_solver congruence. Qed.

Lemma same_config_replicas n n' key : same_config n n' → replicasFor n' key = replicasFor n key.
Proof. intros (_ & Hq & Ha & Hr & _). unfold replicasFor. by rewrite Hq, Ha, Hr. Qed.

Lemma applyWrite_spec n now e :
  let n' := applyWrite n now e in
  same_config n n' ∧ seqNo n' = seqNo n ∧ writeAcks n' = writeAcks n ∧ readResps n' = readResps n ∧
  store_le (n_store n) (n_store n') ∧
  ∃ e', Store.GetRaw (n_store n') (kv_Key e) = Some e' ∧ stamp_le e e'.
Proof.
  cbv zeta. unfold applyWrite. set (b := (Node.HLCUpdate (base n) now (kv_Timestamp e)).2).
  assert (Hb : Node.store b = n_store n ∧ Node.id b = n_id n).
  { unfold b, Node.HLCUpdate. by destruct (HLC.Update _ _ _). }
  destruct Hb as [Hb Hid]. rewrite Hb.
  assert (Hset : ∀ key, Store.GetRaw (Store.Set_ (n_store n) e) key =
    if decide (kv_Key e = key) then Some (kv_with_version (u64N (Store.version (n_store n) + 1)) e)
    else Store.GetRaw (n_store n) key) by (intros; apply Store.GetRaw_Set).
  assert (Hv : ∀ v x, stamp_le x e → stamp_le x (kv_with_version v e)) by done.
  destruct (Store.GetRaw (n_store n) (kv_Key e)) as [x|] eqn:Ex; [destruct (entryWins e x) eqn:Ew|];
    (split_and!; [by split_and!|done|done|done| |]); unfold n_store; simpl.
  - intros key y Hy. change (Store.GetRaw (n_store n) key = Some y) in Hy. rewrite Hset. case_decide; [|eauto using stamp_le_refl]. subst.
    assert (y = x) as -> by congruence. eauto using entryWins_le.
  - rewrite Hset, decide_True by done. eauto using stamp_le_refl.
  - rewrite Hb. reflexivity.
  - rewrite Hb. exists x. split; [done|]. by apply entryWins_false.
  - intros key y Hy. change (Store.GetRaw (n_store n) key = Some y) in Hy. rewrite Hset. case_decide; [|eauto using stamp_le_refl]. subst. congruence.
  - rewrite Hset, decide_True by done. eauto using stamp_le_refl.
Qed.

(** [newest] returns an entry no response beats. *)
Lemma newest_spec rs : ∀ best, let b := newest best rs in
  (b = best ∨ b ∈ rs) ∧ stamp_le best b ∧ ∀ r, r ∈ rs → stamp_le r b.
Proof.
  induction rs as [|r rs IH]; intros best; simpl.
  { split_and!; [auto|apply stamp_le_refl|by intros ? ?%elem_of_nil]. }
  destruct (entryWins r best) eqn:E.
  - destruct (IH r) as (H1 & H2 & H3). split_and!.
    + right. destruct H1 as [-> |?]; [left|by right].
    + eapply stamp_le_trans; [by apply entryWins_le|done].
    + intros x [-> |?]%elem_of_cons; auto.
  - destruct (IH best) as (H1 & H2 & H3). split_and!.
    + destruct H1 as [-> |?]; [by left|right; by right].
    + done.
    + intros x [-> |?]%elem_of_cons; [|auto]. eapply stamp_le_trans; [by apply entryWins_false|done].
Qed.

(** [Shuffle] permutes. *)
Lemma swap_perm {A} i j (l : list A) : swap i j l ≡ₚ l.
Proof.
  unfold swap. destruct (l !! i) as [a|] eqn:Hi, (l !! j) as [b|] eqn:Hj; try done.
  by apply (Permutation_insert_swap l j i b a).
Qed.

Lemma Shuffle_perm {A} draw (l : list A) : Shuffle draw l ≡ₚ l.
Proof.
  unfold Shuffle. generalize (length l - 1). intros i. revert l.
  induction i as [|i IH]; intros l; simpl; [done|]. rewrite IH. apply swap_perm.
Qed.

(** What handling a message does, by kind. *)
Inductive handled (n : LeaderlessNode) (m : Message) : LeaderlessNode → list Message → Prop :=
  | HSkip : handled n m n []
  | HWrite n' e :
      m_Type m = MsgWrite ∨ m_Type m = MsgHintedHandoff → m_Entry m = Some e →
      same_config n n' → seqNo n' = seqNo n → writeAcks n' = writeAcks n → readResps n' = readResps n →
      store_le (n_store n) (n_store n') →
      (∃ e', Store.GetRaw (n_store n') (kv_Key e) = Some e' ∧ stamp_le e e') →
      handled n m n' [lmsg MsgWriteAck (m_SeqNo m) (n_id n) (m_SenderID m) "" (Some e) "" false "" ""]
  | HAck ch :
      m_Type m = MsgWriteAck → writeAcks n !! m_SeqNo m = Some ch →
      handled n m (with_chans n (seqNo n) (<[m_SeqNo m := offer ch (m_SenderID m)]> (writeAcks n)) (readResps n)) []
  | HRead oe d h err :
      m_Type m = MsgClientRead →
      (∀ e, Store.GetRaw (n_store n) (m_Key m) = Some e → ∃ e', oe = Some e' ∧ stamp_le e e') →
      handled n m n [lmsg MsgSyncAck (m_SeqNo m) (n_id n) (m_SenderID m) (m_Key m) oe "" d h err]
  | HSync ch r :
      m_Type m = MsgSyncAck → readResps n !! m_SeqNo m = Some ch → senderID r = m_SenderID m → entry r = m_Entry m →
      handled n m (with_chans n (seqNo n) (writeAcks n) (<[m_SeqNo m := offer ch r]> (readResps n))) []
  | HRepair n' :
      m_Type m = MsgReadRepair →
      same_config n n' → seqNo n' = seqNo n → writeAcks n' = writeAcks n → readResps n' = readResps n →
      store_le (n_store n) (n_store n') → handled n m n' [].

Lemma HandleMessage_handled n now m : let r := HandleMessage n now m in handled n m r.1 r.2.
Proof.
  cbv zeta. unfold HandleMessage. destruct (Node.isPaused (base n)); [constructor|].
  assert (Hw : ∀ e (b : bool), m_Type m = MsgWrite ∨ m_Type m = MsgHintedHandoff → m_Entry m = Some e →
    let n1 := applyWrite n now e in
    handled n m (if b then add_hint n1 (m_OriginalTarget m) e else n1)
      [lmsg MsgWriteAck (m_SeqNo m) (n_id (if b then add_hint n1 (m_OriginalTarget m) e else n1)) (m_SenderID m) "" (Some e) "" false "" ""]).
  { intros e b Ht He n1. destruct (applyWrite_spec n now e) as (Hc & Hs & Hwa & Hrr & Hst & Hh). fold n1 in Hc, Hs, Hwa, Hrr, Hst, Hh.
    assert (Hid : n_id (if b then add_hint n1 (m_OriginalTarget m) e else n1) = n_id n) by (destruct b; apply Hc).
    rewrite Hid. destruct b; (apply HWrite; [done|done|apply Hc|done|done|done|done|done]). }
  destruct (m_Type m) eqn:Ht; simpl; try constructor.
  - destruct (m_Entry m) as [e|] eqn:He; [|constructor]. apply Hw; auto.
  - destruct (writeAcks n !! m_SeqNo m) eqn:Hc; [|constructor]. by apply HAck.
  - destruct (Store.GetRaw (n_store n) (m_Key m)) as [e|] eqn:Hg; [destruct (m_Digest m)|]; simpl; apply HRead; try done;
      intros x Hx; simplify_eq; (eexists; split; [done|]); apply LWW.entry_lt_irrefl.
  - destruct (readResps n !! m_SeqNo m) eqn:Hc; [|constructor]. by eapply HSync.
  - destruct (m_Entry m) as [e|] eqn:He; [|constructor].
    destruct (applyWrite_spec n now e) as (Hc & Hs & Hwa & Hrr & Hst & _). by apply HRepair.
  - destruct (m_Entry m) as [e|] eqn:He; [|constructor]. apply (Hw e false); auto.
Qed.

End Leaderless.
