(* ===== verification/LeaderlessQuorum.v ===== *)
(** * Quorum consistency of leaderless replication

    A cluster of [Leaderless] nodes on a network that may lose and reorder messages but, like the
    fabric, does not duplicate them.  The goroutines of coordinating calls are entries of [wcalls] and
    [rcalls].  Three fields only observe a run: the entries whose write was reported successful, and
    with each read the entries so reported before it began and the nodes it asked. *)

From S2P Require Import Prelude Storage Clock Crdt Conflict Quorum HashRing Transport Node Leaderless.
#[local] Open Scope nat_scope.

Module LeaderlessQuorum.
Import Message Resolver Leaderless.

(** Where a read is: collecting, fetching the value behind a digest, or waiting for a blocking repair. *)
Inductive rstate := RWaiting | RFetching (best : KVEntry) (s : nat) | RRepairing (s : nat).

Record RCall := MkRCall {
  rc_call : ReadCall;
  rc_state : rstate;
  rc_after : list KVEntry;
  rc_targets : list string;
}.

(** A read's answer to its client. *)
Record Answer := MkAnswer { a_node : string; a_call : ReadCall; a_after : list KVEntry; a_result : error + KVEntry }.

Record Sys := MkSys {
  nodes : gmap string LeaderlessNode;
  net : list Message;
  wcalls : gmap (string * nat) WriteCall;
  rcalls : gmap (string * nat) RCall;
  confirmed : list KVEntry;
  answers : list Answer;
}.

Inductive action :=
  | AWrite (k : string) (now : Z) (key : string) (value : option string)
  | ADelete (k : string) (now : Z) (key : string)
  | AAck (k : string) (s : nat)
  | ATimer (k : string) (s : nat)
  | AGrace (k : string) (s : nat)
  | ARead (k : string) (draw : nat → nat) (key : string)
  | ARecv (k : string) (s : nat)
  | AReadEnd (k : string) (s : nat) (now : Z)
  | AFetchEnd (k : string) (s : nat) (now : Z) (timeout : bool)
  | ARepairEnd (k : string) (s : nat)
  | ADeliver (i : nat) (now : Z)
  | ADrop (i : nat)
  | AHints (k : string)
  | AState (k : string) (st : Node.NodeState)
  | ASkew (k : string) (ms : Z).

Definition put (y : Sys) (k : string) (n : LeaderlessNode) (ms : list Message) : Sys :=
  MkSys (<[k := n]> (nodes y)) (net y ++ ms) (wcalls y) (rcalls y) (confirmed y) (answers y).

(** A write call moves on; a positive answer confirms its entry. *)
Definition put_write (y : Sys) (k : string) (n : LeaderlessNode) (w : wstep) : Sys :=
  let '(c, r, ms) := w in
  MkSys (<[k := n]> (nodes y)) (net y ++ ms) (<[(k, w_seq c) := c]> (wcalls y)) (rcalls y)
    (confirmed y ++ match r with Some true => [w_entry c] | _ => [] end) (answers y).

Definition put_read (y : Sys) (k : string) (n : LeaderlessNode) (rc : RCall) (ms : list Message) : Sys :=
  MkSys (<[k := n]> (nodes y)) (net y ++ ms) (wcalls y) (<[(k, r_seq (rc_call rc)) := rc]> (rcalls y)) (confirmed y) (answers y).

Definition log_answer (y : Sys) (k : string) (rc : RCall) (res : error + KVEntry) : Sys :=
  MkSys (nodes y) (net y) (wcalls y) (rcalls y) (confirmed y)
    (answers y ++ [MkAnswer k (rc_call rc) (rc_after rc) res]).

Definition end_read (y : Sys) (k : string) (n : LeaderlessNode) (s : nat) (rep : option nat) (ms : list Message) : Sys :=
  MkSys (<[k := read_return n s rep]> (nodes y)) (net y ++ ms) (wcalls y) (delete (k, s) (rcalls y)) (confirmed y) (answers y).

(** The winner is known: repair and answer. *)
Definition finish_read (y : Sys) (k : string) (n : LeaderlessNode) (rc : RCall) (now : Z) (best : KVEntry) : Sys :=
  let '(res, n, rep, ms) := read_finish n now (rc_call rc) best in
  let y := log_answer y k rc res in
  match rep with
  | None => end_read y k n (r_seq (rc_call rc)) None ms
  | Some s' => put_read y k n (MkRCall (rc_call rc) (RRepairing s') (rc_after rc) (rc_targets rc)) ms
  end.

Definition on_node (y : Sys) (k : string) (f : LeaderlessNode → Sys) : Sys :=
  match nodes y !! k with Some n => f n | None => y end.

Definition on_write (y : Sys) (k : string) (s : nat) (f : LeaderlessNode → WriteCall → Sys) : Sys :=
  match nodes y !! k, wcalls y !! (k, s) with Some n, Some c => f n c | _, _ => y end.

Definition on_read (y : Sys) (k : string) (s : nat) (f : LeaderlessNode → RCall → Sys) : Sys :=
  match nodes y !! k, rcalls y !! (k, s) with Some n, Some rc => f n rc | _, _ => y end.

Definition start_write (y : Sys) (k : string) (r : error + LeaderlessNode * wstep) : Sys :=
  match r with inl _ => y | inr (n, w) => put_write y k n w end.

Definition sys_step (y : Sys) (a : action) : Sys :=
  match a with
  | AWrite k now key value => on_node y k (λ n, start_write y k (Write n now key value))
  | ADelete k now key => on_node y k (λ n, start_write y k (Delete n now key))
  | AAck k s => on_write y k s (λ n c, match coordinate_ack n c with Some (n', w) => put_write y k n' w | None => y end)
  | ATimer k s => on_write y k s (λ n c, put_write y k n (coordinate_timer n c))
  | AGrace k s => on_write y k s (λ n c,
      if decide (w_phase c = Grace)
      then MkSys (<[k := collectHints n c]> (nodes y)) (net y) (delete (k, s) (wcalls y)) (rcalls y) (confirmed y) (answers y)
      else y)
  | ARead k draw key => on_node y k (λ n,
      match Read n draw key with
      | inl _ => y
      | inr (n', c, ms) => put_read y k n' (MkRCall c RWaiting (confirmed y) (m_TargetID <$> ms)) ms
      end)
  | ARecv k s => on_read y k s (λ n rc,
      match rc_state rc, read_recv n (rc_call rc) with
      | RWaiting, Some (n', c) => put_read y k n' (MkRCall c RWaiting (rc_after rc) (rc_targets rc)) []
      | _, _ => y
      end)
  | AReadEnd k s now => on_read y k s (λ n rc,
      match rc_state rc with
      | RWaiting =>
          match read_done n (rc_call rc) with
          | inl err => end_read (log_answer y k rc (inl err)) k n s None []
          | inr best =>
              if metadata_only (rc_call rc) best then
                match fetchFull n (kv_NodeID best) (r_key (rc_call rc)) with
                | inl full => finish_read y k n rc now (default best full)
                | inr (n', fs, ms) => put_read y k n' (MkRCall (rc_call rc) (RFetching best fs) (rc_after rc) (rc_targets rc)) ms
                end
              else finish_read y k n rc now best
          end
      | _ => y
      end)
  | AFetchEnd k s now timeout => on_read y k s (λ n rc,
      match rc_state rc with
      | RFetching best fs =>
          let '(full, n) := fetch_end n fs timeout in finish_read y k n rc now (default best full)
      | _ => y
      end)
  | ARepairEnd k s => on_read y k s (λ n rc,
      match rc_state rc with RRepairing s' => end_read y k n s (Some s') [] | _ => y end)
  | ADeliver i now =>
      match net y !! i with
      | None => y
      | Some m =>
          let y := MkSys (nodes y) (remove_at i (net y)) (wcalls y) (rcalls y) (confirmed y) (answers y) in
          on_node y (m_TargetID m) (λ n, let '(n', ms) := HandleMessage n now m in put y (m_TargetID m) n' ms)
      end
  | ADrop i => MkSys (nodes y) (remove_at i (net y)) (wcalls y) (rcalls y) (confirmed y) (answers y)
  | AHints k => on_node y k (λ n, let '(n', ms) := deliverHints n in put y k n' ms)
  | AState k st => on_node y k (λ n, put y k (with_base n (Node.set_state (base n) st)) [])
  | ASkew k ms => on_node y k (λ n, put y k (with_base n (Node.SetClockSkewMillis (base n) ms)) [])
  end.

Definition sys_run (y : Sys) (acts : list action) : Sys := foldl sys_step y acts.

(** A node of a freshly created cluster. *)
Definition fresh (ids : list string) (q : Quorum.QuorumConfig) (level mode : string) (sloppy : bool) (k : string) : LeaderlessNode :=
  SetSloppyQuorum (SetReadRepairMode (SetConsistencyLevel (SetAllNodes (NewLeaderlessNode k q) ids) level) mode) sloppy.

Definition sys_init (ids : list string) (q : Quorum.QuorumConfig) (level mode : string) (sloppy : bool) : Sys :=
  MkSys (list_to_map ((λ k, (k, fresh ids q level mode sloppy k)) <$> ids)) [] ∅ ∅ [] [].

(** ** How the cluster evolves *)

Definition node_le (n n' : LeaderlessNode) : Prop :=
  same_config n n' ∧ store_le (n_store n) (n_store n') ∧ seqNo n ≤ seqNo n'.

#[export] Instance node_le_preorder : PreOrder node_le.
Proof.
  split; [intros n; by split_and!|]. intros a b c (H1 & H2 & H3) (K1 & K2 & K3).
  split_and!; [by etransitivity|by etransitivity|lia].
Qed.

(** Node [x] stores the entry [w] or a newer one of its key. *)
Definition holds (y : Sys) (x : string) (w : KVEntry) : Prop :=
  ∃ n e, nodes y !! x = Some n ∧ Store.GetRaw (n_store n) (kv_Key w) = Some e ∧ stamp_le w e.

(** The network and one node change, nothing else. *)
Definition change (y : Sys) (k : string) (n : LeaderlessNode) (ms : list Message) : Sys :=
  MkSys (<[k := n]> (nodes y)) ms (wcalls y) (rcalls y) (confirmed y) (answers y).

Lemma holds_change y k n n' ms x w :
  nodes y !! k = Some n → node_le n n' → holds y x w → holds (change y k n' ms) x w.
Proof.
  intros Hk (_ & Hst & _) (n0 & e & Hx & He & Hle). unfold holds, change; simpl.
  destruct (decide (k = x)) as [->|Hne]; [rewrite lookup_insert_eq|rewrite lookup_insert_ne by done; eauto 10].
  assert (n0 = n) as -> by congruence. destruct (Hst _ _ He) as (e' & He' & ?).
  exists n', e'. eauto using stamp_le_trans.
Qed.

(** ** Calls in progress and the messages that belong to them *)

(** A write request, and an acknowledgement, of call [s] of coordinator [c]. *)
Definition is_write (c : string) (s : nat) (m : Message) : Prop :=
  m_Type m = MsgWrite ∧ m_SenderID m = c ∧ m_SeqNo m = s.
Definition is_ack (c : string) (s : nat) (m : Message) : Prop :=
  m_Type m = MsgWriteAck ∧ m_TargetID m = c ∧ m_SeqNo m = s.
Definition is_req (d : string) (s : nat) (m : Message) : Prop :=
  m_Type m = MsgClientRead ∧ m_SenderID m = d ∧ m_SeqNo m = s.
Definition is_resp (d : string) (s : nat) (m : Message) : Prop :=
  m_Type m = MsgSyncAck ∧ m_TargetID m = d ∧ m_SeqNo m = s.

(** What waits in a channel. *)
Definition items {A} (cs : gmap nat (chan A)) (s : nat) : list A :=
  match cs !! s with Some ch => queue ch | None => [] end.

Definition wqueue (y : Sys) (c : string) (s : nat) : list string :=
  match nodes y !! c with Some n => items (writeAcks n) s | None => [] end.
Definition rqueue (y : Sys) (d : string) (s : nat) : list readResp :=
  match nodes y !! d with Some n => items (readResps n) s | None => [] end.

(** Who has acknowledged: on the wire, in the channel or counted. *)
Definition acker (y : Sys) (c : string) (s : nat) (call : WriteCall) (x : string) : Prop :=
  (∃ m, m ∈ net y ∧ is_ack c s m ∧ m_SenderID m = x) ∨ x ∈ wqueue y c s ∨ x ∈ w_acked call.

(** The node whose answer to the read a message asks for or carries. *)
Definition tok (d : string) (s : nat) (m : Message) : option string :=
  if decide (is_req d s m) then Some (m_TargetID m)
  else if decide (is_resp d s m) then Some (m_SenderID m) else None.

Definition tokens (y : Sys) (d : string) (s : nat) (c : ReadCall) : list string :=
  omap (tok d s) (net y) ++ (senderID <$> rqueue y d s) ++ (senderID <$> r_resps c).

(** A response of node [x] carrying [oe]: on the wire, in the channel or collected. *)
Definition responded (y : Sys) (d : string) (s : nat) (c : ReadCall) (x : string) (oe : option KVEntry) : Prop :=
  (∃ m, m ∈ net y ∧ is_resp d s m ∧ m_SenderID m = x ∧ m_Entry m = oe) ∨
  (∃ r, r ∈ rqueue y d s ++ r_resps c ∧ senderID r = x ∧ entry r = oe).

Definition at_least (w : KVEntry) (oe : option KVEntry) : Prop := ∃ e, oe = Some e ∧ stamp_le w e.

(** Sequence numbers of messages were issued by the node that waits for the answer. *)
Definition msg_fresh (ns : gmap string LeaderlessNode) (m : Message) : Prop :=
  match m_Type m with
  | MsgWrite | MsgClientRead => ∀ n, ns !! m_SenderID m = Some n → m_SeqNo m ≤ seqNo n
  | MsgWriteAck | MsgSyncAck => ∀ n, ns !! m_TargetID m = Some n → m_SeqNo m ≤ seqNo n
  | MsgHintedHandoff => m_SeqNo m = 0
  | _ => True
  end.

Section strict.
Context (ids : list string) (q : Quorum.QuorumConfig).

(** The replicas of a key. *)
Definition reps (key : string) : list string :=
  let pl := Ring.PreferenceList (foldl Ring.Add (Ring.NewRing 128) ids) key (Quorum.N_ q) in
  if length pl =? 0 then ids else pl.

(** A node configured for strict quorums. *)
Definition strict (k : string) (n : LeaderlessNode) : Prop :=
  n_id n = k ∧ qConfig n = q ∧ (∀ key, replicasFor n key = reps key) ∧
  consistencyLevel n = CLQuorum ∧ sloppy n = false ∧ repairMode n ≠ RepairDigest.

(** At least [W] replicas of its key hold [w]. *)
Definition quorum_holds (y : Sys) (w : KVEntry) : Prop :=
  ∃ X : gset string, (∀ x, x ∈ X → x ∈ reps (kv_Key w) ∧ holds y x w) ∧ (Quorum.W q ≤ Z.of_nat (size X))%Z.

Record wcall_ok (y : Sys) (c : string) (s : nat) (call : WriteCall) : Prop := {
  wo_seq : w_seq call = s ∧ 1 ≤ s ∧ ∃ n, nodes y !! c = Some n ∧ s ≤ seqNo n;
  wo_plan : w_replicas call = reps (kv_Key (w_entry call)) ∧
    w_targets call = filter (λ r, r ≠ c) (reps (kv_Key (w_entry call))) ∧
    w_self call = bool_decide (c ∈ reps (kv_Key (w_entry call)));
  wo_self : holds y c (w_entry call);
  wo_req : ∀ m, m ∈ net y → is_write c s m → m_Entry m = Some (w_entry call) ∧ m_TargetID m ∈ w_targets call;
  wo_ack : ∀ x, acker y c s call x → x ∈ w_targets call ∧ holds y x (w_entry call);
}.

(** The condition under which a read asks replicas only. *)
Definition asks_replicas (d : string) (c : ReadCall) : Prop :=
  d ∈ reps (r_key c) ∧
  ((Quorum.R q < Z.of_nat (length (reps (r_key c))))%Z ∨
   (r_local c ≠ None ∧ Quorum.R q ≤ Z.of_nat (length (reps (r_key c))))%Z).

Record rcall_ok (y : Sys) (d : string) (s : nat) (rc : RCall) : Prop := {
  ro_seq : r_seq (rc_call rc) = s ∧ ∃ n, nodes y !! d = Some n ∧ s ≤ seqNo n;
  ro_digest : r_digest (rc_call rc) = false;
  ro_targets : ¬ (d ∈ rc_targets rc) ∧ (asks_replicas d (rc_call rc) → ∀ x, x ∈ rc_targets rc → x ∈ reps (r_key (rc_call rc)));
  ro_tokens : NoDup (tokens y d s (rc_call rc)) ∧ ∀ x, x ∈ tokens y d s (rc_call rc) → x ∈ rc_targets rc;
  ro_req : ∀ m, m ∈ net y → is_req d s m → m_Key m = r_key (rc_call rc);
  ro_floor : ∀ w, w ∈ rc_after rc → kv_Key w = r_key (rc_call rc) →
    ∃ X : gset string, (∀ x, x ∈ X → x ∈ reps (kv_Key w) ∧ holds y x w) ∧ (Quorum.W q ≤ Z.of_nat (size X))%Z ∧
      (d ∈ X → at_least w (r_local (rc_call rc))) ∧
      ∀ x oe, responded y d s (rc_call rc) x oe → x ∈ X → at_least w oe;
}.

(** The freshness of a read's answer. *)
Definition answer_ok (a : Answer) : Prop :=
  asks_replicas (a_node a) (a_call a) →
  ∀ w, w ∈ a_after a → kv_Key w = r_key (a_call a) →
  match a_result a with
  | inr e => stamp_le w e
  | inl ErrNotFound => ∃ t, kv_Tombstone t = true ∧ stamp_le w t ∧ t ∈ responses (a_call a)
  | inl _ => True
  end.

Record inv (y : Sys) : Prop := {
  i_strict : ∀ k n, nodes y !! k = Some n → strict k n;
  i_fresh : ∀ m, m ∈ net y → msg_fresh (nodes y) m;
  i_writes : ∀ c s call, wcalls y !! (c, s) = Some call → wcall_ok y c s call;
  i_reads : ∀ d s rc, rcalls y !! (d, s) = Some rc →
    match rc_state rc with RWaiting => rcall_ok y d s rc | RFetching _ _ => False | RRepairing _ => r_seq (rc_call rc) = s end;
  i_confirmed : ∀ w, w ∈ confirmed y → quorum_holds y w;
  i_answers : ∀ a, a ∈ answers y → answer_ok a;
}.

Lemma strict_same k n n' : same_config n n' → strict k n → strict k n'.
Proof.
  intros Hc (H1 & H2 & H3 & H4 & H5 & H6).
  pose proof Hc as (C1 & C2 & _ & _ & C5 & C6 & C7).
  split_and!; [congruence|congruence| |congruence|congruence|congruence]. intros key. by rewrite (same_config_replicas _ _ key Hc).
Qed.

(** ** The frame: one node moves on and the network changes *)

(** What the change must respect for a write call and for a read call. *)
Definition write_frame (y y' : Sys) (c : string) (s : nat) (call : WriteCall) : Prop :=
  (∀ m, m ∈ net y' → is_write c s m → m ∈ net y) ∧
  (∀ x, acker y' c s call x → acker y c s call x ∨ (x ∈ w_targets call ∧ holds y' x (w_entry call))).

Definition read_frame (y y' : Sys) (d : string) (s : nat) (rc : RCall) : Prop :=
  (∀ m, m ∈ net y' → is_req d s m → m ∈ net y) ∧
  tokens y' d s (rc_call rc) ⊆+ tokens y d s (rc_call rc) ∧
  (∀ x oe, responded y' d s (rc_call rc) x oe → responded y d s (rc_call rc) x oe ∨
     ∀ w, kv_Key w = r_key (rc_call rc) → holds y x w → at_least w oe).

Lemma inv_change y k n n' ms :
  inv y → nodes y !! k = Some n → node_le n n' →
  let y' := change y k n' ms in
  (∀ m, m ∈ ms → m ∈ net y ∨ msg_fresh (nodes y') m) →
  (∀ c s call, wcalls y !! (c, s) = Some call → write_frame y y' c s call) →
  (∀ d s rc, rcalls y !! (d, s) = Some rc → rc_state rc = RWaiting → read_frame y y' d s rc) →
  inv y'.
Proof.
  intros Hi Hk Hn y' Hm Hw Hr.
  assert (Hh : ∀ x w, holds y x w → holds y' x w) by (intros; by eapply holds_change).
  assert (Hnode : ∀ x n0, nodes y' !! x = Some n0 → ∃ n1, nodes y !! x = Some n1 ∧ node_le n1 n0).
  { intros x n0. unfold y', change; simpl. rewrite lookup_insert_Some. intros [[<- <-]|[_ ?]]; eauto. exists n0. by split. }
  assert (Hnode' : ∀ x n0, nodes y !! x = Some n0 → ∃ n1, nodes y' !! x = Some n1 ∧ node_le n0 n1).
  { intros x n0 Hx. unfold y', change; simpl. destruct (decide (k = x)) as [->|].
    - rewrite lookup_insert_eq. exists n'. split; [done|]. congruence.
    - rewrite lookup_insert_ne by done. exists n0. by split. }
  split.
  - intros x n0 (n1 & Hx & Hle)%Hnode. eapply strict_same; [apply Hle|]. by eapply i_strict.
  - intros m [Hin|?]%Hm; [|done]. pose proof (i_fresh _ Hi m Hin) as Hf. unfold msg_fresh in *.
    destruct (m_Type m); try done; intros n0 (n1 & Hx & Hle)%Hnode; specialize (Hf _ Hx); destruct Hle as (_ & _ & ?); lia.
  - intros c s call Hc. destruct (i_writes _ Hi _ _ _ Hc) as [(H1 & H2 & n0 & H3 & H4) H5 H6 H7 H8].
    destruct (Hw _ _ _ Hc) as [F1 F2]. split; [| | | |].
    + destruct (Hnode' _ _ H3) as (n1 & ? & _ & _ & ?). split_and!; [done|done|]. exists n1. split; [done|lia].
    + done.
    + by apply Hh.
    + intros m Hin Hw'. apply H7; [by apply F1|done].
    + intros x [Hx|?]%F2; [|done]. destruct (H8 x Hx). auto.
  - intros d s rc Hrc. pose proof (i_reads _ Hi _ _ _ Hrc) as Ho. destruct (rc_state rc) eqn:Est; [|done|done].
    destruct Ho as [(H1 & n0 & H3 & H4) Hdig Htg [Hnd Htok] Hreq Hfl].
    destruct (Hr _ _ _ Hrc Est) as (F1 & F2 & F3). split; [|done|done| | |].
    + destruct (Hnode' _ _ H3) as (n1 & ? & _ & _ & ?). split; [done|]. exists n1. split; [done|lia].
    + apply submseteq_Permutation in F2 as [l Hl]. rewrite Hl in Hnd. split; [by apply NoDup_app in Hnd as [? _]|].
      intros x Hx. apply Htok. rewrite Hl. apply elem_of_app. by left.
    + intros m Hin Hq. apply Hreq; [by apply F1|done].
    + intros w Haf Hkey. destruct (Hfl w Haf Hkey) as (X & HX & Hsz & Hloc & Hresp).
      exists X. split_and!; [|done|done|].
      * intros x Hx. destruct (HX x Hx). auto.
      * intros x oe [Hx|Hx]%F3 Hin; [by eapply Hresp|]. apply Hx; [done|]. by apply HX.
  - intros w Hw'. destruct (i_confirmed _ Hi w Hw') as (X & HX & Hsz). exists X. split; [|done].
    intros x Hx. destruct (HX x Hx). auto.
  - apply (i_answers _ Hi).
Qed.

Lemma wqueue_change y k n' ms c s :
  wqueue (change y k n' ms) c s = if decide (k = c) then items (writeAcks n') s else wqueue y c s.
Proof.
  unfold wqueue, change; simpl. destruct (decide (k = c)) as [->|]; [by rewrite lookup_insert_eq|by rewrite lookup_insert_ne].
Qed.

Lemma rqueue_change y k n' ms c s :
  rqueue (change y k n' ms) c s = if decide (k = c) then items (readResps n') s else rqueue y c s.
Proof.
  unfold rqueue, change; simpl. destruct (decide (k = c)) as [->|]; [by rewrite lookup_insert_eq|by rewrite lookup_insert_ne].
Qed.

Lemma rqueue_node y k n s : nodes y !! k = Some n → rqueue y k s = items (readResps n) s.
Proof. unfold rqueue. by intros ->. Qed.
Lemma wqueue_node y k n s : nodes y !! k = Some n → wqueue y k s = items (writeAcks n) s.
Proof. unfold wqueue. by intros ->. Qed.

Lemma tok_None d s m : ¬ is_req d s m → ¬ is_resp d s m → tok d s m = None.
Proof. intros. unfold tok. by rewrite !decide_False. Qed.

(** A message no call in progress has a part in. *)
Definition idle (y : Sys) (m : Message) : Prop :=
  (∀ c s call, wcalls y !! (c, s) = Some call → ¬ is_write c s m ∧ ¬ is_ack c s m) ∧
  (∀ d s rc, rcalls y !! (d, s) = Some rc → rc_state rc = RWaiting → ¬ is_req d s m ∧ ¬ is_resp d s m).

(** A node moves on without adding to the channels of its calls, and idle messages are sent. *)
Lemma inv_idle y k n n' new :
  inv y → nodes y !! k = Some n → node_le n n' →
  (∀ s call, wcalls y !! (k, s) = Some call → items (writeAcks n') s ⊆ items (writeAcks n) s) →
  (∀ s rc, rcalls y !! (k, s) = Some rc → rc_state rc = RWaiting → items (readResps n') s ⊆+ items (readResps n) s) →
  (∀ m, m ∈ new → msg_fresh (<[k := n']> (nodes y)) m ∧ idle y m) →
  inv (change y k n' (net y ++ new)).
Proof.
  intros Hi Hk Hn Hwq Hrq Hnew. eapply inv_change; [done|done|done| | |].
  - intros m [?|Hm]%elem_of_app; [by left|right; by apply Hnew].
  - intros c s call Hc. split.
    + simpl. intros m [?|Hm]%elem_of_app Hw; [done|]. exfalso. by destruct (proj1 (proj2 (Hnew m Hm)) _ _ _ Hc).
    + intros x [(m & Hm & Ha & <-)|[Hx|Hx]]; [| |left; right; by right].
      * simpl in Hm. apply elem_of_app in Hm as [?|Hm]; [left; left; eauto|].
        exfalso. by destruct (proj1 (proj2 (Hnew m Hm)) _ _ _ Hc).
      * left; right; left. rewrite wqueue_change in Hx. case_decide; [subst|done].
        rewrite (wqueue_node _ _ _ _ Hk). by apply (Hwq _ _ Hc).
  - intros d s rc Hrc Hst.
    assert (Hq : rqueue (change y k n' (net y ++ new)) d s ⊆+ rqueue y d s).
    { rewrite rqueue_change. case_decide; [subst|done]. rewrite (rqueue_node _ _ _ _ Hk). by eapply Hrq. }
    split_and!.
    + simpl. intros m [?|Hm]%elem_of_app Hw; [done|]. exfalso. by destruct (proj2 (proj2 (Hnew m Hm)) _ _ _ Hrc Hst).
    + unfold tokens. simpl. rewrite omap_app, (omap_all_None _ new), app_nil_r.
      { apply submseteq_app; [done|]. apply submseteq_app; [by apply fmap_submseteq|done]. }
      intros m Hm. destruct (proj2 (proj2 (Hnew m Hm)) _ _ _ Hrc Hst). by apply tok_None.
    + intros x oe Hresp. left. destruct Hresp as [(m & Hm & Hr & ?)|(r & Hr & ?)]; [left|right].
      2:{ exists r. split; [|done]. apply elem_of_app in Hr as [Hr|Hr]; apply elem_of_app; [left|by right]. by eapply elem_of_submseteq. }
      simpl in Hm. apply elem_of_app in Hm as [?|Hm]; [eauto|]. exfalso. by destruct (proj2 (proj2 (Hnew m Hm)) _ _ _ Hrc Hst).
Qed.

(** Losing a message. *)
Lemma inv_drop y i m : inv y → net y !! i = Some m →
  inv (MkSys (nodes y) (remove_at i (net y)) (wcalls y) (rcalls y) (confirmed y) (answers y)).
Proof.
  intros Hi Hm. pose proof (remove_at_perm _ _ _ Hm) as Hp.
  assert (Hin : ∀ x, x ∈ remove_at i (net y) → x ∈ net y) by (intros x Hx; rewrite Hp; by right).
  destruct Hi as [H1 H2 H3 H4 H5 H6]. split; simpl; [done|by intros ? ?%Hin%H2| | |done|done].
  - intros c s call Hc. destruct (H3 _ _ _ Hc) as [? ? ? Hreq Hack]. split; [done|done|done|by intros ? ?%Hin; apply Hreq|].
    intros x [(m' & ?%Hin & ?)|?]; apply Hack; [left; eauto|by right].
  - intros d s rc Hrc. specialize (H4 _ _ _ Hrc). destruct (rc_state rc); [|done|done].
    destruct H4 as [? ? ? [Hnd Htok] Hreq Hfl].
    assert (Hsub : tokens (MkSys (nodes y) (remove_at i (net y)) (wcalls y) (rcalls y) (confirmed y) (answers y)) d s (rc_call rc)
              ⊆+ tokens y d s (rc_call rc)).
    { unfold tokens; simpl. apply submseteq_app; [|done]. rewrite (omap_perm _ _ _ Hp). simpl.
      destruct (tok d s m); [|done]. by apply submseteq_cons. }
    apply submseteq_Permutation in Hsub as [l Hl]. split; [done|done|done| |by intros ? ?%Hin; apply Hreq|].
    + rewrite Hl in Hnd. split; [by apply NoDup_app in Hnd as [? _]|]. intros x Hx. apply Htok. rewrite Hl. apply elem_of_app. by left.
    + intros w Haf Hkey. destruct (Hfl w Haf Hkey) as (X & HX & Hsz & Hloc & Hresp). exists X. split_and!; [done|done|done|].
      intros x oe [(m' & ?%Hin & ?)|?]; apply Hresp; [left; eauto|by right].
Qed.

Lemma items_offer {A} (cs : gmap nat (chan A)) s0 ch x s :
  cs !! s0 = Some ch → items (<[s0 := offer ch x]> cs) s = items cs s ∨
    (s0 = s ∧ items (<[s0 := offer ch x]> cs) s = items cs s ++ [x]).
Proof.
  intros Hch. unfold items. destruct (decide (s0 = s)) as [->|]; [|left; by rewrite lookup_insert_ne].
  rewrite lookup_insert_eq, Hch. unfold offer. case_match; auto.
Qed.

(** *** Delivering a message *)
Section deliver.
Context (y : Sys) (i : nat) (m : Message) (n n' : LeaderlessNode) (ms : list Message).
Context (Hi : inv y) (Hm : net y !! i = Some m) (Hk : nodes y !! m_TargetID m = Some n) (Hh : handled n m n' ms).

#[local] Abbreviation k := (m_TargetID m).
#[local] Abbreviation y' := (change y (m_TargetID m) n' (remove_at i (net y) ++ ms)).

Lemma deliver_net x : x ∈ remove_at i (net y) → x ∈ net y.
Proof using Hm. intros Hx. rewrite (remove_at_perm _ _ _ Hm). by right. Qed.

Lemma deliver_in : m ∈ net y.
Proof using Hm. by eapply list_elem_of_lookup_2. Qed.

Lemma deliver_id : n_id n = k.
Proof using Hi Hk. by apply (i_strict _ Hi) in Hk as [? _]. Qed.

Lemma deliver_node : node_le n n'.
Proof using Hh. destruct Hh; split_and!; try done; lia. Qed.

(** Any reply is an acknowledgement or a response. *)
Lemma deliver_reply r : r ∈ ms →
  m_SeqNo r = m_SeqNo m ∧ m_TargetID r = m_SenderID m ∧ m_SenderID r = k ∧
  ((m_Type r = MsgWriteAck ∧ (m_Type m = MsgWrite ∨ m_Type m = MsgHintedHandoff)) ∨
   (m_Type r = MsgSyncAck ∧ m_Type m = MsgClientRead)).
Proof using Hi Hk Hh.
  pose proof deliver_id as Hid. destruct Hh; intros Hr; try (by apply elem_of_nil in Hr);
    apply list_elem_of_singleton in Hr as ->; simpl; auto 10.
Qed.

Lemma deliver_fresh r : r ∈ remove_at i (net y) ++ ms → r ∈ net y ∨ msg_fresh (nodes y') r.
Proof using Hi Hm Hk Hh.
  intros [?%deliver_net|Hr]%elem_of_app; [by left|right].
  destruct (deliver_reply r Hr) as (Hs & Ht & _ & Hty). pose proof (i_fresh _ Hi m deliver_in) as Hf. unfold msg_fresh in *.
  assert (Hle : ∀ n0, nodes y' !! m_SenderID m = Some n0 → ∃ n1, nodes y !! m_SenderID m = Some n1 ∧ seqNo n1 ≤ seqNo n0).
  { intros n0 H0. simpl in H0. apply lookup_insert_Some in H0 as [[<- <-]|[_ H0]]; [|eauto].
    exists n. split; [done|]. apply deliver_node. }
  destruct Hty as [[-> [Hm'|Hm']]|[-> Hm']]; rewrite Hm' in Hf; rewrite Hs, Ht;
    intros n0 (n1 & H1 & ?)%Hle; [specialize (Hf _ H1)| |specialize (Hf _ H1)]; lia.
Qed.

Lemma deliver_write c s call : wcalls y !! (c, s) = Some call → write_frame y y' c s call.
Proof using Hi Hm Hk Hh.
  intros Hc. destruct (i_writes _ Hi _ _ _ Hc) as [(H1 & H2 & _) H5 H6 H7 H8]. split.
  - simpl. intros r [?%deliver_net|Hr]%elem_of_app Hw; [done|].
    destruct (deliver_reply r Hr) as (_ & _ & _ & Hty). destruct Hw as (Hw & _). destruct Hty as [[? _]|[? _]]; congruence.
  - intros x [(r & Hr & (Hty & Htgt & Hs) & <-)|[Hx|Hx]]; [| |left; right; by right].
    + simpl in Hr. apply elem_of_app in Hr as [Hr%deliver_net|Hr]; [left; left; exists r; by split_and!|].
      destruct (deliver_reply r Hr) as (Hs' & Ht & Hsnd & Hty').
      destruct Hty' as [[_ Hmt]|[? _]]; [|congruence]. right.
      destruct Hmt as [Hmt|Hmt]; last first.
      { pose proof (i_fresh _ Hi m deliver_in) as Hf. unfold msg_fresh in Hf. rewrite Hmt in Hf. lia. }
      destruct (H7 m deliver_in) as [He Ht7]; [split_and!; congruence|]. rewrite Hsnd. split; [done|].
      destruct Hh as [|n1 e Htype Hent Hcfg _ _ _ _ (e' & Hg & Hle)| | | |]; try (by apply elem_of_nil in Hr); try congruence.
      assert (e = w_entry call) as -> by congruence. exists n1, e'. simpl. by rewrite lookup_insert_eq.
    + left. rewrite wqueue_change in Hx. case_decide as Hkc; [|right; by left].
      unfold acker. rewrite (wqueue_node y c n s) by (by rewrite <- Hkc).
      destruct Hh as [|n1 ? ? ? ? ? Hwa| ch Hty Hch| | |n1 ? ? ? Hwa]; simpl in Hx; rewrite ?Hwa in Hx; try (right; by left).
      destruct (items_offer _ _ _ (m_SenderID m) s Hch) as [Hit|[Hss Hit]]; rewrite Hit in Hx; [right; by left|].
      apply elem_of_app in Hx as [Hx| ->%list_elem_of_singleton]; [right; by left|].
      left. exists m. split_and!; [apply deliver_in|split_and!; done|done].
Qed.

(** The tokens of a read: the delivered message gives up its own, and its reply or the channel takes it. *)
Lemma deliver_tokens d s rc :
  tokens y d s rc ≡ₚ option_list (tok d s m) ++ omap (tok d s) (remove_at i (net y)) ++ (senderID <$> rqueue y d s) ++ (senderID <$> r_resps rc).
Proof using Hm.
  unfold tokens. rewrite (omap_perm _ _ _ (remove_at_perm _ _ _ Hm)). simpl. by destruct (tok d s m).
Qed.

Lemma deliver_reply_tok d s : omap (tok d s) ms ⊆+ option_list (tok d s m).
Proof using Hi Hk Hh.
  pose proof deliver_id as Hid. destruct Hh as [|n1 e| |oe dg h err Hty| |]; simpl; try (by apply submseteq_nil_l).
  unfold tok at 1. rewrite decide_False by (intros [Ht _]; discriminate Ht). case_decide as Hd; [|by apply submseteq_nil_l].
  destruct Hd as (_ & Hd & Hs); simpl in *. unfold tok. rewrite decide_True by (by split_and!). simpl. by rewrite Hid.
Qed.

Lemma deliver_resp_silent d s : is_resp d s m → ms = [].
Proof using Hh. intros (Hty & _). destruct Hh as [|n1 e [Ht|Ht]| |oe dg h err Ht| |]; try done; rewrite Ht in Hty; done. Qed.

Lemma deliver_value rc d s r w :
  rcalls y !! (d, s) = Some rc → rc_state rc = RWaiting → r ∈ ms → is_resp d s r →
  kv_Key w = r_key (rc_call rc) → holds y (m_SenderID r) w → at_least w (m_Entry r).
Proof using Hi Hm Hk Hh.
  intros Hrc Hst Hr (Hty & Htg & Hs) Hkey (n0 & e & Hx & Hg & Hle).
  pose proof (i_reads _ Hi _ _ _ Hrc) as Ho. rewrite Hst in Ho. destruct Ho as [_ _ _ _ Hreq _].
  pose proof deliver_id as Hid.
  destruct Hh as [|n1 e1| |oe dg h err Hmt Hoe| |]; try (by apply elem_of_nil in Hr);
    apply list_elem_of_singleton in Hr as ->; simpl in *; [done|].
  assert (n0 = n) as -> by congruence.
  rewrite Hkey, <- (Hreq m deliver_in) in Hg by (by split_and!).
  destruct (Hoe _ Hg) as (e' & -> & ?). exists e'. split; [done|]. by eapply stamp_le_trans.
Qed.

Lemma deliver_rqueue d s :
  rqueue y' d s = rqueue y d s ∨
  (is_resp d s m ∧ ∃ r, rqueue y' d s = rqueue y d s ++ [r] ∧ senderID r = m_SenderID m ∧ entry r = m_Entry m).
Proof using Hk Hh.
  rewrite rqueue_change. case_decide as Hkd; [|by left]. rewrite (rqueue_node y d n s) by (by rewrite <- Hkd).
  destruct Hh as [|n1 ? ? ? ? ? ? Hrr| | |ch r Hty Hch ? ?|n1 ? ? ? ? Hrr]; simpl; rewrite ?Hrr; auto.
  destruct (items_offer _ _ _ r s Hch) as [Hit|[Hss Hit]]; [by left|right]. split; [by split_and!|]. eauto.
Qed.

Lemma deliver_read d s rc : rcalls y !! (d, s) = Some rc → rc_state rc = RWaiting → read_frame y y' d s rc.
Proof using Hi Hm Hk Hh.
  intros Hrc Hst. pose proof (i_reads _ Hi _ _ _ Hrc) as Ho. rewrite Hst in Ho. destruct Ho as [_ _ _ _ Hreq _]. split_and!.
  - simpl. intros r [?%deliver_net|Hr]%elem_of_app (Hw & _); [done|].
    destruct (deliver_reply r Hr) as (_ & _ & _ & [[? _]|[? _]]); congruence.
  - rewrite deliver_tokens. unfold tokens at 1. simpl. rewrite omap_app, <- app_assoc.
    destruct (deliver_rqueue d s) as [->|[Hresp (r & -> & Hs & _)]].
    + rewrite (assoc_L (++) (option_list _)), (Permutation_app_comm (option_list _)), <- assoc_L by apply _.
      apply submseteq_app; [done|]. apply submseteq_app; [apply deliver_reply_tok|done].
    + rewrite (deliver_resp_silent d s Hresp). simpl. rewrite fmap_app. simpl.
      unfold tok at 2. rewrite decide_False by (intros (? & _); destruct Hresp as (? & _); congruence).
      rewrite decide_True by done. simpl. rewrite Hs. apply Permutation_submseteq. solve_Permutation.
  - intros x oe [(r & Hr & (Hty & Htg & Hs) & Hsnd & He)|(r & Hr & Hsnd & He)].
    + simpl in Hr. apply elem_of_app in Hr as [Hr%deliver_net|Hr]; [left; left; exists r; by split_and!|right].
      intros w Hkey Hx. subst. eapply deliver_value; [done|done|done|done|done|done].
    + left. apply elem_of_app in Hr as [Hr|Hr]; [|right; exists r; rewrite elem_of_app; auto].
      destruct (deliver_rqueue d s) as [Hq|[Hresp (r' & Hq & Hs' & He')]]; rewrite Hq in Hr;
        [right; exists r; rewrite elem_of_app; auto|].
      apply elem_of_app in Hr as [Hr|Hr]; [right; exists r; rewrite elem_of_app; auto|].
      apply list_elem_of_singleton in Hr as ->. left. exists m. split_and!; [apply deliver_in|done|congruence|congruence].
Qed.

Lemma inv_deliver : inv y'.
Proof using Hi Hm Hk Hh.
  eapply inv_change; [done|done|apply deliver_node|apply deliver_fresh|apply deliver_write|apply deliver_read].
Qed.

End deliver.

(** ** Calls begin, move on and end *)

Lemma wcall_ok_ext y y' c s call : nodes y' = nodes y → net y' = net y → wcall_ok y c s call → wcall_ok y' c s call.
Proof. destruct y, y'; simpl. intros -> -> []. by split. Qed.
Lemma rcall_ok_ext y y' d s rc : nodes y' = nodes y → net y' = net y → rcall_ok y d s rc → rcall_ok y' d s rc.
Proof. destruct y, y'; simpl. intros -> -> []. by split. Qed.
Lemma quorum_holds_ext y y' w : nodes y' = nodes y → quorum_holds y w → quorum_holds y' w.
Proof. destruct y, y'; simpl. by intros ->. Qed.

Lemma inv_calls y y' : inv y → nodes y' = nodes y → net y' = net y →
  (∀ c s call, wcalls y' !! (c, s) = Some call → wcalls y !! (c, s) = Some call ∨ wcall_ok y c s call) →
  (∀ d s rc, rcalls y' !! (d, s) = Some rc → rcalls y !! (d, s) = Some rc ∨
    match rc_state rc with RWaiting => rcall_ok y d s rc | RFetching _ _ => False | RRepairing _ => r_seq (rc_call rc) = s end) →
  (∀ w, w ∈ confirmed y' → w ∈ confirmed y ∨ quorum_holds y w) →
  (∀ a, a ∈ answers y' → a ∈ answers y ∨ answer_ok a) → inv y'.
Proof.
  intros [H1 H2 H3 H4 H5 H6] Hn Hm Hw Hr Hc Ha. split.
  - by rewrite Hn.
  - by rewrite Hm, Hn.
  - intros c s call Hcall. apply (wcall_ok_ext y); [done|done|]. destruct (Hw _ _ _ Hcall); auto.
  - intros d s rc Hrc.
    assert (Ho : match rc_state rc with RWaiting => rcall_ok y d s rc | RFetching _ _ => False | RRepairing _ => r_seq (rc_call rc) = s end)
      by (destruct (Hr _ _ _ Hrc) as [Hx|Hx]; [exact (H4 _ _ _ Hx)|exact Hx]).
    destruct (rc_state rc); [|done|done]. by apply (rcall_ok_ext y).
  - intros w Hin. apply (quorum_holds_ext y); [done|]. destruct (Hc w Hin); auto.
  - intros a Hin. destruct (Ha a Hin); auto.
Qed.

(** Changing the calls of [y'] at one place. *)
Lemma wcall_put (ws : gmap (string * nat) WriteCall) k s call0 c s' call :
  <[(k, s) := call0]> ws !! (c, s') = Some call → ws !! (c, s') = Some call ∨ (c = k ∧ s' = s ∧ call = call0).
Proof. rewrite lookup_insert_Some. intros [[? ?]|[_ ?]]; [right|left]; naive_solver. Qed.

(** A satisfied write quorum under plain quorums. *)
Lemma quorum_met_holds y c s n call :
  strict c n → wcall_ok y c s call → quorum_met n call = true → quorum_holds y (w_entry call).
Proof.
  intros (Hid & Hq & _ & Hcl & _) [_ (Hrep & Htg & Hself) Hhold _ Hack] Hmet.
  unfold quorum_met, writeQuorumMet in Hmet. rewrite Hcl, Hid, Hq in Hmet. simpl in Hmet. apply Z.leb_le in Hmet.
  eexists. split; [|exact Hmet].
  assert (Hacked : ∀ x, x ∈ w_acked call → x ∈ reps (kv_Key (w_entry call)) ∧ holds y x (w_entry call)).
  { intros x Hx. destruct (Hack x) as [Ht ?]; [right; by right|]. rewrite Htg, list_elem_of_filter in Ht. by destruct Ht. }
  intros x Hx. destruct (w_self call); [|auto]. apply elem_of_union in Hx as [Hx|Hx]; [|auto].
  apply elem_of_singleton in Hx as ->. symmetry in Hself. by apply bool_decide_eq_true in Hself.
Qed.

(** The pieces of a write call under plain quorums: at most the phase changes and nothing is sent. *)
Definition plain_step (n : LeaderlessNode) (c : WriteCall) (w : wstep) : Prop :=
  ∃ p r, w = (with_phase c p, r, []) ∧ (r = Some true → quorum_met n c = true).

Lemma with_phase_id c : c = with_phase c (w_phase c).
Proof. by destruct c. Qed.

Lemma preferred_done_plain n c : sloppy n = false → plain_step n c (preferred_done n c).
Proof.
  intros Hs. unfold preferred_done. rewrite Hs, andb_false_r. exists Grace, (Some (quorum_met n c)). by split; [|intros [=]].
Qed.

Lemma coordinate_timer_plain n c : sloppy n = false → plain_step n c (coordinate_timer n c).
Proof.
  intros Hs. unfold coordinate_timer. destruct (w_phase c) eqn:Hp; [by apply preferred_done_plain| |].
  - exists Grace, (Some (quorum_met n c)). by split; [|intros [=]].
  - exists Grace, None. rewrite <- Hp, <- with_phase_id. by split.
Qed.

Lemma inv_put_write y k n c w :
  inv y → nodes y !! k = Some n → wcall_ok y k (w_seq c) c → plain_step n c w → inv (put_write y k n w).
Proof.
  intros Hi Hk Hok (p & r & -> & Hr). apply (inv_calls y); [done|by apply insert_id|simpl; by rewrite app_nil_r| | | |by left].
  - intros c0 s0 call0 [?|(-> & -> & ->)]%wcall_put; [by left|right]. destruct Hok. by split.
  - by left.
  - simpl. intros w [?|Hw]%elem_of_app; [by left|right]. destruct r as [[]|]; try (by apply elem_of_nil in Hw).
    apply list_elem_of_singleton in Hw as ->. eapply (quorum_met_holds y k); [by apply (i_strict _ Hi)|done|auto].
Qed.

(** Every call in progress was numbered by its node. *)
Lemma wcall_numbered y k n s call : inv y → nodes y !! k = Some n → wcalls y !! (k, s) = Some call → s ≤ seqNo n.
Proof. intros Hi Hk Hc. destruct (i_writes _ Hi _ _ _ Hc) as [(_ & _ & n' & ? & ?) _ _ _ _]. by simplify_eq. Qed.
Lemma rcall_numbered y k n s rc : inv y → nodes y !! k = Some n → rcalls y !! (k, s) = Some rc → rc_state rc = RWaiting → s ≤ seqNo n.
Proof.
  intros Hi Hk Hc Hst. pose proof (i_reads _ Hi _ _ _ Hc) as Ho. rewrite Hst in Ho.
  destruct Ho as [(_ & n' & ? & ?) _ _ _ _ _]. by simplify_eq.
Qed.

(** A request with a new number is idle. *)
Lemma idle_request y k n m : inv y → nodes y !! k = Some n → m_SenderID m = k → seqNo n < m_SeqNo m →
  m_Type m = MsgWrite ∨ m_Type m = MsgClientRead → idle y m.
Proof.
  intros Hi Hk Hs Hlt Ht. split.
  - intros c s call Hc. split; intros (Hty & Hx & Hsq); [|destruct Ht; congruence].
    assert (c = k) as -> by congruence. pose proof (wcall_numbered _ _ _ _ _ Hi Hk Hc). lia.
  - intros d s rc Hrc Hst. split; intros (Hty & Hx & Hsq); [|destruct Ht; congruence].
    assert (d = k) as -> by congruence. pose proof (rcall_numbered _ _ _ _ _ Hi Hk Hrc Hst). lia.
Qed.

Lemma idle_other y m : m_Type m ≠ MsgWrite → m_Type m ≠ MsgWriteAck → m_Type m ≠ MsgClientRead → m_Type m ≠ MsgSyncAck → idle y m.
Proof. intros. split; intros; split; by intros (? & _). Qed.

Lemma items_insert_ne {A} (cs : gmap nat (chan A)) s ch s' : s ≠ s' → items (<[s := ch]> cs) s' = items cs s'.
Proof. intros. unfold items. by rewrite lookup_insert_ne. Qed.
Lemma items_delete {A} (cs : gmap nat (chan A)) s s' : items (delete s cs) s' ⊆+ items cs s'.
Proof.
  unfold items. destruct (decide (s = s')) as [->|]; [rewrite lookup_delete_eq; apply submseteq_nil_l|by rewrite lookup_delete_ne].
Qed.

Lemma coordinate_plain n now e :
  sloppy n = false →
  let s := S (seqNo n) in
  let targets := filter (λ r, r ≠ n_id n) (replicasFor n (kv_Key e)) in
  let c := MkWrite s e (replicasFor n (kv_Key e)) targets (bool_decide (n_id n ∈ replicasFor n (kv_Key e))) ∅ Preferred in
  let '(n', (c', r, ms)) := coordinate n now e in
  same_config n n' ∧ seqNo n' = s ∧ (∃ cap, writeAcks n' = <[s := MkChan cap []]> (writeAcks n)) ∧ readResps n' = readResps n ∧
  store_le (n_store n) (n_store n') ∧ (∃ e', Store.GetRaw (n_store n') (kv_Key e) = Some e' ∧ stamp_le e e') ∧
  ms = (λ t, lmsg MsgWrite s (n_id n) t "" (Some e) "" false "" "") <$> targets ∧ plain_step n' c (c', r, []).
Proof.
  intros Hs s targets c. unfold coordinate.
  destruct (applyWrite_spec n now e) as (Hcfg & Hsq & Hwa & Hrr & Hst & Hh).
  pose proof (same_config_replicas _ _ (kv_Key e) Hcfg) as Hrep.
  pose proof Hcfg as (Hid & Hqc & Han & _ & Hcl & Hsl & _). rewrite Hrep, Hsq, Hid.
  fold s. fold targets. fold c.
  set (n' := with_chans (applyWrite n now e) s _ _). change (n_id n') with (n_id (applyWrite n now e)). rewrite Hid.
  assert (Hn' : same_config n n' ∧ seqNo n' = s ∧ (∃ cap, writeAcks n' = <[s := MkChan cap []]> (writeAcks n)) ∧ readResps n' = readResps n ∧
    store_le (n_store n) (n_store n') ∧ (∃ e', Store.GetRaw (n_store n') (kv_Key e) = Some e' ∧ stamp_le e e')).
  { split_and!; [apply Hcfg|done|simpl; rewrite Hwa; eauto|done|done|done]. }
  destruct (quorum_met n' c) eqn:Hmet.
  - destruct (preferred_done_plain n' c) as (p & r & -> & Hr); [by rewrite <- Hs, <- Hsl|].
    destruct Hn' as (? & ? & ? & ? & ? & ?). rewrite app_nil_r. split_and!; try done. by exists p, r.
  - destruct Hn' as (? & ? & ? & ? & ? & ?). split_and!; try done. by exists Preferred, None.
Qed.

Lemma put_write_change y k n c r ms :
  put_write y k n (c, r, ms) = put_write (change y k n (net y ++ ms)) k n (c, r, []).
Proof. unfold put_write, change; simpl. by rewrite insert_insert_eq, app_nil_r. Qed.

(** A write begins: its requests carry a number no message and no call has. *)
Lemma inv_coordinate y k n0 b now e :
  inv y → nodes y !! k = Some n0 → Node.store b = n_store n0 → Node.id b = n_id n0 →
  let '(n', w) := coordinate (with_base n0 b) now e in inv (put_write y k n' w).
Proof.
  intros Hi Hk Hb1 Hb2. set (n := with_base n0 b). pose proof (i_strict _ Hi _ _ Hk) as Hstr.
  assert (Hcfg0 : same_config n0 n) by (split_and!; done).
  apply (strict_same _ _ _ Hcfg0) in Hstr. pose proof Hstr as (Hid & _ & Hreps & _ & Hslop & _).
  pose proof (coordinate_plain n now e Hslop) as Hc. cbv zeta in Hc.
  destruct (coordinate n now e) as [n' [[c' r] ms]]. destruct Hc as (Hcfg & Hsq & (cap & Hwa) & Hrr & Hst & Hh & Hms & Hplain).
  rewrite Hid, Hreps in Hms, Hplain. change (seqNo n) with (seqNo n0) in *. change (writeAcks n) with (writeAcks n0) in *.
  rewrite put_write_change. set (y1 := change y k n' (net y ++ ms)).
  set (c := MkWrite _ _ _ _ _ _ _) in Hplain.
  assert (Hle : node_le n0 n').
  { split_and!; [by etransitivity| |lia]. unfold n_store in Hst at 1. simpl in Hst. by rewrite Hb1 in Hst. }
  assert (Hmsg : ∀ m, m ∈ ms → m_Type m = MsgWrite ∧ m_SenderID m = k ∧ m_SeqNo m = S (seqNo n0) ∧ m_Entry m = Some e ∧ m_TargetID m ∈ w_targets c).
  { rewrite Hms. intros m (t & -> & ?)%list_elem_of_fmap. by split_and!. }
  assert (Hi1 : inv y1).
  { eapply inv_idle; [done|done|done| | |].
    - intros s call Hc%(wcall_numbered _ _ _ _ _ Hi Hk). rewrite Hwa, items_insert_ne by lia. done.
    - intros s rc _ _. by rewrite Hrr.
    - intros m (Hty & Hs & Hsn & _)%Hmsg. split; [|eapply idle_request; eauto; lia].
      unfold msg_fresh. rewrite Hty, Hs, Hsn. intros n1. rewrite lookup_insert_eq. intros [= <-]. lia. }
  assert (Hold : ∀ m, m ∈ net y → m_Type m = MsgWrite → m_SenderID m = k → m_SeqNo m ≠ S (seqNo n0)).
  { intros m Hm Hty Hs. pose proof (i_fresh _ Hi m Hm) as Hf. unfold msg_fresh in Hf. rewrite Hty, Hs in Hf. specialize (Hf _ Hk). lia. }
  assert (Holda : ∀ m, m ∈ net y → m_Type m = MsgWriteAck → m_TargetID m = k → m_SeqNo m ≠ S (seqNo n0)).
  { intros m Hm Hty Hs. pose proof (i_fresh _ Hi m Hm) as Hf. unfold msg_fresh in Hf. rewrite Hty, Hs in Hf. specialize (Hf _ Hk). lia. }
  assert (Hk1 : nodes y1 !! k = Some n') by (simpl; by rewrite lookup_insert_eq).
  eapply inv_put_write; [done|done| |exact Hplain]. split.
  - simpl. split_and!; [done|lia|]. exists n'. split; [done|lia].
  - done.
  - destruct Hh as (e' & ? & ?). by exists n', e'.
  - simpl. intros m [Hm|Hm]%elem_of_app (Hty & Hs & Hsn); [by apply Hold in Hsn|]. by destruct (Hmsg m Hm) as (_ & _ & _ & ? & ?).
  - intros x [(m & Hm & (Hty & Hs & Hsn) & _)|[Hx|Hx]].
    + simpl in Hm. apply elem_of_app in Hm as [Hm|Hm]; [by apply Holda in Hsn|]. destruct (Hmsg m Hm) as (? & _). congruence.
    + rewrite (wqueue_node _ _ _ _ Hk1), Hwa in Hx. unfold items in Hx. simpl in Hx. rewrite lookup_insert_eq in Hx. by apply elem_of_nil in Hx.
    + by apply elem_of_empty in Hx.
Qed.

Lemma HLCNow_same b now : Node.store (Node.HLCNow b now).2 = Node.store b ∧ Node.id (Node.HLCNow b now).2 = Node.id b.
Proof. unfold Node.HLCNow. by destruct (HLC.Now _ _). Qed.

Lemma inv_new_write y k n now key value tomb :
  inv y → nodes y !! k = Some n →
  let '(e, n1) := new_entry n now key value tomb in let '(n', w) := coordinate n1 now e in inv (put_write y k n' w).
Proof.
  intros Hi Hk. unfold new_entry. destruct (HLCNow_same (base n) now) as [H1 H2]. destruct (Node.HLCNow (base n) now) as [ts b].
  by apply inv_coordinate.
Qed.

(** The coordinator takes an acknowledgement. *)
Lemma inv_take_ack y k s n c n' c' :
  inv y → nodes y !! k = Some n → wcalls y !! (k, s) = Some c → take_ack n c = Some (n', c') →
  inv (change y k n' (net y)) ∧ wcall_ok (change y k n' (net y)) k (w_seq c') c' ∧ sloppy n' = false.
Proof.
  intros Hi Hk Hc Ht. unfold take_ack in Ht. destruct (writeAcks n !! w_seq c) as [ch|] eqn:Hch; [|done]. simpl in Ht.
  destruct (queue ch) as [|x l] eqn:Hq; [done|]. injection Ht as <- <-.
  pose proof (i_writes _ Hi _ _ _ Hc) as Hok. destruct (wo_seq _ _ _ _ Hok) as (Hs & _).
  set (n' := with_chans _ _ _ _). assert (Hle : node_le n n') by (by split_and!).
  assert (Hsub : ∀ s', items (writeAcks n') s' ⊆ items (writeAcks n) s').
  { intros s'. destruct (decide (w_seq c = s')) as [<-|]; [|simpl; by rewrite items_insert_ne].
    unfold items. simpl. rewrite lookup_insert_eq, Hch, Hq. simpl. set_solver. }
  assert (Hi1 : inv (change y k n' (net y))).
  { rewrite <- (app_nil_r (net y)). eapply inv_idle; [done|done|done|auto|done|]. by intros m ?%elem_of_nil. }
  split_and!; [done| |by apply (i_strict _ Hi) in Hk as (_ & _ & _ & _ & ? & _)].
  assert (Hx : x ∈ w_targets c ∧ holds (change y k n' (net y)) x (w_entry c)).
  { destruct (wo_ack _ _ _ _ Hok x) as [? ?]; [|split; [done|by eapply holds_change]].
    right; left. rewrite (wqueue_node _ _ _ _ Hk). unfold items. rewrite <- Hs, Hch, Hq. by left. }
  simpl. rewrite Hs. destruct (i_writes _ Hi1 k s c Hc) as [? ? ? ? Hack]. split; try done.
  intros z [Hz|[Hz|Hz]]; [apply Hack; by left|apply Hack; right; by left|].
  simpl in Hz. apply elem_of_union in Hz as [->%elem_of_singleton|Hz]; [done|]. apply Hack. right; by right.
Qed.

Lemma inv_take_one y k s n c n' w :
  inv y → nodes y !! k = Some n → wcalls y !! (k, s) = Some c → coordinate_ack n c = Some (n', w) → inv (put_write y k n' w).
Proof.
  intros Hi Hk Hc Ha. unfold coordinate_ack in Ha. destruct (take_ack n c) as [[n1 c1]|] eqn:Ht; [|done].
  simpl in Ha. destruct (inv_take_ack _ _ _ _ _ _ _ Hi Hk Hc Ht) as (Hi1 & Hok & Hslop).
  assert (Hplain : plain_step n' c1 w ∧ n1 = n').
  { injection Ha as <- <-. split; [|done]. destruct (w_phase c1) eqn:Hp.
    - destruct (_ || _); [by apply preferred_done_plain|]. exists Preferred, None. by rewrite <- Hp, <- with_phase_id.
    - destruct (quorum_met n1 c1) eqn:Hm; [by exists Grace, (Some true)|]. exists StandIns, None. by rewrite <- Hp, <- with_phase_id.
    - exists Grace, None. by rewrite <- Hp, <- with_phase_id. }
  destruct Hplain as [Hplain ->]. destruct w as [[c2 r] ms]. pose proof Hplain as (p & r' & [= -> -> ->] & _).
  rewrite put_write_change, app_nil_r. eapply inv_put_write; [done| |done|done]. simpl. by rewrite lookup_insert_eq.
Qed.

Lemma collectHints_same n c :
  same_config n (collectHints n c) ∧ n_store (collectHints n c) = n_store n ∧ seqNo (collectHints n c) = seqNo n ∧
  writeAcks (collectHints n c) = delete (w_seq c) (writeAcks n) ∧ readResps (collectHints n c) = readResps n.
Proof.
  unfold collectHints. set (n1 := with_chans _ _ _ _). set (l := filter _ _). clearbody l.
  assert (Hf : ∀ l m, let n2 := foldl (λ n t, add_hint n t (w_entry c)) m l in
    same_config m n2 ∧ n_store n2 = n_store m ∧ seqNo n2 = seqNo m ∧ writeAcks n2 = writeAcks m ∧ readResps n2 = readResps m).
  { clear. intros l. induction l as [|t l IH]; intros m; simpl; [by split_and!|].
    destruct (IH (add_hint m t (w_entry c))) as (? & -> & -> & -> & ->). by split_and!. }
  destruct (Hf l n1) as (? & -> & -> & -> & ->). by split_and!.
Qed.

Lemma inv_grace y k s n c :
  inv y → nodes y !! k = Some n → wcalls y !! (k, s) = Some c →
  inv (MkSys (<[k := collectHints n c]> (nodes y)) (net y) (delete (k, s) (wcalls y)) (rcalls y) (confirmed y) (answers y)).
Proof.
  intros Hi Hk Hc. destruct (collectHints_same n c) as (Hcfg & Hst & Hsq & Hwa & Hrr).
  apply (inv_calls (change y k (collectHints n c) (net y))); try done; [| |by left|by left|by left].
  - rewrite <- (app_nil_r (net y)). eapply inv_idle; [done|done| | | |].
    + split_and!; [done|by rewrite Hst|lia].
    + intros s' ? _. rewrite Hwa. intros x Hx. eapply elem_of_submseteq; [exact Hx|apply items_delete].
    + intros s' ? _ _. by rewrite Hrr.
    + by intros m ?%elem_of_nil.
  - simpl. intros c0 s0 call0 [_ ?]%lookup_delete_Some. by left.
Qed.

(** ** Reads *)

Lemma elem_of_top_up l : ∀ X x, x ∈ top_up X l → x ∈ l ∧ ¬ (x ∈ X).
Proof.
  induction l as [|a l IH]; intros X x; simpl; [by intros ?%elem_of_nil|].
  case_bool_decide as Ha.
  - intros [? ?]%IH. split; [by right|done].
  - intros [-> |[? ?]%IH]%elem_of_cons; [split; [by left|done]|]. split; [by right|set_solver].
Qed.

Lemma NoDup_top_up l : ∀ X, NoDup (top_up X l).
Proof.
  induction l as [|a l IH]; intros X; simpl; [constructor|]. case_bool_decide; [done|].
  constructor; [|done]. intros [_ ?]%elem_of_top_up. set_solver.
Qed.

Context (Hdup : NoDup ids) (HN : (1 ≤ Quorum.N_ q)%Z).

Lemma reps_spec key : NoDup (reps key) ∧ (Z.of_nat (length (reps key)) ≤ Quorum.N_ q)%Z.
Proof using Hdup HN.
  unfold reps. set (r := foldl Ring.Add _ ids).
  destruct (Ring.foldl_Add_wf ids (Ring.NewRing 128) (Ring.NewRing_wf _)) as [Hwf Hnodes]. fold r in Hwf, Hnodes.
  pose proof (Ring.PreferenceList_length r key (Quorum.N_ q) Hwf) as Hlen.
  destruct (Nat.eqb_spec (length (Ring.PreferenceList r key (Quorum.N_ q))) 0) as [Hz|Hnz].
  - split; [done|]. assert (Hsz : size (Ring.nodes r) = 0) by lia. rewrite Hnodes in Hsz.
    apply size_empty_inv in Hsz. destruct ids as [|x l]; [simpl; lia|]. set_solver.
  - split; [by apply Ring.NoDup_PreferenceList|lia].
Qed.

Lemma readTargets_spec k n draw key count :
  strict k n →
  NoDup (readTargets n draw key count) ∧ ¬ (k ∈ readTargets n draw key count) ∧
  (count < length (reps key) → k ∈ reps key → ∀ x, x ∈ readTargets n draw key count → x ∈ reps key).
Proof using Hdup HN.
  intros (Hid & _ & Hreps & _). unfold readTargets. rewrite Hid, Hreps. destruct (reps_spec key) as [Hnd _].
  set (others := filter _ _).
  assert (Ho : NoDup others) by (by apply NoDup_filter).
  assert (Hin : ∀ x, x ∈ others ↔ x ≠ k ∧ x ∈ reps key) by (intros x; unfold others; by rewrite list_elem_of_filter).
  assert (Hlen : k ∈ reps key → length (reps key) = S (length others)) by (by apply length_filter_ne).
  set (full := if _ <? _ then _ else _).
  assert (Hfull : NoDup full ∧ ¬ (k ∈ full) ∧ (count < length (reps key) → k ∈ reps key → ∀ x, x ∈ full → x ∈ reps key)).
  { unfold full. destruct (Nat.ltb_spec (length others) count); split_and!.
    - apply NoDup_app. split_and!; [done| |apply NoDup_top_up]. intros x Hx [_ Hy]%elem_of_top_up. set_solver.
    - intros [[? _]%Hin|[_ Hy]%elem_of_top_up]%elem_of_app; set_solver.
    - intros Hc Hk. specialize (Hlen Hk). lia.
    - done.
    - by intros [? _]%Hin.
    - by intros _ _ x [_ ?]%Hin. }
  destruct Hfull as (Hf1 & Hf2 & Hf3). destruct (length full <=? count); [done|].
  assert (Hsub : ∀ x, x ∈ take count (Shuffle draw full) → x ∈ full).
  { intros x Hx%elem_of_take_sub. by rewrite Shuffle_perm in Hx. }
  split_and!; [|by intros ?%Hsub|by intros ? ? x ?%Hsub; apply Hf3].
  rewrite <- (Shuffle_perm draw), <- (take_drop count) in Hf1. by apply NoDup_app in Hf1 as [? _].
Qed.

Lemma rcall_put (rs : gmap (string * nat) RCall) k s rc0 d s' rc :
  <[(k, s) := rc0]> rs !! (d, s') = Some rc → rs !! (d, s') = Some rc ∨ (d = k ∧ s' = s ∧ rc = rc0).
Proof. rewrite lookup_insert_Some. intros [[? ?]|[_ ?]]; [right|left]; naive_solver. Qed.

Lemma inv_put_read y k n rc ms :
  inv (change y k n (net y ++ ms)) →
  match rc_state rc with
  | RWaiting => rcall_ok (change y k n (net y ++ ms)) k (r_seq (rc_call rc)) rc
  | RFetching _ _ => False | RRepairing _ => True
  end → inv (put_read y k n rc ms).
Proof.
  intros Hi Hrc. apply (inv_calls (change y k n (net y ++ ms))); try done; [by left| |by left|by left].
  simpl. intros d s rc' [?|(-> & -> & ->)]%rcall_put; [by left|right]. by destruct (rc_state rc).
Qed.

(** *** A read begins *)
Section read_start.
Context (y : Sys) (k : string) (n : LeaderlessNode) (draw : nat → nat) (key : string) (n' : LeaderlessNode) (c : ReadCall) (ms : list Message).
Context (Hi : inv y) (Hk : nodes y !! k = Some n) (HR : Read n draw key = inr (n', c, ms)).

#[local] Abbreviation y1 := (change y k n' (net y ++ ms)).

Lemma read_start_spec : ∃ cap needed,
  let count := Z.to_nat (Quorum.R q - Z.of_nat match Store.GetRaw (n_store n) key with Some _ => 1 | None => 0 end) in
  let tg := readTargets n draw key count in
  n' = with_chans n (S (seqNo n)) (writeAcks n) (<[S (seqNo n) := MkChan cap []]> (readResps n)) ∧
  c = MkRead (S (seqNo n)) key (Store.GetRaw (n_store n) key) false needed [] ∧
  ms = (λ t, lmsg MsgClientRead (S (seqNo n)) k t key None "" false "" "") <$> tg.
Proof using Hi Hk HR.
  destruct (i_strict _ Hi _ _ Hk) as (Hid & Hq & _ & _ & _ & Hmode).
  unfold Read in HR. destruct (Node.isPaused (base n)); [done|].
  assert (Hdig : String.eqb (repairMode n) RepairDigest = false) by (by apply String.eqb_neq).
  rewrite Hdig, Hq in HR. injection HR as <- <- <-. rewrite <- Hid. eexists _, _. by split_and!.
Qed.

Lemma read_start_msg m : m ∈ ms → m_Type m = MsgClientRead ∧ m_SenderID m = k ∧ m_SeqNo m = S (seqNo n) ∧ m_Key m = key.
Proof using Hi Hk HR.
  destruct read_start_spec as (cap & needed & _ & _ & ->). intros (t & -> & ?)%list_elem_of_fmap. by split_and!.
Qed.

(** No older message has the number of the read. *)
Lemma read_start_new m : m ∈ net y →
  (m_Type m = MsgClientRead ∧ m_SenderID m = k) ∨ (m_Type m = MsgSyncAck ∧ m_TargetID m = k) → m_SeqNo m ≠ S (seqNo n).
Proof using Hi Hk.
  intros Hm Hty. pose proof (i_fresh _ Hi m Hm) as Hf. unfold msg_fresh in Hf.
  destruct Hty as [[Hty Hs]|[Hty Hs]]; rewrite Hty, Hs in Hf; specialize (Hf _ Hk); lia.
Qed.

Lemma read_start_quiet : inv y1.
Proof using Hi Hk HR.
  destruct read_start_spec as (cap & needed & Hn & _ & _). eapply inv_idle; [done|done| | | |].
  - rewrite Hn. split_and!; try done. simpl. lia.
  - intros s' call _. by rewrite Hn.
  - intros s' rc Hrc Hst. pose proof (rcall_numbered _ _ _ _ _ Hi Hk Hrc Hst). rewrite Hn. simpl. rewrite items_insert_ne by lia. done.
  - intros m (Hty & Hs & Hsn & _)%read_start_msg. split; [|eapply idle_request; eauto; lia].
    unfold msg_fresh. rewrite Hty, Hs, Hsn, Hn. intros n1. rewrite lookup_insert_eq. intros [= <-]. simpl. lia.
Qed.

Lemma read_start_rqueue : rqueue y1 k (S (seqNo n)) = [].
Proof using Hi Hk HR.
  destruct read_start_spec as (cap & needed & Hn & _ & _). rewrite rqueue_change, decide_True by done.
  rewrite Hn. unfold items. simpl. by rewrite lookup_insert_eq.
Qed.

Lemma read_start_tokens : tokens y1 k (S (seqNo n)) c = m_TargetID <$> ms.
Proof using Hi Hk HR.
  unfold tokens. rewrite read_start_rqueue. destruct read_start_spec as (cap & needed & _ & -> & Hms). simpl. rewrite app_nil_r, omap_app.
  rewrite (omap_all_None _ (net y)).
  2:{ intros m Hm. apply tok_None; intros (? & ? & Hsn); (eapply read_start_new; [exact Hm| |exact Hsn]); auto. }
  simpl. clear HR. rewrite Hms. set (tg := readTargets _ _ _ _). clearbody tg. induction tg as [|t tg IH]; [done|].
  simpl. unfold tok at 1. rewrite decide_True by (by split_and!). f_equal. exact IH.
Qed.

Lemma read_start_silent x oe : ¬ responded y1 k (S (seqNo n)) c x oe.
Proof using Hi Hk HR.
  intros [(m & Hm & (Hty & Htg & Hs) & _)|(r & Hr & _)].
  - simpl in Hm. apply elem_of_app in Hm as [Hm|Hm]; [by apply read_start_new in Hs; [|done|right]|].
    apply read_start_msg in Hm as (? & _). congruence.
  - rewrite read_start_rqueue in Hr. destruct read_start_spec as (cap & needed & _ & -> & _). by apply elem_of_nil in Hr.
Qed.

Lemma read_start_ok : rcall_ok y1 k (r_seq c) (MkRCall c RWaiting (confirmed y) (m_TargetID <$> ms)).
Proof using Hdup HN Hi Hk HR.
  pose proof read_start_tokens as Htok. pose proof read_start_silent as Hsil.
  destruct read_start_spec as (cap & needed & Hn & Hc & Hms). set (count := Z.to_nat _) in Hms.
  destruct (readTargets_spec k n draw key count (i_strict _ Hi _ _ Hk)) as (T1 & T2 & T3).
  set (tg := readTargets _ _ _ _) in *.
  assert (Htg : m_TargetID <$> ms = tg) by (rewrite Hms, <- list_fmap_compose; apply list_fmap_id).
  assert (Hseq : r_seq c = S (seqNo n)) by (by rewrite Hc).
  rewrite Hseq. split; simpl; rewrite ?Htok, ?Htg.
  - split; [done|]. exists n'. rewrite lookup_insert_eq. split; [done|]. by rewrite Hn.
  - by rewrite Hc.
  - split; [done|]. intros [Hkr Hcase]. rewrite Hc in *. simpl in *. apply T3; [|done].
    assert (0 < length (reps key)) by (destruct (reps key); [by apply elem_of_nil in Hkr|simpl; lia]).
    unfold count. destruct Hcase as [?|[Hl ?]]; destruct (Store.GetRaw (n_store n) key); lia || done.
  - done.
  - intros m [Hm|Hm]%elem_of_app (Hty & Hs & Hsn); [exfalso; eapply read_start_new; eauto|].
    apply read_start_msg in Hm as (_ & _ & _ & ->). by rewrite Hc.
  - intros w Hw Hkey. destruct (i_confirmed _ read_start_quiet w Hw) as (X & HX & Hsz). exists X. split_and!; [done|done| |].
    + intros Hx. apply HX in Hx as [_ (n0 & e & Hn0 & He & Hle)]. simpl in Hn0. rewrite lookup_insert_eq in Hn0. injection Hn0 as <-.
      exists e. split; [|done]. rewrite Hkey, Hc, Hn in He. by rewrite Hc.
    + intros x oe Hx. by apply Hsil in Hx.
Qed.

Lemma inv_read_start : inv (put_read y k n' (MkRCall c RWaiting (confirmed y) (m_TargetID <$> ms)) ms).
Proof using Hdup HN Hi Hk HR. apply inv_put_read; [apply read_start_quiet|apply read_start_ok]. Qed.

End read_start.

(** *** A read takes a response *)
Lemma inv_recv y k s n rc n' c' :
  inv y → nodes y !! k = Some n → rcalls y !! (k, s) = Some rc → rc_state rc = RWaiting → read_recv n (rc_call rc) = Some (n', c') →
  inv (put_read y k n' (MkRCall c' RWaiting (rc_after rc) (rc_targets rc)) []).
Proof.
  intros Hi Hk Hrc Hst Hr. unfold read_recv in Hr. destruct (_ <=? _); [done|].
  destruct (readResps n !! r_seq (rc_call rc)) as [ch|] eqn:Hch; [|done]. simpl in Hr.
  destruct (queue ch) as [|x l] eqn:Hq; [done|]. injection Hr as Hn' Hc'.
  pose proof (i_reads _ Hi _ _ _ Hrc) as Hok. rewrite Hst in Hok. destruct (ro_seq _ _ _ _ Hok) as [Hs _].
  assert (Hle : node_le n n') by (by rewrite <- Hn'; split_and!).
  assert (Hold : rqueue y k s = x :: l) by (rewrite (rqueue_node _ _ _ _ Hk); unfold items; by rewrite <- Hs, Hch).
  set (y1 := change y k n' (net y ++ [])).
  assert (Hnew : rqueue y1 k s = l).
  { unfold y1. rewrite rqueue_change, decide_True, <- Hn' by done. unfold items. simpl. by rewrite Hs, lookup_insert_eq. }
  apply inv_put_read; fold y1.
  { eapply inv_idle; [done|done|done|by rewrite <- Hn'| |by intros m ?%elem_of_nil]. intros s' rc' _ _. rewrite <- Hn'. simpl.
    destruct (decide (r_seq (rc_call rc) = s')) as [<-|]; [|by rewrite items_insert_ne].
    unfold items. rewrite lookup_insert_eq, Hch, Hq. by apply submseteq_cons. }
  assert (Htok : tokens y1 k s c' ≡ₚ tokens y k s (rc_call rc)).
  { unfold tokens. rewrite Hnew, Hold, <- Hc'. simpl. rewrite app_nil_r, fmap_app. simpl. solve_Permutation. }
  assert (Hresp : ∀ z oe, responded y1 k s c' z oe → responded y k s (rc_call rc) z oe).
  { intros z oe [(m & Hm & ?)|(r & Hr & ?)]; [left; exists m; simpl in Hm; by rewrite app_nil_r in Hm|right].
    exists r. split; [|done]. rewrite Hnew, <- Hc' in Hr. rewrite Hold. set_solver. }
  simpl. assert (r_seq c' = s) as -> by (by rewrite <- Hc').
  destruct Hok as [(_ & n0 & H1 & H2) H3 H4 [H5 H6] H7 H8].
  split; simpl; try (rewrite <- Hc' in *; done).
  - split; [by rewrite <- Hc'|]. exists n'. rewrite lookup_insert_eq, <- Hn'. simplify_eq. done.
  - rewrite Htok. split; [done|]. intros z. rewrite Htok. apply H6.
  - rewrite app_nil_r, <- Hc'. done.
  - intros w Hw Hkey. rewrite <- Hc' in Hkey. destruct (H8 w Hw Hkey) as (X & HX & Hsz & Hl & Hrs). exists X. split_and!; [|done| |].
    + intros z Hz. destruct (HX z Hz). split; [done|]. by eapply (holds_change y k n n').
    + by rewrite <- Hc'.
    + intros z oe Hz. by apply Hrs, Hresp.
Qed.

(** *** A read answers *)

(** The overlap of quorums: among what a read that asked replicas collected is an entry as new as
    any confirmed before. *)
Context (HWR : (Quorum.N_ q < Quorum.W q + Quorum.R q)%Z).

Lemma read_overlap y d s rc w :
  rcall_ok y d s rc → asks_replicas d (rc_call rc) → (Quorum.R q ≤ Z.of_nat (1 + length (r_resps (rc_call rc))))%Z →
  w ∈ rc_after rc → kv_Key w = r_key (rc_call rc) → ∃ r, r ∈ responses (rc_call rc) ∧ stamp_le w r.
Proof using Hdup HN HWR.
  intros [_ _ [Hd Htg] [Hnd Htok] _ Hfl] Hask HR Hw Hkey.
  destruct (Hfl w Hw Hkey) as (X & HX & Hsz & Hloc & Hresp). destruct Hask as [Hdr Hcase].
  set (resp := senderID <$> r_resps (rc_call rc)).
  assert (Hin : ∀ x, x ∈ resp → x ∈ rc_targets rc).
  { intros x Hx. apply Htok. unfold tokens. rewrite !elem_of_app. auto. }
  set (C := {[d]} ∪ list_to_set resp : gset string).
  assert (HC : size C = 1 + length (r_resps (rc_call rc))).
  { unfold C. rewrite size_union, size_singleton, size_list_to_set.
    - unfold resp. by rewrite length_fmap.
    - unfold tokens in Hnd. rewrite !NoDup_app in Hnd. tauto.
    - intros x ->%elem_of_singleton Hx%elem_of_list_to_set. by apply Hin in Hx. }
  destruct (reps_spec (r_key (rc_call rc))) as [Hndr Hlen].
  assert (Hsub : X ∪ C ⊆ list_to_set (reps (r_key (rc_call rc)))).
  { intros x Hx. apply elem_of_list_to_set. unfold C in Hx. rewrite !elem_of_union, elem_of_singleton, elem_of_list_to_set in Hx.
    destruct Hx as [Hx|[->|Hx]]; [rewrite <- Hkey; by apply HX|done|]. apply (Htg (conj Hdr Hcase)), Hin, Hx. }
  apply subseteq_size in Hsub. rewrite size_list_to_set in Hsub by done.
  destruct (decide (X ∩ C = ∅)) as [He|Hne].
  { rewrite size_union in Hsub by set_solver. lia. }
  apply set_choose_L in Hne as [x [HxX HxC]%elem_of_intersection]. unfold C in HxC.
  rewrite elem_of_union, elem_of_singleton, elem_of_list_to_set in HxC. unfold responses. destruct HxC as [->|HxC].
  - destruct (Hloc HxX) as (e & -> & ?). exists e. split; [|done]. by left.
  - apply list_elem_of_fmap in HxC as (r & -> & Hr). destruct (Hresp (senderID r) (entry r)) as (e & He & ?); [|done|].
    { right. exists r. split; [|done]. apply elem_of_app. by right. }
    exists e. split; [|done]. apply elem_of_app. right. apply list_elem_of_omap. eauto.
Qed.

Lemma read_done_overlap y d s rc n : strict d n → rcall_ok y d s rc → asks_replicas d (rc_call rc) →
  ∀ w, w ∈ rc_after rc → kv_Key w = r_key (rc_call rc) →
  match read_done n (rc_call rc) with
  | inl err => err = ErrReadQuorum
  | inr best => stamp_le w best ∧ best ∈ responses (rc_call rc)
  end.
Proof using Hdup HN HWR.
  intros (_ & Hq & _) Hok Hask w Hw Hkey. unfold read_done. rewrite Hq. destruct (Z.ltb_spec (Z.of_nat (1 + length (r_resps (rc_call rc)))) (Quorum.R q)); [done|].
  destruct (read_overlap _ _ _ _ _ Hok Hask ltac:(lia) Hw Hkey) as (r & Hr & Hle).
  destruct (responses (rc_call rc)) as [|r0 rs]; [by apply elem_of_nil in Hr|].
  destruct (newest_spec rs r0) as (H1 & H2 & H3). split; [|destruct H1 as [->|?]; [by left|by right]].
  apply elem_of_cons in Hr as [->|Hr]; eapply stamp_le_trans; eauto.
Qed.

(** What finishing a read does to its node and sends. *)
Lemma read_finish_spec n now c best res n' rep ms :
  read_finish n now c best = (res, n', rep, ms) →
  res = (if kv_Tombstone best then inl ErrNotFound else inr best) ∧ node_le n n' ∧ readResps n' = readResps n ∧
  (∀ s, s ≤ seqNo n → items (writeAcks n') s = items (writeAcks n) s) ∧
  ∀ m, m ∈ ms → m_Type m = MsgReadRepair ∨
    (m_Type m = MsgWrite ∧ m_SenderID m = n_id n ∧ m_SeqNo m = S (seqNo n) ∧ seqNo n' = S (seqNo n)).
Proof.
  unfold read_finish. set (n1 := if _ && has_value best then applyWrite n now best else n).
  assert (Hn1 : node_le n n1 ∧ readResps n1 = readResps n ∧ writeAcks n1 = writeAcks n ∧ seqNo n1 = seqNo n ∧ n_id n1 = n_id n).
  { unfold n1. destruct (_ && _); [|by split_and!].
    destruct (applyWrite_spec n now best) as (Hc & Hs & ? & ? & ? & _). pose proof Hc as (? & _). split_and!; try done. split_and!; [done|done|lia]. }
  clearbody n1. destruct Hn1 as (Hle & Hrr & Hwa & Hsq & Hid).
  destruct (_ && has_value best); [destruct (String.eqb _ _)|]; cbn [repairSync]; intros [= <- <- <- <-]; split_and!; try done.
  - etransitivity; [exact Hle|]. split_and!; try done. simpl. lia.
  - intros s Hs. cbn -[items]. rewrite Hwa, Hsq. apply items_insert_ne. lia.
  - intros m (t & -> & _)%list_elem_of_fmap. right. cbn. rewrite Hsq. by split_and!.
  - by rewrite Hwa.
  - intros m (t & -> & _)%list_elem_of_fmap. by left.
  - by rewrite Hwa.
  - by intros m ?%elem_of_nil.
Qed.

(** A node moves on and sends repairs. *)
Lemma inv_repairs y k n n' ms :
  inv y → nodes y !! k = Some n → node_le n n' →
  (∀ s, s ≤ seqNo n → items (writeAcks n') s ⊆ items (writeAcks n) s) →
  (∀ s, items (readResps n') s ⊆+ items (readResps n) s) →
  (∀ m, m ∈ ms → m_Type m = MsgReadRepair ∨
    (m_Type m = MsgWrite ∧ m_SenderID m = n_id n ∧ m_SeqNo m = S (seqNo n) ∧ seqNo n' = S (seqNo n))) →
  inv (change y k n' (net y ++ ms)).
Proof.
  intros Hi Hk Hle Hwa Hrr Hms. pose proof (i_strict _ Hi _ _ Hk) as (Hid & _). eapply inv_idle; [done|done|done| | |].
  - intros s call Hc%(wcall_numbered _ _ _ _ _ Hi Hk). auto.
  - auto.
  - intros m Hm. destruct (Hms m Hm) as [Hty|(Hty & Hs & Hsn & Hsq)]; (split; [unfold msg_fresh; rewrite Hty|]).
    + done.
    + apply idle_other; by rewrite Hty.
    + rewrite Hs, Hid, Hsn. intros n0. rewrite lookup_insert_eq. intros [= <-]. lia.
    + eapply idle_request; [done|done|congruence|lia|auto].
Qed.

Lemma rcall_deleted (rs : gmap (string * nat) RCall) k d rc : delete k rs !! d = Some rc → rs !! d = Some rc.
Proof. by intros [_ ?]%lookup_delete_Some. Qed.

Lemma inv_log_answer y k rc res : inv y → answer_ok (MkAnswer k (rc_call rc) (rc_after rc) res) → inv (log_answer y k rc res).
Proof.
  intros Hi Ha. apply (inv_calls y); try done; [by left|by left|by left|]. simpl.
  intros a [?| ->%list_elem_of_singleton]%elem_of_app; [by left|by right].
Qed.

Lemma inv_end_read y k n n' s rep ms :
  inv y → nodes y !! k = Some n → node_le n n' → readResps n' = readResps n →
  (∀ s, s ≤ seqNo n → items (writeAcks n') s = items (writeAcks n) s) →
  (∀ m, m ∈ ms → m_Type m = MsgReadRepair ∨
    (m_Type m = MsgWrite ∧ m_SenderID m = n_id n ∧ m_SeqNo m = S (seqNo n) ∧ seqNo n' = S (seqNo n))) →
  inv (end_read y k n' s rep ms).
Proof.
  intros Hi Hk Hle Hrr Hwa Hms.
  apply (inv_calls (change y k (read_return n' s rep) (net y ++ ms))); try done; [|by left| |by left|by left].
  - eapply inv_repairs; [done|done| | | |exact Hms].
    + etransitivity; [exact Hle|]. by split_and!.
    + intros s' Hs'. rewrite <- (Hwa _ Hs'). destruct rep as [s2|]; [|done]. intros x Hx.
      eapply elem_of_submseteq; [exact Hx|apply items_delete].
    + intros s'. simpl. rewrite Hrr. apply items_delete.
  - simpl. intros d s' rc ?%rcall_deleted. by left.
Qed.

Lemma inv_finish_read y k n rc now best :
  inv y → nodes y !! k = Some n →
  answer_ok (MkAnswer k (rc_call rc) (rc_after rc) (if kv_Tombstone best then inl ErrNotFound else inr best)) →
  inv (finish_read y k n rc now best).
Proof.
  intros Hi Hk Ha. unfold finish_read. destruct (read_finish n now (rc_call rc) best) as [[[res n'] rep] ms] eqn:Hf.
  apply read_finish_spec in Hf as (-> & Hle & Hrr & Hwa & Hms). pose proof (inv_log_answer _ _ _ _ Hi Ha) as Hi1.
  destruct rep as [s'|]; [|by eapply inv_end_read].
  apply inv_put_read; [|done]. eapply inv_repairs; [done|done|done| | |exact Hms].
  - intros s Hs. by rewrite Hwa.
  - intros s. by rewrite Hrr.
Qed.

Lemma inv_read_end y k s n rc now :
  inv y → nodes y !! k = Some n → rcalls y !! (k, s) = Some rc → inv (sys_step y (AReadEnd k s now)).
Proof using Hdup HN HWR.
  intros Hi Hk Hrc. simpl. unfold on_read. rewrite Hk, Hrc. destruct (rc_state rc) eqn:Hst; try done.
  pose proof (i_reads _ Hi _ _ _ Hrc) as Hok. rewrite Hst in Hok.
  pose proof (read_done_overlap y k s rc n (i_strict _ Hi _ _ Hk) Hok) as Hd.
  destruct (read_done n (rc_call rc)) as [err|best].
  - eapply (inv_end_read _ k n n); try done; [|by intros m ?%elem_of_nil]. apply inv_log_answer; [done|].
    intros Hask w Hw Hkey. simpl in *. by rewrite (Hd Hask w Hw Hkey).
  - unfold metadata_only. rewrite (ro_digest _ _ _ _ Hok). simpl. apply inv_finish_read; [done|done|].
    intros Hask w Hw Hkey. simpl in *. destruct (Hd Hask w Hw Hkey). destruct (kv_Tombstone best) eqn:Ht; eauto.
Qed.

(** ** The whole cluster *)

Lemma inv_base y k n b :
  inv y → nodes y !! k = Some n → Node.store b = n_store n → Node.id b = n_id n → inv (put y k (with_base n b) []).
Proof.
  intros Hi Hk Hst Hid. eapply (inv_idle y k n (with_base n b)); [done|done| |done|done|by intros m ?%elem_of_nil].
  split_and!; try done. unfold n_store. simpl. by rewrite Hst.
Qed.

Lemma inv_hints y k n : inv y → nodes y !! k = Some n → let '(n', ms) := deliverHints n in inv (put y k n' ms).
Proof.
  intros Hi Hk. simpl. eapply (inv_idle y k n); [done|done|by split_and!|done|done|].
  intros m ([target es] & (e & -> & _)%list_elem_of_fmap & _)%list_elem_of_bind. split; [done|]. by apply idle_other.
Qed.

Lemma cluster_step y a : inv y → inv (sys_step y a).
Proof using Hdup HN HWR.
  intros Hi. destruct a as [k now key value|k now key|k s|k s|k s|k draw key|k s|k s now|k s now to|k s|i now|i|k|k st|k ms].
  8:{ destruct (nodes y !! k) as [n|] eqn:Hk, (rcalls y !! (k, s)) as [rc|] eqn:Hrc;
        [by eapply inv_read_end|simpl; unfold on_read; rewrite Hk, ?Hrc; done..]. }
  all: simpl; unfold on_node, on_write, on_read; try destruct (nodes y !! k) as [n|] eqn:Hk; try done.
  - unfold Write. destruct (Node.isPaused _); [done|]. pose proof (inv_new_write y k n now key value false Hi Hk) as H.
    destruct (new_entry _ _ _ _ _) as [e n1]. simpl. by destruct (coordinate n1 now e).
  - unfold Delete. destruct (Node.isPaused _); [done|]. pose proof (inv_new_write y k n now key None true Hi Hk) as H.
    destruct (new_entry _ _ _ _ _) as [e n1]. simpl. by destruct (coordinate n1 now e).
  - destruct (wcalls y !! (k, s)) as [c|] eqn:Hc; [|done]. destruct (coordinate_ack n c) as [[n' w]|] eqn:Ha; [|done]. by eapply inv_take_one.
  - destruct (wcalls y !! (k, s)) as [c|] eqn:Hc; [|done]. pose proof (i_writes _ Hi _ _ _ Hc) as Hok.
    eapply inv_put_write; [done|done|by rewrite (proj1 (wo_seq _ _ _ _ Hok))|]. apply coordinate_timer_plain, (i_strict _ Hi _ _ Hk).
  - destruct (wcalls y !! (k, s)) as [c|] eqn:Hc; [|done]. case_decide; [|done]. by apply inv_grace.
  - destruct (Read n draw key) as [err|[[n' c] ms]] eqn:HR; [done|]. by eapply inv_read_start.
  - destruct (rcalls y !! (k, s)) as [rc|] eqn:Hrc; [|done]. destruct (rc_state rc) eqn:Hst; try done.
    destruct (read_recv n (rc_call rc)) as [[n' c]|] eqn:HR; [|done]. by eapply inv_recv.
  - destruct (rcalls y !! (k, s)) as [rc|] eqn:Hrc; [|done]. pose proof (i_reads _ Hi _ _ _ Hrc) as Hok. by destruct (rc_state rc).
  - destruct (rcalls y !! (k, s)) as [rc|] eqn:Hrc; [|done]. destruct (rc_state rc) eqn:Hst; try done.
    eapply (inv_end_read _ k n n); try done. by intros m ?%elem_of_nil.
  - destruct (net y !! i) as [m|] eqn:Hm; [|done]. simpl. destruct (nodes y !! m_TargetID m) as [n|] eqn:Hk; [|by eapply inv_drop].
    pose proof (HandleMessage_handled n now m) as Hh. destruct (HandleMessage n now m) as [n' ms].
    exact (inv_deliver y i m n n' ms Hi Hm Hk Hh).
  - destruct (net y !! i) as [m|] eqn:Hm; [by eapply inv_drop|]. apply lookup_ge_None in Hm.
    unfold remove_at. rewrite take_ge, drop_ge, app_nil_r by lia. by destruct y.
  - by apply inv_hints.
  - by apply inv_base.
  - by apply inv_base.
Qed.

Lemma strict_fresh mode k : mode ≠ RepairDigest → strict k (fresh ids q CLQuorum mode false k).
Proof.
  intros Hm. split_and!; try done. simpl. case_match; [done|congruence].
Qed.

Lemma cluster_init ns : (∀ k n, ns !! k = Some n → strict k n) → inv (MkSys ns [] ∅ ∅ [] []).
Proof.
  intros Hs. split; simpl; try (by intros ? ?%elem_of_nil); try (by intros ? ? ? ?%lookup_empty_Some). done.
Qed.

Lemma cluster_run ns acts : (∀ k n, ns !! k = Some n → strict k n) → inv (sys_run (MkSys ns [] ∅ ∅ [] []) acts).
Proof using Hdup HN HWR.
  intros Hs. unfold sys_run. pose proof (cluster_init ns Hs) as Hi. revert Hi. generalize (MkSys ns [] ∅ ∅ [] []).
  induction acts as [|a acts IH]; intros y Hi; simpl; [done|]. apply IH. by apply cluster_step.
Qed.

(** What a cluster guarantees in a state [y]: every write reported successful is held, itself or a newer
    one, by at least [W] replicas of its key; and a read whose coordinator is a replica and asks replicas
    only never answers with anything older than a write of its key that was reported successful before
    the read began. *)
Definition quorum_consistent (y : Sys) : Prop :=
  (∀ w, w ∈ confirmed y → quorum_holds y w) ∧
  (∀ a w, a ∈ answers y → asks_replicas (a_node a) (a_call a) → w ∈ a_after a → kv_Key w = r_key (a_call a) →
     match a_result a with
     | inr e => stamp_le w e
     | inl ErrNotFound => ∃ t, kv_Tombstone t = true ∧ stamp_le w t ∧ t ∈ responses (a_call a)
     | inl _ => True
     end).

Lemma run_consistent ns acts :
  (∀ k n, ns !! k = Some n → strict k n) → quorum_consistent (sys_run (MkSys ns [] ∅ ∅ [] []) acts).
Proof using Hdup HN HWR.
  intros Hs. pose proof (cluster_run ns acts Hs) as Hi. split; [apply (i_confirmed _ Hi)|].
  intros a w Ha Hask. by apply (i_answers _ Hi).
Qed.

End strict.

End LeaderlessQuorum.

Import Message Resolver Leaderless LeaderlessQuorum.

(** A cluster of four, three replicas to a key: for key "a" they are n3, n4 and n2.  Its ring is
    evaluated once. *)
Definition demo_ids : list string := ["n1"; "n2"; "n3"; "n4"].
Definition demo_q : Quorum.QuorumConfig := Quorum.MkConfig 3 2 2.
Definition demo_ring4 : Ring.Ring := Eval vm_compute in foldl Ring.Add (Ring.NewRing 128) demo_ids.

Lemma demo_ring4_eq : foldl Ring.Add (Ring.NewRing 128) demo_ids = demo_ring4.
Proof. vm_compute. reflexivity. Qed.

Definition demo_node (mode : string) (sloppy : bool) (k : string) : LeaderlessNode :=
  let n := SetReadRepairMode (SetConsistencyLevel (NewLeaderlessNode k demo_q) CLQuorum) mode in
  MkLL (base n) demo_q demo_ids (hints n) demo_ring4 (regions n) (selfRegion n) (repairMode n) (consistencyLevel n) sloppy
    (seqNo n) (writeAcks n) (readResps n).

Definition demo_init (mode : string) (sloppy : bool) : Sys :=
  MkSys (list_to_map ((λ k, (k, demo_node mode sloppy k)) <$> demo_ids)) [] ∅ ∅ [] [].

Lemma demo_init_eq mode sloppy : sys_init demo_ids demo_q CLQuorum mode sloppy = demo_init mode sloppy.
Proof. unfold sys_init, fresh, SetAllNodes. by rewrite demo_ring4_eq. Qed.

(** A write at n2 that n3 acknowledges; the request to n4 stays on the wire. *)
Definition demo_write : list action := [AWrite "n2" 1 "a" (Some "v"); ADeliver 0 1; ADeliver 1 1; AAck "n2" 1].

Definition demo_answer (y : Sys) : Answer :=
  default (MkAnswer "" (MkRead 0 "" None false 0 []) [] (inl ErrPaused)) (head (answers y)).
Definition demo_confirmed (y : Sys) : KVEntry := default (MkKVEntry "" None None 0 "" false 0) (head (confirmed y)).

(** The entry a read returned. *)
Definition answered (a : Answer) : option KVEntry := match a_result a with inr e => Some e | inl _ => None end.

Lemma demo_answer_in y : length (answers y) = 1 → demo_answer y ∈ answers y.
Proof. unfold demo_answer. destruct (answers y) as [|a l]; [done|]. left. Qed.
Lemma demo_confirmed_in y : length (confirmed y) = 1 → demo_confirmed y ∈ confirmed y.
Proof. unfold demo_confirmed. destruct (confirmed y) as [|a l]; [done|]. left. Qed.

Lemma demo_reps : reps demo_ids demo_q "a" = ["n3"; "n4"; "n2"].
Proof. unfold reps. rewrite demo_ring4_eq. by vm_compute. Qed.

(** n4, which has not seen the write, then reads from n3. *)
Definition demo_read : list action :=
  demo_write ++ [ARead "n4" id "a"; ADeliver 1 2; ADeliver 2 2; ARecv "n4" 1; AReadEnd "n4" 1 3].
Definition demo_read_end : Sys := sys_run (demo_init RepairAsync false) demo_read.

Lemma demo_read_end_eq : sys_run (sys_init demo_ids demo_q CLQuorum RepairAsync false) demo_read = demo_read_end.
Proof. unfold demo_read_end. by rewrite demo_init_eq. Qed.

Lemma demo_read_facts :
  length (confirmed demo_read_end) = 1 ∧ length (answers demo_read_end) = 1 ∧
  demo_confirmed demo_read_end ∈ a_after (demo_answer demo_read_end) ∧
  kv_Key (demo_confirmed demo_read_end) = r_key (a_call (demo_answer demo_read_end)) ∧
  r_key (a_call (demo_answer demo_read_end)) = "a" ∧ a_node (demo_answer demo_read_end) = "n4" ∧
  kv_Value <$> answered (demo_answer demo_read_end) = Some (Some "v").
Proof. split_and!; try (by vm_compute). refine (bool_decide_unpack _ _). by vm_compute. Qed.

(** The guarantee on this run: the read returns the value. *)
Lemma demo_read_consistent :
  quorum_holds demo_ids demo_q demo_read_end (demo_confirmed demo_read_end) ∧
  ∃ e, a_result (demo_answer demo_read_end) = inr e ∧ kv_Value e = Some "v" ∧ stamp_le (demo_confirmed demo_read_end) e.
Proof.
  assert (Hd : NoDup demo_ids) by (apply (bool_decide_unpack _); vm_compute; exact I).
  pose proof (run_consistent demo_ids demo_q Hd ltac:(done) ltac:(done) (nodes (sys_init demo_ids demo_q CLQuorum RepairAsync false)) demo_read) as H.
  change (MkSys _ [] ∅ ∅ [] []) with (sys_init demo_ids demo_q CLQuorum RepairAsync false) in H. rewrite demo_read_end_eq in H.
  specialize (H ltac:(intros k n (x & [= -> ->] & _)%elem_of_list_to_map_2%list_elem_of_fmap; by apply strict_fresh)).
  revert H. generalize demo_read_facts. generalize demo_read_end.
  intros y (Y1 & Y2 & Y3 & Y4 & Y5 & Y6 & Y7) [H1 H2]. split; [by apply H1, demo_confirmed_in|].
  specialize (H2 (demo_answer y) (demo_confirmed y)).
  unfold answered in Y7. destruct (a_result (demo_answer y)) as [err|e]; [done|]. injection Y7 as Y7.
  exists e. split_and!; [done|done|]. apply H2; [by apply demo_answer_in| |done|done].
  unfold asks_replicas. rewrite Y5, Y6, demo_reps. split; [set_solver|left; by vm_compute].
Qed.

(** The coordinator n1 is no replica of the key; n4, which has not seen the write, is the only
    replica to answer before the timer. *)
Definition demo_outside_read : list action :=
  demo_write ++ [ARead "n1" id "a"; ADeliver 2 2; ADeliver 2 2; ARecv "n1" 1; AReadEnd "n1" 1 3].
Definition demo_outside_end : Sys := sys_run (demo_init RepairAsync false) demo_outside_read.

Lemma demo_outside_end_eq : sys_run (sys_init demo_ids demo_q CLQuorum RepairAsync false) demo_outside_read = demo_outside_end.
Proof. unfold demo_outside_end. by rewrite demo_init_eq. Qed.

(** A coordinator that is no replica counts its own miss towards [R]: with [N = 3], [W = R = 2] and
    plain quorums a read reports "not found" for a key whose write was reported successful before the
    read began, although no deletion was ever issued. *)
Theorem leaderless_outside_read_misses :
  Quorum.IsValid demo_q = None ∧ Quorum.IsStronglyConsistent demo_q = true ∧
  let y := sys_run (sys_init demo_ids demo_q CLQuorum RepairAsync false) demo_outside_read in
  a_after (demo_answer y) = [demo_confirmed y] ∧
  kv_Key (demo_confirmed y) = r_key (a_call (demo_answer y)) ∧ kv_Value (demo_confirmed y) = Some "v" ∧
  length (r_resps (a_call (demo_answer y))) = 1 ∧
  a_result (demo_answer y) = inl ErrNotFound.
Proof.
  split; [done|]. split; [done|]. rewrite demo_outside_end_eq. cbv zeta.
  split_and!; try (by vm_compute).
Qed.

(** With sloppy quorums on: n2 cannot reach n3 and n4, so n1 stands in and the write succeeds; then
    n3, a replica, reads from n4, another. *)
Definition demo_sloppy : list action :=
  [AWrite "n2" 1 "a" (Some "v"); ADrop 0; ADrop 0; ATimer "n2" 1; ADeliver 0 2; ADeliver 0 2; AAck "n2" 1;
   ARead "n3" id "a"; ADeliver 0 3; ADeliver 1 3; ARecv "n3" 1; AReadEnd "n3" 1 4].
Definition demo_sloppy_end : Sys := sys_run (demo_init RepairAsync true) demo_sloppy.

Lemma demo_sloppy_end_eq : sys_run (sys_init demo_ids demo_q CLQuorum RepairAsync true) demo_sloppy = demo_sloppy_end.
Proof. unfold demo_sloppy_end. by rewrite demo_init_eq. Qed.

(** C38. Sloppy quorums, on by default, give up the overlap of quorums: with [W + R > N] a read whose
    coordinator is a replica, asks replicas only and reaches [R] of them reports "not found" for a write
    reported successful before it began. *)
Theorem sloppy_quorum_read_misses :
  Quorum.IsStronglyConsistent demo_q = true ∧
  let y := sys_run (sys_init demo_ids demo_q CLQuorum RepairAsync true) demo_sloppy in
  asks_replicas demo_ids demo_q (a_node (demo_answer y)) (a_call (demo_answer y)) ∧
  a_after (demo_answer y) = [demo_confirmed y] ∧
  kv_Key (demo_confirmed y) = r_key (a_call (demo_answer y)) ∧ kv_Value (demo_confirmed y) = Some "v" ∧
  a_result (demo_answer y) = inl ErrNotFound.
Proof.
  split; [done|]. rewrite demo_sloppy_end_eq. cbv zeta. split.
  - unfold asks_replicas. assert (r_key (a_call (demo_answer demo_sloppy_end)) = "a") as -> by (by vm_compute).
    assert (a_node (demo_answer demo_sloppy_end) = "n3") as -> by (by vm_compute).
    rewrite demo_reps. split; [set_solver|left; by vm_compute].
  - split_and!; by vm_compute.
Qed.

(** A digest read at n4: n3 answers with metadata, and the request for the value names no target, so
    no node can answer it and the wait times out. *)
Definition demo_digest_read : list action :=
  demo_write ++ [ARead "n4" id "a"; ADeliver 1 2; ADeliver 2 2; ARecv "n4" 1; AReadEnd "n4" 1 3;
                 ADeliver 2 3; AFetchEnd "n4" 1 4 true].
Definition demo_digest_end : Sys := sys_run (demo_init RepairDigest false) demo_digest_read.

Lemma demo_digest_end_eq : sys_run (sys_init demo_ids demo_q CLQuorum RepairDigest false) demo_digest_read = demo_digest_end.
Proof. unfold demo_digest_end. by rewrite demo_init_eq. Qed.

(** A digest read loses the value: with a quorum of replicas up and holding the write, the answer to
    the client is an entry with the write's timestamp and no value. *)
Theorem leaderless_digest_read_loses_value :
  let y := sys_run (sys_init demo_ids demo_q CLQuorum RepairDigest false) demo_digest_read in
  kv_Value (demo_confirmed y) = Some "v" ∧
  ((λ e, (kv_Timestamp e, kv_NodeID e, kv_Tombstone e, kv_Value e)) <$> answered (demo_answer y)) =
    Some (kv_Timestamp (demo_confirmed y), kv_NodeID (demo_confirmed y), false, None).
Proof.
  rewrite demo_digest_end_eq. cbv zeta.
  split_and!; try (by vm_compute).
Qed.

(** n4 is paused during the write; n2 keeps a hint for it, the hint's delivery meets the still paused
    n4, and n4 comes back. *)
Definition demo_handoff : list action :=
  AState "n4" Node.StatePaused :: demo_write ++
  [ADeliver 0 2; AGrace "n2" 1; AHints "n2"; ADeliver 0 3; AState "n4" Node.StateOnline].
Definition demo_handoff_end : Sys := sys_run (demo_init RepairAsync false) demo_handoff.

Lemma demo_handoff_end_eq : sys_run (sys_init demo_ids demo_q CLQuorum RepairAsync false) demo_handoff = demo_handoff_end.
Proof. unfold demo_handoff_end. by rewrite demo_init_eq. Qed.

(** A hint is delivered at most once and forgotten whether or not its target was up: after the run
    no message is on its way, no node holds a hint, and the recovered replica still lacks the confirmed
    write. *)
Theorem hinted_handoff_forgets :
  let y := sys_run (sys_init demo_ids demo_q CLQuorum RepairAsync false) demo_handoff in
  "n4" ∈ reps demo_ids demo_q "a" ∧
  net y = [] ∧ map_Forall (λ _ n, hints n = ∅) (nodes y) ∧ length (confirmed y) = 1 ∧ kv_Key (demo_confirmed y) = "a" ∧
  ((λ n, (Node.isPaused (base n), Store.GetRaw (n_store n) "a")) <$> nodes y !! "n4") = Some (false, None).
Proof.
  cbv zeta. rewrite demo_handoff_end_eq, demo_reps. split; [set_solver|].
  split_and!; try (by vm_compute). refine (bool_decide_unpack _ _). by vm_compute.
Qed.
