(* ===== verification/SingleLeader.v ===== *)
(** * Single-leader replication

    Models [src/internal/node/leader.go] and [follower.go].  The goroutines become steps.  No
    lock is held over a client call of the leader, so calls in progress interleave: a call stamps an
    operation, appends it to the log, applies it to the store, and broadcasts it, each one step.  An
    acknowledgement is handled when it arrives, and the wait of [awaitReplication] ends either with all
    it waits for or by its timeout.  Wall-clock readings are arguments.  Log indices and sequence
    numbers are natural numbers. *)

From S2P Require Import Prelude Storage Clock ReplicationLog Consistency Transport Node.
Import (hints) VectorClock.
Import (hints) Consistency.
#[local] Open Scope nat_scope.

Module SingleLeader.
Import Message.

Inductive ReplicationMode := ModeAsync | ModeSync | ModeSemiSync.

#[export] Instance ReplicationMode_eq_dec : EqDecision ReplicationMode.
Proof. solve_decision. Defined.

(** A call waiting in [awaitReplication]: the peers it broadcast to and the distinct senders of the
    acknowledgements it has received. *)
Record Waiter := MkWaiter { w_mode : ReplicationMode; w_peers : list string; w_received : gset string }.

Record SingleLeaderNode := MkLeader {
  base : Node.BaseNode;
  mode : ReplicationMode;
  ryw : Consistency.ReadYourWrites;
  mono : Consistency.MonotonicReads;
  seqNo : nat;
  clock : N;
  ackChs : gmap nat Waiter;
}.

Definition NewSingleLeaderNode (id : string) (m : ReplicationMode) : SingleLeaderNode :=
  MkLeader (Node.newBaseNode id Node.StrategySingleLeader Node.RoleLeader) m
    Consistency.NewReadYourWrites Consistency.NewMonotonicReads 0 0 ∅.

Definition l_id (n : SingleLeaderNode) : string := Node.id (base n).
Definition l_log (n : SingleLeaderNode) : Log.ReplicationLog := Node.log (base n).
Definition l_store (n : SingleLeaderNode) : Store.Store := Node.store (base n).

Definition with_base (n : SingleLeaderNode) (b : Node.BaseNode) : SingleLeaderNode :=
  MkLeader b (mode n) (ryw n) (mono n) (seqNo n) (clock n) (ackChs n).
Definition with_acks (n : SingleLeaderNode) (a : gmap nat Waiter) : SingleLeaderNode :=
  MkLeader (base n) (mode n) (ryw n) (mono n) (seqNo n) (clock n) a.

Definition SetMode (n : SingleLeaderNode) (m : ReplicationMode) : SingleLeaderNode :=
  MkLeader (base n) m (ryw n) (mono n) (seqNo n) (clock n) (ackChs n).
Definition getMode (n : SingleLeaderNode) : ReplicationMode := mode n.

(** The stamp of an operation: the hybrid timestamp and the leader's own clock. *)
Definition stamp (n : SingleLeaderNode) (now : Z) (key : string) (value : option string) (op : OpType)
  : LogEntry * SingleLeaderNode :=
  let '(ts, b) := Node.HLCNow (base n) now in
  let clk := u64N (clock n + 1) in
  let vc : gmap string N := {[ Node.id b := clk ]} in
  (MkLogEntry 0 0 key value op ts (Node.id b) (Some vc), MkLeader b (mode n) (ryw n) (mono n) (seqNo n) clk (ackChs n)).

(** Log and commit: the entry as it is replicated, with the leader's index. *)
Definition append (n : SingleLeaderNode) (entry : LogEntry) : LogEntry * SingleLeaderNode :=
  let '(idx, l) := Log.Append (l_log n) entry in
  (Log.with_index idx entry, with_base n (Node.set_log (base n) (Log.SetCommitIndex l idx))).

(** The store entry a write leaves. *)
Definition kv_of (e : LogEntry) : KVEntry :=
  MkKVEntry (le_Key e) (le_Value e) (le_VClock e) (le_Timestamp e) (le_OriginID e) false (N.of_nat (le_Index e)).

(** Apply a logged operation to the store; a write is also noted for its client's session. *)
Definition store_entry (n : SingleLeaderNode) (e : LogEntry) (clientID : string) : Res SingleLeaderNode :=
  match le_Op e with
  | OpSet =>
      let n := with_base n (Node.set_store (base n) (Store.Set_ (l_store n) (kv_of e))) in
      r ← Consistency.RecordWrite (ryw n) clientID (Some (kv_of e));
      Ok (MkLeader (base n) (mode n) r (mono n) (seqNo n) (clock n) (ackChs n))
  | OpDelete =>
      Ok (with_base n (Node.set_store (base n) (Store.Delete (l_store n) (le_Key e) (l_id n) (le_Timestamp e) (le_VClock e))))
  end.

(** One operation of a call: everything [Write], [Delete] and the loop of [WriteBatch] do before replicating. *)
Definition local_op (n : SingleLeaderNode) (now : Z) (key : string) (value : option string) (op : OpType) (clientID : string)
  : Res (LogEntry * SingleLeaderNode) :=
  let '(e, n) := stamp n now key value op in
  let '(e, n) := append n e in
  n ← store_entry n e clientID;
  Ok (e, n).

(** Take a sequence number, register the waiter the mode asks for and broadcast the entries. *)
Definition replicate (n : SingleLeaderNode) (es : list LogEntry) (ackIndex : nat)
  : nat * SingleLeaderNode * list Message :=
  let s := S (seqNo n) in
  let peers := Node.GetPeers (base n) in
  let m := MkMessage MsgAppendEntries s (l_id n) "" es None ackIndex None None "" "" [] 0 "" 0 0 0 false 0 0 0 false None false "" in
  let acks := match mode n with
              | ModeAsync => ackChs n
              | ModeSync | ModeSemiSync => <[s := MkWaiter (mode n) peers ∅]> (ackChs n)
              end in
  (s, MkLeader (base n) (mode n) (ryw n) (mono n) s (clock n) acks, broadcast m peers).

(** How [awaitReplication] ends for a waiter: [true] is success. *)
Definition await_ok (w : Waiter) : bool :=
  match w_mode w with
  | ModeSync => negb (size (w_received w) <? length (w_peers w))
  | ModeSemiSync => (length (w_peers w) =? 0) || negb (size (w_received w) =? 0)
  | ModeAsync => true
  end.

(** The wait is over: the channel is removed and the outcome returned. *)
Definition await_end (n : SingleLeaderNode) (s : nat) : option (bool * SingleLeaderNode) :=
  match ackChs n !! s with
  | Some w => Some (await_ok w, with_acks n (delete s (ackChs n)))
  | None => None
  end.

Inductive error := ErrPaused | ErrEmptyBatch | ErrNotFound | ErrFollower (leader : string)
  | ErrConsistency (e : Consistency.ReadError).

(** [Write] up to the wait: the entry returned, the messages sent and the sequence number waited on. *)
Definition Write (n : SingleLeaderNode) (now : Z) (key : string) (value : option string) (clientID : string)
  : Res (error + KVEntry * nat * SingleLeaderNode * list Message) :=
  if Node.isPaused (base n) then Ok (inl ErrPaused)
  else
    r ← local_op n now key value OpSet clientID;
    let '(e, n) := r in
    let '(s, n, ms) := replicate n [e] (le_Index e) in
    Ok (inr (kv_of e, s, n, ms)).

Definition Delete (n : SingleLeaderNode) (now : Z) (key clientID : string) : Res (error + nat * SingleLeaderNode * list Message) :=
  if Node.isPaused (base n) then Ok (inl ErrPaused)
  else
    r ← local_op n now key None OpDelete clientID;
    let '(e, n) := r in
    let '(s, n, ms) := replicate n [e] (le_Index e) in
    Ok (inr (s, n, ms)).

(** The loop of [WriteBatch]; each key reads the clock at its own time. *)
Fixpoint batch_loop (n : SingleLeaderNode) (pairs : list (Z * string * option string)) (clientID : string)
  (es : list LogEntry) : Res (list LogEntry * SingleLeaderNode) :=
  match pairs with
  | [] => Ok (es, n)
  | (now, key, value) :: pairs' =>
      r ← local_op n now key value OpSet clientID;
      let '(e, n) := r in batch_loop n pairs' clientID (es ++ [e])
  end.

Definition WriteBatch (n : SingleLeaderNode) (pairs : list (Z * string * option string)) (clientID : string)
  : Res (error + list KVEntry * nat * SingleLeaderNode * list Message) :=
  if Node.isPaused (base n) then Ok (inl ErrPaused)
  else if length pairs =? 0 then Ok (inl ErrEmptyBatch)
  else
    r ← batch_loop n pairs clientID [];
    let '(es, n) := r in
    let '(s, n, ms) := replicate n es (default 0 (le_Index <$> last es)) in
    Ok (inr (kv_of <$> es, s, n, ms)).

(** The leader's [HandleMessage]: an acknowledgement for a waiter, or a follower catching up. *)
Definition HandleMessage (n : SingleLeaderNode) (m : Message) : Res (SingleLeaderNode * list Message) :=
  match m_Type m with
  | MsgAppendAck =>
      match ackChs n !! m_AckIndex m with
      | Some w =>
          Ok (with_acks n (<[m_AckIndex m := MkWaiter (w_mode w) (w_peers w) ({[ m_SenderID m ]} ∪ w_received w)]> (ackChs n)), [])
      | None => Ok (n, [])
      end
  | MsgSync =>
      es ← Log.GetFrom (l_log n) (m_AckIndex m);
      if length es =? 0 then Ok (n, [])
      else Ok (n, [MkMessage MsgAppendEntries 0 (l_id n) (m_SenderID m) es None (Log.LastIndex (l_log n)) None None
                     "" "" [] 0 "" 0 0 0 false 0 0 0 false None false ""])
  | _ => Ok (n, [])
  end.

(** The second half of [Read]: check the session guarantees for the entry found, and note it. *)
Definition check_read (n : SingleLeaderNode) (entry : KVEntry) (clientID : string) : Res (error + SingleLeaderNode) :=
  e1 ← Consistency.ValidateRead (ryw n) clientID (Some entry);
  match e1 with
  | Some e => Ok (inl (ErrConsistency e))
  | None =>
      e2 ← Consistency.ValidateRead (mono n) clientID (Some entry);
      match e2 with
      | Some e => Ok (inl (ErrConsistency e))
      | None =>
          r ← Consistency.RecordRead (ryw n) clientID (Some entry);
          mo ← Consistency.RecordRead (mono n) clientID (Some entry);
          Ok (inr (MkLeader (base n) (mode n) r mo (seqNo n) (clock n) (ackChs n)))
      end
  end.

Definition Read (n : SingleLeaderNode) (key clientID : string) : Res (error + KVEntry * SingleLeaderNode) :=
  if Node.isPaused (base n) then Ok (inl ErrPaused)
  else match Store.Get (l_store n) key with
  | None => Ok (inl ErrNotFound)
  | Some entry =>
      r ← check_read n entry clientID;
      Ok match r with inl e => inl e | inr n => inr (entry, n) end
  end.

(** ** The follower *)

Record FollowerNode := MkFollower {
  f_base : Node.BaseNode;
  f_leaderID : string;
  f_mono : Consistency.MonotonicReads;
  applied : nat;
  pending : gmap nat LogEntry;
  leaderIndex : nat;
}.

Definition NewFollowerNode (id leaderID : string) : FollowerNode :=
  MkFollower (Node.newBaseNode id Node.StrategySingleLeader Node.RoleFollower) leaderID
    Consistency.NewMonotonicReads 0 ∅ 0.

Definition f_id (n : FollowerNode) : string := Node.id (f_base n).
Definition f_log (n : FollowerNode) : Log.ReplicationLog := Node.log (f_base n).
Definition f_store (n : FollowerNode) : Store.Store := Node.store (f_base n).

Definition f_with_base (n : FollowerNode) (b : Node.BaseNode) : FollowerNode :=
  MkFollower b (f_leaderID n) (f_mono n) (applied n) (pending n) (leaderIndex n).

(** The store entry of an applied log entry. *)
Definition kv_applied (e : LogEntry) : KVEntry :=
  MkKVEntry (le_Key e) (le_Value e) (le_VClock e) (le_Timestamp e) (le_OriginID e)
    (match le_Op e with OpDelete => true | OpSet => false end) (N.of_nat (le_Index e)).

Definition applyOne (n : FollowerNode) (now : Z) (e : LogEntry) : FollowerNode :=
  let '(_, b) := Node.HLCUpdate (f_base n) now (le_Timestamp e) in
  let '(_, l) := Log.Append (Node.log b) e in
  let b := Node.set_log b l in
  let b := Node.set_store b (Store.Set_ (Node.store b) (kv_applied e)) in
  let b := Node.set_log b (Log.SetCommitIndex (Node.log b) (le_Index e)) in
  f_with_base n b.

(** The first loop of [applyEntries]: buffer what is new. *)
Definition buffer_one (n : FollowerNode) (e : LogEntry) : FollowerNode :=
  if le_Index e <=? applied n then n
  else MkFollower (f_base n) (f_leaderID n) (f_mono n) (applied n) (<[le_Index e := e]> (pending n)) (leaderIndex n).

(** The second loop: apply while the next index is buffered.  Each round removes a buffered entry. *)
Fixpoint apply_loop (fuel : nat) (n : FollowerNode) (now : Z) : FollowerNode :=
  match fuel with
  | O => n
  | S fuel' =>
      let next := applied n + 1 in
      match pending n !! next with
      | None => n
      | Some e =>
          let n := applyOne n now e in
          apply_loop fuel' (MkFollower (f_base n) (f_leaderID n) (f_mono n) next (delete next (pending n)) (leaderIndex n)) now
      end
  end.

Definition requestSync (n : FollowerNode) (fromIndex : nat) : Message :=
  MkMessage MsgSync 0 (f_id n) (f_leaderID n) [] None fromIndex None None "" "" [] 0 "" 0 0 0 false 0 0 0 false None false "".

(** [applyEntries]: the new state, the messages sent and the replication lag recorded. *)
Definition applyEntries (n : FollowerNode) (now : Z) (m : Message) : FollowerNode * list Message * nat :=
  let n := foldl buffer_one n (m_Entries m) in
  let n := apply_loop (S (size (pending n))) n now in
  let n := MkFollower (f_base n) (f_leaderID n) (f_mono n) (applied n) (pending n)
             (if leaderIndex n <? m_AckIndex m then m_AckIndex m else leaderIndex n) in
  let gap := negb (size (pending n) =? 0) in
  let ack := MkMessage MsgAppendAck 0 (f_id n) (f_leaderID n) [] None (m_SeqNo m) None None "" "" [] 0 "" 0 0 0 false 0 0 0 false None false "" in
  (n, ack :: (if gap then [requestSync n (applied n + 1)] else []), leaderIndex n - applied n).

Definition f_HandleMessage (n : FollowerNode) (now : Z) (m : Message) : FollowerNode * list Message :=
  if Node.isPaused (f_base n) then (n, [])
  else match m_Type m with
  | MsgAppendEntries => let '(n, ms, _) := applyEntries n now m in (n, ms)
  | MsgReadRepair =>
      match m_Entry m with
      | Some e => (f_with_base n (Node.set_store (f_base n) (Store.Set_ (f_store n) e)), [])
      | None => (n, [])
      end
  | _ => (n, [])
  end.

(** A tick of [runSyncLoop]. *)
Definition sync_tick (n : FollowerNode) : list Message :=
  if Node.isPaused (f_base n) then [] else [requestSync n (applied n + 1)].

Definition f_Write (n : FollowerNode) : error := ErrFollower (f_leaderID n).
Definition f_Delete (n : FollowerNode) : error := ErrFollower (f_leaderID n).

Definition f_Read (n : FollowerNode) (key clientID : string) : Res (error + KVEntry * FollowerNode) :=
  if Node.isPaused (f_base n) then Ok (inl ErrPaused)
  else match Store.Get (f_store n) key with
  | None => Ok (inl ErrNotFound)
  | Some entry =>
      mo ← Consistency.RecordRead (f_mono n) clientID (Some entry);
      Ok (inr (entry, MkFollower (f_base n) (f_leaderID n) mo (applied n) (pending n) (leaderIndex n)))
  end.

(** ** A cluster: one leader, its followers and the network

    [sent] keeps every message ever sent.  Delivering any of them at any time, any number of times or
    never covers loss, delay, reordering and duplication.  [finished] records the outcome of every wait,
    [stored] the operations in the order in which the leader's store received them. *)

(** A call of [Write], [Delete] or [WriteBatch] in progress: the operation it has stamped, the one it
    has logged but not applied yet, and those it has applied. *)
Record Call := MkCall {
  c_client : string;
  c_stamped : option LogEntry;
  c_logged : option LogEntry;
  c_done : list LogEntry;
}.

Record Sys := MkSys {
  ldr : SingleLeaderNode;
  fols : gmap string FollowerNode;
  sent : list Message;
  calls : gmap nat Call;
  stored : list LogEntry;
  finished : list (nat * Waiter * bool);
}.

Inductive action :=
  | AStamp (c : nat) (now : Z) (key : string) (value : option string) (op : OpType) (clientID : string)
  | AAppend (c : nat)
  | AStore (c : nat)
  | ASend (c : nat)
  | ALeaderRecv (i : nat)
  | AFollowerRecv (f : string) (now : Z) (i : nat)
  | ASyncTick (f : string)
  | AAwaitEnd (s : nat)
  | ALeaderRead (key clientID : string)
  | ALeaderCheck (entry : KVEntry) (clientID : string)
  | AFollowerRead (f key clientID : string)
  | ALeaderState (st : Node.NodeState)
  | AFollowerState (f : string) (st : Node.NodeState)
  | ALeaderSkew (ms : Z)
  | AFollowerSkew (f : string) (ms : Z)
  | ASetMode (m : ReplicationMode)
  | AAddPeer (p : string)
  | ARemovePeer (p : string).

Definition set_ldr (y : Sys) (n : SingleLeaderNode) (ms : list Message) : Sys :=
  MkSys n (fols y) (sent y ++ ms) (calls y) (stored y) (finished y).
Definition set_fol (y : Sys) (k : string) (f : FollowerNode) (ms : list Message) : Sys :=
  MkSys (ldr y) (<[k := f]> (fols y)) (sent y ++ ms) (calls y) (stored y) (finished y).
Definition set_call (y : Sys) (c : nat) (n : SingleLeaderNode) (call : Call) (es : list LogEntry) : Sys :=
  MkSys n (fols y) (sent y) (<[c := call]> (calls y)) (stored y ++ es) (finished y).

(** A new call checks that the node runs; a call that stamps again is a [WriteBatch]. *)
Definition begin_op (y : Sys) (c : nat) (op : OpType) (clientID : string) : option Call :=
  match calls y !! c with
  | None => if Node.isPaused (base (ldr y)) then None else Some (MkCall clientID None None [])
  | Some (MkCall cl None None es) => match op with OpSet => Some (MkCall cl None None es) | OpDelete => None end
  | Some _ => None
  end.

Definition sys_step (y : Sys) (a : action) : Res Sys :=
  match a with
  | AStamp c now key value op clientID =>
      Ok match begin_op y c op clientID with
         | Some call =>
             let '(e, n) := stamp (ldr y) now key value op in
             set_call y c n (MkCall (c_client call) (Some e) None (c_done call)) []
         | None => y
         end
  | AAppend c =>
      Ok match calls y !! c with
         | Some (MkCall cl (Some e) None es) =>
             let '(e, n) := append (ldr y) e in set_call y c n (MkCall cl None (Some e) es) []
         | _ => y
         end
  | AStore c =>
      match calls y !! c with
      | Some (MkCall cl None (Some e) es) =>
          n ← store_entry (ldr y) e cl; Ok (set_call y c n (MkCall cl None None (es ++ [e])) [e])
      | _ => Ok y
      end
  | ASend c =>
      Ok match calls y !! c with
         | Some (MkCall _ None None (e :: es)) =>
             let '(_, n, ms) := replicate (ldr y) (e :: es) (default 0 (le_Index <$> last (e :: es))) in
             MkSys n (fols y) (sent y ++ ms) (delete c (calls y)) (stored y) (finished y)
         | _ => y
         end
  | ALeaderRecv i =>
      match sent y !! i with
      | Some m =>
          if decide (m_TargetID m = l_id (ldr y))
          then r ← HandleMessage (ldr y) m; Ok (set_ldr y r.1 r.2) else Ok y
      | None => Ok y
      end
  | AFollowerRecv k now i =>
      match fols y !! k, sent y !! i with
      | Some f, Some m =>
          if decide (m_TargetID m = k)
          then let '(f', ms) := f_HandleMessage f now m in Ok (set_fol y k f' ms) else Ok y
      | _, _ => Ok y
      end
  | ASyncTick k =>
      match fols y !! k with
      | Some f => Ok (set_fol y k f (sync_tick f))
      | None => Ok y
      end
  | AAwaitEnd s =>
      match ackChs (ldr y) !! s, await_end (ldr y) s with
      | Some w, Some (ok, n) => Ok (MkSys n (fols y) (sent y) (calls y) (stored y) (finished y ++ [(s, w, ok)]))
      | _, _ => Ok y
      end
  | ALeaderRead key c =>
      r ← Read (ldr y) key c;
      match r with
      | inl _ => Ok y
      | inr (_, n) => Ok (set_ldr y n [])
      end
  | ALeaderCheck entry c =>
      r ← check_read (ldr y) entry c;
      match r with
      | inl _ => Ok y
      | inr n => Ok (set_ldr y n [])
      end
  | AFollowerRead k key c =>
      match fols y !! k with
      | Some f => r ← f_Read f key c; match r with inl _ => Ok y | inr (_, f') => Ok (set_fol y k f' []) end
      | None => Ok y
      end
  | ALeaderState st => Ok (set_ldr y (with_base (ldr y) (Node.set_state (base (ldr y)) st)) [])
  | AFollowerState k st =>
      match fols y !! k with
      | Some f => Ok (set_fol y k (f_with_base f (Node.set_state (f_base f) st)) [])
      | None => Ok y
      end
  | ALeaderSkew ms => Ok (set_ldr y (with_base (ldr y) (Node.SetClockSkewMillis (base (ldr y)) ms)) [])
  | AFollowerSkew k ms =>
      match fols y !! k with
      | Some f => Ok (set_fol y k (f_with_base f (Node.SetClockSkewMillis (f_base f) ms)) [])
      | None => Ok y
      end
  | ASetMode m => Ok (set_ldr y (SetMode (ldr y) m) [])
  | AAddPeer p => Ok (set_ldr y (with_base (ldr y) (Node.AddPeer (base (ldr y)) p)) [])
  | ARemovePeer p => Ok (set_ldr y (with_base (ldr y) (Node.RemovePeer (base (ldr y)) p)) [])
  end.

Fixpoint sys_run (y : Sys) (acts : list action) : Res Sys :=
  match acts with
  | [] => Ok y
  | a :: acts' => y' ← sys_step y a; sys_run y' acts'
  end.

(** A fresh cluster with the given leader, mode and followers. *)
Definition sys_init (lid : string) (m : ReplicationMode) (fids : list string) : Sys :=
  MkSys (NewSingleLeaderNode lid m) (list_to_map ((λ k, (k, NewFollowerNode k lid)) <$> fids)) [] ∅ [] [].

(** ** Specification: the store is the replay of the log *)

Definition replay (es : list LogEntry) : Store.Store := foldl (λ st e, Store.Set_ st (kv_applied e)) Store.NewStore es.

(** Stores that no read and no later write can tell apart. *)
Definition store_eqv (s1 s2 : Store.Store) : Prop :=
  Store.version s1 = Store.version s2 ∧ ∀ k, Store.Get s1 k = Store.Get s2 k.

Definition log_of (n : SingleLeaderNode) : list LogEntry := Log.entries (l_log n).

Lemma Set_eqv s1 s2 kv : store_eqv s1 s2 → store_eqv (Store.Set_ s1 kv) (Store.Set_ s2 kv).
Proof.
  intros [Hv Hg]. split; [simpl; by rewrite Hv|]. intros k. specialize (Hg k). unfold Store.Get, Store.Set_ in *. simpl.
  rewrite Hv. destruct (decide (kv_Key kv = k)) as [->|]; [by rewrite !lookup_insert_eq|by rewrite !lookup_insert_ne].
Qed.

(** The leader's [Delete] and the followers' tombstone look the same. *)
Lemma Delete_eqv s1 s2 e : store_eqv s1 s2 → le_Op e = OpDelete →
  store_eqv (Store.Delete s1 (le_Key e) (le_OriginID e) (le_Timestamp e) (le_VClock e)) (Store.Set_ s2 (kv_applied e)).
Proof.
  intros [Hv Hg] Hop. split.
  - unfold Store.Delete. destruct (Store.data s1 !! le_Key e); simpl; by rewrite Hv.
  - intros k. specialize (Hg k). unfold Store.Get, Store.Delete, Store.Set_ in *.
    unfold kv_applied. rewrite Hop. cbn [kv_Key kv_Tombstone Store.data].
    destruct (Store.data s1 !! le_Key e) as [old|]; cbn [Store.data];
      (destruct (decide (le_Key e = k)) as [->|]; [by rewrite !lookup_insert_eq|by rewrite !lookup_insert_ne]).
Qed.

(** *** The leader *)

Record leader_ok (n : SingleLeaderNode) : Prop := {
  lo_wf : Log.wf (l_log n);
  lo_snap : Log.snapshotIndex (l_log n) = 0;
  lo_peers : NoDup (Node.peers (base n));
}.

(** The entry at its own position. *)
Definition in_log (LL : list LogEntry) (e : LogEntry) : Prop := 0 < le_Index e ∧ LL !! (le_Index e - 1) = Some e.

Lemma in_log_app LL es e : in_log LL e → in_log (LL ++ es) e.
Proof. intros [H1 H2]. split; [done|]. by apply lookup_app_l_Some. Qed.

Lemma replay_snoc es e : replay (es ++ [e]) = Store.Set_ (replay es) (kv_applied e).
Proof. unfold replay. by rewrite foldl_snoc. Qed.

Lemma log_length n : leader_ok n → Log.nextIndex (l_log n) = S (length (log_of n)).
Proof. intros [[Hn _] Hs _]. unfold log_of. lia. Qed.

(** A step of the leader that touches neither its log nor its waiters. *)
Record same_log (n n' : SingleLeaderNode) : Prop := {
  sl_log : l_log n' = l_log n;
  sl_peers : Node.peers (base n') = Node.peers (base n);
  sl_seq : seqNo n' = seqNo n;
  sl_acks : ackChs n' = ackChs n;
  sl_id : l_id n' = l_id n;
}.

Lemma same_log_ok n n' : same_log n n' → leader_ok n → leader_ok n'.
Proof. intros [Hl Hp _ _ _] [H1 H2 H3]. split; by rewrite ?Hl, ?Hp. Qed.

Lemma stamp_spec n now key value op :
  let '(e, n') := stamp n now key value op in same_log n n' ∧ l_store n' = l_store n ∧ le_OriginID e = l_id n ∧ le_Key e = key.
Proof. unfold stamp, Node.HLCNow. by destruct (HLC.Now _ now) as [ts h]. Qed.

(** A local step that logs one entry. *)
Record logs_one (n n' : SingleLeaderNode) (e : LogEntry) : Prop := {
  lg_log : log_of n' = log_of n ++ [e];
  lg_in : in_log (log_of n') e;
  lg_ok : leader_ok n';
  lg_store : l_store n' = l_store n;
  lg_seq : seqNo n' = seqNo n;
  lg_acks : ackChs n' = ackChs n;
  lg_id : l_id n' = l_id n;
}.

Lemma in_log_snoc LL e : le_Index e = S (length LL) → in_log (LL ++ [e]) e.
Proof. intros He. split; [lia|]. rewrite He. apply list_lookup_middle. lia. Qed.

Lemma append_spec n e : leader_ok n → let '(e', n') := append n e in logs_one n n' e' ∧ le_OriginID e' = le_OriginID e ∧ le_Key e' = le_Key e.
Proof.
  intros Hok. pose proof (log_length n Hok) as Hlen. destruct Hok as [Hwf Hs Hp]. unfold append.
  pose proof (Log.Append_spec (l_log n) e Hwf) as Ha. cbn -[Log.wf Log.entry_at Log.SetCommitIndex] in Ha |- *.
  destruct Ha as (_ & Hwf' & _). split; [|done].
  assert (Hl : ∀ l i, Log.entries (Log.SetCommitIndex l i) = Log.entries l) by (intros l i; unfold Log.SetCommitIndex; by case_match).
  split; try done; unfold log_of, l_log; cbn [base with_base Node.set_log Node.log]; rewrite ?Hl.
  - done.
  - apply in_log_snoc. simpl. unfold log_of, l_log in Hlen. by rewrite Hlen.
  - split; unfold l_log; cbn [base with_base Node.set_log Node.log Node.peers]; [by apply Log.SetCommitIndex_wf| |done].
    unfold Log.SetCommitIndex. by case_match.
Qed.

Lemma store_entry_spec n e c : ∃ n', store_entry n e c = Ok n' ∧ same_log n n' ∧
  ∀ st, le_OriginID e = l_id n → store_eqv (l_store n) st → store_eqv (l_store n') (Store.Set_ st (kv_applied e)).
Proof.
  unfold store_entry. destruct (le_Op e) eqn:Hop.
  - destruct (Consistency.record_front (ryw n) (Consistency.EWrite c (kv_of e))) as (r & Hr & _).
    cbn [Consistency.record_event] in Hr. cbn [ryw with_base]. rewrite Hr, Res_bind_Ok. eexists. split_and!; [done|by split|].
    intros st _ Hst. unfold l_store at 1. cbn [base with_base Node.set_store Node.store].
    replace (kv_applied e) with (kv_of e) by (unfold kv_applied, kv_of; by rewrite Hop). by apply Set_eqv.
  - eexists. split_and!; [done|by split|]. intros st Ho Hst. unfold l_store at 1. cbn [base with_base Node.set_store Node.store].
    rewrite <- Ho. by apply Delete_eqv.
Qed.

(** *** The follower *)

Record fol_ok (LL : list LogEntry) (f : FollowerNode) : Prop := {
  fo_log : f_log f = Log.MkLog (take (applied f) LL) (Log.commitIndex (f_log f)) (S (applied f)) 0 0;
  fo_len : applied f ≤ length LL;
  fo_pending : ∀ i e, pending f !! i = Some e → le_Index e = i ∧ applied f < i ∧ in_log LL e;
  fo_store : f_store f = replay (take (applied f) LL);
}.

(** The follower has the entry, applied or buffered. *)
Definition holds (f : FollowerNode) (e : LogEntry) : Prop :=
  le_Index e ≤ applied f ∨ pending f !! le_Index e = Some e.

Lemma fol_ok_app LL es f : fol_ok LL f → fol_ok (LL ++ es) f.
Proof.
  intros [Hl Hn Hp Hs]. split.
  - by rewrite take_app_le.
  - rewrite length_app. lia.
  - intros i e Hi. destruct (Hp i e Hi) as (? & ? & ?). split_and!; try done. by apply in_log_app.
  - by rewrite take_app_le.
Qed.

(** What handling a message may do to a follower. *)
Record fol_step (LL : list LogEntry) (f f' : FollowerNode) : Prop := {
  fs_ok : fol_ok LL f';
  fs_holds : ∀ e, in_log LL e → holds f e → holds f' e;
  fs_id : f_id f' = f_id f;
  fs_leader : f_leaderID f' = f_leaderID f;
}.

Lemma fol_step_refl LL f : fol_ok LL f → fol_step LL f f.
Proof. by split. Qed.

Lemma fol_step_trans LL f1 f2 f3 : fol_step LL f1 f2 → fol_step LL f2 f3 → fol_step LL f1 f3.
Proof. intros [] []. split; [done|eauto|congruence|congruence]. Qed.

Lemma buffer_one_spec LL f e : fol_ok LL f → in_log LL e →
  fol_step LL f (buffer_one f e) ∧ holds (buffer_one f e) e ∧ applied (buffer_one f e) = applied f.
Proof.
  intros Hok He. unfold buffer_one. destruct (Nat.leb_spec (le_Index e) (applied f)) as [Hle|Hlt].
  { split_and!; [by apply fol_step_refl|by left|done]. }
  split_and!; [|right; simpl; by rewrite lookup_insert_eq|done]. destruct Hok as [Hl Hn Hp Hs]. split; try done.
  - split; try done. simpl. intros i e' [[<- <-] | [Hne Hi]]%lookup_insert_Some; [done|by apply Hp].
  - intros e' [H1 H2] [Hh|Hh]; [by left|right]. simpl. destruct (decide (le_Index e = le_Index e')) as [E|E].
    + rewrite E, lookup_insert_eq. f_equal. destruct He as [_ He]. rewrite E in He. congruence.
    + by rewrite lookup_insert_ne.
Qed.

Lemma buffer_spec LL es : ∀ f, fol_ok LL f → (∀ e, e ∈ es → in_log LL e) →
  fol_step LL f (foldl buffer_one f es) ∧ (∀ e, e ∈ es → holds (foldl buffer_one f es) e) ∧
  applied (foldl buffer_one f es) = applied f.
Proof.
  induction es as [|e es IH]; intros f Hok Hes; simpl.
  { split_and!; [by apply fol_step_refl|by intros e ?%elem_of_nil|done]. }
  destruct (buffer_one_spec LL f e Hok (Hes e ltac:(left))) as (H1 & H2 & H3).
  destruct (IH (buffer_one f e) (fs_ok _ _ _ H1)) as (H4 & H5 & H6); [intros x Hx; apply Hes; by right|].
  split_and!; [by eapply fol_step_trans| |congruence]. intros x [-> | Hx]%elem_of_cons; [|by apply H5].
  apply (fs_holds _ _ _ H4); [apply Hes; left|done].
Qed.

(** The follower after one round of [apply_loop]. *)
Definition applied_one (f : FollowerNode) (now : Z) (e : LogEntry) : FollowerNode :=
  let n := applyOne f now e in
  MkFollower (f_base n) (f_leaderID n) (f_mono n) (applied f + 1) (delete (applied f + 1) (pending n)) (leaderIndex n).

Lemma applyOne_base f now e : let f' := applyOne f now e in
  f_log f' = Log.SetCommitIndex (Log.Append (f_log f) e).2 (le_Index e) ∧
  f_store f' = Store.Set_ (f_store f) (kv_applied e) ∧ f_id f' = f_id f ∧ f_leaderID f' = f_leaderID f ∧
  pending f' = pending f ∧ Node.state (f_base f') = Node.state (f_base f).
Proof. unfold applyOne, Node.HLCUpdate. by destruct (HLC.Update _ _ _). Qed.

Lemma applied_one_spec LL f now e : fol_ok LL f → pending f !! (applied f + 1) = Some e →
  fol_step LL f (applied_one f now e).
Proof.
  intros [Hl Hn Hp Hs] He. destruct (Hp _ _ He) as (Hi & Hlt & Hpos & Hin).
  destruct (applyOne_base f now e) as (El & Es & Eid & Eld & Ep & _).
  assert (Hin' : LL !! applied f = Some e) by (by replace (applied f) with (le_Index e - 1) by lia).
  assert (Ht : take (applied f + 1) LL = take (applied f) LL ++ [e]) by (rewrite Nat.add_1_r; by apply take_S_r).
  unfold applied_one. split; cbn [applied pending f_id f_leaderID f_base]; [split; cbn [applied pending]|..|done].
  - unfold f_log at 1. cbn [f_base]. change (Node.log (f_base (applyOne f now e))) with (f_log (applyOne f now e)).
    unfold f_log at 2. cbn [f_base]. change (Node.log (f_base (applyOne f now e))) with (f_log (applyOne f now e)).
    rewrite El, Hl, Ht. unfold Log.Append. cbn [Log.nextIndex Log.entries Log.commitIndex snd].
    assert (Hw : Log.with_index (S (applied f)) e = e) by (unfold Log.with_index; destruct e; simpl in *; f_equal; lia).
    rewrite Hw. unfold Log.SetCommitIndex. cbn [Log.commitIndex]. rewrite Nat.add_1_r. by case_match.
  - apply lookup_lt_Some in Hin'. lia.
  - rewrite Ep. intros i e' [Hne Hi']%lookup_delete_Some. destruct (Hp i e' Hi') as (? & ? & ?). split_and!; [done|lia|done].
  - unfold f_store at 1. cbn [f_base]. change (Node.store (f_base (applyOne f now e))) with (f_store (applyOne f now e)).
    by rewrite Es, Hs, Ht, replay_snoc.
  - intros e' [Hpos' Hin''] [Hh|Hh]; [left; cbn [applied]; lia|]. rewrite Ep.
    destruct (decide (le_Index e' = applied f + 1)) as [E|E]; [left; cbn [applied]; lia|].
    right. cbn [pending]. by rewrite lookup_delete_ne.
  - apply Eid.
Qed.

Lemma apply_loop_unfold fuel f now : apply_loop (S fuel) f now =
  match pending f !! (applied f + 1) with None => f | Some e => apply_loop fuel (applied_one f now e) now end.
Proof. done. Qed.

Lemma apply_loop_spec LL now fuel : ∀ f, size (pending f) < fuel → fol_ok LL f →
  fol_step LL f (apply_loop fuel f now) ∧
  pending (apply_loop fuel f now) !! (applied (apply_loop fuel f now) + 1) = None ∧
  applied f ≤ applied (apply_loop fuel f now) ∧
  Node.state (f_base (apply_loop fuel f now)) = Node.state (f_base f).
Proof.
  induction fuel as [|fuel IH]; intros f Hf Hok; [lia|]. rewrite apply_loop_unfold.
  destruct (pending f !! (applied f + 1)) as [e|] eqn:He; [|split_and!; [by apply fol_step_refl|done|done|done]].
  pose proof (applied_one_spec LL f now e Hok He) as H1.
  destruct (applyOne_base f now e) as (_ & _ & _ & _ & Ep & Est).
  assert (Hsz : S (size (pending (applied_one f now e))) = size (pending f)).
  { unfold applied_one. cbn [pending]. rewrite Ep, map_size_delete, He. simpl.
    assert (size (pending f) ≠ 0) by (intros Hz%map_size_empty_inv; by rewrite Hz, lookup_empty in He). lia. }
  destruct (IH (applied_one f now e)) as (H2 & H3 & H4 & H5); [lia|by apply H1|].
  assert (applied (applied_one f now e) = applied f + 1) by done.
  split_and!; [by eapply fol_step_trans|done|lia|]. rewrite H5. exact Est.
Qed.

Lemma applyEntries_spec LL f now m : fol_ok LL f → (∀ e, e ∈ m_Entries m → in_log LL e) →
  let '(f', ms, lag) := applyEntries f now m in
  fol_step LL f f' ∧ (∀ e, e ∈ m_Entries m → holds f' e) ∧ pending f' !! (applied f' + 1) = None ∧
  ms = MkMessage MsgAppendAck 0 (f_id f) (f_leaderID f) [] None (m_SeqNo m) None None "" "" [] 0 "" 0 0 0 false 0 0 0 false None false ""
       :: (if size (pending f') =? 0 then [] else [requestSync f' (applied f' + 1)]) ∧
  lag = leaderIndex f' - applied f'.
Proof.
  intros Hok Hes. unfold applyEntries.
  destruct (buffer_spec LL (m_Entries m) f Hok Hes) as (H1 & H2 & H3).
  set (f1 := foldl buffer_one f (m_Entries m)) in *.
  destruct (apply_loop_spec LL now (S (size (pending f1))) f1) as (H4 & H5 & H6 & _); [lia|by apply H1|].
  set (f2 := apply_loop _ f1 now) in *. pose proof (fol_step_trans _ _ _ _ H1 H4) as H7.
  cbn [applied pending leaderIndex].
  assert (Hst : fol_step LL f2 (MkFollower (f_base f2) (f_leaderID f2) (f_mono f2) (applied f2) (pending f2)
    (if leaderIndex f2 <? m_AckIndex m then m_AckIndex m else leaderIndex f2))).
  { destruct (fs_ok _ _ _ H4) as [Hl Hn Hp Hs]. by split. }
  split_and!; [by eapply fol_step_trans| |done| |done].
  - intros e He. apply (fs_holds _ _ _ H4 e (Hes e He)), H2, He.
  - unfold f_id at 1. cbn [f_base f_leaderID]. change (Node.id (f_base f2)) with (f_id f2).
    rewrite (fs_id _ _ _ H7), (fs_leader _ _ _ H7). by destruct (size (pending f2) =? 0).
Qed.

(** *** The cluster invariant *)

Abbreviation LL y := (log_of (ldr y)).
Abbreviation is_ae m := (m_Type m = MsgAppendEntries).

(** Follower [p] has, applied or buffered, everything broadcast under sequence number [s]. *)
Definition has_seq (y : Sys) (p : string) (s : nat) : Prop :=
  ∃ f, fols y !! p = Some f ∧
    ∀ m e, m ∈ sent y → is_ae m → m_SeqNo m = s → e ∈ m_Entries m → holds f e.

(** What a successful wait promises. *)
Definition outcome (y : Sys) (s : nat) (w : Waiter) : Prop :=
  match w_mode w with
  | ModeSync => ∀ p, p ∈ w_peers w → has_seq y p s
  | ModeSemiSync => w_peers w = [] ∨ ∃ p, p ∈ w_peers w ∧ has_seq y p s
  | ModeAsync => True
  end.

(** Logged operations that have yet to reach the store. *)
Definition opens (y : Sys) : list LogEntry := flat (λ call, option_list (c_logged call)) (calls y).

Record writes_ok (y : Sys) : Prop := {
  wo_calls c call e : calls y !! c = Some call → e ∈ c_done call ∨ c_logged call = Some e → in_log (LL y) e;
  wo_origin c call e : calls y !! c = Some call → c_stamped call = Some e ∨ c_logged call = Some e → le_OriginID e = l_id (ldr y);
  wo_store : store_eqv (l_store (ldr y)) (replay (stored y));
  wo_once : stored y ++ opens y ≡ₚ LL y;
}.

Lemma writes_same y y' : calls y' = calls y → stored y' = stored y → l_store (ldr y') = l_store (ldr y) → LL y' = LL y →
  l_id (ldr y') = l_id (ldr y) → writes_ok y → writes_ok y'.
Proof. intros Hc Hs Hst Hl Hid [H1 H2 H3 H4]. split; unfold opens; rewrite ?Hc, ?Hs, ?Hst, ?Hl, ?Hid; done. Qed.

Record inv (y : Sys) : Prop := {
  i_ldr : leader_ok (ldr y);
  i_fols k f : fols y !! k = Some f → f_id f = k ∧ fol_ok (LL y) f;
  i_types m : m ∈ sent y → is_ae m ∨ m_Type m = MsgAppendAck ∨ m_Type m = MsgSync;
  i_ae m : m ∈ sent y → is_ae m → m_SeqNo m ≤ seqNo (ldr y) ∧ ∀ e, e ∈ m_Entries m → in_log (LL y) e;
  i_writes : writes_ok y;
  i_same m m' : m ∈ sent y → m' ∈ sent y → is_ae m → is_ae m' → 0 < m_SeqNo m → m_SeqNo m' = m_SeqNo m →
    m_Entries m' = m_Entries m;
  i_acks m : m ∈ sent y → m_Type m = MsgAppendAck → 0 < m_AckIndex m →
    m_AckIndex m ≤ seqNo (ldr y) ∧ has_seq y (m_SenderID m) (m_AckIndex m) ∧
    ∃ m', m' ∈ sent y ∧ is_ae m' ∧ m_SeqNo m' = m_AckIndex m ∧ m_TargetID m' = m_SenderID m;
  i_wait s w : ackChs (ldr y) !! s = Some w → 0 < s ∧ s ≤ seqNo (ldr y) ∧ NoDup (w_peers w) ∧
    (∀ m, m ∈ sent y → is_ae m → m_SeqNo m = s → m_TargetID m ∈ w_peers w) ∧
    ∀ p, p ∈ w_received w → p ∈ w_peers w ∧ has_seq y p s;
  i_done s w : (s, w, true) ∈ finished y → 0 < s ∧ s ≤ seqNo (ldr y) ∧ outcome y s w;
}.

(** A later state of the cluster: nothing broadcast earlier is forgotten or added to. *)
Record later (y y' : Sys) : Prop := {
  la_fols p f : fols y !! p = Some f → ∃ f', fols y' !! p = Some f' ∧ ∀ e, in_log (LL y) e → holds f e → holds f' e;
  la_sent m : m ∈ sent y' → is_ae m → 0 < m_SeqNo m → m_SeqNo m ≤ seqNo (ldr y) → m ∈ sent y;
}.

Lemma has_seq_later y y' p s : inv y → later y y' → 0 < s → s ≤ seqNo (ldr y) → has_seq y p s → has_seq y' p s.
Proof.
  intros Hi [Hf Hs] H0 H1 (f & Hp & Hh). destruct (Hf p f Hp) as (f' & Hp' & Hh'). exists f'. split; [done|].
  intros m e Hm Hae Hseq He. assert (Hm' : m ∈ sent y) by (apply Hs; [done|done|lia|lia]).
  apply Hh'; [by eapply (i_ae y Hi)|]. by eapply Hh.
Qed.

Lemma outcome_later y y' s w : inv y → later y y' → 0 < s → s ≤ seqNo (ldr y) → outcome y s w → outcome y' s w.
Proof.
  intros Hi Hl H0 H1. unfold outcome. destruct (w_mode w); [done| |].
  - intros H p Hp. eapply has_seq_later; eauto.
  - intros [? | (p & Hp & H)]; [by left|right]. exists p. split; [done|]. eapply has_seq_later; eauto.
Qed.

(** The parts of the invariant about waits and acknowledgements carry over to a later state with the
    same waiters and no new broadcasts or acknowledgements. *)
Lemma inv_carry y y' :
  inv y → later y y' → leader_ok (ldr y') →
  (∀ k f, fols y' !! k = Some f → f_id f = k ∧ fol_ok (LL y') f) →
  (∀ e, in_log (LL y) e → in_log (LL y') e) → seqNo (ldr y') = seqNo (ldr y) →
  writes_ok y' →
  (∀ m, m ∈ sent y' → m ∈ sent y ∨ m_Type m = MsgSync ∨
     is_ae m ∧ m_SeqNo m = 0 ∧ (∀ e, e ∈ m_Entries m → in_log (LL y') e) ∨
     m_Type m = MsgAppendAck ∧ (0 < m_AckIndex m → has_seq y' (m_SenderID m) (m_AckIndex m) ∧
       ∃ m', m' ∈ sent y ∧ is_ae m' ∧ m_SeqNo m' = m_AckIndex m ∧ m_TargetID m' = m_SenderID m)) →
  (∀ m, m ∈ sent y → m ∈ sent y') →
  (∀ s w, ackChs (ldr y') !! s = Some w → ∃ w', ackChs (ldr y) !! s = Some w' ∧ w_peers w = w_peers w' ∧
     ∀ p, p ∈ w_received w → p ∈ w_received w' ∨ p ∈ w_peers w' ∧ has_seq y p s) →
  (∀ s w, (s, w, true) ∈ finished y' → (s, w, true) ∈ finished y ∨ 0 < s ∧ s ≤ seqNo (ldr y) ∧ outcome y s w) →
  inv y'.
Proof.
  intros Hi Hl Hlo Hfo Hlog Hq Hba Hse Hse' Hwa Hfi.
  assert (Hae : ∀ m, m ∈ sent y' → is_ae m → m ∈ sent y ∨ m_SeqNo m = 0 ∧ ∀ e, e ∈ m_Entries m → in_log (LL y') e).
  { intros m Hm Ht. destruct (Hse m Hm) as [? | [Ht' | [(_ & H0 & H1) | [Ht' _]]]]; [by left|congruence|by right|congruence]. }
  split; try done.
  - intros m Hm. destruct (Hse m Hm) as [Hm' | [Ht | [(Ht & _) | [Ht _]]]]; [by apply (i_types y Hi)|auto..].
  - intros m Hm Ht. destruct (Hae m Hm Ht) as [Hm' | [-> H1]]; [|split; [lia|done]].
    destruct (i_ae y Hi m Hm' Ht) as [H1 H2]. split; [lia|]. intros e He. by apply Hlog, H2.
  - intros m m' Hm Hm' Ht Ht' H0 Heq. destruct (Hae m Hm Ht) as [Hm1 | [? _]]; [|lia].
    destruct (Hae m' Hm' Ht') as [Hm2 | [? _]]; [|lia]. by eapply (i_same y Hi).
  - intros m Hm Ht H0. rewrite Hq. destruct (Hse m Hm) as [Hm1 | [Ht' | [(Ht' & _) | [_ Ha]]]]; [|congruence|congruence|].
    + destruct (i_acks y Hi m Hm1 Ht H0) as (H1 & H2 & m' & Hm' & H3 & H4 & H5).
      split_and!; [done|by eapply has_seq_later|]. exists m'. split; [by apply Hse'|done].
    + destruct (Ha H0) as (H2 & m' & Hm' & H3 & H4 & H5). split_and!; [|done|].
      * rewrite <-H4. by apply (i_ae y Hi).
      * exists m'. split; [by apply Hse'|done].
  - intros s w Hw. destruct (Hwa s w Hw) as (w' & Hw' & Hpe & Hre). rewrite Hq, Hpe.
    destruct (i_wait y Hi s w' Hw') as (H0 & H1 & H2 & H3 & H4). split_and!; [done|done|done| |].
    + intros m Hm Ht Hs. destruct (Hae m Hm Ht) as [Hm1 | [? _]]; [by apply H3|lia].
    + intros p Hp. destruct (Hre p Hp) as [Hp' | [Hp1 Hp2]].
      * destruct (H4 p Hp') as [H5 H6]. split; [done|]. by eapply has_seq_later.
      * split; [done|]. by eapply has_seq_later.
  - intros s w Hd. rewrite Hq. destruct (Hfi s w Hd) as [Hd' | (H0 & H1 & H2)].
    + destruct (i_done y Hi s w Hd') as (H0 & H1 & H2). split_and!; [done|done|]. by eapply outcome_later.
    + split_and!; [done|done|]. by eapply outcome_later.
Qed.

Lemma later_leader y y' : fols y' = fols y →
  (∀ m, m ∈ sent y' → m ∈ sent y ∨ is_ae m → m ∈ sent y ∨ m_SeqNo m = 0 ∨ seqNo (ldr y) < m_SeqNo m) → later y y'.
Proof.
  intros Hf Hs. split.
  - intros p f Hp. exists f. by rewrite Hf.
  - intros m Hm Hae H0 H1. destruct (Hs m Hm) as [? | [? | ?]]; [by right|done|lia|lia].
Qed.

(** A call moves on without a broadcast. *)
Lemma inv_call y y' : inv y → fols y' = fols y → sent y' = sent y → finished y' = finished y →
  leader_ok (ldr y') → (∃ es, LL y' = LL y ++ es) → seqNo (ldr y') = seqNo (ldr y) → ackChs (ldr y') = ackChs (ldr y) →
  writes_ok y' → inv y'.
Proof.
  intros Hi Hf Hs Hd Hok [es Hl] Hq Ha Hw.
  apply (inv_carry y); try done.
  - apply later_leader; [done|]. rewrite Hs. auto.
  - rewrite Hf. intros k f Hk. destruct (i_fols y Hi k f Hk) as [H1 H2]. split; [done|]. rewrite Hl. by apply fol_ok_app.
  - intros e He. rewrite Hl. by apply in_log_app.
  - rewrite Hs. auto.
  - by rewrite Hs.
  - rewrite Ha. intros s w Hs'. exists w. auto.
  - rewrite Hd. auto.
Qed.

(** Broadcasting logged entries under a fresh sequence number. *)
Lemma inv_replicate y es ai cs : inv y → (∀ e, e ∈ es → in_log (LL y) e) →
  writes_ok (MkSys (ldr y) (fols y) (sent y) cs (stored y) (finished y)) →
  let '(_, n, ms) := replicate (ldr y) es ai in
  inv (MkSys n (fols y) (sent y ++ ms) cs (stored y) (finished y)).
Proof.
  intros Hi Hes Hcs. unfold replicate. set (m0 := MkMessage _ _ _ _ es _ _ _ _ _ _ _ _ _ _ _ _ _ _ _ _ _ _ _ _).
  set (q := seqNo (ldr y)). set (n := MkLeader _ _ _ _ _ _ _).
  set (y' := MkSys n (fols y) (sent y ++ broadcast m0 (Node.GetPeers (base (ldr y)))) cs (stored y) (finished y)).
  assert (Hms : ∀ m, m ∈ sent y' → m ∈ sent y ∨ is_ae m ∧ m_SeqNo m = S q ∧ m_Entries m = es ∧ m_TargetID m ∈ Node.peers (base (ldr y))).
  { intros m [Hm | Hm]%elem_of_app; [by left|right]. apply list_elem_of_fmap in Hm as (p & -> & Hp). done. }
  assert (Hold : ∀ m, m ∈ sent y → is_ae m → m_SeqNo m ≤ q) by (intros m Hm Ht; by apply (i_ae y Hi)).
  assert (Hla : later y y').
  { apply later_leader; [done|]. intros m Hm _. destruct (Hms m Hm) as [? | (_ & -> & _)]; [by left|right; right; unfold q; lia]. }
  assert (Hlen : seqNo (ldr y') = S q) by done. assert (HLL : LL y' = LL y) by done.
  split; rewrite ?Hlen, ?HLL.
  - destruct (i_ldr y Hi). by split.
  - apply (i_fols y Hi).
  - intros m Hm. destruct (Hms m Hm) as [? | [? _]]; [by apply (i_types y Hi)|by left].
  - intros m Hm Ht. destruct (Hms m Hm) as [Hm' | (_ & -> & -> & _)]; [|done].
    destruct (i_ae y Hi m Hm' Ht). split; [unfold q; lia|done].
  - by eapply writes_same; [..|exact Hcs].
  - intros m m' Hm Hm' Ht Ht' H0 Heq. destruct (Hms m Hm) as [H1 | (_ & E1 & -> & _)], (Hms m' Hm') as [H2 | (_ & E2 & -> & _)].
    + by eapply (i_same y Hi).
    + specialize (Hold m H1 Ht). lia.
    + specialize (Hold m' H2 Ht'). lia.
    + done.
  - intros m Hm Ht H0. destruct (Hms m Hm) as [Hm1 | [? _]]; [|congruence].
    destruct (i_acks y Hi m Hm1 Ht H0) as (H1 & H2 & m' & Hm' & H3).
    split_and!; [unfold q; lia|by eapply has_seq_later|]. exists m'. split; [by apply elem_of_app; left|done].
  - intros s w Hw. assert (Hw' : ackChs (ldr y) !! s = Some w ∨ s = S q ∧ w_peers w = Node.peers (base (ldr y)) ∧ w_received w = ∅).
    { simpl in Hw. destruct (mode (ldr y)); [by left|..];
        (apply lookup_insert_Some in Hw as [[<- <-] | [_ Hw]]; [by right|by left]). }
    destruct Hw' as [Hw' | (-> & -> & ->)].
    + destruct (i_wait y Hi s w Hw') as (H0 & H1 & H2 & H3 & H4). split_and!; [done|unfold q; lia|done| |].
      * intros m Hm Ht Hs. destruct (Hms m Hm) as [Hm1 | (_ & E & _)]; [by apply H3|unfold q in E; lia].
      * intros p Hp. destruct (H4 p Hp). split; [done|]. by eapply has_seq_later.
    + split_and!; [lia|lia|apply (i_ldr y Hi)| |set_solver].
      intros m Hm Ht Hs. destruct (Hms m Hm) as [Hm1 | (_ & _ & _ & ?)]; [|done]. specialize (Hold m Hm1 Ht). lia.
  - intros s w Hd. destruct (i_done y Hi s w Hd) as (H0 & H1 & H2). split_and!; [done|unfold q; lia|]. by eapply outcome_later.
Qed.

(** Changes of the leader that touch neither its log nor its waiters, and harmless messages. *)
Lemma inv_ldr y n ms : inv y → leader_ok n → log_of n = LL y → seqNo n = seqNo (ldr y) → ackChs n = ackChs (ldr y) →
  l_id n = l_id (ldr y) → l_store n = l_store (ldr y) →
  (∀ m, m ∈ ms → is_ae m ∧ m_SeqNo m = 0 ∧ ∀ e, e ∈ m_Entries m → in_log (LL y) e) →
  inv (set_ldr y n ms).
Proof.
  intros Hi Hok Hl Hq Ha Hid Hst Hms.
  assert (Hse : ∀ m, m ∈ sent y ++ ms → m ∈ sent y ∨ is_ae m ∧ m_SeqNo m = 0 ∧ ∀ e, e ∈ m_Entries m → in_log (LL y) e).
  { intros m [Hm | Hm]%elem_of_app; [by left|right; by apply Hms]. }
  apply (inv_carry y); simpl; rewrite ?Hl; try done; eauto.
  - apply later_leader; [done|]. intros m Hm _. destruct (Hse m Hm) as [? | (_ & ? & _)]; auto.
  - apply (i_fols y Hi).
  - by eapply writes_same; [..|apply (i_writes y Hi)].
  - intros m Hm. destruct (Hse m Hm) as [? | ?]; auto.
  - intros m Hm. apply elem_of_app. by left.
  - rewrite Ha. intros s w Hw. exists w. eauto.
Qed.

Lemma leader_ok_acks n a : leader_ok n → leader_ok (with_acks n a).
Proof. intros []. by split. Qed.

(** An acknowledgement reaches its waiter. *)
Lemma inv_ack y m w : inv y → m ∈ sent y → m_Type m = MsgAppendAck → ackChs (ldr y) !! m_AckIndex m = Some w →
  inv (set_ldr y (with_acks (ldr y) (<[m_AckIndex m := MkWaiter (w_mode w) (w_peers w) ({[ m_SenderID m ]} ∪ w_received w)]> (ackChs (ldr y)))) []).
Proof.
  intros Hi Hm Ht Hw. destruct (i_wait y Hi _ w Hw) as (H0 & H1 & H2 & H3 & H4).
  destruct (i_acks y Hi m Hm Ht H0) as (_ & Hhas & m' & Hm' & Hae & Hs & Htg).
  apply (inv_carry y); simpl; rewrite ?app_nil_r; try done; eauto using leader_ok_acks, i_ldr.
  - by apply later_leader; simpl; rewrite ?app_nil_r; auto.
  - apply (i_fols y Hi).
  - by eapply writes_same; [..|apply (i_writes y Hi)].
  - intros s x [[<- <-] | [_ Hx]]%lookup_insert_Some; [|exists x; eauto].
    exists w. split_and!; [done|done|]. intros p [->%elem_of_singleton | Hp]%elem_of_union; [right|by left].
    split; [|done]. rewrite <-Htg. by apply H3.
Qed.

(** A wait ends. *)
Lemma await_outcome y s w : inv y → ackChs (ldr y) !! s = Some w → await_ok w = true → outcome y s w.
Proof.
  intros Hi Hw Hok. destruct (i_wait y Hi s w Hw) as (H0 & H1 & H2 & H3 & H4). unfold outcome, await_ok in *.
  destruct (w_mode w); [done| |].
  - apply negb_true_iff, Nat.ltb_ge in Hok.
    assert (Heq : w_received w = list_to_set (w_peers w)).
    { apply set_subseteq_size_eq; [|by rewrite size_list_to_set].
      intros p Hp. apply elem_of_list_to_set. by apply H4. }
    intros p Hp. apply H4. rewrite Heq. by apply elem_of_list_to_set.
  - apply orb_true_iff in Hok as [Hz%Nat.eqb_eq%nil_length_inv | Hne]; [by left|right].
    apply negb_true_iff, Nat.eqb_neq in Hne. destruct (set_choose_or_empty (w_received w)) as [[p Hp]|He].
    + exists p. by apply H4.
    + by rewrite He, size_empty in Hne.
Qed.

Lemma inv_await y s w : inv y → ackChs (ldr y) !! s = Some w →
  inv (MkSys (with_acks (ldr y) (delete s (ackChs (ldr y)))) (fols y) (sent y) (calls y) (stored y) (finished y ++ [(s, w, await_ok w)])).
Proof.
  intros Hi Hw. apply (inv_carry y); simpl; try done; eauto using leader_ok_acks, i_ldr.
  - by apply later_leader; auto.
  - apply (i_fols y Hi).
  - by eapply writes_same; [..|apply (i_writes y Hi)].
  - intros t x [_ Hx]%lookup_delete_Some. exists x. eauto.
  - intros t x [Hd | [= -> -> Hok]%list_elem_of_singleton]%elem_of_app; [by left|right].
    destruct (i_wait y Hi s w Hw) as (H0 & H1 & _). split_and!; [done|done|]. by apply await_outcome.
Qed.

(** A follower moves. *)
Lemma inv_fol y k f f' ms : inv y → fols y !! k = Some f → fol_step (LL y) f f' →
  (∀ m, m ∈ ms → m_Type m = MsgSync ∨
     m_Type m = MsgAppendAck ∧ m_SenderID m = k ∧ ∃ m', m' ∈ sent y ∧ is_ae m' ∧ m_SeqNo m' = m_AckIndex m ∧
       m_TargetID m' = k ∧ ∀ e, e ∈ m_Entries m' → holds f' e) →
  inv (set_fol y k f' ms).
Proof.
  intros Hi Hf Hst Hms.
  assert (Hf' : ∀ p x, <[k := f']> (fols y) !! p = Some x → f_id x = p ∧ fol_ok (LL y) x).
  { intros p x [[<- <-] | [_ Hx]]%lookup_insert_Some; [|by apply (i_fols y Hi)].
    split; [|apply Hst]. rewrite (fs_id _ _ _ Hst). by apply (i_fols y Hi). }
  apply (inv_carry y); simpl; try done; eauto using i_ldr.
  - split; simpl.
    + intros p x Hp. destruct (decide (k = p)) as [<-|]; [|exists x; by rewrite lookup_insert_ne].
      exists f'. rewrite lookup_insert_eq. split; [done|]. assert (x = f) as -> by congruence. apply Hst.
    + intros m [Hm | Hm]%elem_of_app Hae; [done|]. destruct (Hms m Hm) as [? | [? _]]; congruence.
  - by eapply writes_same; [..|apply (i_writes y Hi)].
  - intros m [Hm | Hm]%elem_of_app; [by left|right]. destruct (Hms m Hm) as [? | (Ht & Hsd & m' & Hm' & Hae & Hs & Htg & Hh)]; [by left|].
    right; right. split; [done|]. intros H0. rewrite Hsd. split; [|by exists m'].
    exists f'. simpl. split; [by rewrite lookup_insert_eq|]. intros x e [Hx | Hx]%elem_of_app Haex Hsx He.
    + apply Hh. rewrite <-(i_same y Hi m' x); try done; lia.
    + destruct (Hms x Hx) as [? | [? _]]; congruence.
  - intros m Hm. apply elem_of_app. by left.
Qed.

Lemma inv_fol_recv y k f now m : inv y → fols y !! k = Some f → m ∈ sent y → m_TargetID m = k →
  let '(f', ms) := f_HandleMessage f now m in inv (set_fol y k f' ms).
Proof.
  intros Hi Hf Hm Ht. destruct (i_fols y Hi k f Hf) as [Hid Hok]. unfold f_HandleMessage.
  assert (Hnop : inv (set_fol y k f [])).
  { eapply inv_fol; [done|done|by apply fol_step_refl|by intros ? ?%elem_of_nil]. }
  destruct (Node.isPaused (f_base f)); [done|].
  destruct (i_types y Hi m Hm) as [Hty | [Hty | Hty]]; rewrite Hty; [|done|done].
  pose proof (applyEntries_spec (LL y) f now m Hok (proj2 (i_ae y Hi m Hm Hty))) as Hap.
  destruct (applyEntries f now m) as [[f' ms] lag]. destruct Hap as (Hst & Hh & _ & -> & _).
  eapply inv_fol; [done|done|done|]. intros x [-> | Hx]%elem_of_cons; simpl.
  - right. split_and!; [done|done|]. exists m. done.
  - left. destruct (size (pending f') =? 0); [by apply elem_of_nil in Hx|]. by apply list_elem_of_singleton in Hx as ->.
Qed.

Lemma check_read_spec n e c : ∃ r, check_read n e c = Ok r ∧
  match r with inl _ => True | inr n' => same_log n n' ∧ l_store n' = l_store n ∧ mode n' = mode n end.
Proof.
  assert (Hv : ∀ m err, ∃ r, Consistency.check m c (Some e) err = Ok r).
  { intros m err. unfold Consistency.check. destruct (m !! c) as [keys|]; [|by eexists]. simpl.
    destruct (keys !! kv_Key e); by eexists. }
  destruct (Hv (Consistency.clientWrites (ryw n)) (Consistency.RYWViolation c)) as [r1 H1].
  destruct (Hv (Consistency.clientReads (mono n)) (Consistency.MonotonicReadViolation c)) as [r2 H2].
  unfold check_read. simpl. unfold Consistency.ryw_ValidateRead, Consistency.monotonic_ValidateRead. rewrite H1, Res_bind_Ok.
  destruct r1 as [r1|]; [by eexists|]. rewrite H2, Res_bind_Ok. destruct r2 as [r2|]; [by eexists|].
  unfold Consistency.monotonic_RecordRead. simpl. eexists; split; [done|]. by split_and!.
Qed.

Lemma isRead_spec n key c : ∃ r, Read n key c = Ok r ∧
  match r with inl _ => True | inr (_, n') => same_log n n' ∧ l_store n' = l_store n end.
Proof.
  unfold Read. destruct (Node.isPaused (base n)); [by eexists|].
  destruct (Store.Get (l_store n) key) as [e|]; [|by eexists].
  destruct (check_read_spec n e c) as (r & -> & Hr). rewrite Res_bind_Ok. eexists; split; [done|].
  destruct r; [done|]. by destruct Hr as (? & ? & _).
Qed.

Lemma inv_leader_recv y m : inv y → m ∈ sent y → ∃ r, HandleMessage (ldr y) m = Ok r ∧ inv (set_ldr y r.1 r.2).
Proof.
  intros Hi Hm.
  assert (Hnop : inv (set_ldr y (ldr y) [])).
  { apply inv_ldr; try done; [apply Hi|by intros ? ?%elem_of_nil]. }
  unfold HandleMessage. destruct (i_types y Hi m Hm) as [Ht | [Ht | Ht]]; rewrite Ht.
  - by exists (ldr y, []).
  - destruct (ackChs (ldr y) !! m_AckIndex m) as [w|] eqn:Hw; [|by exists (ldr y, [])].
    eexists; split; [done|]. by apply inv_ack.
  - destruct (i_ldr y Hi) as [Hwf Hs Hp]. rewrite (Log.GetFrom_spec _ _ Hwf), Res_bind_Ok.
    destruct (_ =? 0); [by exists (ldr y, [])|]. eexists; split; [done|].
    apply inv_ldr; try done. simpl. intros x ->%list_elem_of_singleton. simpl. split_and!; [done|done|].
    intros e [j Hj]%list_elem_of_lookup. rewrite lookup_drop in Hj.
    assert (Hidx : le_Index e = S (m_AckIndex m - 1 - Log.snapshotIndex (l_log (ldr y)) + j)).
    { destruct Hwf as [_ Hc]. rewrite (Hc _ _ Hj). lia. }
    split; [lia|]. rewrite Hidx. simpl. rewrite Nat.sub_0_r. exact Hj.
Qed.

(** A change of a node's state or clock keeps everything the invariant speaks of. *)
Lemma inv_ldr_base y b : inv y → Node.log b = Node.log (base (ldr y)) → Node.store b = Node.store (base (ldr y)) →
  Node.peers b = Node.peers (base (ldr y)) → Node.id b = Node.id (base (ldr y)) → inv (set_ldr y (with_base (ldr y) b) []).
Proof.
  intros Hi Hl Hs Hp Hid. apply inv_ldr; try done; [|unfold log_of, l_log; simpl; by rewrite Hl|by intros ? ?%elem_of_nil].
  destruct (i_ldr y Hi) as [H1 H2 H3]. split; unfold l_log; simpl; by rewrite ?Hl, ?Hp.
Qed.

Lemma inv_fol_base y k f b : inv y → fols y !! k = Some f → Node.id b = Node.id (f_base f) →
  Node.log b = Node.log (f_base f) → Node.store b = Node.store (f_base f) → Node.leaderID b = Node.leaderID (f_base f) →
  inv (set_fol y k (f_with_base f b) []).
Proof.
  intros Hi Hf Hid Hl Hs Hld. eapply inv_fol; [done|done| |by intros ? ?%elem_of_nil].
  destruct (i_fols y Hi k f Hf) as [_ [H1 H2 H3 H4]].
  split; [split; unfold f_log, f_store in *; simpl; by rewrite ?Hl, ?Hs|done|done|done].
Qed.

(** The steps of a call. *)
Lemma inv_stamp y c now key value call : inv y → (∀ x, calls y !! c = Some x → c_logged x = None ∧ c_done x = c_done call) →
  (calls y !! c = None → c_done call = []) → ∀ op,
  let '(e, n) := stamp (ldr y) now key value op in inv (set_call y c n (MkCall (c_client call) (Some e) None (c_done call)) []).
Proof.
  intros Hi Hold Hnew op. pose proof (stamp_spec (ldr y) now key value op) as Hst.
  destruct (stamp (ldr y) now key value op) as [e n]. destruct Hst as (Hs & Hsto & Ho & _). pose proof Hs as [Hl _ Hq Ha Hid].
  destruct (i_writes y Hi) as [W1 W2 W3 W4].
  apply (inv_call y); simpl; try done.
  - by eapply same_log_ok; [|apply (i_ldr y Hi)].
  - exists []. unfold log_of. by rewrite Hl, app_nil_r.
  - split; simpl; unfold log_of in *; rewrite ?Hl, ?Hid, ?Hsto, ?app_nil_r; try done.
    + intros c' call' x [[<- <-] | [_ Hc]]%lookup_insert_Some Hx; [|by eapply W1].
      destruct Hx as [Hx|?]; [|done]. simpl in Hx. destruct (calls y !! c) as [x0|] eqn:E.
      * destruct (Hold x0 eq_refl) as [_ Hd]. eapply W1; [done|]. left. by rewrite Hd.
      * rewrite (Hnew eq_refl) in Hx. by apply elem_of_nil in Hx.
    + intros c' call' x [[<- <-] | [_ Hc]]%lookup_insert_Some Hx; [|by eapply W2].
      simpl in Hx. destruct Hx as [[= <-]|?]; [congruence|done].
    + rewrite <- W4. f_equiv. unfold opens; simpl. apply (flat_insert _ _ _ _ []). simpl.
      destruct (calls y !! c) as [x0|] eqn:E; [|done]. simpl. by rewrite (proj1 (Hold x0 eq_refl)).
Qed.

Lemma inv_append y c cl e es : inv y → calls y !! c = Some (MkCall cl (Some e) None es) →
  let '(e', n) := append (ldr y) e in inv (set_call y c n (MkCall cl None (Some e') es) []).
Proof.
  intros Hi Hc. pose proof (append_spec (ldr y) e (i_ldr y Hi)) as Ha. destruct (append (ldr y) e) as [e' n].
  destruct Ha as ([Hl Hin Hok Hst Hq Ha Hid] & Ho & _). destruct (i_writes y Hi) as [W1 W2 W3 W4].
  apply (inv_call y); simpl; try done; [by exists [e']|].
  split; simpl; rewrite ?Hst, ?Hid, ?app_nil_r; try done.
  - intros c' call' x [[<- <-] | [_ Hc']]%lookup_insert_Some Hx.
    + simpl in Hx. destruct Hx as [Hx|[= <-]]; [|done]. rewrite Hl. apply in_log_app. eapply W1; [exact Hc|by left].
    + rewrite Hl. apply in_log_app. by eapply W1.
  - intros c' call' x [[<- <-] | [_ Hc']]%lookup_insert_Some Hx; [|by eapply W2].
    simpl in Hx. destruct Hx as [?|[= <-]]; [done|]. rewrite Ho. eapply W2; [exact Hc|by left].
  - unfold opens; simpl. rewrite (flat_insert _ _ _ _ [e']) by by rewrite Hc.
    rewrite Hl, <- W4. unfold opens. solve_Permutation.
Qed.

Lemma inv_store y c cl e es n : inv y → calls y !! c = Some (MkCall cl None (Some e) es) → store_entry (ldr y) e cl = Ok n →
  inv (set_call y c n (MkCall cl None None (es ++ [e])) [e]).
Proof.
  intros Hi Hc He. destruct (store_entry_spec (ldr y) e cl) as (n' & He' & Hs & Hst). assert (n' = n) as -> by congruence.
  pose proof Hs as [Hl _ Hq Ha Hid]. destruct (i_writes y Hi) as [W1 W2 W3 W4].
  apply (inv_call y); simpl; try done; [by eapply same_log_ok; [|apply (i_ldr y Hi)]|exists []; unfold log_of; by rewrite Hl, app_nil_r|].
  split; simpl; unfold log_of in *; rewrite ?Hl, ?Hid; try done.
  - intros c' call' x [[<- <-] | [_ Hc']]%lookup_insert_Some Hx; [|by eapply W1].
    simpl in Hx. destruct Hx as [[Hx| ->%list_elem_of_singleton]%elem_of_app|?]; [|eapply W1; [exact Hc|by right]|done].
    eapply W1; [exact Hc|by left].
  - intros c' call' x [[<- <-] | [_ Hc']]%lookup_insert_Some Hx; [|by eapply W2]. simpl in Hx. by destruct Hx.
  - rewrite replay_snoc. apply Hst; [|done]. eapply W2; [exact Hc|by right].
  - rewrite <- W4. unfold opens; simpl. rewrite <- (app_assoc (stored y)). f_equiv. symmetry.
    rewrite <- (insert_id _ _ _ Hc) at 1. rewrite <- (insert_insert_eq _ c _ (MkCall cl None None (es ++ [e]))).
    apply (flat_insert _ _ _ _ [e]). by rewrite lookup_insert_eq.
Qed.

Lemma inv_send y c cl es ai : inv y → calls y !! c = Some (MkCall cl None None es) →
  let '(_, n, ms) := replicate (ldr y) es ai in inv (MkSys n (fols y) (sent y ++ ms) (delete c (calls y)) (stored y) (finished y)).
Proof.
  intros Hi Hc. destruct (i_writes y Hi) as [W1 W2 W3 W4]. apply inv_replicate; [done|intros e He; eapply W1; [exact Hc|by left]|].
  split; simpl; try done.
  - intros c' call' x [_ Hc']%lookup_delete_Some. by eapply W1.
  - intros c' call' x [_ Hc']%lookup_delete_Some. by eapply W2.
  - rewrite <- W4. f_equiv. unfold opens; simpl. by rewrite (flat_delete _ _ _ _ Hc).
Qed.

Lemma begin_op_spec y c op cl call : begin_op y c op cl = Some call →
  (∀ x, calls y !! c = Some x → c_logged x = None ∧ c_done x = c_done call) ∧ (calls y !! c = None → c_done call = []).
Proof.
  unfold begin_op. destruct (calls y !! c) as [[cl' [|] [|] es]|]; try done.
  - destruct op; [|done]. intros [= <-]. split; [|done]. by intros x [= <-].
  - destruct (Node.isPaused _); [done|]. by intros [= <-].
Qed.

(** Every action keeps the invariant and never panics. *)
Lemma sys_step_inv y a : inv y → ∃ y', sys_step y a = Ok y' ∧ inv y'.
Proof.
  intros Hi. pose proof (i_ldr y Hi) as Hlo. destruct a; cbn [sys_step].
  - eexists; split; [done|]. destruct (begin_op y c op clientID) as [call|] eqn:Hb; [|done].
    destruct (begin_op_spec _ _ _ _ _ Hb) as [H1 H2]. pose proof (inv_stamp y c now key value call Hi H1 H2 op) as Hr.
    by destruct (stamp (ldr y) now key value op).
  - eexists; split; [done|]. destruct (calls y !! c) as [[cl [e|] [|] es]|] eqn:Hc; try done.
    pose proof (inv_append y c cl e es Hi Hc) as Hr. by destruct (append (ldr y) e).
  - destruct (calls y !! c) as [[cl [|] [e|] es]|] eqn:Hc; try (by exists y).
    destruct (store_entry_spec (ldr y) e cl) as (n & He & _). rewrite He, Res_bind_Ok. eexists; split; [done|]. by apply inv_store.
  - eexists; split; [done|]. destruct (calls y !! c) as [[cl [|] [|] [|e es]]|] eqn:Hc; try done.
    pose proof (inv_send y c cl (e :: es) (default 0 (le_Index <$> last (e :: es))) Hi Hc) as Hr. by destruct (replicate _ _ _) as [[? ?] ?].
  - destruct (sent y !! i) as [m|] eqn:Hm; [|by exists y]. destruct (decide _); [|by exists y].
    destruct (inv_leader_recv y m Hi) as (r & -> & Hr); [by eapply list_elem_of_lookup_2|]. by exists (set_ldr y r.1 r.2).
  - destruct (fols y !! f) as [x|] eqn:Hf; [|by exists y]. destruct (sent y !! i) as [m|] eqn:Hm; [|by exists y].
    destruct (decide _) as [Ht|]; [|by exists y].
    pose proof (inv_fol_recv y f x now m Hi Hf (list_elem_of_lookup_2 _ _ _ Hm) Ht) as Hr.
    destruct (f_HandleMessage x now m) as [f' ms]. by eexists.
  - destruct (fols y !! f) as [x|] eqn:Hf; [|by exists y]. eexists; split; [done|].
    eapply inv_fol; [done|done|apply fol_step_refl; by eapply (i_fols y Hi)|]. unfold sync_tick.
    intros m. destruct (Node.isPaused _); [by intros ?%elem_of_nil|]. intros ->%list_elem_of_singleton. by left.
  - destruct (ackChs (ldr y) !! s) as [w|] eqn:Hw; [|by exists y]. unfold await_end. rewrite Hw.
    eexists; split; [done|]. by apply inv_await.
  - destruct (isRead_spec (ldr y) key clientID) as (r & -> & Hr). rewrite Res_bind_Ok.
    destruct r as [|[e n]]; [by exists y|]. eexists; split; [done|]. destruct Hr as [Hs Hst]. pose proof Hs as [Hl _ Hq Ha Hid].
    apply inv_ldr; try done; [by eapply same_log_ok|unfold log_of; by rewrite Hl|by intros ? ?%elem_of_nil].
  - destruct (check_read_spec (ldr y) entry clientID) as (r & -> & Hr). rewrite Res_bind_Ok.
    destruct r as [|n]; [by exists y|]. eexists; split; [done|]. destruct Hr as (Hs & Hst & _). pose proof Hs as [Hl _ Hq Ha Hid].
    apply inv_ldr; try done; [by eapply same_log_ok|unfold log_of; by rewrite Hl|by intros ? ?%elem_of_nil].
  - destruct (fols y !! f) as [x|] eqn:Hf; [|by exists y]. unfold f_Read.
    destruct (Node.isPaused _); [by exists y|]. destruct (Store.Get _ _) as [e|]; [|by exists y]. simpl.
    eexists; split; [done|]. eapply inv_fol; [done|done| |by intros ? ?%elem_of_nil].
    destruct (i_fols y Hi f x Hf) as [_ []]. by split.
  - eexists; split; [done|]. by apply inv_ldr_base.
  - destruct (fols y !! f) as [x|] eqn:Hf; [|by exists y]. eexists; split; [done|]. by apply inv_fol_base.
  - eexists; split; [done|]. by apply inv_ldr_base.
  - destruct (fols y !! f) as [x|] eqn:Hf; [|by exists y]. eexists; split; [done|]. by apply inv_fol_base.
  - eexists; split; [done|]. apply inv_ldr; try done; [destruct Hlo; by split|by intros ? ?%elem_of_nil].
  - eexists; split; [done|]. apply inv_ldr; try done; [|unfold Node.AddPeer; by case_match..|by intros ? ?%elem_of_nil].
    destruct Hlo as [H1 H2 H4]. unfold Node.AddPeer.
    pose proof (Node.AddPeer_NoDup (base (ldr y)) p H4) as H5. unfold Node.AddPeer in H5. case_match; by split.
  - eexists; split; [done|]. apply inv_ldr; try done; [|by intros ? ?%elem_of_nil].
    destruct Hlo as [H1 H2 H4]. split; try done. by apply Node.RemovePeer_NoDup.
Qed.

Lemma sys_run_app y acts acts' : sys_run y (acts ++ acts') = (y' ← sys_run y acts; sys_run y' acts').
Proof. revert y. induction acts as [|a acts IH]; intros y; [done|]. simpl. destruct (sys_step y a); [apply IH|done]. Qed.

Lemma sys_run_inv acts : ∀ y, inv y → ∃ y', sys_run y acts = Ok y' ∧ inv y'.
Proof.
  induction acts as [|a acts IH]; intros y Hi; cbn [sys_run]; [by exists y|].
  destruct (sys_step_inv y a Hi) as (y1 & -> & Hi1). rewrite Res_bind_Ok. by apply IH.
Qed.

Lemma sys_init_inv lid m fids : inv (sys_init lid m fids).
Proof.
  split; simpl; try (by intros ? ?%elem_of_nil); try (by intros ? ? ?%elem_of_nil).
  - by split; simpl; [apply Log.wf_New|..|constructor].
  - intros k f Hf. apply elem_of_list_to_map_2 in Hf. apply list_elem_of_fmap in Hf as (x & [= -> ->] & _).
    split; [done|]. by split.
  - split; simpl; [intros ? ? ?; by rewrite lookup_empty..|done|]. unfold opens, flat. simpl. by rewrite map_to_list_empty.
  - intros s w. by rewrite lookup_empty.
Qed.

Lemma reachable_inv lid m fids acts y : sys_run (sys_init lid m fids) acts = Ok y → inv y.
Proof.
  intros Hr. destruct (sys_run_inv acts _ (sys_init_inv lid m fids)) as (y' & Hr' & Hi). congruence.
Qed.

(** What a reader sees of an entry: all but the number each store gives it. *)
Definition shown (e : KVEntry) : KVEntry :=
  MkKVEntry (kv_Key e) (kv_Value e) (kv_VClock e) (kv_Timestamp e) (kv_NodeID e) (kv_Tombstone e) 0.

(** The operations on one key. *)
Definition on_key (key : string) (es : list LogEntry) : list LogEntry := filter (λ e, le_Key e = key) es.

Lemma replay_last es key : shown <$> Store.data (replay es) !! key = (λ e, shown (kv_applied e)) <$> last (on_key key es).
Proof.
  induction es as [|e es IH] using rev_ind; [done|]. rewrite replay_snoc. unfold on_key. rewrite filter_app. unfold Store.Set_; simpl.
  destruct (decide (le_Key e = key)) as [Hk|Hk].
  - rewrite Hk, lookup_insert_eq, filter_cons_True, filter_nil, last_snoc by done. simpl. unfold shown, kv_applied; simpl.
    rewrite Store.clone_clock. by subst key.
  - rewrite lookup_insert_ne, filter_cons_False, filter_nil, app_nil_r by done. exact IH.
Qed.

(** Replaying the operations of a key in the same order gives the same answer for it. *)
Lemma replay_on_key es es' key : on_key key es = on_key key es' →
  shown <$> Store.Get (replay es) key = shown <$> Store.Get (replay es') key.
Proof.
  intros He. pose proof (replay_last es key) as H1. pose proof (replay_last es' key) as H2. rewrite He, <- H2 in H1.
  unfold Store.Get. destruct (Store.data (replay es) !! key) as [e|], (Store.data (replay es') !! key) as [e'|]; try done.
  assert (Hs : shown e = shown e') by (simpl in H1; congruence). assert (Ht : kv_Tombstone e = kv_Tombstone e') by (unfold shown in Hs; congruence).
  rewrite Ht. destruct (kv_Tombstone e'); [done|]. simpl. by rewrite Hs.
Qed.

(** A follower that has applied the whole log agrees with the leader on every key whose operations
    reached the leader's store in the order of its log. *)
Lemma caught_up_agrees y f key : inv y → f_store f = replay (LL y) → on_key key (stored y) = on_key key (LL y) →
  shown <$> Store.Get (f_store f) key = shown <$> Store.Get (l_store (ldr y)) key.
Proof.
  intros Hi -> Ho. rewrite (proj2 (wo_store _ (i_writes y Hi))). symmetry. by apply replay_on_key.
Qed.

(** Deliver a list of messages to a follower, in order. *)
Definition deliver_all (f : FollowerNode) (now : Z) (ms : list Message) : FollowerNode :=
  foldl (λ f m, (f_HandleMessage f now m).1) f ms.

(** Nothing above the applied prefix is buffered once the next index is missing and all later ones are held. *)
Lemma all_held_applied LL f : fol_ok LL f → pending f !! (applied f + 1) = None →
  (∀ e, in_log LL e → applied f < le_Index e → holds f e) → (∀ i e, LL !! i = Some e → le_Index e = S i) →
  applied f = length LL.
Proof.
  intros [_ Hn _ _] Hp Hh Hc. destruct (decide (applied f = length LL)) as [|Hne]; [done|exfalso].
  destruct (lookup_lt_is_Some_2 LL (applied f)) as [e He]; [lia|]. pose proof (Hc _ _ He) as Hi.
  destruct (Hh e) as [Hx|Hx]; [split; [lia|by rewrite Hi; simpl; rewrite Nat.sub_0_r]|lia|lia|].
  rewrite Hi in Hx. by replace (S (applied f)) with (applied f + 1) in Hx by lia; congruence.
Qed.

Lemma log_index n i e : leader_ok n → log_of n !! i = Some e → le_Index e = S i.
Proof. intros [[_ Hc] Hs _] He. unfold log_of in He. rewrite (Hc _ _ He), Hs. lia. Qed.

End SingleLeader.

Import Message SingleLeader.

(** Single-leader replication is a prefix. In any cluster and after any interleaving of client calls,
    which themselves interleave, mode and membership changes, pauses and message deliveries, where
    messages may be lost, delayed, reordered and duplicated: no node panics; every logged operation
    reaches the leader's store once, and the store shows their replay in the order in which they did;
    every follower's log is exactly the first [applied] entries of the leader's log and its store their
    replay. A follower that has applied the whole log answers a read as the leader would, for every key
    whose operations reached the leader's store in the order of its log. *)
Theorem single_leader_prefix (lid : string) (m : ReplicationMode) (fids : list string) (acts : list action) :
  ∃ y, sys_run (sys_init lid m fids) acts = Ok y ∧
    store_eqv (l_store (ldr y)) (replay (stored y)) ∧ stored y ++ opens y ≡ₚ log_of (ldr y) ∧
    ∀ k f, fols y !! k = Some f →
      Log.entries (f_log f) = take (applied f) (log_of (ldr y)) ∧
      f_store f = replay (take (applied f) (log_of (ldr y))) ∧
      (applied f = length (log_of (ldr y)) → ∀ key, on_key key (stored y) = on_key key (log_of (ldr y)) →
       shown <$> Store.Get (f_store f) key = shown <$> Store.Get (l_store (ldr y)) key).
Proof.
  destruct (sys_run_inv acts _ (sys_init_inv lid m fids)) as (y & Hr & Hi). exists y.
  split_and!; [done|apply (i_writes y Hi)|apply (i_writes y Hi)|]. intros k f Hf.
  destruct (i_fols y Hi k f Hf) as [_ [Hl _ _ Hs]]. split_and!; [by rewrite Hl|done|].
  intros Ha key. apply caught_up_agrees; [done|]. by rewrite Hs, Ha, firstn_all.
Qed.

(** C12. Catch-up. In any reachable cluster, a running follower that asks the leader for everything from
    its next index, and gets the leader's reply delivered, ends with the leader's whole log applied,
    nothing buffered, the replay of the log as its store, and so the leader's answer for every key whose
    operations reached the leader's store in the order of the log. *)
Theorem follower_catches_up (lid : string) (m : ReplicationMode) (fids : list string) (acts : list action) (y : Sys)
  (k : string) (f : FollowerNode) (now : Z)
  (Hreach : sys_run (sys_init lid m fids) acts = Ok y) (Hf : fols y !! k = Some f)
  (Hon : Node.isPaused (f_base f) = false) :
  ∃ reply, HandleMessage (ldr y) (requestSync f (applied f + 1)) = Ok (ldr y, reply) ∧
    let f' := deliver_all f now reply in
    applied f' = length (log_of (ldr y)) ∧ pending f' = ∅ ∧ f_store f' = replay (log_of (ldr y)) ∧
    ∀ key, on_key key (stored y) = on_key key (log_of (ldr y)) →
      shown <$> Store.Get (f_store f') key = shown <$> Store.Get (l_store (ldr y)) key.
Proof.
  pose proof (reachable_inv _ _ _ _ _ Hreach) as Hi. destruct (i_fols y Hi k f Hf) as [_ Hok].
  pose proof (i_ldr y Hi) as Hlo. destruct (Hlo) as [Hwf Hs _].
  unfold HandleMessage. cbn [m_Type requestSync m_AckIndex m_SenderID]. rewrite (Log.GetFrom_spec _ _ Hwf), Res_bind_Ok, Hs.
  replace (applied f + 1 - 1 - 0) with (applied f) by lia. change (Log.entries (l_log (ldr y))) with (LL y).
  set (es := drop (applied f) (LL y)).
  assert (Hes : ∀ e, in_log (LL y) e → applied f < le_Index e → e ∈ es).
  { intros e [H0 H1] Hlt. apply list_elem_of_lookup. exists (le_Index e - 1 - applied f). unfold es. rewrite lookup_drop.
    by replace (applied f + (le_Index e - 1 - applied f)) with (le_Index e - 1) by lia. }
  assert (Hfin : ∀ f', fol_ok (LL y) f' → applied f' = length (LL y) →
    pending f' = ∅ ∧ f_store f' = replay (LL y) ∧ ∀ key, on_key key (stored y) = on_key key (LL y) →
      shown <$> Store.Get (f_store f') key = shown <$> Store.Get (l_store (ldr y)) key).
  { intros f' [_ _ Hp Hs'] Hap. rewrite Hap, firstn_all in Hs'. split_and!; [|done|].
    - apply map_eq. intros i. rewrite lookup_empty. destruct (pending f' !! i) as [e|] eqn:He; [|done].
      destruct (Hp i e He) as (H1 & H2 & H3 & H4%lookup_lt_Some). lia.
    - intros key. by apply caught_up_agrees. }
  destruct (Nat.eqb_spec (length es) 0) as [Hz|Hz].
  - exists []. split; [done|]. simpl. unfold es in Hz. rewrite length_drop in Hz.
    assert (Hap : applied f = length (LL y)) by (pose proof (fo_len _ _ Hok); lia).
    split; [done|]. by apply Hfin.
  - eexists; split; [done|]. unfold deliver_all. cbn [foldl]. unfold f_HandleMessage. rewrite Hon. cbn [m_Type].
    set (r := MkMessage _ _ _ _ es _ _ _ _ _ _ _ _ _ _ _ _ _ _ _ _ _ _ _ _).
    assert (Hin : ∀ e, e ∈ m_Entries r → in_log (LL y) e).
    { intros e [j Hj]%list_elem_of_lookup. simpl in Hj. unfold es in Hj. rewrite lookup_drop in Hj.
      pose proof (log_index _ _ _ Hlo Hj) as Hx. split; [lia|]. rewrite Hx. simpl. by rewrite Nat.sub_0_r. }
    pose proof (applyEntries_spec (LL y) f now r Hok Hin) as Hap.
    destruct (applyEntries f now r) as [[f' ms] lag]. destruct Hap as (Hstep & Hh & Hp & _). simpl.
    assert (Hend : applied f' = length (LL y)); [|split; [done|by apply Hfin; [apply Hstep|]]].
    apply all_held_applied; [apply Hstep|done| |by intros i e; apply log_index].
    intros e He Hlt. destruct (decide (applied f < le_Index e)) as [Hlt'|Hge]; [by apply Hh, Hes|].
    apply (fs_holds _ _ _ Hstep); [done|]. left. lia.
Qed.

(** A call that nothing interrupts. *)
Definition one_op (c : nat) (now : Z) (key : string) (value : option string) (op : OpType) : list action :=
  [AStamp c now key value op "c"; AAppend c; AStore c; ASend c].

Definition catch_up_acts : list action :=
  AAddPeer "f" :: one_op 1 5 "x" (Some "1") OpSet ++ one_op 2 6 "x" (Some "2") OpSet ++ one_op 3 7 "y" None OpDelete ++
    [AFollowerRecv "f" 9 1].

Lemma catch_up_view : (λ y, (length (log_of (ldr y)), (λ f, (applied f, Node.isPaused (f_base f))) <$> fols y !! "f")) <$>
  (match sys_run (sys_init "l" ModeAsync ["f"]) catch_up_acts with Ok y => Some y | Panic => None end) = Some (3, Some (0, false)).
Proof. by vm_compute. Qed.

Lemma follower_catches_up_witness :
  ∃ y f reply, sys_run (sys_init "l" ModeAsync ["f"]) catch_up_acts = Ok y ∧ fols y !! "f" = Some f ∧ applied f = 0 ∧
    HandleMessage (ldr y) (requestSync f 1) = Ok (ldr y, reply) ∧ applied (deliver_all f 10 reply) = 3.
Proof.
  destruct (sys_run_inv catch_up_acts _ (sys_init_inv "l" ModeAsync ["f"])) as (y & Hr & Hi).
  pose proof catch_up_view as Hv. rewrite Hr in Hv. cbn [fmap option_fmap option_map] in Hv.
  destruct (fols y !! "f") as [f|] eqn:Hf; [|discriminate Hv]. injection Hv as Hlen Ha Hp.
  destruct (follower_catches_up "l" ModeAsync ["f"] catch_up_acts y "f" f 10 Hr Hf Hp) as (reply & Hreply & Hend & _).
  exists y, f, reply. rewrite Ha in Hreply. split_and!; [exact Hr|exact Hf|exact Ha|exact Hreply|]. rewrite Hend. exact Hlen.
Defined.


(** A batch is not atomic under interleaving. [WriteBatch] logs its entries one by one before it
    broadcasts them together; a follower that asks to catch up in between is sent the part already
    logged, and applies one key of the batch without the other. *)
Definition batch_acts : list action :=
  [AAddPeer "f"; AStamp 1 5 "x" (Some "1") OpSet "c"; AAppend 1; AStore 1; ASyncTick "f"; ALeaderRecv 0; AFollowerRecv "f" 6 1].

(** The keys of the call in progress, of the log, of what was broadcast, and what the follower has. *)
Definition batch_view (y : Sys) : option (list string) * list string * list (list string) * option (nat * bool * bool) :=
  ((λ c, le_Key <$> c_done c) <$> calls y !! 1, le_Key <$> log_of (ldr y),
   (λ m, le_Key <$> m_Entries m) <$> filter (λ m, 0 < m_SeqNo m) (sent y),
   (λ f, (applied f, bool_decide (is_Some (Store.Get (f_store f) "x")), bool_decide (is_Some (Store.Get (f_store f) "y")))) <$> fols y !! "f").

Definition after (acts : list action) : option Sys :=
  match sys_run (sys_init "l" ModeAsync ["f"]) acts with Ok y => Some y | Panic => None end.

Theorem batch_not_atomic :
  batch_view <$> after batch_acts = Some (Some ["x"], ["x"], [], Some (1, true, false)) ∧
  batch_view <$> after (batch_acts ++ one_op 1 8 "y" (Some "2") OpSet) = Some (None, ["x"; "y"], [["x"; "y"]], Some (1, true, false)).
Proof. split; by vm_compute. Qed.

(** Two writes to a key, logged in one order and stored in the other, replicated and acknowledged. *)
Definition racing_acts : list action :=
  [AAddPeer "f"; AStamp 1 5 "x" (Some "1") OpSet "c1"; AStamp 2 6 "x" (Some "2") OpSet "c2"; AAppend 1; AAppend 2;
   AStore 2; AStore 1; ASend 1; ASend 2; AFollowerRecv "f" 7 0; AFollowerRecv "f" 8 1; ALeaderRecv 2; ALeaderRecv 3;
   AAwaitEnd 1; AAwaitEnd 2].

(** What is left to do, what clients were told, the length of the log, and what leader and follower answer. *)
Definition standing (y : Sys) : nat * nat * list bool * nat * option (option string) * option (nat * nat * option (option string)) :=
  (size (calls y), size (ackChs (ldr y)), snd <$> finished y, length (log_of (ldr y)), kv_Value <$> Store.Get (l_store (ldr y)) "x",
   (λ f, (applied f, size (pending f), kv_Value <$> Store.Get (f_store f) "x")) <$> fols y !! "f").

Lemma racing_standing : standing <$> (match sys_run (sys_init "l" ModeSync ["f"]) racing_acts with Ok y => Some y | Panic => None end) =
  Some (0, 0, [true; true], 2, Some (Some "1"), Some (2, 0, Some (Some "2"))).
Proof. by vm_compute. Qed.

(** A follower that has everything is sent nothing. *)
Lemma nothing_to_send y f : inv y → applied f = length (log_of (ldr y)) → HandleMessage (ldr y) (requestSync f (applied f + 1)) = Ok (ldr y, []).
Proof.
  intros Hi Ha. destruct (i_ldr y Hi) as [Hwf Hs _]. unfold HandleMessage. cbn [m_Type requestSync m_AckIndex].
  rewrite (Log.GetFrom_spec _ _ Hwf), Res_bind_Ok, Hs. replace (applied f + 1 - 1 - 0) with (applied f) by lia.
  rewrite Ha, drop_all. done.
Qed.

(** C35. Concurrent writes can leave the leader and its followers different. No lock spans the log
    and the store of the leader: here two synchronous writes to a key are logged in one order and stored
    in the other. Both are reported successful, nothing is left to do, the follower has applied the whole
    log and the leader has nothing to send it, and the leader answers a read with the first value, the
    follower with the second. *)
Theorem racing_writes_diverge :
  ∃ y f, sys_run (sys_init "l" ModeSync ["f"]) racing_acts = Ok y ∧ calls y = ∅ ∧ ackChs (ldr y) = ∅ ∧
    (snd <$> finished y) = [true; true] ∧ fols y !! "f" = Some f ∧
    applied f = length (log_of (ldr y)) ∧ pending f = ∅ ∧
    HandleMessage (ldr y) (requestSync f (applied f + 1)) = Ok (ldr y, []) ∧
    kv_Value <$> Store.Get (l_store (ldr y)) "x" = Some (Some "1") ∧ kv_Value <$> Store.Get (f_store f) "x" = Some (Some "2").
Proof.
  destruct (sys_run_inv racing_acts _ (sys_init_inv "l" ModeSync ["f"])) as (y & Hr & Hi).
  pose proof racing_standing as Hs. rewrite Hr in Hs. unfold standing in Hs. cbn [fmap option_fmap option_map] in Hs.
  destruct (fols y !! "f") as [f|] eqn:Hf; [|done]. injection Hs as H1 H2 H3 H4 H5 H6 H7 H8.
  apply map_size_empty_inv in H1, H2, H7. exists y, f. assert (Ha : applied f = length (log_of (ldr y))) by congruence.
  split_and!; [exact Hr|exact H1|exact H2|exact H3|exact Hf|exact Ha|exact H7|by apply nothing_to_send|exact H5|exact H8].
Qed.

(** Calls that do not overlap between log and store do agree. *)
Fixpoint serialised (acts : list action) : bool :=
  match acts with
  | [] => true
  | AAppend c :: AStore c' :: rest => (c =? c') && serialised rest
  | AAppend _ :: _ | AStore _ :: _ => false
  | _ :: rest => serialised rest
  end.

(** The store has received the operations of the log in order. *)
Definition in_order (y : Sys) : Prop := stored y = log_of (ldr y) ∧ ∀ c call, calls y !! c = Some call → c_logged call = None.

Lemma in_order_keep y y' : stored y' = stored y → log_of (ldr y') = log_of (ldr y) → calls y' = calls y → in_order y → in_order y'.
Proof. intros Hs Hl Hc [H1 H2]. split; [congruence|by rewrite Hc]. Qed.

Lemma HandleMessage_log n m r : HandleMessage n m = Ok r → l_log r.1 = l_log n.
Proof.
  unfold HandleMessage. destruct (m_Type m); try (by intros [= <-]).
  - destruct (ackChs n !! m_AckIndex m); by intros [= <-].
  - destruct (Log.GetFrom _ _) as [es|]; [|done]. simpl. destruct (_ =? 0); by intros [= <-].
Qed.

Lemma in_order_step y a y' : (∀ c, a ≠ AAppend c) → (∀ c, a ≠ AStore c) → in_order y → sys_step y a = Ok y' → in_order y'.
Proof.
  intros Ha Hs Ho. pose proof Ho as [H1 H2]. destruct a; cbn [sys_step]; try (by destruct (Ha c)); try (by destruct (Hs c)).
  - destruct (begin_op _ _ _ _) as [call|]; [|by intros [= <-]]. pose proof (stamp_spec (ldr y) now key value op) as Hst.
    destruct (stamp (ldr y) now key value op) as [e n]. destruct Hst as ([Hl _ _ _ _] & _). intros [= <-]. unfold set_call.
    split; simpl; [unfold log_of in *; by rewrite Hl, app_nil_r|]. by intros c' call' [[_ <-]|[_ ?%H2]]%lookup_insert_Some.
  - destruct (calls y !! c) as [[? [|] [|] [|? ?]]|]; intros [= <-]; try done. split; simpl; [done|].
    intros c' call' [_ ?]%lookup_delete_Some. by eapply H2.
  - destruct (sent y !! i) as [m|]; [|by intros [= <-]]. destruct (decide _); [|by intros [= <-]].
    destruct (HandleMessage (ldr y) m) as [r|] eqn:Hr; simpl; [|done]. apply HandleMessage_log in Hr. intros [= <-].
    by apply (in_order_keep y); [|unfold log_of; simpl; rewrite Hr| |].
  - destruct (fols y !! f), (sent y !! i) as [m|]; try (by intros [= <-]). destruct (decide _); [|by intros [= <-]].
    destruct (f_HandleMessage _ _ _). by intros [= <-].
  - destruct (fols y !! f); by intros [= <-].
  - destruct (ackChs (ldr y) !! s); [|by intros [= <-]]. destruct (await_end (ldr y) s) as [[ok n]|] eqn:He; [|by intros [= <-]].
    intros [= <-]. unfold await_end in He. case_match; [|done]. injection He as _ <-. done.
  - destruct (isRead_spec (ldr y) key clientID) as (r & -> & Hr). simpl. destruct r as [|[e n]]; intros [= <-]; [done|].
    destruct Hr as [[Hl _ _ _ _] _]. by apply (in_order_keep y); [|unfold log_of; simpl; rewrite Hl| |].
  - destruct (check_read_spec (ldr y) entry clientID) as (r & -> & Hr). simpl. destruct r as [|n]; intros [= <-]; [done|].
    destruct Hr as [[Hl _ _ _ _] _]. by apply (in_order_keep y); [|unfold log_of; simpl; rewrite Hl| |].
  - destruct (fols y !! f); [|by intros [= <-]]. destruct (f_Read _ _ _) as [[|[? ?]]|]; simpl; [by intros [= <-]..|done].
  - by intros [= <-].
  - destruct (fols y !! f); by intros [= <-].
  - by intros [= <-].
  - destruct (fols y !! f); by intros [= <-].
  - by intros [= <-].
  - intros [= <-]. apply (in_order_keep y); try done. simpl. unfold Node.AddPeer. by case_match.
  - by intros [= <-].
Qed.

Lemma in_order_pair y c : inv y → in_order y → ∃ y1 y2, sys_step y (AAppend c) = Ok y1 ∧ sys_step y1 (AStore c) = Ok y2 ∧ inv y2 ∧ in_order y2.
Proof.
  intros Hi [H1 H2]. destruct (sys_step_inv y (AAppend c) Hi) as (y1 & Ha & Hi1). destruct (sys_step_inv y1 (AStore c) Hi1) as (y2 & Hs & Hi2).
  exists y1, y2. split_and!; [done..|]. cbn [sys_step] in Ha, Hs.
  destruct (calls y !! c) as [[cl st lg es]|] eqn:Hc; [|injection Ha as <-; rewrite Hc in Hs; injection Hs as <-; by split].
  assert (lg = None) as -> by apply (H2 c _ Hc). destruct st as [e|]; [|injection Ha as <-; rewrite Hc in Hs; injection Hs as <-; by split].
  pose proof (append_spec (ldr y) e (i_ldr y Hi)) as Hap. destruct (append (ldr y) e) as [e' n]. destruct Hap as [Hap _].
  injection Ha as <-. cbn [calls set_call] in Hs. rewrite lookup_insert_eq in Hs. cbn [ldr set_call] in Hs.
  destruct (store_entry_spec n e' cl) as (n' & He & [Hl _ _ _ _] & _). rewrite He, Res_bind_Ok in Hs. injection Hs as <-.
  split; simpl.
  - rewrite app_nil_r, H1. unfold log_of at 2. rewrite Hl. symmetry. apply (lg_log _ _ _ Hap).
  - intros c' call' [[_ <-]|[Hne Hc']]%lookup_insert_Some; [done|]. rewrite lookup_insert_ne in Hc' by done. by eapply H2.
Qed.

(** Calls whose steps from log to store nothing interrupts keep the leader and its followers in
    agreement: a follower that has applied the whole log answers every read as the leader does. *)
Theorem serial_calls_agree (lid : string) (m : ReplicationMode) (fids : list string) (acts : list action) (Hser : serialised acts = true) :
  ∃ y, sys_run (sys_init lid m fids) acts = Ok y ∧ stored y = log_of (ldr y) ∧
    ∀ k f, fols y !! k = Some f → applied f = length (log_of (ldr y)) →
      ∀ key, shown <$> Store.Get (f_store f) key = shown <$> Store.Get (l_store (ldr y)) key.
Proof.
  assert (Hrun : ∀ N acts y, length acts ≤ N → serialised acts = true → inv y → in_order y → ∃ y', sys_run y acts = Ok y' ∧ inv y' ∧ in_order y').
  { clear. induction N as [|N IH]; intros [|a acts] y Hlen Hser Hi Ho; simpl in Hlen; try lia; [by exists y..|].
    assert (Hother : (∀ c, a ≠ AAppend c) → (∀ c, a ≠ AStore c) → serialised acts = true → ∃ y', sys_run y (a :: acts) = Ok y' ∧ inv y' ∧ in_order y').
    { intros Ha Hs Hacts. destruct (sys_step_inv y a Hi) as (y1 & Hst & Hi1). cbn [sys_run]. rewrite Hst, Res_bind_Ok.
      apply IH; [lia|done|done|]. by eapply in_order_step. }
    destruct a; try (by apply Hother).
    - destruct acts as [|[] acts]; try done. simpl in Hser. apply andb_true_iff in Hser as [<-%Nat.eqb_eq Hser].
      destruct (in_order_pair y c Hi Ho) as (y1 & y2 & Ha & Hs & Hi2 & Ho2). cbn [sys_run]. rewrite Ha, Res_bind_Ok, Hs, Res_bind_Ok.
      simpl in Hlen. by apply IH; [lia|..]. }
  destruct (Hrun (length acts) acts (sys_init lid m fids)) as (y & Hr & Hi & [Ho _]); [done|done|apply sys_init_inv|by split|].
  exists y. split_and!; [done|done|]. intros k f Hf Ha key. destruct (i_fols y Hi k f Hf) as [_ [_ _ _ Hs]].
  apply caught_up_agrees; [done|by rewrite Hs, Ha, firstn_all|by rewrite Ho].
Qed.
