(* ===== verification/Raft.v ===== *)
(** * Raft

    Models [src/internal/node/raft.go]: election, log replication with the consistency check, majority
    commit, compaction and snapshot transfer.  Every handler and tick is one step on the node; the
    election timer is an argument (whether the randomised timeout has passed), as are wall-clock
    readings.  JSON coding of the store is a parameter.  The two critical sections of a handler (under
    [rmu] and after it) run together. *)

From S2P Require Import Prelude Storage Clock ReplicationLog Transport Node.
#[local] Open Scope nat_scope.

Module Raft.
Import Message.

Inductive raftRole := roleFollower | roleCandidate | roleLeader.

#[export] Instance raftRole_eq_dec : EqDecision raftRole.
Proof. solve_decision. Defined.

Record RaftNode := MkRaft {
  base : Node.BaseNode;
  currentTerm : nat;
  votedFor : string;
  role : raftRole;
  raftLeader : string;
  votes : nat;
  nextIndex : gmap string nat;
  matchIndex : gmap string nat;
  applied : nat;
}.

Definition NewRaftNode (id : string) : RaftNode :=
  MkRaft (Node.newBaseNode id Node.StrategyRaft Node.RoleFollower) 0 "" roleFollower "" 0 ∅ ∅ 0.

Definition n_id (n : RaftNode) : string := Node.id (base n).
Definition n_log (n : RaftNode) : Log.ReplicationLog := Node.log (base n).
Definition n_store (n : RaftNode) : Store.Store := Node.store (base n).
Definition n_peers (n : RaftNode) : list string := Node.GetPeers (base n).

Definition with_base (n : RaftNode) (b : Node.BaseNode) : RaftNode :=
  MkRaft b (currentTerm n) (votedFor n) (role n) (raftLeader n) (votes n) (nextIndex n) (matchIndex n) (applied n).
Definition with_log (n : RaftNode) (l : Log.ReplicationLog) : RaftNode := with_base n (Node.set_log (base n) l).
Definition with_store (n : RaftNode) (s : Store.Store) : RaftNode := with_base n (Node.set_store (base n) s).
Definition with_role (n : RaftNode) (r : raftRole) : RaftNode :=
  MkRaft (base n) (currentTerm n) (votedFor n) r (raftLeader n) (votes n) (nextIndex n) (matchIndex n) (applied n).
Definition with_applied (n : RaftNode) (a : nat) : RaftNode :=
  MkRaft (base n) (currentTerm n) (votedFor n) (role n) (raftLeader n) (votes n) (nextIndex n) (matchIndex n) a.
Definition with_indices (n : RaftNode) (ni mi : gmap string nat) : RaftNode :=
  MkRaft (base n) (currentTerm n) (votedFor n) (role n) (raftLeader n) (votes n) ni mi (applied n).

(** A message with the fields Raft uses. *)
Definition rmsg (t : MessageType) (from to : string) (term prevIndex prevTerm : nat) (es : list LogEntry) (commit : nat)
  (success : bool) (conflict lastIndex lastTerm : nat) (granted : bool) (snap : option string) : Message :=
  MkMessage t 0 from to es None 0 None None "" "" [] term "" prevIndex prevTerm commit success conflict lastIndex lastTerm
    granted snap false "".

(** The zero value of a missing map entry. *)
Definition get (m : gmap string nat) (k : string) : nat := default 0 (m !! k).

Definition majority (n : RaftNode) : nat := (length (n_peers n) + 1) / 2 + 1.

Definition stepDownLocked (n : RaftNode) (newTerm : nat) : RaftNode :=
  MkRaft (base n) newTerm "" roleFollower "" (votes n) (nextIndex n) (matchIndex n) (applied n).

Section raft.
Context (Marshal : gmap string KVEntry → string) (Unmarshal : string → option (gmap string KVEntry)).

(** [maybeElect]; [expired] says that the election timeout has passed. *)
Definition maybeElect (n : RaftNode) (expired : bool) : Res (RaftNode * list Message) :=
  if bool_decide (role n = roleLeader) || negb expired then Ok (n, [])
  else
    let n := MkRaft (base n) (S (currentTerm n)) (n_id n) roleCandidate "" 1 (nextIndex n) (matchIndex n) (applied n) in
    lt ← Log.LastIndexTerm (n_log n);
    Ok (n, (λ p, rmsg MsgVoteRequest (n_id n) p (currentTerm n) 0 0 [] 0 false 0 lt.1 lt.2 false None) <$> n_peers n).

(** The loop of [applyCommitted]: [for i := applied+1; i <= upto; i++]. *)
Fixpoint apply_loop (fuel : nat) (n : RaftNode) (i upto : nat) : Res RaftNode :=
  match fuel with
  | O => Ok n
  | S fuel' =>
      if upto <? i then Ok n
      else
        o ← Log.Get (n_log n) i;
        match o with
        | None => Ok n
        | Some e =>
            let kv := MkKVEntry (le_Key e) (le_Value e) (le_VClock e) (le_Timestamp e) (le_OriginID e)
                        (match le_Op e with OpDelete => true | OpSet => false end) (N.of_nat (le_Index e)) in
            apply_loop fuel' (with_applied (with_store n (Store.Set_ (n_store n) kv)) i) (S i) upto
        end
  end.

Definition applyCommitted (n : RaftNode) (upto : nat) : Res RaftNode :=
  apply_loop (S (upto - applied n)) n (applied n + 1) upto.

(** The loop of [advanceCommitLocked]: [for N := last; N > commit; N--]. *)
Fixpoint commit_loop (n : RaftNode) (commit N : nat) : Res RaftNode :=
  match N with
  | O => Ok n
  | S N' =>
      if commit <? N then
        t ← Log.TermAt (n_log n) N;
        if negb (t =? currentTerm n) then commit_loop n commit N'
        else
          let count := 1 + length (filter (λ p, N ≤ get (matchIndex n) p) (n_peers n)) in
          if majority n <=? count
          then applyCommitted (with_log n (Log.SetCommitIndex (n_log n) N)) N
          else commit_loop n commit N'
      else Ok n
  end.

Definition advanceCommitLocked (n : RaftNode) : Res RaftNode :=
  commit_loop n (Log.CommitIndex (n_log n)) (Log.LastIndex (n_log n)).

(** [maybeCompact], with its threshold of 30 entries. *)
Definition maybeCompact (n : RaftNode) : Res RaftNode :=
  let snapIdx := (Log.SnapshotBoundary (n_log n)).1 in
  if (applied n <=? snapIdx) || (applied n - snapIdx <=? 30) then Ok n
  else
    t ← Log.TermAt (n_log n) (applied n);
    if t =? 0 then Ok n
    else l ← Log.Compact (n_log n) (applied n) t; Ok (with_log n l).

Definition sendSnapshot (n : RaftNode) (peer : string) (term : nat) : Message :=
  let '(snapIdx, snapTerm) := Log.SnapshotBoundary (n_log n) in
  rmsg MsgInstallSnap (n_id n) peer term snapIdx snapTerm [] 0 false 0 0 0 false
    (Some (Store.SnapshotBytes Marshal (n_store n))).

Definition sendAppend (n : RaftNode) (peer : string) : Res (list Message) :=
  if negb (bool_decide (role n = roleLeader)) then Ok []
  else
    let term := currentTerm n in
    let ni := get (nextIndex n) peer in
    let ni := if ni =? 0 then 1 else ni in
    let prevIndex := ni - 1 in
    let snapIdx := (Log.SnapshotBoundary (n_log n)).1 in
    if prevIndex <? snapIdx then Ok [sendSnapshot n peer term]
    else
      prevTerm ← Log.TermAt (n_log n) prevIndex;
      entries ← Log.GetFrom (n_log n) ni;
      Ok [rmsg MsgAppendEntries (n_id n) peer term prevIndex prevTerm entries (Log.CommitIndex (n_log n))
            false 0 0 0 false None].

Fixpoint send_all (n : RaftNode) (ps : list string) : Res (list Message) :=
  match ps with
  | [] => Ok []
  | p :: ps' => a ← sendAppend n p; b ← send_all n ps'; Ok (a ++ b)
  end.

Definition maybeHeartbeat (n : RaftNode) : Res (list Message) :=
  if negb (bool_decide (role n = roleLeader)) then Ok [] else send_all n (n_peers n).

Definition ack (n : RaftNode) (to : string) (success : bool) (conflict : nat) : Message :=
  rmsg MsgAppendAck (n_id n) to (currentTerm n) 0 0 [] 0 success conflict 0 0 false None.

(** The common start of [handleAppendEntries] and [handleInstallSnap]: accept the sender as leader. *)
Definition accept_leader (n : RaftNode) (m : Message) : RaftNode :=
  let n := if currentTerm n <? m_Term m then stepDownLocked n (m_Term m) else n in
  let n := with_role n roleFollower in
  if bool_decide (raftLeader n = m_SenderID m) then n
  else MkRaft (Node.setRole (base n) Node.RoleFollower) (currentTerm n) (votedFor n) (role n) (m_SenderID m) (votes n)
         (nextIndex n) (matchIndex n) (applied n).

Definition handleInstallSnap (n : RaftNode) (m : Message) : RaftNode * list Message :=
  if m_Term m <? currentTerm n then (n, [ack n (m_SenderID m) false 0])
  else
    let n := accept_leader n m in
    let snapIdx := m_PrevLogIndex m in
    let n :=
      if (Log.SnapshotBoundary (n_log n)).1 <? snapIdx then
        let n := with_store n (Store.RestoreSnapshot Unmarshal (n_store n) (default "" (m_Snapshot m))).1 in
        let n := with_log n (Log.InstallSnapshot (n_log n) snapIdx (m_PrevLogTerm m)) in
        if applied n <? snapIdx then with_applied n snapIdx else n
      else n in
    (n, [ack n (m_SenderID m) true (Log.LastIndex (n_log n))]).

Definition handleVoteRequest (n : RaftNode) (m : Message) : Res (RaftNode * list Message) :=
  let n := if currentTerm n <? m_Term m then stepDownLocked n (m_Term m) else n in
  let reply n grant := [rmsg MsgVoteResponse (n_id n) (m_SenderID m) (currentTerm n) 0 0 [] 0 false 0 0 0 grant None] in
  if (m_Term m =? currentTerm n) && (bool_decide (votedFor n = "") || bool_decide (votedFor n = m_SenderID m)) then
    lt ← Log.LastIndexTerm (n_log n);
    let '(myIdx, myTerm) := lt in
    if (myTerm <? m_LastLogTerm m) || ((m_LastLogTerm m =? myTerm) && (myIdx <=? m_LastLogIndex m)) then
      let n := MkRaft (base n) (currentTerm n) (m_SenderID m) (role n) (raftLeader n) (votes n) (nextIndex n) (matchIndex n) (applied n) in
      Ok (n, reply n true)
    else Ok (n, reply n false)
  else Ok (n, reply n false).

Definition becomeLeaderLocked (n : RaftNode) : Res (RaftNode * list Message) :=
  let last := Log.LastIndex (n_log n) in
  let ni := foldl (λ acc p, <[p := S last]> acc) (nextIndex n) (n_peers n) in
  let mi := foldl (λ acc p, <[p := 0]> acc) (matchIndex n) (n_peers n) in
  let n := MkRaft (Node.setRole (base n) Node.RoleLeader) (currentTerm n) (votedFor n) roleLeader (n_id n) (votes n) ni mi (applied n) in
  ms ← maybeHeartbeat n;
  Ok (n, ms).

Definition handleVoteResponse (n : RaftNode) (m : Message) : Res (RaftNode * list Message) :=
  if currentTerm n <? m_Term m then Ok (stepDownLocked n (m_Term m), [])
  else if negb (bool_decide (role n = roleCandidate)) || negb (m_Term m =? currentTerm n) then Ok (n, [])
  else if m_VoteGranted m then
    let n := MkRaft (base n) (currentTerm n) (votedFor n) (role n) (raftLeader n) (S (votes n)) (nextIndex n) (matchIndex n) (applied n) in
    if majority n <=? votes n then becomeLeaderLocked n else Ok (n, [])
  else Ok (n, []).

Definition handleAppendEntries (n : RaftNode) (m : Message) : Res (RaftNode * list Message) :=
  if m_Term m <? currentTerm n then Ok (n, [ack n (m_SenderID m) false 0])
  else
    let n := accept_leader n m in
    ok ← Log.Matches (n_log n) (m_PrevLogIndex m) (m_PrevLogTerm m);
    if negb ok then Ok (n, [ack n (m_SenderID m) false (S (Log.LastIndex (n_log n)))])
    else
      r ← Log.AppendAfter (n_log n) (m_PrevLogIndex m) (m_Entries m);
      let '(last, l) := r in
      let n := with_log n l in
      n ← (if Log.CommitIndex (n_log n) <? m_LeaderCommit m then
             let newCommit := if last <? m_LeaderCommit m then last else m_LeaderCommit m in
             applyCommitted (with_log n (Log.SetCommitIndex (n_log n) newCommit)) newCommit
           else Ok n);
      Ok (n, [ack n (m_SenderID m) true last]).

Definition handleAppendAck (n : RaftNode) (m : Message) : Res RaftNode :=
  if currentTerm n <? m_Term m then
    let n := stepDownLocked n (m_Term m) in Ok (with_base n (Node.setRole (base n) Node.RoleFollower))
  else if negb (bool_decide (role n = roleLeader)) then Ok n
  else if m_Success m then
    advanceCommitLocked (with_indices n (<[m_SenderID m := S (m_ConflictIndex m)]> (nextIndex n))
                                        (<[m_SenderID m := m_ConflictIndex m]> (matchIndex n)))
  else if 1 <? get (nextIndex n) (m_SenderID m) then
    Ok (with_indices n (<[m_SenderID m := get (nextIndex n) (m_SenderID m) - 1]> (nextIndex n)) (matchIndex n))
  else Ok n.

Definition HandleMessage (n : RaftNode) (m : Message) : Res (RaftNode * list Message) :=
  if Node.isPaused (base n) then Ok (n, [])
  else match m_Type m with
  | MsgVoteRequest => handleVoteRequest n m
  | MsgVoteResponse => handleVoteResponse n m
  | MsgAppendEntries => handleAppendEntries n m
  | MsgAppendAck => n ← handleAppendAck n m; Ok (n, [])
  | MsgInstallSnap => Ok (handleInstallSnap n m)
  | _ => Ok (n, [])
  end.

Inductive error := ErrPaused | ErrNoLeader | ErrNotLeader (leader : string) | ErrNotCommitted | ErrNotFound.

(** [proposeAndWait] up to its wait: the index waited for and the messages sent. *)
Definition propose (n : RaftNode) (now : Z) (key : string) (value : option string) (op : OpType)
  : Res (error + nat * RaftNode * list Message) :=
  if negb (bool_decide (role n = roleLeader)) then
    Ok (inl (if bool_decide (raftLeader n = "") then ErrNoLeader else ErrNotLeader (raftLeader n)))
  else
    let '(ts, b) := Node.HLCNow (base n) now in
    let n := with_base n b in
    let '(idx, l) := Log.Append (n_log n) (MkLogEntry 0 (currentTerm n) key value op ts (n_id n) None) in
    let n := with_indices (with_log n l) (nextIndex n) (<[n_id n := idx]> (matchIndex n)) in
    ms ← send_all n (n_peers n);
    Ok (inr (idx, n, ms)).

(** How the wait ends: the entry's index is covered by the commit index, or the deadline passes. *)
Definition wait_end (n : RaftNode) (idx : nat) : option error :=
  if idx <=? Log.CommitIndex (n_log n) then None else Some ErrNotCommitted.

(** The client calls up to their wait, and what [Write] returns after it. *)
Definition Write (n : RaftNode) (now : Z) (key : string) (value : option string)
  : Res (error + nat * RaftNode * list Message) :=
  if Node.isPaused (base n) then Ok (inl ErrPaused) else propose n now key value OpSet.

Definition write_end (n : RaftNode) (idx : nat) (key : string) : error + option KVEntry :=
  match wait_end n idx with Some e => inl e | None => inr (Store.Get (n_store n) key) end.

Definition Delete (n : RaftNode) (now : Z) (key : string) : Res (error + nat * RaftNode * list Message) :=
  if Node.isPaused (base n) then Ok (inl ErrPaused) else propose n now key None OpDelete.

Definition Read (n : RaftNode) (key : string) : error + KVEntry :=
  if Node.isPaused (base n) then inl ErrPaused
  else if negb (bool_decide (role n = roleLeader)) then
    inl (if bool_decide (raftLeader n = "") then ErrNoLeader else ErrNotLeader (raftLeader n))
  else match Store.Get (n_store n) key with Some e => inr e | None => inl ErrNotFound end.

Definition RaftLeader (n : RaftNode) : string * bool := (raftLeader n, bool_decide (role n = roleLeader)).

(** ** A cluster on a network that may lose and reorder messages but not duplicate them *)

Record Sys := MkSys { nodes : gmap string RaftNode; net : list Message }.

Inductive action :=
  | AElect (k : string) (expired : bool)
  | ABeat (k : string)
  | ADeliver (i : nat)
  | ADrop (i : nat)
  | APropose (k : string) (now : Z) (key : string) (value : option string) (op : OpType)
  | AState (k : string) (st : Node.NodeState)
  | ASkew (k : string) (ms : Z).

Definition put (y : Sys) (k : string) (n : RaftNode) (ms : list Message) : Sys :=
  MkSys (<[k := n]> (nodes y)) (net y ++ ms).

Definition sys_step (y : Sys) (a : action) : Res Sys :=
  match a with
  | AElect k expired =>
      match nodes y !! k with
      | Some n => if Node.isPaused (base n) then Ok y else r ← maybeElect n expired; Ok (put y k r.1 r.2)
      | None => Ok y
      end
  | ABeat k =>
      match nodes y !! k with
      | Some n =>
          if Node.isPaused (base n) then Ok y
          else ms ← maybeHeartbeat n; n' ← maybeCompact n; Ok (put y k n' ms)
      | None => Ok y
      end
  | ADeliver i =>
      match net y !! i with
      | None => Ok y
      | Some m =>
          let y := MkSys (nodes y) (remove_at i (net y)) in
          match nodes y !! m_TargetID m with
          | Some n => r ← HandleMessage n m; Ok (put y (m_TargetID m) r.1 r.2)
          | None => Ok y
          end
      end
  | ADrop i => Ok (MkSys (nodes y) (remove_at i (net y)))
  | APropose k now key value op =>
      match nodes y !! k with
      | Some n =>
          if Node.isPaused (base n) then Ok y
          else
            r ← propose n now key value op;
            match r with
            | inl _ => Ok y
            | inr (_, n', ms) => Ok (put y k n' ms)
            end
      | None => Ok y
      end
  | AState k st =>
      match nodes y !! k with
      | Some n => Ok (put y k (with_base n (Node.set_state (base n) st)) [])
      | None => Ok y
      end
  | ASkew k ms =>
      match nodes y !! k with
      | Some n => Ok (put y k (with_base n (Node.SetClockSkewMillis (base n) ms)) [])
      | None => Ok y
      end
  end.

Fixpoint sys_run (y : Sys) (acts : list action) : Res Sys :=
  match acts with
  | [] => Ok y
  | a :: acts' => y' ← sys_step y a; sys_run y' acts'
  end.

(** A fresh node that knows all the others. *)
Definition fresh (ids : list string) (k : string) : RaftNode :=
  let n := NewRaftNode k in
  with_base n (foldl Node.AddPeer (base n) (filter (λ p, p ≠ k) ids)).

Definition sys_init (ids : list string) : Sys := MkSys (list_to_map ((λ k, (k, fresh ids k)) <$> ids)) [].

(** ** The log never panics and stays well formed *)

Lemma append_one_wf l e : Log.wf l → ∃ l', Log.append_one l e = Ok l' ∧ Log.wf l'.
Proof.
  intros Hwf. unfold Log.append_one. destruct (Nat.leb_spec (le_Index e) (Log.snapshotIndex l)); [by eexists|].
  assert (Hnext : ∀ l1, Log.wf l1 → Log.wf (Log.append_if_next l1 e)).
  { intros l1 [Hn Hc]. unfold Log.append_if_next. destruct (Nat.eqb_spec (le_Index e) (Log.nextIndex l1)) as [E|]; [|done].
    split; simpl; [rewrite length_app; simpl; lia|]. apply Log.contiguous_app. split; [done|].
    apply Log.contiguous_single. lia. }
  destruct (Nat.ltb_spec (le_Index e) (Log.nextIndex l)) as [Hlt|Hge]; [|eexists; split; [done|by apply Hnext]].
  destruct (Log.at_pos_in l (le_Index e) Hwf ltac:(lia)) as (cur & _ & ->). rewrite Res_bind_Ok.
  destruct (le_Term cur =? le_Term e); [by eexists|]. destruct Hwf as [Hn Hc].
  unfold Log.prefix_to, Log.pos.
  destruct (Z.ltb_spec (Z.of_nat (le_Index e) - Z.of_nat (Log.snapshotIndex l) - 1) 0); [lia|].
  destruct (Z.ltb_spec (Z.of_nat (length (Log.entries l))) (Z.of_nat (le_Index e) - Z.of_nat (Log.snapshotIndex l) - 1)); [lia|].
  simpl. eexists; split; [done|]. apply Hnext. split; simpl; [rewrite length_take; lia|]. by apply Log.contiguous_take.
Qed.

Lemma AppendAfter_wf l prev es : Log.wf l → ∃ last l', Log.AppendAfter l prev es = Ok (last, l') ∧ Log.wf l'.
Proof.
  intros Hwf. unfold Log.AppendAfter.
  assert (Hloop : ∀ es l, Log.wf l → ∃ l', Log.append_loop l es = Ok l' ∧ Log.wf l').
  { clear. induction es as [|e es IH]; intros l Hwf; simpl; [by eexists|].
    destruct (append_one_wf l e Hwf) as (l1 & -> & Hwf1). rewrite Res_bind_Ok. by apply IH. }
  destruct (Hloop es l Hwf) as (l' & -> & Hwf'). rewrite Res_bind_Ok. eauto.
Qed.

(** ** What most handlers do to the election state: nothing, or step down *)

(** Everything but the log, the store and the replication bookkeeping is the same. *)
Record same_vote (n n' : RaftNode) : Prop := {
  sv_id : n_id n' = n_id n;
  sv_peers : n_peers n' = n_peers n;
  sv_term : currentTerm n' = currentTerm n;
  sv_voted : votedFor n' = votedFor n;
  sv_role : role n' = role n;
  sv_votes : votes n' = votes n;
  sv_wf : Log.wf (n_log n');
}.

(** The node may have moved to a later term, where it has voted for nobody, or stopped leading. *)
Record passive (n n' : RaftNode) : Prop := {
  pa_id : n_id n' = n_id n;
  pa_peers : n_peers n' = n_peers n;
  pa_wf : Log.wf (n_log n');
  pa_state : currentTerm n < currentTerm n' ∧ votedFor n' = "" ∧ role n' = roleFollower ∨
             currentTerm n' = currentTerm n ∧ votedFor n' = votedFor n ∧
               (role n' = roleFollower ∨ role n' = role n ∧ votes n' = votes n);
}.

Lemma same_vote_refl n : Log.wf (n_log n) → same_vote n n.
Proof. by split. Qed.

Lemma same_vote_trans n1 n2 n3 : same_vote n1 n2 → same_vote n2 n3 → same_vote n1 n3.
Proof. intros [] []. split; first [congruence|done]. Qed.

Lemma passive_refl n : Log.wf (n_log n) → passive n n.
Proof. intros. split; try done. right. auto. Qed.

Lemma passive_same n1 n2 n3 : passive n1 n2 → same_vote n2 n3 → passive n1 n3.
Proof.
  intros [Hi Hp Hw Hs] [Hi' Hp' Ht Hv Hr Hvo Hw']. split; [congruence|congruence|done|].
  rewrite Ht, Hv, Hr, Hvo. done.
Qed.

Lemma same_passive n n' : same_vote n n' → passive n n'.
Proof. intros []. split; try done. right. auto. Qed.

Lemma apply_loop_same fuel : ∀ n i upto, Log.wf (n_log n) → ∃ n', apply_loop fuel n i upto = Ok n' ∧ same_vote n n'.
Proof.
  induction fuel as [|fuel IH]; intros n i upto Hwf; cbn [apply_loop]; [eauto using same_vote_refl|].
  destruct (upto <? i); [eauto using same_vote_refl|]. rewrite Log.Get_spec by done. rewrite Res_bind_Ok.
  destruct (Log.entry_at (n_log n) i) as [e|]; [|eauto using same_vote_refl].
  match goal with |- ∃ _, apply_loop _ ?x _ _ = _ ∧ _ => destruct (IH x (S i) upto Hwf) as (n' & -> & Hn') end.
  eexists; split; [done|]. eapply same_vote_trans; [|done]. by split.
Qed.

Lemma commit_loop_same commit N : ∀ n, Log.wf (n_log n) → ∃ n', commit_loop n commit N = Ok n' ∧ same_vote n n'.
Proof.
  induction N as [|N IH]; intros n Hwf; cbn [commit_loop]; [eauto using same_vote_refl|].
  destruct (commit <? S N); [|eauto using same_vote_refl]. rewrite Log.TermAt_spec, Res_bind_Ok by done.
  destruct (negb _); [by apply IH|]. destruct (majority n <=? _); [|by apply IH].
  unfold applyCommitted. match goal with |- ∃ _, apply_loop ?f ?x ?i ?u = _ ∧ _ =>
    destruct (apply_loop_same f x i u) as (n' & -> & Hn'); [by apply Log.SetCommitIndex_wf|] end.
  eexists; split; [done|]. eapply same_vote_trans; [|done]. split; try done. by apply Log.SetCommitIndex_wf.
Qed.

Lemma maybeCompact_same n : Log.wf (n_log n) → ∃ n', maybeCompact n = Ok n' ∧ same_vote n n'.
Proof.
  intros Hwf. unfold maybeCompact. destruct (_ || _) eqn:Hb; [eauto using same_vote_refl|].
  apply orb_false_iff in Hb as [Hb _]. apply Nat.leb_gt in Hb. simpl in Hb.
  rewrite Log.TermAt_spec, Res_bind_Ok by done. destruct (Nat.eqb_spec (default 0 (Log.term_at (n_log n) (applied n))) 0);
    [eauto using same_vote_refl|].
  assert (Hc : ∃ l, Log.Compact (n_log n) (applied n) (default 0 (Log.term_at (n_log n) (applied n))) = Ok l ∧ Log.wf l).
  { destruct (Log.term_at (n_log n) (applied n)) as [t|] eqn:Ht; [|done].
    assert (Hlt : applied n < Log.nextIndex (n_log n)).
    { unfold Log.term_at in Ht. destruct (Nat.eqb_spec (applied n) (Log.snapshotIndex (n_log n))); [lia|].
      apply fmap_Some in Ht as (e & He & _). destruct (decide (applied n < Log.nextIndex (n_log n))); [done|].
      rewrite Log.entry_at_out in He by (done || lia). done. }
    destruct (Log.Compact_spec (n_log n) (applied n) t Hwf) as (l & Hl & Hw & _); [lia|by right|]. eauto. }
  destruct Hc as (l & -> & Hl). rewrite Res_bind_Ok. eexists; split; [done|]. by split.
Qed.

(** Messages without a part in elections. *)
Definition quiet (m : Message) : Prop :=
  m_Type m ≠ MsgVoteRequest ∧ (m_Type m = MsgVoteResponse → m_VoteGranted m = false).

Lemma sendAppend_quiet n p : Log.wf (n_log n) → ∃ ms, sendAppend n p = Ok ms ∧ Forall quiet ms.
Proof.
  intros Hwf. unfold sendAppend. destruct (negb _); [by eexists|].
  destruct (_ <? _); [eexists; split; [done|]; by repeat constructor|].
  rewrite Log.TermAt_spec, Res_bind_Ok, Log.GetFrom_spec, Res_bind_Ok by done.
  eexists; split; [done|]. by repeat constructor.
Qed.

Lemma send_all_quiet n ps : Log.wf (n_log n) → ∃ ms, send_all n ps = Ok ms ∧ Forall quiet ms.
Proof.
  intros Hwf. induction ps as [|p ps (ms & Hms & Hq)]; cbn [send_all]; [by eexists|].
  destruct (sendAppend_quiet n p Hwf) as (a & -> & Ha). rewrite Res_bind_Ok, Hms, Res_bind_Ok.
  eexists; split; [done|]. by apply Forall_app.
Qed.

Lemma maybeHeartbeat_quiet n : Log.wf (n_log n) → ∃ ms, maybeHeartbeat n = Ok ms ∧ Forall quiet ms.
Proof. intros Hwf. unfold maybeHeartbeat. destruct (negb _); [by eexists|]. by apply send_all_quiet. Qed.

Lemma accept_leader_passive n m : Log.wf (n_log n) → currentTerm n ≤ m_Term m → passive n (accept_leader n m).
Proof.
  intros Hwf Hle. unfold accept_leader. destruct (Nat.ltb_spec (currentTerm n) (m_Term m)); case_bool_decide; split; simpl; auto 6.
Qed.

Lemma stepDown_passive n t : Log.wf (n_log n) → currentTerm n < t → passive n (stepDownLocked n t).
Proof. intros Hwf Hlt. split; simpl; auto. Qed.

(** The handlers of replication messages take no part in elections. *)
Lemma handleAppendEntries_passive n m : Log.wf (n_log n) →
  ∃ n' ms, handleAppendEntries n m = Ok (n', ms) ∧ passive n n' ∧ Forall quiet ms.
Proof.
  intros Hwf. unfold handleAppendEntries. destruct (Nat.ltb_spec (m_Term m) (currentTerm n)).
  { eexists _, _. split_and!; [done|by apply passive_refl|by repeat constructor]. }
  pose proof (accept_leader_passive n m Hwf ltac:(lia)) as Hp. set (n1 := accept_leader n m) in *.
  pose proof (pa_wf _ _ Hp) as Hwf1. rewrite Log.Matches_spec, Res_bind_Ok by done. destruct (negb _).
  { eexists _, _. split_and!; [done|done|by repeat constructor]. }
  destruct (AppendAfter_wf (n_log n1) (m_PrevLogIndex m) (m_Entries m) Hwf1) as (last & l & -> & Hl). rewrite Res_bind_Ok.
  assert (Hp2 : passive n (with_log n1 l)) by (eapply passive_same; [done|by split]).
  destruct (_ <? _); [|rewrite Res_bind_Ok; eexists _, _; split_and!; [done|done|by repeat constructor]].
  unfold applyCommitted. match goal with |- context [apply_loop ?f ?x ?i ?u] =>
    destruct (apply_loop_same f x i u) as (n' & -> & Hn'); [by apply Log.SetCommitIndex_wf|] end.
  rewrite Res_bind_Ok. eexists _, _. split_and!; [done| |by repeat constructor].
  eapply passive_same; [|done]. eapply passive_same; [done|]. split; try done. by apply Log.SetCommitIndex_wf.
Qed.

Lemma handleAppendAck_passive n m : Log.wf (n_log n) → ∃ n', handleAppendAck n m = Ok n' ∧ passive n n'.
Proof.
  intros Hwf. unfold handleAppendAck. destruct (Nat.ltb_spec (currentTerm n) (m_Term m)).
  { eexists; split; [done|]. split; simpl; auto. }
  destruct (negb _); [eauto using passive_refl|]. destruct (m_Success m).
  - unfold advanceCommitLocked. match goal with |- context [commit_loop ?x ?c ?N] =>
      destruct (commit_loop_same c N x) as (n' & -> & Hn'); [done|] end.
    eexists; split; [done|]. eapply passive_same; [|done]. apply same_passive. by split.
  - destruct (1 <? _); [|eauto using passive_refl]. eexists; split; [done|]. apply same_passive. by split.
Qed.

Lemma handleInstallSnap_passive n m : Log.wf (n_log n) →
  let '(n', ms) := handleInstallSnap n m in passive n n' ∧ Forall quiet ms.
Proof.
  intros Hwf. unfold handleInstallSnap. destruct (Nat.ltb_spec (m_Term m) (currentTerm n)).
  { split; [by apply passive_refl|by repeat constructor]. }
  pose proof (accept_leader_passive n m Hwf ltac:(lia)) as Hp. set (n1 := accept_leader n m) in *. split; [|by repeat constructor].
  destruct (_ <? _); [|done]. eapply passive_same; [done|]. pose proof (pa_wf _ _ Hp) as Hwf1.
  destruct (_ <? _); split; try done; by apply Log.InstallSnapshot_wf.
Qed.

(** Leaving out one of the nodes. *)
(** ** Election safety

    Two ghost maps make votes visible across terms: [V] is who each voter chose in each term, [C] the
    voters a candidate has counted.  A vote is a token: a request on its way to the voter, a granted
    response on its way back, or a counted vote; there is at most one per candidate, voter and term. *)

Abbreviation votesT := (gmap (nat * string) string).
Abbreviation countsT := (gmap (nat * string) (list string)).

Definition is_token (c p : string) (t : nat) (m : Message) : Prop :=
  m_Type m = MsgVoteRequest ∧ m_SenderID m = c ∧ m_TargetID m = p ∧ m_Term m = t ∨
  m_Type m = MsgVoteResponse ∧ m_VoteGranted m = true ∧ m_SenderID m = p ∧ m_TargetID m = c ∧ m_Term m = t.

#[local] Instance is_token_dec c p t m : Decision (is_token c p t m).
Proof. unfold is_token. apply _. Defined.

Definition tokens (l : list Message) (c p : string) (t : nat) : nat := length (filter (is_token c p t) l).

Definition counted (C : countsT) (t : nat) (c p : string) : nat := if decide (p ∈ default [] (C !! (t, c))) then 1 else 0.

Record einv (ids : list string) (V : votesT) (C : countsT) (y : Sys) : Prop := {
  e_nodes k n : nodes y !! k = Some n →
    k ∈ ids ∧ n_id n = k ∧ n_peers n = filter (λ p, p ≠ k) ids ∧ Log.wf (n_log n);
  e_vote k n : nodes y !! k = Some n →
    V !! (currentTerm n, k) = if decide (votedFor n = "") then None else Some (votedFor n);
  e_past t p c : V !! (t, p) = Some c → p ∈ ids ∧
    (∀ n, nodes y !! p = Some n → t ≤ currentTerm n) ∧ ∀ n, nodes y !! c = Some n → t ≤ currentTerm n;
  e_count t c Q : C !! (t, c) = Some Q → NoDup Q ∧ (∀ p, p ∈ Q → V !! (t, p) = Some c) ∧
    ∀ n, nodes y !! c = Some n → t ≤ currentTerm n;
  e_cand k n : nodes y !! k = Some n → role n = roleCandidate →
    ∃ Q, C !! (currentTerm n, k) = Some Q ∧ length Q = votes n;
  e_lead k n : nodes y !! k = Some n → role n = roleLeader →
    ∃ Q, C !! (currentTerm n, k) = Some Q ∧ length ids / 2 + 1 ≤ length Q;
  e_req m : m ∈ net y → m_Type m = MsgVoteRequest →
    m_SenderID m ∈ ids ∧ m_TargetID m ≠ m_SenderID m ∧ ∀ n, nodes y !! m_SenderID m = Some n → m_Term m ≤ currentTerm n;
  e_grant m : m ∈ net y → m_Type m = MsgVoteResponse → m_VoteGranted m = true →
    V !! (m_Term m, m_SenderID m) = Some (m_TargetID m);
  e_tok c p t : tokens (net y) c p t + counted C t c p ≤ 1;
}.

Lemma tokens_app l1 l2 c p t : tokens (l1 ++ l2) c p t = tokens l1 c p t + tokens l2 c p t.
Proof. unfold tokens. by rewrite filter_app, length_app. Qed.

Lemma tokens_perm l1 l2 c p t : l1 ≡ₚ l2 → tokens l1 c p t = tokens l2 c p t.
Proof. intros Hp. unfold tokens. by rewrite Hp. Qed.

Lemma tokens_cons m l c p t : tokens (m :: l) c p t = (if decide (is_token c p t m) then 1 else 0) + tokens l c p t.
Proof. unfold tokens. rewrite filter_cons. by case_decide. Qed.

Lemma tokens_quiet l c p t : Forall quiet l → tokens l c p t = 0.
Proof.
  induction 1 as [|m l [Hq1 Hq2] Hl IH]; [done|]. rewrite tokens_cons, IH.
  destruct (decide _) as [[(Ht & _)|(Ht & Hg & _)]|]; [done| |done]. rewrite Hq2 in Hg; done.
Qed.

(** Losing a message. *)
Lemma einv_drop ids V C y m l : einv ids V C y → net y ≡ₚ m :: l → einv ids V C (MkSys (nodes y) l).
Proof.
  intros Hi Hp. assert (Hin : ∀ x, x ∈ l → x ∈ net y) by (intros x Hx; rewrite Hp; by right).
  destruct Hi as [H1 H2 H3 H4 H5 H6 H7 H8 H9]. split; simpl; eauto.
  intros c p t. specialize (H9 c p t). rewrite (tokens_perm _ _ c p t Hp), tokens_cons in H9. lia.
Qed.

(** One node moves, to its own term or a later one.  The ghost maps may gain the vote it casts and the
    votes it counts in the term it ends in. *)
Lemma einv_update ids V C V' C' y k n n' l : einv ids V C y → nodes y !! k = Some n →
  n_id n' = k → n_peers n' = n_peers n → Log.wf (n_log n') → currentTerm n ≤ currentTerm n' →
  (∀ x c, V !! x = Some c → V' !! x = Some c) →
  (∀ t p c, V' !! (t, p) = Some c → V !! (t, p) = Some c ∨
     t = currentTerm n' ∧ p = k ∧ (c = k ∨ ∀ x, nodes y !! c = Some x → t ≤ currentTerm x)) →
  V' !! (currentTerm n', k) = (if decide (votedFor n' = "") then None else Some (votedFor n')) →
  (∀ p, p ≠ k → ∀ t, V' !! (t, p) = V !! (t, p)) →
  (∀ t c, C' !! (t, c) = C !! (t, c) ∨ t = currentTerm n' ∧ c = k ∧
     ∃ Q, C' !! (t, c) = Some Q ∧ NoDup Q ∧ ∀ p, p ∈ Q → V' !! (t, p) = Some k) →
  (role n' = roleCandidate → ∃ Q, C' !! (currentTerm n', k) = Some Q ∧ length Q = votes n') →
  (role n' = roleLeader → ∃ Q, C' !! (currentTerm n', k) = Some Q ∧ length ids / 2 + 1 ≤ length Q) →
  (∀ m, m ∈ l → m ∈ net y ∨ (m_Type m = MsgVoteRequest → m_SenderID m = k ∧ m_TargetID m ≠ k ∧ m_Term m ≤ currentTerm n') ∧
     (m_Type m = MsgVoteResponse → m_VoteGranted m = true → V' !! (m_Term m, m_SenderID m) = Some (m_TargetID m))) →
  (∀ c p t, tokens l c p t + counted C' t c p ≤ 1) →
  einv ids V' C' (MkSys (<[k := n']> (nodes y)) l).
Proof.
  intros Hi Hk Hid Hpe Hwf Hle HV HV' Hvote Hoth HC Hcand Hlead Hl Htok.
  destruct (e_nodes _ _ _ _ Hi k n Hk) as (Hin & _ & Hpeers & _).
  assert (Hmono : ∀ t c x, (∀ n, nodes y !! c = Some n → t ≤ currentTerm n) → <[k := n']> (nodes y) !! c = Some x → t ≤ currentTerm x).
  { intros t c x Hx [[<- <-] | [_ Hc]]%lookup_insert_Some; [|by apply Hx]. specialize (Hx n Hk). lia. }
  assert (Hself : ∀ x, <[k := n']> (nodes y) !! k = Some x → x = n') by (intros x; rewrite lookup_insert_eq; congruence).
  split; simpl; [..|exact Htok].
  - intros j x [[<- <-] | [_ Hx]]%lookup_insert_Some; [|by apply (e_nodes _ _ _ _ Hi)]. split_and!; [done|done|congruence|done].
  - intros j x [[<- <-] | [Hne Hx]]%lookup_insert_Some; [done|]. rewrite Hoth by done. by apply (e_vote _ _ _ _ Hi).
  - intros t p c Hc. destruct (HV' t p c Hc) as [Hv | (-> & -> & Hv)].
    + destruct (e_past _ _ _ _ Hi _ _ _ Hv) as (? & ? & ?). split_and!; [done|eauto|eauto].
    + split_and!; [done|by intros x ->%Hself|]. destruct Hv as [-> | Hv]; [by intros x ->%Hself|].
      intros x [[<- <-] | [_ Hx]]%lookup_insert_Some; [done|by apply Hv].
  - intros t c Q HQ. destruct (HC t c) as [E | (-> & -> & Q' & HQ' & Hnd & Hq)].
    + rewrite E in HQ. destruct (e_count _ _ _ _ Hi _ _ _ HQ) as (? & ? & ?). split_and!; [done|eauto|eauto].
    + rewrite HQ' in HQ. injection HQ as <-. split_and!; [done|done|by intros x ->%Hself].
  - intros j x [[<- <-] | [Hne Hx]]%lookup_insert_Some Hr; [by apply Hcand|].
    destruct (HC (currentTerm x) j) as [-> | (_ & ? & _)]; [by apply (e_cand _ _ _ _ Hi)|done].
  - intros j x [[<- <-] | [Hne Hx]]%lookup_insert_Some Hr; [by apply Hlead|].
    destruct (HC (currentTerm x) j) as [-> | (_ & ? & _)]; [by apply (e_lead _ _ _ _ Hi)|done].
  - intros m Hm Ht. destruct (Hl m Hm) as [Hm' | [Hreq _]].
    + destruct (e_req _ _ _ _ Hi m Hm' Ht) as (? & ? & ?). split_and!; [done|done|eauto].
    + destruct (Hreq Ht) as (-> & ? & ?). split_and!; [done|done|by intros x ->%Hself].
  - intros m Hm Ht Hg. destruct (Hl m Hm) as [Hm' | [_ Hgr]]; [by apply HV, (e_grant _ _ _ _ Hi)|by apply Hgr].
Qed.

(** A node that takes no part in elections moves. *)
Lemma einv_passive ids V C y k n n' ms : einv ids V C y → nodes y !! k = Some n → passive n n' → Forall quiet ms →
  einv ids V C (put y k n' ms).
Proof.
  intros Hi Hk [Hid Hpe Hwf Hst] Hq. destruct (e_nodes _ _ _ _ Hi k n Hk) as (_ & Hn & _ & _).
  apply (einv_update ids V C V C y k n n'); try done; auto; [congruence|lia|..].
  - destruct Hst as [(Hlt & -> & _) | (-> & -> & _)]; [|by apply (e_vote _ _ _ _ Hi)].
    rewrite decide_True by done. apply eq_None_not_Some. intros [c Hc].
    destruct (e_past _ _ _ _ Hi _ _ _ Hc) as (_ & Hb & _). specialize (Hb n Hk). lia.
  - intros Hr. destruct Hst as [(_ & _ & ?) | (-> & _ & [? | [Hr' ->]])]; [congruence|congruence|].
    apply (e_cand _ _ _ _ Hi k n Hk). congruence.
  - intros Hr. destruct Hst as [(_ & _ & ?) | (-> & _ & [? | [Hr' _]])]; [congruence|congruence|].
    apply (e_lead _ _ _ _ Hi k n Hk). congruence.
  - intros m [Hm | Hm]%elem_of_app; [by left|right]. rewrite Forall_forall in Hq. destruct (Hq m Hm) as [Hq1 Hq2].
    split; [done|]. intros Ht Hg. rewrite Hq2 in Hg; done.
  - intros c p t. rewrite tokens_app, (tokens_quiet ms) by done. pose proof (e_tok _ _ _ _ Hi c p t). lia.
Qed.

(** The requests a new candidate sends. *)
Definition requests (k : string) (t li lt : nat) (ps : list string) : list Message :=
  (λ p, rmsg MsgVoteRequest k p t 0 0 [] 0 false 0 li lt false None) <$> ps.

Lemma tokens_requests k t li lt ps c p t' : NoDup ps →
  tokens (requests k t li lt ps) c p t' ≤ 1 ∧
  (tokens (requests k t li lt ps) c p t' = 1 → c = k ∧ t' = t ∧ p ∈ ps).
Proof.
  induction 1 as [|q ps Hq Hps [IH1 IH2]]; [split; [unfold tokens; simpl; lia|done]|]. unfold requests in *. cbn [fmap list_fmap]. rewrite tokens_cons.
  destruct (decide _) as [Hd|Hd].
  - assert (Hd' : c = k ∧ q = p ∧ t' = t) by (destruct Hd as [(_ & ? & ? & ?)|(? & _)]; [done|discriminate]).
    destruct Hd' as (-> & -> & ->).
    assert (tokens ((λ p0, rmsg MsgVoteRequest k p0 t 0 0 [] 0 false 0 li lt false None) <$> ps) k p t ≠ 1).
    { intros H1. destruct (IH2 H1) as (_ & _ & ?). done. }
    split; [lia|]. intros _. split_and!; [done|done|left].
  - split; [lia|]. intros H1. destruct (IH2 H1) as (? & ? & ?). split_and!; [done|done|by right].
Qed.

Lemma counted_insert C t c Q t' c' p :
  counted (<[(t, c) := Q]> C) t' c' p =
    if decide (t = t' ∧ c = c') then (if decide (p ∈ Q) then 1 else 0) else counted C t' c' p.
Proof.
  unfold counted. destruct (decide (t = t' ∧ c = c')) as [[-> ->]|Hne]; [by rewrite lookup_insert_eq|].
  rewrite lookup_insert_ne; [done|]. intros [= -> ->]. by apply Hne.
Qed.

(** No vote of a term that a node has not reached bears its name. *)
Lemma no_future_tokens ids V C y k n p t : einv ids V C y → nodes y !! k = Some n → currentTerm n < t →
  tokens (net y) k p t = 0 ∧ counted C t k p = 0.
Proof.
  intros Hi Hk Hlt. split.
  - unfold tokens. apply length_zero_iff_nil. apply list_filter_nil_2. intros m Hm [(Ht & Hs & _ & Htm)|(Ht & Hg & Hs & Htg & Htm)].
    + destruct (e_req _ _ _ _ Hi m Hm Ht) as (_ & _ & Hb). rewrite Hs in Hb. specialize (Hb n Hk). lia.
    + pose proof (e_grant _ _ _ _ Hi m Hm Ht Hg) as Hv. rewrite Htg, Htm in Hv.
      destruct (e_past _ _ _ _ Hi _ _ _ Hv) as (_ & _ & Hb). specialize (Hb n Hk). lia.
  - unfold counted. destruct (C !! (t, k)) as [Q|] eqn:HQ; [|by rewrite decide_False by apply not_elem_of_nil].
    destruct (e_count _ _ _ _ Hi _ _ _ HQ) as (_ & _ & Hb). specialize (Hb n Hk). lia.
Qed.

(** Becoming a candidate. *)
Lemma einv_elect ids V C y k n n' li lt : NoDup ids → k ≠ "" → einv ids V C y → nodes y !! k = Some n →
  n_id n' = k → n_peers n' = n_peers n → Log.wf (n_log n') → currentTerm n' = S (currentTerm n) → votedFor n' = k →
  role n' = roleCandidate → votes n' = 1 →
  einv ids (<[(S (currentTerm n), k) := k]> V) (<[(S (currentTerm n), k) := [k]]> C)
    (put y k n' (requests k (S (currentTerm n)) li lt (n_peers n'))).
Proof.
  intros Hnd Hne Hi Hk Hid Hpe Hwf Ht Hv Hr Hvo. rewrite <-Ht.
  destruct (e_nodes _ _ _ _ Hi k n Hk) as (Hin & _ & Hpeers & _).
  assert (HVn : V !! (currentTerm n', k) = None).
  { apply eq_None_not_Some. intros [c Hc]. destruct (e_past _ _ _ _ Hi _ _ _ Hc) as (_ & Hb & _). specialize (Hb n Hk). lia. }
  apply (einv_update ids V C _ _ y k n n'); try done; [lia|..].
  - intros x c Hx. rewrite lookup_insert_ne; congruence.
  - intros t p c [[[= <- <-] <-] | [_ Hx]]%lookup_insert_Some; [right|by left]. split_and!; [done|done|by left].
  - rewrite Hv, lookup_insert_eq. by rewrite decide_False.
  - intros p Hp t. by rewrite lookup_insert_ne by congruence.
  - intros t c. destruct (decide ((currentTerm n', k) = (t, c))) as [[= <- <-]|E]; [right|left; by rewrite lookup_insert_ne].
    split_and!; [done|done|]. exists [k]. rewrite lookup_insert_eq. split_and!; [done|apply NoDup_singleton|].
    intros p ->%list_elem_of_singleton. by rewrite lookup_insert_eq.
  - intros _. exists [k]. by rewrite lookup_insert_eq.
  - congruence.
  - intros m [Hm | Hm]%elem_of_app; [by left|right]. apply list_elem_of_fmap in Hm as (p & -> & Hp).
    rewrite Hpe, Hpeers in Hp. by apply list_elem_of_filter in Hp as [? _].
  - intros c p t. rewrite tokens_app, counted_insert. pose proof (e_tok _ _ _ _ Hi c p t) as Hold.
    destruct (tokens_requests k (currentTerm n') li lt (n_peers n') c p t) as [Htk1 Htk2].
    { rewrite Hpe, Hpeers. by apply NoDup_filter. }
    destruct (decide (currentTerm n' = t ∧ k = c)) as [[<- <-]|Hn].
    + destruct (no_future_tokens _ _ _ _ k n p (currentTerm n') Hi Hk) as [Hz _]; [lia|].
      case_decide as Hd; [|lia]. apply list_elem_of_singleton in Hd as ->.
      match goal with |- ?a + ?b + 1 ≤ 1 => assert (b ≠ 1); [|lia] end.
      intros H1. destruct (Htk2 H1) as (_ & _ & Hp). rewrite Hpe, Hpeers in Hp. by apply list_elem_of_filter in Hp as [? _].
    + match goal with |- ?a + ?b + ?c ≤ 1 => assert (b ≠ 1); [|lia] end.
      intros H1. destruct (Htk2 H1) as (-> & -> & _). by apply Hn.
Qed.

(** Granting a vote: the request's token becomes the response's. *)
Lemma einv_grant ids V C y k n n' m l : "" ∉ ids → einv ids V C y → nodes y !! k = Some n → net y ≡ₚ m :: l →
  m_Type m = MsgVoteRequest → m_TargetID m = k → m_Term m = currentTerm n →
  votedFor n = "" ∨ votedFor n = m_SenderID m →
  n_id n' = k → n_peers n' = n_peers n → Log.wf (n_log n') → currentTerm n' = currentTerm n →
  votedFor n' = m_SenderID m → role n' = role n → votes n' = votes n →
  einv ids (<[(currentTerm n, k) := m_SenderID m]> V) C
    (put (MkSys (nodes y) l) k n' [rmsg MsgVoteResponse k (m_SenderID m) (currentTerm n) 0 0 [] 0 false 0 0 0 true None]).
Proof.
  intros Hne Hi Hk Hp Hty Htg Htm Hvf Hid Hpe Hwf Ht Hv Hr Hvo.
  assert (Hm : m ∈ net y) by (rewrite Hp; left). destruct (e_req _ _ _ _ Hi m Hm Hty) as (Hs1 & Hs2 & Hs3).
  pose proof (e_vote _ _ _ _ Hi k n Hk) as Hvn.
  apply (einv_update ids V C _ C y k n n'); try done; auto; [by rewrite Ht|..]; rewrite ?Ht.
  - intros x c Hx. destruct (decide ((currentTerm n, k) = x)) as [<-|]; [|by rewrite lookup_insert_ne].
    rewrite lookup_insert_eq. rewrite Hx in Hvn. destruct Hvf as [E|E]; case_decide; congruence.
  - intros t p c [[[= <- <-] <-] | [_ Hx]]%lookup_insert_Some; [right|by left]. split_and!; [done|done|right].
    by rewrite <-Htm.
  - rewrite lookup_insert_eq, Hv. rewrite decide_False; [done|]. intros E. by rewrite E in Hs1.
  - intros p Hpk t. by rewrite lookup_insert_ne by congruence.
  - rewrite Hr, Hvo. apply (e_cand _ _ _ _ Hi k n Hk).
  - rewrite Hr. apply (e_lead _ _ _ _ Hi k n Hk).
  - intros x [Hx | ->%list_elem_of_singleton]%elem_of_app; [left; rewrite Hp; by right|right].
    split; [done|]. intros _ _. simpl. by rewrite lookup_insert_eq.
  - intros c p t. pose proof (e_tok _ _ _ _ Hi c p t) as Hold. rewrite (tokens_perm _ _ c p t Hp), tokens_cons in Hold.
    rewrite tokens_app, tokens_cons. change (tokens [] c p t) with 0.
    destruct (decide (is_token c p t (rmsg _ _ _ _ _ _ _ _ _ _ _ _ _ _))) as [Hd|]; [|simpl; lia].
    destruct Hd as [(? & _)|(_ & _ & <- & <- & <-)]; [done|]. simpl in Hold |- *.
    rewrite decide_True in Hold; [lia|]. left. by rewrite Htm.
Qed.

(** Counting a vote: the response's token becomes a counted vote. *)
Lemma einv_counted ids V C y k n n' m l ms : NoDup ids → einv ids V C y → nodes y !! k = Some n → net y ≡ₚ m :: l →
  m_Type m = MsgVoteResponse → m_VoteGranted m = true → m_TargetID m = k → m_Term m = currentTerm n → role n = roleCandidate →
  n_id n' = k → n_peers n' = n_peers n → Log.wf (n_log n') → currentTerm n' = currentTerm n → votedFor n' = votedFor n →
  votes n' = S (votes n) → role n' = roleCandidate ∨ role n' = roleLeader ∧ majority n ≤ S (votes n) → Forall quiet ms →
  ∃ C', einv ids V C' (put (MkSys (nodes y) l) k n' ms).
Proof.
  intros Hnd Hi Hk Hp Hty Hg Htg Htm Hr Hid Hpe Hwf Ht Hv Hvo Hr' Hq.
  assert (Hm : m ∈ net y) by (rewrite Hp; left). pose proof (e_grant _ _ _ _ Hi m Hm Hty Hg) as Hvote.
  rewrite Htm, Htg in Hvote. destruct (e_cand _ _ _ _ Hi k n Hk Hr) as (Q & HQ & Hlen).
  destruct (e_count _ _ _ _ Hi _ _ _ HQ) as (HndQ & HVQ & _).
  destruct (e_nodes _ _ _ _ Hi k n Hk) as (Hin & _ & Hpeers & _).
  assert (Htokm : is_token k (m_SenderID m) (currentTerm n) m) by (right; done).
  assert (Hfresh : m_SenderID m ∉ Q).
  { intros Hx. pose proof (e_tok _ _ _ _ Hi k (m_SenderID m) (currentTerm n)) as Hold.
    rewrite (tokens_perm _ _ _ _ _ Hp), tokens_cons, decide_True in Hold by done.
    unfold counted in Hold. rewrite HQ in Hold. simpl in Hold. rewrite decide_True in Hold by done. lia. }
  set (Q' := m_SenderID m :: Q). exists (<[(currentTerm n, k) := Q']> C).
  apply (einv_update ids V C V _ y k n n'); try done; auto; [by rewrite Ht|..]; rewrite ?Ht.
  - rewrite Hv. by apply (e_vote _ _ _ _ Hi).
  - intros t c. destruct (decide ((currentTerm n, k) = (t, c))) as [[= <- <-]|E]; [right|left; by rewrite lookup_insert_ne].
    split_and!; [done|done|]. exists Q'. rewrite lookup_insert_eq. split_and!; [done|by constructor|].
    intros p [-> | Hx]%elem_of_cons; [done|by apply HVQ].
  - intros _. exists Q'. rewrite lookup_insert_eq. split; [done|]. simpl. by rewrite Hlen, Hvo.
  - intros Hl. exists Q'. rewrite lookup_insert_eq. split; [done|]. simpl. rewrite Hlen.
    destruct Hr' as [? | [_ Hmaj]]; [congruence|]. unfold majority in Hmaj. rewrite Hpeers in Hmaj.
    replace (length (filter (λ p, p ≠ k) ids) + 1) with (length ids) in Hmaj; [done|]. rewrite (length_filter_ne ids k) by done. lia.
  - intros x [Hx | Hx]%elem_of_app; [left; rewrite Hp; by right|right]. rewrite Forall_forall in Hq. destruct (Hq x Hx) as [Hq1 Hq2].
    split; [done|]. intros Hy Hgx. rewrite Hq2 in Hgx; done.
  - intros c p t. pose proof (e_tok _ _ _ _ Hi c p t) as Hold. rewrite (tokens_perm _ _ c p t Hp), tokens_cons in Hold.
    rewrite tokens_app, (tokens_quiet ms), counted_insert by done.
    cbn [net]. destruct (decide (currentTerm n = t ∧ k = c)) as [[<- <-]|Hn]; [|lia].
    unfold counted in Hold. rewrite HQ in Hold. simpl in Hold. unfold Q'.
    destruct (decide (p ∈ m_SenderID m :: Q)) as [[-> | Hx]%elem_of_cons|]; [..|lia].
    + rewrite decide_True in Hold by done. lia.
    + rewrite (decide_True (P := p ∈ Q)) in Hold by done. lia.
Qed.

(** What a step establishes: it does not panic, keeps the invariant and forgets no vote. *)
Definition keeps (ids : list string) (V : votesT) (r : Res Sys) : Prop :=
  ∃ y V' C', r = Ok y ∧ einv ids V' C' y ∧ V ⊆ V'.

Lemma keeps_same ids V C y : einv ids V C y → keeps ids V (Ok y).
Proof. intros. by exists y, V, C. Qed.

Lemma keeps_passive ids V C y k n n' ms : einv ids V C y → nodes y !! k = Some n → passive n n' → Forall quiet ms →
  keeps ids V (Ok (put y k n' ms)).
Proof. intros. eapply keeps_same, einv_passive; eauto. Qed.

Section step.
Context (ids : list string) (Hnd : NoDup ids) (Hne : "" ∉ ids).

Lemma elect_keeps V C y k n b : einv ids V C y → nodes y !! k = Some n →
  keeps ids V (r ← maybeElect n b; Ok (put y k r.1 r.2)).
Proof using Hnd Hne.
  intros Hi Hk. destruct (e_nodes _ _ _ _ Hi k n Hk) as (Hin & Hid & Hpe & Hwf). unfold maybeElect.
  destruct (_ || _); [simpl; eapply keeps_passive; eauto using passive_refl|].
  set (n' := MkRaft _ _ _ _ _ _ _ _ _). change (n_log n') with (n_log n). rewrite Log.LastIndexTerm_spec by done. simpl.
  assert (k ≠ "") by (intros ->; done).
  eexists _, _, _. split_and!; [done| |].
  - change (n_id n') with (n_id n). rewrite Hid. apply (einv_elect ids V C y k n n'); done.
  - apply insert_subseteq. apply eq_None_not_Some. intros [c Hc].
    destruct (e_past _ _ _ _ Hi _ _ _ Hc) as (_ & Hb & _). specialize (Hb n Hk). lia.
Qed.

(** Handling a vote request. *)
Lemma request_keeps V C y k n m l : einv ids V C y → nodes y !! k = Some n → net y ≡ₚ m :: l →
  m_Type m = MsgVoteRequest → m_TargetID m = k →
  keeps ids V (r ← handleVoteRequest n m; Ok (put (MkSys (nodes y) l) k r.1 r.2)).
Proof using Hnd Hne.
  intros Hi Hk Hp Hty Htg. destruct (e_nodes _ _ _ _ Hi k n Hk) as (Hin & Hid & Hpe & Hwf). unfold handleVoteRequest.
  set (n1 := if currentTerm n <? m_Term m then stepDownLocked n (m_Term m) else n).
  assert (Hpas : passive n n1).
  { unfold n1. destruct (Nat.ltb_spec (currentTerm n) (m_Term m)); [by apply stepDown_passive|by apply passive_refl]. }
  assert (Hno : ∀ n2, passive n n2 → keeps ids V (Ok (put (MkSys (nodes y) l) k n2
    [rmsg MsgVoteResponse (n_id n2) (m_SenderID m) (currentTerm n2) 0 0 [] 0 false 0 0 0 false None]))).
  { intros n2 H2. eapply keeps_passive; [by eapply einv_drop|done|done|]. repeat constructor; done. }
  destruct (_ && _) eqn:Hc; [|by apply Hno]. apply andb_true_iff in Hc as [Ht%Nat.eqb_eq Hvf%orb_true_iff].
  rewrite !bool_decide_eq_true in Hvf.
  pose proof (pa_wf _ _ Hpas) as Hwf1. rewrite Log.LastIndexTerm_spec by done. simpl.
  destruct (_ || _); [|by apply Hno].
  pose proof (einv_passive ids V C y k n n1 [] Hi Hk Hpas ltac:(constructor)) as Hi1.
  eexists _, _, C. split_and!; [done| |].
  - simpl. assert (Hput : ∀ n3 ms, put (MkSys (nodes y) l) k n3 ms = put (MkSys (nodes (put y k n1 [])) l) k n3 ms).
    { intros. unfold put. simpl. by rewrite insert_insert_eq. }
    rewrite Hput. match goal with |- einv _ _ _ (put _ _ ?x _) => set (n3 := x) end.
    assert (Hid3 : n_id n3 = k) by (unfold n3; rewrite <-Hid; apply (pa_id _ _ Hpas)).
    rewrite Hid3. change (currentTerm n3) with (currentTerm n1).
    eapply (einv_grant ids V C (put y k n1 []) k n1 n3 m l); try done; simpl; [by rewrite lookup_insert_eq|by rewrite app_nil_r].
  - pose proof (e_vote _ _ _ _ Hi1 k n1 ltac:(simpl; by rewrite lookup_insert_eq)) as Hv.
    destruct (V !! (currentTerm n1, k)) as [c|] eqn:E; [|by apply insert_subseteq].
    rewrite insert_id; [done|]. rewrite E. destruct Hvf; case_decide; congruence.
Qed.

(** Handling a vote response. *)
Lemma response_keeps V C y k n m l : einv ids V C y → nodes y !! k = Some n → net y ≡ₚ m :: l →
  m_Type m = MsgVoteResponse → m_TargetID m = k →
  keeps ids V (r ← handleVoteResponse n m; Ok (put (MkSys (nodes y) l) k r.1 r.2)).
Proof using Hnd Hne.
  intros Hi Hk Hp Hty Htg. destruct (e_nodes _ _ _ _ Hi k n Hk) as (Hin & Hid & Hpe & Hwf). unfold handleVoteResponse.
  assert (Hno : ∀ n2, passive n n2 → keeps ids V (Ok (put (MkSys (nodes y) l) k n2 []))).
  { intros n2 H2. eapply keeps_passive; [by eapply einv_drop|done|done|constructor]. }
  destruct (Nat.ltb_spec (currentTerm n) (m_Term m)); [simpl; by apply Hno, stepDown_passive|].
  destruct (_ || _) eqn:Hc; [simpl; by apply Hno, passive_refl|]. apply orb_false_iff in Hc as [Hr Ht].
  apply negb_false_iff, bool_decide_eq_true in Hr. apply negb_false_iff, Nat.eqb_eq in Ht.
  destruct (m_VoteGranted m) eqn:Hg; [|simpl; by apply Hno, passive_refl].
  match goal with |- context [becomeLeaderLocked ?x] => set (n1 := x) end.
  change (majority n1) with (majority n). change (votes n1) with (S (votes n)).
  assert (Hcount : ∀ n2 ms, n_id n2 = k → n_peers n2 = n_peers n → Log.wf (n_log n2) → currentTerm n2 = currentTerm n →
    votedFor n2 = votedFor n → votes n2 = S (votes n) → role n2 = roleCandidate ∨ role n2 = roleLeader ∧ majority n ≤ S (votes n) →
    Forall quiet ms → keeps ids V (Ok (put (MkSys (nodes y) l) k n2 ms))).
  { intros n2 ms. intros. destruct (einv_counted ids V C y k n n2 m l ms) as [C' HC']; try done. by exists (put (MkSys (nodes y) l) k n2 ms), V, C'. }
  destruct (Nat.leb_spec (majority n) (S (votes n))) as [Hmaj|]; [|by apply Hcount; auto].
  unfold becomeLeaderLocked. set (n2 := MkRaft _ _ _ _ _ _ _ _ _).
  destruct (maybeHeartbeat_quiet n2 Hwf) as (ms & -> & Hq). simpl. apply Hcount; auto.
Qed.

Lemma deliver_keeps V C y k n m l : einv ids V C y → nodes y !! k = Some n → net y ≡ₚ m :: l → m_TargetID m = k →
  keeps ids V (r ← HandleMessage n m; Ok (put (MkSys (nodes y) l) k r.1 r.2)).
Proof using Hnd Hne.
  intros Hi Hk Hp Htg. destruct (e_nodes _ _ _ _ Hi k n Hk) as (Hin & Hid & Hpe & Hwf). unfold HandleMessage.
  assert (Hno : ∀ n2 ms, passive n n2 → Forall quiet ms → keeps ids V (Ok (put (MkSys (nodes y) l) k n2 ms))).
  { intros n2 ms H2 Hq. by eapply keeps_passive; [by eapply einv_drop|..]. }
  assert (Hnop : keeps ids V (Ok (put (MkSys (nodes y) l) k n []))) by (apply Hno; [by apply passive_refl|constructor]).
  destruct (Node.isPaused (base n)); [done|]. destruct (m_Type m) eqn:Hty; try done.
  - destruct (handleAppendEntries_passive n m Hwf) as (n' & ms & -> & H1 & H2). by apply Hno.
  - destruct (handleAppendAck_passive n m Hwf) as (n' & -> & H1). simpl. by apply Hno.
  - by eapply request_keeps.
  - by eapply response_keeps.
  - pose proof (handleInstallSnap_passive n m Hwf) as H1. destruct (handleInstallSnap n m) as [n' ms]. simpl. by apply Hno; apply H1.
Qed.

Lemma sys_step_keeps V C y a : einv ids V C y → keeps ids V (sys_step y a).
Proof using Hnd Hne.
  intros Hi. destruct a as [k b|k|i|i|k now key value op|k st|k ms]; cbn [sys_step].
  - destruct (nodes y !! k) as [n|] eqn:Hk; [|by eapply keeps_same]. destruct (Node.isPaused _); [by eapply keeps_same|].
    by eapply elect_keeps.
  - destruct (nodes y !! k) as [n|] eqn:Hk; [|by eapply keeps_same]. destruct (Node.isPaused _); [by eapply keeps_same|].
    destruct (e_nodes _ _ _ _ Hi k n Hk) as (_ & _ & _ & Hwf).
    destruct (maybeHeartbeat_quiet n Hwf) as (ms & -> & Hq). destruct (maybeCompact_same n Hwf) as (n' & Hc & Hs).
    rewrite Res_bind_Ok, Hc, Res_bind_Ok. eapply keeps_passive; [done|done|by apply same_passive|done].
  - destruct (net y !! i) as [m|] eqn:Hm; [|by eapply keeps_same]. pose proof (remove_at_perm i (net y) m Hm) as Hp.
    cbn [nodes]. destruct (nodes y !! m_TargetID m) as [n|] eqn:Hk; [by eapply deliver_keeps|].
    eapply keeps_same. by eapply einv_drop.
  - destruct (net y !! i) as [m|] eqn:Hm.
    + eapply keeps_same, einv_drop; [done|by apply remove_at_perm].
    + apply lookup_ge_None in Hm. unfold remove_at. rewrite take_ge, drop_ge, app_nil_r by lia. destruct y. by eapply keeps_same.
  - destruct (nodes y !! k) as [n|] eqn:Hk; [|by eapply keeps_same]. destruct (Node.isPaused _); [by eapply keeps_same|].
    destruct (e_nodes _ _ _ _ Hi k n Hk) as (_ & _ & _ & Hwf). unfold propose, Node.HLCNow.
    destruct (negb _); [simpl; by eapply keeps_same|]. destruct (HLC.Now _ now) as [ts h].
    match goal with |- context [Log.Append ?l ?e] => pose proof (Log.Append_spec l e Hwf) as Ha; destruct (Log.Append l e) as [idx l'] end.
    destruct Ha as (_ & Hl' & _). match goal with |- context [send_all ?x ?p] =>
      destruct (send_all_quiet x p Hl') as (ms & -> & Hq) end.
    simpl. eapply keeps_passive; [done|done|apply same_passive; by split|done].
  - destruct (nodes y !! k) as [n|] eqn:Hk; [|by eapply keeps_same].
    destruct (e_nodes _ _ _ _ Hi k n Hk) as (_ & _ & _ & Hwf).
    eapply keeps_passive; [done|done|apply same_passive; by split|constructor].
  - destruct (nodes y !! k) as [n|] eqn:Hk; [|by eapply keeps_same].
    destruct (e_nodes _ _ _ _ Hi k n Hk) as (_ & _ & _ & Hwf).
    eapply keeps_passive; [done|done|apply same_passive; by split|constructor].
Qed.

Lemma sys_run_keeps acts : ∀ V C y, einv ids V C y → keeps ids V (sys_run y acts).
Proof using Hnd Hne.
  induction acts as [|a acts IH]; intros V C y Hi; cbn [sys_run]; [by eapply keeps_same|].
  destruct (sys_step_keeps V C y a Hi) as (y1 & V1 & C1 & -> & H1 & Hs1). rewrite Res_bind_Ok.
  destruct (IH V1 C1 y1 H1) as (y2 & V2 & C2 & -> & H2 & Hs2). exists y2, V2, C2. split_and!; [done|done|by transitivity V1].
Qed.

End step.

Lemma AddPeers l : ∀ b, NoDup (Node.peers b ++ l) → Node.peers (foldl Node.AddPeer b l) = Node.peers b ++ l ∧
  Node.id (foldl Node.AddPeer b l) = Node.id b ∧ Node.log (foldl Node.AddPeer b l) = Node.log b.
Proof.
  induction l as [|p l IH]; intros b Hnd; [by rewrite app_nil_r|]. cbn [foldl].
  assert (Hp : p ∉ Node.peers b).
  { apply NoDup_app in Hnd as (_ & H & _). intros Hin. apply (H p Hin). left. }
  assert (Hadd : Node.AddPeer b p = Node.set_peers b (Node.peers b ++ [p])).
  { unfold Node.AddPeer. destruct (existsb _ _) eqn:E; [|done]. apply existsb_exists in E as (x & Hx & Hd).
    apply bool_decide_eq_true in Hd as ->. by apply list_elem_of_In in Hx. }
  rewrite Hadd. destruct (IH (Node.set_peers b (Node.peers b ++ [p]))) as (H1 & H2 & H3); simpl.
  { by rewrite <-(assoc_L (++)). }
  rewrite H1, H2, H3. simpl. by rewrite <-(assoc_L (++)).
Qed.

Lemma fresh_base ids k : NoDup ids → n_id (fresh ids k) = k ∧ n_peers (fresh ids k) = filter (λ p, p ≠ k) ids ∧
  n_log (fresh ids k) = Log.NewReplicationLog.
Proof.
  intros Hnd. unfold fresh. destruct (AddPeers (filter (λ p, p ≠ k) ids) (base (NewRaftNode k))) as (H1 & H2 & H3).
  { simpl. by apply NoDup_filter. }
  unfold n_id, n_peers, n_log, Node.GetPeers. cbn [base with_base]. rewrite H1, H2, H3. done.
Qed.

Lemma sys_init_nodes ids k n : nodes (sys_init ids) !! k = Some n → k ∈ ids ∧ n = fresh ids k.
Proof.
  intros Hk. apply elem_of_list_to_map_2 in Hk. apply list_elem_of_fmap in Hk as (x & [= -> ->] & Hx). done.
Qed.

Lemma sys_init_einv ids : NoDup ids → einv ids ∅ ∅ (sys_init ids).
Proof.
  intros Hnd. split.
  - intros k n [Hin ->]%sys_init_nodes. destruct (fresh_base ids k Hnd) as (-> & -> & ->). split_and!; [done|done|done|apply Log.wf_New].
  - intros k n [_ ->]%sys_init_nodes. by rewrite lookup_empty, decide_True.
  - intros t p c. by rewrite lookup_empty.
  - intros t c Q. by rewrite lookup_empty.
  - by intros k n [_ ->]%sys_init_nodes.
  - by intros k n [_ ->]%sys_init_nodes.
  - by intros m ?%elem_of_nil.
  - by intros m ?%elem_of_nil.
  - intros c p t. unfold counted, tokens. rewrite lookup_empty. simpl. lia.
Qed.

(** Two quorums of one term chose the same leader. *)
Lemma same_leader ids V1 V2 C1 C2 y1 y2 a b na nb : NoDup ids → einv ids V1 C1 y1 → einv ids V2 C2 y2 → V1 ⊆ V2 →
  nodes y1 !! a = Some na → role na = roleLeader → nodes y2 !! b = Some nb → role nb = roleLeader →
  currentTerm na = currentTerm nb → a = b.
Proof.
  intros Hnd H1 H2 Hsub Ha Hra Hb Hrb Ht.
  destruct (e_lead _ _ _ _ H1 a na Ha Hra) as (Q1 & HQ1 & Hl1). destruct (e_lead _ _ _ _ H2 b nb Hb Hrb) as (Q2 & HQ2 & Hl2).
  destruct (e_count _ _ _ _ H1 _ _ _ HQ1) as (Hn1 & Hv1 & _). destruct (e_count _ _ _ _ H2 _ _ _ HQ2) as (Hn2 & Hv2 & _).
  destruct (quorums_intersect ids Q1 Q2) as (p & Hp1 & Hp2); try done.
  - intros p Hp. by destruct (e_past _ _ _ _ H1 _ _ _ (Hv1 p Hp)).
  - intros p Hp. by destruct (e_past _ _ _ _ H2 _ _ _ (Hv2 p Hp)).
  - pose proof (Nat.div_mod (length ids) 2 ltac:(lia)). pose proof (Nat.mod_upper_bound (length ids) 2 ltac:(lia)). lia.
  - pose proof (lookup_weaken _ _ _ _ (Hv1 p Hp1) Hsub) as Hv. rewrite Ht, (Hv2 p Hp2) in Hv. congruence.
Qed.

(** *** A cluster of one *)

(** Alone: no peers, no messages, not a leader. *)
Definition alone (k : string) (y : Sys) : Prop :=
  net y = [] ∧ dom (nodes y) = {[k]} ∧ ∀ n, nodes y !! k = Some n → n_peers n = [] ∧ Log.wf (n_log n) ∧ role n ≠ roleLeader.

Lemma put_alone k y n : alone k y → is_Some (nodes y !! k) → n_peers n = [] → Log.wf (n_log n) → role n ≠ roleLeader →
  alone k (put y k n []).
Proof.
  intros (Hn & Hd & Hk) Hs Hp Hw Hr. unfold alone, put; simpl. rewrite Hn. split_and!; [done| |].
  - rewrite dom_insert_L, Hd. set_solver.
  - intros x. rewrite lookup_insert_eq. by intros [= <-].
Qed.

Lemma alone_step k y a : alone k y → ∃ y', sys_step y a = Ok y' ∧ alone k y'.
Proof.
  intros Ha. pose proof Ha as (Hn & Hd & Hk).
  assert (Hnode : ∀ j n, nodes y !! j = Some n → j = k ∧ n_peers n = [] ∧ Log.wf (n_log n) ∧ role n ≠ roleLeader).
  { intros j n Hj. assert (j = k) as -> by (apply elem_of_dom_2 in Hj; set_solver). split; [done|by apply Hk]. }
  destruct a as [j b|j|i|i|j now key value op|j st|j ms]; cbn [sys_step].
  - destruct (nodes y !! j) as [n|] eqn:Hj; [|eauto]. destruct (Hnode j n Hj) as (-> & Hp & Hw & Hr).
    destruct (Node.isPaused _); [eauto|]. unfold maybeElect.
    destruct (_ || _); [simpl; eexists; split; [done|]; by apply put_alone|].
    match goal with |- context [Log.LastIndexTerm (n_log ?x)] => change (n_log x) with (n_log n); set (n' := x) end.
    rewrite Log.LastIndexTerm_spec by done. simpl. change (n_peers n') with (n_peers n). rewrite Hp. simpl.
    eexists; split; [done|]. by apply put_alone.
  - destruct (nodes y !! j) as [n|] eqn:Hj; [|eauto]. destruct (Hnode j n Hj) as (-> & Hp & Hw & Hr).
    destruct (Node.isPaused _); [eauto|]. unfold maybeHeartbeat. rewrite bool_decide_eq_false_2 by done. simpl.
    destruct (maybeCompact_same n Hw) as (n' & -> & Hs). simpl. eexists; split; [done|].
    apply put_alone; [done|by eexists| |apply Hs|]; [by rewrite (sv_peers _ _ Hs)|by rewrite (sv_role _ _ Hs)].
  - rewrite Hn. simpl. eauto.
  - rewrite Hn. unfold remove_at. rewrite take_nil, drop_nil. simpl. eexists; split; [done|]. by split.
  - destruct (nodes y !! j) as [n|] eqn:Hj; [|eauto]. destruct (Hnode j n Hj) as (-> & Hp & Hw & Hr).
    destruct (Node.isPaused _); [eauto|]. unfold propose. rewrite bool_decide_eq_false_2 by done. simpl. eauto.
  - destruct (nodes y !! j) as [n|] eqn:Hj; [|eauto]. destruct (Hnode j n Hj) as (-> & Hp & Hw & Hr).
    eexists; split; [done|]. by apply put_alone.
  - destruct (nodes y !! j) as [n|] eqn:Hj; [|eauto]. destruct (Hnode j n Hj) as (-> & Hp & Hw & Hr).
    eexists; split; [done|]. by apply put_alone.
Qed.

End raft.
End Raft.

Import Message Raft.

(** Election safety. In a cluster of nodes with distinct, non-empty names, started fresh, on a
    network that may lose and reorder messages: whatever the timers, clients, pauses and deliveries do,
    no node panics, and two nodes that lead the same term, at the same moment or at different moments
    of the run, are the same node. *)
Theorem raft_election_safety (Marshal : gmap string KVEntry → string) (Unmarshal : string → option (gmap string KVEntry))
  (ids : list string) (acts1 acts2 : list action) (Hnd : NoDup ids) (Hne : "" ∉ ids) :
  ∃ y1 y2, sys_run Marshal Unmarshal (sys_init ids) acts1 = Ok y1 ∧ sys_run Marshal Unmarshal y1 acts2 = Ok y2 ∧
    ∀ a b na nb, nodes y1 !! a = Some na → role na = roleLeader → nodes y2 !! b = Some nb → role nb = roleLeader →
      currentTerm na = currentTerm nb → a = b.
Proof.
  destruct (sys_run_keeps Marshal Unmarshal ids Hnd Hne acts1 ∅ ∅ _ (sys_init_einv ids Hnd)) as (y1 & V1 & C1 & Hr1 & H1 & _).
  destruct (sys_run_keeps Marshal Unmarshal ids Hnd Hne acts2 V1 C1 y1 H1) as (y2 & V2 & C2 & Hr2 & H2 & Hs).
  exists y1, y2. split_and!; [done|done|]. intros a b na nb. by eapply same_leader.
Qed.

Lemma raft_election_safety_witness :
  ∃ y1 y2, sys_run (λ _, "") (λ _, None) (sys_init ["a"; "b"; "c"]) [AElect "a" true; ADeliver 0; ADeliver 1] = Ok y1 ∧
    sys_run (λ _, "") (λ _, None) y1 [AElect "b" true; ADeliver 0] = Ok y2 ∧
    (role <$> (nodes y1 !! "a")) = Some roleLeader ∧
    ∀ b na nb, nodes y1 !! "a" = Some na → nodes y2 !! b = Some nb → role nb = roleLeader → currentTerm na = currentTerm nb → "a" = b.
Proof.
  destruct (raft_election_safety (λ _, "") (λ _, None) ["a"; "b"; "c"] [AElect "a" true; ADeliver 0; ADeliver 1] [AElect "b" true; ADeliver 0])
    as (y1 & y2 & H1 & H2 & Hs).
  - apply (bool_decide_unpack _). by vm_compute.
  - apply (bool_decide_unpack _). by vm_compute.
  - exists y1, y2. assert (Hr : (role <$> (nodes y1 !! "a")) = Some roleLeader) by (vm_compute in H1; injection H1 as <-; by vm_compute).
    split_and!; [done|done|done|]. intros b na nb Ha Hb Hrb Ht.
    assert (role na = roleLeader) by (rewrite Ha in Hr; simpl in Hr; congruence). by eapply Hs.
Defined.

(** C34. A committed write can be lost. A follower acknowledges the last index of its whole log, also of
    entries the leader has not compared with its own, and the leader counts that as replication. In
    this run of three nodes, where every link delivers in order, leader [A] commits and acknowledges a
    client's write at index 1 that no other node holds; [B] is then elected in the next term and
    commits a different entry at the same index. *)
Theorem raft_commits_unreplicated (Marshal : gmap string KVEntry → string) (Unmarshal : string → option (gmap string KVEntry)) :
  ∃ acts1 acts2 y1 y2,
    sys_run Marshal Unmarshal (sys_init ["A"; "B"; "C"]) acts1 = Ok y1 ∧
    (∃ a b c e, nodes y1 !! "A" = Some a ∧ nodes y1 !! "B" = Some b ∧ nodes y1 !! "C" = Some c ∧
       role a = roleLeader ∧ Log.Get (n_log a) 1 = Ok (Some e) ∧ le_Key e = "x" ∧ wait_end a 1 = None ∧
       is_Some (Store.Get (n_store a) "x") ∧ ¬ (e ∈ Log.entries (n_log b)) ∧ ¬ (e ∈ Log.entries (n_log c))) ∧
    sys_run Marshal Unmarshal y1 acts2 = Ok y2 ∧
    (∃ b e', nodes y2 !! "B" = Some b ∧ role b = roleLeader ∧ wait_end b 1 = None ∧
       Log.Get (n_log b) 1 = Ok (Some e') ∧ le_Key e' = "u" ∧ Store.Get (n_store b) "x" = None ∧
       is_Some (Store.Get (n_store b) "u")).
Proof.
  set (stale := [AElect "B" true; ADeliver 0; ADeliver 1; ADrop 0; ADrop 0; ADrop 0;
    APropose "B" 1 "u" (Some "1") OpSet; ADrop 0; ADrop 0; APropose "B" 2 "v" (Some "2") OpSet; ADrop 0; ADrop 0]).
  set (acts1 := stale ++ [AElect "A" true; ADrop 0; ADeliver 0; ADeliver 0; ADeliver 0; ADeliver 0; ADeliver 0;
    APropose "A" 3 "x" (Some "3") OpSet; ADrop 1; ADrop 1; ADeliver 0]).
  set (acts2 := [AState "A" Node.StatePaused; AElect "B" true; ADrop 0; ADeliver 0; ADeliver 0; ADrop 0; ADrop 0;
    APropose "B" 9 "w" (Some "4") OpSet; ADrop 0; ADeliver 0; ADeliver 0; ABeat "B"; ADrop 0; ADeliver 0; ADeliver 0;
    ABeat "B"; ADrop 0; ADeliver 0; ADeliver 0]).
  exists acts1, acts2. eexists _, _. split; [vm_compute; reflexivity|]. split.
  { eexists _, _, _, _. split_and!; [vm_compute; reflexivity..| | |].
    - vm_compute. eauto.
    - apply (bool_decide_unpack _). vm_compute. exact I.
    - apply (bool_decide_unpack _). vm_compute. exact I. }
  split; [vm_compute; reflexivity|].
  eexists _, _. split_and!; [vm_compute; reflexivity..|]. vm_compute. eauto.
Qed.

(** A cluster of one never elects a leader. Votes are compared with the majority only when a
    response arrives, and a lone node sends no requests: whatever happens, it is never leader, so every
    write and read is refused, although its own vote already is a majority. *)
Theorem raft_single_node_never_leads (Marshal : gmap string KVEntry → string) (Unmarshal : string → option (gmap string KVEntry))
  (k : string) (acts : list action) :
  majority (fresh [k] k) = 1 ∧
  ∃ y n, sys_run Marshal Unmarshal (sys_init [k]) acts = Ok y ∧ nodes y !! k = Some n ∧ role n ≠ roleLeader ∧
    (∀ key, ∃ e, Read n key = inl e) ∧ ∀ now key value op, ∃ e, propose Marshal n now key value op = Ok (inl e).
Proof.
  assert (Hf : n_peers (fresh [k] k) = []).
  { destruct (fresh_base [k] k (NoDup_singleton k)) as (_ & -> & _). rewrite filter_cons, decide_False by auto. done. }
  split; [unfold majority; by rewrite Hf|].
  assert (Hrun : ∀ acts y, alone k y → ∃ y', sys_run Marshal Unmarshal y acts = Ok y' ∧ alone k y').
  { clear. induction acts as [|a acts IH]; intros y Hy; cbn [sys_run]; [eauto|].
    destruct (alone_step Marshal Unmarshal k y a Hy) as (y1 & -> & H1). rewrite Res_bind_Ok. by apply IH. }
  destruct (Hrun acts (sys_init [k])) as (y & Hr & Hy).
  { split_and!; [done|simpl; by rewrite insert_empty, dom_singleton_L|]. intros n [_ ->]%sys_init_nodes.
    split_and!; [done| |done]. destruct (fresh_base [k] k (NoDup_singleton k)) as (_ & _ & ->). apply Log.wf_New. }
  destruct Hy as (_ & Hd & Hk). assert (Hs : is_Some (nodes y !! k)) by (apply elem_of_dom; set_solver).
  destruct Hs as [n Hn]. destruct (Hk n Hn) as (_ & _ & Hrl). exists y, n.
  split_and!; [done|done|done| |].
  - intros key. unfold Read. rewrite bool_decide_eq_false_2 by done. destruct (Node.isPaused _); simpl; eauto.
  - intros. unfold propose. rewrite bool_decide_eq_false_2 by done. simpl. eauto.
Qed.
