(* ===== verification/Cluster.v ===== *)
(** * Clusters and their orchestrator

    Models [src/internal/simulation/orchestrator.go], [membership.go], [presets.go], the
    classification of [captheorem.go], the history checks of [checkers.go] and the region, placement
    and conflict operations of [observability.go]: creating clusters of the node types, changing their
    membership, routing client calls, injecting faults.

    A client call is routed here; the whole call is in [Service].  New identifiers are arguments.  A
    panic of the code (an identifier too short to abbreviate, the first element of an empty list) is
    [Panic].  Persistence, metrics, tracing, the failure detector and published events
    are left out here. *)

From stdpp Require Import pretty.
From S2P Require Import Prelude Storage Clock ReplicationLog Crdt Conflict Quorum HashRing Linearizability Transport Node.
From S2P Require Import MultiLeader Leaderless SingleLeader Raft.
Import (hints) Node.
#[local] Open Scope Z_scope.

Module Cluster.
Import Resolver.

(** ** The interface [node.Node]

    What the orchestrator needs of every node type: the base it embeds. *)
Class HasBase (A : Type) := {
  base_of : A → Node.BaseNode;
  set_base : A → Node.BaseNode → A;
  base_of_set : ∀ n b, base_of (set_base n b) = b;
}.

#[export] Instance SingleLeader_HasBase : HasBase SingleLeader.SingleLeaderNode :=
  {| base_of := SingleLeader.base; set_base := SingleLeader.with_base; base_of_set := λ _ _, eq_refl |}.
#[export] Instance Follower_HasBase : HasBase SingleLeader.FollowerNode :=
  {| base_of := SingleLeader.f_base; set_base := SingleLeader.f_with_base; base_of_set := λ _ _, eq_refl |}.
#[export] Instance MultiLeader_HasBase : HasBase MultiLeader.MultiLeaderNode :=
  {| base_of := MultiLeader.base; set_base := MultiLeader.with_base; base_of_set := λ _ _, eq_refl |}.
#[export] Instance Leaderless_HasBase : HasBase Leaderless.LeaderlessNode :=
  {| base_of := Leaderless.base; set_base := Leaderless.with_base; base_of_set := λ _ _, eq_refl |}.
#[export] Instance Raft_HasBase : HasBase Raft.RaftNode :=
  {| base_of := Raft.base; set_base := Raft.with_base; base_of_set := λ _ _, eq_refl |}.

(** A node of any type. *)
Inductive AnyNode :=
  | LeaderN (n : SingleLeader.SingleLeaderNode)
  | FollowerN (n : SingleLeader.FollowerNode)
  | MultiN (n : MultiLeader.MultiLeaderNode)
  | LeaderlessN (n : Leaderless.LeaderlessNode)
  | RaftN (n : Raft.RaftNode).

Definition any_base (n : AnyNode) : Node.BaseNode :=
  match n with
  | LeaderN n => base_of n | FollowerN n => base_of n | MultiN n => base_of n | LeaderlessN n => base_of n | RaftN n => base_of n
  end.
Definition any_set_base (n : AnyNode) (b : Node.BaseNode) : AnyNode :=
  match n with
  | LeaderN n => LeaderN (set_base n b)
  | FollowerN n => FollowerN (set_base n b)
  | MultiN n => MultiN (set_base n b)
  | LeaderlessN n => LeaderlessN (set_base n b)
  | RaftN n => RaftN (set_base n b)
  end.

Lemma any_base_set n b : any_base (any_set_base n b) = b.
Proof. by destruct n. Qed.

#[export] Instance AnyNode_HasBase : HasBase AnyNode :=
  {| base_of := any_base; set_base := any_set_base; base_of_set := any_base_set |}.

Section interface.
Context `{HasBase A}.

Definition GetStore (n : A) : Store.Store := Node.store (base_of n).
Definition SetStore (n : A) (s : Store.Store) : A := set_base n (Node.set_store (base_of n) s).
Definition State (n : A) : Node.NodeState := Node.state (base_of n).
Definition AddPeer (n : A) (p : string) : A := set_base n (Node.AddPeer (base_of n) p).
Definition RemovePeer (n : A) (p : string) : A := set_base n (Node.RemovePeer (base_of n) p).
Definition Stop (n : A) : A := set_base n (Node.Stop (base_of n)).
Definition Pause (n : A) : A := set_base n (Node.Pause (base_of n)).
Definition Resume (n : A) : A := set_base n (Node.Resume (base_of n)).
Definition SetClockSkewMillis (n : A) (ms : Z) : A := set_base n (Node.SetClockSkewMillis (base_of n) ms).
End interface.

Arguments GetStore {_ _} _ : simpl never.
Arguments SetStore {_ _} _ _ : simpl never.
Arguments AddPeer {_ _} _ _ : simpl never.
Arguments RemovePeer {_ _} _ _ : simpl never.

(** ** Configuration *)

(** The enumerations of the configuration are strings; values without a name are allowed. *)
Record ClusterConfig := MkCfg {
  Strategy : string;
  NodeCount : Z;
  ReplicationMode : string;
  ConflictResolver_ : string;
  QuorumN : Z;
  QuorumW : Z;
  QuorumR : Z;
  Regions : Z;
  InterRegionLatencyMs : Z;
  ConsistencyLevel : string;
  ReadRepairMode : string;
  SloppyQuorum : option bool;
}.

Definition strategy_name (s : Node.ReplicationStrategy) : string :=
  match s with
  | Node.StrategySingleLeader => "single_leader"
  | Node.StrategyMultiLeader => "multi_leader"
  | Node.StrategyLeaderless => "leaderless"
  | Node.StrategyRaft => "raft"
  end.

Definition strategy_of (s : string) : option Node.ReplicationStrategy :=
  if String.eqb s "single_leader" then Some Node.StrategySingleLeader
  else if String.eqb s "multi_leader" then Some Node.StrategyMultiLeader
  else if String.eqb s "leaderless" then Some Node.StrategyLeaderless
  else if String.eqb s "raft" then Some Node.StrategyRaft
  else None.

(** The leader treats a mode it does not know as asynchronous. *)
Definition mode_of (s : string) : SingleLeader.ReplicationMode :=
  if String.eqb s "sync" then SingleLeader.ModeSync
  else if String.eqb s "semi_sync" then SingleLeader.ModeSemiSync
  else SingleLeader.ModeAsync.

Definition with_counts (c : ClusterConfig) (count n w r : Z) : ClusterConfig :=
  MkCfg (Strategy c) count (ReplicationMode c) (ConflictResolver_ c) n w r (Regions c) (InterRegionLatencyMs c)
    (ConsistencyLevel c) (ReadRepairMode c) (SloppyQuorum c).

Definition quorumConfigFor (cfg : ClusterConfig) : Quorum.QuorumConfig :=
  let nodeCount := if NodeCount cfg =? 0 then 5 else NodeCount cfg in
  let n := if (QuorumN cfg <=? 0) || (nodeCount <? QuorumN cfg) then nodeCount else QuorumN cfg in
  let w := if QuorumW cfg =? 0 then Z.quot n 2 + 1 else QuorumW cfg in
  let r := if QuorumR cfg =? 0 then Z.quot n 2 + 1 else QuorumR cfg in
  Quorum.MkConfig n w r.

Inductive error :=
  | ErrClusterNotFound | ErrNodeNotFound | ErrClusterLimit | ErrUnknownStrategy | ErrUnsupportedStrategy
  | ErrNoTarget | ErrNotSingleLeader | ErrNotMultiLeader | ErrNotLeaderless | ErrNoPending | ErrKeyRequired | ErrNoPreset.

(** [clusterID[:8]] and [fmt.Sprintf("node-%s-%d", clusterID[:8], i)] *)
Definition prefix8 (s : string) : Res string :=
  if (8 <=? String.length s)%nat then Ok (String.substring 0 8 s) else Panic.
Definition numbered (p : string) (i : nat) : string := "node-" +:+ p +:+ "-" +:+ pretty i.

Section cluster.
Context {float : Type} (codec : Codec) (vc_string : gmap string N → string).

Record Cluster := MkCluster {
  ID : string;
  Config : ClusterConfig;
  Nodes : gmap string AnyNode;
  NodeIDs : list string;
  LeaderID : string;
  Fabric : @Fabric.NetworkFabric float;
  NodeRegions : gmap string Z;
  history : Lin.History;
}.

Definition with_nodes (c : Cluster) (ns : gmap string AnyNode) : Cluster :=
  MkCluster (ID c) (Config c) ns (NodeIDs c) (LeaderID c) (Fabric c) (NodeRegions c) (history c).
Definition with_config (c : Cluster) (cfg : ClusterConfig) : Cluster :=
  MkCluster (ID c) cfg (Nodes c) (NodeIDs c) (LeaderID c) (Fabric c) (NodeRegions c) (history c).
Definition with_fabric (c : Cluster) (f : @Fabric.NetworkFabric float) : Cluster :=
  MkCluster (ID c) (Config c) (Nodes c) (NodeIDs c) (LeaderID c) f (NodeRegions c) (history c).
Definition with_leader (c : Cluster) (id : string) : Cluster :=
  MkCluster (ID c) (Config c) (Nodes c) (NodeIDs c) id (Fabric c) (NodeRegions c) (history c).
Definition with_regions (c : Cluster) (r : gmap string Z) : Cluster :=
  MkCluster (ID c) (Config c) (Nodes c) (NodeIDs c) (LeaderID c) (Fabric c) r (history c).

(** ** Creating a cluster *)

(** A new node: its constructor registers its inbox, the orchestrator lists it. *)
Definition add_member (cap : nat) (c : Cluster) (id : string) (n : AnyNode) : Cluster :=
  MkCluster (ID c) (Config c) (<[id := n]> (Nodes c)) (NodeIDs c ++ [id]) (LeaderID c)
    (Fabric.Register (Fabric c) id (Fabric.MkInbox cap [])) (NodeRegions c) (history c).

(** [make([]string, n)] filled with the numbered names. *)
Definition node_ids (clusterID : string) (n : Z) : Res (list string) :=
  if n <? 0 then Panic
  else if n =? 0 then Ok []
  else p ← prefix8 clusterID; Ok (numbered p <$> seq 1 (Z.to_nat n)).

(** The list without its element at [i]. *)
Definition others (i : nat) (ids : list string) : list string := take i ids ++ drop (S i) ids.

Definition createSingleLeaderCluster (c : Cluster) (cfg : ClusterConfig) : Res Cluster :=
  nodeIDs ← node_ids (ID c) (NodeCount cfg);
  match nodeIDs with
  | [] => Panic
  | leaderID :: followers =>
      let leader := foldl AddPeer (SingleLeader.NewSingleLeaderNode leaderID (mode_of (ReplicationMode cfg))) followers in
      let c := add_member 256 (with_leader c leaderID) leaderID (LeaderN leader) in
      Ok (foldl (λ c f, add_member 256 c f (FollowerN (SingleLeader.NewFollowerNode f leaderID))) c followers)
  end.

Definition createRaftCluster (c : Cluster) (cfg : ClusterConfig) : Res Cluster :=
  nodeIDs ← node_ids (ID c) (NodeCount cfg);
  Ok (foldl (λ c x, add_member 512 c x.2 (RaftN (foldl AddPeer (Raft.NewRaftNode x.2) (others x.1 nodeIDs))))
        c (imap pair nodeIDs)).

(** The resolver a configuration names; resolvers ask for the time when they resolve. *)
Definition resolver_for (t : string) : Z → ConflictResolver :=
  if String.eqb t "crdt" then λ now, CRDTResolver now codec
  else if String.eqb t "vector_clock" then λ now, NewVectorClockResolver now vc_string None
  else if String.eqb t "manual" then ManualResolver
  else LWWResolver.

Definition createMultiLeaderCluster (c : Cluster) (cfg : ClusterConfig) : Res Cluster :=
  let resolver := resolver_for (ConflictResolver_ cfg) in
  nodeIDs ← node_ids (ID c) (NodeCount cfg);
  Ok (foldl (λ c x, add_member 256 c x.2
               (MultiN (foldl AddPeer (MultiLeader.NewMultiLeaderNode x.2 (ID c) (Some resolver)) (others x.1 nodeIDs))))
        c (imap pair nodeIDs)).

Definition new_leaderless (cfg : ClusterConfig) (q : Quorum.QuorumConfig) (all : list string) (id : string) : Leaderless.LeaderlessNode :=
  let n := Leaderless.SetAllNodes (Leaderless.NewLeaderlessNode id q) all in
  let n := if String.eqb (ConsistencyLevel cfg) "" then n else Leaderless.SetConsistencyLevel n (ConsistencyLevel cfg) in
  let n := if String.eqb (ReadRepairMode cfg) "" then n else Leaderless.SetReadRepairMode n (ReadRepairMode cfg) in
  match SloppyQuorum cfg with None => n | Some on => Leaderless.SetSloppyQuorum n on end.

Definition createLeaderlessCluster (c : Cluster) (cfg : ClusterConfig) : Res Cluster :=
  let nodeCount := if NodeCount cfg =? 0 then 5 else NodeCount cfg in
  let N := if (QuorumN cfg <=? 0) || (nodeCount <? QuorumN cfg) then nodeCount else QuorumN cfg in
  let W := if QuorumW cfg =? 0 then Z.quot N 2 + 1 else QuorumW cfg in
  let R := if QuorumR cfg =? 0 then Z.quot N 2 + 1 else QuorumR cfg in
  let qConfig := Quorum.MkConfig N W R in
  nodeIDs ← node_ids (ID c) nodeCount;
  Ok (foldl (λ c id, add_member 256 c id (LeaderlessN (new_leaderless cfg qConfig nodeIDs id))) c nodeIDs).

(** *** Regions *)

Definition pushRegions (c : Cluster) : Cluster :=
  let names := (λ r, "region-" +:+ pretty r) <$> NodeRegions c in
  with_nodes c ((λ n, match n with LeaderlessN ll => LeaderlessN (Leaderless.SetRegions ll names) | n => n end) <$> Nodes c).

Definition assignRegions (c : Cluster) (cfg : ClusterConfig) : Cluster :=
  if Regions cfg <=? 1 then pushRegions (with_regions c (foldl (λ m id, <[id := 0]> m) ∅ (NodeIDs c)))
  else
    let lat := if InterRegionLatencyMs cfg <=? 0 then 80 else InterRegionLatencyMs cfg in
    let regs := foldl (λ m '(i, id), <[id := Z.of_nat i `mod` Regions cfg]> m) ∅ (imap pair (NodeIDs c)) in
    let f := foldl (λ f a, foldl (λ f b,
               if negb (String.eqb a b) && negb (default 0 (regs !! a) =? default 0 (regs !! b))
               then Fabric.SetLatency f a b lat else f) f (NodeIDs c)) (Fabric c) (NodeIDs c) in
    pushRegions (with_regions (with_fabric c f) regs).

Definition createClusterCore (id : string) (cfg : ClusterConfig) : Res (error + Cluster) :=
  let c := MkCluster id cfg ∅ [] "" Fabric.NewNetworkFabric ∅ (Lin.MkHistory []) in
  let finish (r : Res Cluster) : Res (error + Cluster) := c ← r; Ok (inr (assignRegions c cfg)) in
  match strategy_of (Strategy cfg) with
  | Some Node.StrategySingleLeader => finish (createSingleLeaderCluster c cfg)
  | Some Node.StrategyMultiLeader => finish (createMultiLeaderCluster c cfg)
  | Some Node.StrategyLeaderless => finish (createLeaderlessCluster c cfg)
  | Some Node.StrategyRaft => finish (createRaftCluster c cfg)
  | None => Ok (inl ErrUnknownStrategy)
  end.

(** ** The orchestrator *)

Record Orchestrator := MkOrch { clusters : gmap string Cluster; maxClusters : Z }.

Definition NewOrchestrator : Orchestrator := MkOrch ∅ 0.
Definition SetMaxClusters (o : Orchestrator) (n : Z) : Orchestrator := MkOrch (clusters o) n.

Definition put_cluster (o : Orchestrator) (id : string) (c : Cluster) : Orchestrator :=
  MkOrch (<[id := c]> (clusters o)) (maxClusters o).

Definition at_cap (o : Orchestrator) : bool := (0 <? maxClusters o) && (maxClusters o <=? Z.of_nat (size (clusters o))).

(** [CreateCluster]: building the cluster takes no lock, so the limit is checked again on the
    orchestrator [o'] found when the cluster is registered. *)
Definition normalize (cfg : ClusterConfig) : ClusterConfig :=
  let cfg := if NodeCount cfg <? 1 then with_counts cfg 3 (QuorumN cfg) (QuorumW cfg) (QuorumR cfg) else cfg in
  if String.eqb (ReplicationMode cfg) "" then
    MkCfg (Strategy cfg) (NodeCount cfg) "async" (ConflictResolver_ cfg) (QuorumN cfg) (QuorumW cfg) (QuorumR cfg)
      (Regions cfg) (InterRegionLatencyMs cfg) (ConsistencyLevel cfg) (ReadRepairMode cfg) (SloppyQuorum cfg)
  else cfg.

Definition CreateCluster (o o' : Orchestrator) (uuid : string) (cfg : ClusterConfig) : Res (error + Cluster * Orchestrator) :=
  let cfg := normalize cfg in
  if at_cap o then Ok (inl ErrClusterLimit)
  else
    r ← createClusterCore uuid cfg;
    match r with
    | inl e => Ok (inl e)
    | inr c => if at_cap o' then Ok (inl ErrClusterLimit) else Ok (inr (c, put_cluster o' uuid c))
    end.

(** [Restore]: the clusters saved by [persistCluster] whose configuration still decodes. *)
Definition restore_one (o : Orchestrator) (rec : string * ClusterConfig) : Res Orchestrator :=
  r ← createClusterCore rec.1 rec.2;
  match r with inl _ => Ok o | inr c => Ok (put_cluster o rec.1 c) end.

Definition Restore (o : Orchestrator) (records : list (string * ClusterConfig)) : Res Orchestrator :=
  foldl (λ ro rec, o ← ro; restore_one o rec) (Ok o) records.

Definition GetCluster (o : Orchestrator) (id : string) : error + Cluster :=
  match clusters o !! id with Some c => inr c | None => inl ErrClusterNotFound end.

Definition DeleteCluster (o : Orchestrator) (id : string) : error + Orchestrator :=
  match clusters o !! id with
  | None => inl ErrClusterNotFound
  | Some _ => inr (MkOrch (delete id (clusters o)) (maxClusters o))
  end.

Definition ListClusters (o : Orchestrator) : list Cluster := (map_to_list (clusters o)).*2.

(** An operation on one cluster of the orchestrator. *)
Definition on_cluster (o : Orchestrator) (id : string) (f : Cluster → error + Cluster) : error + Orchestrator :=
  match GetCluster o id with
  | inl e => inl e
  | inr c => match f c with inl e => inl e | inr c' => inr (put_cluster o id c') end
  end.

(** ** Membership *)

Definition set_quorum (all : list string) (q : Quorum.QuorumConfig) (n : AnyNode) : AnyNode :=
  match n with LeaderlessN ll => LeaderlessN (Leaderless.UpdateQuorum (Leaderless.SetAllNodes ll all) q) | n => n end.

Definition AddNode (c : Cluster) : Res (error + Cluster) :=
  p ← prefix8 (ID c);
  let newID := numbered p (length (NodeIDs c) + 1) in
  Ok match strategy_of (Strategy (Config c)) with
     | Some Node.StrategySingleLeader =>
         let c := add_member 256 c newID (FollowerN (SingleLeader.NewFollowerNode newID (LeaderID c))) in
         inr (match Nodes c !! LeaderID c with
              | Some leader => with_nodes c (<[LeaderID c := AddPeer leader newID]> (Nodes c))
              | None => c
              end)
     | Some Node.StrategyMultiLeader =>
         let n := foldl AddPeer (MultiLeader.NewMultiLeaderNode newID (ID c) (Some LWWResolver)) (NodeIDs c) in
         let ns := foldl (λ ns p, match ns !! p with Some x => <[p := AddPeer x newID]> ns | None => ns end)
                     (Nodes c) (NodeIDs c) in
         inr (add_member 256 (with_nodes c ns) newID (MultiN n))
     | Some Node.StrategyLeaderless =>
         let N := NodeCount (Config c) + 1 in
         let W := if QuorumW (Config c) =? 0 then Z.quot N 2 + 1 else QuorumW (Config c) in
         let R := if QuorumR (Config c) =? 0 then Z.quot N 2 + 1 else QuorumR (Config c) in
         let q := Quorum.MkConfig N W R in
         let all := NodeIDs c ++ [newID] in
         let n := Leaderless.SetAllNodes (Leaderless.NewLeaderlessNode newID q) all in
         let c := add_member 256 (with_nodes c (set_quorum all q <$> Nodes c)) newID (LeaderlessN n) in
         inr (with_config c (with_counts (Config c) N (QuorumN (Config c)) W R))
     | _ => inl ErrUnsupportedStrategy
     end.

Definition RemoveNode (c : Cluster) (nodeID : string) : error + Cluster :=
  match Nodes c !! nodeID with
  | None => inl ErrNodeNotFound
  | Some _ =>
      let f := Fabric.Deregister (Fabric c) nodeID in
      let ns := (λ n, RemovePeer n nodeID) <$> delete nodeID (Nodes c) in
      let ids := filter (λ id, id ≠ nodeID) (NodeIDs c) in
      let cfg := Config c in
      let cfg := if 0 <? NodeCount cfg then with_counts cfg (NodeCount cfg - 1) (QuorumN cfg) (QuorumW cfg) (QuorumR cfg) else cfg in
      inr (MkCluster (ID c) cfg ns ids (LeaderID c) f (NodeRegions c) (history c))
  end.

(** *** [SafeAddNode], phase by phase; the second phase is an anti-entropy pass *)

Definition old_quorum (c : Cluster) : Quorum.QuorumConfig :=
  let cfg := Config c in
  let count := Z.of_nat (length (NodeIDs c)) in
  let N := if (QuorumN cfg <=? 0) || (count <? QuorumN cfg) then count else QuorumN cfg in
  Quorum.MkConfig N (if QuorumW cfg =? 0 then Z.quot N 2 + 1 else QuorumW cfg)
    (if QuorumR cfg =? 0 then Z.quot N 2 + 1 else QuorumR cfg).

Definition set_all (all : list string) (n : AnyNode) : AnyNode :=
  match n with LeaderlessN ll => LeaderlessN (Leaderless.SetAllNodes ll all) | n => n end.
Definition update_quorum (q : Quorum.QuorumConfig) (n : AnyNode) : AnyNode :=
  match n with LeaderlessN ll => LeaderlessN (Leaderless.UpdateQuorum ll q) | n => n end.

Definition safe_add_join (c : Cluster) : Res (string * Cluster) :=
  p ← prefix8 (ID c);
  let newID := numbered p (length (NodeIDs c) + 1) in
  let all := NodeIDs c ++ [newID] in
  let nn := Leaderless.SetAllNodes (Leaderless.NewLeaderlessNode newID (old_quorum c)) all in
  Ok (newID, add_member 256 (with_nodes c (set_all all <$> Nodes c)) newID (LeaderlessN nn)).

Definition safe_add_switch (c : Cluster) : Cluster :=
  let N := Z.of_nat (length (NodeIDs c)) in
  let W := Z.quot N 2 + 1 in
  let c := with_nodes c (update_quorum (Quorum.MkConfig N W W) <$> Nodes c) in
  pushRegions (with_config c (with_counts (Config c) N N W W)).

(** ** Node states and network faults *)

Definition on_member (c : Cluster) (nodeID : string) (f : AnyNode → AnyNode) : error + Cluster :=
  match Nodes c !! nodeID with
  | None => inl ErrNodeNotFound
  | Some n => inr (with_nodes c (<[nodeID := f n]> (Nodes c)))
  end.

Definition PauseNode (c : Cluster) (nodeID : string) : error + Cluster := on_member c nodeID Pause.
Definition ResumeNode (c : Cluster) (nodeID : string) : error + Cluster := on_member c nodeID Resume.
Definition SetClockSkew (c : Cluster) (nodeID : string) (ms : Z) : error + Cluster :=
  on_member c nodeID (λ n, SetClockSkewMillis n ms).

Definition InjectPartition (c : Cluster) (partID : string) (groupA groupB : list string) : Cluster :=
  let group ids := foldl (λ m id, <[id := true]> m) ∅ ids in
  with_fabric c (Fabric.AddPartition (Fabric c) (Fabric.MkPartition partID (group groupA) (group groupB))).
Definition HealPartition (c : Cluster) (partID : string) : Cluster := with_fabric c (Fabric.RemovePartition (Fabric c) partID).
Definition SetLatency (c : Cluster) (from to : string) (ms : Z) : Cluster := with_fabric c (Fabric.SetLatency (Fabric c) from to ms).
Definition SetDropRate (c : Cluster) (from to : string) (rate : float) : Cluster :=
  with_fabric c (Fabric.SetDropRate (Fabric c) from to rate).
Definition ClearNetworkFaults (c : Cluster) : Cluster := with_fabric c (Fabric.ClearFaults (Fabric c)).

(** ** Client calls *)

(** [raftLeaderID] returns one of these, whichever the walk of the map meets first. *)
Definition raft_leaders (c : Cluster) : list string :=
  omap (λ '(_, n), match n with
                   | RaftN rn => if (Raft.RaftLeader rn).2 && bool_decide (State n = Node.StateOnline)
                                 then Some (Node.id (Raft.base rn)) else None
                   | _ => None
                   end) (map_to_list (Nodes c)).

(** The node a client call goes to; [waited] is what [waitForRaftLeader] returned. *)
Definition target_node (c : Cluster) (waited nodeID : string) : option AnyNode :=
  let nodeID := if String.eqb nodeID "" && String.eqb (Strategy (Config c)) "raft" then waited else nodeID in
  if negb (String.eqb nodeID "") then Nodes c !! nodeID
  else if negb (String.eqb (LeaderID c) "") then Nodes c !! LeaderID c
  else match NodeIDs c with id :: _ => Nodes c !! id | [] => None end.

Definition route (o : Orchestrator) (clusterID waited nodeID : string) : error + AnyNode :=
  match GetCluster o clusterID with
  | inl e => inl e
  | inr c => match target_node c waited nodeID with Some n => inr n | None => inl ErrNoTarget end
  end.

Definition WriteBatchAtomic (o : Orchestrator) (clusterID nodeID : string) : error + SingleLeader.SingleLeaderNode :=
  match GetCluster o clusterID with
  | inl e => inl e
  | inr c =>
      match Nodes c !! (if String.eqb nodeID "" then LeaderID c else nodeID) with
      | Some (LeaderN sl) => inr sl
      | _ => inl ErrNotSingleLeader
      end
  end.

(** Operations are recorded for the linearizability checker; the calls that do it are in [Service]. *)
Definition recordOp (c : Cluster) (op : Lin.Op) : Cluster :=
  MkCluster (ID c) (Config c) (Nodes c) (NodeIDs c) (LeaderID c) (Fabric c) (NodeRegions c) (Lin.Record_ (history c) op).

(** [CheckLinearizable]: the verdict and the operation it blames. *)
Definition CheckLinearizable (c : Cluster) : bool * option Lin.Op :=
  let ops := Lin.Ops (history c) in
  if (length ops =? 0)%nat then (true, None) else Lin.CheckRegister ops.

(** ** Conflicts, placement *)

Record PendingConflict := MkPending { pc_NodeID : string; pc_Key : string; LocalVal : string; RemoteVal : string }.

Definition ListConflicts (c : Cluster) : list PendingConflict :=
  map_to_list (Nodes c) ≫= λ '(id, n),
    match n with
    | MultiN ml => (λ cf, MkPending id (c_Key cf) (default "" (kv_Value (Local_ cf))) (default "" (kv_Value (Remote cf))))
                   <$> MultiLeader.PendingConflicts ml
    | _ => []
    end.

Definition ResolveConflict (c : Cluster) (nodeID : string) (now : Z) (key choice : string) : error + Cluster * list Message.Message :=
  match Nodes c !! nodeID with
  | None => inl ErrNodeNotFound
  | Some (MultiN ml) =>
      match MultiLeader.ResolveConflict ml now key choice with
      | inl _ => inl ErrNoPending
      | inr (_, ml', ms) => inr (with_nodes c (<[nodeID := MultiN ml']> (Nodes c)), ms)
      end
  | Some _ => inl ErrNotMultiLeader
  end.

Definition Placement (c : Cluster) (key : string) (n : Z) : error + list string :=
  if String.eqb key "" then inl ErrKeyRequired
  else
    let n := if n <=? 0 then 3 else n in
    inr (Ring.PreferenceList (foldl Ring.Add (Ring.NewRing 128) (NodeIDs c)) key n).

End cluster.

(** ** Classification and presets *)

Record CAPClass := MkCAP { CAPType : string; PACELC : string }.

(** [ClassifyCAP]; its third field is an explanation in words. *)
Definition ClassifyCAP (cfg : ClusterConfig) : CAPClass :=
  match strategy_of (Strategy cfg) with
  | Some Node.StrategySingleLeader =>
      if String.eqb (ReplicationMode cfg) "sync" then MkCAP "CP" "PC/EC" else MkCAP "AP" "PA/EL"
  | Some Node.StrategyRaft => MkCAP "CP" "PC/EL"
  | Some Node.StrategyMultiLeader => MkCAP "AP" "PA/EL"
  | Some Node.StrategyLeaderless =>
      if Quorum.IsStronglyConsistent (quorumConfigFor cfg) then MkCAP "CP" "PC/EC" else MkCAP "AP" "PA/EL"
  | None => MkCAP "AP" "PA/EL"
  end.

Definition isStronglyConsistent (cfg : ClusterConfig) : bool :=
  match strategy_of (Strategy cfg) with
  | Some Node.StrategyRaft => true
  | Some Node.StrategySingleLeader => String.eqb (ReplicationMode cfg) "sync"
  | _ => false
  end.

Record Preset := MkPreset { Name : string; System_ : string; p_Config : ClusterConfig }.

Definition Presets : list Preset := [
  MkPreset "Cassandra" "Apache Cassandra" (MkCfg "leaderless" 6 "" "" 3 2 2 2 0 "local_quorum" "digest" None);
  MkPreset "DynamoDB" "Amazon DynamoDB" (MkCfg "leaderless" 6 "" "" 3 2 2 0 0 "" "" (Some true));
  MkPreset "PostgreSQL" "PostgreSQL" (MkCfg "single_leader" 3 "sync" "" 0 0 0 0 0 "" "" None);
  MkPreset "etcd" "etcd" (MkCfg "raft" 5 "" "" 0 0 0 0 0 "" "" None);
  MkPreset "Kafka" "Apache Kafka" (MkCfg "single_leader" 4 "async" "" 0 0 0 0 0 "" "" None)
].

Definition FindPreset (name : string) : option Preset := list_find (λ p, Name p = name) Presets ≫= λ '(_, p), Some p.

End Cluster.
