(* ===== verification/Membership.v ===== *)
(** * Cluster membership

    What creating a cluster and changing its membership guarantee: the lists, maps and network
    registrations of a cluster stay in step, and what the quorum of a leaderless cluster is after a
    change. *)

From stdpp Require Import pretty.
From S2P Require Import Prelude Storage Conflict Quorum HashRing Linearizability Transport Node.
From S2P Require Import MultiLeader Leaderless SingleLeader Raft Cluster.
Import (hints) Node Cluster.
#[local] Open Scope nat_scope.

Module Membership.
Import Cluster.

Section membership.
Context {float : Type} (codec : Resolver.Codec) (vc_string : gmap string N → string).
Implicit Types c : @Cluster float.

(** ** Well-formed clusters *)

(** The list of members has no duplicates and is the domain of the node map and of the network, and
    every node is stored under its own name. *)
Record wf (c : @Cluster float) : Prop := {
  wf_nodup : NoDup (NodeIDs c);
  wf_nodes : dom (Nodes c) = list_to_set (NodeIDs c);
  wf_fabric : dom (Fabric.nodes (Fabric c)) = list_to_set (NodeIDs c);
  wf_id : ∀ id n, Nodes c !! id = Some n → Node.id (base_of n) = id;
}.

(** The members are numbered from one without a gap. *)
Definition contiguous (c : @Cluster float) : Prop :=
  ∃ p, prefix8 (ID c) = Ok p ∧ NodeIDs c = numbered p <$> seq 1 (length (NodeIDs c)).

Lemma numbered_inj p i j : numbered p i = numbered p j → i = j.
Proof. unfold numbered. intros H. do 3 apply (inj (String.app _)) in H. by apply (inj pretty) in H. Qed.

Lemma NoDup_numbered p k n : NoDup (numbered p <$> seq k n).
Proof. apply NoDup_fmap_2; [intros ? ?; apply numbered_inj|apply NoDup_seq]. Qed.

Lemma wf_add_member cap c id n :
  wf c → ¬ (id ∈ NodeIDs c) → Node.id (base_of n) = id → wf (add_member cap c id n).
Proof.
  intros [H1 H2 H3 H4] Hid Hn. split; simpl.
  - apply NoDup_app. split_and!; [done|set_solver|apply NoDup_singleton].
  - rewrite dom_insert_L, list_to_set_app_L, H2. set_solver.
  - rewrite dom_insert_L, list_to_set_app_L, H3. set_solver.
  - intros x m. rewrite lookup_insert_Some. intros [[<- <-]|[_ ?]]; [done|by apply H4].
Qed.

(** Updating nodes in place. *)
Lemma wf_with_nodes c ns :
  wf c → dom ns = dom (Nodes c) → (∀ id n, ns !! id = Some n → Node.id (base_of n) = id) → wf (with_nodes c ns).
Proof. intros [H1 H2 H3 H4] Hd Hid. split; simpl; [done|congruence|done|done]. Qed.

Lemma wf_add_all {B} cap (idf : B → string) (mk : @Cluster float → B → AnyNode) l : ∀ c,
  (∀ c b, Node.id (base_of (mk c b)) = idf b) → NoDup (idf <$> l) → (∀ b, b ∈ l → ¬ (idf b ∈ NodeIDs c)) → wf c →
  let c' := foldl (λ c b, add_member cap c (idf b) (mk c b)) c l in
  wf c' ∧ NodeIDs c' = NodeIDs c ++ (idf <$> l) ∧ ID c' = ID c.
Proof.
  induction l as [|b l IH]; intros c Hmk Hnd Hfr Hwf; simpl; [by rewrite app_nil_r|].
  rewrite fmap_cons, NoDup_cons in Hnd. destruct Hnd as [Hb Hnd].
  destruct (IH (add_member cap c (idf b) (mk c b))) as (H1 & H2 & H3); [done|done| | |].
  - simpl. intros b' Hb' [?|Heq%list_elem_of_singleton]%elem_of_app; [eapply Hfr; [by right|done]|].
    apply Hb. rewrite <- Heq. by apply list_elem_of_fmap_2.
  - apply wf_add_member; [done|apply Hfr; left|apply Hmk].
  - split_and!; [done| |done]. rewrite H2. simpl. by rewrite <- app_assoc.
Qed.

Lemma foldl_AddPeer_id {A} `{HasBase A} (n : A) ps : Node.id (base_of (foldl AddPeer n ps)) = Node.id (base_of n).
Proof.
  revert n. induction ps as [|p ps IH]; intros n; simpl; [done|]. rewrite IH. unfold AddPeer. rewrite base_of_set.
  unfold Node.AddPeer. by destruct (existsb _ _).
Qed.

Lemma node_ids_Ok id n ids : node_ids id n = Ok ids →
  (0 ≤ n)%Z ∧ length ids = Z.to_nat n ∧ (ids = [] ∨ ∃ p, prefix8 id = Ok p ∧ ids = numbered p <$> seq 1 (length ids)).
Proof.
  unfold node_ids. destruct (Z.ltb_spec n 0); [done|]. destruct (Z.eqb_spec n 0) as [->|]; [by intros [= <-]; auto|].
  destruct (prefix8 id) as [p|]; [|done]. simpl. intros [= <-]. rewrite length_fmap, length_seq. split_and!; [done|done|].
  right. by exists p.
Qed.

Lemma NoDup_node_ids id n ids : node_ids id n = Ok ids → NoDup ids.
Proof. intros (_ & _ & [->|(p & _ & ->)])%node_ids_Ok; [constructor|apply NoDup_numbered]. Qed.

(** A cluster under construction. *)
Definition blank (id : string) (cfg : ClusterConfig) : @Cluster float :=
  MkCluster id cfg ∅ [] "" Fabric.NewNetworkFabric ∅ (Lin.MkHistory []).

Lemma wf_blank id cfg leader : wf (with_leader (blank id cfg) leader).
Proof. split; simpl; [constructor|done|done|by intros ? ? ?%lookup_empty_Some]. Qed.

Lemma imap_pair_snd {A} (l : list A) : (imap pair l).*2 = l.
Proof.
  assert (H : ∀ (f : nat → nat) (l : list A), (imap (λ i, pair (f i)) l).*2 = l).
  { clear l. intros f l. revert f. induction l as [|x l IH]; intros f; [done|]. rewrite imap_cons. simpl. f_equal. apply (IH (f ∘ S)). }
  apply (H id).
Qed.

(** Members numbered as asked for. *)
Definition made (id : string) (n : Z) (c : @Cluster float) : Prop :=
  wf c ∧ ID c = id ∧ node_ids id n = Ok (NodeIDs c).

Lemma createSingleLeader_made id cfg c :
  createSingleLeaderCluster (blank id cfg) cfg = Ok c → made id (NodeCount cfg) c.
Proof.
  unfold createSingleLeaderCluster. simpl. destruct (node_ids id (NodeCount cfg)) as [ids|] eqn:Hids; [|done]. simpl.
  pose proof (NoDup_node_ids _ _ _ Hids) as Hnd. destruct ids as [|l fs]; [done|]. intros [= <-].
  apply NoDup_cons in Hnd as [Hl Hnd]. set (c0 := add_member _ _ l _).
  destruct (wf_add_all 256 (λ f, f) (λ _ f, FollowerN (SingleLeader.NewFollowerNode f l)) fs c0) as (H1 & H2 & H3).
  - done.
  - by rewrite list_fmap_id.
  - simpl. intros b Hb ->%list_elem_of_singleton. done.
  - apply wf_add_member; [apply wf_blank|apply not_elem_of_nil|].
    exact (foldl_AddPeer_id (SingleLeader.NewSingleLeaderNode l (mode_of (ReplicationMode cfg))) fs).
  - split_and!; [done|done|]. rewrite H2. simpl. by rewrite list_fmap_id.
Qed.

Lemma createRaft_made id cfg c : createRaftCluster (blank id cfg) cfg = Ok c → made id (NodeCount cfg) c.
Proof.
  unfold createRaftCluster. simpl. destruct (node_ids id (NodeCount cfg)) as [ids|] eqn:Hids; [|done]. simpl.
  pose proof (NoDup_node_ids _ _ _ Hids) as Hnd. intros [= <-].
  destruct (wf_add_all 512 snd (λ _ b, RaftN (foldl AddPeer (Raft.NewRaftNode b.2) (others b.1 ids))) (imap pair ids) (blank id cfg)) as (H1 & H2 & H3).
  - intros _ b. exact (foldl_AddPeer_id (Raft.NewRaftNode b.2) (others b.1 ids)).
  - by rewrite imap_pair_snd.
  - simpl. intros b _. apply not_elem_of_nil.
  - apply (wf_blank id cfg "").
  - rewrite imap_pair_snd in H2. split_and!; [exact H1|exact H3|]. rewrite Hids. f_equal. symmetry. exact H2.
Qed.

Lemma createMultiLeader_made id cfg c : createMultiLeaderCluster codec vc_string (blank id cfg) cfg = Ok c → made id (NodeCount cfg) c.
Proof.
  unfold createMultiLeaderCluster. simpl. destruct (node_ids id (NodeCount cfg)) as [ids|] eqn:Hids; [|done]. simpl.
  pose proof (NoDup_node_ids _ _ _ Hids) as Hnd. intros [= <-].
  destruct (wf_add_all 256 snd (λ c b, MultiN (foldl AddPeer (MultiLeader.NewMultiLeaderNode b.2 (ID c)
      (Some (resolver_for codec vc_string (ConflictResolver_ cfg)))) (others b.1 ids))) (imap pair ids) (blank id cfg)) as (H1 & H2 & H3).
  - intros c b. exact (foldl_AddPeer_id (MultiLeader.NewMultiLeaderNode b.2 (ID c) _) (others b.1 ids)).
  - by rewrite imap_pair_snd.
  - simpl. intros b _. apply not_elem_of_nil.
  - apply (wf_blank id cfg "").
  - rewrite imap_pair_snd in H2. split_and!; [exact H1|exact H3|]. rewrite Hids. f_equal. symmetry. exact H2.
Qed.

Lemma new_leaderless_id cfg q all id : Leaderless.n_id (new_leaderless cfg q all id) = id.
Proof. unfold new_leaderless. by destruct (String.eqb _ _), (String.eqb _ _), (SloppyQuorum cfg). Qed.

Definition effective_count (cfg : ClusterConfig) : Z := if (NodeCount cfg =? 0)%Z then 5 else NodeCount cfg.

Lemma createLeaderless_made id cfg c : createLeaderlessCluster (blank id cfg) cfg = Ok c → made id (effective_count cfg) c.
Proof.
  unfold createLeaderlessCluster. fold (effective_count cfg). cbv zeta.
  destruct (node_ids (ID (blank id cfg)) (effective_count cfg)) as [ids|] eqn:Hids; [|done]. simpl in Hids |- *.
  pose proof (NoDup_node_ids _ _ _ Hids) as Hnd. set (q := Quorum.MkConfig _ _ _). intros [= <-].
  destruct (wf_add_all 256 (λ id, id) (λ _ b, LeaderlessN (new_leaderless cfg q ids b)) ids (blank id cfg)) as (H1 & H2 & H3).
  - intros _ b. apply new_leaderless_id.
  - by rewrite list_fmap_id.
  - simpl. intros b _. apply not_elem_of_nil.
  - apply (wf_blank id cfg "").
  - rewrite list_fmap_id in H2. split_and!; [done|done|]. rewrite Hids. f_equal. symmetry. exact H2.
Qed.

(** *** Regions do not change the membership *)

Lemma wf_fmap c (f : AnyNode → AnyNode) :
  (∀ n, Node.id (base_of (f n)) = Node.id (base_of n)) → wf c → wf (with_nodes c (f <$> Nodes c)).
Proof.
  intros Hf Hwf. apply wf_with_nodes; [done|by rewrite dom_fmap_L|].
  intros id n (x & <- & Hx)%lookup_fmap_Some. rewrite Hf. by apply (wf_id _ Hwf).
Qed.

Lemma wf_pushRegions c : wf c → wf (pushRegions c).
Proof. apply wf_fmap. by intros []. Qed.

Lemma assignRegions_spec c cfg : wf c → wf (assignRegions c cfg) ∧ NodeIDs (assignRegions c cfg) = NodeIDs c ∧ ID (assignRegions c cfg) = ID c.
Proof.
  intros Hwf. unfold assignRegions. case_match.
  { split; [|done]. apply wf_pushRegions. destruct Hwf. by split. }
  split; [|done]. apply wf_pushRegions. destruct Hwf as [H1 H2 H3 H4]. split; simpl; [done|done| |done].
  rewrite <- H3. f_equal. set (P (f : @Fabric.NetworkFabric float) := Fabric.nodes f = Fabric.nodes (Fabric c)).
  apply (foldl_inv P); [done|]. intros f a Hf. apply (foldl_inv P); [done|]. intros f' b Hf'. by destruct (_ && _).
Qed.

(** The number of nodes a configuration asks for. *)
Definition asked (cfg : ClusterConfig) : Z :=
  match strategy_of (Strategy cfg) with Some Node.StrategyLeaderless => effective_count cfg | _ => NodeCount cfg end.

Lemma core_made id cfg c : createClusterCore codec vc_string id cfg = Ok (inr c) → made id (asked cfg) c.
Proof.
  unfold createClusterCore, asked. intros Hc.
  assert (Hm : ∀ r n, (c ← r; Ok (inr (assignRegions c cfg))) = Ok (inr c : error + Cluster) →
    (∀ c, r = Ok c → made id n c) → made id n c).
  { intros [c0|] n H Hr; [|done]. simpl in H. injection H as <-. destruct (Hr c0 eq_refl) as (Hwf & Hid & Hids).
    destruct (assignRegions_spec c0 cfg Hwf) as (? & Hn & Hi). split_and!; [done|congruence|by rewrite Hn]. }
  destruct (strategy_of (Strategy cfg)) as [[]|]; [..|done]; (eapply Hm; [exact Hc|]); intros c0 H.
  - by apply createSingleLeader_made.
  - by apply createMultiLeader_made.
  - by apply createLeaderless_made.
  - by apply createRaft_made.
Qed.

Lemma made_contiguous id n c : made id n c → (0 < n)%Z → contiguous c ∧ length (NodeIDs c) = Z.to_nat n.
Proof.
  intros (_ & <- & Hids) Hn. apply node_ids_Ok in Hids as (_ & Hlen & [Hnil|(p & Hp & Heq)]); [rewrite Hnil in Hlen; simpl in Hlen; lia|].
  split; [by exists p|done].
Qed.

(** Creation succeeds for a known strategy, a positive node count and a proper identifier. *)
Lemma core_succeeds id cfg :
  strategy_of (Strategy cfg) ≠ None → (1 ≤ NodeCount cfg)%Z → 8 ≤ String.length id →
  ∃ c : @Cluster float, createClusterCore codec vc_string id cfg = Ok (inr c).
Proof.
  intros Hs Hn Hid.
  assert (Hp : ∃ p, prefix8 id = Ok p) by (unfold prefix8; rewrite (proj2 (Nat.leb_le _ _) Hid); eauto). destruct Hp as [p Hp].
  assert (Hids : node_ids id (NodeCount cfg) = Ok (numbered p <$> seq 1 (Z.to_nat (NodeCount cfg)))).
  { unfold node_ids. destruct (Z.ltb_spec (NodeCount cfg) 0); [lia|]. destruct (Z.eqb_spec (NodeCount cfg) 0); [lia|]. by rewrite Hp. }
  unfold createClusterCore. destruct (strategy_of (Strategy cfg)) as [[]|]; [..|done].
  - unfold createSingleLeaderCluster. simpl. rewrite Hids. destruct (Z.to_nat (NodeCount cfg)) eqn:E; [lia|]. simpl. eauto.
  - unfold createMultiLeaderCluster. simpl. rewrite Hids. simpl. eauto.
  - unfold createLeaderlessCluster. destruct (Z.eqb_spec (NodeCount cfg) 0); [lia|]. simpl. rewrite Hids. simpl. eauto.
  - unfold createRaftCluster. simpl. rewrite Hids. simpl. eauto.
Qed.

(** *** Adding and removing *)

Lemma seq_succ_end k n : seq k (S n) = seq k n ++ [k + n].
Proof. rewrite <- Nat.add_1_r, seq_app. done. Qed.

(** In a contiguous cluster the next name is free. *)
Lemma next_fresh c p : prefix8 (ID c) = Ok p → contiguous c →
  ¬ (numbered p (length (NodeIDs c) + 1) ∈ NodeIDs c) ∧
  NodeIDs c ++ [numbered p (length (NodeIDs c) + 1)] = numbered p <$> seq 1 (length (NodeIDs c) + 1).
Proof.
  intros Hp (p' & Hp' & Heq). assert (p' = p) as -> by congruence. split.
  - rewrite Heq at 2. intros (i & Hi%numbered_inj & Hin%elem_of_seq)%list_elem_of_fmap. lia.
  - rewrite Heq at 1. rewrite Nat.add_1_r, seq_succ_end, fmap_app. done.
Qed.

Lemma contiguous_add c c' p : prefix8 (ID c) = Ok p → contiguous c → ID c' = ID c →
  NodeIDs c' = NodeIDs c ++ [numbered p (length (NodeIDs c) + 1)] → contiguous c'.
Proof.
  intros Hp Hc Hid Hn. destruct (next_fresh c p Hp Hc) as [_ Heq]. exists p. rewrite Hid. split; [done|].
  rewrite Hn, Heq. by rewrite length_fmap, length_seq.
Qed.

Lemma AddPeer_id (n : AnyNode) p : Node.id (base_of (AddPeer n p)) = Node.id (base_of n).
Proof. apply (foldl_AddPeer_id n [p]). Qed.

(** *** Leaders *)

Lemma foldl_add_leader {B} cap (idf : B → string) (mk : @Cluster float → B → AnyNode) l c :
  LeaderID (foldl (λ c b, add_member cap c (idf b) (mk c b)) c l) = LeaderID c.
Proof. by apply (foldl_inv (λ c', LeaderID c' = LeaderID c)). Qed.

Lemma created_leader id cfg c :
  strategy_of (Strategy cfg) = Some Node.StrategySingleLeader → createClusterCore codec vc_string id cfg = Ok (inr c) →
  LeaderID c ∈ NodeIDs c ∧ LeaderID c ≠ "" ∧ Config c = cfg.
Proof.
  intros Hs Hc. pose proof (core_made _ _ _ Hc) as (_ & _ & Hids). unfold createClusterCore in Hc. rewrite Hs in Hc.
  unfold createSingleLeaderCluster in Hc. simpl in Hc. unfold asked in Hids. rewrite Hs in Hids. rewrite Hids in Hc. simpl in Hc.
  apply node_ids_Ok in Hids as (_ & _ & Hnum).
  destruct (NodeIDs c) as [|l fs] eqn:Hids; [done|]. injection Hc as Hc.
  assert (Hl : LeaderID c = l).
  { rewrite <- Hc. unfold assignRegions. destruct (_ <=? _)%Z; simpl; by rewrite (foldl_add_leader 256 (λ f, f) (λ _ f, FollowerN (SingleLeader.NewFollowerNode f l))). }
  rewrite Hl. split_and!; [left| |].
  - destruct Hnum as [?|(p & _ & Hp)]; [done|]. rewrite length_cons in Hp. simpl in Hp. by injection Hp as -> _.
  - rewrite <- Hc. set (c0 := foldl _ _ _).
    assert (H0 : Config c0 = cfg) by (by apply (foldl_inv (λ c', Config c' = cfg))).
    unfold assignRegions. by destruct (_ <=? _)%Z.
Qed.

Lemma RemovePeer_id (n : AnyNode) p : Node.id (base_of (RemovePeer n p)) = Node.id (base_of n).
Proof. unfold RemovePeer. by rewrite base_of_set. Qed.

(** The peers that learn of a new node. *)
Lemma wf_greet c newID : wf c →
  wf (with_nodes c (foldl (λ ns p, match ns !! p with Some x => <[p := AddPeer x newID]> ns | None => ns end) (Nodes c) (NodeIDs c))).
Proof.
  intros Hwf. set (P (ns : gmap string AnyNode) := dom ns = dom (Nodes c) ∧ ∀ id n, ns !! id = Some n → Node.id (base_of n) = id).
  assert (HP : P (foldl (λ ns p, match ns !! p with Some x => <[p := AddPeer x newID]> ns | None => ns end) (Nodes c) (NodeIDs c))).
  { apply (foldl_inv P); [split; [done|apply Hwf]|]. intros ns p [Hd Hi]. destruct (ns !! p) as [x|] eqn:Hx; [|by split]. split.
    - rewrite dom_insert_lookup_L; [done|eauto].
    - intros id n. rewrite lookup_insert_Some. intros [[<- <-]|[_ ?]]; [|by apply Hi]. rewrite AddPeer_id. by apply Hi. }
  destruct HP. by apply wf_with_nodes.
Qed.

Lemma AddNode_wf c c' : wf c → contiguous c → AddNode c = Ok (inr c') → wf c' ∧ contiguous c'.
Proof.
  intros Hwf Hct Ha. unfold AddNode in Ha. destruct (prefix8 (ID c)) as [p|] eqn:Hp; [|done]. simpl in Ha.
  destruct (next_fresh c p Hp Hct) as [Hfr _]. set (newID := numbered p _) in *.
  destruct (strategy_of (Strategy (Config c))) as [[]|]; try done; injection Ha as <-.
  - set (n := FollowerN _). assert (Hw : wf (add_member 256 c newID n)) by (by apply wf_add_member).
    destruct (<[newID:=n]> (Nodes c) !! LeaderID c) as [l|] eqn:Hl.
    + split; [|by eapply contiguous_add]. apply wf_with_nodes; [done|simpl; rewrite dom_insert_lookup_L; eauto|].
      intros id x. rewrite lookup_insert_Some. intros [[<- <-]|[_ Hx]]; [|by apply (wf_id _ Hw)].
      rewrite AddPeer_id. by apply (wf_id _ Hw).
    + split; [done|by eapply contiguous_add].
  - split; [|by eapply contiguous_add]. apply wf_add_member; [by apply wf_greet|done|].
    exact (foldl_AddPeer_id (MultiLeader.NewMultiLeaderNode newID (ID c) _) (NodeIDs c)).
  - split; [|by eapply contiguous_add]. set (c1 := add_member _ _ _ _).
    assert (Hw : wf c1) by (apply wf_add_member; [apply wf_fmap; [by intros []|done]|done|done]). destruct Hw. by split.
Qed.

Lemma foldl_AddPeer_store {A} `{HasBase A} (n : A) ps : GetStore (foldl AddPeer n ps) = GetStore n.
Proof.
  revert n. induction ps as [|p ps IH]; intros n; simpl; [done|]. rewrite IH. unfold GetStore, AddPeer. rewrite base_of_set.
  unfold Node.AddPeer. by destruct (existsb _ _).
Qed.

(** The node an addition puts under the name it forms, whatever was there before. *)
Lemma AddNode_new c c' p : prefix8 (ID c) = Ok p → AddNode c = Ok (inr c') →
  let newID := numbered p (length (NodeIDs c) + 1) in
  NodeIDs c' = NodeIDs c ++ [newID] ∧ ∃ n, Nodes c' !! newID = Some n ∧ GetStore n = Store.NewStore.
Proof.
  intros Hp Ha newID. unfold AddNode in Ha. rewrite Hp in Ha. simpl in Ha. fold newID in Ha.
  destruct (strategy_of (Strategy (Config c))) as [[]|]; try done; injection Ha as <-.
  - destruct (decide (LeaderID c = newID)) as [Hl|Hl].
    + rewrite Hl, lookup_insert_eq. simpl. split; [done|]. rewrite lookup_insert_eq. eexists. split; [done|].
      exact (foldl_AddPeer_store (FollowerN (SingleLeader.NewFollowerNode newID newID)) [newID]).
    + rewrite lookup_insert_ne by done. split; [by destruct (Nodes c !! LeaderID c)|].
      destruct (Nodes c !! LeaderID c); simpl; [rewrite lookup_insert_ne by done|]; rewrite lookup_insert_eq; eauto.
  - simpl. split; [done|]. rewrite lookup_insert_eq. eexists. split; [done|].
    exact (foldl_AddPeer_store (MultiLeader.NewMultiLeaderNode newID (ID c) _) (NodeIDs c)).
  - simpl. split; [done|]. rewrite lookup_insert_eq. eauto.
Qed.

Lemma RemoveNode_wf c c' id : wf c → RemoveNode c id = inr c' →
  wf c' ∧ NodeIDs c' = filter (λ x, x ≠ id) (NodeIDs c) ∧ ID c' = ID c ∧ LeaderID c' = LeaderID c ∧
  Strategy (Config c') = Strategy (Config c).
Proof.
  intros [H1 H2 H3 H4] Hr. unfold RemoveNode in Hr. destruct (Nodes c !! id) eqn:Hn; [|done]. injection Hr as <-.
  assert (Hset : list_to_set (filter (λ x, x ≠ id) (NodeIDs c)) = list_to_set (NodeIDs c) ∖ {[id]} :> gset string).
  { apply set_eq. intros x. rewrite elem_of_difference, !elem_of_list_to_set, list_elem_of_filter. set_solver. }
  split; [|split_and!; try done; simpl; by destruct (_ <? _)%Z]. split; simpl.
  - by apply NoDup_filter.
  - by rewrite dom_fmap_L, dom_delete_L, H2, Hset.
  - by rewrite dom_delete_L, H3, Hset.
  - intros x n0 (n1 & <- & Hx)%lookup_fmap_Some. apply lookup_delete_Some in Hx as [_ Hx].
    etransitivity; [exact (RemovePeer_id n1 id)|by apply H4].
Qed.

Lemma on_member_wf c c' id (f : AnyNode → AnyNode) :
  (∀ n, Node.id (base_of (f n)) = Node.id (base_of n)) → wf c → on_member c id f = inr c' →
  wf c' ∧ NodeIDs c' = NodeIDs c ∧ ID c' = ID c ∧ LeaderID c' = LeaderID c ∧ Config c' = Config c.
Proof.
  intros Hf Hwf Ho. unfold on_member in Ho. destruct (Nodes c !! id) as [n|] eqn:Hn; [|done]. injection Ho as <-.
  split; [|done]. apply wf_with_nodes; [done|rewrite dom_insert_lookup_L; eauto|].
  intros x m. rewrite lookup_insert_Some. intros [[<- <-]|[_ ?]]; [rewrite Hf|]; by apply (wf_id _ Hwf).
Qed.

(** ** Sequences of operations *)

Inductive op :=
  | OAdd | ORemove (id : string) | OPause (id : string) | OResume (id : string) | OSkew (id : string) (ms : Z)
  | OPartition (pid : string) (a b : list string) | OHeal (pid : string) | OLatency (from to : string) (ms : Z)
  | ODrop (from to : string) (rate : float) | OClear.

(** An operation that fails leaves the cluster as it is. *)
Definition keep (c : @Cluster float) (r : error + @Cluster float) : @Cluster float := match r with inr c' => c' | inl _ => c end.

Definition op_step (c : @Cluster float) (o : op) : Res (@Cluster float) :=
  match o with
  | OAdd => r ← AddNode c; Ok (keep c r)
  | ORemove id => Ok (keep c (RemoveNode c id))
  | OPause id => Ok (keep c (PauseNode c id))
  | OResume id => Ok (keep c (ResumeNode c id))
  | OSkew id ms => Ok (keep c (SetClockSkew c id ms))
  | OPartition pid a b => Ok (InjectPartition c pid a b)
  | OHeal pid => Ok (HealPartition c pid)
  | OLatency from to ms => Ok (SetLatency c from to ms)
  | ODrop from to rate => Ok (SetDropRate c from to rate)
  | OClear => Ok (ClearNetworkFaults c)
  end.

Definition ops_run (c : @Cluster float) (os : list op) : Res (@Cluster float) := foldl (λ rc o, c ← rc; op_step c o) (Ok c) os.

Definition is_add (o : op) : bool := match o with OAdd => true | _ => false end.
Definition is_remove (o : op) : bool := match o with ORemove _ => true | _ => false end.

Lemma wf_with_fabric c f : Fabric.nodes f = Fabric.nodes (Fabric c) → wf c → wf (with_fabric c f).
Proof. intros Hf [H1 H2 H3 H4]. split; simpl; [done|done|by rewrite Hf|done]. Qed.

Lemma step_other c o : is_add o = false → is_remove o = false → wf c →
  ∃ c', op_step c o = Ok c' ∧ wf c' ∧ NodeIDs c' = NodeIDs c ∧ ID c' = ID c ∧ LeaderID c' = LeaderID c ∧ Config c' = Config c.
Proof.
  intros Ha Hr Hwf.
  assert (Hm : ∀ id f, (∀ n : AnyNode, Node.id (base_of (f n)) = Node.id (base_of n)) →
    let c' := keep c (on_member c id f) in
    wf c' ∧ NodeIDs c' = NodeIDs c ∧ ID c' = ID c ∧ LeaderID c' = LeaderID c ∧ Config c' = Config c).
  { intros id f Hf. destruct (on_member c id f) as [e|c'] eqn:Ho; [done|]. by eapply on_member_wf. }
  destruct o; try done; (eexists; split; [reflexivity|]);
    first [ apply Hm; intros []; done | split; [by apply wf_with_fabric|done] ].
Qed.

Lemma step_contiguous c o : is_remove o = false → wf c → contiguous c → ∃ c', op_step c o = Ok c' ∧ wf c' ∧ contiguous c'.
Proof.
  intros Hr Hwf Hct. destruct (is_add o) eqn:Ha.
  - destruct o; try done. simpl. pose proof Hct as (p & Hp & _). destruct (AddNode c) as [r|] eqn:Hadd.
    + simpl. eexists. split; [done|]. destruct r as [e|c']; [done|]. by eapply AddNode_wf.
    + unfold AddNode in Hadd. by rewrite Hp in Hadd.
  - destruct (step_other c o Ha Hr Hwf) as (c' & ? & ? & Hn & Hi & _). exists c'. split_and!; [done|done|].
    destruct Hct as (p & ? & ?). exists p. by rewrite Hn, Hi.
Qed.

Lemma step_shrink c o : is_add o = false → wf c →
  ∃ c', op_step c o = Ok c' ∧ wf c' ∧ NodeIDs c' ⊆ NodeIDs c ∧ LeaderID c' = LeaderID c ∧ Strategy (Config c') = Strategy (Config c).
Proof.
  intros Ha Hwf. destruct (is_remove o) eqn:Hr.
  - destruct o; try done. simpl. eexists. split; [done|]. destruct (RemoveNode c id) as [e|c'] eqn:Hrm; [done|].
    destruct (RemoveNode_wf c c' id Hwf Hrm) as (? & Hids & ? & ? & ?). split_and!; [done| |done|done].
    simpl. rewrite Hids. intros x. rewrite list_elem_of_filter. tauto.
  - destruct (step_other c o Ha Hr Hwf) as (c' & ? & ? & Hn & _ & ? & Hcf). exists c'. rewrite Hn, Hcf. by split_and!.
Qed.

(** Runs of operations of one kind. *)
Lemma run_while (P : @Cluster float → Prop) (ok : op → bool) os : ∀ c,
  (∀ c o, ok o = true → P c → ∃ c', op_step c o = Ok c' ∧ P c') →
  forallb ok os = true → P c → ∃ c', ops_run c os = Ok c' ∧ P c'.
Proof.
  induction os as [|o os IH]; intros c Hstep Hos HP; [by exists c|]. simpl in Hos. apply andb_true_iff in Hos as [Ho Hos].
  destruct (Hstep c o Ho HP) as (c' & Hc' & HP'). unfold ops_run. simpl. rewrite Hc'. by apply IH.
Qed.

Lemma ops_run_app c os1 os2 : ops_run c (os1 ++ os2) = (c' ← ops_run c os1; ops_run c' os2).
Proof.
  unfold ops_run. rewrite foldl_app. destruct (foldl _ (Ok c) os1) as [c'|]; [done|].
  induction os2 as [|o os IH]; [done|]. exact IH.
Qed.

End membership.
End Membership.

Import Cluster Membership.


(** A codec that decodes nothing, and no floats: enough to run clusters without CRDT values. *)
Definition no_codec : Resolver.Codec :=
  Resolver.MkCodec (λ _, None) (λ _, None) (λ _, None) (λ _, None) (λ _, None) (λ _, None)
    (λ _, "") (λ _, "") (λ _, "") (λ _, "") (λ _, "").
Definition demo_cluster_id : string := "0123456789".
Definition demo_cfg (strategy : string) (n : Z) : ClusterConfig := MkCfg strategy n "async" "" 0 0 0 0 0 "" "" None.


(** Names are reused: in any well-formed cluster of at least two nodes numbered from one, removing a
    node other than the last and adding one gives the new node the name of a member that is still
    there; that member's data are gone, its replacement starts empty, and the member list names it
    twice. *)
Theorem add_after_remove_overwrites {float : Type} (c c1 c2 : @Cluster float) (p id : string) :
  wf c → contiguous c → prefix8 (ID c) = Ok p → id ∈ NodeIDs c → id ≠ numbered p (length (NodeIDs c)) →
  RemoveNode c id = inr c1 → AddNode c1 = Ok (inr c2) →
  let last := numbered p (length (NodeIDs c)) in
  Nodes c1 !! last ≠ None ∧ ¬ NoDup (NodeIDs c2) ∧
  ∃ n, Nodes c2 !! last = Some n ∧ GetStore n = Store.NewStore.
Proof.
  intros Hwf Hct Hp Hin Hne Hrm Hadd last.
  destruct (RemoveNode_wf c c1 id Hwf Hrm) as (Hw1 & Hids & Hid1 & _).
  assert (Hlast : last ∈ NodeIDs c).
  { destruct Hct as (p' & Hp' & Heq). assert (p' = p) as -> by congruence. rewrite Heq.
    apply list_elem_of_fmap. exists (length (NodeIDs c)). split; [done|]. apply elem_of_seq.
    destruct (NodeIDs c); [by apply elem_of_nil in Hin|simpl; lia]. }
  assert (Hlast1 : last ∈ NodeIDs c1) by (rewrite Hids; by apply list_elem_of_filter).
  assert (Hlen : length (NodeIDs c1) + 1 = length (NodeIDs c)).
  { rewrite Hids, (length_filter_ne (NodeIDs c) id) by (done || apply Hwf). lia. }
  destruct (AddNode_new c1 c2 p) as (Hids2 & n & Hn & Hst); [by rewrite Hid1|done|]. rewrite Hlen in Hids2, Hn. fold last in Hids2, Hn.
  split_and!.
  - apply not_eq_None_Some, elem_of_dom. rewrite (wf_nodes _ Hw1). by apply elem_of_list_to_set.
  - rewrite Hids2. intros (_ & Hd & _)%NoDup_app. apply (Hd last); [done|by left].
  - eauto.
Qed.

(** The results of the operations, with a blank cluster for a failure. *)
Definition the_cluster (r : Res (error + @Cluster unit)) : @Cluster unit :=
  match r with Ok (inr c) => c | _ => blank "" (demo_cfg "" 0) end.
Definition demo_c (strategy : string) (n : Z) : @Cluster unit :=
  the_cluster (createClusterCore no_codec (λ _, "") demo_cluster_id (demo_cfg strategy n)).

Lemma demo_c_made strategy n : strategy_of strategy ≠ None → (1 ≤ n)%Z → wf (demo_c strategy n) ∧ contiguous (demo_c strategy n).
Proof.
  intros Hs Hn. unfold demo_c.
  destruct (core_succeeds (float := unit) no_codec (λ _, "") demo_cluster_id (demo_cfg strategy n)) as [c Hc]; [done|done|simpl; lia|].
  rewrite Hc. simpl. apply core_made in Hc as Hm. split; [apply Hm|].
  eapply made_contiguous; [exact Hm|]. unfold asked, effective_count. simpl. destruct (strategy_of strategy) as [[]|]; try lia.
  destruct (Z.eqb_spec n 0); lia.
Qed.

Lemma keep_inr {float} (c : @Cluster float) r : (match r with inr _ => true | inl _ => false end) = true → r = inr (keep c r).
Proof. by destruct r. Qed.
Lemma the_cluster_Ok r : (match r with Ok (inr _) => true | _ => false end) = true → r = Ok (inr (the_cluster r)).
Proof. by destruct r as [[|]|]. Qed.

Definition demo_removed : @Cluster unit := keep (demo_c "multi_leader" 3) (RemoveNode (demo_c "multi_leader" 3) "node-01234567-1").

Lemma add_after_remove_overwrites_witness :
  Nodes demo_removed !! "node-01234567-3" ≠ None ∧ ¬ NoDup (NodeIDs (the_cluster (AddNode demo_removed))) ∧
  ∃ n, Nodes (the_cluster (AddNode demo_removed)) !! "node-01234567-3" = Some n ∧ GetStore n = Store.NewStore.
Proof.
  destruct (demo_c_made "multi_leader" 3) as [Hwf Hct]; [done|lia|].
  apply (add_after_remove_overwrites (demo_c "multi_leader" 3) demo_removed (the_cluster (AddNode demo_removed)) "01234567" "node-01234567-1");
    [done|done|reflexivity| |discriminate| |].
  - refine (bool_decide_unpack _ _). by vm_compute.
  - apply keep_inr. by vm_compute.
  - apply the_cluster_Ok. by vm_compute.
Defined.

(** A single-leader cluster never gets a new leader: once the leader is removed, every client call
    that does not name a node fails for lack of a target and batches are refused, whatever else is
    done to the node states and the network, although the followers are still there. *)
Theorem remove_leader_strands {float : Type} codec vc_string id cfg (c c' : @Cluster float) (os : list (@op float)) :
  strategy_of (Strategy cfg) = Some Node.StrategySingleLeader → createClusterCore codec vc_string id cfg = Ok (inr c) →
  RemoveNode c (LeaderID c) = inr c' → forallb (λ o, negb (is_add o)) os = true →
  ∃ c'', ops_run c' os = Ok c'' ∧
  ∀ o, clusters o !! id = Some c'' →
    (∀ waited, route o id waited "" = inl ErrNoTarget) ∧ WriteBatchAtomic o id "" = inl ErrNotSingleLeader.
Proof.
  intros Hs Hc Hrm Hos. destruct (created_leader codec vc_string id cfg c Hs Hc) as (Hin & Hne & Hcfg).
  pose proof (core_made _ _ _ _ _ Hc) as (Hwf & _).
  set (P (x : @Cluster float) := wf x ∧ LeaderID x = LeaderID c ∧ ¬ (LeaderID c ∈ NodeIDs x) ∧ Strategy (Config x) = Strategy cfg).
  assert (HP : P c').
  { destruct (RemoveNode_wf c c' _ Hwf Hrm) as (? & Hids & _ & ? & ?). split_and!; [done|done| |congruence].
    rewrite Hids, list_elem_of_filter. tauto. }
  destruct (run_while P (λ o, negb (is_add o)) os c') as (c'' & Hc'' & Hw & Hl & Hn & Hst); [|done|done|].
  { intros x o Ho%negb_true_iff (Hx & Hl & Hn & Hst). destruct (step_shrink x o Ho Hx) as (x' & ? & ? & Hsub & ? & ?).
    exists x'. split; [done|]. split_and!; [done|congruence| |congruence]. intros Hl'. by apply Hn, Hsub. }
  exists c''. split; [done|]. intros o Ho.
  assert (Hnone : Nodes c'' !! LeaderID c'' = None).
  { apply not_elem_of_dom. rewrite (wf_nodes _ Hw), Hl. by rewrite elem_of_list_to_set. }
  assert (Hraft : String.eqb (Strategy (Config c'')) "raft" = false).
  { rewrite Hst. destruct (String.eqb_spec (Strategy cfg) "raft") as [E|]; [by rewrite E in Hs|done]. }
  assert (Hle : String.eqb (LeaderID c'') "" = false) by (rewrite Hl; by apply String.eqb_neq).
  split; [intros waited|]; unfold route, WriteBatchAtomic, GetCluster, target_node; rewrite Ho; simpl; by rewrite ?Hraft, ?Hle, Hnone.
Qed.

Definition demo_headless : @Cluster unit := keep (demo_c "single_leader" 3) (RemoveNode (demo_c "single_leader" 3) "node-01234567-1").

Lemma remove_leader_strands_witness :
  ∃ c'' : @Cluster unit, ops_run demo_headless [OPause "node-01234567-2"] = Ok c'' ∧
  ∀ o, clusters o !! demo_cluster_id = Some c'' →
    (∀ waited, route o demo_cluster_id waited "" = inl ErrNoTarget) ∧ WriteBatchAtomic o demo_cluster_id "" = inl ErrNotSingleLeader.
Proof.
  apply (remove_leader_strands no_codec (λ _, "") demo_cluster_id (demo_cfg "single_leader" 3) (demo_c "single_leader" 3) demo_headless);
    [reflexivity| | |reflexivity].
  - apply the_cluster_Ok. by vm_compute.
  - apply keep_inr. by vm_compute.
Defined.

(** What an addition does to a leaderless cluster: every node, old and new, gets the new member list
    and the same quorum, with [N] one above the node count and [W], [R] as configured (or majorities of
    the new [N] when not configured), so the overlap of quorums survives exactly when [W + R] exceeds
    the new [N]; the configured replication factor is forgotten, and the new node does not get the
    cluster's consistency level, repair mode and sloppiness but the defaults. *)
Theorem add_node_quorum {float : Type} (c c' : @Cluster float) :
  strategy_of (Strategy (Config c)) = Some Node.StrategyLeaderless → AddNode c = Ok (inr c') →
  let cfg := Config c in
  let n := (NodeCount cfg + 1)%Z in
  let q := Quorum.MkConfig n (if (QuorumW cfg =? 0)%Z then Z.quot n 2 + 1 else QuorumW cfg)
                             (if (QuorumR cfg =? 0)%Z then Z.quot n 2 + 1 else QuorumR cfg) in
  (∀ id ll, Nodes c' !! id = Some (LeaderlessN ll) → Leaderless.qConfig ll = q ∧ Leaderless.allNodes ll = NodeIDs c') ∧
  (Quorum.IsStronglyConsistent q = true ↔ (n < Quorum.W q + Quorum.R q)%Z) ∧
  (QuorumW cfg = 0%Z → QuorumR cfg = 0%Z → (0 ≤ n)%Z → Quorum.IsStronglyConsistent q = true) ∧
  ∃ newID ll, NodeIDs c' = NodeIDs c ++ [newID] ∧ Nodes c' !! newID = Some (LeaderlessN ll) ∧
    Leaderless.consistencyLevel ll = Leaderless.CLQuorum ∧ Leaderless.repairMode ll = Leaderless.RepairAsync ∧ Leaderless.sloppy ll = true.
Proof.
  intros Hs Ha cfg n q. unfold AddNode in Ha. destruct (prefix8 (ID c)) as [p|]; [|done]. simpl in Ha. rewrite Hs in Ha.
  injection Ha as <-. fold cfg n q. set (newID := numbered p _). split_and!.
  - simpl. intros id ll. rewrite lookup_insert_Some. intros [[_ [= <-]]|[_ Hl]]; [done|].
    apply lookup_fmap_Some in Hl as ([] & Hx & _); try done. simpl in Hx. by injection Hx as <-.
  - unfold Quorum.IsStronglyConsistent. by rewrite Z.ltb_lt.
  - intros Hw Hr Hn. unfold Quorum.IsStronglyConsistent, q. rewrite Hw, Hr. simpl. apply Z.ltb_lt.
    rewrite Z.quot_div_nonneg by lia. pose proof (Z.div_mod n 2). pose proof (Z.mod_pos_bound n 2). lia.
  - simpl. eexists newID, _. split; [done|]. rewrite lookup_insert_eq. split; [done|]. by split_and!.
Qed.

(** Three replicas with quorums of two, strongly consistent, become four with quorums of two. *)
Definition demo_322 : @Cluster unit :=
  the_cluster (createClusterCore no_codec (λ _, "") demo_cluster_id (MkCfg "leaderless" 3 "" "" 3 2 2 0 0 "" "" (Some false))).

Lemma add_node_quorum_witness :
  Quorum.IsStronglyConsistent (quorumConfigFor (Config demo_322)) = true ∧
  (∀ id ll, Nodes (the_cluster (AddNode demo_322)) !! id = Some (LeaderlessN ll) →
    Leaderless.qConfig ll = Quorum.MkConfig 4 2 2 ∧ Leaderless.allNodes ll = NodeIDs (the_cluster (AddNode demo_322))) ∧
  Quorum.IsStronglyConsistent (Quorum.MkConfig 4 2 2) = false ∧
  ∃ newID ll, Nodes (the_cluster (AddNode demo_322)) !! newID = Some (LeaderlessN ll) ∧ Leaderless.sloppy ll = true.
Proof.
  destruct (add_node_quorum demo_322 (the_cluster (AddNode demo_322))) as (H1 & H2 & _ & newID & ll & _ & Hn & _ & _ & Hsl).
  - reflexivity.
  - apply the_cluster_Ok. reflexivity.
  - split_and!; [reflexivity|exact H1|reflexivity|eauto].
Defined.

(** A restart can crash the server: the configuration saved with a single-leader cluster counts the
    nodes left, and restoring one whose nodes were all removed indexes an empty list; a leaderless
    cluster in the same state comes back with five nodes. *)
Theorem restore_after_removals {float : Type} codec vc_string :
  (∃ c : @Cluster float, createClusterCore codec vc_string demo_cluster_id (demo_cfg "single_leader" 1) = Ok (inr c) ∧
   ∃ c', RemoveNode c "node-01234567-1" = inr c' ∧ Restore (float := float) codec vc_string NewOrchestrator [(ID c', Config c')] = Panic) ∧
  (∃ c : @Cluster float, createClusterCore codec vc_string demo_cluster_id (demo_cfg "leaderless" 1) = Ok (inr c) ∧
   ∃ c', RemoveNode c "node-01234567-1" = inr c' ∧ NodeIDs c' = [] ∧
   ∃ o c'', Restore (float := float) codec vc_string NewOrchestrator [(ID c', Config c')] = Ok o ∧ clusters o !! demo_cluster_id = Some c'' ∧
     length (NodeIDs c'') = 5).
Proof.
  split.
  - eexists. split; [reflexivity|]. eexists. split; [reflexivity|]. reflexivity.
  - eexists. split; [reflexivity|]. eexists. split; [reflexivity|]. split; [reflexivity|].
    assert (H0 : ∃ c0 : @Cluster float, createClusterCore codec vc_string demo_cluster_id (demo_cfg "leaderless" 0) = Ok (inr c0))
      by (eexists; reflexivity).
    destruct H0 as [c0 H0]. exists (put_cluster NewOrchestrator demo_cluster_id c0), c0. split_and!.
    + change (Restore (float := float) codec vc_string NewOrchestrator [(demo_cluster_id, demo_cfg "leaderless" 0)] =
        Ok (put_cluster NewOrchestrator demo_cluster_id c0)).
      unfold Restore, restore_one. cbn [foldl fst snd mbind Res_bind]. by rewrite H0.
    + apply lookup_insert_eq.
    + apply core_made in H0 as (_ & _ & (_ & -> & _)%node_ids_Ok). reflexivity.
Qed.
