(* ===== verification/ClusterQuorum.v ===== *)
(** * Quorum consistency of the clusters the orchestrator builds

    The guarantee of [LeaderlessQuorum] holds for strict nodes; here it is connected to a configuration:
    a cluster built by [createClusterCore] from a configuration that [ClassifyCAP] calls consistent, with
    sloppy quorums switched off, has it. *)

From S2P Require Import Prelude Storage Conflict Quorum HashRing Linearizability Transport Node Leaderless LeaderlessQuorum Cluster Membership.
Import (hints) Node Cluster.
#[local] Open Scope nat_scope.

Module ClusterQuorum.
Import Cluster Membership.

Definition as_leaderless (n : AnyNode) : option Leaderless.LeaderlessNode :=
  match n with LeaderlessN ll => Some ll | _ => None end.

(** The nodes of a cluster as [LeaderlessQuorum] runs them, with no call and no message on its way. *)
Definition start {float} (c : @Cluster float) : LeaderlessQuorum.Sys :=
  LeaderlessQuorum.MkSys (omap as_leaderless (Nodes c)) [] ∅ ∅ [] [].

(** The configurations that ask for strict quorums. *)
Definition strict_cfg (cfg : ClusterConfig) : Prop :=
  strategy_of (Strategy cfg) = Some Node.StrategyLeaderless ∧
  (ConsistencyLevel cfg = "" ∨ ConsistencyLevel cfg = Leaderless.CLQuorum) ∧
  ReadRepairMode cfg ≠ Leaderless.RepairDigest ∧ SloppyQuorum cfg = Some false.

Lemma new_leaderless_strict cfg q ids k :
  strict_cfg cfg → LeaderlessQuorum.strict ids q k (new_leaderless cfg q ids k).
Proof.
  intros (_ & Hcl & Hrr & Hsl). split; [apply new_leaderless_id|]. unfold new_leaderless. rewrite Hsl.
  destruct (String.eqb_spec (ReadRepairMode cfg) ""); destruct Hcl as [-> | ->]; split_and!; try done; simpl; by case_match.
Qed.

Lemma strict_SetRegions ids q k n rs :
  LeaderlessQuorum.strict ids q k n → LeaderlessQuorum.strict ids q k (Leaderless.SetRegions n rs).
Proof. done. Qed.

(** Every node of a cluster is leaderless and strict. *)
Definition all_strict {float} (ids : list string) (q : Quorum.QuorumConfig) (c : @Cluster float) : Prop :=
  ∀ k n, Nodes c !! k = Some n → ∃ ll, n = LeaderlessN ll ∧ LeaderlessQuorum.strict ids q k ll.

Lemma createLeaderless_strict {float} (c0 : @Cluster float) id cfg c :
  strict_cfg cfg → ID c0 = id → Nodes c0 = ∅ → createLeaderlessCluster c0 cfg = Ok c →
  ∃ ids, node_ids id (effective_count cfg) = Ok ids ∧ all_strict ids (quorumConfigFor cfg) c.
Proof.
  intros Hs <- H0. unfold createLeaderlessCluster. fold (effective_count cfg). cbv zeta.
  destruct (node_ids (ID c0) (effective_count cfg)) as [ids|]; [|done]. cbn [mbind Res_bind]. intros [= <-].
  exists ids. split; [done|]. apply (foldl_inv (all_strict ids (quorumConfigFor cfg))).
  - intros k n. by rewrite H0, lookup_empty.
  - intros c x Hc k n. simpl. rewrite lookup_insert_Some. intros [[<- <-]|[_ Hk]]; [|by apply Hc].
    eexists. split; [done|]. by apply new_leaderless_strict.
Qed.

Lemma pushRegions_strict {float} ids q (c : @Cluster float) : all_strict ids q c → all_strict ids q (pushRegions c).
Proof.
  intros Hc k n. simpl. intros (m & <- & Hm)%lookup_fmap_Some. destruct (Hc k m Hm) as (ll & -> & Hll).
  eexists. split; [done|]. by apply strict_SetRegions.
Qed.

Lemma assignRegions_strict {float} ids q (c : @Cluster float) cfg :
  all_strict ids q c → all_strict ids q (assignRegions c cfg).
Proof. intros Hc. unfold assignRegions. case_match; by apply pushRegions_strict. Qed.

Lemma core_strict {float} codec vc_string id cfg (c : @Cluster float) :
  strict_cfg cfg → createClusterCore codec vc_string id cfg = Ok (inr c) →
  all_strict (NodeIDs c) (quorumConfigFor cfg) c.
Proof.
  intros Hs Hc. pose proof (core_made _ _ _ _ _ Hc) as (_ & _ & Hids). revert Hc Hids.
  unfold createClusterCore, asked. rewrite (proj1 Hs). set (c0 := MkCluster _ _ _ _ _ _ _ _).
  destruct (createLeaderlessCluster c0 cfg) as [c1|] eqn:E; [|done]. simpl. intros [= <-] Hids.
  destruct (createLeaderless_strict c0 id cfg c1 Hs eq_refl eq_refl E) as (ids & Hids' & Hc1).
  rewrite Hids' in Hids. injection Hids as <-. by apply assignRegions_strict.
Qed.

Lemma start_strict {float} ids q (c : @Cluster float) k ll : all_strict ids q c →
  LeaderlessQuorum.nodes (start c) !! k = Some ll → LeaderlessQuorum.strict ids q k ll.
Proof.
  intros Hc. simpl. rewrite lookup_omap. intros (n & Hn & Hll)%bind_Some.
  destruct (Hc k n Hn) as (ll' & -> & ?). by injection Hll as ->.
Qed.

(** [ClassifyCAP] calls a leaderless configuration consistent exactly when its quorums overlap. *)
Lemma classify_leaderless cfg : strategy_of (Strategy cfg) = Some Node.StrategyLeaderless →
  CAPType (ClassifyCAP cfg) = "CP" ↔
  (Quorum.N_ (quorumConfigFor cfg) < Quorum.W (quorumConfigFor cfg) + Quorum.R (quorumConfigFor cfg))%Z.
Proof.
  intros Hs. unfold ClassifyCAP, Quorum.IsStronglyConsistent. rewrite Hs, <- Z.ltb_lt. by destruct (_ <? _)%Z.
Qed.

Lemma quorum_N_pos cfg : (0 ≤ NodeCount cfg)%Z → (1 ≤ Quorum.N_ (quorumConfigFor cfg))%Z.
Proof.
  intros Hn. simpl. destruct (Z.eqb_spec (NodeCount cfg) 0); destruct (Z.leb_spec (QuorumN cfg) 0); simpl;
    repeat case_match; lia.
Qed.

End ClusterQuorum.

Import Cluster Membership ClusterQuorum.

(** A leaderless configuration that the simulator classifies as "CP", with strict quorums at the
    default consistency level and no digest reads, builds a cluster of as many nodes as asked for that
    is quorum consistent: however its calls interleave and messages are lost or reordered, each write
    reported successful is held, itself or something newer, by [W] of its key's replicas, and a read
    coordinated by a replica that asks replicas only never answers with anything older than a write
    reported successful before it began. *)
Lemma created_cluster_quorum_consistent {float : Type} codec vc_string id cfg :
  strict_cfg cfg → (1 ≤ NodeCount cfg)%Z → 8 ≤ String.length id → CAPType (ClassifyCAP cfg) = "CP" →
  ∃ c : @Cluster float, createClusterCore codec vc_string id cfg = Ok (inr c) ∧
    dom (LeaderlessQuorum.nodes (start c)) = list_to_set (NodeIDs c) ∧ Z.of_nat (length (NodeIDs c)) = NodeCount cfg ∧
    ∀ acts, LeaderlessQuorum.quorum_consistent (NodeIDs c) (quorumConfigFor cfg) (LeaderlessQuorum.sys_run (start c) acts).
Proof.
  intros Hs Hn Hid Hcp. destruct (core_succeeds (float := float) codec vc_string id cfg) as [c Hc]; [by rewrite (proj1 Hs)|done|done|].
  pose proof (core_strict _ _ _ _ _ Hs Hc) as Hstr. apply core_made in Hc as Hm. pose proof Hm as (Hwf & _ & _).
  destruct (made_contiguous _ _ _ Hm) as [_ Hlen].
  { unfold asked, effective_count. rewrite (proj1 Hs). case_match; lia. }
  exists c. split_and!; [done| | |].
  - rewrite <- (wf_nodes _ Hwf). simpl. apply set_eq. intros k. rewrite !elem_of_dom, lookup_omap.
    destruct (Nodes c !! k) as [n|] eqn:Hk; simpl; [|by split; intros [? ?]].
    destruct (Hstr k n Hk) as (ll & -> & _). split; intros _; by eexists.
  - rewrite Hlen. unfold asked, effective_count. rewrite (proj1 Hs). destruct (Z.eqb_spec (NodeCount cfg) 0); lia.
  - intros acts. apply LeaderlessQuorum.run_consistent.
    + apply Hwf.
    + apply quorum_N_pos. lia.
    + apply classify_leaderless; [apply Hs|done].
    + intros k ll. by apply start_strict.
Qed.

(** ** The window of [SafeAddNode]

    Three nodes with quorums (3, 2, 2); the rings before and after a fourth joins are evaluated once. *)
Definition old_ids : list string := ["node-01234567-1"; "node-01234567-2"; "node-01234567-3"].
Definition new_ids : list string := old_ids ++ ["node-01234567-4"].
Definition q322 : Quorum.QuorumConfig := Quorum.MkConfig 3 2 2.
Definition old_ring : Ring.Ring := Eval vm_compute in foldl Ring.Add (Ring.NewRing 128) old_ids.
Definition new_ring : Ring.Ring := Eval vm_compute in foldl Ring.Add (Ring.NewRing 128) new_ids.

Lemma old_ring_eq : foldl Ring.Add (Ring.NewRing 128) old_ids = old_ring.
Proof. vm_cast_no_check (eq_refl old_ring). Qed.
Lemma new_ring_eq : foldl Ring.Add (Ring.NewRing 128) new_ids = new_ring.
Proof. vm_cast_no_check (eq_refl new_ring). Qed.

(** A node with its members and ring replaced. *)
Definition with_ring (all : list string) (r : Ring.Ring) (n : Leaderless.LeaderlessNode) : Leaderless.LeaderlessNode :=
  Leaderless.MkLL (Leaderless.base n) (Leaderless.qConfig n) all (Leaderless.hints n) r (Leaderless.regions n) (Leaderless.selfRegion n)
    (Leaderless.repairMode n) (Leaderless.consistencyLevel n) (Leaderless.sloppy n) (Leaderless.seqNo n) (Leaderless.writeAcks n)
    (Leaderless.readResps n).

Lemma SetAllNodes_new n : Leaderless.SetAllNodes n new_ids = with_ring new_ids new_ring n.
Proof. unfold Leaderless.SetAllNodes. by rewrite new_ring_eq. Qed.

Definition strict_node (k : string) : Leaderless.LeaderlessNode :=
  Leaderless.SetSloppyQuorum (with_ring old_ids old_ring (Leaderless.NewLeaderlessNode k q322)) false.
Definition before_write : LeaderlessQuorum.Sys :=
  LeaderlessQuorum.MkSys (list_to_map ((λ k, (k, strict_node k)) <$> old_ids)) [] ∅ ∅ [] [].

Lemma before_write_eq :
  LeaderlessQuorum.sys_init old_ids q322 Leaderless.CLQuorum Leaderless.RepairAsync false = before_write.
Proof. unfold LeaderlessQuorum.sys_init, LeaderlessQuorum.fresh, Leaderless.SetAllNodes. by rewrite old_ring_eq. Qed.

(** A write at the first node that the second acknowledges; the request to the third is lost. *)
Definition window_write : list LeaderlessQuorum.action :=
  [LeaderlessQuorum.AWrite "node-01234567-1" 1 "a" (Some "v"); LeaderlessQuorum.ADeliver 0 1; LeaderlessQuorum.ADrop 0;
   LeaderlessQuorum.ADeliver 0 1; LeaderlessQuorum.AAck "node-01234567-1" 1].
Definition written : LeaderlessQuorum.Sys := LeaderlessQuorum.sys_run before_write window_write.

(** The orchestrator's view of a system, and the system once the nodes are those of a cluster. *)
Definition as_cluster (cfg : ClusterConfig) (ids : list string) (y : LeaderlessQuorum.Sys) : @Cluster unit :=
  MkCluster demo_cluster_id cfg (LeaderlessN <$> LeaderlessQuorum.nodes y) ids "" Fabric.NewNetworkFabric ∅ (Lin.MkHistory []).
Definition with_members (y : LeaderlessQuorum.Sys) (c : @Cluster unit) : LeaderlessQuorum.Sys :=
  LeaderlessQuorum.MkSys (omap as_leaderless (Nodes c)) (LeaderlessQuorum.net y) (LeaderlessQuorum.wcalls y)
    (LeaderlessQuorum.rcalls y) (LeaderlessQuorum.confirmed y) (LeaderlessQuorum.answers y).
Definition join (cfg : ClusterConfig) (ids : list string) (y : LeaderlessQuorum.Sys) : LeaderlessQuorum.Sys :=
  match safe_add_join (as_cluster cfg ids y) with Ok j => with_members y j.2 | Panic => y end.

Definition cfg322 : ClusterConfig := MkCfg "leaderless" 3 "" "" 3 2 2 0 0 "" "" (Some false).

Definition joined_sys (y : LeaderlessQuorum.Sys) : LeaderlessQuorum.Sys :=
  LeaderlessQuorum.MkSys
    (<["node-01234567-4" := with_ring new_ids new_ring (Leaderless.NewLeaderlessNode "node-01234567-4" q322)]>
      (with_ring new_ids new_ring <$> LeaderlessQuorum.nodes y))
    (LeaderlessQuorum.net y) (LeaderlessQuorum.wcalls y) (LeaderlessQuorum.rcalls y)
    (LeaderlessQuorum.confirmed y) (LeaderlessQuorum.answers y).

Lemma join_eq y : join cfg322 old_ids y = joined_sys y.
Proof.
  unfold join, safe_add_join. change (prefix8 (ID (as_cluster cfg322 old_ids y))) with (Ok "01234567").
  cbn [mbind Res_bind snd]. unfold with_members, joined_sys. f_equal.
  change (NodeIDs (as_cluster cfg322 old_ids y)) with old_ids.
  change (numbered "01234567" (length old_ids + 1)) with "node-01234567-4".
  change (old_ids ++ ["node-01234567-4"]) with new_ids. change (old_quorum (as_cluster cfg322 old_ids y)) with q322.
  rewrite SetAllNodes_new. destruct y as [ns ? ? ? ? ?]. cbn [LeaderlessQuorum.nodes]. apply map_eq. intros a.
  cbn [Nodes add_member with_nodes as_cluster LeaderlessQuorum.nodes].
  rewrite lookup_omap, !lookup_insert. case_decide; [done|]. rewrite !lookup_fmap. destruct (ns !! a) as [n|]; [|done].
  cbn [fmap option_fmap option_map mbind option_bind set_all as_leaderless]. by rewrite SetAllNodes_new.
Qed.

(** The third node, a replica before and after, then reads and hears from the new one. *)
Definition window_read : list LeaderlessQuorum.action :=
  [LeaderlessQuorum.ARead "node-01234567-3" id "a"; LeaderlessQuorum.ADeliver 1 2; LeaderlessQuorum.ADeliver 1 2;
   LeaderlessQuorum.ARecv "node-01234567-3" 1; LeaderlessQuorum.AReadEnd "node-01234567-3" 1 3].
Definition after_read : LeaderlessQuorum.Sys := LeaderlessQuorum.sys_run (joined_sys written) window_read.

#[local] Instance QuorumConfig_eq_dec : EqDecision Quorum.QuorumConfig.
Proof. solve_decision. Defined.

Lemma new_reps : LeaderlessQuorum.reps new_ids q322 "a" = ["node-01234567-2"; "node-01234567-3"; "node-01234567-4"].
Proof. unfold LeaderlessQuorum.reps. rewrite new_ring_eq. by vm_compute. Qed.

Lemma after_read_eq :
  LeaderlessQuorum.sys_run (join cfg322 old_ids (LeaderlessQuorum.sys_run
    (LeaderlessQuorum.sys_init old_ids q322 Leaderless.CLQuorum Leaderless.RepairAsync false) window_write)) window_read = after_read.
Proof. unfold after_read, written. by rewrite before_write_eq, join_eq. Qed.

(** C37. The first phase of [SafeAddNode] does open the window its comment denies: between the change of
    the rings and the anti-entropy pass, with the same overlapping quorum on every node, a read whose
    coordinator was a replica all along, asks replicas only and reaches [R] of them reports "not found"
    for a write reported successful before the change. *)
Theorem safe_add_node_window :
  let y0 := LeaderlessQuorum.sys_init old_ids q322 Leaderless.CLQuorum Leaderless.RepairAsync false in
  let y := LeaderlessQuorum.sys_run (join cfg322 old_ids (LeaderlessQuorum.sys_run y0 window_write)) window_read in
  let a := demo_answer y in
  Quorum.IsStronglyConsistent q322 = true ∧
  (∀ k n, LeaderlessQuorum.nodes y !! k = Some n → Leaderless.qConfig n = q322) ∧
  LeaderlessQuorum.asks_replicas new_ids q322 (LeaderlessQuorum.a_node a) (LeaderlessQuorum.a_call a) ∧
  LeaderlessQuorum.a_after a = [demo_confirmed y] ∧
  kv_Key (demo_confirmed y) = Leaderless.r_key (LeaderlessQuorum.a_call a) ∧ kv_Value (demo_confirmed y) = Some "v" ∧
  LeaderlessQuorum.a_result a = inl Leaderless.ErrNotFound.
Proof.
  cbv zeta. rewrite after_read_eq. split_and!; try (by vm_compute).
  - apply (bool_decide_unpack (map_Forall (λ _ n, Leaderless.qConfig n = q322) _)). by vm_compute.
  - unfold LeaderlessQuorum.asks_replicas.
    assert (Leaderless.r_key (LeaderlessQuorum.a_call (demo_answer after_read)) = "a") as -> by (by vm_compute).
    assert (LeaderlessQuorum.a_node (demo_answer after_read) = "node-01234567-3") as -> by (by vm_compute).
    rewrite new_reps. split; [set_solver|left; by vm_compute].
Qed.
