(* ===== verification/Convergence.v ===== *)
(** * Convergence checks and anti-entropy

    Models [src/internal/simulation/convergence.go], [antientropy.go] and [SafeAddNode] of [membership.go].
    An anti-entropy pass compares the Merkle trees of the online replicas with that of a reference and
    copies the newest version of each divergent key onto the replicas that lack it.  Go visits maps in
    no fixed order: the reference [refID], the order [korder] of the divergent keys and the order [norder]
    in which the newest version of a key is searched are arguments.  A pass is modelled as one step;
    reports list keys in the order of the model's maps. *)

From S2P Require Import Prelude Base64 Storage Conflict Quorum HashRing Sha256 Merkle Transport Node Leaderless Cluster Membership.
Import (hints) Node Cluster.
#[local] Open Scope nat_scope.

Module Convergence.
Import Cluster.

(** ** The convergence check *)

(** [nodeValueRepr] *)
Definition nodeValueRepr (n : AnyNode) (key : string) : string :=
  match Store.GetRaw (GetStore n) key with
  | None => "<absent>"
  | Some raw => if kv_Tombstone raw then "<tombstone>" else Base64.encode (default "" (kv_Value raw))
  end.

Record KeyDivergence := MkDivergence { Key : string; Values : gmap string string }.
Record ConvergenceReport := MkReport {
  ClusterID : string;
  Converged : bool;
  Keys : nat;
  Diverged : list KeyDivergence;
  Note : string;
}.

(** The loop over the replicas: is a value different from the first one? *)
Definition differ (values : list string) : bool :=
  match values with [] => false | first :: rest => existsb (λ v, negb (String.eqb v first)) rest end.

(** The online members. *)
Definition online {float} (c : @Cluster float) : gmap string AnyNode :=
  filter (λ x, State x.2 = Node.StateOnline) (Nodes c).

Definition keys_of (ns : gmap string AnyNode) : gset string :=
  ⋃ ((λ x, list_to_set (Store.Keys (GetStore x.2))) <$> map_to_list ns).

Definition key_divergence (ns : gmap string AnyNode) (k : string) : option KeyDivergence :=
  let values := (λ n, nodeValueRepr n k) <$> ns in
  if differ ((map_to_list values).*2) then Some (MkDivergence k values) else None.

Definition CheckConvergence {float} (c : @Cluster float) : ConvergenceReport :=
  let ns := online c in
  let keys := keys_of ns in
  if size ns <? 2 then
    MkReport (ID c) true (size keys) [] "fewer than two online replicas; convergence is trivially satisfied"
  else
    let diverged := omap (key_divergence ns) (elements keys) in
    MkReport (ID c) (bool_decide (length diverged = 0)) (size keys) diverged "".

(** ** Anti-entropy *)

(** [mapRepr] *)
Definition mapRepr (n : AnyNode) : gmap string string :=
  (λ raw, if kv_Tombstone raw then "<tomb>" else Base64.encode (default "" (kv_Value raw))) <$> Store.data (GetStore n).

(** The order the pass uses: timestamp, then node. *)
Definition newer (a b : KVEntry) : bool :=
  (kv_Timestamp b <? kv_Timestamp a)%Z || ((kv_Timestamp a =? kv_Timestamp b)%Z && str_ltb (kv_NodeID b) (kv_NodeID a)).

(** [newestEntry], over the nodes in the order visited *)
Definition newestEntry (nodes : list AnyNode) (key : string) : option KVEntry :=
  foldl (λ best n,
    match Store.GetRaw (GetStore n) key with
    | None => best
    | Some raw =>
        match best with
        | None => Some raw
        | Some b => if newer raw b then Some raw else best
        end
    end) None nodes.

Definition stale (best : KVEntry) (k : string) (n : AnyNode) : bool :=
  match Store.GetRaw (GetStore n) k with None => true | Some raw => newer best raw end.

Definition repair (best : KVEntry) (k : string) (n : AnyNode) : AnyNode :=
  if stale best k n then SetStore n (Store.Set_ (GetStore n) best) else n.

(** One round of the reconciling loop: the online nodes and the number of copies repaired. *)
Definition reconcile_key (norder : string → list string → list string) (acc : gmap string AnyNode * nat) (k : string)
  : gmap string AnyNode * nat :=
  match newestEntry (omap (λ id, acc.1 !! id) (norder k (map_to_list acc.1).*1)) k with
  | None => acc
  | Some best => (repair best k <$> acc.1, acc.2 + size (filter (λ x, stale best k x.2 = true) acc.1))
  end.

(** The union of the differences to the reference. *)
Definition divergent_keys (ns : gmap string AnyNode) (refID : string) : gset string :=
  let trees := (λ n, Merkle.BuildTree (mapRepr n)) <$> ns in
  let ref := default Merkle.Nil (trees !! refID) in
  list_to_set (x ← map_to_list trees; if String.eqb x.1 refID then [] else Merkle.Diff ref x.2).

Record AntiEntropyReport := MkAEReport {
  TotalKeys : nat;
  DivergentKeys : list string;
  Reconciled : nat;
  ConvergedAfter : bool;
}.

Definition RunAntiEntropy {float} (refID : string) (korder : list string → list string)
    (norder : string → list string → list string) (c : @Cluster float) : AntiEntropyReport * @Cluster float :=
  let ns := online c in
  if size ns <? 2 then (MkAEReport 0 [] 0 true, c)
  else
    let divergent := korder (elements (divergent_keys ns refID)) in
    let r := foldl (reconcile_key norder) (ns, 0) divergent in
    let c' := with_nodes c (r.1 ∪ Nodes c) in
    (MkAEReport (size (keys_of ns)) divergent r.2 (Converged (CheckConvergence c')), c').

(** ** Growing a leaderless cluster *)

Record ReconfigureReport := MkReconfigure {
  AddedNode : string;
  OldQuorum : Quorum.QuorumConfig;
  NewQuorum : Quorum.QuorumConfig;
  OverlapHeld : bool;
  r_Reconciled : nat;
}.

(** [SafeAddNode] without interference between its phases *)
Definition SafeAddNode {float} (refID : string) (korder : list string → list string)
    (norder : string → list string → list string) (c : @Cluster float) : Res (error + ReconfigureReport * @Cluster float) :=
  match strategy_of (Strategy (Config c)) with
  | Some Node.StrategyLeaderless =>
      let oldQ := old_quorum c in
      j ← safe_add_join c;
      let '(rep, c2) := RunAntiEntropy refID korder norder j.2 in
      let c3 := safe_add_switch c2 in
      let newQ := Quorum.MkConfig (QuorumN (Config c3)) (QuorumW (Config c3)) (QuorumR (Config c3)) in
      Ok (inr (MkReconfigure j.1 oldQ newQ (Quorum.IsStronglyConsistent oldQ && Quorum.IsStronglyConsistent newQ) (Reconciled rep), c3))
  | _ => Ok (inl ErrNotLeaderless)
  end.

(** ** What a node shows *)

(** The content of an entry: a tombstone or its bytes. *)
Definition content (e : KVEntry) : option string :=
  if kv_Tombstone e then None else Some (default "" (kv_Value e)).

(** What a node shows for a key: nothing, a tombstone or bytes. *)
Definition visible (n : AnyNode) (k : string) : option (option string) := content <$> Store.GetRaw (GetStore n) k.

(** Markers are no base64 text, and base64 loses nothing. *)
#[local] Ltac by_text H :=
  first [done | by apply Base64.encode_inj in H as -> | by apply Base64.encode_no_marker in H
        | symmetry in H; by apply Base64.encode_no_marker in H].

Lemma nodeValueRepr_inj n m k : nodeValueRepr n k = nodeValueRepr m k ↔ visible n k = visible m k.
Proof.
  unfold nodeValueRepr, visible, content.
  destruct (Store.GetRaw (GetStore n) k) as [e|], (Store.GetRaw (GetStore m) k) as [e'|]; simpl;
    repeat match goal with |- context [kv_Tombstone ?x] => destruct (kv_Tombstone x) end;
    (split; [intros H|intros H; try done; congruence]); by_text H.
Qed.

Lemma mapRepr_inj n m k : mapRepr n !! k = mapRepr m !! k ↔ visible n k = visible m k.
Proof.
  unfold mapRepr, visible, content. rewrite !lookup_fmap. unfold Store.GetRaw.
  destruct (Store.data (GetStore n) !! k) as [e|], (Store.data (GetStore m) !! k) as [e'|]; simpl;
    repeat match goal with |- context [kv_Tombstone ?x] => destruct (kv_Tombstone x) end;
    (split; [intros H|intros H; try done; congruence]); try done; injection H as H; by_text H.
Qed.

(** ** The check is exact *)

Lemma differ_spec vs : differ vs = true ↔ ∃ v w, v ∈ vs ∧ w ∈ vs ∧ v ≠ w.
Proof.
  destruct vs as [|x vs]; simpl; [split; [done|by intros (? & ? & ?%elem_of_nil & _)]|].
  rewrite existsb_exists. split.
  - intros (v & Hv%list_elem_of_In & Hne). apply negb_true_iff, String.eqb_neq in Hne. exists v, x. split_and!; [by right|by left|done].
  - assert (Hx : ∀ v, v ∈ x :: vs → v ≠ x → ∃ v, In v vs ∧ negb (String.eqb v x) = true).
    { intros v [-> |Hv]%elem_of_cons Hne; [done|]. exists v. split; [by apply list_elem_of_In|]. by apply negb_true_iff, String.eqb_neq. }
    intros (v & w & Hv & Hw & Hne). destruct (decide (v = x)) as [-> |]; eauto.
Qed.

(** The key shows two different contents among [ns]. *)
Definition split_on (ns : gmap string AnyNode) (k : string) : Prop :=
  ∃ a b n m, ns !! a = Some n ∧ ns !! b = Some m ∧ visible n k ≠ visible m k.

Lemma key_divergence_spec ns k : (∃ d, key_divergence ns k = Some d ∧ Key d = k ∧ Values d = (λ n, nodeValueRepr n k) <$> ns) ↔ split_on ns k.
Proof.
  unfold key_divergence. set (vs := (map_to_list _).*2).
  assert (Hv : ∀ v, v ∈ vs ↔ ∃ a n, ns !! a = Some n ∧ nodeValueRepr n k = v).
  { intros v. unfold vs. rewrite list_elem_of_fmap. split.
    - intros ([a w] & -> & (n & <- & Hn)%elem_of_map_to_list%lookup_fmap_Some). eauto.
    - intros (a & n & Hn & <-). exists (a, nodeValueRepr n k). split; [done|]. apply elem_of_map_to_list. by rewrite lookup_fmap, Hn. }
  assert (Hd : differ vs = true ↔ split_on ns k).
  { rewrite differ_spec. split.
    - intros (v & w & (a & n & Ha & <-)%Hv & (b & m & Hb & <-)%Hv & Hne). exists a, b, n, m. by rewrite <- nodeValueRepr_inj.
    - intros (a & b & n & m & Ha & Hb & Hne). exists (nodeValueRepr n k), (nodeValueRepr m k).
      rewrite nodeValueRepr_inj, !Hv. split_and!; [by exists a, n|by exists b, m|done]. }
  rewrite <- Hd. destruct (differ vs); split; [done|by eauto|by intros (? & ? & _)|done].
Qed.

Lemma elem_of_keys_of ns k : k ∈ keys_of ns ↔ ∃ a n, ns !! a = Some n ∧ is_Some (Store.GetRaw (GetStore n) k).
Proof.
  unfold keys_of. rewrite elem_of_union_list. split.
  - intros (X & ([a n] & -> & Hn%elem_of_map_to_list)%list_elem_of_fmap & Hk%elem_of_list_to_set%Store.elem_of_Keys). eauto.
  - intros (a & n & Hn & Hk). exists (list_to_set (Store.Keys (GetStore n))).
    split; [|by apply elem_of_list_to_set, Store.elem_of_Keys]. apply list_elem_of_fmap. exists (a, n). by rewrite elem_of_map_to_list.
Qed.

Lemma split_on_key ns k : split_on ns k → k ∈ keys_of ns.
Proof.
  intros (a & b & n & m & Ha & Hb & Hne). apply elem_of_keys_of. unfold visible in Hne.
  destruct (Store.GetRaw (GetStore n) k) as [e|] eqn:En; [by exists a, n; rewrite En|].
  destruct (Store.GetRaw (GetStore m) k) as [e|] eqn:Em; [by exists b, m; rewrite Em|done].
Qed.

Lemma small_no_split ns k : size ns < 2 → ¬ split_on ns k.
Proof.
  intros Hs (a & b & n & m & Ha & Hb & Hne). assert (Hab : a ≠ b) by (intros ->; congruence).
  assert (Hsub : ({[a; b]} : gset string) ⊆ dom ns).
  { intros x [-> %elem_of_singleton | -> %elem_of_singleton]%elem_of_union; apply elem_of_dom; eauto. }
  apply subseteq_size in Hsub. rewrite size_union, !size_singleton, size_dom in Hsub by set_solver. lia.
Qed.

(** The report lists exactly the keys on which two online replicas show different contents. *)
Lemma CheckConvergence_spec {float} (c : @Cluster float) :
  (∀ k, k ∈ Key <$> Diverged (CheckConvergence c) ↔ split_on (online c) k) ∧
  (Converged (CheckConvergence c) = true ↔ ∀ k, ¬ split_on (online c) k).
Proof.
  unfold CheckConvergence. destruct (Nat.ltb_spec (size (online c)) 2) as [Hs|Hs]; simpl.
  - split; [|split; [|done]; intros _ k; by apply small_no_split]. intros k. rewrite elem_of_nil.
    split; [done|]. by apply small_no_split.
  - set (ds := omap _ _). assert (Hk : ∀ k, k ∈ Key <$> ds ↔ split_on (online c) k).
    { intros k. rewrite <- key_divergence_spec. unfold ds. rewrite list_elem_of_fmap. split.
      - intros (d & -> & (k' & Hin & Hd)%list_elem_of_omap). exists d.
        unfold key_divergence in Hd |- *. destruct (differ _) eqn:E; [|done]. injection Hd as <-. simpl. by rewrite E.
      - intros (d & Hd & Hkd & Hv). exists d. split; [done|]. apply list_elem_of_omap. exists k. split; [|done].
        apply elem_of_elements, split_on_key, key_divergence_spec. eauto. }
    split; [done|]. rewrite bool_decide_eq_true. split.
    + intros Hnil%nil_length_inv k Hsp%Hk. rewrite Hnil in Hsp. by apply elem_of_nil in Hsp.
    + intros Hno. destruct ds as [|d ds']; [done|]. exfalso. apply (Hno (Key d)), Hk. by left.
Qed.

Lemma Diverged_NoDup {float} (c : @Cluster float) : NoDup (Key <$> Diverged (CheckConvergence c)).
Proof.
  unfold CheckConvergence. destruct (size (online c) <? 2); [apply NoDup_nil_2|]. simpl.
  assert (H : ∀ l : list string, Key <$> omap (key_divergence (online c)) l = filter (λ k, is_Some (key_divergence (online c) k)) l).
  { induction l as [|k l IH]; [done|]. rewrite filter_cons. simpl. destruct (key_divergence (online c) k) as [d|] eqn:E.
    - rewrite decide_True by done. assert (Key d = k) as <- by (unfold key_divergence in E; by destruct (differ _); simplify_eq).
      exact (f_equal (cons (Key d)) IH).
    - rewrite decide_False by (by intros []). apply IH. }
  rewrite H. apply NoDup_filter, NoDup_elements.
Qed.

(** ** The pass settles every key *)

Lemma GetStore_SetStore (n : AnyNode) s : GetStore (SetStore n s) = s.
Proof. unfold GetStore, SetStore. by rewrite base_of_set. Qed.

Lemma State_SetStore (n : AnyNode) s : State (SetStore n s) = State n.
Proof. unfold State, SetStore. by rewrite base_of_set. Qed.

Lemma SetStore_SetStore (n : AnyNode) s s' : SetStore (SetStore n s) s' = SetStore n s'.
Proof. by destruct n. Qed.

Lemma SetStore_GetStore (n : AnyNode) : SetStore n (GetStore n) = n.
Proof. by destruct n as [[[]]|[[]]|[[]]|[[]]|[[]]]. Qed.

Lemma newer_entryWins a b : newer a b = Leaderless.entryWins a b.
Proof.
  unfold newer, Leaderless.entryWins. destruct (Z.eqb_spec (kv_Timestamp a) (kv_Timestamp b)) as [-> |Hne]; simpl.
  - by rewrite Z.ltb_irrefl.
  - by rewrite orb_false_r.
Qed.

(** [e] is the newest version of [k] among [ns]. *)
Definition newest (ns : gmap string AnyNode) (k : string) (e : KVEntry) : Prop :=
  (∃ a n, ns !! a = Some n ∧ Store.GetRaw (GetStore n) k = Some e) ∧
  ∀ a n e', ns !! a = Some n → Store.GetRaw (GetStore n) k = Some e' → Resolver.stamp_le e' e.

(** Versions of [k] with the same timestamp and writer have the same content. *)
Definition stamps_agree (ns : gmap string AnyNode) (k : string) : Prop :=
  ∀ a b n m e e', ns !! a = Some n → ns !! b = Some m → Store.GetRaw (GetStore n) k = Some e →
    Store.GetRaw (GetStore m) k = Some e' → kv_Timestamp e = kv_Timestamp e' → kv_NodeID e = kv_NodeID e' → content e = content e'.

(** Entries are stored under their own key. *)
Definition filed (n : AnyNode) : Prop := ∀ k e, Store.GetRaw (GetStore n) k = Some e → kv_Key e = k.

Lemma newestEntry_spec l k :
  match newestEntry l k with
  | None => ∀ n, n ∈ l → Store.GetRaw (GetStore n) k = None
  | Some e => (∃ n, n ∈ l ∧ Store.GetRaw (GetStore n) k = Some e) ∧
      ∀ n e', n ∈ l → Store.GetRaw (GetStore n) k = Some e' → Resolver.stamp_le e' e
  end.
Proof.
  unfold newestEntry. induction l as [|n l IH] using rev_ind; simpl; [by intros ? ?%elem_of_nil|].
  rewrite foldl_app. simpl. revert IH. generalize (foldl (λ best n,
    match Store.GetRaw (GetStore n) k with
    | None => best | Some raw => match best with None => Some raw | Some b => if newer raw b then Some raw else best end end) None l).
  intros [b|] IH; destruct (Store.GetRaw (GetStore n) k) as [raw|] eqn:En.
  - destruct IH as [(m & Hm & Hb) Hmax]. rewrite newer_entryWins. destruct (Leaderless.entryWins raw b) eqn:Ew; split.
    + exists n. split; [set_solver|done].
    + intros x e' [Hx|Hx%list_elem_of_singleton]%elem_of_app He'; [|subst; rewrite En in He'; injection He' as ->; apply Resolver.stamp_le_refl].
      eapply Resolver.stamp_le_trans; [by eapply Hmax|by apply Leaderless.entryWins_le].
    + exists m. split; [set_solver|done].
    + intros x e' [Hx|Hx%list_elem_of_singleton]%elem_of_app He'; [by eapply Hmax|].
      subst. rewrite En in He'. injection He' as ->. by apply Leaderless.entryWins_false.
  - destruct IH as [(m & Hm & Hb) Hmax]. split; [exists m; set_solver|].
    intros x e' [Hx|Hx%list_elem_of_singleton]%elem_of_app He'; [by eapply Hmax|congruence].
  - split; [exists n; set_solver|]. intros x e' [Hx%IH|Hx%list_elem_of_singleton]%elem_of_app He'; [congruence|].
    subst. rewrite En in He'. injection He' as ->. apply Resolver.stamp_le_refl.
  - intros x [Hx|Hx%list_elem_of_singleton]%elem_of_app; [auto|congruence].
Qed.

Lemma newest_same ns k e e' : stamps_agree ns k → newest ns k e → newest ns k e' → content e = content e'.
Proof.
  intros Hag [(a & n & Ha & He) H1] [(b & m & Hb & He') H2].
  destruct (Resolver.stamp_le_antisym e e') as [? ?]; [by apply (H2 a n)|by apply (H1 b m)|]. by eapply (Hag a b n m).
Qed.

(** The nodes [newestEntry] visits. *)
Lemma visited (norder : string → list string → list string) k (ns : gmap string AnyNode) n : (∀ l, norder k l ≡ₚ l) →
  n ∈ omap (λ id, ns !! id) (norder k (map_to_list ns).*1) ↔ ∃ a, ns !! a = Some n.
Proof.
  intros Hp. rewrite list_elem_of_omap. split; [intros (a & _ & ?); eauto|]. intros [a Ha]. exists a. split; [|done].
  rewrite Hp. apply list_elem_of_fmap. exists (a, n). by rewrite elem_of_map_to_list.
Qed.

Lemma newestEntry_visited (norder : string → list string → list string) k ns : (∀ l, norder k l ≡ₚ l) →
  match newestEntry (omap (λ id, ns !! id) (norder k (map_to_list ns).*1)) k with
  | None => k ∉ keys_of ns
  | Some e => newest ns k e
  end.
Proof.
  intros Hp. pose proof (newestEntry_spec (omap (λ id, ns !! id) (norder k (map_to_list ns).*1)) k) as H.
  destruct (newestEntry _ k) as [e|].
  - destruct H as [(n & [a Ha]%visited & He) H]; [|done]. split; [by exists a, n|].
    intros b m e' Hb He'. apply (H m); [|done]. apply visited; eauto.
  - rewrite elem_of_keys_of. intros (a & n & Ha & [e He]). rewrite H in He; [done|]. apply visited; eauto.
Qed.

(** What a repair does to a node. *)
Lemma repair_spec ns k best a n : newest ns k best → stamps_agree ns k → (∀ a n, ns !! a = Some n → filed n) → ns !! a = Some n →
  (∃ s, repair best k n = SetStore n s) ∧ filed (repair best k n) ∧ visible (repair best k n) k = Some (content best) ∧
  ∀ k', k' ≠ k → Store.GetRaw (GetStore (repair best k n)) k' = Store.GetRaw (GetStore n) k'.
Proof.
  intros Hb Hag Hf Ha. pose proof Hb as [(b & m & Hbm & Hbe) Hmax].
  assert (Hk : kv_Key best = k) by (by apply (Hf b m)). unfold repair, stale, visible.
  destruct (Store.GetRaw (GetStore n) k) as [raw|] eqn:Er; [rewrite newer_entryWins; destruct (Leaderless.entryWins best raw) eqn:Ew|].
  2: { split_and!; [by exists (GetStore n); rewrite SetStore_GetStore|by apply (Hf a)| |done]. rewrite Er. simpl. f_equal. apply Leaderless.entryWins_false in Ew.
       destruct (Resolver.stamp_le_antisym raw best) as [? ?]; [by apply (Hmax a n)|done|]. by eapply (Hag a b n m). }
  all: rewrite GetStore_SetStore; split_and!; [by eexists| |by rewrite Store.GetRaw_Set, decide_True|].
  1, 3: intros k' e; rewrite GetStore_SetStore, Store.GetRaw_Set; case_decide; [by intros [= <-]|by apply (Hf a)].
  all: intros k' Hne; rewrite Store.GetRaw_Set, decide_False by congruence; done.
Qed.

Section pass.
Context (ns0 : gmap string AnyNode) (norder : string → list string → list string).
Hypothesis Hperm : ∀ k l, norder k l ≡ₚ l.
Hypothesis Hfiled : ∀ a n, ns0 !! a = Some n → filed n.
Hypothesis Hagree : ∀ k, stamps_agree ns0 k.

(** What the rounds for [ks] make of a node [n]. *)
Definition settled (ks : list string) (n x : AnyNode) : Prop :=
  (∃ s, x = SetStore n s) ∧ filed x ∧
  ∀ k, (k ∉ ks → Store.GetRaw (GetStore x) k = Store.GetRaw (GetStore n) k) ∧
       (k ∈ ks → ∀ best, newest ns0 k best → visible x k = Some (content best)) ∧
       (k ∉ keys_of ns0 → Store.GetRaw (GetStore x) k = None).

Lemma settled_nil a n : ns0 !! a = Some n → settled [] n n.
Proof using Hfiled.
  intros Ha. split_and!; [by exists (GetStore n); rewrite SetStore_GetStore|by apply (Hfiled a)|]. intros k. split_and!; [done|by intros ?%elem_of_nil|].
  rewrite elem_of_keys_of. intros Hno. apply eq_None_not_Some. intros Hs. apply Hno. eauto.
Qed.

(** A function on the nodes that leaves [k] alone does not change what is newest. *)
Lemma newest_fmap (f : AnyNode → AnyNode) k :
  (∀ a n, ns0 !! a = Some n → Store.GetRaw (GetStore (f n)) k = Store.GetRaw (GetStore n) k) →
  stamps_agree (f <$> ns0) k ∧ (k ∈ keys_of (f <$> ns0) ↔ k ∈ keys_of ns0) ∧ ∀ best, newest (f <$> ns0) k best ↔ newest ns0 k best.
Proof using Hagree.
  intros Hf. split_and!.
  - intros a b x y e e' (n & <- & Hn)%lookup_fmap_Some (m & <- & Hm)%lookup_fmap_Some.
    rewrite (Hf a), (Hf b) by done. by apply (Hagree k a b).
  - rewrite !elem_of_keys_of. split.
    + intros (a & x & (n & <- & Hn)%lookup_fmap_Some & He). rewrite (Hf a) in He by done. eauto.
    + intros (a & n & Hn & He). exists a, (f n). by rewrite lookup_fmap, Hn, (Hf a).
  - intros best. split; intros [(a & x & Hx & He) Hmax]; split.
    + apply lookup_fmap_Some in Hx as (n & <- & Hn). rewrite (Hf a) in He by done. eauto.
    + intros b m e' Hm He'. apply (Hmax b (f m)); [by rewrite lookup_fmap, Hm|by rewrite (Hf b)].
    + exists a, (f x). by rewrite lookup_fmap, Hx, (Hf a).
    + intros b y e' (m & <- & Hm)%lookup_fmap_Some. rewrite (Hf b) by done. by apply (Hmax b).
Qed.

Lemma reconcile_settled ks k f cnt : k ∉ ks →
  (∀ a n, ns0 !! a = Some n → settled ks n (f n)) →
  ∃ g, (reconcile_key norder (f <$> ns0, cnt) k).1 = g <$> ns0 ∧ ∀ a n, ns0 !! a = Some n → settled (ks ++ [k]) n (g n).
Proof using Hperm Hagree.
  intros Hk Hf. destruct (newest_fmap f k) as (Hag & Hkeys & Hnew).
  { intros a n (_ & _ & Hs)%Hf. by apply Hs. }
  pose proof (newestEntry_visited norder k (f <$> ns0) (Hperm k)) as Hn. unfold reconcile_key. simpl.
  destruct (newestEntry _ k) as [best|].
  - exists (repair best k ∘ f). split; [by rewrite <- map_fmap_compose|]. intros a n Ha. pose proof (Hf a n Ha) as ([s Hst] & Hfx & Hs).
    destruct (repair_spec (f <$> ns0) k best a (f n)) as ([s' R1] & R2 & R3 & R4); [done|done| |by rewrite lookup_fmap, Ha|].
    { intros b x (m & <- & (_ & ? & _)%Hf)%lookup_fmap_Some. done. }
    split_and!; [by exists s'; simpl; rewrite R1, Hst, SetStore_SetStore|done|]. intros k'. rewrite elem_of_app, list_elem_of_singleton. simpl.
    destruct (decide (k' = k)) as [-> |Hne].
    + split_and!; [tauto| |].
      * intros _ b Hb. rewrite R3. f_equal. eapply newest_same; [exact Hag|done|by apply Hnew].
      * intros Hno. destruct Hno. apply Hkeys, elem_of_keys_of. destruct Hn as [(b & x & Hx & He) _]. eauto.
    + unfold visible. rewrite R4 by done. destruct (Hs k') as (S1 & S2 & S3). split_and!; [|intros [?|?]; [by apply S2|done]|done].
      intros Hno. apply S1. tauto.
  - exists f. split; [done|]. intros a n (Hst & Hfx & Hs)%Hf. split_and!; [done|done|]. intros k'. destruct (Hs k') as (S1 & S2 & S3).
    rewrite elem_of_app, list_elem_of_singleton. split_and!; [intros Hno; apply S1; tauto| |done].
    intros [?| ->]; [by apply S2|]. intros b [(x & m & Hx & He) _]. destruct Hn. apply Hkeys, elem_of_keys_of. eauto.
Qed.

Lemma fold_settled ks : NoDup ks →
  ∃ g, (foldl (reconcile_key norder) (ns0, 0) ks).1 = g <$> ns0 ∧ ∀ a n, ns0 !! a = Some n → settled ks n (g n).
Proof using Hperm Hfiled Hagree.
  induction ks as [|k ks IH] using rev_ind; intros Hnd.
  - exists (λ n, n). split; [by rewrite map_fmap_id|]. intros a n. apply settled_nil.
  - apply NoDup_app in Hnd as (Hnd & Hk & _). destruct (IH Hnd) as (f & Hf & Hs). rewrite foldl_app. simpl.
    destruct (foldl (reconcile_key norder) (ns0, 0) ks) as [ns cnt]. simpl in Hf. subst ns.
    apply reconcile_settled; [|done]. intros Hin. by apply (Hk k Hin), list_elem_of_singleton.
Qed.

End pass.

(** ** The divergent keys *)

(** The strings two replicas hash do not collide, and their keys can be told apart in the trees. *)
Definition comparable (n m : AnyNode) : Prop :=
  Merkle.store_ok (mapRepr n) ∧ Merkle.store_ok (mapRepr m) ∧
  Merkle.no_collisions (Merkle.hashed_by (mapRepr n) ++ Merkle.hashed_by (mapRepr m)) = true.

Lemma divergent_keys_spec ns refID ref k :
  ns !! refID = Some ref → (∀ a n, ns !! a = Some n → comparable ref n) →
  k ∈ divergent_keys ns refID ↔ split_on ns k.
Proof.
  intros Href Hcmp. unfold divergent_keys. rewrite lookup_fmap, Href. simpl. rewrite elem_of_list_to_set, list_elem_of_bind.
  assert (Hd : ∀ a n, ns !! a = Some n → k ∈ Merkle.Diff (Merkle.BuildTree (mapRepr ref)) (Merkle.BuildTree (mapRepr n)) ↔ visible ref k ≠ visible n k).
  { intros a n Ha. destruct (Hcmp a n Ha) as (? & ? & ?). by rewrite Merkle.Diff_spec, mapRepr_inj. }
  split.
  - intros ([a t] & Hk & (n & <- & Ha)%elem_of_map_to_list%lookup_fmap_Some). simpl in Hk.
    destruct (String.eqb_spec a refID); [by apply elem_of_nil in Hk|]. exists refID, a, ref, n. by rewrite <- (Hd a).
  - intros (a & b & n & m & Ha & Hb & Hne).
    assert (Hx : ∃ a n, ns !! a = Some n ∧ visible ref k ≠ visible n k).
    { destruct (decide (visible ref k = visible n k)) as [He|]; [|by exists a, n]. exists b, m. split; [done|congruence]. }
    destruct Hx as (x & y & Hx & Hxy). exists (x, Merkle.BuildTree (mapRepr y)). split.
    + simpl. destruct (String.eqb_spec x refID) as [-> |]; [congruence|]. by apply (Hd x).
    + apply elem_of_map_to_list. by rewrite lookup_fmap, Hx.
Qed.

(** ** Whole passes *)

(** What a pass needs of the online replicas. *)
Record mergeable (ns : gmap string AnyNode) : Prop := {
  mg_comparable : ∀ a b n m, ns !! a = Some n → ns !! b = Some m → comparable n m;
  mg_filed : ∀ a n, ns !! a = Some n → filed n;
  mg_agree : ∀ k, stamps_agree ns k;
}.

Lemma no_split_newest ns k a n best : ¬ split_on ns k → ns !! a = Some n → newest ns k best → visible n k = Some (content best).
Proof.
  intros Hno Ha [(b & m & Hb & He) _]. assert (Hm : visible m k = Some (content best)) by (unfold visible; by rewrite He).
  rewrite <- Hm. apply dec_stable. intros Hne. apply Hno. by exists a, b, n, m.
Qed.

(** Every online replica shows the newest content of every key of [ns]. *)
Definition caught_up (ns : gmap string AnyNode) (n : AnyNode) : Prop :=
  ∀ k, (∀ best, newest ns k best → visible n k = Some (content best)) ∧ (k ∉ keys_of ns → visible n k = None).

Lemma visible_absent ns a n k : ns !! a = Some n → k ∉ keys_of ns → visible n k = None.
Proof.
  intros Ha Hno. unfold visible. destruct (Store.GetRaw (GetStore n) k) eqn:E; [|done]. destruct Hno.
  apply elem_of_keys_of. eauto.
Qed.

Lemma newest_exists ns k : k ∈ keys_of ns → ∃ best, newest ns k best.
Proof.
  intros Hk. pose proof (newestEntry_visited (λ _ l, l) k ns (λ _, reflexivity _)) as H.
  destruct (newestEntry _ k); [eauto|done].
Qed.

Lemma caught_up_no_split ns ns' k : (∀ a n, ns' !! a = Some n → caught_up ns n) → ¬ split_on ns' k.
Proof.
  intros H (a & b & n & m & Ha & Hb & Hne). apply Hne. destruct (H a n Ha k) as [N1 N2], (H b m Hb k) as [M1 M2].
  destruct (decide (k ∈ keys_of ns)) as [[best Hb']%newest_exists|Hno]; [by rewrite (N1 best), (M1 best)|by rewrite N2, M2].
Qed.

Lemma online_with_nodes {float} (c : @Cluster float) (g : AnyNode → AnyNode) :
  (∀ a n, online c !! a = Some n → ∃ s, g n = SetStore n s) →
  online (with_nodes c ((g <$> online c) ∪ Nodes c)) = g <$> online c.
Proof.
  intros Hg. apply map_eq. intros a. unfold online at 1. simpl.
  destruct (online c !! a) as [n|] eqn:Ha; rewrite lookup_fmap, Ha; simpl.
  - destruct (Hg a n Ha) as [s Hs]. apply map_lookup_filter_Some. split.
    + apply lookup_union_Some_l. by rewrite lookup_fmap, Ha.
    + apply map_lookup_filter_Some in Ha as [_ Ha]. simpl in *. by rewrite Hs, State_SetStore.
  - apply map_lookup_filter_None. right. intros n. rewrite lookup_union_r by (by rewrite lookup_fmap, Ha). intros Hn Hon.
    assert (Hx : online c !! a = Some n) by (by apply map_lookup_filter_Some). congruence.
Qed.

Section whole.
Context {float : Type} (c : @Cluster float) (refID : string).
Context (korder : list string → list string) (norder : string → list string → list string).
Hypothesis Hk : ∀ l, korder l ≡ₚ l.
Hypothesis Hn : ∀ k l, norder k l ≡ₚ l.
Hypothesis Href : is_Some (online c !! refID).
Hypothesis Hm : mergeable (online c).

Lemma pass_spec : let r := RunAntiEntropy refID korder norder c in
  ∃ g, r.2 = with_nodes c ((g <$> online c) ∪ Nodes c) ∧
    ∀ a n, online c !! a = Some n → (∃ s, g n = SetStore n s) ∧ caught_up (online c) (g n).
Proof using Hk Hn Href Hm.
  unfold RunAntiEntropy. destruct (Nat.ltb_spec (size (online c)) 2) as [Hs|Hs]; simpl.
  - exists (λ n, n). split.
    + rewrite map_fmap_id. destruct c as [x1 x2 ns x4 x5 x6 x7 x8]. unfold with_nodes. simpl. f_equal. symmetry.
      apply map_eq. intros a. unfold online. simpl.
      destruct (filter (λ x, State x.2 = Node.StateOnline) ns !! a) as [n|] eqn:E.
      * rewrite (lookup_union_Some_l _ _ _ n) by done. by apply map_lookup_filter_Some in E as [-> _].
      * by rewrite lookup_union_r.
    + intros a n Ha. split; [by exists (GetStore n); rewrite SetStore_GetStore|]. intros k. split.
      * intros best. eapply no_split_newest; [by apply small_no_split|done].
      * by eapply visible_absent.
  - set (ks := korder _). destruct (fold_settled (online c) norder Hn) with (ks := ks) as (g & -> & Hg).
    { apply (mg_filed _ Hm). } { apply (mg_agree _ Hm). } { unfold ks. rewrite Hk. apply NoDup_elements. }
    exists g. split; [done|]. intros a n Ha. destruct (Hg a n Ha) as (Hs1 & _ & Hset). split; [done|]. intros k.
    destruct (Hset k) as (S1 & S2 & S3). split; [|intros Hno; unfold visible; by rewrite S3].
    intros best Hb. destruct (decide (k ∈ ks)) as [Hin|Hni]; [by apply S2|]. unfold visible. rewrite S1 by done.
    eapply no_split_newest; [|done|done]. destruct Href as [ref Hr].
    rewrite <- (divergent_keys_spec (online c) refID ref k) by (done || intros; by eapply (mg_comparable _ Hm)).
    unfold ks in Hni. by rewrite Hk, elem_of_elements in Hni.
Qed.

Lemma pass_online : let c' := (RunAntiEntropy refID korder norder c).2 in
  dom (online c') = dom (online c) ∧ (∀ a n, online c' !! a = Some n → caught_up (online c) n) ∧
  ∀ a n, Nodes c !! a = Some n → State n ≠ Node.StateOnline → Nodes c' !! a = Some n.
Proof using Hk Hn Href Hm.
  destruct pass_spec as (g & -> & Hg). cbv zeta. rewrite online_with_nodes by (intros; by eapply Hg). split_and!.
  - apply dom_fmap_L.
  - intros a x (n & <- & Ha)%lookup_fmap_Some. by apply (Hg a).
  - intros a n Ha Hst. simpl. rewrite lookup_union_r; [done|]. rewrite lookup_fmap, fmap_None.
    apply map_lookup_filter_None. right. by intros x [= <-]%(eq_trans (eq_sym Ha)).
Qed.

Lemma pass_converges : ConvergedAfter (RunAntiEntropy refID korder norder c).1 = true.
Proof using Hk Hn Href Hm.
  destruct pass_spec as (g & Hr & Hg). unfold RunAntiEntropy in *. destruct (size (online c) <? 2); [done|]. simpl in *.
  apply CheckConvergence_spec. rewrite Hr, online_with_nodes by (intros; by eapply Hg). intros k.
  apply (caught_up_no_split (online c)). intros a x (n & <- & Ha)%lookup_fmap_Some. by apply (Hg a).
Qed.

Lemma pass_divergent k : 2 ≤ size (online c) → k ∈ DivergentKeys (RunAntiEntropy refID korder norder c).1 ↔ split_on (online c) k.
Proof using Hk Href Hm.
  intros Hs. unfold RunAntiEntropy. rewrite (proj2 (Nat.ltb_ge _ _) Hs). simpl. destruct Href as [ref Hr].
  rewrite Hk, elem_of_elements. apply divergent_keys_spec with ref; [done|]. intros. by eapply (mg_comparable _ Hm).
Qed.

End whole.

(** ** Growing a cluster *)

(** Nodes change in ways that leave their stores and states alone. *)
Lemma online_fmap {float} (c : @Cluster float) (h : AnyNode → AnyNode) :
  (∀ n, State (h n) = State n) → online (with_nodes c (h <$> Nodes c)) = h <$> online c.
Proof.
  intros Hh. unfold online. simpl. rewrite map_filter_fmap. f_equal. apply map_filter_ext. intros a n _. simpl. by rewrite Hh.
Qed.

Lemma same_store_visible n m k : GetStore n = GetStore m → visible n k = visible m k.
Proof. unfold visible. by intros ->. Qed.

Lemma set_all_keeps all n : State (set_all all n) = State n ∧ GetStore (set_all all n) = GetStore n.
Proof. by destruct n. Qed.
Lemma update_quorum_keeps q n : State (update_quorum q n) = State n ∧ GetStore (update_quorum q n) = GetStore n.
Proof. by destruct n. Qed.

(** The online replicas after a node with an empty store joins. *)
Definition joined (ns : gmap string AnyNode) (all : list string) (newID : string) (nn : AnyNode) : gmap string AnyNode :=
  <[newID := nn]> (set_all all <$> ns).

Section join.
Context (ns : gmap string AnyNode) (all : list string) (newID : string) (nn : AnyNode).
Hypothesis Hfresh : ns !! newID = None.
Hypothesis Hempty : GetStore nn = Store.NewStore.

Lemma joined_inv a x : joined ns all newID nn !! a = Some x →
  (a = newID ∧ x = nn) ∨ (a ≠ newID ∧ ∃ n, ns !! a = Some n ∧ GetStore x = GetStore n).
Proof using Type.
  unfold joined. rewrite lookup_insert_Some. intros [[<- <-]|[Hne (n & <- & Hn)%lookup_fmap_Some]]; [by left|right].
  split; [done|]. exists n. split; [done|]. apply set_all_keeps.
Qed.

Lemma joined_old a n : ns !! a = Some n → joined ns all newID nn !! a = Some (set_all all n).
Proof using Hfresh. intros Ha. unfold joined. rewrite lookup_insert_ne by congruence. by rewrite lookup_fmap, Ha. Qed.

Lemma joined_holds a x k e : joined ns all newID nn !! a = Some x → Store.GetRaw (GetStore x) k = Some e →
  ∃ n, ns !! a = Some n ∧ Store.GetRaw (GetStore n) k = Some e.
Proof using Hempty.
  intros [[-> ->]|(_ & n & Hn & Hs)]%joined_inv He; [by rewrite Hempty in He|]. rewrite Hs in He. eauto.
Qed.

Lemma joined_newest k : (∀ best, newest (joined ns all newID nn) k best ↔ newest ns k best) ∧
  (k ∈ keys_of (joined ns all newID nn) ↔ k ∈ keys_of ns).
Proof using Hfresh Hempty.
  split.
  - intros best. split; intros [(a & x & Hx & He) Hmax]; split.
    + destruct (joined_holds a x k best Hx He) as (n & ? & ?). eauto.
    + intros b m e' Hm He'. apply (Hmax b (set_all all m)); [by apply joined_old|]. by rewrite (proj2 (set_all_keeps all m)).
    + exists a, (set_all all x). rewrite (proj2 (set_all_keeps all x)). split; [by apply joined_old|done].
    + intros b y e' Hy He'. destruct (joined_holds b y k e' Hy He') as (n & ? & ?). eauto.
  - rewrite !elem_of_keys_of. split.
    + intros (a & x & Hx & [e He]). destruct (joined_holds a x k e Hx He) as (n & ? & ?). eauto.
    + intros (a & n & Ha & He). exists a, (set_all all n). rewrite (proj2 (set_all_keeps all n)). split; [by apply joined_old|done].
Qed.

Lemma comparable_stores n m n' m' : GetStore n' = GetStore n → GetStore m' = GetStore m → comparable n m → comparable n' m'.
Proof. unfold comparable, mapRepr. by intros -> ->. Qed.

Lemma comparable_empty n m : GetStore m = Store.NewStore → comparable n n → comparable n m ∧ comparable m n.
Proof.
  intros Hm (H1 & _ & H3). assert (E : mapRepr m = ∅) by (unfold mapRepr; rewrite Hm; apply fmap_empty).
  assert (H0 : Merkle.store_ok ∅) by (by intros k v ?%lookup_empty_Some).
  unfold comparable. rewrite E. split; split_and!; try done; (eapply Merkle.no_collisions_sub; [|exact H3]); set_solver.
Qed.

Lemma comparable_empties n m : GetStore n = Store.NewStore → GetStore m = Store.NewStore → comparable n m.
Proof.
  intros Hn Hm. unfold comparable, mapRepr. rewrite Hn, Hm. simpl. rewrite fmap_empty.
  split_and!; [by intros k v ?%lookup_empty_Some..|done].
Qed.

Lemma joined_mergeable : mergeable ns → mergeable (joined ns all newID nn).
Proof using Hfresh Hempty.
  intros [Hc Hf Ha]. split.
  - intros a b x y Hx Hy. apply joined_inv in Hx as [[-> ->]|(_ & n & Hn & Hsn)], Hy as [[-> ->]|(_ & m & Hm & Hsm)].
    + by apply comparable_empties.
    + eapply (comparable_stores nn m); [done|done|]. apply (comparable_empty m nn); [done|by apply (Hc b b)].
    + eapply (comparable_stores n nn); [done|done|]. apply (comparable_empty n nn); [done|by apply (Hc a a)].
    + eapply (comparable_stores n m); [done|done|]. by apply (Hc a b).
  - intros a x Hx k e He. destruct (joined_holds a x k e Hx He) as (n & Hn & Hr). by apply (Hf a n).
  - intros k a b x y e e' Hx Hy He He'. destruct (joined_holds a x k e Hx He) as (n & Hn & Hr).
    destruct (joined_holds b y k e' Hy He') as (m & Hm & Hr'). by apply (Ha k a b n m).
Qed.

Lemma joined_caught_up x : caught_up (joined ns all newID nn) x ↔ caught_up ns x.
Proof using Hfresh Hempty.
  unfold caught_up. split; intros H k; destruct (H k) as [H1 H2], (joined_newest k) as [J1 J2]; split.
  - intros best Hb. by apply H1, J1.
  - intros Hno. apply H2. by rewrite J2.
  - intros best Hb. by apply H1, J1.
  - rewrite J2. done.
Qed.
End join.

Section safe_add.
Context {float : Type} (c : @Cluster float) (p : string).
Hypothesis Hwf : Membership.wf c.
Hypothesis Hct : Membership.contiguous c.
Hypothesis Hp : prefix8 (ID c) = Ok p.

#[local] Abbreviation newID := (numbered p (length (NodeIDs c) + 1)).
#[local] Abbreviation all := (NodeIDs c ++ [newID]).
#[local] Abbreviation nn := (LeaderlessN (Leaderless.SetAllNodes (Leaderless.NewLeaderlessNode newID (old_quorum c)) all)).
#[local] Abbreviation c1 := (add_member 256 (with_nodes c (set_all all <$> Nodes c)) newID nn).

Lemma new_absent : Nodes c !! newID = None.
Proof using Hwf Hct Hp.
  destruct (Membership.next_fresh c p Hp Hct) as [Hno _]. apply not_elem_of_dom. rewrite (Membership.wf_nodes _ Hwf).
  by rewrite elem_of_list_to_set.
Qed.

Lemma join_online : online c1 = joined (online c) all newID nn.
Proof using Type.
  unfold online at 1, joined. simpl. rewrite map_filter_insert_True by done. f_equal.
  apply (online_fmap c (set_all all)). intros n. apply set_all_keeps.
Qed.

Lemma join_wf : Membership.wf c1.
Proof using Hwf Hct Hp.
  apply Membership.wf_add_member; [|apply (Membership.next_fresh c p Hp Hct)|done].
  apply Membership.wf_fmap; [|done]. by intros [].
Qed.

Lemma online_absent : online c !! newID = None.
Proof using Hwf Hct Hp. apply map_lookup_filter_None. left. apply new_absent. Qed.

(** Phase three changes neither stores nor states. *)
Lemma switch_nodes (c2 : @Cluster float) : ∃ h : AnyNode → AnyNode, Nodes (safe_add_switch c2) = h <$> Nodes c2 ∧
  NodeIDs (safe_add_switch c2) = NodeIDs c2 ∧ ∀ n, State (h n) = State n ∧ GetStore (h n) = GetStore n ∧
    Node.id (base_of (h n)) = Node.id (base_of n) ∧
    ∀ ll, h n = LeaderlessN ll → ∃ ll0, n = LeaderlessN ll0 ∧ Leaderless.allNodes ll = Leaderless.allNodes ll0 ∧
      Leaderless.qConfig ll = Quorum.MkConfig (Z.of_nat (length (NodeIDs c2))) (Z.quot (Z.of_nat (length (NodeIDs c2))) 2 + 1)
        (Z.quot (Z.of_nat (length (NodeIDs c2))) 2 + 1).
Proof.
  unfold safe_add_switch, pushRegions. simpl. rewrite <- map_fmap_compose. eexists. split; [reflexivity|]. split; [done|].
  intros []; split_and!; try done. simpl. intros ll [= <-]. eauto.
Qed.

Lemma switch_wf (c2 : @Cluster float) : Membership.wf c2 → Membership.wf (safe_add_switch c2).
Proof.
  intros Hw. unfold safe_add_switch. apply Membership.wf_pushRegions.
  destruct (Membership.wf_fmap c2 (update_quorum (Quorum.MkConfig (Z.of_nat (length (NodeIDs c2)))
    (Z.quot (Z.of_nat (length (NodeIDs c2))) 2 + 1) (Z.quot (Z.of_nat (length (NodeIDs c2))) 2 + 1)))) as [W1 W2 W3 W4];
    [by intros []|done|]. by split.
Qed.

(** Every leaderless node knows the new member list. *)
Lemma join_all a n0 s ll : Nodes c1 !! a = Some n0 → SetStore n0 s = LeaderlessN ll → Leaderless.allNodes ll = all.
Proof.
  simpl. rewrite lookup_insert_Some. intros [[_ <-]|[_ (n & <- & _)%lookup_fmap_Some]] Hll; [by injection Hll as <-|].
  destruct n; try done. by injection Hll as <-.
Qed.

Lemma pass_wf refID korder norder : (∀ l, korder l ≡ₚ l) → (∀ k l, norder k l ≡ₚ l) → is_Some (online c1 !! refID) → mergeable (online c) →
  let c2 := (RunAntiEntropy refID korder norder c1).2 in
  Membership.wf c2 ∧ NodeIDs c2 = all ∧ ∀ a n, Nodes c2 !! a = Some n → ∃ n0 s, Nodes c1 !! a = Some n0 ∧ n = SetStore n0 s.
Proof using Hwf Hct Hp.
  intros Hk Hn Href Hm c2. assert (Hm1 : mergeable (online c1)) by (rewrite join_online; apply joined_mergeable; [apply online_absent|done|done]).
  destruct (pass_spec c1 refID korder norder Hk Hn Href Hm1) as (g & Hr & Hg). subst c2. rewrite Hr.
  assert (Hn2 : ∀ a n, ((g <$> online c1) ∪ Nodes c1) !! a = Some n → ∃ n0 s, Nodes c1 !! a = Some n0 ∧ n = SetStore n0 s).
  { intros a n [(m & <- & Ha)%lookup_fmap_Some|[_ Ha]]%lookup_union_Some_raw.
    - destruct (Hg a m Ha) as [[s Hs] _]. apply map_lookup_filter_Some in Ha as [Ha _]. eauto.
    - exists n, (GetStore n). by rewrite SetStore_GetStore. }
  split_and!; [|done|exact Hn2]. apply Membership.wf_with_nodes; [apply join_wf| |].
  - rewrite dom_union_L, dom_fmap_L. apply set_eq. intros a. rewrite elem_of_union, !elem_of_dom. split; [|by right].
    intros [[n Ha]|?]; [|done]. apply map_lookup_filter_Some in Ha as [? _]. eauto.
  - intros a n (n0 & s & Ha & ->)%Hn2. unfold SetStore. rewrite base_of_set. by apply (Membership.wf_id _ join_wf).
Qed.

End safe_add.

End Convergence.

Import Cluster Membership Convergence.

(** The convergence check is exact: it reports a cluster as converged exactly when any two online
    replicas show the same content (nothing, a tombstone or the same bytes) for every key, and the keys
    it lists as diverged are exactly those on which two online replicas differ, each once. *)
Theorem convergence_check_exact {float : Type} (c : @Cluster float) :
  (Converged (CheckConvergence c) = true ↔
    ∀ k a b n m, online c !! a = Some n → online c !! b = Some m → visible n k = visible m k) ∧
  (∀ k, k ∈ Key <$> Diverged (CheckConvergence c) ↔
    ∃ a b n m, online c !! a = Some n ∧ online c !! b = Some m ∧ visible n k ≠ visible m k) ∧
  NoDup (Key <$> Diverged (CheckConvergence c)).
Proof.
  destruct (CheckConvergence_spec c) as [H1 H2]. split_and!; [|exact H1|apply Diverged_NoDup].
  rewrite H2. split.
  - intros Hno k a b n m Ha Hb. apply dec_stable. intros Hne. apply (Hno k). by exists a, b, n, m.
  - intros H k (a & b & n & m & Ha & Hb & Hne). eauto.
Qed.


(** The conditions of a pass, decided on a concrete cluster. *)
Definition pair_ok (n m : AnyNode) : bool :=
  let entries n := map_to_list (Store.data (GetStore n)) in
  forallb (λ '(k, _), negb (String.eqb k "") && negb (Sha256.str_in Sha256.equals k)) (map_to_list (mapRepr n)) &&
  Merkle.no_collisions (Merkle.hashed_by (mapRepr n) ++ Merkle.hashed_by (mapRepr m)) &&
  forallb (λ '(k, e), String.eqb (kv_Key e) k) (entries n) &&
  forallb (λ '(k, e), match Store.GetRaw (GetStore m) k with
                      | Some e' => negb ((kv_Timestamp e =? kv_Timestamp e')%Z && String.eqb (kv_NodeID e) (kv_NodeID e')) ||
                                   bool_decide (content e = content e')
                      | None => true
                      end) (entries n).

Lemma forallb_entries {A} (f : string * A → bool) (m : gmap string A) k x :
  forallb f (map_to_list m) = true → m !! k = Some x → f (k, x) = true.
Proof. rewrite forallb_forall. intros H Hk. by apply H, list_elem_of_In, elem_of_map_to_list. Qed.

Lemma mergeable_check (ns : gmap string AnyNode) :
  forallb (λ x, forallb (λ y, pair_ok x.2 y.2) (map_to_list ns)) (map_to_list ns) = true → mergeable ns.
Proof.
  intros Hall.
  assert (Hp : ∀ a b n m, ns !! a = Some n → ns !! b = Some m → pair_ok n m = true).
  { intros a b n m Ha Hb. exact (forallb_entries _ _ _ _ (forallb_entries _ _ _ _ Hall Ha) Hb). }
  unfold pair_ok in Hp. split.
  - intros a b n m Ha Hb. pose proof (Hp b a m n Hb Ha) as Hq. specialize (Hp a b n m Ha Hb).
    apply andb_true_iff in Hp as [[[H1 H2]%andb_true_iff _]%andb_true_iff _].
    apply andb_true_iff in Hq as [[[H3 _]%andb_true_iff _]%andb_true_iff _].
    split_and!; [by apply store_ok_check|by apply store_ok_check|done].
  - intros a n Ha k e He. specialize (Hp a a n n Ha Ha). apply andb_true_iff in Hp as [[_ H]%andb_true_iff _].
    exact (proj1 (String.eqb_eq _ _) (forallb_entries _ _ _ _ H He)).
  - intros k a b n m e e' Ha Hb He He' Ht Hid. specialize (Hp a b n m Ha Hb). apply andb_true_iff in Hp as [_ H].
    apply (forallb_entries _ _ k e) in H; [|done]. simpl in H.
    rewrite He', (proj2 (Z.eqb_eq _ _) Ht), (proj2 (String.eqb_eq _ _) Hid) in H. simpl in H. by apply bool_decide_eq_true in H.
Qed.

(** Three replicas: n1 has an old x, n2 has deleted x and has y, n3 is paused. *)
Definition demo_replica (id : string) (es : list KVEntry) : AnyNode :=
  LeaderlessN (Leaderless.with_base (Leaderless.NewLeaderlessNode id (Quorum.MkConfig 3 2 2))
    (Node.set_store (Node.newBaseNode id Node.StrategyLeaderless Node.RoleReplica) (foldl Store.Set_ Store.NewStore es))).
Definition demo_diverged : @Cluster unit :=
  with_nodes (blank "c" (demo_cfg "leaderless" 3))
    {["n1" := demo_replica "n1" [MkKVEntry "x" (Some "old") None 1 "n1" false 0];
      "n2" := demo_replica "n2" [MkKVEntry "x" None None 2 "n2" true 0; MkKVEntry "y" (Some "v") None 3 "n2" false 0];
      "n3" := Pause (demo_replica "n3" [])]}.


(** The quorum of phase three always overlaps. *)
Lemma majority_overlaps (n : nat) :
  Quorum.IsStronglyConsistent (Quorum.MkConfig (Z.of_nat n) (Z.quot (Z.of_nat n) 2 + 1) (Z.quot (Z.of_nat n) 2 + 1)) = true.
Proof.
  unfold Quorum.IsStronglyConsistent. simpl. apply Z.ltb_lt. rewrite Z.quot_div_nonneg by lia.
  pose proof (Z.div_mod (Z.of_nat n) 2). pose proof (Z.mod_pos_bound (Z.of_nat n) 2). lia.
Qed.


(** A cluster of three in which only the first node has the key. *)
Definition demo_filled : @Cluster unit :=
  keep demo_322 (on_member demo_322 "node-01234567-1"
    (λ n, SetStore n (Store.Set_ Store.NewStore (MkKVEntry "x" (Some "v") None 1 "node-01234567-1" false 0)))).

Lemma demo_322_made : wf demo_322 ∧ contiguous demo_322.
Proof.
  unfold demo_322. set (cfg := MkCfg _ _ _ _ _ _ _ _ _ _ _ _).
  destruct (core_succeeds (float := unit) no_codec (λ _, "") demo_cluster_id cfg) as [c Hc]; [done|done|simpl; lia|].
  rewrite Hc. simpl. apply core_made in Hc as Hm. split; [apply Hm|]. by eapply made_contiguous.
Qed.

Lemma demo_filled_made : wf demo_filled ∧ contiguous demo_filled ∧ ID demo_filled = demo_cluster_id ∧ Config demo_filled = Config demo_322.
Proof.
  destruct demo_322_made as [Hw [p Hc]].
  destruct (on_member_wf demo_322 demo_filled "node-01234567-1"
    (λ n, SetStore n (Store.Set_ Store.NewStore (MkKVEntry "x" (Some "v") None 1 "node-01234567-1" false 0)))) as (H1 & H2 & H3 & _ & H5).
  - intros n. unfold SetStore. by rewrite base_of_set.
  - done.
  - apply keep_inr. by vm_compute.
  - split_and!; [done| |by rewrite H3|done]. exists p. by rewrite H2, H3.
Qed.

