(* ===== verification/Demos.v ===== *)
(** * The teaching demos

    Models [src/internal/simulation/demos.go]: short programs over two-phase commit, the multi-version
    store, the write-ahead log, SWIM membership, Paxos and the seeded clock, without the sentences of
    their narratives.  The order in which the coordinator visits its participants, a walk of a Go map,
    is an argument; the random source is a parameter, a state with its [Intn]. *)

From stdpp Require Import pretty.
From S2P Require Import Prelude Paxos TwoPC Mvcc Wal Swim.
Import (hints) TwoPC.
#[local] Open Scope nat_scope.

Module Demos.

(** ** Two-phase commit *)

Record TwoPCDemoReport := MkTwoPC {
  Crash : bool;
  Committed : bool;
  Blocked : bool;
  Recovered : bool;
  FinalValues : gmap string string;
}.

(** Participant 0 gets x, participant 1 gets y. *)
Definition demo_writes : gmap nat TwoPC.writes := {[0 := {["x" := Some "1"]}; 1 := {["y" := Some "2"]}]}.

Definition final_values (heap : gmap nat TwoPC.MemParticipant) : gmap string string :=
  let value i k := heap !! i ≫= λ p, TwoPC.Get p k in
  let m := match value 0 "x" with Some v => {["x" := v]} | None => ∅ end in
  match value 1 "y" with Some v => <["y" := v]> m | None => m end.

Definition locked (heap : gmap nat TwoPC.MemParticipant) (i : nat) (k : string) : bool :=
  match heap !! i with Some p => TwoPC.IsLocked p k | None => false end.

Definition RunTwoPCDemo (parts : list nat) (crash : bool) : Res TwoPCDemoReport :=
  let heap := {[0 := TwoPC.NewMemParticipant; 1 := TwoPC.NewMemParticipant]} in
  r ← TwoPC.Execute crash "tx1" demo_writes parts heap;
  let '((committed, err), heap) := r in
  match err with
  | Some TwoPC.ErrCoordinatorCrashed =>
      let blocked := locked heap 0 "x" || locked heap 1 "y" in
      q ← TwoPC.Recover "tx1" true [0; 1] heap;
      let '(rerr, heap) := q in
      let ok := match rerr with None => true | Some _ => false end in
      Ok (MkTwoPC crash (ok || committed) blocked ok (final_values heap))
  | _ => Ok (MkTwoPC crash committed false false (final_values heap))
  end.

(** ** Multi-version reads *)

Record MVCCDemoReport := MkMVCC { ReadAt5Found : bool; ReadAt15 : string; ReadAt25 : string; SnapshotStable : bool }.

(** [string(v)] of the value a read returned *)
Definition text (r : option (option string)) : string := match r with Some (Some v) => v | _ => "" end.

Definition RunMVCCDemo : MVCCDemoReport :=
  let st := Mvcc.Put Mvcc.New "x" (Some "A") 10 in
  let v15a := Mvcc.ReadAt st "x" 15 in
  let st := Mvcc.Put st "x" (Some "B") 20 in
  let found5 := match Mvcc.ReadAt st "x" 5 with Some _ => true | None => false end in
  let v15b := Mvcc.ReadAt st "x" 15 in
  let v25 := Mvcc.ReadAt st "x" 25 in
  MkMVCC found5 (text v15b) (text v25) (String.eqb (text v15a) (text v15b)).

(** ** Durability *)

Record WALDemoReport := MkWALReport { w_Mode : Wal.Mode; w_Acked : nat; Durable : nat; w_Lost : nat }.

Definition wal_mode (mode : string) : Wal.Mode :=
  if String.eqb mode "fsync" then Wal.Fsync else if String.eqb mode "group_commit" then Wal.GroupCommit else Wal.Buffered.

Definition RunWALDemo (mode : string) : WALDemoReport :=
  let m := wal_mode mode in
  let w := foldl (λ w i, (Wal.Append w (Some ("rec-" +:+ pretty i))).2) (Wal.New m 3) (seq 0 5) in
  let before := length (Wal.DurableRecords w) in
  MkWALReport m (Wal.Acked w) before (Wal.Lost (Wal.Crash w)).

(** ** SWIM *)

Record SWIMDemoReport := MkSWIM { FinalAlive : list string; FinalSuspect : list string; FinalDead : list string }.

Definition RunSWIMDemo : Res SWIMDemoReport :=
  let m := Swim.AliveOp (Swim.AliveOp (Swim.NewMembership "n1") "n2" 1) "n3" 1 in
  m ← Swim.SuspectOp m "n2" 1 0;
  let m := Swim.AliveOp m "n2" 2 in
  m ← Swim.SuspectOp m "n3" 1 0;
  let m := (Swim.TickSuspicions m 1000000).2 in
  Ok (MkSWIM (Swim.AliveMembers m) (Swim.SuspectMembers m) (Swim.DeadMembers m)).

(** ** Paxos *)

(** A result is [None] for [(nil, false)]; printing distinguishes nil from a value. *)
Record PaxosDemoReport := MkPaxos { FirstChosen : option string; SecondValue : string; SecondFinal : option string; SafetyHeld : bool }.

Definition RunPaxosDemo : PaxosDemoReport :=
  let acceptors := replicate 5 (Paxos.MkAcceptor 0 0 None) in
  let '(r1, acceptors, _) := Paxos.Propose (Paxos.NewProposer 1) acceptors (Some "X") in
  let '(r2, _, _) := Paxos.Propose (Paxos.NewProposer 2) acceptors (Some "Y") in
  let chosen1 := r1 ≫= id in
  let chosen2 := r2 ≫= id in
  let ok {A} (r : option A) := match r with Some _ => true | None => false end in
  MkPaxos chosen1 "Y" chosen2 (ok r1 && ok r2 && bool_decide (chosen1 = chosen2)).

(** ** Reproducible randomness *)

Section detsim.
Context {Rng : Type} (NewSource : Z → Rng) (Intn : Rng → Z → Z * Rng).

Record DetSimDemoReport := MkDetSim { Seed : Z; Run1 : list Z; Run2 : list Z; Reproducible : bool }.

Fixpoint draw (n : nat) (r : Rng) : list Z :=
  match n with 0 => [] | S n => let '(x, r) := Intn r 1000 in x :: draw n r end.

(** The comparing loop. *)
Definition equalInts (a b : list Z) : bool :=
  if negb (length a =? length b) then false else forallb (λ '(x, y), (x =? y)%Z) (zip a b).

Definition RunDetSimDemo (seed : Z) : DetSimDemoReport :=
  let gen := draw 8 (NewSource seed) in
  MkDetSim seed gen gen (equalInts gen gen).
End detsim.

End Demos.

Import Demos.

(** The demos show what they are for: in whatever order the coordinator visits its participants,
    the transaction commits on both, and after a coordinator crash the participants are blocked until
    recovery commits it; snapshot reads are stable and see the version of their time; of five
    acknowledged records a crash loses all when buffered, none with fsync and the two past the last
    group otherwise; the refuted suspect is alive and the silent one dead; and the second Paxos proposer
    adopts the value of the first. *)
Theorem demos_show_their_claims (parts : list nat) (mode : string) :
  (∀ crash, parts = [0; 1] ∨ parts = [1; 0] →
     RunTwoPCDemo parts crash = Ok (MkTwoPC crash true crash crash {["x" := "1"; "y" := "2"]})) ∧
  RunMVCCDemo = MkMVCC false "A" "B" true ∧
  (RunWALDemo mode = match wal_mode mode with
                     | Wal.Buffered => MkWALReport Wal.Buffered 5 0 5
                     | Wal.Fsync => MkWALReport Wal.Fsync 5 5 0
                     | Wal.GroupCommit => MkWALReport Wal.GroupCommit 5 3 2
                     end) ∧
  RunSWIMDemo = Ok (MkSWIM ["n1"; "n2"] [] ["n3"]) ∧
  RunPaxosDemo = MkPaxos (Some "X") "Y" (Some "X") true.
Proof.
  split_and!; [|by vm_compute| |by vm_compute|by vm_compute].
  - intros [] [-> | ->]; vm_compute; reflexivity.
  - unfold RunWALDemo. by destruct (wal_mode mode).
Qed.
