(* ===== verification/Persistence.v ===== *)
(** * The database and restarts

    Models [src/internal/persistence/db.go] and the parts of [src/internal/simulation/orchestrator.go]
    and [history.go] that write to it: [persistCluster], [Restore], and the row each history entry
    leaves.  A database is its two tables; the rows of [cluster_history] are grouped by cluster, so that
    its primary key is a key of the inner map.  JSON encoding is a parameter, a record of codecs; the
    failures of the disk are not modelled.

    A server is a step system.  [CreateCluster], [AddNode] and [RemoveNode] save the cluster after they
    have released its lock, the last two from a goroutine: what is still to be saved is [pending], and
    saving is an action of its own. *)

From Stdlib Require Import Ascii.
From stdpp Require Import countable.
From S2P Require Import Prelude Conflict Events Node SingleLeader Cluster Membership.
Import (hints) Node Cluster.
#[local] Open Scope nat_scope.

(** ** The tables *)

Module Persistence.
Import Cluster Membership.

Record cluster_row := MkClusterRow {
  config_json : string;
  node_ids_json : string;
  leader_id : string;
  created_at : Z;
}.

Abbreviation history_rows := (gmap nat (string * option string)).

Record DB := MkDB { clusters_t : gmap string cluster_row; cluster_history : gmap string history_rows }.

(** [migrate] on a new file. *)
Definition Open : DB := MkDB ∅ ∅.

(** The upsert keeps the [created_at] of the row it finds. *)
Definition SaveCluster (db : DB) (id configJSON nodeIDsJSON leaderID : string) (createdAt : Z) : DB :=
  let created := match clusters_t db !! id with Some r => created_at r | None => createdAt end in
  MkDB (<[id := MkClusterRow configJSON nodeIDsJSON leaderID created]> (clusters_t db)) (cluster_history db).

Definition DeleteCluster (db : DB) (id : string) : DB :=
  MkDB (delete id (clusters_t db)) (delete id (cluster_history db)).

Definition DeleteAllClusters (db : DB) : DB := MkDB ∅ ∅.

Record ClusterRecord := MkRecord {
  r_ID : string;
  r_Config : string;
  r_NodeIDs : list string;
  r_LeaderID : string;
  r_CreatedAt : Z;
}.

Definition scan_cluster (dec_ids : string → option (list string)) (p : string * cluster_row) : option ClusterRecord :=
  ids ← dec_ids (node_ids_json p.2);
  Some (MkRecord p.1 (config_json p.2) ids (leader_id p.2) (created_at p.2)).

Definition by_created (a b : string * cluster_row) : bool := (created_at a.2 <=? created_at b.2)%Z.

(** One undecodable list of nodes fails the whole query. *)
Definition LoadClusters (dec_ids : string → option (list string)) (db : DB) : option (list ClusterRecord) :=
  mapM (scan_cluster dec_ids) (isort by_created (map_to_list (clusters_t db))).

Inductive db_error := ErrForeignKey.

(** [INSERT OR IGNORE] ignores a second row with the same key, not a missing cluster. *)
Definition AppendHistoryEntry (db : DB) (clusterID : string) (seq : nat) (eventJSON : string) (stateJSON : option string)
    : db_error + DB :=
  match clusters_t db !! clusterID with
  | None => inl ErrForeignKey
  | Some _ =>
      let rows := default ∅ (cluster_history db !! clusterID) in
      match rows !! seq with
      | Some _ => inr db
      | None => inr (MkDB (clusters_t db) (<[clusterID := <[seq := (eventJSON, stateJSON)]> rows]> (cluster_history db)))
      end
  end.

Definition seq_asc (a b : History.HistoryRow) : bool := History.r_Seq a <=? History.r_Seq b.
Definition seq_desc (a b : History.HistoryRow) : bool := History.r_Seq b <=? History.r_Seq a.
Definition to_row (p : nat * (string * option string)) : History.HistoryRow := History.MkRow p.1 p.2.1 p.2.2.

Definition LoadHistory (db : DB) (clusterID : string) (limit : nat) : list History.HistoryRow :=
  let rows := to_row <$> map_to_list (default ∅ (cluster_history db !! clusterID)) in
  isort seq_asc (take limit (isort seq_desc rows)).

(** ** The server *)

(** What [json.Marshal] and [json.Unmarshal] do on the types that are stored. *)
Record Json (D St : Type) := MkJson {
  enc_cfg : ClusterConfig → string;
  dec_cfg : string → option ClusterConfig;
  enc_ids : list string → string;
  dec_ids : string → option (list string);
  enc_event : Event D → option string;
  dec_event : string → option (Event D);
  enc_state : St → option string;
  dec_state : string → option St;
}.
Arguments enc_cfg {_ _} _ _.
Arguments dec_cfg {_ _} _ _.
Arguments enc_ids {_ _} _ _.
Arguments dec_ids {_ _} _ _.
Arguments enc_event {_ _} _ _.
Arguments dec_event {_ _} _ _.
Arguments enc_state {_ _} _ _.
Arguments dec_state {_ _} _ _.

(** Decoding what was encoded gives it back. *)
Record lossless {D St} (J : Json D St) : Prop := MkLossless {
  ll_cfg : ∀ c, dec_cfg J (enc_cfg J c) = Some c;
  ll_ids : ∀ l, dec_ids J (enc_ids J l) = Some l;
  ll_event : ∀ e, ∃ j, enc_event J e = Some j ∧ dec_event J j = Some e;
  ll_state : ∀ s, ∃ j, enc_state J s = Some j ∧ dec_state J j = Some s;
}.

Section server.
Context {float D St : Type} (codec : Resolver.Codec) (vc_string : gmap string N → string) (J : Json D St).

(** A registered cluster, with the fields of [Cluster] that only persistence uses. *)
Record Live := MkLive {
  lv_cluster : @Cluster float;
  created : Z;
  eventHistory : @History.ClusterEventHistory D St;
}.

(** [gone] holds deleted clusters, which a goroutine may still refer to. *)
Record Server := MkServer {
  live : gmap string Live;
  gone : gmap string Live;
  maxClusters : Z;
  db : DB;
  pending : list string;
}.

Definition with_live (s : Server) (m : gmap string Live) : Server := MkServer m (gone s) (maxClusters s) (db s) (pending s).
Definition with_db (s : Server) (d : DB) : Server := MkServer (live s) (gone s) (maxClusters s) d (pending s).
Definition with_pending (s : Server) (l : list string) : Server := MkServer (live s) (gone s) (maxClusters s) (db s) l.
Definition set_cluster (l : Live) (c : Cluster) : Live := MkLive c (created l) (eventHistory l).

Definition orch (s : Server) : Orchestrator := MkOrch (lv_cluster <$> live s) (maxClusters s).

Definition persistCluster (d : DB) (l : Live) : DB :=
  let c := lv_cluster l in
  SaveCluster d (ID c) (enc_cfg J (Config c)) (enc_ids J (NodeIDs c)) (LeaderID c) (created l).

(** [Append] of the history, with the row it leaves; an entry the database refuses stays in memory. *)
Definition Append (d : DB) (clusterID : string) (h : History.ClusterEventHistory) (evt : Event D) (snapshot : St)
    : History.ClusterEventHistory * DB :=
  let h := History.Append h evt snapshot in
  let snap := last (History.entries h) ≫= History.State in
  (h, match enc_event J evt with
      | None => d
      | Some evtJSON =>
          match AppendHistoryEntry d clusterID (History.seq h) evtJSON (snap ≫= enc_state J) with
          | inl _ => d
          | inr d => d
          end
      end).

(** *** Restoring *)

Definition restore_record (d : DB) (m : gmap string Live) (r : ClusterRecord) : Res (gmap string Live) :=
  match dec_cfg J (r_Config r) with
  | None => Ok m
  | Some cfg =>
      let preload := LoadHistory d (r_ID r) History.historyMaxSize in
      let h := History.loadRows (dec_event J) (dec_state J) History.newClusterEventHistory preload in
      c ← createClusterCore codec vc_string (r_ID r) cfg;
      match c with
      | inl _ => Ok m
      | inr c => Ok (<[r_ID r := MkLive c (r_CreatedAt r) h]> m)
      end
  end.

(** [Restore] on an orchestrator with no cluster; the server exits when it fails. *)
Definition Restore (d : DB) : Res (gmap string Live) :=
  match LoadClusters (dec_ids J) d with
  | None => Panic
  | Some records => foldl (λ rm r, m ← rm; restore_record d m r) (Ok ∅) records
  end.

(** *** Steps *)

Inductive action :=
  | ACreate (uuid : string) (now : Z) (cfg : ClusterConfig)
  | ADelete (id : string)
  | AAddNode (id : string)
  | ARemoveNode (id nodeID : string)
  | APersist (id : string)
  | AEvent (id : string) (evt : Event D) (snapshot : St)
  | AServe (id : string) (c : @Cluster float)
  | ARestart.

Fixpoint remove_one (x : string) (l : list string) : list string :=
  match l with
  | [] => []
  | y :: l => if String.eqb x y then l else y :: remove_one x l
  end.

(** An operation on one cluster that saves it when it succeeds. *)
Definition resize (s : Server) (id : string) (l : Live) (r : error + Cluster) : Server :=
  match r with
  | inl _ => s
  | inr c => with_pending (with_live s (<[id := set_cluster l c]> (live s))) (pending s ++ [id])
  end.

Definition step (s : Server) (a : action) : Res Server :=
  match a with
  | ACreate uuid now cfg =>
      r ← CreateCluster codec vc_string (orch s) (orch s) uuid cfg;
      match r with
      | inl _ => Ok s
      | inr (c, _) =>
          let l := MkLive c now History.newClusterEventHistory in
          Ok (with_pending (with_live s (<[uuid := l]> (live s))) (pending s ++ [uuid]))
      end
  | ADelete id =>
      match live s !! id with
      | None => Ok s
      | Some l => Ok (MkServer (delete id (live s)) (<[id := l]> (gone s)) (maxClusters s) (DeleteCluster (db s) id) (pending s))
      end
  | AAddNode id =>
      match live s !! id with
      | None => Ok s
      | Some l => r ← AddNode (lv_cluster l); Ok (resize s id l r)
      end
  | ARemoveNode id nodeID =>
      match live s !! id with
      | None => Ok s
      | Some l => Ok (resize s id l (RemoveNode (lv_cluster l) nodeID))
      end
  | APersist id =>
      if bool_decide (id ∈ pending s) then
        let s' := with_pending s (remove_one id (pending s)) in
        match (match live s !! id with Some l => Some l | None => gone s !! id end) with
        | Some l => Ok (with_db s' (persistCluster (db s) l))
        | None => Ok s'
        end
      else Ok s
  | AEvent id evt snapshot =>
      match live s !! id with
      | None => Ok s
      | Some l =>
          let '(h, d) := Append (db s) id (eventHistory l) evt snapshot in
          Ok (with_db (with_live s (<[id := MkLive (lv_cluster l) (created l) h]> (live s))) d)
      end
  | AServe id c =>
      match live s !! id with
      | None => Ok s
      | Some l => Ok (with_live s (<[id := set_cluster l c]> (live s)))
      end
  | ARestart =>
      m ← Restore (db s);
      Ok (MkServer m ∅ (maxClusters s) (db s) [])
  end.

Definition start (max : Z) : Server := MkServer ∅ ∅ max Open [].

Definition steps (s : Server) (l : list action) : Res Server := foldl (λ r a, s ← r; step s a) (Ok s) l.

(** *** The runs the database can follow *)

(** Identifiers are fresh, a cluster is not deleted while a save of it is under way, events reach a
    cluster that has been saved once, the server stops when everything is saved, every cluster left has
    a node, and serving requests changes neither the identity nor the configuration of a cluster. *)
Definition orderly (s : Server) (a : action) : Prop :=
  match a with
  | ACreate uuid _ _ => live s !! uuid = None ∧ 8 ≤ String.length uuid
  | ADelete id => id ∉ pending s
  | AEvent id _ _ => is_Some (clusters_t (db s) !! id)
  | AServe id c => ∀ l, live s !! id = Some l → ID c = ID (lv_cluster l) ∧ Config c = Config (lv_cluster l)
  | ARestart => pending s = [] ∧ map_Forall (λ _ l, (1 ≤ NodeCount (Config (lv_cluster l)))%Z) (live s)
  | _ => True
  end.

Fixpoint orderly_run (s : Server) (l : list action) : Prop :=
  match l with
  | [] => True
  | a :: l => orderly s a ∧ match step s a with Ok s' => orderly_run s' l | Panic => True end
  end.


(** ** Proofs *)

(** *** The history table *)

Lemma isort_is {A} (leb : A → A → bool) (l l' : list A) :
  (∀ x y, leb x y = true ∨ leb y x = true) → (∀ x y z, leb x y = true → leb y z = true → leb x z = true) →
  (∀ x y, x ∈ l' → y ∈ l' → leb x y = true → leb y x = true → x = y) →
  StronglySorted leb l' → l ≡ₚ l' → isort leb l = l'.
Proof.
  intros Ht Htr Ha Hs Hp. apply (StronglySorted_unique_strong leb); [|by apply isort_sorted|done|by rewrite isort_perm].
  intros x y Hx Hy ?%Is_true_true ?%Is_true_true. apply Ha; [|done|done|done]. rewrite elem_of_isort in Hx. by rewrite Hp in Hx.
Qed.

(** The row of an entry. *)
Definition entry_row (e : @History.HistoryEntry D St) : nat * (string * option string) :=
  (History.Seq e, (default "" (enc_event J (History.h_Event e)), History.State e ≫= enc_state J)).

Definition rows_of (es : list (Event D * St)) : list (nat * (string * option string)) :=
  entry_row <$> History.recorded 0 es.

Lemma rows_of_keys es : (rows_of es).*1 = seq 1 (length es).
Proof.
  unfold rows_of. rewrite <- list_fmap_compose. generalize 0 as c.
  induction es as [|[e s] es IH]; intros c; simpl; [done|]. f_equal. apply IH.
Qed.

Lemma rows_of_snoc es e s :
  rows_of (es ++ [(e, s)]) = rows_of es ++ (entry_row <$> History.recorded (length es) [(e, s)]).
Proof. unfold rows_of. by rewrite History.recorded_app, fmap_app. Qed.

Lemma sorted_seq_rows l c : l.*1 = seq c (length l) → StronglySorted seq_asc (to_row <$> l).
Proof.
  revert c. induction l as [|x l IH]; intros c; [constructor|].
  rewrite fmap_cons. cbn [length seq]. intros [Hx Hl]%(inj2 cons). rewrite fmap_cons.
  constructor; [by eapply IH|]. apply Forall_forall. intros r (y & -> & Hy)%list_elem_of_fmap.
  apply Is_true_true, Nat.leb_le. simpl.
  assert (y.1 ∈ l.*1) as Hin by (by apply list_elem_of_fmap_2). rewrite Hl, elem_of_seq in Hin. lia.
Qed.

Lemma sorted_reverse {A} (P Q : A → A → bool) l :
  (∀ x y, P x y = Q y x) → StronglySorted P l → StronglySorted Q (reverse l).
Proof.
  intros HPQ. induction 1 as [|x l Hl IH Hx]; [constructor|]. rewrite reverse_cons.
  apply StronglySorted_app. split_and!; [|done|by repeat constructor].
  intros y z Hy ->%list_elem_of_singleton. rewrite elem_of_reverse in Hy. rewrite <- HPQ. rewrite Forall_forall in Hx. by apply Hx.
Qed.

Lemma sorted_drop {A} (P : A → A → bool) n l : StronglySorted P l → StronglySorted P (drop n l).
Proof.
  intros H. revert n. induction H as [|x l Hl IH Hx]; intros [|n]; simpl; try constructor; auto.
Qed.

(** The nested query returns the last [limit] rows, oldest first. *)
Lemma LoadHistory_rows d id limit es :
  default ∅ (cluster_history d !! id) = list_to_map (rows_of es) →
  LoadHistory d id limit = lastn limit (to_row <$> rows_of es).
Proof.
  intros Hd. unfold LoadHistory. rewrite Hd.
  set (R := to_row <$> rows_of es).
  assert (Hkeys : (rows_of es).*1 = seq 1 (length (rows_of es))).
  { rewrite rows_of_keys. f_equal. unfold rows_of. by rewrite length_fmap, History.length_recorded. }
  assert (Hs : StronglySorted seq_asc R) by (by eapply sorted_seq_rows).
  assert (Hinj : ∀ x y, x ∈ R → y ∈ R → History.r_Seq x = History.r_Seq y → x = y).
  { intros x y (p & -> & Hp)%list_elem_of_fmap (q & -> & Hq)%list_elem_of_fmap Heq. f_equal.
    destruct p as [k v], q as [k' v']. simpl in Heq. subst k'. f_equal.
    assert (Hnd : NoDup (rows_of es).*1) by (rewrite Hkeys; apply NoDup_seq).
    apply (elem_of_list_to_map_1 (M := gmap nat)) in Hp; [|done]. apply (elem_of_list_to_map_1 (M := gmap nat)) in Hq; [|done]. congruence. }
  assert (Hp : to_row <$> map_to_list (list_to_map (rows_of es) : history_rows) ≡ₚ R).
  { unfold R. apply Permutation_map, map_to_list_to_map. rewrite Hkeys. apply NoDup_seq. }
  assert (Hdesc : isort seq_desc (to_row <$> map_to_list (list_to_map (rows_of es) : history_rows)) = reverse R).
  { apply isort_is.
    - intros x y. unfold seq_desc. rewrite !Nat.leb_le. lia.
    - intros x y z. unfold seq_desc. rewrite !Nat.leb_le. lia.
    - intros x y. rewrite !elem_of_reverse. intros Hx Hy. unfold seq_desc. rewrite !Nat.leb_le. intros ??. apply Hinj; [done|done|lia].
    - by apply (sorted_reverse seq_asc).
    - by rewrite Hp, reverse_Permutation. }
  rewrite Hdesc. clear Hdesc Hp. rewrite take_reverse. unfold lastn. set (n := length R - limit).
  apply isort_is.
  - intros x y. unfold seq_asc. rewrite !Nat.leb_le. lia.
  - intros x y z. unfold seq_asc. rewrite !Nat.leb_le. lia.
  - intros x y Hx Hy. unfold seq_asc. rewrite !Nat.leb_le. intros ??.
    apply Hinj; [by eapply (subseteq_drop n)|by eapply (subseteq_drop n)|lia].
  - by apply sorted_drop.
  - apply reverse_Permutation.
Qed.

Section lossless.
Hypothesis (HJ : lossless J).

Lemma load_entry h e :
  History.load_row (dec_event J) (dec_state J) h (to_row (entry_row e)) =
  History.MkHistory (History.push h e) (History.maxSize h) (History.seq h `max` History.Seq e).
Proof using HJ.
  unfold History.load_row. simpl. destruct (ll_event _ HJ (History.h_Event e)) as (j & -> & Hj). simpl. rewrite Hj.
  assert (Hs : (History.State e ≫= enc_state J) ≫= dec_state J = History.State e).
  { destruct (History.State e) as [st|]; [|done]. simpl. destruct (ll_state _ HJ st) as (k & -> & Hk). done. }
  rewrite Hs. destruct e as [n ev st]. simpl. f_equal. destruct (Nat.ltb_spec (History.seq h) n); lia.
Qed.

Lemma load_entries l : ∀ h, length (History.entries h) + length l ≤ History.maxSize h →
  History.loadRows (dec_event J) (dec_state J) h (to_row <$> (entry_row <$> l)) =
  History.MkHistory (History.entries h ++ l) (History.maxSize h) (foldl max (History.seq h) (History.Seq <$> l)).
Proof using HJ.
  unfold History.loadRows. induction l as [|e l IH]; intros h Hl; cbn [length] in Hl.
  { simpl. rewrite app_nil_r. by destruct h. }
  rewrite !fmap_cons. cbn [foldl]. rewrite load_entry.
  assert (Hp : History.push h e = History.entries h ++ [e]).
  { unfold History.push. destruct (Nat.leb_spec (History.maxSize h) (length (History.entries h))); [lia|done]. }
  rewrite Hp, IH; simpl; [by rewrite <- app_assoc|rewrite length_app; simpl; lia].
Qed.

Lemma foldl_max_seq m : ∀ a b, b < a → foldl max b (seq a m) = if decide (m = 0) then b else a + m - 1.
Proof using.
  induction m as [|m IH]; intros a b Hb; [done|]. cbn [seq foldl]. rewrite IH by lia. repeat case_decide; lia.
Qed.

(** Loading the rows of a history gives the history back. *)
Lemma load_run d id es :
  default ∅ (cluster_history d !! id) = list_to_map (rows_of es) →
  History.loadRows (dec_event J) (dec_state J) History.newClusterEventHistory (LoadHistory d id History.historyMaxSize) = History.run es.
Proof using HJ.
  intros Hd. rewrite (LoadHistory_rows _ _ _ es Hd), History.run_entries. unfold rows_of, lastn.
  rewrite !length_fmap, <- !fmap_drop, load_entries; simpl.
  - f_equal. rewrite History.length_recorded, fmap_drop.
    assert (Hk : History.Seq <$> History.recorded 0 es = seq 1 (length es)).
    { rewrite <- rows_of_keys. unfold rows_of. by rewrite <- list_fmap_compose. }
    rewrite Hk, drop_seq, foldl_max_seq by lia. unfold History.historyMaxSize. case_decide; lia.
  - rewrite length_drop, History.length_recorded. unfold History.historyMaxSize. lia.
Qed.

(** Appending to a history whose rows are stored stores one more row. *)
Lemma Append_run d id es evt st row :
  clusters_t d !! id = Some row → default ∅ (cluster_history d !! id) = list_to_map (rows_of es) →
  Append d id (History.run es) evt st =
    (History.run (es ++ [(evt, st)]),
     MkDB (clusters_t d) (<[id := list_to_map (rows_of (es ++ [(evt, st)]))]> (cluster_history d))).
Proof using HJ.
  intros Hrow Hd. unfold Append.
  assert (Hr : History.Append (History.run es) evt st = History.run (es ++ [(evt, st)])) by (unfold History.run; by rewrite foldl_app).
  rewrite Hr. f_equal. rewrite History.run_entries. cbn [History.entries History.seq].
  destruct (ll_event _ HJ evt) as (j & Hj & _). rewrite Hj.
  unfold AppendHistoryEntry. rewrite Hrow, Hd.
  assert (Hfresh : S (length es) ∉ (rows_of es).*1) by (rewrite rows_of_keys, elem_of_seq; lia).
  rewrite length_app, Nat.add_comm. cbn [length Nat.add]. rewrite not_elem_of_list_to_map_1 by done.
  rewrite rows_of_snoc, History.recorded_app. cbn [History.recorded].
  rewrite lastn_snoc by (unfold History.historyMaxSize; lia). rewrite last_snoc. cbn [fmap list_fmap entry_row History.Seq History.h_Event History.State mbind option_bind].
  unfold entry_row. cbn [History.Seq History.h_Event History.State]. rewrite list_to_map_snoc by done. by rewrite Hj.
Qed.

End lossless.

(** *** Configurations *)

Lemma add_all_config {B} cap (idf : B → string) (mk : @Cluster float → B → AnyNode) l (c : @Cluster float) :
  Config (foldl (λ c b, add_member cap c (idf b) (mk c b)) c l) = Config c.
Proof using. by apply (foldl_inv (λ c', Config c' = Config c)). Qed.

Lemma core_config id cfg (c : @Cluster float) : createClusterCore codec vc_string id cfg = Ok (inr c) → Config c = cfg ∧ ID c = id ∧ strategy_of (Strategy cfg) ≠ None.
Proof using.
  intros Hc. pose proof (core_made _ _ _ _ _ Hc) as (_ & Hid & _). split; [|split; [done|]].
  2:{ intros Hn. unfold createClusterCore in Hc. by rewrite Hn in Hc. }
  unfold createClusterCore in Hc.
  assert (Hr : ∀ c0, Config (assignRegions (float := float) c0 cfg) = Config c0) by (intros c0; unfold assignRegions; by destruct (Regions cfg <=? 1)%Z).
  destruct (strategy_of (Strategy cfg)) as [[]|]; [..|done].
  - unfold createSingleLeaderCluster in Hc. destruct (node_ids _ _) as [[|x l]|]; [done| |done]. simpl in Hc. injection Hc as <-.
    rewrite Hr. apply (add_all_config 256 (λ f, f) (λ _ f, FollowerN (SingleLeader.NewFollowerNode f x))).
  - unfold createMultiLeaderCluster in Hc. destruct (node_ids _ _) as [l|]; [|done]. simpl in Hc. injection Hc as <-.
    rewrite Hr. apply (add_all_config 256 snd).
  - unfold createLeaderlessCluster in Hc. destruct (node_ids _ _) as [l|]; [|done]. simpl in Hc. injection Hc as <-.
    rewrite Hr. apply (add_all_config 256 (λ f, f)).
  - unfold createRaftCluster in Hc. destruct (node_ids _ _) as [l|]; [|done]. simpl in Hc. injection Hc as <-.
    rewrite Hr. apply (add_all_config 512 snd).
Qed.

(** Creating a cluster never panics once the node count is normalized. *)
Lemma core_total id cfg : (1 ≤ NodeCount cfg)%Z → 8 ≤ String.length id →
  ∃ r : error + Cluster, createClusterCore (float := float) codec vc_string id cfg = Ok r.
Proof using.
  intros Hn Hid. destruct (strategy_of (Strategy cfg)) eqn:Hs.
  - destruct (core_succeeds (float := float) codec vc_string id cfg) as [c Hc]; [congruence|done|done|eauto].
  - unfold createClusterCore. rewrite Hs. eauto.
Qed.

Lemma AddNode_kept (c : @Cluster float) : 8 ≤ String.length (ID c) →
  ∃ r, AddNode (float := float) c = Ok r ∧ ∀ c', r = inr c' → ID c' = ID c ∧ Strategy (Config c') = Strategy (Config c).
Proof using.
  intros Hid. unfold AddNode, prefix8. rewrite (proj2 (Nat.leb_le _ _) Hid). simpl. eexists. split; [done|].
  intros c'. destruct (strategy_of _) as [[]|]; try done; intros [= <-]; try done. by case_match.
Qed.

Lemma RemoveNode_kept (c : @Cluster float) nid c' : RemoveNode (float := float) c nid = inr c' → ID c' = ID c ∧ Strategy (Config c') = Strategy (Config c).
Proof using. unfold RemoveNode. destruct (Nodes c !! nid); [|done]. intros [= <-]. simpl. split; [done|]. by case_match. Qed.

(** *** The database follows the server *)

(** The row of a live cluster. *)
Definition saved (s : Server) (id : string) (l : Live) (row : cluster_row) : Prop :=
  created_at row = created l ∧ (∃ ids, node_ids_json row = enc_ids J ids) ∧
  (id ∉ pending s → config_json row = enc_cfg J (Config (lv_cluster l))) ∧
  ∃ es, eventHistory l = History.run es ∧ default ∅ (cluster_history (db s) !! id) = list_to_map (rows_of es).

Definition proper (id : string) (c : @Cluster float) : Prop :=
  ID c = id ∧ strategy_of (Strategy (Config c)) ≠ None ∧ 8 ≤ String.length id.

Definition followed (s : Server) (id : string) : Prop :=
  match live s !! id, clusters_t (db s) !! id with
  | Some l, Some row => proper id (lv_cluster l) ∧ saved s id l row
  | Some l, None => proper id (lv_cluster l) ∧ id ∈ pending s ∧ eventHistory l = History.run [] ∧ cluster_history (db s) !! id = None
  | None, None => (id ∉ pending s) ∧ cluster_history (db s) !! id = None
  | None, Some _ => False
  end.

Definition consistent (s : Server) : Prop := ∀ id, followed s id.

(** What the predicate reads. *)
Lemma followed_ext s s' id :
  live s' !! id = live s !! id → clusters_t (db s') !! id = clusters_t (db s) !! id →
  cluster_history (db s') !! id = cluster_history (db s) !! id → (id ∈ pending s' ↔ id ∈ pending s) →
  followed s id → followed s' id.
Proof using.
  unfold followed, saved. intros -> -> -> Hp.
  destruct (live s !! id) as [l|], (clusters_t (db s) !! id) as [row|]; [|naive_solver..].
  intros (? & ? & ? & Hc & ?). split_and!; [done|done|done| |done]. intros Hn. apply Hc. tauto.
Qed.

(** Replacing a live cluster by one with the same identity and strategy. *)
Lemma followed_resize s id l c : live s !! id = Some l → proper id c → consistent s →
  consistent (with_pending (with_live s (<[id := set_cluster l c]> (live s))) (pending s ++ [id])).
Proof using.
  intros Hl Hc Hs id'. destruct (decide (id' = id)) as [->|Hne].
  - pose proof (Hs id) as H. unfold followed in *. simpl. rewrite lookup_insert_eq. rewrite Hl in H.
    destruct (clusters_t (db s) !! id) as [row|].
    + destruct H as (_ & ? & ? & _ & ?). split; [done|]. split_and!; [done|done| |done].
      simpl. intros Hn. exfalso. apply Hn. set_solver.
    + destruct H as (_ & ? & ? & ?). split_and!; [done|set_solver|done|done].
  - eapply followed_ext; [| | | |exact (Hs id')]; simpl; [by rewrite lookup_insert_ne|done|done|set_solver].
Qed.

Lemma resize_consistent s id l r : live s !! id = Some l →
  (∀ c', r = inr c' → ID c' = ID (lv_cluster l) ∧ Strategy (Config c') = Strategy (Config (lv_cluster l))) →
  consistent s → consistent (resize s id l r).
Proof using.
  intros Hl Hr Hs. destruct r as [e|c]; [done|]. apply followed_resize; [done| |done].
  destruct (Hr c eq_refl) as [Hid Hst]. unfold proper. rewrite Hid, Hst.
  pose proof (Hs id) as H. unfold followed in H. rewrite Hl in H. destruct (clusters_t (db s) !! id); apply H.
Qed.

Lemma create_consistent s uuid now cfg c :
  live s !! uuid = None → 8 ≤ String.length uuid → createClusterCore codec vc_string uuid cfg = Ok (inr c) → consistent s →
  consistent (with_pending (with_live s (<[uuid := MkLive c now History.newClusterEventHistory]> (live s))) (pending s ++ [uuid])).
Proof using.
  intros Hn Hlen (Hcfg & Hid & Hst)%core_config Hs id'. destruct (decide (id' = uuid)) as [->|Hne].
  - pose proof (Hs uuid) as H. unfold followed in *. simpl. rewrite lookup_insert_eq. rewrite Hn in H.
    destruct (clusters_t (db s) !! uuid) as [row|]; [done|]. destruct H as [_ H].
    split_and!; [|set_solver|done|done]. simpl. unfold proper. by rewrite Hcfg.
  - eapply followed_ext; [| | | |exact (Hs id')]; simpl; [by rewrite lookup_insert_ne|done|done|set_solver].
Qed.

Lemma delete_consistent s id l : live s !! id = Some l → id ∉ pending s → consistent s →
  consistent (MkServer (delete id (live s)) (<[id := l]> (gone s)) (maxClusters s) (DeleteCluster (db s) id) (pending s)).
Proof using.
  intros Hl Hp Hs id'. destruct (decide (id' = id)) as [->|Hne].
  - unfold followed. simpl. by rewrite !lookup_delete_eq.
  - eapply followed_ext; [| | | |exact (Hs id')]; simpl; by rewrite ?lookup_delete_ne.
Qed.

Lemma elem_of_remove_one_ne x y l : x ≠ y → (x ∈ remove_one y l ↔ x ∈ l).
Proof using.
  intros Hne. induction l as [|z l IH]; simpl; [done|]. destruct (String.eqb_spec y z); set_solver.
Qed.

Lemma persist_consistent s id l : id ∈ pending s → live s !! id = Some l → consistent s →
  consistent (with_db (with_pending s (remove_one id (pending s))) (persistCluster (db s) l)).
Proof using.
  intros Hp Hl Hs. assert (Hid : ID (lv_cluster l) = id).
  { pose proof (Hs id) as H. unfold followed in H. rewrite Hl in H. destruct (clusters_t (db s) !! id); apply H. }
  intros id'. destruct (decide (id' = id)) as [->|Hne].
  - pose proof (Hs id) as H. unfold followed in *. simpl. unfold persistCluster, SaveCluster. simpl. rewrite Hl in *. rewrite Hid, lookup_insert_eq.
    destruct (clusters_t (db s) !! id) as [row|].
    + destruct H as (? & Hcr & ? & _ & Hh). split; [done|]. split_and!; [done|simpl; eauto|done|done].
    + destruct H as (? & _ & Hh & Hd). split; [done|]. split_and!; [done|simpl; eauto|done|]. exists []. simpl. by rewrite Hd.
  - eapply followed_ext; [| | | |exact (Hs id')]; simpl; [done|by rewrite Hid, lookup_insert_ne|done|by apply elem_of_remove_one_ne].
Qed.

Lemma event_consistent s id l evt st row : lossless J → live s !! id = Some l → clusters_t (db s) !! id = Some row → consistent s →
  let r := Append (db s) id (eventHistory l) evt st in
  consistent (with_db (with_live s (<[id := MkLive (lv_cluster l) (created l) r.1]> (live s))) r.2).
Proof using.
  intros HJ Hl Hrow Hs r. pose proof (Hs id) as H. unfold followed in H. rewrite Hl, Hrow in H.
  destruct H as (Hpr & Hcr & Hids & Hcfg & es & Hes & Hh).
  unfold r. rewrite Hes, (Append_run HJ _ _ es evt st row Hrow Hh). simpl. clear r.
  intros id'. destruct (decide (id' = id)) as [->|Hne].
  - unfold followed. simpl. rewrite lookup_insert_eq, Hrow. split; [done|]. split_and!; [done|done|done|].
    exists (es ++ [(evt, st)]). split; [done|]. simpl. by rewrite lookup_insert_eq.
  - eapply followed_ext; [| | | |exact (Hs id')]; simpl; by rewrite ?lookup_insert_ne.
Qed.

Lemma serve_consistent s id l c : live s !! id = Some l → ID c = ID (lv_cluster l) → Config c = Config (lv_cluster l) → consistent s →
  consistent (with_live s (<[id := set_cluster l c]> (live s))).
Proof using.
  intros Hl Hid Hcfg Hs id'. destruct (decide (id' = id)) as [->|Hne].
  - pose proof (Hs id) as H. unfold followed, proper, saved in *. simpl. rewrite lookup_insert_eq. rewrite Hl in H. simpl.
    by rewrite Hid, Hcfg.
  - eapply followed_ext; [| | | |exact (Hs id')]; simpl; [by rewrite lookup_insert_ne|done..].
Qed.

(** *** Restarting *)

(** The cluster a restart makes of a live one: the same identity and configuration, new nodes. *)
Definition recreate (c : @Cluster float) : @Cluster float :=
  match createClusterCore codec vc_string (ID c) (Config c) with Ok (inr c') => c' | _ => c end.

Definition reborn (s : Server) (id : string) : option Live :=
  l ← live s !! id; Some (set_cluster l (recreate (lv_cluster l))).

Definition restorable (s : Server) : Prop :=
  pending s = [] ∧ map_Forall (λ _ l, (1 ≤ NodeCount (Config (lv_cluster l)))%Z) (live s).

Lemma recreate_Ok s id l : consistent s → restorable s → live s !! id = Some l →
  createClusterCore codec vc_string id (Config (lv_cluster l)) = Ok (inr (recreate (lv_cluster l))).
Proof using.
  intros Hs [_ Hn] Hl. assert (Hp : proper id (lv_cluster l)).
  { pose proof (Hs id) as H. unfold followed in H. rewrite Hl in H. destruct (clusters_t (db s) !! id); apply H. }
  destruct Hp as (Hid & Hst & Hlen). unfold recreate. rewrite Hid.
  destruct (core_succeeds (float := float) codec vc_string id (Config (lv_cluster l)) Hst (Hn id l Hl) Hlen) as [c Hc]. by rewrite Hc.
Qed.

Section restart.
Context (HJ : lossless J) (s : Server) (Hs : consistent s) (Hr : restorable s).

Lemma scan_saved id row : clusters_t (db s) !! id = Some row → ∃ r l,
  scan_cluster (dec_ids J) (id, row) = Some r ∧ live s !! id = Some l ∧
  ∀ m, restore_record (db s) m r = Ok (<[id := set_cluster l (recreate (lv_cluster l))]> m).
Proof using HJ Hs Hr.
  intros Hrow. pose proof (Hs id) as H. unfold followed in H. rewrite Hrow in H. destruct (live s !! id) as [l|] eqn:Hl; [|done].
  destruct H as (_ & Hcr & (ids & Hids) & Hcfg & es & Hes & Hh).
  unfold scan_cluster. simpl. rewrite Hids, (ll_ids _ HJ). simpl. eexists _, l. split_and!; [done|done|]. intros m.
  unfold restore_record. simpl. rewrite Hcfg by (rewrite (proj1 Hr); apply not_elem_of_nil). rewrite (ll_cfg _ HJ).
  rewrite (recreate_Ok s id l Hs Hr Hl). simpl. by rewrite (load_run HJ _ _ es Hh), Hcr, <- Hes.
Qed.

Lemma restore_rows rows : (∀ p, p ∈ rows → clusters_t (db s) !! p.1 = Some p.2) → ∀ m,
  ∃ recs m', mapM (scan_cluster (dec_ids J)) rows = Some recs ∧
    foldl (λ rm r, m ← rm; restore_record (db s) m r) (Ok m) recs = Ok m' ∧
    ∀ id, m' !! id = if decide (id ∈ rows.*1) then reborn s id else m !! id.
Proof using HJ Hs Hr.
  induction rows as [|[k row] rows IH]; intros Hin m; [by exists [], m|].
  destruct (scan_saved k row (Hin (k, row) ltac:(left))) as (r & l & Hsc & Hl & Hres).
  destruct (IH (λ p Hp, Hin p ltac:(by right)) (<[k := set_cluster l (recreate (lv_cluster l))]> m)) as (recs & m' & Hm & Hf & Hlook).
  exists (r :: recs), m'. split_and!.
  - change (mapM ?f (?x :: ?l)) with (y ← f x; k ← mapM f l; mret (y :: k)). rewrite Hsc. simpl. by rewrite Hm.
  - cbn [foldl]. simpl. by rewrite Hres.
  - intros id. rewrite Hlook, fmap_cons. cbn [fst]. destruct (decide (id ∈ rows.*1)); [by rewrite decide_True by (by right)|].
    destruct (decide (id = k)) as [->|Hne].
    + rewrite lookup_insert_eq, decide_True by left. unfold reborn. by rewrite Hl.
    + rewrite lookup_insert_ne by done. rewrite decide_False; [done|]. intros [?|?]%elem_of_cons; done.
Qed.

Lemma Restore_spec : ∃ m, Restore (db s) = Ok m ∧ ∀ id, m !! id = reborn s id.
Proof using HJ Hs Hr.
  destruct (restore_rows (isort by_created (map_to_list (clusters_t (db s))))) with (m := (∅ : gmap string Live)) as (recs & m & Hm & Hf & Hlook).
  { intros [k row] Hin%elem_of_isort%elem_of_map_to_list. done. }
  exists m. split; [unfold Restore, LoadClusters; by rewrite Hm|]. intros id. rewrite Hlook. case_decide as Hid; [done|].
  rewrite lookup_empty. unfold reborn. pose proof (Hs id) as H. unfold followed in H. destruct (live s !! id) as [l|]; [|done].
  destruct (clusters_t (db s) !! id) as [row|] eqn:Hrow.
  - exfalso. apply Hid. apply list_elem_of_fmap. exists (id, row). split; [done|]. by apply elem_of_isort, elem_of_map_to_list.
  - destruct H as (_ & Hp & _). rewrite (proj1 Hr) in Hp. by apply not_elem_of_nil in Hp.
Qed.

Lemma restart_step : ∃ s', step s ARestart = Ok s' ∧ consistent s' ∧ (∀ id, live s' !! id = reborn s id) ∧ db s' = db s.
Proof using HJ Hs Hr.
  destruct Restore_spec as (m & Hm & Hlook). simpl. rewrite Hm. simpl. eexists. split_and!; [done| |done|done].
  intros id. pose proof (Hs id) as H. unfold followed in *. simpl. rewrite Hlook. unfold reborn.
  destruct (live s !! id) as [l|] eqn:Hl; simpl.
  - destruct (clusters_t (db s) !! id) as [row|].
    + pose proof (recreate_Ok s id l Hs Hr Hl) as Hc. apply core_config in Hc as (Hcfg & Hid & _).
      destruct H as [(Hid0 & Hp) (? & ? & Hc & ?)]. unfold proper, saved. simpl. rewrite Hcfg. split_and!; [done|apply Hp..|done|done| |done].
      intros _. apply Hc. rewrite (proj1 Hr). apply not_elem_of_nil.
    + destruct H as (_ & Hp & _). rewrite (proj1 Hr) in Hp. by apply not_elem_of_nil in Hp.
  - destruct (clusters_t (db s) !! id); [done|]. split; [apply not_elem_of_nil|apply H].
Qed.

End restart.

Lemma step_consistent s a : lossless J → consistent s → orderly s a → ∃ s', step s a = Ok s' ∧ consistent s'.
Proof using.
  intros HJ Hs Ha. destruct a as [uuid now cfg|id|id|id nid|id|id evt st|id c|].
  - destruct Ha as [Hl Hlen]. simpl. unfold CreateCluster. destruct (at_cap _); [by exists s|].
    assert (Hn : (1 ≤ NodeCount (normalize cfg))%Z).
    { unfold normalize. destruct (Z.ltb_spec (NodeCount cfg) 1); by destruct (String.eqb _ _). }
    destruct (core_total uuid (normalize cfg) Hn Hlen) as [[e|c] Hc]; rewrite Hc; simpl; [by exists s|].
    eexists. split; [done|]. by eapply create_consistent.
  - simpl. destruct (live s !! id) as [l|] eqn:Hl; [|by exists s]. eexists. split; [done|]. by apply delete_consistent.
  - simpl. destruct (live s !! id) as [l|] eqn:Hl; [|by exists s].
    assert (Hlen : 8 ≤ String.length (ID (lv_cluster l))).
    { pose proof (Hs id) as H. unfold followed, proper in H. rewrite Hl in H. destruct (clusters_t (db s) !! id); destruct H as [(-> & _ & ?) _]; done. }
    destruct (AddNode_kept _ Hlen) as (r & Hr & Hk). rewrite Hr. simpl. eexists. split; [done|]. by apply resize_consistent.
  - simpl. destruct (live s !! id) as [l|] eqn:Hl; [|by exists s]. eexists. split; [done|].
    apply resize_consistent; [done| |done]. intros c'. apply RemoveNode_kept.
  - simpl. case_bool_decide as Hp; [|by exists s]. destruct (live s !! id) as [l|] eqn:Hl.
    + eexists. split; [done|]. by apply persist_consistent.
    + pose proof (Hs id) as H. unfold followed in H. rewrite Hl in H. by destruct (clusters_t (db s) !! id); [|destruct H].
  - cbn [step orderly] in *. destruct (live s !! id) as [l|] eqn:Hl; [|by exists s]. destruct Ha as [row Hrow].
    pose proof (event_consistent s id l evt st row HJ Hl Hrow Hs) as H. destruct (Append _ _ _ _ _) as [h d]. eexists. split; [reflexivity|exact H].
  - simpl in *. destruct (live s !! id) as [l|] eqn:Hl; [|by exists s]. destruct (Ha l eq_refl) as [Hid Hcfg].
    eexists. split; [done|]. by apply serve_consistent.
  - destruct (restart_step HJ s Hs Ha) as (s' & ? & ? & _). eauto.
Qed.

Lemma steps_cons s a l : steps s (a :: l) = (s' ← step s a; steps s' l).
Proof using.
  unfold steps. cbn [foldl]. simpl. destruct (step s a) as [s'|]; [done|]. simpl. by induction l.
Qed.

Lemma orderly_run_consistent l : lossless J → ∀ s, consistent s → orderly_run s l → ∃ s', steps s l = Ok s' ∧ consistent s'.
Proof using.
  intros HJ. induction l as [|a l IH]; intros s Hs Ho; [by exists s|]. destruct Ho as [Ha Ho].
  destruct (step_consistent s a HJ Hs Ha) as (s1 & H1 & Hs1). rewrite steps_cons, H1 in *. by apply IH.
Qed.

Lemma start_consistent max : consistent (start max).
Proof using. intros id. unfold followed, start. simpl. rewrite !lookup_empty. split; [apply not_elem_of_nil|done]. Qed.

End server.
End Persistence.

(** ** A lossless encoding *)

Module Bits.
Import Cluster.

Fixpoint print (p : positive) : string :=
  match p with
  | xH => ""
  | xO p => String "0"%char (print p)
  | xI p => String "1"%char (print p)
  end.

Fixpoint parse (s : string) : option positive :=
  match s with
  | EmptyString => Some xH
  | String "0"%char s => xO <$> parse s
  | String "1"%char s => xI <$> parse s
  | _ => None
  end.

Lemma parse_print p : parse (print p) = Some p.
Proof. induction p as [p IH|p IH|]; simpl; [by rewrite IH..|done]. Qed.

Definition enc `{Countable A} (x : A) : string := print (encode x).
Definition dec `{Countable A} (s : string) : option A := parse s ≫= decode.

Lemma dec_enc `{Countable A} (x : A) : dec (enc x) = Some x.
Proof. unfold dec, enc. rewrite parse_print. apply decode_encode. Qed.

Definition cfg_fields (c : ClusterConfig) : list positive :=
  [encode (Strategy c); encode (NodeCount c); encode (ReplicationMode c); encode (ConflictResolver_ c); encode (QuorumN c);
   encode (QuorumW c); encode (QuorumR c); encode (Regions c); encode (InterRegionLatencyMs c); encode (ConsistencyLevel c);
   encode (ReadRepairMode c); encode (SloppyQuorum c)].
Definition fields_cfg (l : list positive) : option ClusterConfig :=
  match l with
  | [st; n; m; cr; qn; qw; qr; rg; lat; cl; rr; sl] =>
      st ← decode st; n ← decode n; m ← decode m; cr ← decode cr; qn ← decode qn; qw ← decode qw; qr ← decode qr;
      rg ← decode rg; lat ← decode lat; cl ← decode cl; rr ← decode rr; sl ← decode sl;
      Some (MkCfg st n m cr qn qw qr rg lat cl rr sl)
  | _ => None
  end.
Lemma fields_cfg_fields c : fields_cfg (cfg_fields c) = Some c.
Proof. destruct c. unfold fields_cfg, cfg_fields. by repeat (rewrite decode_encode; cbn [mbind option_bind]). Qed.

#[local] Instance cfg_eq_dec : EqDecision ClusterConfig.
Proof. solve_decision. Defined.
#[local] Instance cfg_countable : Countable ClusterConfig.
Proof. exact (inj_countable cfg_fields fields_cfg fields_cfg_fields). Defined.

Definition event_types : list EventType :=
  [EvtFollowerLag; EvtConflictDetected; EvtConflictResolved; EvtEntryReplicated; EvtNodeStateChanged; EvtPartitionCreated;
   EvtPartitionHealed; EvtReadRepair; EvtLeaderElected; EvtHintedHandoff; EvtQuorumAchieved; EvtQuorumFailed;
   EvtWriteReceived; EvtReadReceived; EvtScenarioStep; EvtScenarioVerdict].
#[local] Instance event_type_countable : Countable EventType.
Proof.
  apply (inj_countable (λ t, default 0 (fst <$> list_find (eq t) event_types)) (λ n, event_types !! n)). by intros [].
Defined.

Definition event_tuple (e : Event unit) := (ev_Type e, ev_ClusterID e, ev_NodeID e, ev_Timestamp e).
#[local] Instance event_eq_dec : EqDecision (Event unit).
Proof. solve_decision. Defined.
#[local] Instance event_countable : Countable (Event unit).
Proof. apply (inj_countable' event_tuple (λ '(t, c, n, ts), MkEvent t c n ts tt)). by intros [? ? ? ? []]. Defined.

Definition json : Persistence.Json unit unit :=
  Persistence.MkJson unit unit enc dec enc dec (λ e, Some (enc e)) dec (λ s, Some (enc s)) dec.

Lemma json_lossless : Persistence.lossless json.
Proof. split; intros; simpl; rewrite ?dec_enc; eauto using dec_enc. Qed.

End Bits.

(** ** Theorems *)

Import Cluster Membership.


(** A server with one cluster. *)
Definition demo_run (strategy : string) (l : list (Persistence.action (float := unit))) : Res (@Persistence.Server unit unit unit) :=
  Persistence.steps no_codec (λ _, "") Bits.json (Persistence.start 0)
    (Persistence.ACreate demo_cluster_id 5 (demo_cfg strategy 3) :: l).
Definition demo_event : Event unit := MkEvent EvtNodeStateChanged demo_cluster_id "" (Some 6%Z) tt.
Definition demo_acts : list (Persistence.action (float := unit)) :=
  [Persistence.ACreate demo_cluster_id 5 (demo_cfg "single_leader" 3); Persistence.APersist demo_cluster_id;
   Persistence.AEvent demo_cluster_id demo_event tt; Persistence.ARemoveNode demo_cluster_id "node-01234567-3"; Persistence.APersist demo_cluster_id].
Definition demo_server : @Persistence.Server unit unit unit :=
  match Persistence.steps no_codec (λ _, "") Bits.json (Persistence.start 0) demo_acts with Ok s => s | Panic => Persistence.start 0 end.

Definition census (r : Res (@Persistence.Server unit unit unit)) : option (list string * list (Event unit)) :=
  match r with
  | Ok s =>
      l ← Persistence.live s !! demo_cluster_id;
      Some (NodeIDs (Persistence.lv_cluster l), History.h_Event <$> History.entries (Persistence.eventHistory l))
  | Panic => None
  end.

Lemma demo_orderly : Persistence.orderly_run no_codec (λ _, "") Bits.json (Persistence.start 0) demo_acts.
Proof.
  cbn [demo_acts Persistence.orderly_run Persistence.orderly].
  split; [split; [by vm_compute|by apply (bool_decide_unpack (8 ≤ _)); vm_compute]|].
  destruct (Persistence.step _ _ _ _ _) as [s1|] eqn:E1; [|done]. split; [done|].
  destruct (Persistence.step _ _ _ s1 _) as [s2|] eqn:E2; [|done].
  assert (H2 : is_Some (Persistence.clusters_t (Persistence.db s2) !! demo_cluster_id)).
  { apply (f_equal (λ r, match r with Ok s => match Persistence.step no_codec (λ _, "") Bits.json s (Persistence.APersist demo_cluster_id) with
      Ok s => bool_decide (is_Some (Persistence.clusters_t (Persistence.db s) !! demo_cluster_id)) | Panic => false end | Panic => false end)) in E1.
    rewrite E2 in E1. eapply bool_decide_eq_true_1. etransitivity; [symmetry; exact E1|by vm_compute]. }
  split; [done|]. destruct (Persistence.step _ _ _ s2 _) as [s3|]; [|done]. split; [done|].
  destruct (Persistence.step _ _ _ s3 _) as [s4|]; [|done]. split; [done|]. by destruct (Persistence.step _ _ _ s4 _).
Qed.


