(* ===== verification/Metrics.v ===== *)
(** * Metrics and failure detection

    Models [src/internal/metrics/collector.go], [src/internal/failure/phi.go], and [runHeartbeats] and
    [Suspicion] of [src/internal/simulation/observability.go].  Go's [float64] is the executable
    IEEE 754 binary64 of the Standard Library ([SpecFloat]); [math.Erfc] and [math.Log10] are
    parameters.  A cluster's metrics hold pointers to those of its nodes: the map holds the pointees. *)

From Stdlib Require Import Floats.SpecFloat.
From S2P Require Import Prelude Events Node Cluster.
Import (hints) Node Cluster.
#[local] Open Scope nat_scope.

(** ** Binary64 *)

Module F64.

Abbreviation f64 := spec_float.

Definition of_Z (z : Z) : f64 := binary_normalize 53 1024 z 0 false.
Definition add : f64 → f64 → f64 := SFadd 53 1024.
Definition sub : f64 → f64 → f64 := SFsub 53 1024.
Definition mul : f64 → f64 → f64 := SFmul 53 1024.
Definition div : f64 → f64 → f64 := SFdiv 53 1024.
Definition sqrt : f64 → f64 := SFsqrt 53 1024.
Definition opp : f64 → f64 := SFopp.
Definition ltb : f64 → f64 → bool := SFltb.
Definition geb (x y : f64) : bool := SFleb y x.
Definition zero : f64 := S754_zero false.

(** [int(math.Ceil(x))]; an infinity or NaN converts to the least integer, as on amd64. *)
Definition ceil_int (x : f64) : Z :=
  match x with
  | S754_zero _ => 0
  | S754_finite s m e =>
      let v := if s then Z.neg m else Z.pos m in
      if (0 <=? e)%Z then v * 2 ^ e else - ((- v) / 2 ^ (- e))
  | _ => - 2 ^ 63
  end.

Definition is_nan (x : f64) : bool := match x with S754_nan => true | _ => false end.

(** The order of [sort.Float64s], which puts NaN first. *)
Definition less (x y : f64) : bool := SFltb x y || (is_nan x && negb (is_nan y)).
Definition leb (x y : f64) : bool := negb (less y x).

(** *** It is a total preorder *)

Definition key (x : f64) : Z * Z * Z :=
  match x with
  | S754_nan => (-3, 0, 0)
  | S754_infinity true => (-2, 0, 0)
  | S754_finite true m e => (-1, - e, Z.neg m)
  | S754_zero _ => (0, 0, 0)
  | S754_finite false m e => (1, e, Z.pos m)
  | S754_infinity false => (2, 0, 0)
  end%Z.

Definition key_lt (a b : Z * Z * Z) : Prop :=
  (a.1.1 < b.1.1 ∨ a.1.1 = b.1.1 ∧ (a.1.2 < b.1.2 ∨ a.1.2 = b.1.2 ∧ a.2 < b.2))%Z.

Lemma less_key x y : less x y = true ↔ key_lt (key x) (key y).
Proof.
  unfold less, SFltb, key_lt. destruct x as [?|[]| |[] mx ex], y as [?|[]| |[] my ey]; simpl;
    try (split; [done|lia]); try (split; [lia|done]);
    (destruct (Z.compare_spec ex ey) as [->|?|?]; [|split; [intros; lia|intros; first [done|lia]]..]);
    fold (Pos.compare mx my); destruct (Pos.compare_spec mx my) as [->|?|?]; simpl; split; intros; first [done|lia].
Qed.

End F64.

(** ** Node and cluster metrics *)

Module Metrics.
Import F64.

Definition percentile (samples : list f64) (p : f64) : f64 :=
  match samples with
  | [] => zero
  | _ =>
      let s := isort leb samples in
      let n := Z.of_nat (length s) in
      let rank := (ceil_int (mul (div p (of_Z 100)) (of_Z n)) - 1)%Z in
      let rank := if (rank <? 0)%Z then 0%Z else rank in
      let rank := if (n <=? rank)%Z then (n - 1)%Z else rank in
      nth (Z.to_nat rank) s zero
  end.

Record LagSample := MkLag { FollowerID : string; LagEntries : Z; LagMs : Z; Timestamp : Z }.

Record Percentiles := MkPercentiles { P50 : f64; P95 : f64; P99 : f64 }.
Definition no_percentiles : Percentiles := MkPercentiles zero zero zero.

Record NodeMetrics := MkNodeMetrics {
  NodeID : string;
  WritesTotal : Z;
  ReadsTotal : Z;
  ConflictsTotal : Z;
  ReplicaLag : Z;
  WriteLatencyMs : list f64;
  ReadLatencyMs : list f64;
  LastUpdated : option Z;
  IsLeader : bool;
  IsOnline : bool;
  WriteP : Percentiles;
  ReadP : Percentiles;
}.

Definition NewNodeMetrics (id : string) : NodeMetrics :=
  MkNodeMetrics id 0 0 0 0 [] [] None false true no_percentiles no_percentiles.

(** [append], then drop the oldest sample of a window that has outgrown [max]. *)
Definition append_bounded {A} (max : nat) (l : list A) (x : A) : list A :=
  let l := l ++ [x] in if max <? length l then drop 1 l else l.

Definition RecordWrite (m : NodeMetrics) (now : Z) (latencyMs : f64) : NodeMetrics :=
  MkNodeMetrics (NodeID m) (i64 (WritesTotal m + 1)) (ReadsTotal m) (ConflictsTotal m) (ReplicaLag m)
    (append_bounded 1000 (WriteLatencyMs m) latencyMs) (ReadLatencyMs m) (Some now) (IsLeader m) (IsOnline m) (WriteP m) (ReadP m).

Definition RecordRead (m : NodeMetrics) (now : Z) (latencyMs : f64) : NodeMetrics :=
  MkNodeMetrics (NodeID m) (WritesTotal m) (i64 (ReadsTotal m + 1)) (ConflictsTotal m) (ReplicaLag m)
    (WriteLatencyMs m) (append_bounded 1000 (ReadLatencyMs m) latencyMs) (Some now) (IsLeader m) (IsOnline m) (WriteP m) (ReadP m).

Definition RecordConflict (m : NodeMetrics) (now : Z) : NodeMetrics :=
  MkNodeMetrics (NodeID m) (WritesTotal m) (ReadsTotal m) (i64 (ConflictsTotal m + 1)) (ReplicaLag m)
    (WriteLatencyMs m) (ReadLatencyMs m) (Some now) (IsLeader m) (IsOnline m) (WriteP m) (ReadP m).

Definition SetLag (m : NodeMetrics) (now lag : Z) : NodeMetrics :=
  MkNodeMetrics (NodeID m) (WritesTotal m) (ReadsTotal m) (ConflictsTotal m) lag
    (WriteLatencyMs m) (ReadLatencyMs m) (Some now) (IsLeader m) (IsOnline m) (WriteP m) (ReadP m).

Definition Lag (m : NodeMetrics) : Z := ReplicaLag m.

Definition SetLeader (m : NodeMetrics) (v : bool) : NodeMetrics :=
  MkNodeMetrics (NodeID m) (WritesTotal m) (ReadsTotal m) (ConflictsTotal m) (ReplicaLag m)
    (WriteLatencyMs m) (ReadLatencyMs m) (LastUpdated m) v (IsOnline m) (WriteP m) (ReadP m).

Definition SetOnline (m : NodeMetrics) (v : bool) : NodeMetrics :=
  MkNodeMetrics (NodeID m) (WritesTotal m) (ReadsTotal m) (ConflictsTotal m) (ReplicaLag m)
    (WriteLatencyMs m) (ReadLatencyMs m) (LastUpdated m) (IsLeader m) v (WriteP m) (ReadP m).

Definition average (l : list f64) : f64 :=
  match l with [] => zero | _ => div (foldl add zero l) (of_Z (Z.of_nat (length l))) end.
Definition AvgWriteLatency (m : NodeMetrics) : f64 := average (WriteLatencyMs m).
Definition AvgReadLatency (m : NodeMetrics) : f64 := average (ReadLatencyMs m).

Definition Snapshot (m : NodeMetrics) : NodeMetrics :=
  let wl := WriteLatencyMs m in
  let rl := ReadLatencyMs m in
  MkNodeMetrics (NodeID m) (WritesTotal m) (ReadsTotal m) (ConflictsTotal m) (ReplicaLag m) wl rl
    (LastUpdated m) (IsLeader m) (IsOnline m)
    (MkPercentiles (percentile wl (of_Z 50)) (percentile wl (of_Z 95)) (percentile wl (of_Z 99)))
    (MkPercentiles (percentile rl (of_Z 50)) (percentile rl (of_Z 95)) (percentile rl (of_Z 99))).

Record ClusterMetrics := MkClusterMetrics {
  ClusterID : string;
  Strategy : string;
  Nodes : gmap string NodeMetrics;
  TotalWrites : Z;
  TotalReads : Z;
  TotalConflicts : Z;
  LagSamples : list LagSample;
  StartTime : Z;
}.

Definition NewClusterMetrics (clusterID strategy : string) (now : Z) : ClusterMetrics :=
  MkClusterMetrics clusterID strategy ∅ 0 0 0 [] now.

Definition with_nodes (c : ClusterMetrics) (ns : gmap string NodeMetrics) : ClusterMetrics :=
  MkClusterMetrics (ClusterID c) (Strategy c) ns (TotalWrites c) (TotalReads c) (TotalConflicts c) (LagSamples c) (StartTime c).

Definition AddNode (c : ClusterMetrics) (nm : NodeMetrics) : ClusterMetrics := with_nodes c (<[NodeID nm := nm]> (Nodes c)).

Definition RecordLag (c : ClusterMetrics) (sample : LagSample) : ClusterMetrics :=
  MkClusterMetrics (ClusterID c) (Strategy c) (Nodes c) (TotalWrites c) (TotalReads c) (TotalConflicts c)
    (append_bounded 500 (LagSamples c) sample) (StartTime c).

Definition IncrWrites (c : ClusterMetrics) : ClusterMetrics :=
  MkClusterMetrics (ClusterID c) (Strategy c) (Nodes c) (i64 (TotalWrites c + 1)) (TotalReads c) (TotalConflicts c) (LagSamples c) (StartTime c).

Definition IncrReads (c : ClusterMetrics) : ClusterMetrics :=
  MkClusterMetrics (ClusterID c) (Strategy c) (Nodes c) (TotalWrites c) (i64 (TotalReads c + 1)) (TotalConflicts c) (LagSamples c) (StartTime c).

(** The cluster's own conflict counter is not read: conflicts are summed over the nodes. *)
Definition cluster_Snapshot (c : ClusterMetrics) : ClusterMetrics :=
  MkClusterMetrics (ClusterID c) (Strategy c) (Snapshot <$> Nodes c) (TotalWrites c) (TotalReads c)
    (foldl (λ t p, i64 (t + ConflictsTotal p.2)) 0%Z (map_to_list (Nodes c))) (LagSamples c) (StartTime c).

(** *** Runs *)

Inductive op :=
  | ORecordWrite (now : Z) (latencyMs : f64)
  | ORecordRead (now : Z) (latencyMs : f64)
  | ORecordConflict (now : Z)
  | OSetLag (now lag : Z)
  | OSetLeader (v : bool)
  | OSetOnline (v : bool).

Definition apply (m : NodeMetrics) (o : op) : NodeMetrics :=
  match o with
  | ORecordWrite now l => RecordWrite m now l
  | ORecordRead now l => RecordRead m now l
  | ORecordConflict now => RecordConflict m now
  | OSetLag now lag => SetLag m now lag
  | OSetLeader v => SetLeader m v
  | OSetOnline v => SetOnline m v
  end.

Definition run (id : string) (ops : list op) : NodeMetrics := foldl apply (NewNodeMetrics id) ops.

Definition write_of (o : op) : option f64 := match o with ORecordWrite _ l => Some l | _ => None end.
Definition read_of (o : op) : option f64 := match o with ORecordRead _ l => Some l | _ => None end.
Definition conflict_of (o : op) : option unit := match o with ORecordConflict _ => Some tt | _ => None end.

Lemma append_bounded_lastn {A} max (l : list A) x : 0 < max → append_bounded max (lastn max l) x = lastn max (l ++ [x]).
Proof.
  intros Hm. rewrite lastn_snoc by done. unfold append_bounded. rewrite length_app. cbn [length].
  destruct (Nat.ltb_spec max (length (lastn max l) + 1)), (Nat.leb_spec max (length (lastn max l))); try lia; [|done].
  destruct (lastn max l); [simpl in *; lia|done].
Qed.

Lemma run_counts id ops :
  NodeID (run id ops) = id ∧
  WriteLatencyMs (run id ops) = lastn 1000 (omap write_of ops) ∧ ReadLatencyMs (run id ops) = lastn 1000 (omap read_of ops) ∧
  WritesTotal (run id ops) = i64 (Z.of_nat (length (omap write_of ops))) ∧
  ReadsTotal (run id ops) = i64 (Z.of_nat (length (omap read_of ops))) ∧
  ConflictsTotal (run id ops) = i64 (Z.of_nat (length (omap conflict_of ops))).
Proof.
  induction ops as [|o ops IH] using rev_ind; [by vm_compute|]. unfold run in *. rewrite foldl_app. cbn [foldl].
  destruct IH as (H0 & H1 & H2 & H3 & H4 & H5). set (m := foldl apply _ ops) in *. rewrite !omap_app, !length_app.
  destruct o; cbn [apply]; cbn [RecordWrite RecordRead RecordConflict SetLag SetLeader SetOnline NodeID WriteLatencyMs ReadLatencyMs
    WritesTotal ReadsTotal ConflictsTotal]; cbn [omap list_omap write_of read_of conflict_of length];
    rewrite ?app_nil_r, ?Nat.add_0_r, ?H0, ?H1, ?H2, ?H3, ?H4, ?H5, ?append_bounded_lastn by lia;
    rewrite ?i64_add_l, ?Nat2Z.inj_add; done.
Qed.

(** *** Nearest rank *)

Lemma leb_total x y : leb x y = true ∨ leb y x = true.
Proof.
  unfold leb. destruct (less y x) eqn:E; [|by left]. right. apply negb_true_iff, not_true_iff_false. rewrite less_key.
  apply less_key in E. unfold key_lt in *. lia.
Qed.

Lemma leb_trans x y z : leb x y = true → leb y z = true → leb x z = true.
Proof.
  unfold leb. rewrite !negb_true_iff, <- !not_true_iff_false, !less_key. unfold key_lt. lia.
Qed.

(** In a sorted list, the element at [r] has [r + 1] elements up to it and at most [r] below it. *)
Lemma sorted_rank l r v : StronglySorted leb l → l !! r = Some v →
  r < length (filter (λ x, leb x v = true) l) ∧ length (filter (λ x, less x v = true) l) ≤ r.
Proof.
  revert r. induction l as [|x l IH]; intros r Hs Hr; [done|]. apply StronglySorted_inv in Hs as [Hl Hx].
  rewrite Forall_forall in Hx. rewrite !filter_cons. destruct r as [|r].
  - injection Hr as ->. rewrite decide_True by (by destruct (leb_total v v)). split; [simpl; lia|].
    assert (Hn : ∀ y, y ∈ l → less y v = false) by (intros y Hy; apply Hx, Is_true_true in Hy; by apply negb_true_iff in Hy).
    assert (Hv : less v v = false) by (destruct (leb_total v v) as [H|H]; by apply negb_true_iff in H).
    rewrite decide_False by (by rewrite Hv). clear -Hn. induction l as [|y l IH]; [simpl; lia|]. rewrite filter_cons, decide_False.
    + apply IH. intros z Hz. apply Hn. by right.
    + by rewrite (Hn y ltac:(left)).
  - simpl in Hr. destruct (IH r Hl Hr) as [H1 H2].
    rewrite decide_True by (apply Is_true_true, Hx; by eapply list_elem_of_lookup_2). split; [simpl; lia|].
    case_decide; simpl; lia.
Qed.

(** The rank computed in floating point is the exact one on every window. *)
Definition rank_exact (q : nat) : nat → bool :=
  let r := div (of_Z (Z.of_nat q)) (of_Z 100) in
  λ n, (ceil_int (mul r (of_Z (Z.of_nat n))) =? (Z.of_nat q * Z.of_nat n + 99) / 100)%Z.

Lemma ranks_exact q n : q ∈ [50; 95; 99] → 1 ≤ n ≤ 1000 → rank_exact q n = true.
Proof.
  intros Hq Hn. assert (H : forallb (λ q, forallb (rank_exact q) (seq 1 1000)) [50; 95; 99] = true) by (by vm_compute).
  rewrite forallb_forall in H. specialize (H q ltac:(by apply list_elem_of_In)). rewrite forallb_forall in H.
  apply H, list_elem_of_In, elem_of_seq. lia.
Qed.

(** What the nearest-rank percentile of a sample is. *)
Definition nearest_rank (q : nat) (samples : list f64) (v : f64) : Prop :=
  v ∈ samples ∧
  q * length samples ≤ 100 * length (filter (λ x, leb x v = true) samples) ∧
  100 * length (filter (λ x, less x v = true) samples) < q * length samples.

Lemma percentile_spec q samples : q ∈ [50; 95; 99] → samples ≠ [] → length samples ≤ 1000 →
  nearest_rank q samples (percentile samples (of_Z (Z.of_nat q))).
Proof.
  intros Hq Hne Hlen. assert (Hn : 1 ≤ length samples) by (destruct samples; simpl; [done|lia]).
  assert (Hq' : 1 ≤ q ≤ 99) by (repeat (apply elem_of_cons in Hq as [->|Hq]; [lia|]); by apply elem_of_nil in Hq).
  pose proof (ranks_exact q (length samples) Hq (conj Hn Hlen)) as Hr. apply Z.eqb_eq in Hr.
  set (n := length samples) in *. pose proof (length_isort leb samples) as Hl. fold n in Hl.
  set (r := Z.to_nat ((Z.of_nat q * Z.of_nat n + 99) / 100 - 1)).
  assert (Hdiv : (100 * ((Z.of_nat q * Z.of_nat n + 99) / 100) ≤ Z.of_nat q * Z.of_nat n + 99 ∧
                  Z.of_nat q * Z.of_nat n ≤ 100 * ((Z.of_nat q * Z.of_nat n + 99) / 100))%Z).
  { pose proof (Z.div_mod (Z.of_nat q * Z.of_nat n + 99) 100). pose proof (Z.mod_pos_bound (Z.of_nat q * Z.of_nat n + 99) 100). lia. }
  assert (Hrn : r < n ∧ 1 ≤ q * n ∧ q * n ≤ 100 * S r ∧ 100 * r < q * n) by (unfold r; nia).
  destruct (lookup_lt_is_Some_2 (isort leb samples) r) as [v Hv]; [lia|].
  assert (Hp : percentile samples (of_Z (Z.of_nat q)) = v).
  { unfold percentile. destruct samples as [|x0 xs] eqn:E; [done|]. rewrite <- E in *. rewrite Hl, Hr.
    destruct (Z.ltb_spec ((Z.of_nat q * Z.of_nat n + 99) / 100 - 1) 0); [nia|].
    destruct (Z.leb_spec (Z.of_nat n) ((Z.of_nat q * Z.of_nat n + 99) / 100 - 1)); [unfold r in *; nia|].
    fold r. by apply nth_lookup_Some. }
  rewrite Hp. destruct (sorted_rank _ r v (isort_sorted leb leb_total leb_trans samples) Hv) as [H1 H2].
  rewrite isort_perm in H1, H2. split_and!; [|unfold n in *; lia|unfold n in *; lia].
  apply (elem_of_isort leb). by eapply list_elem_of_lookup_2.
Qed.

Lemma percentiles_spec l : l ≠ [] → length l ≤ 1000 →
  nearest_rank 50 l (percentile l (of_Z 50)) ∧ nearest_rank 95 l (percentile l (of_Z 95)) ∧ nearest_rank 99 l (percentile l (of_Z 99)).
Proof.
  intros Hne Hl. split_and!.
  - apply (percentile_spec 50 l); [left|done|done].
  - apply (percentile_spec 95 l); [right; left|done|done].
  - apply (percentile_spec 99 l); [right; right; left|done|done].
Qed.

End Metrics.

(** ** The phi-accrual failure detector *)

Module Failure.
Import F64.

Definition maxSamples : nat := 100.
Definition minStdDevMillis : f64 := of_Z 1.

Record nodeState := MkState { intervals : list f64; lastArrival : Z; seen : bool }.
Abbreviation Detector := (gmap string nodeState).
Definition NewDetector : Detector := ∅.

(** [float64(now - last)], and 0 when it is negative *)
Definition gap_of (now last : Z) : f64 :=
  let gap := of_Z (i64 (now - last)) in if ltb gap zero then zero else gap.

Definition Heartbeat (d : Detector) (nodeID : string) (nowMillis : Z) : Detector :=
  let ns := default (MkState [] 0 false) (d !! nodeID) in
  let iv :=
    if seen ns then
      let iv := intervals ns ++ [gap_of nowMillis (lastArrival ns)] in
      if maxSamples <? length iv then drop (length iv - maxSamples) iv else iv
    else intervals ns in
  <[nodeID := MkState iv nowMillis true]> d.

Definition Reset (d : Detector) (nodeID : string) : Detector := delete nodeID d.

Definition meanStdDev (samples : list f64) : f64 * f64 :=
  let n := of_Z (Z.of_nat (length samples)) in
  let mean := div (foldl add zero samples) n in
  let variance := div (foldl (λ acc v, let diff := sub v mean in add acc (mul diff diff)) zero samples) n in
  (mean, sqrt variance).

Section phi.
Context (Erfc Log10 : f64 → f64).

(** [math.Sqrt2] and [math.SmallestNonzeroFloat64] *)
Definition Sqrt2 : f64 := S754_finite false 6369051672525773 (-52).
Definition SmallestNonzeroFloat64 : f64 := S754_finite false 1 (-1074).

Definition survival (x mean stdDev : f64) : f64 :=
  let z := div (sub x mean) stdDev in mul (S754_finite false 4503599627370496 (-53)) (Erfc (div z Sqrt2)).

Definition phi_of (iv : list f64) (last nowMillis : Z) : f64 :=
  let '(mean, stdDev) := meanStdDev iv in
  let stdDev := if ltb stdDev minStdDevMillis then minStdDevMillis else stdDev in
  let pLater := survival (gap_of nowMillis last) mean stdDev in
  let pLater := if ltb pLater SmallestNonzeroFloat64 then SmallestNonzeroFloat64 else pLater in
  opp (Log10 pLater).

Definition Phi (d : Detector) (nodeID : string) (nowMillis : Z) : f64 :=
  match d !! nodeID with
  | Some ns => if seen ns && negb (length (intervals ns) =? 0) then phi_of (intervals ns) (lastArrival ns) nowMillis else zero
  | None => zero
  end.

Definition Suspected (d : Detector) (nodeID : string) (nowMillis : Z) (threshold : f64) : bool :=
  geb (Phi d nodeID nowMillis) threshold.

(** *** Its use by the orchestrator *)

Definition DefaultPhiThreshold : f64 := of_Z 8.

(** One tick of [runHeartbeats]. *)
Definition heartbeat_tick (nodes : gmap string Cluster.AnyNode) (d : Detector) (now : Z) : Detector :=
  foldl (λ d p, match Cluster.State p.2 with Node.StateOnline => Heartbeat d p.1 now | _ => d end) d (map_to_list nodes).

Record NodeSuspicion := MkSuspicion { s_Phi : f64; s_Suspected : bool }.

Definition Suspicion (nodeIDs : list string) (d : Detector) (threshold : f64) (now : Z) : gmap string NodeSuspicion :=
  let threshold := if SFleb threshold zero then DefaultPhiThreshold else threshold in
  foldl (λ out id, <[id := MkSuspicion (Phi d id now) (Suspected d id now threshold)]> out) ∅ nodeIDs.

(** *** Runs *)

Inductive op := OHeartbeat (nodeID : string) (nowMillis : Z) | OReset (nodeID : string).

Definition apply (d : Detector) (o : op) : Detector :=
  match o with OHeartbeat id now => Heartbeat d id now | OReset id => Reset d id end.

Definition run (ops : list op) : Detector := foldl apply NewDetector ops.

(** The arrivals of a node since it was last reset. *)
Definition arrivals (id : string) (ops : list op) : list Z :=
  foldl (λ acc o, match o with
                  | OHeartbeat id' now => if String.eqb id' id then acc ++ [now] else acc
                  | OReset id' => if String.eqb id' id then [] else acc
                  end) [] ops.

(** The gaps between consecutive arrivals. *)
Fixpoint gaps (l : list Z) : list f64 :=
  match l with
  | a :: (b :: _) as l' => gap_of b a :: gaps l'
  | _ => []
  end.

(** The suspicion level that a list of arrivals amounts to. *)
Definition phi_spec (ts : list Z) (now : Z) : f64 :=
  if length ts <? 2 then zero else phi_of (gaps (lastn (S maxSamples) ts)) (List.last ts 0%Z) now.

(** What the detector holds about a node with the arrivals [ts]. *)
Definition state_spec (ts : list Z) : option nodeState :=
  match ts with [] => None | _ => Some (MkState (lastn maxSamples (gaps ts)) (List.last ts 0%Z) true) end.

Lemma length_gaps ts : length (gaps ts) = length ts - 1.
Proof using.
  induction ts as [|a [|b ts] IH]; [done|done|]. change (S (length (gaps (b :: ts))) = S (S (length ts)) - 1). rewrite IH. simpl. lia.
Qed.

Lemma gaps_snoc ts t : ts ≠ [] → gaps (ts ++ [t]) = gaps ts ++ [gap_of t (List.last ts 0%Z)].
Proof using.
  induction ts as [|a [|b ts] IH]; intros Hne; [done|done|].
  change (gaps ((a :: b :: ts) ++ [t])) with (gap_of b a :: gaps ((b :: ts) ++ [t])). by rewrite IH.
Qed.

Lemma gaps_drop n ts : gaps (drop n ts) = drop n (gaps ts).
Proof using.
  revert ts. induction n as [|n IH]; intros ts; [done|]. destruct ts as [|a [|b ts]]; [done|by destruct n|].
  change (gaps (drop n (b :: ts)) = drop n (gaps (b :: ts))). apply IH.
Qed.

Lemma gaps_lastn ts : lastn maxSamples (gaps ts) = gaps (lastn (S maxSamples) ts).
Proof using. unfold lastn. rewrite gaps_drop, length_gaps. f_equal. lia. Qed.

(** Trimming a window to its last [n] elements. *)
Lemma trim_snoc {A} n (l : list A) x : 0 < n →
  (let iv := lastn n l ++ [x] in if n <? length iv then drop (length iv - n) iv else iv) = lastn n (l ++ [x]).
Proof using.
  intros Hn. cbv zeta. set (iv := lastn n l ++ [x]).
  assert (Hl : lastn n (lastn n l) = lastn n l).
  { unfold lastn at 1. rewrite length_lastn. replace (n `min` length l - n) with 0 by lia. done. }
  assert (Ht : (if n <? length iv then drop (length iv - n) iv else iv) = lastn n iv).
  { unfold lastn. destruct (Nat.ltb_spec n (length iv)); [done|]. by replace (length iv - n) with 0 by lia. }
  rewrite Ht. unfold iv. by rewrite !lastn_snoc, Hl by done.
Qed.

Lemma Heartbeat_spec d id now ts : d !! id = state_spec ts → Heartbeat d id now !! id = state_spec (ts ++ [now]).
Proof using.
  intros Hd. unfold Heartbeat. rewrite lookup_insert_eq, Hd. destruct ts as [|a ts]; [done|].
  cbn [state_spec default from_option Datatypes.id seen intervals lastArrival]. set (l := a :: ts).
  assert (Hne : l ≠ []) by done. clearbody l. unfold state_spec. destruct (l ++ [now]) eqn:E; [by destruct l|]. rewrite <- E. clear E.
  rewrite List.last_last, gaps_snoc by done. do 2 f_equal. apply trim_snoc. unfold maxSamples. lia.
Qed.

Lemma Phi_state d id now ts : d !! id = state_spec ts → Phi d id now = phi_spec ts now.
Proof using.
  intros Hd. unfold Phi, phi_spec. rewrite Hd. destruct ts as [|a ts]; [done|]. cbn [state_spec seen intervals lastArrival andb].
  rewrite length_lastn, length_gaps. cbn [length]. destruct (Nat.ltb_spec (S (length ts)) 2).
  - by replace (maxSamples `min` (S (length ts) - 1)) with 0 by lia.
  - rewrite gaps_lastn. destruct (Nat.eqb_spec (maxSamples `min` (S (length ts) - 1)) 0); [unfold maxSamples in *; lia|done].
Qed.

Lemma Heartbeat_ne d id id' now : id' ≠ id → Heartbeat d id now !! id' = d !! id'.
Proof using. intros Hne. unfold Heartbeat. by rewrite lookup_insert_ne. Qed.

Lemma run_state ops id : run ops !! id = state_spec (arrivals id ops).
Proof using.
  induction ops as [|o ops IH] using rev_ind; [done|]. unfold run, arrivals in *. rewrite !foldl_app. cbn [foldl].
  destruct o as [id' now|id']; cbn [apply]; destruct (String.eqb_spec id' id) as [->|Hne].
  - by apply Heartbeat_spec.
  - by rewrite Heartbeat_ne.
  - unfold Reset. by rewrite lookup_delete_eq.
  - unfold Reset. by rewrite lookup_delete_ne.
Qed.

(** *** Ticks *)

Definition tick_ops (nodes : gmap string Cluster.AnyNode) (now : Z) : list op :=
  omap (λ p, match Cluster.State p.2 with Node.StateOnline => Some (OHeartbeat p.1 now) | _ => None end) (map_to_list nodes).

Lemma heartbeat_tick_ops nodes d now : heartbeat_tick nodes d now = foldl apply d (tick_ops nodes now).
Proof using.
  unfold heartbeat_tick, tick_ops. generalize (map_to_list nodes) as l. intros l. revert d.
  induction l as [|p l IH]; intros d; [done|]. cbn [foldl omap list_omap]. rewrite IH. by destruct (Cluster.State p.2).
Qed.

Definition online (nodes : gmap string Cluster.AnyNode) (id : string) : bool :=
  match nodes !! id with Some n => bool_decide (Cluster.State n = Node.StateOnline) | None => false end.

(** The times of the ticks that found a node online. *)
Definition online_times (id : string) (ticks : list (gmap string Cluster.AnyNode * Z)) : list Z :=
  omap (λ t, if online t.1 id then Some t.2 else None) ticks.

Definition run_ticks (ticks : list (gmap string Cluster.AnyNode * Z)) : Detector :=
  foldl (λ d t, heartbeat_tick t.1 d t.2) NewDetector ticks.

Lemma arrivals_app id l1 l2 : arrivals id (l1 ++ l2) =
  foldl (λ acc o, match o with
                  | OHeartbeat id' now => if String.eqb id' id then acc ++ [now] else acc
                  | OReset id' => if String.eqb id' id then [] else acc
                  end) (arrivals id l1) l2.
Proof using. unfold arrivals. by rewrite foldl_app. Qed.

Lemma tick_arrivals id (nodes : gmap string Cluster.AnyNode) now l1 :
  arrivals id (l1 ++ tick_ops nodes now) = arrivals id l1 ++ (if online nodes id then [now] else []).
Proof using.
  rewrite arrivals_app. generalize (arrivals id l1) as acc. unfold tick_ops, online. intros acc.
  pose proof (NoDup_fst_map_to_list nodes) as Hnd.
  assert (Hin : ∀ n, nodes !! id = Some n ↔ (id, n) ∈ map_to_list nodes) by (intros n; by rewrite elem_of_map_to_list).
  revert Hnd Hin. generalize (nodes !! id) as o. generalize (map_to_list nodes) as l. intros l.
  revert acc. induction l as [|[k n] l IH]; intros acc o Hnd Hin.
  - destruct o as [n|]; [|by rewrite app_nil_r]. destruct (proj1 (elem_of_nil (id, n)) (proj1 (Hin n) eq_refl)).
  - rewrite fmap_cons in Hnd. apply NoDup_cons in Hnd as [Hk Hnd]. cbn [omap list_omap fst snd].
    destruct (decide (k = id)) as [->|Hne].
    + assert (o = Some n) as -> by (apply Hin; left).
      assert (Hno : ∀ n', None = Some n' ↔ (id, n') ∈ l).
      { intros n'. split; [done|]. intros Hn'. exfalso. apply Hk. apply list_elem_of_fmap. by exists (id, n'). }
      assert (IH' := λ acc, IH acc None Hnd Hno). destruct (Cluster.State n); cbn [foldl]; rewrite ?String.eqb_refl, IH'; by rewrite !app_nil_r.
    + rewrite <- (IH acc o Hnd).
      * destruct (Cluster.State n); [|done..]. cbn [foldl]. by rewrite (proj2 (String.eqb_neq k id)).
      * intros n'. rewrite Hin, elem_of_cons. split; [intros [[= ? ?]|?]; [by subst|done]|by right].
Qed.

Lemma run_ticks_state ticks id : run_ticks ticks !! id = state_spec (online_times id ticks).
Proof using.
  assert (H : ∃ ops, run_ticks ticks = run ops ∧ arrivals id ops = online_times id ticks).
  { induction ticks as [|[nodes now] ticks (ops & IH & Ha)] using rev_ind; [by exists []|].
    exists (ops ++ tick_ops nodes now). unfold run_ticks in *. rewrite foldl_app. cbn [foldl fst snd]. rewrite IH, heartbeat_tick_ops.
    split; [unfold run; by rewrite foldl_app|]. rewrite tick_arrivals, Ha. unfold online_times. rewrite omap_app. simpl. by destruct (online nodes id). }
  destruct H as (ops & -> & <-). apply run_state.
Qed.

End phi.
End Failure.

(** ** Theorems *)

(** C21. Latency percentiles are exact. After any sequence of recordings, a node's windows hold the
    last thousand write and read latencies at most, in order, and its counters the number of each
    kind of recording; and the 50th, 95th and 99th percentiles of a snapshot are the nearest-rank
    percentiles of the window, although their rank is computed in floating point: a recorded sample,
    with at least that share of the samples up to it and less than that share below it. *)
Theorem latency_percentiles_exact (id : string) (ops : list Metrics.op) :
  let s := Metrics.Snapshot (Metrics.run id ops) in
  let writes := omap Metrics.write_of ops in
  let reads := omap Metrics.read_of ops in
  Metrics.WriteLatencyMs s = lastn 1000 writes ∧ Metrics.ReadLatencyMs s = lastn 1000 reads ∧
  Metrics.WritesTotal s = i64 (Z.of_nat (length writes)) ∧ Metrics.ReadsTotal s = i64 (Z.of_nat (length reads)) ∧
  (writes ≠ [] →
   Metrics.nearest_rank 50 (lastn 1000 writes) (Metrics.P50 (Metrics.WriteP s)) ∧
   Metrics.nearest_rank 95 (lastn 1000 writes) (Metrics.P95 (Metrics.WriteP s)) ∧
   Metrics.nearest_rank 99 (lastn 1000 writes) (Metrics.P99 (Metrics.WriteP s))) ∧
  (reads ≠ [] →
   Metrics.nearest_rank 50 (lastn 1000 reads) (Metrics.P50 (Metrics.ReadP s)) ∧
   Metrics.nearest_rank 95 (lastn 1000 reads) (Metrics.P95 (Metrics.ReadP s)) ∧
   Metrics.nearest_rank 99 (lastn 1000 reads) (Metrics.P99 (Metrics.ReadP s))).
Proof.
  intros s writes reads. destruct (Metrics.run_counts id ops) as (_ & Hw & Hr & Hwt & Hrt & _).
  unfold s, Metrics.Snapshot. cbn [Metrics.WriteLatencyMs Metrics.ReadLatencyMs Metrics.WritesTotal Metrics.ReadsTotal Metrics.WriteP
    Metrics.ReadP Metrics.P50 Metrics.P95 Metrics.P99]. rewrite Hw, Hr, Hwt, Hrt. fold writes reads.
  assert (Hne : ∀ l : list F64.f64, l ≠ [] → lastn 1000 l ≠ [] ∧ length (lastn 1000 l) ≤ 1000).
  { intros l Hl. rewrite length_lastn. split; [|lia]. intros H. apply (f_equal length) in H. rewrite length_lastn in H.
    destruct l; [done|]. simpl in H. lia. }
  split_and!; [done|done|done|done|intros [H1 H2]%Hne..];  by apply Metrics.percentiles_spec.
Qed.

(** The suspicion level of a node is determined by the last hundred and one ticks at which it was
    online. Run the heartbeat loop over any sequence of cluster states: the level of a node is 0 until
    the node has been seen online twice, and from then on is the level computed from the gaps between
    the last hundred and one such ticks and the time since the last of them; other nodes and ticks at
    which the node was paused or gone have no influence. [Suspicion] reports it for every node, as
    suspected when it reaches the threshold, which is 8 unless a positive one is given. *)
Theorem suspicion_window (Erfc Log10 : F64.f64 → F64.f64) ticks now threshold nodeIDs :
  let d := Failure.run_ticks ticks in
  (∀ id, Failure.Phi Erfc Log10 d id now = Failure.phi_spec Erfc Log10 (Failure.online_times id ticks) now) ∧
  (∀ id ns, d !! id = Some ns → length (Failure.intervals ns) ≤ Failure.maxSamples) ∧
  (∀ id, id ∈ nodeIDs →
     let phi := Failure.phi_spec Erfc Log10 (Failure.online_times id ticks) now in
     Failure.Suspicion Erfc Log10 nodeIDs d threshold now !! id = Some (Failure.MkSuspicion phi
       (F64.geb phi (if SFleb threshold F64.zero then Failure.DefaultPhiThreshold else threshold)))).
Proof.
  intros d.
  assert (Hphi : ∀ id, Failure.Phi Erfc Log10 d id now = Failure.phi_spec Erfc Log10 (Failure.online_times id ticks) now).
  { intros id. apply Failure.Phi_state, Failure.run_ticks_state. }
  split_and!; [done| |].
  - intros id ns. unfold d. rewrite Failure.run_ticks_state. unfold Failure.state_spec. destruct (Failure.online_times id ticks); [done|].
    intros [= <-]. cbn [Failure.intervals]. rewrite length_lastn. lia.
  - intros id Hin phi. unfold Failure.Suspicion. set (th := if SFleb threshold F64.zero then _ else threshold). clearbody th.
    induction nodeIDs as [|x l IH] using rev_ind; [by apply elem_of_nil in Hin|]. rewrite foldl_app. cbn [foldl].
    destruct (decide (x = id)) as [->|Hne]; [rewrite lookup_insert_eq; unfold Failure.Suspected; by rewrite Hphi|].
    rewrite lookup_insert_ne by done. apply IH. apply elem_of_app in Hin as [?|?%list_elem_of_singleton]; [done|congruence].
Qed.
