(* ===== verification/Scenarios.v ===== *)
(** * Scenarios, strategy races and custom specs

    Models [src/internal/simulation/scenarios.go], [scenario_engine.go], [scenario_yaml.go] and
    [strategy_race.go].  A script is a program over the calls it makes on the orchestrator; its meaning
    is given for any handler of those calls, so that a theorem about a script holds whatever the
    cluster answers and whatever happens to it meanwhile.  Narration, verdicts and the results they
    leave are the tracker's own operations.  Every use of [c.NodeIDs] is a call; the uses inside one
    loop header or statement see one answer.  The fifty goroutines of [ThunderingHerd] write in an
    order that is an argument.  Parsing YAML is not modelled. *)

From Stdlib Require Import Ascii.
From stdpp Require Import pretty.
From S2P Require Import Prelude Storage Conflict Node Cluster Convergence Metrics.
Import (hints) Node Cluster.
#[local] Open Scope nat_scope.

(** ** The scenario tracker *)

Module Tracker.

Record ScenarioVerdict := MkVerdict { Expected : string; Actual : string; Passed : bool }.

Record ScenarioResult := MkResult {
  Scenario : string;
  ClusterID : string;
  Narration : list string;
  Verdict : option ScenarioVerdict;
  Done : bool;
}.

Abbreviation scenarioTracker := (gmap string ScenarioResult).

Definition beginScenario (t : scenarioTracker) (clusterID name : string) : scenarioTracker :=
  <[clusterID := MkResult name clusterID [] None false]> t.

Definition narrate (t : scenarioTracker) (clusterID text : string) : scenarioTracker :=
  match t !! clusterID with
  | Some r => <[clusterID := MkResult (Scenario r) (ClusterID r) (Narration r ++ [text]) (Verdict r) (Done r)]> t
  | None => t
  end.

Definition verdict (t : scenarioTracker) (clusterID expected actual : string) (passed : bool) : scenarioTracker :=
  match t !! clusterID with
  | Some r => <[clusterID := MkResult (Scenario r) (ClusterID r) (Narration r) (Some (MkVerdict expected actual passed)) true]> t
  | None => t
  end.

(** [ScenarioResult] *)
Definition result (t : scenarioTracker) (clusterID : string) : option ScenarioResult := t !! clusterID.

End Tracker.

(** ** Programs *)

Module Script.
Import F64.

(** The calls of a script, with the type of what they return; the scripts ignore most errors. *)
Inductive call : Type → Type :=
  | Sleep (ms : Z) : call unit
  | GetCluster (id : string) : call bool
  | CreateCluster (cfg : Cluster.ClusterConfig) : call (option string)
  | DeleteCluster (id : string) : call unit
  | NodeIDs (id : string) : call (list string)
  | LeaderID (id : string) : call string
  | GetPartitions (id : string) : call (list string)
  | Dropped (id : string) : call Z
  | SetLatency (id from to : string) (ms : Z) : call unit
  | SetDropRate (id from to : string) (rate : f64) : call unit
  | Write (id nodeID key value clientID : string) : call bool
  | Read (id nodeID key clientID : string) : call (option string)
  | PauseNode (id nodeID : string) : call unit
  | ResumeNode (id nodeID : string) : call unit
  | InjectPartition (id : string) (groupA groupB : list string) : call unit
  | HealPartition (id partID : string) : call unit
  | SetClockSkew (id nodeID : string) (ms : Z) : call unit
  | RunAntiEntropy (id : string) : call unit
  | CheckConvergence (id : string) : call Convergence.ConvergenceReport
  | ConvergenceOf (id : string) : call (option Convergence.ConvergenceReport)
  | CheckLinearizable (id : string) : call (option bool)
  | MetricsSnapshot (id : string) : call Metrics.ClusterMetrics
  | CorruptReplica (id nodeID key : string) : call unit.

(** A program returns, panics, makes a call, or writes to the tracker. *)
Inductive prog (R : Type) :=
  | Ret (r : R)
  | Crash
  | Do {X} (c : call X) (k : X → prog R)
  | Narrate (id text : string) (k : prog R)
  | Verdict (id expected actual : string) (passed : bool) (k : prog R).
Arguments Ret {_} _.
Arguments Crash {_}.
Arguments Do {_ _} _ _.
Arguments Narrate {_} _ _ _.
Arguments Verdict {_} _ _ _ _ _.

(** A loop over a list, in continuation-passing style. *)
Definition each {A R} (l : list A) (body : A → prog R → prog R) (k : prog R) : prog R := foldr body k l.

(** [c.NodeIDs[i]] *)
Definition node {R} (id : string) (i : nat) (k : string → prog R) : prog R :=
  Do (NodeIDs id) (λ ids, match ids !! i with Some x => k x | None => Crash end).

(** [c.NodeIDs[i % len(c.NodeIDs)]] *)
Definition node_mod {R} (id : string) (i : nat) (k : string → prog R) : prog R :=
  Do (NodeIDs id) (λ ids, match ids with [] => Crash | _ => match ids !! (i mod length ids) with Some x => k x | None => Crash end end).

(** *** Meaning *)

Section meaning.
Context {S : Type} (h : ∀ X, call X → S → X * S).

Fixpoint run {R} (p : prog R) (t : Tracker.scenarioTracker) (s : S) : Res (R * Tracker.scenarioTracker * S) :=
  match p with
  | Ret r => Ok (r, t, s)
  | Crash => Panic
  | Do c k => let '(x, s') := h _ c s in run (k x) t s'
  | Narrate id text k => run k (Tracker.narrate t id text) s
  | Verdict id e a b k => run k (Tracker.verdict t id e a b) s
  end.
End meaning.

(** *** Properties of programs, whatever the calls answer *)

(** The cluster is there and lists at least [n] nodes. *)
Definition answer_ok (n : nat) {X} (c : call X) : X → Prop :=
  match c in call X return X → Prop with
  | NodeIDs _ => λ ids, n ≤ length ids
  | GetCluster _ => λ found, found = true
  | _ => λ _, True
  end.

(** The cluster is there and always lists fewer than [n] nodes. *)
Definition answer_short (n : nat) {X} (c : call X) : X → Prop :=
  match c in call X return X → Prop with
  | NodeIDs _ => λ ids, length ids < n
  | GetCluster _ => λ found, found = true
  | _ => λ _, True
  end.

Section programs.
Context {R : Type}.
Implicit Types p k : prog R.

(** No path panics. *)
Fixpoint safe (n : nat) (p : prog R) : Prop :=
  match p with
  | Ret _ => True
  | Crash => False
  | Do c k => ∀ x, answer_ok n c x → safe n (k x)
  | Narrate _ _ k | Verdict _ _ _ _ k => safe n k
  end.

(** Every path panics. *)
Fixpoint doomed (n : nat) (p : prog R) : Prop :=
  match p with
  | Ret _ => False
  | Crash => True
  | Do c k => ∀ x, answer_short n c x → doomed n (k x)
  | Narrate _ _ k | Verdict _ _ _ _ k => doomed n k
  end.

(** No path gives a verdict. *)
Fixpoint silent (p : prog R) : Prop :=
  match p with
  | Ret _ | Crash => True
  | Do c k => ∀ x, silent (k x)
  | Narrate _ _ k => silent k
  | Verdict _ _ _ _ _ => False
  end.

(** Every path gives one verdict, on the cluster [c], that satisfies [Q]. *)
Fixpoint closes (n : nat) (c : string) (Q : bool → Prop) (p : prog R) : Prop :=
  match p with
  | Ret _ => False
  | Crash => True
  | Do f k => ∀ x, answer_ok n f x → closes n c Q (k x)
  | Narrate _ _ k => closes n c Q k
  | Verdict id _ _ b k => id = c ∧ Q b ∧ silent k
  end.

Lemma safe_each {A} n (l : list A) body k :
  (∀ a k, safe n k → safe n (body a k)) → safe n k → safe n (each l body k).
Proof. intros Hb Hk. induction l as [|a l IH]; simpl; auto. Qed.

Lemma doomed_each {A} n (l : list A) body k :
  (∀ a k, doomed n k → doomed n (body a k)) → doomed n k → doomed n (each l body k).
Proof. intros Hb Hk. induction l as [|a l IH]; simpl; auto. Qed.

Lemma silent_each {A} (l : list A) body k :
  (∀ a k, silent k → silent (body a k)) → silent k → silent (each l body k).
Proof. intros Hb Hk. induction l as [|a l IH]; simpl; auto. Qed.

Lemma closes_each {A} n c Q (l : list A) body k :
  (∀ a k, closes n c Q k → closes n c Q (body a k)) → closes n c Q k → closes n c Q (each l body k).
Proof. intros Hb Hk. induction l as [|a l IH]; simpl; auto. Qed.

Section handler.
Context {S : Type} (h : ∀ X, call X → S → X * S).

(** Every answer satisfies [P]. *)
Definition answers (P : ∀ X, call X → X → Prop) : Prop := ∀ X (c : call X) s, P X c (h X c s).1.

Lemma safe_run n p : answers (@answer_ok n) → safe n p → ∀ t s, ∃ r, run h p t s = Ok r.
Proof.
  intros Hh. induction p as [r| |X c k IH|id text k IH|id e a b k IH]; intros Hp t s; simpl in *; [eauto|done| |auto|auto].
  pose proof (Hh X c s) as Hx. destruct (h X c s) as [x s']. by apply IH, Hp.
Qed.

Lemma doomed_run n p : answers (@answer_short n) → doomed n p → ∀ t s, run h p t s = Panic.
Proof.
  intros Hh. induction p as [r| |X c k IH|id text k IH|id e a b k IH]; intros Hp t s; simpl in *; [done|done| |auto|auto].
  pose proof (Hh X c s) as Hx. destruct (h X c s) as [x s']. by apply IH, Hp.
Qed.

(** What a run leaves of the result of a scenario, narration apart. *)
Definition outcome (t : Tracker.scenarioTracker) (c : string) : option (option Tracker.ScenarioVerdict * bool) :=
  (λ r, (Tracker.Verdict r, Tracker.Done r)) <$> t !! c.

Lemma outcome_narrate t c id text : outcome (Tracker.narrate t id text) c = outcome t c.
Proof.
  unfold outcome, Tracker.narrate. destruct (t !! id) as [r|] eqn:E; [|done].
  destruct (decide (c = id)) as [->|Hne]; [by rewrite lookup_insert_eq, E|by rewrite lookup_insert_ne].
Qed.

Lemma silent_run p c : silent p → ∀ t s r t' s', run h p t s = Ok (r, t', s') → outcome t' c = outcome t c.
Proof.
  induction p as [r| |X f k IH|id text k IH|id e a b k IH]; intros Hp t s r' t' s' Hr; simpl in *; [by simplify_eq|done| | |done].
  - destruct (h X f s) as [x s1]. by eapply IH.
  - rewrite (IH Hp _ _ _ _ _ Hr). apply outcome_narrate.
Qed.

Lemma closes_run n c Q p : answers (@answer_ok n) → closes n c Q p → ∀ t s r t' s',
  is_Some (t !! c) → run h p t s = Ok (r, t', s') → ∃ v, outcome t' c = Some (Some v, true) ∧ Q (Tracker.Passed v).
Proof.
  intros Hh. induction p as [r| |X f k IH|id text k IH|id e a b k IH]; intros Hp t s r' t' s' [r0 Ht] Hr; simpl in *; [done|done| | |].
  - pose proof (Hh X f s) as Hx. destruct (h X f s) as [x s1]. eapply IH; eauto.
  - eapply IH; [done| |done]. pose proof (outcome_narrate t c id text) as Ho. unfold outcome in Ho. rewrite Ht in Ho. simpl in Ho.
    destruct (Tracker.narrate t id text !! c); [eauto|done].
  - destruct Hp as (-> & Hq & Hs). pose proof (silent_run _ c Hs _ _ _ _ _ Hr) as Ho. unfold Tracker.verdict in Ho. rewrite Ht in Ho.
    unfold outcome in Ho at 2. rewrite lookup_insert_eq in Ho. simpl in Ho. eauto.
Qed.

End handler.
End programs.

End Script.

(** ** The catalog *)

Module Scenarios.
Import F64 Script.

Notation "x ⟵ c ; k" := (Do c (λ x, k)) (at level 100, c at next level, k at level 200, right associativity).
Notation "c ;;; k" := (Do c (λ _, k)) (at level 100, k at level 200, right associativity).

Definition boolText (cond : bool) (yes no : string) : string := if cond then yes else no.

Definition convergenceActual (r : Convergence.ConvergenceReport) : string :=
  if Convergence.Converged r then "all online replicas agree on " +:+ pretty (Convergence.Keys r) +:+ " key(s)"
  else pretty (length (Convergence.Diverged r)) +:+ " key(s) still diverge".

(** [readValue], with its continuation *)
Definition readValue {R} (id nodeID key : string) (k : string → prog R) : prog R :=
  res ⟵ Read id nodeID key "verdict-reader"; k (default "" res).

Record Scenario := MkScenario { Name : string; Strategy : string; NodeCount : Z }.

Definition Scenarios : list Scenario := [
  MkScenario "ReplicationLag" "single_leader" 4;
  MkScenario "SyncVsAsync" "single_leader" 3;
  MkScenario "LeaderFailover" "single_leader" 4;
  MkScenario "MultiLeaderConflict" "multi_leader" 3;
  MkScenario "SplitBrain" "multi_leader" 4;
  MkScenario "QuorumTuning" "leaderless" 5;
  MkScenario "ReadRepair" "leaderless" 5;
  MkScenario "NetworkPartitionHeal" "leaderless" 5;
  MkScenario "CascadingFailure" "leaderless" 5;
  MkScenario "ThunderingHerd" "leaderless" 5;
  MkScenario "HotKeyZipfian" "leaderless" 5;
  MkScenario "NetworkFlapping" "leaderless" 5;
  MkScenario "ClockSkewLWW" "leaderless" 3;
  MkScenario "CorruptReplica" "leaderless" 5
].

Definition FindScenario (name : string) : option Scenario := snd <$> list_find (λ s, Name s = name) Scenarios.

(** The configuration [RunScenario] makes; fields it leaves alone are zero values. *)
Definition base_cfg (strategy : string) (count : Z) (mode resolver : string) (n w r : Z) : Cluster.ClusterConfig :=
  Cluster.MkCfg strategy count mode resolver n w r 0 0 "" "" None.

Definition scenario_cfg (s : Scenario) : Cluster.ClusterConfig  :=
  (let name := Name s in
  let mk := base_cfg (Strategy s) (NodeCount s) in
  if String.eqb name "ReplicationLag" || String.eqb name "SyncVsAsync" then mk "async" "" 0 0 0
  else if String.eqb name "MultiLeaderConflict" || String.eqb name "SplitBrain" then mk "" "lww" 0 0 0
  else if String.eqb name "QuorumTuning" then mk "" "" 5 1 1
  else if String.eqb name "ReadRepair" then mk "" "" 5 3 3
  else if String.eqb name "NetworkPartitionHeal" then mk "" "" 5 3 2
  else if String.eqb name "CascadingFailure" || String.eqb name "ThunderingHerd" || String.eqb name "HotKeyZipfian" || String.eqb name "NetworkFlapping"
          || String.eqb name "CorruptReplica" then mk "" "" 5 2 2
  else if String.eqb name "ClockSkewLWW" then mk "" "" 3 2 2
  else mk "" "" 0 0 0)%Z.

(** [RunScenario] up to the goroutine it starts: the cluster and the script that will run on it. *)
Definition RunScenario (t : Tracker.scenarioTracker) (name : string) (create : Cluster.ClusterConfig → option string)
    : option (string * Tracker.scenarioTracker) :=
  s ← FindScenario name;
  id ← create (scenario_cfg s);
  Some (id, Tracker.beginScenario t id (Name s)).

(** *** The scripts *)

Section scripts.
Context (c : string) (herd : list nat).
Abbreviation prog := (prog unit).
Abbreviation done := (Ret tt).

(** [for partID := range c.Fabric.GetPartitions() { o.HealPartition(clusterID, partID) }] *)
Definition heal_all (k : prog) : prog := ps ⟵ GetPartitions c; each ps (λ p k, HealPartition c p ;;; k) k.

Definition replication_lag : prog :=
  ids ⟵ NodeIDs c;
  match last ids with
  | Some lastFollower =>
      if length ids <? 2 then done else
      leader ⟵ LeaderID c;
      SetLatency c leader lastFollower 500 ;;;
      each (seq 0 5) (λ i k, leader ⟵ LeaderID c; Write c leader ("key" +:+ pretty i) ("val" +:+ pretty i) "scenario-client" ;;;
                      Sleep 100 ;;; k) done
  | None => done
  end.

Definition sync_vs_async : prog :=
  each (seq 0 3) (λ i k, leader ⟵ LeaderID c;
    Write c leader ("async-key" +:+ pretty i) ("async-val" +:+ pretty i) "client-async" ;;; Sleep 50 ;;; k) done.

Definition multi_leader_conflict : prog :=
  ids ⟵ NodeIDs c;
  if 3 <=? length ids then
    node c 0 (λ n0, Write c n0 "conflict-key" "initial" "client-0" ;;;
    Sleep 100 ;;;
    ids ⟵ NodeIDs c;
    each (imap pair ids) (λ '(i, a) k, each (drop (S i) ids) (λ b k, InjectPartition c [a] [b] ;;; k) k) (
    Sleep 50 ;;;
    ids ⟵ NodeIDs c;
    each (imap pair ids) (λ '(i, nodeID) k,
      Write c nodeID "conflict-key" ("value-from-" +:+ nodeID) ("client-" +:+ pretty i) ;;; Sleep 20 ;;; k) (
    Sleep 500 ;;;
    heal_all done)))
  else done.

Definition split_brain : prog :=
  ids ⟵ NodeIDs c;
  match ids with
  | a0 :: a1 :: b0 :: b1 :: rest =>
      InjectPartition c [a0; a1] (b0 :: b1 :: rest) ;;;
      Sleep 50 ;;;
      Write c a0 "split-key" "from-group-a" "client-a" ;;;
      Write c b0 "split-key" "from-group-b" "client-b" ;;;
      Sleep 1000 ;;;
      heal_all done
  | _ => done
  end.

Definition quorum_tuning : prog :=
  each (seq 0 5) (λ i k, node c 0 (λ n0,
    Write c n0 ("quorum-key-" +:+ pretty i) ("value-" +:+ pretty i) "scenario-client" ;;; Sleep 50 ;;; k)) done.

Definition read_repair : prog :=
  ids ⟵ NodeIDs c;
  if 3 <=? length ids then
    node c 0 (λ n0, Write c n0 "repair-key" "repair-value" "scenario-client" ;;;
    Sleep 100 ;;;
    node c 1 (λ n1, PauseNode c n1 ;;;
    node c 2 (λ n2, PauseNode c n2 ;;;
    Sleep 50 ;;;
    node c 0 (λ n0, Write c n0 "repair-key" "updated-repair-value" "scenario-client" ;;;
    Sleep 50 ;;;
    node c 1 (λ n1, ResumeNode c n1 ;;;
    node c 2 (λ n2, ResumeNode c n2 ;;;
    node c 0 (λ n0, Read c n0 "repair-key" "scenario-client" ;;; done)))))))
  else done.

(** [RunAntiEntropy], then the verdict of the convergence check *)
Definition reconcile_verdict (expected : string) : prog :=
  RunAntiEntropy c ;;;
  conv ⟵ CheckConvergence c;
  Verdict c expected (convergenceActual conv) (Convergence.Converged conv) done.

Definition network_partition_heal : prog :=
  ids ⟵ NodeIDs c;
  if 5 <=? length ids then
    InjectPartition c (take 2 ids) (drop 2 ids) ;;;
    Sleep 50 ;;;
    ids ⟵ NodeIDs c;
    each (imap pair ids) (λ '(i, nodeID) k,
      Write c nodeID ("partition-key-" +:+ pretty i) ("partition-val-" +:+ pretty i) ("client-" +:+ pretty i) ;;; Sleep 20 ;;; k) (
    Sleep 500 ;;;
    heal_all (
    Narrate c "partition healed; anti-entropy reconciles the divergent keys" (
    reconcile_verdict "all replicas converge after the heal")))
  else done.

Definition cascading_failure : prog :=
  Narrate c "steady state: writing under a healthy 5-node quorum (W=2)" (
  each (seq 0 4) (λ i k, node c 0 (λ n0, Write c n0 ("cf-" +:+ pretty i) "v" "load" ;;; k)) (
  node c 1 (λ _, Narrate c "node-1 overloads and fails; its share of the load shifts to peers" (
  node c 1 (λ n1, PauseNode c n1 ;;;
  Sleep 120 ;;;
  node c 2 (λ _, Narrate c "the extra load topples node-2 as well (retry storm cascades)" (
  node c 2 (λ n2, PauseNode c n2 ;;;
  Sleep 120 ;;;
  node c 0 (λ n0, ok ⟵ Write c n0 "cf-after" "v" "load";
  Verdict c "cascading node loss degrades but sloppy quorum keeps writes alive"
    (boolText ok "write still succeeded via remaining/stand-in nodes" "write failed — quorum lost") ok done))))))))).

Definition thundering_herd : prog :=
  Narrate c "50 clients stampede the same key simultaneously" (
  before ⟵ Dropped c;
  each herd (λ n k, node_mod c n (λ x, Write c x "herd-key" "v" ("c" +:+ pretty n) ;;; k)) (
  Sleep 150 ;;;
  after ⟵ Dropped c;
  let dropped := (after - before)%Z in
  Narrate c ("herd absorbed; back-pressure drops during the burst: " +:+ pretty dropped) (
  Verdict c "the herd is served (back-pressure may shed some replication traffic)"
    ("cluster stayed up; " +:+ pretty dropped +:+ " messages shed under load") true done))).

Definition hot_key_zipfian : prog :=
  let cold_at i := i mod 5 =? 0 in
  let cold := length (filter (λ i, cold_at i = true) (seq 0 40)) in
  let hot := length (filter (λ i, cold_at i = false) (seq 0 40)) in
  Narrate c "Zipfian traffic: ~80% of writes hit one hot key" (
  each (seq 0 40) (λ i k, node_mod c i (λ x,
    Write c x (if cold_at i then "cold-" +:+ pretty i else "hot-key") "v" "zipf" ;;; k)) (
  Narrate c ("hot-key writes: " +:+ pretty hot +:+ ", cold-key writes: " +:+ pretty cold) (
  Verdict c "one hot key dominates the workload"
    (boolText (cold * 2 <? hot) "hot key took the large majority of traffic" "load was more even than expected")
    (cold * 2 <? hot) done))).

Definition network_flapping : prog :=
  ids ⟵ NodeIDs c;
  if 2 <=? length ids then
    node c 0 (λ a, node c 1 (λ b,
    Narrate c "a link between two nodes flaps up/down repeatedly (gray failure)" (
    each (seq 0 4) (λ _ k, SetDropRate c a b (of_Z 1) ;;; Sleep 60 ;;; SetDropRate c a b (of_Z 0) ;;; Sleep 60 ;;; k) (
    Narrate c "link restored; writes flow again" (
    ok ⟵ Write c a "flap-key" "v" "flap";
    Verdict c "the cluster tolerates a flapping link and recovers"
      (boolText ok "post-flap write succeeded" "post-flap write failed") ok done)))))
  else done.

Definition clock_skew_lww : prog :=
  ids ⟵ NodeIDs c;
  if 2 <=? length ids then
    node c 0 (λ skewed, node c 1 (λ normal,
    Narrate c "node-1's physical clock is skewed 5s into the PAST" (
    SetClockSkew c skewed (-5000) ;;;
    Sleep 30 ;;;
    Narrate c "the skewed node makes a write, then a causally-later write lands on a normal node" (
    Write c skewed "skew-key" "first-from-skewed" "c1" ;;;
    Sleep 50 ;;;
    Write c normal "skew-key" "second-causally-later" "c1" ;;;
    Sleep 150 ;;;
    RunAntiEntropy c ;;;
    readValue c normal "skew-key" (λ v,
    let won := String.eqb v "second-causally-later" in
    Verdict c "HLC preserves causal order: the later write wins despite the backward skew"
      (boolText won "later write survived (HLC beat the wall-clock skew)" "earlier write incorrectly won") won done)))))
  else done.

Definition corrupt_replica : prog :=
  Narrate c "writing a good value to the cluster" (
  node c 0 (λ n0, Write c n0 "corrupt-key" "correct-value" "c1" ;;;
  Sleep 120 ;;;
  node c 3 (λ _, Narrate c "one replica's on-disk value is corrupted (stale/bad copy)" (
  node c 3 (λ n3, CorruptReplica c n3 "corrupt-key" ;;;
  Sleep 30 ;;;
  Narrate c "anti-entropy compares Merkle trees and repairs the corrupt replica" (
  reconcile_verdict "anti-entropy heals the corrupt replica; all replicas agree")))))).

Definition setupScenario (name : string) : prog :=
  Sleep 200 ;;;
  found ⟵ GetCluster c;
  if negb found then done
  else if String.eqb name "ReplicationLag" then replication_lag
  else if String.eqb name "SyncVsAsync" then sync_vs_async
  else if String.eqb name "MultiLeaderConflict" then multi_leader_conflict
  else if String.eqb name "SplitBrain" then split_brain
  else if String.eqb name "QuorumTuning" then quorum_tuning
  else if String.eqb name "ReadRepair" then read_repair
  else if String.eqb name "NetworkPartitionHeal" then network_partition_heal
  else if String.eqb name "CascadingFailure" then cascading_failure
  else if String.eqb name "ThunderingHerd" then thundering_herd
  else if String.eqb name "HotKeyZipfian" then hot_key_zipfian
  else if String.eqb name "NetworkFlapping" then network_flapping
  else if String.eqb name "ClockSkewLWW" then clock_skew_lww
  else if String.eqb name "CorruptReplica" then corrupt_replica
  else done.

End scripts.

(** [corruptReplica]: an older, bad value on one replica *)
Definition corrupt_entry (n : Cluster.AnyNode) (nodeID key : string) : KVEntry :=
  let ts := match Store.GetRaw (Cluster.GetStore n) key with Some cur => i64 (kv_Timestamp cur - 1000) | None => 1%Z end in
  MkKVEntry key (Some "CORRUPT") (Some ∅) ts nodeID false 0.

Definition corruptReplica {float} (c : @Cluster.Cluster float) (nodeID key : string) : @Cluster.Cluster float :=
  match Cluster.Nodes c !! nodeID with
  | None => c
  | Some n => Cluster.with_nodes c (<[nodeID := Cluster.SetStore n (Store.Set_ (Cluster.GetStore n) (corrupt_entry n nodeID key))]> (Cluster.Nodes c))
  end.

(** ** Custom scenarios *)

Record ScenarioSpecStep := MkStep {
  Action : string;
  Node : string;
  Key : string;
  Value : string;
  Ms : Z;
  Group : list string;
  Group2 : list string;
  Narration : string;
}.

Record ScenarioSpec := MkSpec {
  sp_Name : string;
  sp_Strategy : string;
  sp_NodeCount : Z;
  sp_QuorumN : Z;
  sp_QuorumW : Z;
  sp_QuorumR : Z;
  Steps : list ScenarioSpecStep;
}.

Definition strategyFromSpec (s : string) : option string :=
  if String.eqb s "leaderless" then Some "leaderless"
  else if String.eqb s "single_leader" || String.eqb s "single-leader" then Some "single_leader"
  else if String.eqb s "multi_leader" || String.eqb s "multi-leader" then Some "multi_leader"
  else if String.eqb s "raft" then Some "raft"
  else None.

(** [fmt.Sscanf(ref, "n%d", &idx)]: the letter, blanks, a sign, digits; what follows is not read. *)
Definition digit (a : ascii) : option Z :=
  let n := Z.of_nat (Ascii.nat_of_ascii a) in if (48 <=? n)%Z && (n <=? 57)%Z then Some (n - 48)%Z else None.

Fixpoint digits (s : string) (acc : option Z) : option Z :=
  match s with
  | String a s' => match digit a with Some d => digits s' (Some (10 * default 0 acc + d)%Z) | None => acc end
  | EmptyString => acc
  end.

Definition blank (a : ascii) : bool := let n := Ascii.nat_of_ascii a in (n =? 32) || (n =? 9) || (n =? 11) || (n =? 12).

Fixpoint skip_blanks (s : string) : string :=
  match s with String a s' => if blank a then skip_blanks s' else s | EmptyString => s end.

Definition scan_ref (ref : string) : option Z :=
  match ref with
  | String "n"%char s =>
      let s := skip_blanks s in
      let '(neg, s) := match s with
                       | String "-"%char s' => (true, s')
                       | String "+"%char s' => (false, s')
                       | _ => (false, s)
                       end in
      v ← digits s None;
      let v := if neg then (- v)%Z else v in
      if (- two63 <=? v)%Z && (v <? two63)%Z then Some v else None
  | _ => None
  end.

Definition resolveNode (ids : list string) (ref : string) : string :=
  match scan_ref ref with
  | None => ""
  | Some idx => if (idx <? 0)%Z || (Z.of_nat (length ids) <=? idx)%Z then "" else default "" (ids !! Z.to_nat idx)
  end.

Definition resolveGroup (ids : list string) (refs : list string) : list string :=
  filter (λ id, id ≠ "") (resolveNode ids <$> refs).

Definition spec_cfg (spec : ScenarioSpec) (strategy : string) : Cluster.ClusterConfig :=
  base_cfg strategy (sp_NodeCount spec) "" "" (sp_QuorumN spec) (sp_QuorumW spec) (sp_QuorumR spec).

Definition RunScenarioSpec (t : Tracker.scenarioTracker) (spec : option ScenarioSpec) (create : Cluster.ClusterConfig → option string)
    : option (string * Tracker.scenarioTracker) :=
  spec ← spec;
  strategy ← strategyFromSpec (sp_Strategy spec);
  id ← create (spec_cfg spec strategy);
  Some (id, Tracker.beginScenario t id (if String.eqb (sp_Name spec) "" then "CustomScenario" else sp_Name spec)).

(** One step of a custom scenario; an action that is not known does nothing. *)
Definition spec_step (c : string) (step : ScenarioSpecStep) (k : prog unit) : prog unit :=
  let a := Action step in
  let act : prog unit :=
    if String.eqb a "write" then ids ⟵ NodeIDs c; Write c (resolveNode ids (Node step)) (Key step) (Value step) "spec-client" ;;; k
    else if String.eqb a "read" then ids ⟵ NodeIDs c; Read c (resolveNode ids (Node step)) (Key step) "spec-client" ;;; k
    else if String.eqb a "pause" then ids ⟵ NodeIDs c; PauseNode c (resolveNode ids (Node step)) ;;; k
    else if String.eqb a "resume" then ids ⟵ NodeIDs c; ResumeNode c (resolveNode ids (Node step)) ;;; k
    else if String.eqb a "partition" then
      ids ⟵ NodeIDs c; InjectPartition c (resolveGroup ids (Group step)) (resolveGroup ids (Group2 step)) ;;; k
    else if String.eqb a "heal" then heal_all c k
    else if String.eqb a "skew" then ids ⟵ NodeIDs c; SetClockSkew c (resolveNode ids (Node step)) (Ms step) ;;; k
    else if String.eqb a "sleep" || String.eqb a "pause_ms" then Sleep (Ms step) ;;; k
    else if String.eqb a "anti_entropy" then RunAntiEntropy c ;;; k
    else k in
  if String.eqb (Narration step) "" then act else Narrate c (Narration step) act.

Definition runScenarioSpecSteps (c : string) (spec : ScenarioSpec) : prog unit :=
  Sleep 200 ;;;
  found ⟵ GetCluster c;
  if negb found then Ret tt
  else
    each (Steps spec) (spec_step c) (
    conv ⟵ CheckConvergence c;
    Verdict c "cluster converges" (convergenceActual conv) (Convergence.Converged conv) (Ret tt)).

(** ** Strategy races *)

Record RaceResult := MkRace {
  r_Strategy : string;
  r_ClusterID : string;
  Writes : nat;
  WriteErrors : nat;
  AvgWriteLatencyMs : f64;
  Converged : bool;
  Linearizable : bool;
}.

Record RaceReport := MkReport { Ops : Z; Results : list RaceResult }.

(** The nodes are visited in the order of the model's maps. *)
Definition avgWriteLatency (snap : Metrics.ClusterMetrics) : f64 :=
  let '(sum, n) := foldl (λ '(sum, n) p, let lat := Metrics.AvgWriteLatency p.2 in
      if ltb zero lat then (add sum lat, S n) else (sum, n)) (zero, 0) (map_to_list (Metrics.Nodes snap)) in
  if n =? 0 then zero else div sum (of_Z (Z.of_nat n)).

(** The writes of one strategy, then [k] with the numbers that succeeded and failed. *)
Fixpoint race_writes {R} (c client : string) (l : list nat) (ok err : nat) (k : nat → nat → prog R) : prog R :=
  match l with
  | [] => k ok err
  | i :: l =>
      b ⟵ Write c "" ("race-" +:+ pretty i) ("v-" +:+ pretty i) client;
      if b then race_writes c client l (S ok) err k else race_writes c client l ok (S err) k
  end.

Definition race_one {R} (s : string) (nodeCount : Z) (ops : nat) (failed : prog R) (k : RaceResult → prog R) : prog R :=
  created ⟵ CreateCluster (base_cfg s nodeCount "" "" 0 0 0);
  match created with
  | None => failed
  | Some c =>
      let client := "race-" +:+ s in
      race_writes c client (seq 0 ops) 0 0 (λ ok err,
      each (seq 0 ops) (λ i k, Read c "" ("race-" +:+ pretty i) client ;;; k) (
      snap ⟵ MetricsSnapshot c;
      conv ⟵ ConvergenceOf c;
      lin ⟵ CheckLinearizable c;
      DeleteCluster c ;;;
      k (MkRace s c ok err (avgWriteLatency snap) (match conv with Some r => Convergence.Converged r | None => false end) (default false lin))))
  end.

Fixpoint race_all (l : list string) (nodeCount : Z) (ops : nat) (acc : list RaceResult) (k : list RaceResult → prog (option RaceReport))
    : prog (option RaceReport) :=
  match l with
  | [] => k acc
  | s :: l => race_one s nodeCount ops (Ret None) (λ r, race_all l nodeCount ops (acc ++ [r]) k)
  end.

Definition RunStrategyRace (strategies : list string) (nodeCount ops : Z) : prog (option RaceReport) :=
  let nodeCount := if (nodeCount <=? 0)%Z then 3%Z else nodeCount in
  let ops := if (ops <=? 0)%Z then 20%Z else ops in
  race_all strategies nodeCount (Z.to_nat ops) [] (λ rs, Ret (Some (MkReport ops rs))).

(** ** Proofs about the catalog *)

(** The number of nodes a script must find whenever it looks. *)
Definition needs (name : string) : nat :=
  if String.eqb name "CorruptReplica" then 4
  else if String.eqb name "ReadRepair" || String.eqb name "CascadingFailure" then 3
  else if String.eqb name "NetworkFlapping" || String.eqb name "ClockSkewLWW" then 2
  else if String.eqb name "MultiLeaderConflict" || String.eqb name "QuorumTuning" || String.eqb name "ThunderingHerd"
          || String.eqb name "HotKeyZipfian" then 1
  else 0.

(** The number of nodes a scenario is created with. *)
Definition catalog_count (name : string) : nat := match FindScenario name with Some s => Z.to_nat (NodeCount s) | None => 0 end.

(** The scripts that look without checking how many nodes there are. *)
Definition unguarded : list string := ["CorruptReplica"; "CascadingFailure"; "QuorumTuning"; "ThunderingHerd"; "HotKeyZipfian"].

(** The scripts that end with a verdict, and those whose verdict does not depend on the cluster. *)
Definition judged : list string :=
  ["NetworkPartitionHeal"; "CascadingFailure"; "ThunderingHerd"; "HotKeyZipfian"; "NetworkFlapping"; "ClockSkewLWW"; "CorruptReplica"].
Definition foregone : list string := ["ThunderingHerd"; "HotKeyZipfian"].

Section lookups.
Context {R : Type}.
Implicit Types k : string → prog R.

Lemma safe_node n c i k : i < n → (∀ x, safe n (k x)) → safe n (node c i k).
Proof.
  intros Hi Hk ids Hids. simpl in Hids. destruct (lookup_lt_is_Some_2 ids i) as [x ->]; [lia|]. apply Hk.
Qed.

Lemma safe_node_mod n c i k : 0 < n → (∀ x, safe n (k x)) → safe n (node_mod c i k).
Proof.
  intros Hi Hk ids Hids. simpl in Hids. destruct ids as [|y ids]; [simpl in Hids; lia|].
  destruct (lookup_lt_is_Some_2 (y :: ids) (i mod length (y :: ids))) as [x ->]; [by apply Nat.mod_upper_bound|]. apply Hk.
Qed.

Lemma doomed_node n c i k : n ≤ S i → doomed n (node c i k).
Proof. intros Hi ids Hids. simpl in Hids. rewrite lookup_ge_None_2 by lia. done. Qed.

Lemma doomed_node_pass n c i k : (∀ x, doomed n (k x)) → doomed n (node c i k).
Proof. intros Hk ids _. by destruct (ids !! i). Qed.

Lemma doomed_node_mod c i k : doomed 1 (node_mod c i k).
Proof. intros ids Hids. simpl in Hids. destruct ids; [done|simpl in Hids; lia]. Qed.

Lemma closes_node n c id Q i k : (∀ x, closes n c Q (k x)) → closes n c Q (node id i k).
Proof. intros Hk ids _. by destruct (ids !! i). Qed.

Lemma closes_node_mod n c id Q i k : (∀ x, closes n c Q (k x)) → closes n c Q (node_mod id i k).
Proof. intros Hk ids _. destruct ids as [|y ids]; [done|]. by destruct ((y :: ids) !! _). Qed.

Lemma silent_node c i k : (∀ x, silent (k x)) → silent (node c i k).
Proof. intros Hk ids. by destruct (ids !! i). Qed.
End lookups.

(** Follow a script call by call. *)
Ltac walk :=
  repeat match goal with
  | |- safe _ (each _ _ _) => apply safe_each; [intros|]
  | |- safe _ (node _ _ _) => apply safe_node; [lia|intros]
  | |- safe _ (node_mod _ _ _) => apply safe_node_mod; [lia|intros]
  | |- silent (each _ _ _) => apply silent_each; [intros|]
  | |- silent (node _ _ _) => apply silent_node; intros
  | |- closes _ _ _ (each _ _ _) => apply closes_each; [intros|]
  | |- closes _ _ _ (node _ _ _) => apply closes_node; intros
  | |- closes _ _ _ (node_mod _ _ _) => apply closes_node_mod; intros
  | |- doomed _ (node _ _ _) => first [apply doomed_node; lia|apply doomed_node_pass; intros]
  | |- doomed _ (each _ _ _) => apply doomed_each; [intros|]
  | |- doomed _ (node_mod _ _ _) => apply doomed_node_mod
  | |- safe _ ((match ?x with (_, _) => _ end) _) => destruct x
  | |- silent ((match ?x with (_, _) => _ end) _) => destruct x
  | |- closes _ _ _ ((match ?x with (_, _) => _ end) _) => destruct x
  | |- safe _ (if ?b then _ else _) => destruct b
  | |- silent (if ?b then _ else _) => destruct b
  | |- safe _ (match ?l with [] => _ | _ => _ end) => destruct l
  | |- silent (match ?l with [] => _ | _ => _ end) => destruct l
  | |- safe _ (match ?l with Some _ => _ | None => _ end) => destruct l
  | |- silent (match ?l with Some _ => _ | None => _ end) => destruct l
  | |- safe _ (Do _ _) => intros ? ?
  | |- silent (Do _ _) => intros ?
  | |- closes _ _ _ (Do _ _) => intros ? ?
  | |- doomed _ (Do _ _) => intros ? ?
  | |- safe ?n (Narrate _ _ ?k) => change (safe n k)
  | |- safe ?n (Verdict _ _ _ _ ?k) => change (safe n k)
  | |- silent (Narrate _ _ ?k) => change (silent k)
  | |- closes ?n ?c ?Q (Narrate _ _ ?k) => change (closes n c Q k)
  | |- doomed ?n (Narrate _ _ ?k) => change (doomed n k)
  | |- closes _ _ _ (Verdict _ _ _ _ _) => split; [reflexivity|]
  | |- safe _ (Ret _) => exact I
  | |- silent (Ret _) => exact I
  end; try assumption.

Section catalog.
Context (c : string) (herd : list nat).

Lemma scripts_safe name : safe (needs name) (setupScenario c herd name).
Proof.
  intros [] _ found Hf. simpl in Hf. subst found. cbn [negb].
  repeat match goal with
  | |- safe _ (if String.eqb name ?s then _ else _) => destruct (String.eqb_spec name s) as [->|]; [change (needs s) with ltac:(let n := eval vm_compute in (needs s) in exact n)|]
  end; [..|done].
  - unfold replication_lag. walk.
  - unfold sync_vs_async. walk.
  - unfold multi_leader_conflict, heal_all. walk.
  - unfold split_brain, heal_all. walk.
  - unfold quorum_tuning. walk.
  - unfold read_repair. walk.
  - unfold network_partition_heal, heal_all, reconcile_verdict. walk.
  - unfold cascading_failure. walk.
  - unfold thundering_herd. cbv zeta. walk.
  - unfold hot_key_zipfian. cbv zeta. walk.
  - unfold network_flapping. walk.
  - unfold clock_skew_lww, readValue. cbv zeta. walk.
  - unfold corrupt_replica, reconcile_verdict. walk.
Qed.

Lemma scripts_doomed name : name ∈ unguarded → herd ≠ [] → doomed (needs name) (setupScenario c herd name).
Proof.
  intros Hin Hherd [] _ found Hf. simpl in Hf. subst found.
  repeat (apply elem_of_cons in Hin as [->|Hin]); [..|by apply elem_of_nil in Hin]; cbn [negb String.eqb Ascii.eqb Bool.eqb andb orb].
  - change (doomed 4 (corrupt_replica c)). unfold corrupt_replica. walk.
  - change (doomed 3 (cascading_failure c)). unfold cascading_failure. walk.
  - change (doomed 1 (quorum_tuning c)). unfold quorum_tuning. cbn [seq each foldr]. walk.
  - change (doomed 1 (thundering_herd c herd)). unfold thundering_herd. cbv zeta.
    destruct herd as [|i l]; [done|]. intros d _. cbn [each foldr]. walk.
  - change (doomed 1 (hot_key_zipfian c)). unfold hot_key_zipfian. cbv zeta. cbn [seq each foldr]. walk.
Qed.

Lemma scripts_silent name : name ∈ (Name <$> Scenarios) → name ∉ judged → silent (setupScenario c herd name).
Proof.
  intros Hin Hnot [] found. destruct found; [|exact I]. cbn [negb]. unfold Scenarios in Hin. cbn [fmap list_fmap Name] in Hin.
  repeat (apply elem_of_cons in Hin as [->|Hin]); [..|by apply elem_of_nil in Hin];
    try (exfalso; apply Hnot, (bool_decide_eq_true_1 (_ ∈ judged)); reflexivity); cbn [String.eqb Ascii.eqb Bool.eqb andb orb].
  - unfold replication_lag. walk.
  - unfold sync_vs_async. walk.
  - exact I.
  - unfold multi_leader_conflict, heal_all. walk.
  - unfold split_brain, heal_all. walk.
  - unfold quorum_tuning. walk.
  - unfold read_repair. walk.
Qed.

Definition verdict_ok (name : string) (b : bool) : Prop := name ∈ foregone → b = true.

Lemma not_foregone name b : bool_decide (name ∈ foregone) = false → verdict_ok name b.
Proof. intros H Hin. by apply bool_decide_eq_false in H. Qed.

Lemma scripts_close name n : name ∈ judged → catalog_count name ≤ n → closes n c (verdict_ok name) (setupScenario c herd name).
Proof.
  intros Hin Hn [] _ found Hf. simpl in Hf. subst found. cbn [negb].
  repeat (apply elem_of_cons in Hin as [->|Hin]); [..|by apply elem_of_nil in Hin]; 
    cbn [String.eqb Ascii.eqb Bool.eqb andb orb]; vm_compute in Hn.
  - unfold network_partition_heal, heal_all, reconcile_verdict. intros ids Hids. simpl in Hids.
    destruct (Nat.leb_spec 5 (length ids)); [|lia]. walk. split; [|exact I]. by apply not_foregone.
  - unfold cascading_failure. walk. split; [|exact I]. by apply not_foregone.
  - unfold thundering_herd. cbv zeta. walk. done.
  - unfold hot_key_zipfian. cbv zeta. walk. split; [|exact I]. done.
  - unfold network_flapping. intros ids Hids. simpl in Hids. destruct (Nat.leb_spec 2 (length ids)); [|lia]. walk.
    split; [|exact I]. by apply not_foregone.
  - unfold clock_skew_lww, readValue. cbv zeta. intros ids Hids. simpl in Hids. destruct (Nat.leb_spec 2 (length ids)); [|lia]. walk.
    split; [|exact I]. by apply not_foregone.
  - unfold corrupt_replica, reconcile_verdict. walk. split; [|exact I]. by apply not_foregone.
Qed.
End catalog.

Lemma needs_catalog name : needs name ≤ catalog_count name ∨ FindScenario name = None.
Proof.
  destruct (FindScenario name) as [s|] eqn:E; [left|by right]. unfold FindScenario in E.
  apply fmap_Some in E as ([i s'] & (Hs & Hn & _)%list_find_Some & _). simpl in Hn. subst name.
  apply list_elem_of_lookup_2 in Hs. unfold Scenarios in Hs.
  repeat (apply elem_of_cons in Hs as [->|Hs]; [by apply (bool_decide_unpack (_ ≤ _)); vm_compute|]). by apply elem_of_nil in Hs.
Qed.

Lemma answers_weaken {S} (h : ∀ X, call X → S → X * S) m n : m ≤ n → answers h (@answer_ok n) → answers h (@answer_ok m).
Proof. intros Hmn Hh X c s. specialize (Hh X c s). destruct c; simpl in *; try done. lia. Qed.

(** A custom scenario never panics and always ends with the verdict of the convergence check. *)
Lemma spec_safe c spec : safe 0 (runScenarioSpecSteps c spec).
Proof.
  intros [] _ found Hf. simpl in Hf. subst found. cbn [negb]. walk. unfold spec_step, heal_all. destruct (String.eqb (Narration a) ""); walk.
Qed.

(** *** Corruption *)

Lemma corrupt_online {float} (c : @Cluster.Cluster float) nodeID key n :
  Cluster.Nodes c !! nodeID = Some n → Cluster.State n = Node.StateOnline →
  Convergence.online (corruptReplica c nodeID key) =
    <[nodeID := Cluster.SetStore n (Store.Set_ (Cluster.GetStore n) (corrupt_entry n nodeID key))]> (Convergence.online c).
Proof.
  intros Hn Hst. unfold corruptReplica. rewrite Hn. unfold Convergence.online. simpl.
  rewrite map_filter_insert_True; [done|]. simpl. by rewrite Convergence.State_SetStore.
Qed.

Lemma corrupt_raw n nodeID key : ∃ e,
  Store.GetRaw (Cluster.GetStore (Cluster.SetStore n (Store.Set_ (Cluster.GetStore n) (corrupt_entry n nodeID key)))) key = Some e ∧
  kv_Timestamp e = kv_Timestamp (corrupt_entry n nodeID key) ∧ Convergence.content e = Some "CORRUPT".
Proof. rewrite Convergence.GetStore_SetStore. unfold Store.GetRaw, Store.Set_. simpl. rewrite lookup_insert_eq. eauto. Qed.

(** The newest version of a key stays the newest when another replica is corrupted. *)
Lemma corrupt_newest {float} (c : @Cluster.Cluster float) nodeID key n cur b nb e :
  Cluster.Nodes c !! nodeID = Some n → Cluster.State n = Node.StateOnline → Store.GetRaw (Cluster.GetStore n) key = Some cur →
  in_i64 (kv_Timestamp cur - 1000) → b ≠ nodeID → Convergence.online c !! b = Some nb → Store.GetRaw (Cluster.GetStore nb) key = Some e →
  Convergence.newest (Convergence.online c) key e → Convergence.newest (Convergence.online (corruptReplica c nodeID key)) key e.
Proof.
  intros Hn Hst Hcur Hr Hb Hnb He [_ Hmax]. rewrite (corrupt_online c nodeID key n Hn Hst). split.
  - exists b, nb. by rewrite lookup_insert_ne.
  - intros a x e' Ha He'. destruct (decide (a = nodeID)) as [->|Hne].
    + rewrite lookup_insert_eq in Ha. injection Ha as <-. 
      destruct (corrupt_raw n nodeID key) as (e0 & Hraw & Hts & _). rewrite Hraw in He'. injection He' as <-.
      assert (Hon : Convergence.online c !! nodeID = Some n) by (by apply map_lookup_filter_Some).
      pose proof (Resolver.stamp_le_ts _ _ (Hmax nodeID n cur Hon Hcur)) as Hle. apply Resolver.stamp_le_lt.
      rewrite Hts. unfold corrupt_entry. rewrite Hcur. simpl. rewrite i64_id by done. lia.
    + rewrite lookup_insert_ne in Ha by done. by apply (Hmax a x).
Qed.

(** *** Races *)

(** A handler that also notes the clusters created and not deleted yet. *)
Definition noting {S} (h : ∀ X, call X → S → X * S) : ∀ X, call X → S * list string → X * (S * list string) :=
  λ X f, match f in call X return S * list string → X * (S * list string) with
         | CreateCluster cfg => λ s, let '(r, s') := h _ (CreateCluster cfg) s.1 in
             (r, (s', match r with Some id => id :: s.2 | None => s.2 end))
         | DeleteCluster id => λ s, let '(r, s') := h _ (DeleteCluster id) s.1 in (r, (s', filter (λ x, x ≠ id) s.2))
         | f => λ s, let '(r, s') := h _ f s.1 in (r, (s', s.2))
         end.

Section race.
Context {S : Type} (h : ∀ X, call X → S → X * S).
Abbreviation run_noting := (run (noting h)).

Lemma race_writes_run c client l (k : nat → nat → prog (option RaceReport)) : ∀ ok err t s,
  ∃ ok' err' s', run_noting (race_writes c client l ok err k) t s = run_noting (k ok' err') t s' ∧ s'.2 = s.2 ∧ ok' + err' = ok + err + length l.
Proof.
  induction l as [|i l IH]; intros ok err t s; cbn [race_writes].
  - exists ok, err, s. split_and!; [done|done|simpl; lia].
  - cbn [run noting]. destruct (h _ _ s.1) as [b s1]. destruct b.
    + destruct (IH (Datatypes.S ok) err t (s1, s.2)) as (ok' & err' & s' & H1 & H2 & H3). exists ok', err', s'. split_and!; [done|done|simpl; lia].
    + destruct (IH ok (Datatypes.S err) t (s1, s.2)) as (ok' & err' & s' & H1 & H2 & H3). exists ok', err', s'. split_and!; [done|done|simpl; lia].
Qed.

Lemma race_reads_run c client (l : list nat) (k : prog (option RaceReport)) : ∀ t s,
  ∃ s', run_noting (each l (λ i k, Read c "" ("race-" +:+ pretty i) client ;;; k) k) t s = run_noting k t s' ∧ s'.2 = s.2.
Proof.
  induction l as [|i l IH]; intros t s; [by exists s|]. cbn [each foldr run noting]. destruct (h _ _ s.1) as [b s1].
  destruct (IH t (s1, s.2)) as (s' & H1 & H2). exists s'. split; [exact H1|exact H2].
Qed.

Lemma race_one_run st n ops (k : RaceResult → prog (option RaceReport)) t s : s.2 = [] →
  (∃ s', run_noting (race_one st n ops (Ret None) k) t s = Ok (None, t, s') ∧ s'.2 = []) ∨
  ∃ r s', run_noting (race_one st n ops (Ret None) k) t s = run_noting (k r) t s' ∧ s'.2 = [] ∧
    r_Strategy r = st ∧ Writes r + WriteErrors r = ops.
Proof.
  intros Hs. unfold race_one. cbn [run noting]. destruct (h _ _ s.1) as [[c|] s1]; cbn [run]; [right|left; exists (s1, s.2); done].
  destruct (race_writes_run c ("race-" +:+ st) (seq 0 ops) (λ ok err,
      each (seq 0 ops) (λ i k, Read c "" ("race-" +:+ pretty i) ("race-" +:+ st) ;;; k) (
      snap ⟵ MetricsSnapshot c; conv ⟵ ConvergenceOf c; lin ⟵ CheckLinearizable c; DeleteCluster c ;;;
      k (MkRace st c ok err (avgWriteLatency snap) (match conv with Some r => Convergence.Converged r | None => false end) (default false lin))))
    0 0 t (s1, c :: s.2)) as (ok & err & s2 & -> & H2 & Hsum).
  edestruct (race_reads_run c ("race-" +:+ st) (seq 0 ops)) as (s3 & -> & H3).
  cbn [run noting]. destruct (h _ (MetricsSnapshot c) _) as [snap s4]. destruct (h _ (ConvergenceOf c) _) as [conv s5].
  destruct (h _ (CheckLinearizable c) _) as [lin s6]. destruct (h _ (DeleteCluster c) _) as [[] s7]. cbn [fst snd].
  eexists _, _. split; [reflexivity|]. cbn [snd r_Strategy Writes WriteErrors]. rewrite length_seq in Hsum. split_and!; [|done|lia].
  rewrite H3, H2. cbn [snd]. rewrite Hs, filter_cons, decide_False; [done|]. by intros [].
Qed.

Lemma race_all_run l n ops : ∀ acc k t s, s.2 = [] →
  (∃ s', run_noting (race_all l n ops acc k) t s = Ok (None, t, s') ∧ s'.2 = []) ∨
  ∃ rs s', run_noting (race_all l n ops acc k) t s = run_noting (k (acc ++ rs)) t s' ∧ s'.2 = [] ∧
    r_Strategy <$> rs = l ∧ Forall (λ r, Writes r + WriteErrors r = ops) rs.
Proof.
  induction l as [|st l IH]; intros acc k t s Hs; cbn [race_all].
  - right. exists [], s. rewrite app_nil_r. by split_and!.
  - destruct (race_one_run st n ops (λ r, race_all l n ops (acc ++ [r]) k) t s Hs) as [(s' & -> & ?)|(r & s1 & -> & Hs1 & Hst & Hn)]; [left; eauto|].
    destruct (IH (acc ++ [r]) k t s1 Hs1) as [(s' & -> & ?)|(rs & s2 & -> & Hs2 & Hl & Hall)]; [left; eauto|].
    right. exists (r :: rs), s2. rewrite <- app_assoc. split_and!; [done|done|by rewrite fmap_cons, Hl, Hst|by constructor].
Qed.

End race.
End Scenarios.

(** ** Theorems *)

Import Script Scenarios.


(** A handler with five nodes that answers yes to everything. *)
Definition demo_handler (ids : list string) : ∀ X, call X → unit → X * unit :=
  λ X f, match f in call X return unit → X * unit with
         | NodeIDs _ => λ _, (ids, tt)
         | GetCluster _ => λ _, (true, tt)
         | CreateCluster _ => λ _, (Some "c", tt)
         | LeaderID _ => λ _, ("a", tt)
         | GetPartitions _ => λ _, ([], tt)
         | Dropped _ => λ _, (0%Z, tt)
         | Write _ _ _ _ _ => λ _, (true, tt)
         | Read _ _ _ _ => λ _, (None, tt)
         | CheckConvergence _ => λ _, (Convergence.MkReport "c" true 0 [] "", tt)
         | ConvergenceOf _ => λ _, (None, tt)
         | CheckLinearizable _ => λ _, (None, tt)
         | MetricsSnapshot _ => λ _, (Metrics.NewClusterMetrics "c" "" 0, tt)
         | _ => λ _, (tt, tt)
         end.


(** C40. Five scenarios take down the server when nodes are removed while they run. They index the list of
    nodes without looking at its length, in a goroutine of their own: when the list is shorter than
    [needs] says, the script panics whatever else happens, and the panic of a goroutine ends the process. *)
Theorem scenario_crashes {S : Type} (h : ∀ X, call X → S → X * S) name c herd t s :
  name ∈ unguarded → herd ≠ [] → answers h (@answer_short (needs name)) → run h (setupScenario c herd name) t s = Panic.
Proof. intros Hin Hherd Hh. by apply (doomed_run h (needs name)), scripts_doomed. Qed.

Lemma scenario_crashes_witness :
  run (demo_handler ["a"; "b"; "c"]) (setupScenario "c" (seq 0 50) "CorruptReplica") ∅ tt = Panic.
Proof.
  apply (scenario_crashes (demo_handler ["a"; "b"; "c"]) "CorruptReplica").
  - by apply (bool_decide_eq_true_1 (_ ∈ unguarded)); reflexivity.
  - discriminate.
  - intros X f []. destruct f; simpl; first [done|vm_compute; lia].
Defined.

(** A strategy race leaves nothing behind. Whatever its calls answer, a race returns; every cluster it
    created has been deleted, also when creating a later one fails; and a report has one row per
    strategy, in the order asked for, in which the writes that succeeded and those that failed add up to
    the operations asked for. *)
Theorem race_leaves_nothing {S : Type} (h : ∀ X, call X → S → X * S) strategies nodeCount ops t s :
  ∃ r s', run (noting h) (RunStrategyRace strategies nodeCount ops) t (s, []) = Ok (r, t, (s', [])) ∧
    ∀ rep, r = Some rep →
      r_Strategy <$> Results rep = strategies ∧
      Forall (λ x, Z.of_nat (Writes x + WriteErrors x) = Ops rep) (Results rep) ∧ Ops rep = if (ops <=? 0)%Z then 20%Z else ops.
Proof.
  unfold RunStrategyRace. set (n := if (nodeCount <=? 0)%Z then _ else _). set (o := if (ops <=? 0)%Z then _ else _).
  assert (Ho : (0 ≤ o)%Z) by (unfold o; destruct (Z.leb_spec ops 0); lia).
  destruct (race_all_run h strategies n (Z.to_nat o) [] (λ rs, Ret (Some (MkReport o rs))) t (s, []) eq_refl)
    as [(s' & -> & Hs)|(rs & s' & -> & Hs & Hl & Hall)].
  - exists None, s'.1. split; [destruct s'; simpl in *; by subst|done].
  - exists (Some (MkReport o rs)), s'.1. split; [destruct s'; simpl in *; by subst|]. intros rep [= <-]. simpl. split_and!; [done| |done].
    eapply Forall_impl; [exact Hall|]. intros x Hx. simpl in Hx. lia.
Qed.

(** A corrupted replica is healed. Let the newest version of a key be held by another online replica.
    Corrupt the copy of an online replica as the scenario does; then run an anti-entropy pass under its
    usual conditions: the check reports convergence and every online replica shows the content of that
    newest version again. *)
Theorem corruption_healed {float : Type} (c : @Cluster.Cluster float) nodeID key n cur b nb e refID korder norder :
  Cluster.Nodes c !! nodeID = Some n → Cluster.State n = Node.StateOnline → Store.GetRaw (Cluster.GetStore n) key = Some cur →
  in_i64 (kv_Timestamp cur - 1000) → b ≠ nodeID → Convergence.online c !! b = Some nb → Store.GetRaw (Cluster.GetStore nb) key = Some e →
  Convergence.newest (Convergence.online c) key e → (∀ l, korder l ≡ₚ l) → (∀ k l, norder k l ≡ₚ l) →
  let c' := corruptReplica c nodeID key in
  is_Some (Convergence.online c' !! refID) → Convergence.mergeable (Convergence.online c') →
  let r := Convergence.RunAntiEntropy refID korder norder c' in
  Convergence.Converged (Convergence.CheckConvergence r.2) = true ∧ dom (Convergence.online r.2) = dom (Convergence.online c) ∧
  ∀ a x, Convergence.online r.2 !! a = Some x → Convergence.visible x key = Some (Convergence.content e).
Proof.
  intros Hn Hst Hcur Hr Hb Hnb He Hnew Hk Hno c' Href Hm r.
  pose proof (corrupt_newest c nodeID key n cur b nb e Hn Hst Hcur Hr Hb Hnb He Hnew) as Hnew'. fold c' in Hnew'.
  destruct (Convergence.pass_online c' refID korder norder Hk Hno Href Hm) as (Hdom & Hup & _). fold r in Hdom, Hup. split_and!.
  - apply Convergence.CheckConvergence_spec. intros k. by apply (Convergence.caught_up_no_split (Convergence.online c')).
  - rewrite Hdom. unfold c'. rewrite (corrupt_online c nodeID key n Hn Hst), dom_insert_L.
    assert (Hin : nodeID ∈ dom (Convergence.online c)) by (apply elem_of_dom; exists n; by apply map_lookup_filter_Some). set_solver.
  - intros a x Hx. by apply (Hup a x Hx key).
Qed.

Definition demo_sound : @Cluster.Cluster unit :=
  let e := MkKVEntry "x" (Some "good") None 5000 "n2" false 0 in
  Cluster.with_nodes Convergence.demo_diverged
    {["n1" := Convergence.demo_replica "n1" [e]; "n2" := Convergence.demo_replica "n2" [e]]}.

Lemma corruption_healed_witness :
  Convergence.Converged (Convergence.CheckConvergence (corruptReplica demo_sound "n1" "x")) = false ∧
  let r := Convergence.RunAntiEntropy "n1" (λ l, l) (λ _ l, l) (corruptReplica demo_sound "n1" "x") in
  Convergence.Converged (Convergence.CheckConvergence r.2) = true ∧
  ∀ a x, Convergence.online r.2 !! a = Some x → Convergence.visible x "x" = Some (Some "good").
Proof.
  split; [by vm_compute|].
  destruct (corruption_healed demo_sound "n1" "x" (Convergence.demo_replica "n1" [MkKVEntry "x" (Some "good") None 5000 "n2" false 0])
    (MkKVEntry "x" (Some "good") None 5000 "n2" false 1) "n2" (Convergence.demo_replica "n2" [MkKVEntry "x" (Some "good") None 5000 "n2" false 0])
    (MkKVEntry "x" (Some "good") None 5000 "n2" false 1) "n1" (λ l, l) (λ _ l, l)) as (H1 & _ & H2);
    [reflexivity|reflexivity|reflexivity|unfold in_i64, two63; simpl; lia|discriminate|reflexivity|reflexivity| |done|done| | |].
  - split; [by eexists _, _; split; [exact (eq_refl : Convergence.online demo_sound !! "n1" = Some _)|]|].
    intros a n e Ha He. assert (e = MkKVEntry "x" (Some "good") None 5000 "n2" false 1) as -> by
      (destruct (decide (a = "n1")) as [->|]; [vm_compute in Ha; injection Ha as <-; vm_compute in He; by injection He as <-|];
       destruct (decide (a = "n2")) as [->|]; [vm_compute in Ha; injection Ha as <-; vm_compute in He; by injection He as <-|];
       exfalso; apply map_lookup_filter_Some in Ha as [Ha _]; simpl in Ha; by rewrite lookup_insert_ne, lookup_singleton_ne in Ha by done).
    apply Resolver.stamp_le_refl.
  - eexists. by vm_compute.
  - apply mergeable_check. by vm_compute.
  - split; [exact H1|exact H2].
Defined.
