(* ===== verification/Checks.v ===== *)
(** * Invariant reports, challenge grades and server configuration

    Models [src/internal/simulation/checkers.go], the grading of [captheorem.go], [CreateFromPreset] of
    [presets.go], the stale-read estimate of [src/internal/quorum/calculator.go], and
    [src/internal/config/config.go].  The wording of details and notes is left out; reading and parsing
    the configuration file is a parameter of [Load], the environment one of [ApplyEnvOverrides]. *)

From Stdlib Require Import Ascii Floats.SpecFloat.
From S2P Require Import Prelude Linearizability Quorum Node Cluster Convergence Metrics.
Import (hints) Node Cluster.
#[local] Open Scope nat_scope.

Module Checks.
Import F64.

(** ** Checkers *)

Record ViolationOp := MkViolation { v_ClientID : string; Kind : string; v_Key : string; v_Value : string }.

Record LinearizabilityReport := MkLinReport {
  lin_ClusterID : string;
  lin_Ops : nat;
  lin_Linearizable : bool;
  Violation : option ViolationOp;
}.

Definition kindName (k : Lin.OpKind) : string := match k with Lin.OpWrite => "write" | _ => "read" end.

Definition CheckLinearizable {float} (c : @Cluster.Cluster float) : LinearizabilityReport :=
  let ops := Lin.Ops (Cluster.history c) in
  if length ops =? 0 then MkLinReport (Cluster.ID c) 0 true None
  else
    let '(ok, bad) := Lin.CheckRegister ops in
    MkLinReport (Cluster.ID c) (length ops) ok
      (match ok, bad with
       | false, Some op => Some (MkViolation (Lin.ClientID op) (kindName (Lin.Kind op)) (Lin.Key op) (Lin.Value op))
       | _, _ => None
       end).

Definition GetOps {float} (c : @Cluster.Cluster float) : list Lin.Op := Lin.Ops (Cluster.history c).

(** The violations, without their wording. *)
Inductive violation := Diverge (keys : nat) | NonLinearizable (op : option ViolationOp).

Record InvariantReport := MkInvariants {
  inv_ClusterID : string;
  inv_Converged : bool;
  inv_Linearizable : bool;
  OK : bool;
  Violations : list violation;
}.

Definition CheckInvariants {float} (c : @Cluster.Cluster float) : InvariantReport :=
  let conv := Convergence.CheckConvergence c in
  let lin := CheckLinearizable c in
  let vs := (if Convergence.Converged conv then [] else [Diverge (length (Convergence.Diverged conv))]) ++
            (if lin_Linearizable lin then [] else [NonLinearizable (Violation lin)]) in
  MkInvariants (Cluster.ID c) (Convergence.Converged conv) (lin_Linearizable lin) (length vs =? 0) vs.

(** ** The stale-read estimate *)

Fixpoint choose_loop (n : Z) (i steps : nat) (result : f64) : f64 :=
  match steps with
  | 0 => result
  | S steps => choose_loop n (S i) steps (div (mul result (of_Z (n - Z.of_nat i))) (of_Z (Z.of_nat i + 1)))
  end.

Definition choose (n k : Z) : f64 :=
  if (k <? 0)%Z || (n <? k)%Z then zero
  else if (k =? 0)%Z || (k =? n)%Z then of_Z 1
  else
    let k := if (n - k <? k)%Z then (n - k)%Z else k in
    choose_loop n 0 (Z.to_nat k) (of_Z 1).

Definition feqb (x y : f64) : bool := match SFcompare x y with Some Eq => true | _ => false end.

Definition StaleReadProbability (q : Quorum.QuorumConfig) : f64 :=
  if Quorum.IsStronglyConsistent q then zero
  else
    let nonWritten := (Quorum.N_ q - Quorum.W q)%Z in
    if (nonWritten <=? 0)%Z then zero
    else
      let denom := choose (Quorum.N_ q) (Quorum.R q) in
      if feqb denom zero then zero else div (choose nonWritten (Quorum.R q)) denom.

(** ** Challenges *)

Record SLA := MkSLA { MaxStaleReadProb : f64; MinOverlap : Z; MaxWriteLatencyMs : Z }.
Record GradeCheck := MkCheck { Name : string; Passed : bool }.
Record Grade := MkGrade { g_Passed : bool; Score : Z; Checks_ : list GradeCheck }.

(** The nodes are visited in the order of the model's maps. *)
Definition observedAvgWriteLatency (m : Metrics.ClusterMetrics) : f64 :=
  let ns := map_to_list (Metrics.Nodes (Metrics.cluster_Snapshot m)) in
  if length ns =? 0 then zero
  else div (foldl (λ sum p, add sum (Metrics.AvgWriteLatency p.2)) zero ns) (of_Z (Z.of_nat (length ns))).

(** [int(float64(passed) / float64(total) * 100.0)], which truncates *)
Definition trunc_int (x : f64) : Z :=
  match x with
  | S754_finite s m e => let v := if s then Z.neg m else Z.pos m in if (0 <=? e)%Z then (v * 2 ^ e)%Z else Z.quot v (2 ^ (- e))
  | S754_zero _ => 0
  | _ => - 2 ^ 63
  end.

Definition score (passed total : nat) : Z :=
  trunc_int (mul (div (of_Z (Z.of_nat passed)) (of_Z (Z.of_nat total))) (of_Z 100)).

Definition GradeChallenge (cfg : Cluster.ClusterConfig) (m : Metrics.ClusterMetrics) (sla : SLA) : Grade :=
  let quorum_checks :=
    if String.eqb (Cluster.Strategy cfg) "leaderless" then
      let q := Cluster.quorumConfigFor cfg in
      [MkCheck "stale_read_probability" (SFleb (StaleReadProbability q) (MaxStaleReadProb sla));
       MkCheck "quorum_overlap" (MinOverlap sla <=? Quorum.OverlapCount q)%Z]
    else
      let strong := Cluster.isStronglyConsistent cfg in
      [MkCheck "stale_read_probability" (SFleb (if strong then zero else of_Z 1) (MaxStaleReadProb sla));
       MkCheck "quorum_overlap" (MinOverlap sla <=? (if strong then MinOverlap sla else 0))%Z] in
  let checks := quorum_checks ++
    [MkCheck "write_latency" (SFleb (observedAvgWriteLatency m) (of_Z (MaxWriteLatencyMs sla)))] in
  let passedCount := length (filter (λ c, Passed c = true) checks) in
  MkGrade (passedCount =? length checks) (score passedCount (length checks)) checks.

(** ** Presets *)

Definition ListPresets : list Cluster.Preset := Cluster.Presets.

Definition CreateFromPreset {float} codec vc_string (o o' : @Cluster.Orchestrator float) (uuid name : string)
    : Res (Cluster.error + Cluster.Cluster * Cluster.Orchestrator) :=
  match Cluster.FindPreset name with
  | None => Ok (inl Cluster.ErrNoPreset)
  | Some p => Cluster.CreateCluster codec vc_string o o' uuid (Cluster.p_Config p)
  end.

End Checks.

(** ** Configuration *)

Module Config.

Record Config := MkConfig {
  Port : Z;
  CORSOrigins : list string;
  DefaultLagThresholdMs : Z;
  HeartbeatIntervalMs : Z;
  MaxClusters : Z;
  SQLitePath : string;
}.

Definition Defaults : Config := MkConfig 8080 [] 100 50 10 "".

(** [os.ReadFile], and [yaml.Unmarshal] into the defaults, which may set some fields before it fails. *)
Inductive file := Missing | Unreadable | Contents (parse : Config → Config * bool).

(** The configuration and whether an error comes with it. *)
Definition Load (f : file) : Config * bool :=
  match f with
  | Missing => (Defaults, false)
  | Unreadable => (Defaults, true)
  | Contents parse =>
      match parse Defaults with
      | (c, false) => (c, true)
      | (c, true) =>
          let d := Defaults in
          let dflt v w := if (v =? 0)%Z then w else v in
          (MkConfig (dflt (Port c) (Port d)) (CORSOrigins c) (dflt (DefaultLagThresholdMs c) (DefaultLagThresholdMs d))
             (dflt (HeartbeatIntervalMs c) (HeartbeatIntervalMs d)) (dflt (MaxClusters c) (MaxClusters d)) (SQLitePath c), false)
      end
  end.

(** [strconv.Atoi] *)
Fixpoint decimal (s : string) (acc : Z) : option Z :=
  match s with
  | EmptyString => Some acc
  | String a s =>
      let n := Z.of_nat (nat_of_ascii a) in
      if (48 <=? n)%Z && (n <=? 57)%Z then decimal s (10 * acc + (n - 48))%Z else None
  end.

Definition Atoi (s : string) : option Z :=
  let '(neg, digits) := match s with
                        | String "-"%char s' => (true, s')
                        | String "+"%char s' => (false, s')
                        | _ => (false, s)
                        end in
  match digits with
  | EmptyString => None
  | _ =>
      v ← decimal digits 0;
      let v := if neg then (- v)%Z else v in
      if (- two63 <=? v)%Z && (v <? two63)%Z then Some v else None
  end.

(** [strings.Split(v, ",")] *)
Fixpoint split_commas (s : string) (cur : string) : list string :=
  match s with
  | EmptyString => [cur]
  | String ","%char s => cur :: split_commas s ""
  | String a s => split_commas s (cur +:+ String a "")
  end.

(** [strings.TrimSpace] on ASCII text *)
Definition is_space (a : ascii) : bool := let n := nat_of_ascii a in ((9 <=? n) && (n <=? 13)) || (n =? 32).
Fixpoint trim_left (s : string) : string :=
  match s with String a s' => if is_space a then trim_left s' else s | EmptyString => s end.
Fixpoint reverse_str (s acc : string) : string := match s with String a s => reverse_str s (String a acc) | EmptyString => acc end.
Definition TrimSpace (s : string) : string := reverse_str (trim_left (reverse_str (trim_left s) "")) "".

Definition parse_origins (v : string) : list string := filter (λ t, t ≠ "") (TrimSpace <$> split_commas v "").

Definition ApplyEnvOverrides (getenv : string → string) (c : Config) : Config :=
  let int_or name old := let v := getenv name in if String.eqb v "" then old else default old (Atoi v) in
  MkConfig (int_or "PORT" (Port c))
    (let v := getenv "CORS_ORIGINS" in if String.eqb v "" then CORSOrigins c else parse_origins v)
    (DefaultLagThresholdMs c) (HeartbeatIntervalMs c) (int_or "MAX_CLUSTERS" (MaxClusters c))
    (let v := getenv "SQLITE_PATH" in if String.eqb v "" then SQLitePath c else v).

Inductive config_error := ErrPort | ErrMaxClusters | ErrHeartbeat.

Definition Validate (c : Config) : option config_error :=
  if (Port c <? 1)%Z || (65535 <? Port c)%Z then Some ErrPort
  else if (MaxClusters c <? 0)%Z then Some ErrMaxClusters
  else if (HeartbeatIntervalMs c <? 0)%Z then Some ErrHeartbeat
  else None.

(** The configuration [run] of the server starts with; a failed load is only logged. *)
Definition startup (f : file) (getenv : string → string) : config_error + Config :=
  let c := ApplyEnvOverrides getenv (Load f).1 in
  match Validate c with Some e => inl e | None => inr c end.

End Config.

(** ** Proofs *)

Module ChecksProofs.
Import F64 Checks.

Lemma CheckLinearizable_exact {float} (c : @Cluster.Cluster float) : Forall Lin.op_ok (Lin.Ops (Cluster.history c)) →
  lin_Linearizable (CheckLinearizable c) = true ↔ Lin.globally_linearizable (Lin.Ops (Cluster.history c)).
Proof.
  intros Hok. rewrite (Lin.locality _ Hok). unfold CheckLinearizable. destruct (Nat.eqb_spec (length (Lin.Ops (Cluster.history c))) 0) as [H0|H0].
  - apply nil_length_inv in H0. rewrite H0. split; [|done]. intros _ k. exists []. split; [done|]. by split.
  - destruct (Lin.CheckRegister_correct _ Hok) as [[-> Hl]|(op & -> & _ & Hl)]; simpl; [done|]. split; [done|]. intros Hall. by destruct Hl.
Qed.

(** Binomial coefficients by rows of Pascal's triangle. *)
Definition next_row (r : list Z) : list Z := zip_with Z.add (0%Z :: r) (r ++ [0%Z]).
Definition pascal (n : nat) : list Z := Nat.iter n next_row [1%Z].
Definition binomial (n k : nat) : Z := nth k (pascal n) 0%Z.

Definition max_n : nat := 40.

#[local] Instance spec_float_eq_dec : EqDecision spec_float.
Proof. solve_decision. Defined.

(** Up to forty replicas the loop of [choose] is exact. *)
Lemma choose_exact n k : n ≤ max_n → k ≤ n → choose (Z.of_nat n) (Z.of_nat k) = of_Z (binomial n k).
Proof.
  intros Hn Hk.
  assert (H : forallb (λ n, let row := pascal n in
    forallb (λ k, bool_decide (choose (Z.of_nat n) (Z.of_nat k) = of_Z (nth k row 0%Z))) (seq 0 (S n))) (seq 0 (S max_n)) = true)
    by (by vm_compute).
  rewrite forallb_forall in H. specialize (H n ltac:(apply list_elem_of_In, elem_of_seq; lia)). cbv zeta in H.
  rewrite forallb_forall in H. specialize (H k ltac:(apply list_elem_of_In, elem_of_seq; lia)). by apply bool_decide_eq_true in H.
Qed.

Lemma pascal_pos n k : k ≤ n → (0 < binomial n k)%Z.
Proof.
  unfold binomial. revert k. induction n as [|n IH]; intros k Hk; [by replace k with 0 by lia|].
  assert (Hlen : length (pascal n) = S n).
  { clear. induction n as [|n IH]; [done|]. change (pascal (S n)) with (next_row (pascal n)). unfold next_row.
    rewrite length_zip_with, length_cons, length_app. cbn [length]. lia. }
  assert (Hpos : ∀ j, (0 ≤ nth j (pascal n) 0)%Z).
  { intros j. destruct (decide (j ≤ n)); [by apply Z.lt_le_incl, IH|]. rewrite nth_overflow; lia. }
  change (pascal (S n)) with (next_row (pascal n)). unfold next_row.
  assert (Hn : nth k (zip_with Z.add (0%Z :: pascal n) (pascal n ++ [0%Z])) 0%Z = (nth k (0%Z :: pascal n) 0 + nth k (pascal n ++ [0%Z]) 0)%Z).
  { destruct (lookup_lt_is_Some_2 (0%Z :: pascal n) k) as [x Hx]; [simpl; lia|].
    destruct (lookup_lt_is_Some_2 (pascal n ++ [0%Z]) k) as [y Hy]; [rewrite length_app; simpl; lia|].
    rewrite (nth_lookup_Some _ _ _ _ Hx), (nth_lookup_Some _ _ _ _ Hy). apply nth_lookup_Some. rewrite lookup_zip_with, Hx. simpl. by rewrite Hy. }
  rewrite Hn. destruct k as [|k]; simpl.
  - rewrite app_nth1 by lia. by apply IH; lia.
  - assert (0 < nth k (pascal n) 0)%Z by (apply IH; lia). destruct (decide (S k ≤ n)).
    + rewrite app_nth1 by lia. pose proof (Hpos (S k)). lia.
    + rewrite app_nth2 by lia. replace (S k - length (pascal n)) with 0 by lia. simpl. lia.
Qed.

(** The quotients of the estimate are not rounded to zero. *)
Lemma quotient_pos n m k : n ≤ max_n → m ≤ n → k ≤ m → SFltb zero (div (of_Z (binomial m k)) (of_Z (binomial n k))) = true.
Proof.
  intros Hn Hm Hk.
  assert (H : forallb (λ n, let row := pascal n in forallb (λ m, let row' := pascal m in
    forallb (λ k, SFltb zero (div (of_Z (nth k row' 0%Z)) (of_Z (nth k row 0%Z)))) (seq 0 (S m))) (seq 0 (S n))) (seq 0 (S max_n)) = true)
    by (by vm_compute).
  rewrite forallb_forall in H. specialize (H n ltac:(apply list_elem_of_In, elem_of_seq; lia)). cbv zeta in H.
  rewrite forallb_forall in H. specialize (H m ltac:(apply list_elem_of_In, elem_of_seq; lia)). cbv zeta in H.
  rewrite forallb_forall in H. exact (H k ltac:(apply list_elem_of_In, elem_of_seq; lia)).
Qed.

End ChecksProofs.

(** ** Theorems *)

(** C19. The invariant report is exact. On a cluster whose recorded operations have sensible intervals,
    the report is OK exactly when no two online replicas show different contents for a key and one total
    order of all recorded operations respects real time and is a legal run of one register per key. *)
Theorem invariant_report_exact {float : Type} (c : @Cluster.Cluster float) :
  Forall Lin.op_ok (Checks.GetOps c) →
  Checks.OK (Checks.CheckInvariants c) = true ↔
    (∀ k, ¬ Convergence.split_on (Convergence.online c) k) ∧ Lin.globally_linearizable (Checks.GetOps c).
Proof.
  intros Hok. unfold Checks.CheckInvariants. cbn [Checks.OK]. rewrite <- (ChecksProofs.CheckLinearizable_exact c Hok).
  rewrite <- (proj2 (Convergence.CheckConvergence_spec c)).
  destruct (Convergence.Converged _), (Checks.lin_Linearizable _); simpl; naive_solver.
Qed.

(** The replicas of [demo_diverged] differ, and its history is empty. *)
Lemma invariant_report_exact_witness :
  ¬ ((∀ k, ¬ Convergence.split_on (Convergence.online Convergence.demo_diverged) k) ∧
     Lin.globally_linearizable (Checks.GetOps Convergence.demo_diverged)).
Proof.
  rewrite <- (invariant_report_exact Convergence.demo_diverged); [by vm_compute|]. constructor.
Defined.

(** The stale-read estimate. For a valid quorum of at most forty replicas the estimate is the quotient
    of two exactly computed binomial coefficients, the share of read quorums that miss every replica
    written; it is zero exactly when W + R > N. A challenge that allows no stale reads therefore passes
    its first check on a leaderless cluster exactly when its quorums overlap. *)
Theorem stale_read_estimate (q : Quorum.QuorumConfig) (cfg : Cluster.ClusterConfig) (m : Metrics.ClusterMetrics) (sla : Checks.SLA) :
  Quorum.IsValid q = None → (Quorum.N_ q ≤ 40)%Z →
  Cluster.Strategy cfg = "leaderless" → Cluster.quorumConfigFor cfg = q → Checks.MaxStaleReadProb sla = F64.zero →
  let n := Z.to_nat (Quorum.N_ q) in let w := Z.to_nat (Quorum.W q) in let r := Z.to_nat (Quorum.R q) in
  Checks.StaleReadProbability q =
    (if Quorum.IsStronglyConsistent q then F64.zero
     else F64.div (F64.of_Z (ChecksProofs.binomial (n - w) r)) (F64.of_Z (ChecksProofs.binomial n r))) ∧
  (SFltb F64.zero (Checks.StaleReadProbability q) = negb (Quorum.IsStronglyConsistent q)) ∧
  (Checks.Passed <$> head (Checks.Checks_ (Checks.GradeChallenge cfg m sla))) = Some (Quorum.IsStronglyConsistent q).
Proof.
  intros Hv Hn40 Hst Hq Hsla n w r.
  assert (Hb : (1 ≤ Quorum.W q ≤ Quorum.N_ q ∧ 1 ≤ Quorum.R q ≤ Quorum.N_ q)%Z).
  { unfold Quorum.IsValid in Hv. repeat (case_match; try done).
    repeat match goal with H : (_ || _)%bool = false |- _ => apply orb_false_iff in H as [? ?] end. lia. }
  assert (Hcons : Quorum.IsStronglyConsistent q = false → r ≤ n - w).
  { unfold Quorum.IsStronglyConsistent. rewrite Z.ltb_ge. unfold n, w, r. lia. }
  assert (Hval : Checks.StaleReadProbability q =
    (if Quorum.IsStronglyConsistent q then F64.zero
     else F64.div (F64.of_Z (ChecksProofs.binomial (n - w) r)) (F64.of_Z (ChecksProofs.binomial n r)))).
  { unfold Checks.StaleReadProbability. destruct (Quorum.IsStronglyConsistent q) eqn:Hs; [done|]. specialize (Hcons eq_refl).
    destruct (Z.leb_spec (Quorum.N_ q - Quorum.W q) 0); [unfold n, w, r in *; lia|].
    replace (Quorum.N_ q - Quorum.W q)%Z with (Z.of_nat (n - w)) by (unfold n, w; lia).
    replace (Quorum.N_ q) with (Z.of_nat n) by (unfold n; lia). replace (Quorum.R q) with (Z.of_nat r) by (unfold r; lia).
    assert (n ≤ ChecksProofs.max_n) by (unfold n, ChecksProofs.max_n; lia).
    rewrite !ChecksProofs.choose_exact by (unfold n, w, r in *; lia).
    pose proof (ChecksProofs.quotient_pos n n r ltac:(done) ltac:(done) ltac:(unfold n, r; lia)) as Hpos.
    destruct (Checks.feqb (F64.of_Z (ChecksProofs.binomial n r)) F64.zero) eqn:E; [|done]. exfalso.
    unfold Checks.feqb in E. by destruct (F64.of_Z (ChecksProofs.binomial n r)) as [[]|[]| |[] mm e]. }
  assert (Hlt : SFltb F64.zero (Checks.StaleReadProbability q) = negb (Quorum.IsStronglyConsistent q)).
  { rewrite Hval. destruct (Quorum.IsStronglyConsistent q) eqn:Hs; [done|]. apply ChecksProofs.quotient_pos;
      [unfold n, ChecksProofs.max_n; lia|lia|by apply Hcons]. }
  split_and!; [done|done|]. unfold Checks.GradeChallenge. rewrite Hst, Hq, Hsla. simpl. f_equal.
  revert Hlt. by destruct (Checks.StaleReadProbability q) as [[]|[]| |[] mm e], (Quorum.IsStronglyConsistent q).
Qed.

Lemma stale_read_estimate_witness :
  Checks.Passed <$> head (Checks.Checks_ (Checks.GradeChallenge (Cluster.MkCfg "leaderless" 5 "" "" 5 2 2 0 0 "" "" None)
    (Metrics.NewClusterMetrics "c" "leaderless" 0) (Checks.MkSLA F64.zero 0 10))) = Some false.
Proof.
  apply (stale_read_estimate (Quorum.MkConfig 5 2 2) (Cluster.MkCfg "leaderless" 5 "" "" 5 2 2 0 0 "" "" None)
    (Metrics.NewClusterMetrics "c" "leaderless" 0) (Checks.MkSLA F64.zero 0 10)); [reflexivity|simpl; lia|reflexivity..].
Defined.

(** The configuration the server starts with is valid: its port is a port and its cluster limit is not
    negative. The file cannot ask for an unlimited number of clusters: after a successful load the limit is
    0, which means unlimited, only when the environment says so; a 0 in the file becomes 10. *)
Theorem startup_configuration (f : Config.file) (getenv : string → string) (c : Config.Config) :
  Config.startup f getenv = inr c →
  (1 ≤ Config.Port c ≤ 65535 ∧ 0 ≤ Config.MaxClusters c ∧ 0 ≤ Config.HeartbeatIntervalMs c)%Z ∧
  ((Config.Load f).2 = false → Config.MaxClusters c = 0%Z → Config.Atoi (getenv "MAX_CLUSTERS") = Some 0%Z).
Proof.
  unfold Config.startup. destruct (Config.Validate _) eqn:Hv; [done|]. intros [= <-]. split.
  - unfold Config.Validate in Hv. repeat (case_match; try done).
    repeat match goal with H : (_ || _)%bool = false |- _ => apply orb_false_iff in H as [? ?] end. lia.
  - clear Hv. intros Hl. unfold Config.ApplyEnvOverrides. cbn [Config.MaxClusters].
    assert (Hne : Config.MaxClusters (Config.Load f).1 ≠ 0%Z).
    { destruct f as [| |parse]; [done|done|]. unfold Config.Load in *. destruct (parse Config.Defaults) as [c []]; [|done].
      cbn [fst Config.MaxClusters]. destruct (Z.eqb_spec (Config.MaxClusters c) 0); done. }
    destruct (String.eqb (getenv "MAX_CLUSTERS") ""); [done|]. destruct (Config.Atoi (getenv "MAX_CLUSTERS")); simpl; [by intros ->|done].
Qed.

(** A file that asks for no limit gets ten. *)
Lemma startup_configuration_witness :
  ∃ c, Config.startup (Config.Contents (λ d, (Config.MkConfig 9000 [] 0 0 0 "", true))) (λ _, "") = inr c ∧
    Config.MaxClusters c = 10%Z ∧ (1 ≤ Config.Port c ≤ 65535)%Z.
Proof.
  eexists. split; [reflexivity|]. split; [reflexivity|].
  apply (startup_configuration (Config.Contents (λ d, (Config.MkConfig 9000 [] 0 0 0 "", true))) (λ _, "")). reflexivity.
Defined.
