(* ===== verification/Gateway.v ===== *)
(** * The HTTP gateway

    Models the handlers and the router of [src/gateway/rest.go], [features.go], [ops.go] and
    [server.go].  A handler is a program over the calls it makes on the orchestrator; its meaning is
    given for any handler of those calls.  A response is its status and what is encoded into its body;
    error messages and headers other than those of CORS are left out.  JSON and YAML decoders are
    parameters, and so are the fixed pages (version, documentation, glossary, lessons) and the order in
    which the demo coordinator visits its participants.  The web socket is in [Stream], the text of
    [/metrics] and the request log in [Ops]. *)

From Stdlib Require Import Ascii.
From S2P Require Import Prelude Storage Linearizability Events Quorum Node Cluster Convergence Demos Metrics Scenarios Checks.
Import (hints) Node Cluster.
#[local] Open Scope nat_scope.

Module Gateway.
Import F64.

(** ** Calls and programs *)

(** What the handlers read of a [ClusterState]. *)
Record ClusterState := MkState { st_ID : string; st_NodeIDs : list string; st_LeaderID : string }.

(** Calls on the orchestrator; [None] and [false] are errors.  Entries of the event history are given by
    their sequence numbers. *)
Inductive call : Type → Type :=
  | Sleep (ms : Z) : call unit
  | CreateCluster (cfg : Cluster.ClusterConfig) : call (option string)
  | ListClusters : call (list string)
  | DeleteCluster (id : string) : call bool
  | GetCluster (id : string) : call bool
  | GetState (id : string) : call ClusterState
  | GetConfig (id : string) : call Cluster.ClusterConfig
  | SetReplicationMode (id mode : string) : call unit
  | MetricsSnapshot (id : string) : call Metrics.ClusterMetrics
  | CheckConvergence (id : string) : call (option Convergence.ConvergenceReport)
  | Suspicion (id : string) (threshold : f64) : call (option (gmap string Failure.NodeSuspicion))
  | ListConflicts (id : string) : call (option (list Cluster.PendingConflict))
  | ResolveConflict (id nodeID key choice : string) : call bool
  | Placement (id key : string) (n : Z) : call (option (list string))
  | Write (id nodeID key value clientID : string) : call (option KVEntry)
  | Delete (id nodeID key clientID : string) : call bool
  | Read (id nodeID key clientID : string) : call (option KVEntry)
  | WriteBatchAtomic (id nodeID : string) (pairs : list (string * string)) (clientID : string) : call (option (list KVEntry))
  | AddNode (id : string) : call (option string)
  | RemoveNode (id nodeID : string) : call bool
  | PauseNode (id nodeID : string) : call bool
  | ResumeNode (id nodeID : string) : call bool
  | SetClockSkew (id nodeID : string) (ms : Z) : call bool
  | GetNode (id nodeID : string) : call bool
  | NodeLog (id nodeID : string) : call (list LogEntry)
  | NodeStore (id nodeID : string) : call (gmap string KVEntry)
  | InjectPartition (id : string) (groupA groupB : list string) : call (option string)
  | HealPartition (id partID : string) : call bool
  | SetLatency (id from to : string) (ms : Z) : call bool
  | SetDropRate (id from to : string) (rate : f64) : call bool
  | ClearNetworkFaults (id : string) : call bool
  | RunScenario (name : string) : call (option string)
  | RunScenarioSpec (spec : Scenarios.ScenarioSpec) : call (option string)
  | ScenarioResult (id : string) : call (option Tracker.ScenarioResult)
  | RunStrategyRace (strategies : list string) (nodeCount ops : Z) : call (option Scenarios.RaceReport)
  | CheckLinearizable (id : string) : call (option Checks.LinearizabilityReport)
  | CheckInvariants (id : string) : call (option Checks.InvariantReport)
  | RunAntiEntropy (id : string) : call (option Convergence.AntiEntropyReport)
  | SafeAddNode (id : string) : call (option Convergence.ReconfigureReport)
  | CreateFromPreset (name : string) : call (option string)
  | GradeChallenge (id : string) (sla : Checks.SLA) : call (option Checks.Grade)
  | HistoryGet (id : string) (from limit : N) : call (list nat)
  | HistoryMaxSeq (id : string) : call N
  | HistoryStateAt (id : string) (at_ : N) : call (list nat)
  | GetOps (id : string) : call (option (list Lin.Op)).

Inductive body_out := Empty | Error_ | Json {A : Type} (a : A).
Record Response := MkResp { Status : Z; Content : body_out }.

(** A program that returns an [R]. *)
Inductive io (R : Type) :=
  | Return (r : R)
  | Do {X} (c : call X) (k : X → io R).
Arguments Return {_} _.
Arguments Do {_ _} _ _.

Abbreviation prog := (io Response).

Notation "x ⟵ c ; k" := (Do c (λ x, k)) (at level 100, c at next level, k at level 200, right associativity).
Notation "c ;;; k" := (Do c (λ _, k)) (at level 100, k at level 200, right associativity).

Definition writeJSON {A} (status : Z) (v : A) : prog := Return (MkResp status (Json v)).
Definition writeError (status : Z) : prog := Return (MkResp status Error_).
Definition WriteHeader (status : Z) : prog := Return (MkResp status Empty).

(** ** Requests *)

(** A body of at most one megabyte, or one that [RequestSize] cuts off. *)
Inductive body_in := TooLarge | Text (s : string).

(** An absent query parameter is the empty string. *)
Record Request := MkRequest {
  Method : string;
  Path : list string;
  Query : string → string;
  Body : body_in;
  Origin : string;
}.

Record writeRequest := MkWrite { wr_Key : string; wr_Value : string; wr_ClientID : string; TargetNodeID : string }.
Record batchWriteRequest := MkBatch { Entries : list writeRequest; bw_ClientID : string; Atomic : bool }.
Record resolveConflictRequest := MkResolve { rc_NodeID : string; rc_Key : string; Choice : string }.
Record partitionRequest := MkPartition { GroupA : list string; GroupB : list string }.
Record latencyRequest := MkLatency { lat_From : string; lat_To : string; lat_Ms : Z }.
Record dropRequest := MkDrop { dr_From : string; dr_To : string; Rate : f64 }.
Record raceRequest := MkRace { Strategies : list string; rr_NodeCount : Z; rr_Ops : Z }.

(** The decoders of the bodies; a patch is its [replication_mode], when that is a string. *)
Record Decoders := MkDecoders {
  dec_cfg : string → option Cluster.ClusterConfig;
  dec_patch : string → option (option string);
  dec_resolve : string → option resolveConflictRequest;
  dec_write : string → option writeRequest;
  dec_batch : string → option batchWriteRequest;
  dec_skew : string → option Z;
  dec_partition : string → option partitionRequest;
  dec_latency : string → option latencyRequest;
  dec_drop : string → option dropRequest;
  dec_sla : string → option Checks.SLA;
  dec_race : string → option raceRequest;
  dec_spec : string → option Scenarios.ScenarioSpec;
}.

Definition decodeJSON {A} (dec : string → option A) (r : Request) (k : A → prog) : prog :=
  match Body r with
  | TooLarge => writeError 413
  | Text s => match dec s with Some v => k v | None => writeError 400 end
  end.

(** [parseUint64], by [fmt.Sscanf(s, "%d", &v)] into a [uint64]: 0 on an error *)
Definition parseUint64 (s : string) : N :=
  match Scenarios.digits (Scenarios.skip_blanks s) None with
  | Some v => if (v <? two64)%Z then Z.to_N v else 0%N
  | None => 0%N
  end.

(** The shapes most handlers have: a call, and an error status or the answer. *)
Definition answer {A} (status err : Z) (c : call (option A)) : prog :=
  r ⟵ c; match r with Some v => writeJSON status v | None => writeError err end.
Definition done_or (err : Z) (c : call bool) (k : prog) : prog := ok ⟵ c; if ok then k else writeError err.

Section handlers.
Context (D : Decoders) (page : list string → body_out) (parts : list nat).
Context {rng : Type} (NewSource : Z → rng) (Intn : rng → Z → Z * rng).
Implicit Types r : Request.
Implicit Types id : string.

(** *** Simulation lifecycle *)

Definition create_with (cfg : Cluster.ClusterConfig) : prog :=
  c ⟵ CreateCluster cfg;
  match c with
  | None => writeError 500
  | Some id => st ⟵ GetState id; writeJSON 201 st
  end.

Definition handleSimulationStart r : prog := decodeJSON (dec_cfg D) r create_with.

(** The loops over the clusters, in the order [ListClusters] returns them. *)
Fixpoint delete_all (ids : list string) (k : prog) : prog :=
  match ids with [] => k | id :: ids => DeleteCluster id ;;; delete_all ids k end.
Fixpoint states_of (ids : list string) (acc : list ClusterState) (k : list ClusterState → prog) : prog :=
  match ids with [] => k acc | id :: ids => st ⟵ GetState id; states_of ids (acc ++ [st]) k end.
Fixpoint metrics_of (ids : list string) (acc : gmap string Metrics.ClusterMetrics) (k : gmap string Metrics.ClusterMetrics → prog) : prog :=
  match ids with [] => k acc | id :: ids => m ⟵ MetricsSnapshot id; metrics_of ids (<[id := m]> acc) k end.

Definition handleSimulationReset r : prog := ids ⟵ ListClusters; delete_all ids (writeJSON 200 "reset").
Definition handleSimulationState r : prog := ids ⟵ ListClusters; states_of ids [] (writeJSON 200).
Definition handleSimulationMetrics r : prog := ids ⟵ ListClusters; metrics_of ids ∅ (writeJSON 200).

(** *** Clusters *)

Definition handleCreateCluster r : prog := decodeJSON (dec_cfg D) r create_with.
Definition handleListClusters r : prog := ids ⟵ ListClusters; states_of ids [] (writeJSON 200).
Definition handleDeleteCluster id r : prog := done_or 404 (DeleteCluster id) (WriteHeader 204).
Definition handleClusterState id r : prog := done_or 404 (GetCluster id) (st ⟵ GetState id; writeJSON 200 st).
Definition handleConvergence id r : prog := answer 200 404 (CheckConvergence id).
Definition handleSuspicion id r : prog := answer 200 404 (Suspicion id zero).
Definition handleListConflicts id r : prog := answer 200 404 (ListConflicts id).

Definition handleResolveConflict id r : prog :=
  decodeJSON (dec_resolve D) r (λ req,
    done_or 409 (ResolveConflict id (rc_NodeID req) (rc_Key req) (Choice req)) (writeJSON 200 (rc_Key req, Choice req))).

Definition handlePlacement id r : prog :=
  let key := Query r "key" in
  let v := Query r "n" in
  let n := if String.eqb v "" then 3%Z else default 3%Z (Config.Atoi v) in
  list ⟵ Placement id key n;
  match list with Some l => writeJSON 200 (key, l) | None => writeError 400 end.

Definition handleClusterConfig id r : prog :=
  done_or 404 (GetCluster id) (
    decodeJSON (dec_patch D) r (λ patch,
      let finish := st ⟵ GetState id; writeJSON 200 st in
      match patch with
      | None => finish
      | Some mode =>
          cfg ⟵ GetConfig id;
          if String.eqb (Cluster.Strategy cfg) "single_leader" then SetReplicationMode id mode ;;; finish else writeError 400
      end)).

(** *** Writes and reads *)

Definition handleWrite id r : prog :=
  decodeJSON (dec_write D) r (λ req,
    if String.eqb (wr_Key req) "" then writeError 400
    else answer 200 409 (Write id (TargetNodeID req) (wr_Key req) (wr_Value req) (wr_ClientID req))).

Definition handleDelete id r : prog :=
  let key := Query r "key" in
  if String.eqb key "" then writeError 400
  else done_or 409 (Delete id (Query r "node_id") key (Query r "client_id")) (writeJSON 200 key).

Definition handleRead id r : prog := answer 200 404 (Read id (Query r "node_id") (Query r "key") (Query r "client_id")).

(** Each entry of a batch that is not atomic succeeds or fails on its own. *)
Fixpoint write_each id (client : string) (es : list writeRequest) (acc : list (option KVEntry)) (k : list (option KVEntry) → prog) : prog :=
  match es with
  | [] => k acc
  | e :: es =>
      let clientID := if String.eqb client "" then wr_ClientID e else client in
      res ⟵ Write id (TargetNodeID e) (wr_Key e) (wr_Value e) clientID;
      write_each id client es (acc ++ [res]) k
  end.

Definition handleWriteBatch id r : prog :=
  decodeJSON (dec_batch D) r (λ req,
    if Atomic req then
      let target := foldl (λ t e, if String.eqb (TargetNodeID e) "" then t else TargetNodeID e) "" (Entries req) in
      answer 200 409 (WriteBatchAtomic id target ((λ e, (wr_Key e, wr_Value e)) <$> Entries req) (bw_ClientID req))
    else write_each id (bw_ClientID req) (Entries req) [] (writeJSON 200)).

(** *** Nodes *)

Definition handleAddNode id r : prog := answer 201 500 (AddNode id).
Definition handleRemoveNode id nodeID r : prog := done_or 404 (RemoveNode id nodeID) (WriteHeader 204).
Definition handlePauseNode id nodeID r : prog := done_or 404 (PauseNode id nodeID) (writeJSON 200 "paused").
Definition handleResumeNode id nodeID r : prog := done_or 404 (ResumeNode id nodeID) (writeJSON 200 "resumed").

Definition handleSetClockSkew id nodeID r : prog :=
  decodeJSON (dec_skew D) r (λ ms, done_or 404 (SetClockSkew id nodeID ms) (writeJSON 200 (nodeID, ms))).

Definition handleNodeLog id nodeID r : prog :=
  done_or 404 (GetCluster id) (done_or 404 (GetNode id nodeID) (l ⟵ NodeLog id nodeID; writeJSON 200 l)).
Definition handleNodeStore id nodeID r : prog :=
  done_or 404 (GetCluster id) (done_or 404 (GetNode id nodeID) (l ⟵ NodeStore id nodeID; writeJSON 200 l)).

(** *** Network faults *)

Definition handleInjectPartition id r : prog :=
  decodeJSON (dec_partition D) r (λ req, answer 201 500 (InjectPartition id (GroupA req) (GroupB req))).
Definition handleHealPartition id partID r : prog := done_or 404 (HealPartition id partID) (WriteHeader 204).
Definition handleSetLatency id r : prog :=
  decodeJSON (dec_latency D) r (λ req, done_or 404 (SetLatency id (lat_From req) (lat_To req) (lat_Ms req)) (writeJSON 200 "ok")).
Definition handleSetDrop id r : prog :=
  decodeJSON (dec_drop D) r (λ req, done_or 404 (SetDropRate id (dr_From req) (dr_To req) (Rate req)) (writeJSON 200 "ok")).
Definition handleClearFaults id r : prog := done_or 404 (ClearNetworkFaults id) (writeJSON 200 "cleared").

(** *** Demos of the session guarantees *)

Definition demoNodes (st : ClusterState) : string * string :=
  match st_NodeIDs st with
  | [] => ("", "")
  | n0 :: _ =>
      let writeNode := if String.eqb (st_LeaderID st) "" then n0 else st_LeaderID st in
      (writeNode, default "" (head (filter (λ n, n ≠ writeNode) (st_NodeIDs st))))
  end.

Definition entryValue (res : option KVEntry) : string * bool :=
  match res with Some e => (default "" (kv_Value e), true) | None => ("", false) end.

(** Without the explanation. *)
Record demoRYWResponse := MkRYW {
  ClientID : string;
  WriteKey : string;
  WriteValue : string;
  WriteNode : string;
  ReadNode : string;
  WriteResult : option KVEntry;
  ReadResult : option KVEntry;
  Consistent : bool;
}.

Definition handleDemoRYW id r : prog :=
  let client := "ryw-demo-client" in
  let key := "ryw-demo-key" in
  let value := "ryw-demo-value" in
  done_or 404 (GetCluster id) (
  st ⟵ GetState id;
  let '(writeNode, readNode) := demoNodes st in
  if String.eqb writeNode "" || String.eqb readNode "" then writeError 400
  else
    PauseNode id readNode ;;;
    writeRes ⟵ Write id writeNode key value client;
    match writeRes with
    | None => ResumeNode id readNode ;;; writeError 409
    | Some _ =>
        Sleep 120 ;;;
        ResumeNode id readNode ;;;
        readRes ⟵ Read id readNode key client;
        let '(got, ok) := entryValue readRes in
        writeJSON 200 (MkRYW client key value writeNode readNode writeRes readRes (ok && String.eqb got value))
    end).

Definition handleDemoMonotonic id r : prog :=
  let client := "monotonic-demo-client" in
  let key := "monotonic-demo-key" in
  done_or 404 (GetCluster id) (
  st ⟵ GetState id;
  let '(writeNode, readNode) := demoNodes st in
  if String.eqb writeNode "" || String.eqb readNode "" then writeError 400
  else
    Write id writeNode key "v1" client ;;;
    Sleep 200 ;;;
    PauseNode id readNode ;;;
    Write id writeNode key "v2" client ;;;
    Sleep 120 ;;;
    ResumeNode id readNode ;;;
    read1 ⟵ Read id writeNode key client;
    read2 ⟵ Read id readNode key client;
    let violated := String.eqb (entryValue read1).1 "v2" && String.eqb (entryValue read2).1 "v1" in
    writeJSON 200 (client, writeNode, readNode, read1, read2, negb violated)).

Definition handleDemoConsistentPrefix id r : prog :=
  let client := "prefix-demo-client" in
  let key := "prefix-demo-key" in
  done_or 404 (GetCluster id) (
  st ⟵ GetState id;
  let '(writeNode, readNode) := demoNodes st in
  if String.eqb writeNode "" then writeError 400
  else
    let readNode := if String.eqb readNode "" then writeNode else readNode in
    w1 ⟵ Write id writeNode key "first" client;
    w2 ⟵ Write id writeNode key "second" client;
    w3 ⟵ Write id writeNode key "third" client;
    Sleep 150 ;;;
    readRes ⟵ Read id readNode key client;
    let '(got, ok) := entryValue readRes in
    writeJSON 200 (client, writeNode, readNode, ["first"; "second"; "third"], got, [w1; w2; w3],
      negb ok || bool_decide (got ∈ ["first"; "second"; "third"]))).

(** *** Scenarios, history, checks *)

Definition handleListScenarios r : prog := writeJSON 200 Scenarios.Scenarios.

Definition handleRunScenario name r : prog :=
  c ⟵ RunScenario name;
  match c with
  | None => writeError 404
  | Some id => done_or 500 (GetCluster id) (st ⟵ GetState id; writeJSON 201 st)
  end.

Definition handleClusterHistory id r : prog :=
  done_or 404 (GetCluster id) (
  let number name := let v := Query r name in if String.eqb v "" then 0%N else parseUint64 v in
  entries ⟵ HistoryGet id (number "from") (number "limit");
  max ⟵ HistoryMaxSeq id;
  writeJSON 200 (id, max, entries)).

Definition handleClusterHistoryState id r : prog :=
  done_or 404 (GetCluster id) (
  let v := Query r "at" in
  if String.eqb v "" then writeError 400 else res ⟵ HistoryStateAt id (parseUint64 v); writeJSON 200 res).

(** The operations as Jepsen lists them; the kind is "write" or "read". *)
Definition handleClusterOps id r : prog :=
  ops ⟵ GetOps id;
  match ops with
  | None => writeError 404
  | Some ops => writeJSON 200 (id, (λ op, (Checks.kindName (Lin.Kind op), op)) <$> ops)
  end.

Definition handleClusterLinearize id r : prog := answer 200 404 (CheckLinearizable id).
Definition handleLinearizable id r : prog := answer 200 404 (CheckLinearizable id).
Definition handleInvariants id r : prog := answer 200 404 (CheckInvariants id).
Definition handleAntiEntropy id r : prog := answer 200 404 (RunAntiEntropy id).

Record ClusterReport := MkReport {
  rp_Config : Cluster.ClusterConfig;
  rp_State : ClusterState;
  rp_Metrics : Metrics.ClusterMetrics;
  rp_Convergence : Convergence.ConvergenceReport;
  rp_Invariants : Checks.InvariantReport;
  rp_Scenario : option Tracker.ScenarioResult;
}.

(** [ExportReport]; the time stamp the handler adds is left out. *)
Definition ExportReport id (err : prog) (k : ClusterReport → prog) : prog :=
  found ⟵ GetCluster id;
  if negb found then err else
  conv ⟵ CheckConvergence id;
  match conv with
  | None => err
  | Some conv =>
      inv ⟵ CheckInvariants id;
      match inv with
      | None => err
      | Some inv =>
          cfg ⟵ GetConfig id; st ⟵ GetState id; m ⟵ MetricsSnapshot id; sc ⟵ ScenarioResult id;
          k (MkReport cfg st m conv inv sc)
      end
  end.

Definition handleExportReport id r : prog := ExportReport id (writeError 404) (writeJSON 200).
Definition handleSafeAddNode id r : prog := answer 200 400 (SafeAddNode id).
Definition handleScenarioResult id r : prog := answer 200 404 (ScenarioResult id).

Definition handleRunScenarioYAML r : prog :=
  match Body r with
  | TooLarge => writeError 400
  | Text s =>
      match dec_spec D s with
      | None => writeError 400
      | Some spec =>
          c ⟵ RunScenarioSpec spec;
          match c with None => writeError 500 | Some id => writeJSON 201 (id, Scenarios.sp_Name spec) end
      end
  end.

Definition handleStrategyRace r : prog :=
  decodeJSON (dec_race D) r (λ req,
    let strategies := match Strategies req with [] => ["single_leader"; "leaderless"; "raft"] | l => l end in
    answer 200 500 (RunStrategyRace strategies (rr_NodeCount req) (rr_Ops req))).

Definition handleListPresets r : prog := writeJSON 200 Checks.ListPresets.

Definition handleCreateFromPreset name r : prog :=
  c ⟵ CreateFromPreset name;
  match c with None => writeError 400 | Some id => st ⟵ GetState id; writeJSON 201 st end.

Definition handleCAP id r : prog := done_or 404 (GetCluster id) (cfg ⟵ GetConfig id; writeJSON 200 (Cluster.ClassifyCAP cfg)).
Definition handleChallenge id r : prog := decodeJSON (dec_sla D) r (λ sla, answer 200 404 (GradeChallenge id sla)).

Definition handleHealthz r : prog := writeJSON 200 "ok".
Definition handleReadyz r : prog := ids ⟵ ListClusters; writeJSON 200 ("ready", length ids).

(** *** Pages without a call, and the metrics *)

Definition static r : prog := Return (MkResp 200 (page (Path r))).

(** [handleMetrics], up to the text it formats *)
Definition handleMetrics r : prog := ids ⟵ ListClusters; metrics_of ids ∅ (λ m, states_of ids [] (λ sts, writeJSON 200 (m, sts))).

(** *** Standalone demos *)

(** A demo that panics is answered by the recovering middleware. *)
Definition demo {A} (v : Res A) : prog := match v with Ok v => writeJSON 200 v | Panic => WriteHeader 500 end.

Definition handleDemoTwoPC r : prog := demo (Demos.RunTwoPCDemo parts (String.eqb (Query r "crash") "true")).
Definition handleDemoMVCC r : prog := writeJSON 200 Demos.RunMVCCDemo.
Definition handleDemoWAL r : prog :=
  let mode := Query r "mode" in writeJSON 200 (Demos.RunWALDemo (if String.eqb mode "" then "buffered" else mode)).
Definition handleDemoSWIM r : prog := demo Demos.RunSWIMDemo.
Definition handleDemoPaxos r : prog := writeJSON 200 Demos.RunPaxosDemo.
Definition handleDemoDetSim r : prog :=
  let q := Query r "seed" in writeJSON 200 (Demos.RunDetSimDemo NewSource Intn (if String.eqb q "" then 42%Z else default 42%Z (Config.Atoi q))).

(** ** Routes *)

Inductive seg := Lit (s : string) | Par.

(** The parameters of a path that has the shape of a pattern. *)
Fixpoint match_path (pat : list seg) (path : list string) : option (list string) :=
  match pat, path with
  | [], [] => Some []
  | Lit s :: pat, x :: path => if String.eqb s x then match_path pat path else None
  | Par :: pat, x :: path => cons x <$> match_path pat path
  | _, _ => None
  end.

Definition on0 (f : Request → prog) : list string → Request → prog := λ ps r, match ps with [] => f r | _ => writeError 404 end.
Definition on1 (f : string → Request → prog) : list string → Request → prog := λ ps r, match ps with [a] => f a r | _ => writeError 404 end.
Definition on2 (f : string → string → Request → prog) : list string → Request → prog :=
  λ ps r, match ps with [a; b] => f a b r | _ => writeError 404 end.

Definition api (l : list seg) : list seg := Lit "api" :: Lit "v1" :: l.
Definition cl (l : list seg) : list seg := api (Lit "clusters" :: Par :: l).
Definition nd (l : list seg) : list seg := cl (Lit "nodes" :: Par :: l).

Record route := MkRoute { rt_Method : string; Pattern : list seg; Handler : list string → Request → prog }.

(** The table of [Router], without the web socket at [/ws]. *)
Definition Router : list route := [
  MkRoute "GET" [Lit "healthz"] (on0 handleHealthz);
  MkRoute "GET" [Lit "readyz"] (on0 handleReadyz);
  MkRoute "GET" [Lit "metrics"] (on0 handleMetrics);
  MkRoute "GET" [Lit "version"] (on0 static);
  MkRoute "GET" [Lit "docs"] (on0 static);
  MkRoute "GET" [Lit "openapi.yaml"] (on0 static);
  MkRoute "POST" (api [Lit "simulation"; Lit "start"]) (on0 handleSimulationStart);
  MkRoute "POST" (api [Lit "simulation"; Lit "reset"]) (on0 handleSimulationReset);
  MkRoute "GET" (api [Lit "simulation"; Lit "state"]) (on0 handleSimulationState);
  MkRoute "GET" (api [Lit "simulation"; Lit "metrics"]) (on0 handleSimulationMetrics);
  MkRoute "POST" (api [Lit "clusters"]) (on0 handleCreateCluster);
  MkRoute "GET" (api [Lit "clusters"]) (on0 handleListClusters);
  MkRoute "DELETE" (cl []) (on1 handleDeleteCluster);
  MkRoute "GET" (cl [Lit "state"]) (on1 handleClusterState);
  MkRoute "GET" (cl [Lit "convergence"]) (on1 handleConvergence);
  MkRoute "GET" (cl [Lit "suspicion"]) (on1 handleSuspicion);
  MkRoute "GET" (cl [Lit "placement"]) (on1 handlePlacement);
  MkRoute "GET" (cl [Lit "conflicts"]) (on1 handleListConflicts);
  MkRoute "POST" (cl [Lit "conflicts"; Lit "resolve"]) (on1 handleResolveConflict);
  MkRoute "PATCH" (cl [Lit "config"]) (on1 handleClusterConfig);
  MkRoute "GET" (cl [Lit "linearizable"]) (on1 handleLinearizable);
  MkRoute "GET" (cl [Lit "invariants"]) (on1 handleInvariants);
  MkRoute "POST" (cl [Lit "anti-entropy"]) (on1 handleAntiEntropy);
  MkRoute "POST" (cl [Lit "reconfigure"; Lit "add-node"]) (on1 handleSafeAddNode);
  MkRoute "GET" (cl [Lit "scenario"]) (on1 handleScenarioResult);
  MkRoute "GET" (cl [Lit "cap"]) (on1 handleCAP);
  MkRoute "POST" (cl [Lit "challenge"]) (on1 handleChallenge);
  MkRoute "GET" (api [Lit "presets"]) (on0 handleListPresets);
  MkRoute "POST" (api [Lit "presets"; Par; Lit "create"]) (on1 handleCreateFromPreset);
  MkRoute "GET" (api [Lit "glossary"]) (on0 static);
  MkRoute "GET" (api [Lit "lessons"]) (on0 static);
  MkRoute "POST" (api [Lit "scenarios"; Lit "yaml"]) (on0 handleRunScenarioYAML);
  MkRoute "GET" (cl [Lit "export"]) (on1 handleExportReport);
  MkRoute "POST" (api [Lit "race"]) (on0 handleStrategyRace);
  MkRoute "POST" (cl [Lit "write"]) (on1 handleWrite);
  MkRoute "GET" (cl [Lit "read"]) (on1 handleRead);
  MkRoute "DELETE" (cl [Lit "kv"]) (on1 handleDelete);
  MkRoute "POST" (cl [Lit "write-batch"]) (on1 handleWriteBatch);
  MkRoute "POST" (cl [Lit "nodes"]) (on1 handleAddNode);
  MkRoute "DELETE" (nd []) (on2 handleRemoveNode);
  MkRoute "POST" (nd [Lit "pause"]) (on2 handlePauseNode);
  MkRoute "POST" (nd [Lit "resume"]) (on2 handleResumeNode);
  MkRoute "POST" (nd [Lit "clock-skew"]) (on2 handleSetClockSkew);
  MkRoute "GET" (nd [Lit "log"]) (on2 handleNodeLog);
  MkRoute "GET" (nd [Lit "store"]) (on2 handleNodeStore);
  MkRoute "POST" (cl [Lit "network"; Lit "partition"]) (on1 handleInjectPartition);
  MkRoute "DELETE" (cl [Lit "network"; Lit "partition"; Par]) (on2 handleHealPartition);
  MkRoute "POST" (cl [Lit "network"; Lit "latency"]) (on1 handleSetLatency);
  MkRoute "POST" (cl [Lit "network"; Lit "drop"]) (on1 handleSetDrop);
  MkRoute "DELETE" (cl [Lit "network"; Lit "faults"]) (on1 handleClearFaults);
  MkRoute "POST" (cl [Lit "demo"; Lit "read-your-writes"]) (on1 handleDemoRYW);
  MkRoute "POST" (cl [Lit "demo"; Lit "monotonic-reads"]) (on1 handleDemoMonotonic);
  MkRoute "POST" (cl [Lit "demo"; Lit "consistent-prefix"]) (on1 handleDemoConsistentPrefix);
  MkRoute "GET" (api [Lit "scenarios"]) (on0 handleListScenarios);
  MkRoute "POST" (api [Lit "scenarios"; Par; Lit "run"]) (on1 handleRunScenario);
  MkRoute "GET" (cl [Lit "history"]) (on1 handleClusterHistory);
  MkRoute "GET" (cl [Lit "history"; Lit "state"]) (on1 handleClusterHistoryState);
  MkRoute "GET" (cl [Lit "ops"]) (on1 handleClusterOps);
  MkRoute "GET" (cl [Lit "linearize"]) (on1 handleClusterLinearize);
  MkRoute "GET" (api [Lit "demos"; Lit "2pc"]) (on0 handleDemoTwoPC);
  MkRoute "GET" (api [Lit "demos"; Lit "mvcc"]) (on0 handleDemoMVCC);
  MkRoute "GET" (api [Lit "demos"; Lit "wal"]) (on0 handleDemoWAL);
  MkRoute "GET" (api [Lit "demos"; Lit "swim"]) (on0 handleDemoSWIM);
  MkRoute "GET" (api [Lit "demos"; Lit "paxos"]) (on0 handleDemoPaxos);
  MkRoute "GET" (api [Lit "demos"; Lit "detsim"]) (on0 handleDemoDetSim)
].

(** The first route with the method and the shape of the request; 405 when only the shape fits. *)
Fixpoint dispatch (rs : list route) (other : bool) (r : Request) : prog :=
  match rs with
  | [] => WriteHeader (if other then 405 else 404)
  | rt :: rs =>
      match match_path (Pattern rt) (Path r) with
      | Some ps => if String.eqb (rt_Method rt) (Method r) then Handler rt ps r else dispatch rs true r
      | None => dispatch rs other r
      end
  end.

(** ** CORS *)

Fixpoint origin_loop (l : list string) (origin : string) : option string :=
  match l with
  | [] => None
  | o :: l => if String.eqb o "*" then Some "*" else if String.eqb o origin then Some origin else origin_loop l origin
  end.

Definition allowedOrigin (corsOrigins : list string) (origin : string) : string :=
  match corsOrigins with
  | [] => "*"
  | first :: _ =>
      match origin_loop corsOrigins origin with
      | Some v => v
      | None => if String.eqb origin "" then first else ""
      end
  end.

(** The middleware: the value of Access-Control-Allow-Origin, when it is sent, and the rest of the way. *)
Definition corsMiddleware (corsOrigins : list string) (r : Request) : option string * prog :=
  let allow := allowedOrigin corsOrigins (Origin r) in
  (if String.eqb allow "" then None else Some allow,
   if String.eqb (Method r) "OPTIONS" then WriteHeader 204 else dispatch Router false r).

(** ** Meaning *)

(** Calls that leave the orchestrator as it is; a read repairs replicas and is recorded. *)
Definition is_query {X} (c : call X) : bool :=
  match c with
  | ListClusters | GetCluster _ | GetState _ | GetConfig _ | MetricsSnapshot _ | CheckConvergence _ | Suspicion _ _
  | ListConflicts _ | Placement _ _ _ | GetNode _ _ | NodeLog _ _ | NodeStore _ _ | ScenarioResult _ | CheckLinearizable _
  | CheckInvariants _ | HistoryGet _ _ _ | HistoryMaxSeq _ | HistoryStateAt _ _ | GetOps _ => true
  | _ => false
  end.

(** The cluster a call that can fail is about. *)
Definition about {X} (c : call X) : option string :=
  match c with
  | DeleteCluster id | GetCluster id | CheckConvergence id | Suspicion id _ | ListConflicts id | ResolveConflict id _ _ _
  | Placement id _ _ | Write id _ _ _ _ | Delete id _ _ _ | Read id _ _ _ | WriteBatchAtomic id _ _ _ | AddNode id
  | RemoveNode id _ | PauseNode id _ | ResumeNode id _ | SetClockSkew id _ _ | GetNode id _ | InjectPartition id _ _
  | HealPartition id _ | SetLatency id _ _ _ | SetDropRate id _ _ _ | ClearNetworkFaults id | ScenarioResult id
  | CheckLinearizable id | CheckInvariants id | RunAntiEntropy id | SafeAddNode id | GradeChallenge id _ | GetOps id => Some id
  | _ => None
  end.

(** The answer is an error. *)
Definition fails {X} (c : call X) : X → Prop :=
  match c in call X return X → Prop with
  | DeleteCluster _ | GetCluster _ | ResolveConflict _ _ _ _ | Delete _ _ _ _ | RemoveNode _ _ | PauseNode _ _ | ResumeNode _ _
  | SetClockSkew _ _ _ | GetNode _ _ | HealPartition _ _ | SetLatency _ _ _ _ | SetDropRate _ _ _ _ | ClearNetworkFaults _ =>
      λ ok, ok = false
  | CreateCluster _ | AddNode _ | InjectPartition _ _ _ | RunScenario _ | RunScenarioSpec _ | CreateFromPreset _ => λ o, o = None
  | CheckConvergence _ => λ o, o = None
  | Suspicion _ _ => λ o, o = None
  | ListConflicts _ => λ o, o = None
  | Placement _ _ _ => λ o, o = None
  | Write _ _ _ _ _ | Read _ _ _ _ => λ o, o = None
  | WriteBatchAtomic _ _ _ _ => λ o, o = None
  | ScenarioResult _ => λ o, o = None
  | RunStrategyRace _ _ _ => λ o, o = None
  | CheckLinearizable _ => λ o, o = None
  | CheckInvariants _ => λ o, o = None
  | RunAntiEntropy _ => λ o, o = None
  | SafeAddNode _ => λ o, o = None
  | GradeChallenge _ _ => λ o, o = None
  | GetOps _ => λ o, o = None
  | _ => λ _, True
  end.

Section meaning.
Context {S : Type} (h : ∀ X, call X → S → X * S).

Fixpoint run {R} (p : io R) (s : S) : R * S :=
  match p with
  | Return r => (r, s)
  | Do c k => let '(x, s') := h _ c s in run (k x) s'
  end.

(** The pauses and resumptions a handler asks for: paused, cluster, node. *)
Fixpoint faults {R} (p : io R) (s : S) : list (bool * string * string) :=
  match p with
  | Return _ => []
  | Do c k =>
      let '(x, s') := h _ c s in
      match c with
      | PauseNode id n => [(true, id, n)]
      | ResumeNode id n => [(false, id, n)]
      | _ => []
      end ++ faults (k x) s'
  end.

(** *** Proofs *)

Fixpoint queries (p : prog) : Prop :=
  match p with Return _ => True | Do c k => is_query c = true ∧ ∀ x, queries (k x) end.

Fixpoint ends (id : string) (P : Response → Prop) (p : prog) : Prop :=
  match p with Return r => P r | Do c k => ∀ x, (about c = Some id → fails c x) → ends id P (k x) end.

Lemma queries_run p : (∀ X (c : call X) s, is_query c = true → (h X c s).2 = s) → queries p → ∀ s, (run p s).2 = s.
Proof using.
  intros Hh. induction p as [r|X c k IH]; intros Hp s; [done|]. destruct Hp as [Hc Hk]. simpl.
  pose proof (Hh X c s Hc) as Hs. destruct (h X c s) as [x s']. simpl in Hs. subst s'. by apply IH.
Qed.

Lemma ends_run id P p : (∀ X (c : call X) s, about c = Some id → fails c (h X c s).1) → ends id P p → ∀ s, P (run p s).1.
Proof using.
  intros Hh. induction p as [r|X c k IH]; intros Hp s; [done|]. simpl. pose proof (Hh X c s) as Hx. destruct (h X c s) as [x s']. by apply IH, Hp.
Qed.
End meaning.

(** The path with the shape of a pattern and the given parameters. *)
Fixpoint fill (pat : list seg) (ps : list string) : list string :=
  match pat, ps with
  | [], _ => []
  | Lit s :: pat, ps => s :: fill pat ps
  | Par :: pat, p :: ps => p :: fill pat ps
  | Par :: _, [] => []
  end.

Lemma match_path_fill pat : ∀ path ps, match_path pat path = Some ps → path = fill pat ps.
Proof using.
  induction pat as [|[s|] pat IH]; intros [|x path] ps H; simpl in H; try done.
  - destruct (String.eqb_spec s x) as [->|]; [|done]. simpl. f_equal. by apply IH.
  - apply fmap_Some in H as (ps' & H & ->). simpl. f_equal. by apply IH.
Qed.

Lemma dispatch_case (P : prog → Prop) rs : ∀ other r, P (WriteHeader 404) → P (WriteHeader 405) →
  (∀ rt ps, rt ∈ rs → match_path (Pattern rt) (Path r) = Some ps → rt_Method rt = Method r → P (Handler rt ps r)) →
  P (dispatch rs other r).
Proof using.
  induction rs as [|rt rs IH]; intros other r H4 H5 Hh; simpl; [by destruct other|].
  assert (Hrest : ∀ o, P (dispatch rs o r)) by (intros o; apply IH; [done|done|]; intros rt' ps Hin; apply Hh; by right).
  destruct (match_path (Pattern rt) (Path r)) as [ps|] eqn:Hm; [|done].
  destruct (String.eqb_spec (rt_Method rt) (Method r)); [|done]. apply Hh; [left|done|done].
Qed.

Lemma queries_states ids acc k : (∀ l, queries (k l)) → queries (states_of ids acc k).
Proof using. revert acc. induction ids as [|id ids IH]; intros acc Hk; simpl; [done|]. split; [done|]. intros st. by apply IH. Qed.

Lemma queries_metrics ids acc k : (∀ m, queries (k m)) → queries (metrics_of ids acc k).
Proof using. revert acc. induction ids as [|id ids IH]; intros acc Hk; simpl; [done|]. split; [done|]. intros st. by apply IH. Qed.

(** Follow a handler that only asks. *)
Ltac asks :=
  repeat match goal with
  | |- queries (Do _ _) => split; [reflexivity|intros]
  | |- queries (states_of _ _ _) => apply queries_states; intros
  | |- queries (metrics_of _ _ _) => apply queries_metrics; intros
  | |- queries (writeJSON _ _) => exact I
  | |- queries (writeError _) => exact I
  | |- queries (WriteHeader _) => exact I
  | |- queries (Return _) => exact I
  | |- queries (match ?x with _ => _ end) => destruct x
  end.

(** Open the handler of a route, with the number of parameters it takes. *)
Ltac open_handler ps :=
  destruct ps as [|? [|? [|? ?]]]; cbn [Handler on0 on1 on2]; try exact I;
  unfold handleHealthz, handleReadyz, handleMetrics, static, handleSimulationState, handleSimulationMetrics,
    handleListClusters, handleClusterState, handleConvergence, handleSuspicion, handlePlacement, handleListConflicts,
    handleLinearizable, handleInvariants, handleScenarioResult, handleCAP, handleListPresets, handleExportReport,
    ExportReport, handleNodeLog, handleNodeStore, handleListScenarios, handleClusterHistory,
    handleClusterHistoryState, handleClusterOps, handleClusterLinearize, handleDemoTwoPC, handleDemoMVCC,
    handleDemoWAL, handleDemoSWIM, handleDemoPaxos, handleDemoDetSim, answer, done_or, demo; cbv zeta.

Lemma get_routes : Forall (λ rt, rt_Method rt = "GET" → ∀ ps r,
  (∀ id, fill (Pattern rt) ps ≠ ["api"; "v1"; "clusters"; id; "read"]) → queries (Handler rt ps r)) Router.
Proof using.
  unfold Router. repeat (apply List.Forall_cons); [..|apply List.Forall_nil]; intros Hmeth ps r Hread; try discriminate Hmeth.
  all: try solve [open_handler ps; asks].
  destruct ps as [|id [|? ?]]; [exact I| |exact I]. by destruct (Hread id).
Qed.

Lemma get_queries r : Method r = "GET" → (∀ id, Path r ≠ ["api"; "v1"; "clusters"; id; "read"]) → queries (dispatch Router false r).
Proof using.
  intros Hget Hread. apply dispatch_case; [exact I|exact I|]. intros rt ps Hin Hm Hmeth.
  apply (proj1 (List.Forall_forall _ _) get_routes rt (proj1 (list_elem_of_In _ _) Hin)); [congruence|].
  apply match_path_fill in Hm. intros id Hf. by apply (Hread id); rewrite Hm.
Qed.

(** An error status, or the list of results of a batch. *)
Definition refused (rest : list string) (resp : Response) : Prop :=
  (400 ≤ Status resp)%Z ∨ rest = ["write-batch"] ∧ Status resp = 200%Z.

Lemma write_each_ends id rest client es : ∀ acc, rest = ["write-batch"] → ends id (refused rest) (write_each id client es acc (writeJSON 200)).
Proof using.
  induction es as [|e es IH]; intros acc Hrest; simpl; [by right|]. intros x _. by apply IH.
Qed.

(** Follow a handler whose calls on the cluster fail. *)
Ltac refuses :=
  repeat match goal with
  | |- ends _ _ (decodeJSON _ _ _) => unfold decodeJSON
  | |- ends _ _ (writeError _) => left; done
  | |- ends _ _ (WriteHeader _) => left; done
  | |- ends _ _ (Do _ _) => let H := fresh in intros ? H; simpl in H; try (specialize (H eq_refl); subst)
  | |- ends _ _ (match ?x with _ => _ end) => destruct x
  | |- ends _ _ (write_each _ _ _ _ _) => by apply write_each_ends
  end.

Lemma missing_routes id rest : Forall (λ rt, ∀ ps r,
  fill (Pattern rt) ps = "api" :: "v1" :: "clusters" :: id :: rest → ends id (refused rest) (Handler rt ps r)) Router.
Proof using.
  unfold Router. repeat (apply List.Forall_cons); [..|apply List.Forall_nil]; intros ps r Hf; try discriminate Hf;
    destruct ps as [|a [|b [|? ?]]]; try discriminate Hf; try (left; done); simpl in Hf; try discriminate Hf; injection Hf as Ha Hr; subst a;
    try subst rest; cbn [Handler on1 on2]; try (left; done).
  all: unfold handleDeleteCluster, handleClusterState, handleConvergence, handleSuspicion, handlePlacement, handleListConflicts,
    handleResolveConflict, handleClusterConfig, handleLinearizable, handleInvariants, handleAntiEntropy, handleSafeAddNode, handleScenarioResult,
    handleCAP, handleChallenge, handleExportReport, ExportReport, handleWrite, handleRead, handleDelete, handleWriteBatch, handleAddNode,
    handleRemoveNode, handlePauseNode, handleResumeNode, handleSetClockSkew, handleNodeLog, handleNodeStore, handleInjectPartition,
    handleHealPartition, handleSetLatency, handleSetDrop, handleClearFaults, handleDemoRYW, handleDemoMonotonic, handleDemoConsistentPrefix,
    handleClusterHistory, handleClusterHistoryState, handleClusterOps, handleClusterLinearize, answer, done_or; cbv zeta; try solve [refuses].
Qed.

Lemma missing_dispatch id rest r : Path r = "api" :: "v1" :: "clusters" :: id :: rest → ends id (refused rest) (dispatch Router false r).
Proof using.
  intros Hp. apply dispatch_case; [left; done|left; done|]. intros rt ps Hin Hm _.
  apply (proj1 (List.Forall_forall _ _) (missing_routes id rest) rt (proj1 (list_elem_of_In _ _) Hin)).
  apply match_path_fill in Hm. congruence.
Qed.

End handlers.

Lemma origin_loop_spec l origin : "*" ∉ l → origin_loop l origin = if bool_decide (origin ∈ l) then Some origin else None.
Proof.
  induction l as [|o l IH]; intros Hs; simpl; [done|]. destruct (String.eqb_spec o "*") as [->|_]; [set_solver|].
  destruct (String.eqb_spec o origin) as [->|Hne]; [by rewrite bool_decide_eq_true_2 by left|]. rewrite IH by set_solver.
  by destruct (decide (origin ∈ l)); [rewrite !bool_decide_eq_true_2 by set_solver|rewrite !bool_decide_eq_false_2 by set_solver].
Qed.

End Gateway.

(** ** Theorems *)

Import Gateway.


(** A handler that counts the calls that may change something, and refuses everything. *)
Definition demo_calls : ∀ X, call X → nat → X * nat :=
  λ X c s, let s' := if is_query c then s else Datatypes.S s in
    (match c in call X return X with
     | ListClusters => []
     | GetState _ => MkState "" [] ""
     | GetConfig _ => Cluster.MkCfg "" 0 "" "" 0 0 0 0 0 "" "" None
     | MetricsSnapshot _ => Metrics.NewClusterMetrics "" "" 0
     | NodeLog _ _ => []
     | NodeStore _ _ => ∅
     | HistoryGet _ _ _ => []
     | HistoryMaxSeq _ => 0%N
     | HistoryStateAt _ _ => []
     | Sleep _ => tt
     | SetReplicationMode _ _ => tt
     | DeleteCluster _ | GetCluster _ | ResolveConflict _ _ _ _ | Delete _ _ _ _ | RemoveNode _ _ | PauseNode _ _ | ResumeNode _ _
     | SetClockSkew _ _ _ | GetNode _ _ | HealPartition _ _ | SetLatency _ _ _ _ | SetDropRate _ _ _ _ | ClearNetworkFaults _ => false
     | _ => None
     end, s').

Definition demo_decoders : Decoders :=
  MkDecoders (λ _, None) (λ _, None) (λ _, None) (λ _, None) (λ _, Some (MkBatch [] "" false)) (λ _, None) (λ _, None) (λ _, None)
    (λ _, None) (λ _, None) (λ _, None) (λ _, None).
Definition demo_request (method : string) (path : list string) : Request := MkRequest method path (λ _, "") (Text "{}") "".




(** The demos of the session guarantees leave no replica paused: whatever their calls answer, they ask
    for no pause at all, or pause one replica of the cluster and then resume that same replica, also when
    the write in between fails. *)
Theorem demos_resume_replica {S : Type} (h : ∀ X, call X → S → X * S) id r s p :
  p = handleDemoRYW id r ∨ p = handleDemoMonotonic id r ∨ p = handleDemoConsistentPrefix id r →
  faults h p s = [] ∨ ∃ n, faults h p s = [(true, id, n); (false, id, n)].
Proof.
  intros [->|[->| ->]]; unfold handleDemoRYW, handleDemoMonotonic, handleDemoConsistentPrefix, done_or; cbv zeta; cbn [faults];
    destruct (h _ (GetCluster id) s) as [[] s1]; try (by left); cbn [faults app];
    destruct (h _ (GetState id) s1) as [st s2]; destruct (demoNodes st) as [w n].
  - destruct (String.eqb w "" || String.eqb n ""); [by left|]. right. exists n. cbn [faults].
    destruct (h _ (PauseNode id n) s2) as [? s3]. destruct (h _ (Write _ _ _ _ _) s3) as [[e|] s4]; cbn [faults app].
    + destruct (h _ (Sleep 120) s4) as [? s5]. destruct (h _ (ResumeNode id n) s5) as [? s6]. destruct (h _ (Read _ _ _ _) s6) as [res s7].
      by destruct (entryValue res).
    + by destruct (h _ (ResumeNode id n) s4) as [? s5].
  - destruct (String.eqb w "" || String.eqb n ""); [by left|]. right. exists n. cbn [faults].
    destruct (h _ (Write _ _ _ _ _) s2) as [? s3]. destruct (h _ (Sleep 200) s3) as [? s4]. destruct (h _ (PauseNode id n) s4) as [? s5].
    destruct (h _ (Write _ _ _ _ _) s5) as [? s6]. destruct (h _ (Sleep 120) s6) as [? s7]. destruct (h _ (ResumeNode id n) s7) as [? s8].
    destruct (h _ (Read _ _ _ _) s8) as [? s9]. by destruct (h _ (Read _ _ _ _) s9) as [? s10].
  - destruct (String.eqb w ""); [by left|]. left. cbn [faults].
    destruct (h _ (Write _ _ _ _ _) s2) as [? s3]. destruct (h _ (Write _ _ _ _ _) s3) as [? s4]. destruct (h _ (Write _ _ _ _ _) s4) as [? s5].
    destruct (h _ (Sleep 150) s5) as [? s6]. destruct (h _ (Read _ _ _ _) s6) as [res s7]. by destruct (entryValue res).
Qed.

Lemma demos_resume_replica_witness :
  faults demo_calls (handleDemoRYW "c" (demo_request "POST" [])) 0 = [] ∨
  ∃ n, faults demo_calls (handleDemoRYW "c" (demo_request "POST" [])) 0 = [(true, "c", n); (false, "c", n)].
Proof. apply (demos_resume_replica demo_calls "c" (demo_request "POST" [])). by left. Defined.

(** Cross-origin access follows the allow-list. With a list of origins without a wildcard, a request
    that names its origin is answered with that origin when it is on the list and with no header
    otherwise. An empty list allows every origin; and so does a list given in the environment that
    holds only blanks and commas. *)
Theorem cors_allow_list (l : list string) (origin : string) :
  (l ≠ [] → "*" ∉ l → origin ≠ "" → allowedOrigin l origin = if bool_decide (origin ∈ l) then origin else "") ∧
  ("*" ∈ l ∨ l = [] → ∃ o, (o = "*" ∨ o = origin) ∧ allowedOrigin l origin = o) ∧
  allowedOrigin (Config.CORSOrigins (Config.ApplyEnvOverrides (λ n, if String.eqb n "CORS_ORIGINS" then " , ," else "")
    (Config.MkConfig 8080 ["https://app.example"] 100 50 10 ""))) origin = "*".
Proof.
  split_and!.
  - intros Hne Hs Ho. destruct l as [|x l]; [done|]. unfold allowedOrigin. rewrite origin_loop_spec by done.
    case_bool_decide; [done|]. by destruct (String.eqb_spec origin "").
  - intros [Hs| ->]; [|by exists "*"; split; [left|]]. destruct l as [|x l]; [by apply elem_of_nil in Hs|]. unfold allowedOrigin.
    assert (H : ∃ o, (o = "*" ∨ o = origin) ∧ origin_loop (x :: l) origin = Some o); [|by destruct H as (o & Ho & ->); exists o].
    revert Hs. generalize (x :: l). intros l'. induction l' as [|y l' IH]; intros Hs; [by apply elem_of_nil in Hs|]. simpl.
    destruct (String.eqb_spec y "*"); [eauto|]. destruct (String.eqb y origin); [eauto|]. apply IH. set_solver.
  - by vm_compute.
Qed.
