(* ===== verification/Cli.v ===== *)
(** * The command line

    Models [src/cmd/replsim/main.go]: the subcommands and their exit codes, as programs over the calls on
    the orchestrator that the gateway uses.  Parsing flags is a parameter; what is printed is left out,
    except for the outcome of a check. *)

From stdpp Require Import pretty.
From S2P Require Import Prelude Storage Quorum Cluster Scenarios Checks Gateway.
#[local] Open Scope nat_scope.

Module Cli.
Import Gateway.

(** ** [check] *)

Inductive check_report :=
  | CouldNotCreate
  | WriteFailed (key : string)
  | ReadFailed (key : string)
  | CheckFailed
  | Checked (rep : Checks.InvariantReport).

Definition check_key (i : nat) : string := "check-key-" +:+ pretty i.

(** The loops over the keys; [failed] is the early return. *)
Fixpoint write_keys {R} (id : string) (l : list nat) (failed : string → io R) (k : io R) : io R :=
  match l with
  | [] => k
  | i :: l =>
      r ⟵ Write id "" (check_key i) ("value-" +:+ pretty i) "replsim-check";
      match r with None => failed (check_key i) | Some _ => write_keys id l failed k end
  end.
Fixpoint read_keys {R} (id : string) (l : list nat) (failed : string → io R) (k : io R) : io R :=
  match l with
  | [] => k
  | i :: l =>
      r ⟵ Read id "" (check_key i) "replsim-check";
      match r with None => failed (check_key i) | Some _ => read_keys id l failed k end
  end.

Definition nWrites : nat := 5.

(** Every return after the cluster has been created runs the deferred deletion. *)
Definition runCheck (cfg : Cluster.ClusterConfig) : io (bool * check_report) :=
  c ⟵ CreateCluster cfg;
  match c with
  | None => Return (false, CouldNotCreate)
  | Some id =>
      let leave (v : bool * check_report) := DeleteCluster id ;;; Return v in
      Sleep 300 ;;;
      write_keys id (seq 0 nWrites) (λ key, leave (false, WriteFailed key)) (
      Sleep 500 ;;;
      read_keys id (seq 0 nWrites) (λ key, leave (false, ReadFailed key)) (
      Sleep 300 ;;;
      inv ⟵ CheckInvariants id;
      match inv with
      | None => leave (false, CheckFailed)
      | Some inv => leave (Checks.OK inv, Checked inv)
      end))
  end.

(** The flags of a subcommand, [wait] in milliseconds; [None] when they do not parse. *)
Record check_flags := MkCheckFlags { strategy : string; nodes : Z; w : Z; r : Z }.
Record run_flags := MkRunFlags { scenario : string; wait : Z }.

Definition check_cfg (f : check_flags) : Cluster.ClusterConfig :=
  if String.eqb (strategy f) "leaderless" then Scenarios.base_cfg (strategy f) (nodes f) "" "" (nodes f) (w f) (r f)
  else Scenarios.base_cfg (strategy f) (nodes f) "" "" 0 0 0.

Definition cmdCheck (f : option check_flags) : io Z :=
  match f with
  | None => Return 2%Z
  | Some f =>
      (fix finish (p : io (bool * check_report)) : io Z :=
         match p with Return (ok, _) => Return (if ok then 0 else 1)%Z | Do c k => Do c (λ x, finish (k x)) end) (runCheck (check_cfg f))
  end.

(** ** [run] *)

Definition cmdRun (f : option run_flags) : io Z :=
  match f with
  | None => Return 2%Z
  | Some f =>
      if String.eqb (scenario f) "" then Return 2%Z else
      c ⟵ RunScenario (scenario f);
      match c with
      | None => Return 2%Z
      | Some id =>
          Sleep (wait f) ;;;
          conv ⟵ CheckConvergence id;
          match conv with
          | None => Return 2%Z
          | Some _ =>
              lin ⟵ CheckLinearizable id;
              match lin with
              | None => Return 2%Z
              | Some _ =>
                  inv ⟵ CheckInvariants id;
                  match inv with None => Return 2%Z | Some inv => Return (if Checks.OK inv then 0 else 1)%Z end
              end
          end
      end
  end.

(** ** Dispatch *)

Section dispatch.
Context (parse_none : list string → bool) (parse_run : list string → option run_flags) (parse_check : list string → option check_flags).

Definition cmdListScenarios (args : list string) : io Z := Return (if parse_none args then 0 else 2)%Z.
Definition cmdListPresets (args : list string) : io Z := Return (if parse_none args then 0 else 2)%Z.

Definition run (args : list string) : io Z :=
  match args with
  | [] => Return 2%Z
  | a :: args =>
      if String.eqb a "list-scenarios" then cmdListScenarios args
      else if String.eqb a "list-presets" then cmdListPresets args
      else if String.eqb a "run" then cmdRun (parse_run args)
      else if String.eqb a "check" then cmdCheck (parse_check args)
      else if String.eqb a "-h" || String.eqb a "--help" || String.eqb a "help" then Return 0%Z
      else Return 2%Z
  end.
End dispatch.

(** ** Proofs *)

(** What matters of a run of [check]: the clusters created and deleted, whether a client call failed, and
    the invariant reports received. *)
Record tally := MkTally { created : list string; deleted : list string; errors : nat; reports : list bool }.
Definition tally0 : tally := MkTally [] [] 0 [].

Definition err {A} (t : tally) (o : option A) : tally :=
  match o with Some _ => t | None => MkTally (created t) (deleted t) (S (errors t)) (reports t) end.

(** A handler that keeps the tally. *)
Definition counting {S} (h : ∀ X, call X → S → X * S) : ∀ X, call X → S * tally → X * (S * tally) :=
  λ X c, match c in call X return S * tally → X * (S * tally) with
         | CreateCluster cfg => λ s, let '(x, s') := h _ (CreateCluster cfg) s.1 in
             (x, (s', match x with Some id => MkTally (created s.2 ++ [id]) (deleted s.2) (errors s.2) (reports s.2) | None => err s.2 x end))
         | DeleteCluster id => λ s, let '(x, s') := h _ (DeleteCluster id) s.1 in
             (x, (s', MkTally (created s.2) (deleted s.2 ++ [id]) (errors s.2) (reports s.2)))
         | Write a b c d e => λ s, let '(x, s') := h _ (Write a b c d e) s.1 in (x, (s', err s.2 x))
         | Read a b c d => λ s, let '(x, s') := h _ (Read a b c d) s.1 in (x, (s', err s.2 x))
         | CheckInvariants id => λ s, let '(x, s') := h _ (CheckInvariants id) s.1 in
             (x, (s', match x with Some rep => MkTally (created s.2) (deleted s.2) (errors s.2) (reports s.2 ++ [Checks.OK rep]) | None => err s.2 x end))
         | c => λ s, let '(x, s') := h _ c s.1 in (x, (s', s.2))
         end.

Section check.
Context {St : Type} (h : ∀ X, call X → St → X * St).
Abbreviation run_c := (Gateway.run (counting h)).

(** The cluster [id] has been created and nothing has failed so far. *)
Definition running (id : string) (s : St * tally) : Prop := s.2 = MkTally [id] [] 0 [].

(** The loops either fail once or get to their end with the tally unchanged. *)
Lemma write_keys_run {R} id l (failed : string → io R) k : ∀ s, running id s →
  (∃ key s', run_c (write_keys id l failed k) s = run_c (failed key) s' ∧ s'.2 = MkTally [id] [] 1 []) ∨
  ∃ s', run_c (write_keys id l failed k) s = run_c k s' ∧ running id s'.
Proof using.
  induction l as [|i l IH]; intros s Hs; [right; by exists s|]. cbn [write_keys Gateway.run counting].
  destruct (h _ _ s.1) as [[e|] s1]; cbn [err]; [by apply IH|]. left. rewrite Hs. by eexists _, (s1, _).
Qed.

Lemma read_keys_run {R} id l (failed : string → io R) k : ∀ s, running id s →
  (∃ key s', run_c (read_keys id l failed k) s = run_c (failed key) s' ∧ s'.2 = MkTally [id] [] 1 []) ∨
  ∃ s', run_c (read_keys id l failed k) s = run_c k s' ∧ running id s'.
Proof using.
  induction l as [|i l IH]; intros s Hs; [right; by exists s|]. cbn [read_keys Gateway.run counting].
  destruct (h _ _ s.1) as [[e|] s1]; cbn [err]; [by apply IH|]. left. rewrite Hs. by eexists _, (s1, _).
Qed.

Lemma runCheck_run cfg s0 : ∃ v t s', run_c (runCheck cfg) (s0, tally0) = (v, (s', t)) ∧ deleted t = created t ∧
  v.1 = bool_decide (errors t = 0 ∧ reports t = [true]).
Proof using.
  unfold runCheck. cbn [Gateway.run counting fst snd]. destruct (h _ _ s0) as [[id|] s1]; cbn [Gateway.run err]; [|by eexists _, _, _].
  cbn [Gateway.run counting fst snd]. destruct (h _ (Sleep 300) s1) as [? s2].
  edestruct (@write_keys_run (bool * check_report) id (seq 0 nWrites)) as [(key & s3 & -> & H3)|(s3 & -> & H3)]; [reflexivity| |].
  { cbn [Gateway.run counting]. destruct (h _ (DeleteCluster id) s3.1) as [? s4]. rewrite H3. by eexists _, _, _. }
  cbn [Gateway.run counting]. destruct (h _ (Sleep 500) s3.1) as [? s4].
  edestruct (@read_keys_run (bool * check_report) id (seq 0 nWrites)) as [(key & s5 & -> & H5)|(s5 & -> & H5)]; [exact H3| |].
  { cbn [Gateway.run counting]. destruct (h _ (DeleteCluster id) s5.1) as [? s6]. rewrite H5. by eexists _, _, _. }
  cbn [Gateway.run counting fst snd]. destruct (h _ (Sleep 300) s5.1) as [? s6]. cbn [fst snd].
  destruct (h _ (CheckInvariants id) s6) as [[inv|] s7]; cbn [Gateway.run counting fst snd]; destruct (h _ (DeleteCluster id) s7) as [? s8];
    rewrite H5; eexists _, _, _; (split; [reflexivity|split; [reflexivity|]]); cbn [err errors reports created deleted fst app]; [|done].
  by destruct (Checks.OK inv).
Qed.

Lemma cmdCheck_run f s : ∃ v, run_c (runCheck (check_cfg f)) s = (v, (run_c (cmdCheck (Some f)) s).2) ∧
  (run_c (cmdCheck (Some f)) s).1 = if v.1 then 0%Z else 1%Z.
Proof using.
  unfold cmdCheck. generalize (runCheck (check_cfg f)) as p. intros p. revert s. induction p as [[ok rep]|X c k IH]; intros s; [by exists (ok, rep)|].
  cbn [Gateway.run]. destruct (counting h X c s) as [x s']. apply IH.
Qed.

End check.
End Cli.

(** ** Theorems *)

(** The exit code of [replsim check] is its verdict. Whatever the calls answer, the command exits with 0
    exactly when the cluster was created, no write or read failed and the invariants were reported OK,
    and with 1 otherwise; and when it exits, the cluster it created has been deleted, once. *)
Theorem check_exit_code {St : Type} (h : ∀ X, Gateway.call X → St → X * St) (f : Cli.check_flags) (s : St) :
  let '(code, (_, t)) := Gateway.run (Cli.counting h) (Cli.cmdCheck (Some f)) (s, Cli.tally0) in
  code = (if bool_decide (Cli.errors t = 0 ∧ Cli.reports t = [true]) then 0%Z else 1%Z) ∧ Cli.deleted t = Cli.created t.
Proof.
  destruct (Cli.runCheck_run h (Cli.check_cfg f) s) as (v & t & s' & Hr & Hd & Hv).
  destruct (Cli.cmdCheck_run h f (s, Cli.tally0)) as (v' & Hr' & Hc). rewrite Hr in Hr'. apply pair_equal_spec in Hr' as [<- Hs].
  rewrite (surjective_pairing (Gateway.run (Cli.counting h) (Cli.cmdCheck (Some f)) (s, Cli.tally0))), Hc, <- Hs. by rewrite Hv.
Qed.
