(* ===== verification/Stream.v ===== *)
(** * The event stream of the web socket

    Models [handleWebSocket] of [src/gateway/websocket.go] on the event bus of [Events]: the handler
    subscribes, sends the newest buffered events and then every event its channel receives, until the
    client is gone or a write fails.  Its steps interleave with everything else that uses the bus.  The
    upgrade of the connection belongs to the library; JSON encoding and the outcome of a write are
    parameters.  The goroutine that reads from the client only notices that it is gone. *)

From S2P Require Import Prelude Events.
#[local] Open Scope nat_scope.

Module Stream.
Import Bus.

Section stream.
Context {D T : Type} (Marshal : Event D → option T).

Inductive phase := Subscribed | Hydrating (rest : list (Event D)) | Streaming | Closed.

(** [out] has every message written and whether the write succeeded.  [since], [taken] and [missed]
    only observe: what was published since the handler subscribed, and which of it the channel took. *)
Record State := MkState {
  bus : EventBus (D := D);
  ph : phase;
  out : list (T * bool);
  since : list (Event D);
  taken : list (Event D);
  missed : list (Event D);
}.

Definition set (s : State) (b : EventBus) (p : phase) (o : list (T * bool)) : State :=
  MkState b p o (since s) (taken s) (missed s).

(** How many events the client is sent to begin with. *)
Definition recent : nat := 100.

Definition connect (b : EventBus (D := D)) (id : string) : State := MkState (Subscribe b id []) Subscribed [] [] [] [].

(** The handler returns: its deferred call removes the subscription. *)
Definition close (s : State) (id : string) (o : list (T * bool)) : State := set s (Unsubscribe (bus s) id) Closed o.

(** One step of the handler; [ok] is the outcome of the write it makes.  Errors are ignored until the
    buffered events are sent; an event that does not encode is skipped. *)
Definition serve (s : State) (id : string) (ok : bool) : State :=
  match ph s with
  | Subscribed => set s (bus s) (Hydrating (GetRecent (bus s) recent [])) (out s)
  | Hydrating [] => set s (bus s) Streaming (out s)
  | Hydrating (e :: rest) =>
      set s (bus s) (Hydrating rest) (out s ++ match Marshal e with Some d => [(d, ok)] | None => [] end)
  | Streaming =>
      match Receive (bus s) id with
      | (None, _) => s
      | (Some e, b) =>
          match Marshal e with
          | None => set s b Streaming (out s)
          | Some d => if ok then set s b Streaming (out s ++ [(d, true)]) else close (set s b Streaming (out s)) id (out s ++ [(d, false)])
          end
      end
  | Closed => s
  end.

Inductive action :=
  | APublish (evt : Event D) (now : Z)
  | AOther (o : Bus.op (D := D))
  | AServe (ok : bool)
  | ADisconnect.

(** What another user of the bus may do. *)
Definition others (id : string) (o : Bus.op (D := D)) : bool :=
  match o with
  | OPublish _ _ => false
  | OSubscribe i _ | OUnsubscribe i | OReceive i => negb (String.eqb i id)
  end.

(** The channel of the handler, and whether it takes another event. *)
Definition channel (s : State) (id : string) : list (Event D) :=
  match subscribers (bus s) !! id with Some sub => Ch sub | None => [] end.

Definition room (s : State) (id : string) : bool :=
  match subscribers (bus s) !! id with Some sub => length (Ch sub) <? chan_cap | None => false end.

Definition step (s : State) (id : string) (a : action) : Res State :=
  match a with
  | APublish evt now =>
      b ← Publish (bus s) evt now;
      let evts := published [OPublish evt now] in
      Ok (MkState b (ph s) (out s) (since s ++ evts)
            (taken s ++ if room s id then evts else []) (missed s ++ if room s id then [] else evts))
  | AOther o => if others id o then b ← Bus.step (bus s) o; Ok (set s b (ph s) (out s)) else Ok s
  | AServe ok => Ok (serve s id ok)
  | ADisconnect => Ok (match ph s with Streaming => close s id (out s) | _ => s end)
  end.

Fixpoint run (s : State) (id : string) (acts : list action) : Res State :=
  match acts with [] => Ok s | a :: rest => s' ← step s id a; run s' id rest end.

(** ** What the client is sent *)

(** The events sent first, when [j] events had been published since the subscription. *)
Definition first_sent (size j : nat) (past : list (Event D)) (s : State) : list (Event D) :=
  lastn recent (lastn size (past ++ take j (since s))).

Definition written (s : State) : list T := (out s).*1.

(** What has been written and what is still to come, by phase. *)
Definition accounts (size : nat) (past : list (Event D)) (id : string) (s : State) : Prop :=
  match ph s with
  | Subscribed => out s = []
  | Hydrating rest => ∃ j, j ≤ length (since s) ∧ written s ++ omap Marshal (rest ++ channel s id) = omap Marshal (first_sent size j past s ++ taken s)
  | Streaming => ∃ j, j ≤ length (since s) ∧ written s ++ omap Marshal (channel s id) = omap Marshal (first_sent size j past s ++ taken s)
  | Closed => ∃ j, j ≤ length (since s) ∧ written s `prefix_of` omap Marshal (first_sent size j past s ++ taken s)
  end.

Record inv (size : nat) (past : list (Event D)) (id : string) (s : State) : Prop := {
  v_size : maxBuffer (bus s) = size;
  v_buffer : buffer (bus s) = lastn size (past ++ since s);
  v_sub : match ph s with
          | Closed => subscribers (bus s) !! id = None
          | Subscribed | Hydrating _ => subscribers (bus s) !! id = Some (MkSub id [] (taken s))
          | Streaming => ∃ ch, subscribers (bus s) !! id = Some (MkSub id [] ch)
          end;
  v_taken : taken s `sublist_of` since s;
  v_missed : missed s = [] → taken s = since s;
  v_accounts : accounts size past id s;
}.

Lemma inv_connect size past id (b : EventBus (D := D)) : maxBuffer b = size → buffer b = lastn size past → inv size past id (connect b id).
Proof.
  intros Hm Hb. split; simpl; try done; [by rewrite app_nil_r|by rewrite lookup_insert_eq].
Qed.

(** Publishing: the buffer and the channel. *)
Lemma Publish_spec (b : EventBus (D := D)) evt now past : 0 < maxBuffer b → buffer b = lastn (maxBuffer b) past →
  ∃ b', Publish b evt now = Ok b' ∧ maxBuffer b' = maxBuffer b ∧ buffer b' = lastn (maxBuffer b) (past ++ published [OPublish evt now]) ∧
    ∀ id, subscribers b' !! id = (λ sub, foldr offer sub (published [OPublish evt now])) <$> subscribers b !! id.
Proof.
  intros Hm Hb. destruct (step_buffer b (OPublish evt now) past Hm Hb) as (b' & Hp & Hm' & Hb'). simpl in Hp. exists b'. split_and!; [done..|].
  intros id. unfold Publish in Hp. destruct (if _ <=? _ then _ else _) as [buf|]; [|done]. simpl in Hp. injection Hp as <-. simpl.
  rewrite lookup_fmap. by destruct (subscribers b !! id), evt as [? ? ? [] ?].
Qed.

Lemma inv_publish size past id s evt now : 0 < size → inv size past id s →
  ∃ s', step s id (APublish evt now) = Ok s' ∧ inv size past id s'.
Proof.
  intros Hsz [H1 H2 H3 H4 H5 H6]. cbn [step].
  destruct (Publish_spec (bus s) evt now (past ++ since s)) as (b & -> & Hm & Hb & Hs); [lia|by rewrite H1|]. rewrite Res_bind_Ok.
  eexists; split; [done|]. assert (∃ e, published [OPublish evt now] = [e]) as [e He] by (by eexists).
  remember (published [OPublish evt now]) as evts eqn:Hev. clear Hev.
  assert (Hoff : ∀ ch, foldr offer (MkSub id [] ch) evts = MkSub id [] (ch ++ if length ch <? chan_cap then evts else [])).
  { intros ch. rewrite He. simpl. unfold offer. simpl. destruct (_ <? _); by rewrite ?app_nil_r. }
  assert (Hfirst : ∀ j, j ≤ length (since s) → take j (since s ++ evts) = take j (since s)) by (intros; by apply take_app_le).
  unfold room. split; simpl; rewrite ?length_app.
  - congruence.
  - by rewrite Hb, H1, (assoc_L (++)).
  - rewrite Hs. destruct (ph s) as [|rest| |]; [rewrite H3; simpl; by rewrite Hoff..| |by rewrite H3].
    destruct H3 as [ch ->]. simpl. rewrite Hoff. eauto.
  - destruct (match subscribers (bus s) !! id with Some _ => _ | None => _ end).
    + by apply sublist_app.
    + rewrite app_nil_r. by apply sublist_inserts_r.
  - destruct (match subscribers (bus s) !! id with Some _ => _ | None => _ end).
    + rewrite app_nil_r. intros ->%H5. done.
    + rewrite He. by intros [_ ?]%app_nil.
  - unfold accounts, channel, first_sent, written in *. simpl. rewrite Hs. destruct (ph s) as [|rest| |]; [done|..].
    + destruct H6 as (j & Hj & Hw). exists j. rewrite length_app, Hfirst by done. split; [lia|]. rewrite H3 in *. simpl in *. rewrite Hoff. simpl.
      rewrite (assoc_L (++) rest), omap_app, (assoc_L (++)), Hw, <- omap_app. by rewrite (assoc_L (++)).
    + destruct H6 as (j & Hj & Hw). exists j. rewrite length_app, Hfirst by done. split; [lia|]. destruct H3 as [ch Hch].
      rewrite Hch in *. simpl in *. rewrite Hoff. simpl. rewrite omap_app, (assoc_L (++)), Hw, <- omap_app. by rewrite (assoc_L (++)).
    + destruct H6 as (j & Hj & Hw). exists j. rewrite length_app, Hfirst by done. split; [lia|]. rewrite (assoc_L (++)), omap_app.
      by apply prefix_app_r.
Qed.

Lemma others_frame b id o : others id o = true →
  ∃ b', Bus.step b o = Ok b' ∧ maxBuffer b' = maxBuffer b ∧ buffer b' = buffer b ∧ subscribers b' !! id = subscribers b !! id.
Proof.
  destruct o as [|i f|i|i]; simpl; [done|..]; intros Hne%negb_true_iff%String.eqb_neq; eexists; (split; [done|]).
  - simpl. by rewrite lookup_insert_ne.
  - unfold Unsubscribe. destruct (subscribers b !! i); simpl; [by rewrite lookup_delete_ne|done].
  - unfold Receive. destruct (subscribers b !! i) as [[? ? []]|]; simpl; [done|by rewrite lookup_insert_ne|done].
Qed.

(** A change of the phase or the messages only. *)
Lemma inv_set size past id s b p o : inv size past id s →
  maxBuffer b = maxBuffer (bus s) → buffer b = buffer (bus s) →
  match p with
  | Closed => subscribers b !! id = None
  | Subscribed | Hydrating _ => subscribers b !! id = Some (MkSub id [] (taken s))
  | Streaming => ∃ ch, subscribers b !! id = Some (MkSub id [] ch)
  end → accounts size past id (set s b p o) → inv size past id (set s b p o).
Proof. intros [H1 H2 _ H4 H5 _] Hm Hb Hs Ha. split; simpl; [congruence|congruence|done..]. Qed.

Lemma omap_cons_match e l : omap Marshal (e :: l) = match Marshal e with Some d => [d] | None => [] end ++ omap Marshal l.
Proof. simpl. by destruct (Marshal e). Qed.

Lemma inv_serve size past id s ok : inv size past id s → inv size past id (serve s id ok).
Proof.
  intros Hi. pose proof Hi as [H1 H2 H3 _ _ H6]. unfold accounts, channel, written, first_sent in H6.
  unfold serve. destruct (ph s) as [|[|e rest]| |] eqn:Hp; [| | | |done].
  - apply inv_set; try done. exists (length (since s)). split; [done|]. unfold written, channel, first_sent. simpl.
    rewrite H6, H3, GetRecent_spec, H2, firstn_all. simpl. f_equal. f_equal. f_equal. apply list_filter_all. by intros.
  - apply inv_set; [done|done|done|by eexists|exact H6].
  - apply inv_set; try done. destruct H6 as (j & Hj & Hw). exists j. split; [done|]. unfold written, channel, first_sent. simpl.
    rewrite <- Hw, <- app_comm_cons, omap_cons_match, fmap_app, <- (assoc_L (++)). f_equal. f_equal. by destruct (Marshal e).
  - destruct H3 as [ch Hch]. destruct H6 as (j & Hj & Hw). rewrite Hch in Hw. simpl in Hw. unfold Receive. rewrite Hch.
    destruct ch as [|e ch]; [done|]. rewrite omap_cons_match in Hw. destruct (Marshal e) as [d|].
    + destruct ok.
      * apply inv_set; try done; [simpl; rewrite lookup_insert_eq; eauto|]. exists j. split; [done|].
        unfold written, channel, first_sent. simpl. rewrite lookup_insert_eq, <- Hw, fmap_app, <- (assoc_L (++)). done.
      * unfold close. simpl. apply (inv_set size past id s); [done|..]; unfold Unsubscribe; simpl; rewrite ?lookup_insert_eq; simpl; [done|done|by rewrite lookup_delete_eq|].
        exists j. split; [done|]. unfold written, first_sent. simpl. rewrite <- Hw, fmap_app, (assoc_L (++)). by apply prefix_app_r.
    + apply inv_set; try done; [simpl; rewrite lookup_insert_eq; eauto|]. exists j. split; [done|].
      unfold written, channel, first_sent. simpl. by rewrite lookup_insert_eq.
Qed.

Lemma stream_step size past id s a : 0 < size → inv size past id s → ∃ s', step s id a = Ok s' ∧ inv size past id s'.
Proof.
  intros Hsz Hi. destruct a as [evt now|o|ok|]; [by apply inv_publish|..]; cbn [step].
  - destruct (others id o) eqn:Ho; [|by exists s]. destruct (others_frame (bus s) id o Ho) as (b & -> & Hm & Hb & Hs). rewrite Res_bind_Ok.
    eexists; split; [done|]. pose proof Hi as [_ _ H3 _ _ H6]. apply inv_set; try done; [by rewrite Hs|].
    unfold accounts, channel, written, first_sent in *. simpl. by rewrite Hs.
  - eexists; split; [done|]. by apply inv_serve.
  - eexists; split; [done|]. destruct (ph s) eqn:Hp; try done. pose proof Hi as [_ _ H3 _ _ H6]. rewrite Hp in H3.
    destruct H3 as [ch Hch]. unfold close. apply inv_set; try done; unfold Unsubscribe; rewrite Hch; simpl; [done|done|by rewrite lookup_delete_eq|].
    unfold accounts in *. simpl. rewrite Hp in H6. destruct H6 as (j & Hj & Hw). exists j. split; [done|]. change (first_sent size j past (set s _ Closed (out s))) with (first_sent size j past s). simpl. rewrite <- Hw. by apply prefix_app_r.
Qed.

Lemma stream_run size past id acts : 0 < size → ∀ s, inv size past id s → ∃ s', run s id acts = Ok s' ∧ inv size past id s'.
Proof.
  intros Hsz. induction acts as [|a acts IH]; intros s Hi; cbn [run]; [by exists s|].
  destruct (stream_step size past id s a Hsz Hi) as (s1 & -> & Hi1). rewrite Res_bind_Ok. by apply IH.
Qed.

End stream.
End Stream.

Import Bus Stream.


(** One event is published before the client connects and one just after it subscribed. *)
Definition demo_acts : list (Stream.action (D := unit)) :=
  [APublish (MkEvent EvtReadRepair "c" "n" None tt) 2; AServe true; AServe true; AServe true; AServe true; AServe true].

Definition demo_os : list (Bus.op (D := unit)) := [Bus.OPublish (MkEvent EvtLeaderElected "c" "n" None tt) 1].

Definition demo_stream : option (list (EventType * bool)) :=
  match Bus.run (Bus.NewEventBus 10) demo_os with
  | Ok b => match Stream.run (λ e, Some (ev_Type e)) (connect b "s") "s" demo_acts with Ok s => Some (out s) | Panic => None end
  | Panic => None
  end.

