(* ===== verification/Ops.v ===== *)
(** * Operational endpoints

    Models the states the API reports ([GetState] of [src/internal/simulation/orchestrator.go] and
    [src/internal/node/base.go]) and [src/gateway/ops.go]: the metrics in the text format of Prometheus,
    with [escapeLabel], and the writer that records status and size of a response for the log.

    The order in which a map of nodes is visited is an argument, and so is the format of a floating
    point number.  [%q] is written out for ASCII text; a byte outside ASCII is copied, as it is when the
    character is printable. *)

From Stdlib Require Import Ascii.
From stdpp Require Import pretty.
From S2P Require Import Prelude Transport Node Cluster Metrics.
Import (hints) Node Cluster.
#[local] Open Scope nat_scope.

Module Ops.

(** ** Reported states *)

(** No code assigns the fields [commitIndex] and [lastApplied] of a node. *)
Record NodeStatus := MkStatus {
  ns_ID : string;
  ns_ClusterID : string;
  ns_Strategy : Node.ReplicationStrategy;
  ns_Role : Node.NodeRole;
  ns_State : Node.NodeState;
  ns_CommitIndex : N;
  ns_LastApplied : N;
  ns_LeaderID : string;
  ns_Peers : list string;
  ns_Lag : Z;
}.

Definition node_GetState (clusterID : string) (b : Node.BaseNode) (nm : Metrics.NodeMetrics) : NodeStatus :=
  MkStatus (Node.id b) clusterID (Node.strategy b) (Node.role b) (Node.state b) 0 0 (Node.leaderID b) (Node.peers b) (Metrics.Lag nm).

Record ClusterState {float : Type} := MkClusterState {
  cs_ID : string;
  cs_Config : Cluster.ClusterConfig;
  cs_NodeIDs : list string;
  cs_LeaderID : string;
  cs_Nodes : gmap string NodeStatus;
  cs_Metrics : Metrics.ClusterMetrics;
  cs_Created : Z;
  cs_Partitions : gmap string Fabric.Partition;
  cs_Dropped : N;
  cs_NodeRegions : gmap string Z;
}.
Arguments ClusterState : clear implicits.

(** A node is built with metrics of its own, which the cluster lists. *)
Definition GetState {float : Type} (c : @Cluster.Cluster float) (m : Metrics.ClusterMetrics) (created : Z) : ClusterState float :=
  MkClusterState float (Cluster.ID c) (Cluster.Config c) (Cluster.NodeIDs c) (Cluster.LeaderID c)
    (map_imap (λ id n, Some (node_GetState (Cluster.ID c) (Cluster.any_base n)
                               (default (Metrics.NewNodeMetrics id) (Metrics.Nodes m !! id)))) (Cluster.Nodes c))
    (Metrics.cluster_Snapshot m) created (Fabric.GetPartitions (Cluster.Fabric c)) (Fabric.Dropped (Cluster.Fabric c)) (Cluster.NodeRegions c).

(** ** Labels *)

Definition QUOTE : ascii := "034".
Definition BACKSLASH : ascii := "092".
Definition NEWLINE : ascii := "010".

Definition str (c : ascii) : string := String c "".

(** [strings.ReplaceAll] with an [old] of one character. *)
Fixpoint replace_all (old : ascii) (new s : string) : string :=
  match s with
  | "" => ""
  | String c s => (if Ascii.eqb c old then new else str c) +:+ replace_all old new s
  end.

Definition escapeLabel (s : string) : string :=
  let s := replace_all BACKSLASH (String BACKSLASH (str BACKSLASH)) s in
  let s := replace_all QUOTE (String BACKSLASH (str QUOTE)) s in
  replace_all NEWLINE (String BACKSLASH "n") s.

Definition hex (n : nat) : ascii := ascii_of_nat (if n <? 10 then 48 + n else 87 + n).

(** One character of [%q]. *)
Definition quote_char (c : ascii) : string :=
  let n := nat_of_ascii c in
  if Ascii.eqb c QUOTE || Ascii.eqb c BACKSLASH then String BACKSLASH (str c)
  else if (32 <=? n) && negb (n =? 127) then str c
  else match n with
  | 7 => String BACKSLASH "a" | 8 => String BACKSLASH "b" | 9 => String BACKSLASH "t" | 10 => String BACKSLASH "n"
  | 11 => String BACKSLASH "v" | 12 => String BACKSLASH "f" | 13 => String BACKSLASH "r"
  | _ => String BACKSLASH (String "x" (String (hex (n / 16)) (str (hex (n mod 16)))))
  end.

Fixpoint quote_chars (s : string) : string := match s with "" => "" | String c s => quote_char c +:+ quote_chars s end.

Definition Quote (s : string) : string := str QUOTE +:+ quote_chars s +:+ str QUOTE.

(** ** The metrics page *)

Section page.
Context (format_g : F64.f64 → string).

Definition b2i (v : bool) : Z := if v then 1 else 0.

Definition help (name typ doc : string) : string :=
  "# HELP " +:+ name +:+ " " +:+ doc +:+ str NEWLINE +:+ "# TYPE " +:+ name +:+ " " +:+ typ +:+ str NEWLINE.

Definition label (name value : string) : string := name +:+ "=" +:+ Quote value.

Fixpoint join (sep : string) (l : list string) : string :=
  match l with [] => "" | [x] => x | x :: l => x +:+ sep +:+ join sep l end.

Definition sample (name : string) (labels : list string) (value : string) : string :=
  name +:+ "{" +:+ join "," labels +:+ "} " +:+ value +:+ str NEWLINE.

Definition concat_all (l : list string) : string := foldr (λ a b, a +:+ b) "" l.

Definition node_samples (cl id : string) (nm : Metrics.NodeMetrics) : string :=
  let node := escapeLabel id in
  let ls := [label "cluster" cl; label "node" node] in
  let latency name q v := sample name (ls ++ [label "quantile" q]) (format_g v) in
  concat_all [
    sample "replsim_node_replica_lag" ls (pretty (Metrics.ReplicaLag nm));
    sample "replsim_node_online" ls (pretty (b2i (Metrics.IsOnline nm)));
    sample "replsim_node_leader" ls (pretty (b2i (Metrics.IsLeader nm)));
    latency "replsim_node_write_latency_ms" "0.5" (Metrics.P50 (Metrics.WriteP nm));
    latency "replsim_node_write_latency_ms" "0.95" (Metrics.P95 (Metrics.WriteP nm));
    latency "replsim_node_write_latency_ms" "0.99" (Metrics.P99 (Metrics.WriteP nm));
    latency "replsim_node_read_latency_ms" "0.5" (Metrics.P50 (Metrics.ReadP nm));
    latency "replsim_node_read_latency_ms" "0.95" (Metrics.P95 (Metrics.ReadP nm));
    latency "replsim_node_read_latency_ms" "0.99" (Metrics.P99 (Metrics.ReadP nm))].

(** A cluster with its metrics; [order] is the order in which the walk of its nodes' metrics meets them. *)
Definition cluster_samples {float : Type} (c : @Cluster.Cluster float) (m : Metrics.ClusterMetrics) (order : list string) : string :=
  let snap := Metrics.cluster_Snapshot m in
  let cl := escapeLabel (Cluster.ID c) in
  let ls := [label "cluster" cl; label "strategy" (escapeLabel (Metrics.Strategy snap))] in
  concat_all ([
    sample "replsim_writes_total" ls (pretty (Metrics.TotalWrites snap));
    sample "replsim_reads_total" ls (pretty (Metrics.TotalReads snap));
    sample "replsim_conflicts_total" ls (pretty (Metrics.TotalConflicts snap));
    sample "replsim_dropped_messages" [label "cluster" cl] (pretty (cs_Dropped (GetState c m 0)))] ++
    omap (λ id, node_samples cl id <$> Metrics.Nodes snap !! id) order).

Definition handleMetrics {float : Type} (clusters : list (@Cluster.Cluster float * Metrics.ClusterMetrics * list string)) : string :=
  concat_all [
    help "replsim_clusters" "gauge" "Number of live clusters.";
    "replsim_clusters " +:+ pretty (Z.of_nat (length clusters)) +:+ str NEWLINE;
    help "replsim_writes_total" "counter" "Total client writes per cluster.";
    help "replsim_reads_total" "counter" "Total client reads per cluster.";
    help "replsim_conflicts_total" "counter" "Total detected conflicts per cluster.";
    help "replsim_dropped_messages" "counter" "Back-pressure message drops per cluster.";
    help "replsim_node_replica_lag" "gauge" "Replica lag in entries per node.";
    help "replsim_node_online" "gauge" "1 if the node is online, else 0.";
    help "replsim_node_leader" "gauge" "1 if the node is the leader, else 0.";
    help "replsim_node_write_latency_ms" "gauge" "Write latency percentiles (ms) per node.";
    help "replsim_node_read_latency_ms" "gauge" "Read latency percentiles (ms) per node."] +:+
  concat_all ((λ '(c, m, order), cluster_samples c m order) <$> clusters).

End page.

(** ** The response writer of the request log *)

Record statusWriter := MkWriter { status : Z; bytes : Z }.
Inductive write := WriteHeader (code : Z) | Write (n : Z).

Definition sw_step (w : statusWriter) (o : write) : statusWriter :=
  match o with WriteHeader code => MkWriter code (bytes w) | Write n => MkWriter (status w) (bytes w + n) end.

(** What [slogMiddleware] logs of a handler that writes [os]. *)
Definition logged (os : list write) : statusWriter := foldl sw_step (MkWriter 200 0) os.

(** ** Reading a label back

    A label of the text format is a quoted text in which a backslash precedes a backslash, a quote or
    the letter n. *)

Definition unescape (c : ascii) : option ascii :=
  if Ascii.eqb c BACKSLASH then Some BACKSLASH
  else if Ascii.eqb c QUOTE then Some QUOTE
  else if Ascii.eqb c "n" then Some NEWLINE else None.

(** The value up to the closing quote, and what follows. *)
Fixpoint read_chars (s : string) : option (string * string) :=
  match s with
  | "" => None
  | String c s =>
      if Ascii.eqb c QUOTE then Some ("", s)
      else if Ascii.eqb c BACKSLASH
      then match s with
           | "" => None
           | String d s => e ← unescape d; '(v, rest) ← read_chars s; Some (String e v, rest)
           end
      else '(v, rest) ← read_chars s; Some (String c v, rest)
  end.

Definition read_label (s : string) : option (string * string) :=
  match s with String c s => if Ascii.eqb c QUOTE then read_chars s else None | "" => None end.

Definition special (c : ascii) : bool := Ascii.eqb c BACKSLASH || Ascii.eqb c QUOTE || Ascii.eqb c NEWLINE.
Definition printable (c : ascii) : bool := (32 <=? nat_of_ascii c) && negb (nat_of_ascii c =? 127).

Fixpoint all_chars (P : ascii → bool) (s : string) : bool := match s with "" => true | String c s => P c && all_chars P s end.

Definition esc (c : ascii) : string :=
  if Ascii.eqb c BACKSLASH then String BACKSLASH (str BACKSLASH)
  else if Ascii.eqb c QUOTE then String BACKSLASH (str QUOTE)
  else if Ascii.eqb c NEWLINE then String BACKSLASH "n" else str c.

Lemma append_cons c (a b : string) : String c a +:+ b = String c (a +:+ b).
Proof. done. Qed.

Lemma append_nil_str (b : string) : "" +:+ b = b.
Proof. done. Qed.

Ltac appends := unfold str; rewrite ?append_cons, ?append_nil_str.

Lemma app_assoc_str (a b c : string) : (a +:+ b) +:+ c = a +:+ (b +:+ c).
Proof. induction a as [|x a IH]; [done|]. appends. by rewrite IH. Qed.

Lemma replace_all_app old new a b : replace_all old new (a +:+ b) = replace_all old new a +:+ replace_all old new b.
Proof. induction a as [|c a IH]; [done|]. appends. cbn [replace_all]. by rewrite IH, app_assoc_str. Qed.

(** The three replacements do not interfere. *)
Lemma escapeLabel_cons c s : escapeLabel (String c s) = esc c +:+ escapeLabel s.
Proof.
  unfold escapeLabel, esc. cbn [replace_all]. rewrite !replace_all_app. f_equal.
  destruct (Ascii.eqb_spec c BACKSLASH) as [->|H1]; [done|]. simpl.
  destruct (Ascii.eqb_spec c QUOTE) as [->|H2]; [done|]. simpl.
  by destruct (Ascii.eqb_spec c NEWLINE) as [->|H3].
Qed.

Lemma read_escaped s rest : read_chars (escapeLabel s +:+ String QUOTE rest) = Some (s, rest).
Proof.
  induction s as [|c s IH]; [done|]. rewrite escapeLabel_cons, app_assoc_str. unfold esc.
  destruct (Ascii.eqb_spec c BACKSLASH) as [->|H1]; [appends; simpl; by rewrite IH|].
  destruct (Ascii.eqb_spec c QUOTE) as [->|H2]; [appends; simpl; by rewrite IH|].
  destruct (Ascii.eqb_spec c NEWLINE) as [->|H3]; [appends; simpl; by rewrite IH|].
  appends. cbn [read_chars]. apply Ascii.eqb_neq in H1, H2. by rewrite H1, H2, IH.
Qed.

Lemma read_quoted s rest : all_chars printable s = true → read_chars (quote_chars s +:+ String QUOTE rest) = Some (s, rest).
Proof.
  induction s as [|c s IH]; [done|]. cbn [all_chars quote_chars]. intros [Hc Hs]%andb_prop. rewrite app_assoc_str. unfold quote_char.
  destruct (Ascii.eqb_spec c QUOTE) as [->|H1]; [cbn [orb]; appends; simpl; by rewrite IH|].
  destruct (Ascii.eqb_spec c BACKSLASH) as [->|H2]; [cbn [orb]; appends; simpl; by rewrite IH|]. cbn [orb].
  unfold printable in Hc. rewrite Hc. appends. cbn [read_chars]. apply Ascii.eqb_neq in H1, H2. by rewrite H1, H2, IH.
Qed.

Lemma all_chars_app P a b : all_chars P (a +:+ b) = all_chars P a && all_chars P b.
Proof. induction a as [|c a IH]; [done|]. appends. simpl. by rewrite IH, andb_assoc. Qed.

Lemma escaped_printable s : all_chars (λ c, printable c || Ascii.eqb c NEWLINE) s = true → all_chars printable (escapeLabel s) = true.
Proof.
  induction s as [|c s IH]; [done|]. simpl. intros [Hc Hs]%andb_prop. rewrite escapeLabel_cons, all_chars_app, IH, andb_true_r by done.
  unfold esc. destruct (Ascii.eqb c BACKSLASH); [done|]. destruct (Ascii.eqb c QUOTE); [done|].
  destruct (Ascii.eqb c NEWLINE); [done|]. simpl. by rewrite orb_false_r in Hc; rewrite Hc.
Qed.

Lemma escape_longer s : String.length s ≤ String.length (escapeLabel s) ∧
  (String.length (escapeLabel s) = String.length s → all_chars (λ c, negb (special c)) s = true).
Proof.
  induction s as [|c s [IH1 IH2]]; [done|]. rewrite escapeLabel_cons. unfold esc, special. simpl.
  destruct (Ascii.eqb c BACKSLASH); [appends; simpl; split; lia|]. destruct (Ascii.eqb c QUOTE); [appends; simpl; split; lia|].
  destruct (Ascii.eqb c NEWLINE); [appends; simpl; split; lia|]. appends. simpl. split; [lia|]. intros [= H]. by apply IH2.
Qed.

Lemma escape_plain s : all_chars (λ c, negb (special c)) s = true → escapeLabel s = s.
Proof.
  induction s as [|c s IH]; [done|]. simpl. intros [Hc Hs]%andb_prop. rewrite escapeLabel_cons, IH by done. unfold esc, special in *.
  destruct (Ascii.eqb c BACKSLASH); [done|]. destruct (Ascii.eqb c QUOTE); [done|]. by destruct (Ascii.eqb c NEWLINE).
Qed.

End Ops.

Import Ops.

(** Labels of the metrics page.  A label value that [escapeLabel] has escaped reads back as the original
    between plain quotes; the page quotes it once more with [%q], so that a reader of the page gets the
    escaped text, which is the original exactly when it has no backslash, quote or newline. *)
Theorem metrics_labels (s rest : string) (Hs : all_chars (λ c, printable c || Ascii.eqb c NEWLINE) s = true) :
  read_label (str QUOTE +:+ escapeLabel s +:+ String QUOTE rest) = Some (s, rest) ∧
  read_label (Quote (escapeLabel s) +:+ rest) = Some (escapeLabel s, rest) ∧
  (escapeLabel s = s ↔ all_chars (λ c, negb (special c)) s = true).
Proof.
  split_and!.
  - apply read_escaped.
  - unfold Quote. rewrite !app_assoc_str. appends. cbn [read_label]. by apply read_quoted, escaped_printable.
  - split; [|apply escape_plain]. intros He. apply escape_longer. by rewrite He.
Qed.

Lemma metrics_labels_witness :
  all_chars (λ c, printable c || Ascii.eqb c NEWLINE) (String "a" (str BACKSLASH)) = true ∧
  read_label (Quote (escapeLabel (String "a" (str BACKSLASH))) +:+ "}") = Some (String "a" (String BACKSLASH (str BACKSLASH)), "}").
Proof.
  split; [by vm_compute|]. exact (proj1 (proj2 (metrics_labels (String "a" (str BACKSLASH)) "}" eq_refl))).
Defined.
