(* ===== verification/Startup.v ===== *)
(** * The server process

    Models [main], [run] and [logLevel] of [src/cmd/server/main.go]: the flags, the configuration of
    [Checks.Config], telemetry, the database, the server and the shutdown on a signal, with the deferred
    clean-up.  What the libraries and the operating system answer is an argument; the effects of a run
    are the list of calls it makes on them. *)

From S2P Require Import Prelude Checks.
#[local] Open Scope nat_scope.

Module Startup.
Import Config.

(** What the environment answers. *)
Record Env := MkEnv {
  config : file;
  getenv : string → string;
  otel_ok : bool;
  open_ok : bool;
  restore_ok : bool;
}.

Inductive event :=
  | InitTelemetry | ShutdownTelemetry
  | OpenDB (path : string) | CloseDB
  | Restore
  | NewServer (origins : list string)
  | ListenPprof (addr : string)
  | Listen (port : Z)
  | WaitSignal | ShutdownServer.

#[export] Instance event_eq_dec : EqDecision event.
Proof. solve_decision. Defined.

Inductive error := ErrConfig (e : config_error) | ErrTelemetry | ErrOpen | ErrRestore.

(** The calls made so far and how the function returned. *)
Definition outcome : Type := list event * option error.

Definition call (e : event) (k : outcome) : outcome := (e :: k.1, k.2).

(** [defer]: the call is made when the rest returns, whatever it returns. *)
Definition defer (e : event) (k : outcome) : outcome := (k.1 ++ [e], k.2).

Definition fail (e : error) : outcome := ([], Some e).

(** The server runs until a signal arrives; a listener that fails is only logged. *)
Definition serve (env : Env) (cfg : Config) : outcome :=
  call (NewServer (CORSOrigins cfg))
    (let pprof := getenv env "PPROF_ADDR" in
     let rest := call (Listen (Port cfg)) (call WaitSignal (call ShutdownServer ([], None))) in
     if String.eqb pprof "" then rest else call (ListenPprof pprof) rest).

Definition run (env : Env) : outcome :=
  match startup (config env) (getenv env) with
  | inl e => fail (ErrConfig e)
  | inr cfg =>
      call InitTelemetry
        (if otel_ok env
         then defer ShutdownTelemetry
           (if String.eqb (SQLitePath cfg) "" then serve env cfg
            else call (OpenDB (SQLitePath cfg))
              (if open_ok env
               then defer CloseDB (call Restore (if restore_ok env then serve env cfg else fail ErrRestore))
               else fail ErrOpen))
         else fail ErrTelemetry)
  end.

Inductive level := LevelDebug | LevelInfo | LevelWarn | LevelError.

Definition logLevel (getenv : string → string) : level :=
  let v := getenv "LOG_LEVEL" in
  if String.eqb v "debug" then LevelDebug
  else if String.eqb v "warn" then LevelWarn
  else if String.eqb v "error" then LevelError
  else LevelInfo.

(** The exit status. *)
Definition main (showVersion : bool) (env : Env) : list event * Z :=
  if showVersion then ([], 0%Z)
  else let '(es, err) := run env in (es, match err with None => 0%Z | Some _ => 1%Z end).

(** ** Clean-up *)

Definition is_open (e : event) : bool := match e with OpenDB _ => true | _ => false end.

(** What serving leaves in the list of calls. *)
Lemma serve_events env cfg : (serve env cfg).2 = None ∧ Listen (Port cfg) ∈ (serve env cfg).1 ∧
  (∀ p, Listen p ∈ (serve env cfg).1 → p = Port cfg) ∧ filter (λ e, e = CloseDB) (serve env cfg).1 = [] ∧
  existsb is_open (serve env cfg).1 = false.
Proof.
  unfold serve. destruct (String.eqb (getenv env "PPROF_ADDR") ""); simpl; split_and!; try done; set_solver.
Qed.

(** Every run shuts telemetry down exactly when it had been started, as its last act, and closes a
    database it has opened exactly once; it listens on the configured port only, and, when it has a
    database, after restoring from it and before closing it. *)
Lemma run_cleans_up env :
  let '(es, err) := run env in
  (err = None ↔ ∃ p, Listen p ∈ es) ∧
  (otel_ok env = true → InitTelemetry ∈ es → last es = Some ShutdownTelemetry) ∧
  length (filter (λ e, e = CloseDB) es) = (if existsb is_open es && open_ok env then 1 else 0) ∧
  (∀ p, Listen p ∈ es → ∃ cfg, startup (config env) (getenv env) = inr cfg ∧ p = Port cfg ∧
     (SQLitePath cfg ≠ "" → ∃ es1 es2 es3, es = es1 ++ Restore :: es2 ++ CloseDB :: es3 ∧ Listen p ∈ es2)).
Proof.
  unfold run. destruct (startup (config env) (getenv env)) as [e|cfg]; [simpl; split_and!; [split; [done|set_solver]|set_solver|done|set_solver]|].
  pose proof (serve_events env cfg) as Hs. destruct (serve env cfg) as [ses serr]. cbn [fst snd] in Hs.
  destruct Hs as (-> & S2 & S3 & S4 & S5).
  destruct (otel_ok env); [|simpl; split_and!; [split; [done|set_solver]|done|done|set_solver]].
  destruct (String.eqb_spec (SQLitePath cfg) "") as [Hp|Hp].
  - simpl. split_and!.
    + split; [|done]. intros _. exists (Port cfg). set_solver.
    + intros _ _. change (InitTelemetry :: ?l ++ [?x]) with ((InitTelemetry :: l) ++ [x]). apply last_snoc.
    + rewrite filter_cons_False by done. rewrite filter_app, S4, existsb_app, S5. done.
    + intros p Hin. exists cfg. split_and!; [done|apply S3; set_solver|done].
  - destruct (open_ok env); [|simpl; split_and!; [split; [done|set_solver]|done|done|set_solver]].
    destruct (restore_ok env); [|simpl; split_and!; [split; [done|set_solver]|done|done|set_solver]].
    simpl. split_and!.
    + split; [|done]. intros _. exists (Port cfg). set_solver.
    + intros _ _. rewrite !app_comm_cons. apply last_snoc.
    + rewrite !filter_cons_False by done. rewrite !filter_app, S4. done.
    + intros p Hin. exists cfg. split_and!; [done|apply S3; set_solver|]. intros _.
      exists [InitTelemetry; OpenDB (SQLitePath cfg)], ses, [ShutdownTelemetry]. split; [|set_solver].
      simpl. by rewrite <- (assoc_L (++)).
Qed.

End Startup.
