(* ===== verification/Runtime.v ===== *)
(** * Clusters running on the network fabric

    The goroutines of a cluster, put together: the message loop of every node ([runMessageLoop]), its
    tickers ([runTicker], [runSyncLoop], [runAntiEntropy], [runHintedHandoff]) and the link workers of
    the fabric ([linkWorker]), as steps that a schedule interleaves.

    The systems of [Raft], [SingleLeader], [MultiLeader] and [LeaderlessQuorum] have a network of their
    own that may lose, delay and reorder.  Here the nodes run on the fabric of [fabric.go] instead, with
    its link queues, delivery times, drop rates, partitions and inboxes of bounded capacity; such a system's own network only
    keeps the messages a goroutine has not handed to [Send] yet.  Every run on the fabric is shown to be
    a run of the system on its own network, so what holds there holds here. *)

From S2P Require Import Prelude Storage Transport Node MultiLeader Leaderless LeaderlessQuorum SingleLeader Raft.
#[local] Open Scope nat_scope.

Module Runtime.
Import Message.

Lemma submseteq_add (a b c ms : list Message) : a ++ b ⊆+ c → (a ++ ms) ++ b ⊆+ c ++ ms.
Proof. intros H. rewrite <- (assoc_L (++)), (Permutation_app_comm ms b), (assoc_L (++)). by apply submseteq_skips_r. Qed.

Lemma remove_at_submseteq i (l : list Message) m : l !! i = Some m → remove_at i l ⊆+ l.
Proof. intros H. rewrite (remove_at_perm i l m H) at 2. by apply submseteq_cons. Qed.

(** ** The messages a fabric carries *)

Section fabric.
Context {float : Type} (fltb : float → float → bool) (fzero : float).
Implicit Types f : @Fabric.NetworkFabric float.

(** What a link holds. *)
Definition on_way (l : Fabric.link) : list Message := Fabric.t_msg <$> option_list (Fabric.held l) ++ Fabric.queue l.

Definition carried f : list Message := flat on_way (Fabric.links f) ++ flat Fabric.items (Fabric.nodes f).

(** An inbox only receives what is addressed to its owner. *)
Definition addressed f : Prop := ∀ k ch m, Fabric.nodes f !! k = Some ch → m ∈ Fabric.items ch → m_TargetID m = k.

Lemma carried_Send f m r now : carried (Fabric.Send fltb fzero f m r now).1 ⊆+ m :: carried f.
Proof.
  assert (Hskip : carried f ⊆+ m :: carried f) by by apply submseteq_cons.
  unfold Fabric.Send. destruct (_ || _); [done|]. destruct (fltb _ _); [done|].
  unfold Fabric.getOrCreateLink. destruct (Fabric.closed f); [done|].
  destruct (Fabric.links f !! _) as [l|] eqn:E; destruct (_ <? _); unfold carried;
    cbn [fst Fabric.links Fabric.nodes Fabric.set_links Fabric.add_dropped]; rewrite ?insert_insert_eq.
  - rewrite (flat_insert on_way _ _ _ [m]); [done|]. rewrite E. unfold on_way; simpl. rewrite !fmap_app. simpl. solve_Permutation.
  - rewrite (flat_insert on_way _ _ _ []); [done|]. by rewrite E.
  - rewrite (flat_insert on_way _ _ _ [m]); [done|]. by rewrite E.
  - rewrite (flat_insert on_way _ _ _ []); [done|]. by rewrite E.
Qed.

Lemma addressed_Send f m r now : addressed f → addressed (Fabric.Send fltb fzero f m r now).1.
Proof.
  intros Ha. unfold Fabric.Send, Fabric.getOrCreateLink. repeat case_match; simplify_eq; done.
Qed.

(** ** What the network does by itself or under an operator's control *)

Definition network (o : @Fabric.op float) : bool :=
  match o with Fabric.OSend _ _ _ | Fabric.ORecv _ | Fabric.ORegister _ _ => false | _ => true end.

Definition net_step f (o : Fabric.op) : Fabric.NetworkFabric := Fabric.fab (Fabric.step fltb fzero (Fabric.MkTrace f [] []) o).

Lemma carried_take f key : carried (Fabric.worker_take f key) ≡ₚ carried f.
Proof.
  unfold Fabric.worker_take. destruct (Fabric.closed f); [done|].
  destruct (Fabric.links f !! key) as [[[|tm q] [h|] la]|] eqn:E; try done.
  unfold carried. cbn [Fabric.links Fabric.nodes Fabric.set_links]. rewrite (flat_insert on_way _ _ _ []); [done|]. by rewrite E.
Qed.

Lemma carried_deliver f key now : carried (Fabric.worker_deliver f key now).1 ⊆+ carried f.
Proof.
  unfold Fabric.worker_deliver. destruct (Fabric.closed f); [done|].
  destruct (Fabric.links f !! key) as [[q [tm|] la]|] eqn:E; try done. destruct (_ <? _)%Z; [done|].
  assert (Hl : flat on_way (Fabric.links f) ≡ₚ Fabric.t_msg tm :: flat on_way (<[key := Fabric.MkLink q None la]> (Fabric.links f))).
  { rewrite <- (insert_id _ _ _ E) at 1. rewrite <- (insert_insert_eq _ key _ (Fabric.MkLink q None la)).
    apply (flat_insert on_way _ _ _ [Fabric.t_msg tm]). by rewrite lookup_insert_eq. }
  destruct (Fabric.nodes _ !! _) as [ch|] eqn:Ech; [destruct (_ <? _)|]; unfold carried;
    cbn [fst Fabric.links Fabric.nodes Fabric.set_links Fabric.set_nodes Fabric.add_dropped]; rewrite Hl; [|by apply submseteq_cons..].
  rewrite (flat_insert Fabric.items _ _ _ [Fabric.t_msg tm]).
  - simpl. by rewrite Permutation_middle.
  - cbn [Fabric.nodes Fabric.set_links] in Ech. rewrite Ech. simpl. solve_Permutation.
Qed.

Lemma carried_recv f k c m rest : Fabric.nodes f !! k = Some (Fabric.MkInbox c (m :: rest)) →
  carried f ≡ₚ m :: carried (Fabric.inbox_recv f k).
Proof.
  intros E. unfold Fabric.inbox_recv. rewrite E. unfold carried. cbn [Fabric.links Fabric.nodes Fabric.set_nodes].
  rewrite Permutation_middle. f_equiv. rewrite <- (insert_id _ _ _ E) at 1.
  rewrite <- (insert_insert_eq _ k _ (Fabric.MkInbox c rest)).
  apply (flat_insert Fabric.items _ _ _ [m]). by rewrite lookup_insert_eq.
Qed.

Lemma addressed_recv f k : addressed f → addressed (Fabric.inbox_recv f k).
Proof.
  intros Ha. unfold Fabric.inbox_recv. destruct (Fabric.nodes f !! k) as [[c [|m rest]]|] eqn:E; try done.
  intros j ch x. simpl. rewrite lookup_insert_Some. intros [[<- <-]|[_ Hj]] Hx; [|by eapply Ha].
  eapply Ha; [done|]. by right.
Qed.

Lemma addressed_deliver f key now : addressed f → addressed (Fabric.worker_deliver f key now).1.
Proof.
  intros Ha. unfold Fabric.worker_deliver. destruct (Fabric.closed f); [done|].
  destruct (Fabric.links f !! key) as [[q [tm|] la]|] eqn:E; try done. destruct (_ <? _)%Z; [done|].
  destruct (Fabric.nodes _ !! _) as [ch|] eqn:Ech; [destruct (_ <? _)|]; try done.
  intros j c x. simpl. rewrite lookup_insert_Some. intros [[<- <-]|[_ Hj]]; [|by apply (Ha j)].
  simpl. intros [Hx| ->%list_elem_of_singleton]%elem_of_app; [|done]. by apply (Ha _ ch).
Qed.

Lemma net_step_ok f o : network o = true → addressed f → carried (net_step f o) ⊆+ carried f ∧ addressed (net_step f o).
Proof.
  intros Ho Ha. unfold net_step. destruct o; try done; simpl.
  - split; [by rewrite carried_take|]. unfold Fabric.worker_take. repeat case_match; done.
  - pose proof (carried_deliver f key now). pose proof (addressed_deliver f key now Ha).
    by destruct (Fabric.worker_deliver f key now).
  - split.
    + unfold carried; simpl. apply submseteq_app; [done|]. destruct (Fabric.nodes f !! id) as [ch|] eqn:E.
      * rewrite (flat_delete _ _ _ _ E). apply submseteq_inserts_l. done.
      * by rewrite delete_id.
    + intros k ch m. simpl. intros [_ ?]%lookup_delete_Some. by eapply Ha.
  - unfold Fabric.Close. by destruct (Fabric.closed f).
Qed.

(** ** Clusters *)

(** What the runtime asks of a replication strategy: the steps of its nodes on a network of its own,
    which of them are a node's own activity, and what the message loop of node [k] does with a
    message; [I] is what a handler reads from its environment. *)
Class System (Y A I : Type) := {
  sys_step : Y → A → Res Y;
  net : Y → list Message;
  with_net : Y → list Message → Y;
  local : A → bool;
  handle : Y → string → I → Message → Res (Y * list Message);
}.

(** Its own steps only add to the network, and handling a message on the network is a step. *)
Class SystemLaws (Y A I : Type) `{System Y A I} : Prop := {
  net_with_net : ∀ y ms, net (with_net y ms) = ms;
  with_net_net : ∀ y, with_net y (net y) = y;
  with_net_twice : ∀ y ms ms', with_net (with_net y ms) ms' = with_net y ms';
  local_frame : ∀ y ms a, local a = true →
    sys_step (with_net y ms) a = (y' ← sys_step (with_net y []) a; Ok (with_net y' (ms ++ net y')));
  handle_frame : ∀ y ms k inp m, handle (with_net y ms) k inp m = (r ← handle y k inp m; Ok (with_net r.1 ms, r.2));
  receive : ∀ y i k inp m, net y !! i = Some m → m_TargetID m = k →
    ∃ a left, remove_at i (net y) ⊆+ left ∧ sys_step y a = (r ← handle y k inp m; Ok (with_net r.1 (left ++ r.2)));
}.

Section running.
Context {Y A I : Type} `{HL : SystemLaws Y A I}.

(** The nodes with what they have yet to send, and the fabric. *)
Record Running := MkRunning { core : Y; fabric : @Fabric.NetworkFabric float }.

Inductive action :=
  | Act (a : A)
  | Send (i : nat) (r : @Fabric.draws float) (now : Z)
  | Net (o : @Fabric.op float)
  | Receive (k : string) (inp : I).

Definition step (s : Running) (a : action) : Res Running :=
  match a with
  | Act a => if local a then y ← sys_step (core s) a; Ok (MkRunning y (fabric s)) else Ok s
  | Send i r now =>
      match net (core s) !! i with
      | Some m => Ok (MkRunning (with_net (core s) (remove_at i (net (core s)))) (Fabric.Send fltb fzero (fabric s) m r now).1)
      | None => Ok s
      end
  | Net o => Ok (if network o then MkRunning (core s) (net_step (fabric s) o) else s)
  | Receive k inp =>
      match Fabric.nodes (fabric s) !! k with
      | Some (Fabric.MkInbox _ (m :: _)) =>
          r ← handle (core s) k inp m;
          Ok (MkRunning (with_net r.1 (net (core s) ++ r.2)) (Fabric.inbox_recv (fabric s) k))
      | _ => Ok s
      end
  end.

Fixpoint run (s : Running) (acts : list action) : Res Running :=
  match acts with [] => Ok s | a :: rest => s' ← step s a; run s' rest end.

Fixpoint sys_run (y : Y) (acts : list A) : Res Y :=
  match acts with [] => Ok y | a :: rest => y' ← sys_step y a; sys_run y' rest end.

(** *** Simulation

    The system on its own network has the same nodes, and on its way whatever the cluster has yet to
    send, on its links or in its inboxes. *)
Record sim (s : Running) (y : Y) : Prop := {
  sim_core : with_net (core s) [] = with_net y [];
  sim_air : net (core s) ++ carried (fabric s) ⊆+ net y;
  sim_addressed : addressed (fabric s);
}.

(** The outcomes of both correspond. *)
Definition matches (r : Res Running) (q : Res Y) : Prop :=
  match r with Ok s => ∃ y, q = Ok y ∧ sim s y | Panic => q = Panic end.

Lemma sys_step_local y y0 a : local a = true → with_net y [] = y0 →
  sys_step y a = (y' ← sys_step y0 a; Ok (with_net y' (net y ++ net y'))).
Proof using HL. intros Ha <-. rewrite <- local_frame by done. by rewrite with_net_net. Qed.

Lemma handle_core y y0 k inp m : with_net y [] = y0 →
  handle y k inp m = (r ← handle y0 k inp m; Ok (with_net r.1 (net y), r.2)).
Proof using HL. intros <-. rewrite <- handle_frame. by rewrite with_net_twice, with_net_net. Qed.

Lemma sim_Act s y a : sim s y → local a = true →
  matches (y' ← sys_step (core s) a; Ok (MkRunning y' (fabric s))) (sys_step y a).
Proof using HL.
  intros [Hc Hn Ha] Hl. rewrite (sys_step_local (core s) _ a Hl Hc), (sys_step_local y _ a Hl eq_refl).
  destruct (sys_step (with_net y []) a) as [y'|]; simpl; [|done]. eexists. split; [done|]. split; simpl.
  - by rewrite !with_net_twice.
  - rewrite !net_with_net. by apply submseteq_add.
  - done.
Qed.

Lemma sim_Receive s y k inp c m rest : sim s y → Fabric.nodes (fabric s) !! k = Some (Fabric.MkInbox c (m :: rest)) →
  ∃ a, matches (r ← handle (core s) k inp m;
                Ok (MkRunning (with_net r.1 (net (core s) ++ r.2)) (Fabric.inbox_recv (fabric s) k))) (sys_step y a).
Proof using HL.
  intros [Hc Hn Ha] Hk. assert (Ht : m_TargetID m = k) by (eapply Ha; [done|left]).
  pose proof (carried_recv _ _ _ _ _ Hk) as Hp. rewrite Hp, <- Permutation_middle in Hn.
  assert (Hm : m ∈ net y) by (eapply elem_of_submseteq; [|done]; left). apply list_elem_of_lookup in Hm as [i Hi].
  destruct (receive y i k inp m Hi Ht) as (a & left & Hleft & Hstep). exists a. rewrite Hstep.
  rewrite (handle_core (core s) _ _ _ _ Hc), (handle_core y _ _ _ _ eq_refl).
  destruct (handle (with_net y []) k inp m) as [[y' ms]|]; simpl; [|done]. eexists. split; [done|]. split; simpl.
  - by rewrite !with_net_twice.
  - rewrite !net_with_net. apply submseteq_add. rewrite <- Hleft. rewrite (remove_at_perm i _ _ Hi) in Hn.
    by apply (submseteq_app_inv_l _ _ [m]).
  - by apply addressed_recv.
Qed.

Lemma sys_run_one y a : sys_run y [a] = sys_step y a.
Proof. simpl. by destruct (sys_step y a). Qed.

Lemma sim_step s y a : sim s y → ∃ acts, length acts ≤ 1 ∧ matches (step s a) (sys_run y acts).
Proof using HL.
  intros Hs. assert (Hskip : matches (Ok s) (Ok y)) by by exists y.
  assert (Hnone : ∃ acts, length acts ≤ 1 ∧ matches (Ok s) (sys_run y acts)) by (exists []; split; [simpl; lia|done]).
  destruct a as [a|i r now|o|k inp]; cbn [step].
  - destruct (local a) eqn:Hl; [|done]. exists [a]. split; [done|]. rewrite sys_run_one. by apply sim_Act.
  - exists []. split; [simpl; lia|]. destruct (net (core s) !! i) as [m|] eqn:Hi; [|done]. exists y. split; [done|].
    destruct Hs as [Hc Hn Ha]. split; simpl; [by rewrite with_net_twice| |by apply addressed_Send].
    rewrite net_with_net. etransitivity; [apply submseteq_skips_l, carried_Send|].
    by rewrite <- Permutation_middle, (app_comm_cons _ _ m), <- (remove_at_perm i _ _ Hi).
  - exists []. split; [simpl; lia|]. destruct (network o) eqn:Ho; [|done]. exists y. split; [done|]. destruct Hs as [Hc Hn Ha].
    destruct (net_step_ok (fabric s) o Ho Ha) as [H1 H2]. split; simpl; [done| |done].
    etransitivity; [by apply submseteq_skips_l|done].
  - destruct (Fabric.nodes (fabric s) !! k) as [[c [|m rest]]|] eqn:Hk; [done| |done].
    destruct (sim_Receive s y k inp c m rest Hs Hk) as [a Hm]. exists [a]. split; [done|]. by rewrite sys_run_one.
Qed.

Lemma core_run_app y acts acts' : sys_run y (acts ++ acts') = (y' ← sys_run y acts; sys_run y' acts').
Proof. revert y. induction acts as [|a acts IH]; intros y; [done|]. simpl. destruct (sys_step y a); [apply IH|done]. Qed.

Lemma sim_run acts : ∀ s y, sim s y → ∃ acts', length acts' ≤ length acts ∧ matches (run s acts) (sys_run y acts').
Proof using HL.
  induction acts as [|a acts IH]; intros s y Hs; [exists []; split; [done|by exists y]|].
  destruct (sim_step s y a Hs) as (as1 & Hl1 & H1). cbn [run]. destruct (step s a) as [s'|]; simpl in H1 |- *.
  - destruct H1 as (y' & Hr & Hs'). destruct (IH s' y' Hs') as (as2 & Hl2 & H2). exists (as1 ++ as2).
    rewrite length_app, core_run_app, Hr. split; [lia|done].
  - exists as1. split; [lia|done].
Qed.

(** A cluster starts with nothing on its way. *)
Lemma sim_start y f : carried f = [] → sim (MkRunning y f) y.
Proof.
  intros Hf. split; simpl; [done|by rewrite Hf, app_nil_r|]. intros k ch m Hk Hm.
  assert (Hin : m ∈ carried f); [|by rewrite Hf in Hin; apply elem_of_nil in Hin].
  apply elem_of_app. right. apply list_elem_of_bind. exists (k, ch). split; [done|]. by apply elem_of_map_to_list.
Qed.

End running.
End fabric.

(** ** The strategies

    Each handler runs on the node that owns the inbox. *)

Section raft.
Context (Marshal : gmap string KVEntry → string) (Unmarshal : string → option (gmap string KVEntry)).

Definition raft_local (a : Raft.action) : bool := match a with Raft.ADeliver _ | Raft.ADrop _ => false | _ => true end.

Definition raft_loop (y : Raft.Sys) (k : string) (_ : unit) (m : Message) : Res (Raft.Sys * list Message) :=
  match Raft.nodes y !! k with
  | Some n => r ← Raft.HandleMessage Marshal Unmarshal n m; Ok (Raft.MkSys (<[k := r.1]> (Raft.nodes y)) (Raft.net y), r.2)
  | None => Ok (y, [])
  end.

#[local] Instance raft_system : System Raft.Sys Raft.action unit :=
  {| sys_step := Raft.sys_step Marshal Unmarshal; net := Raft.net; with_net y ms := Raft.MkSys (Raft.nodes y) ms;
     local := raft_local; handle := raft_loop |}.

Lemma raft_laws : SystemLaws Raft.Sys Raft.action unit.
Proof.
  split; [done|by intros []|done| | |].
  - intros [ns net0] ms a Ha. simpl in *. destruct a; try done; simpl; destruct (ns !! k) as [n|]; unfold Raft.put; simpl;
      rewrite ?app_nil_r; try done; try (destruct (Node.isPaused _); simpl; rewrite ?app_nil_r; [done|]); try done.
    + by destruct (Raft.maybeElect _ _) as [[]|].
    + destruct (Raft.maybeHeartbeat _ _) as [ms'|]; simpl; [|done]. by destruct (Raft.maybeCompact _).
    + destruct (Raft.propose _ _ _ _ _ _) as [[e|[[idx n'] ms']]|]; simpl; by rewrite ?app_nil_r.
  - intros [ns net0] ms k inp m. simpl. unfold raft_loop; simpl. destruct (ns !! k) as [n|]; [|done].
    by destruct (Raft.HandleMessage _ _ _ _).
  - intros [ns net0] i k inp m Hi <-. simpl in *. exists (Raft.ADeliver i), (remove_at i net0). split; [done|].
    simpl. rewrite Hi. unfold raft_loop; simpl. destruct (ns !! m_TargetID m) as [n|]; simpl; [|by rewrite app_nil_r].
    by destruct (Raft.HandleMessage _ _ _ _).
Qed.
End raft.

Section multi.
Definition multi_local (a : MultiLeader.action) : bool := match a with MultiLeader.ADeliver _ _ _ => false | _ => true end.

(** The handler reads the clock and may draw an identifier for a conflict. *)
Definition multi_loop (y : MultiLeader.Sys) (k : string) (inp : Z * string) (m : Message) : Res (MultiLeader.Sys * list Message) :=
  match MultiLeader.nodes y !! k with
  | Some n => Ok (MultiLeader.MkSys (<[k := MultiLeader.HandleMessage n inp.1 inp.2 m]> (MultiLeader.nodes y))
                    (MultiLeader.sent y) (MultiLeader.written y), [])
  | None => Ok (y, [])
  end.

#[local] Instance multi_system : System MultiLeader.Sys MultiLeader.action (Z * string) :=
  {| sys_step y a := Ok (MultiLeader.sys_step y a); net := MultiLeader.sent;
     with_net y ms := MultiLeader.MkSys (MultiLeader.nodes y) ms (MultiLeader.written y);
     local := multi_local; handle := multi_loop |}.

Lemma multi_laws : SystemLaws MultiLeader.Sys MultiLeader.action (Z * string).
Proof.
  split; [done|by intros []|done| | |].
  - intros [ns net0 ws] ms a Ha. simpl in *. f_equal. destruct a; try done; simpl; unfold MultiLeader.on_node, MultiLeader.put; simpl;
      destruct (ns !! k) as [n|]; simpl; rewrite ?app_nil_r; try done.
    all: unfold MultiLeader.put_result; case_match; [simpl; by rewrite app_nil_r|]; repeat case_match; done.
  - intros [ns net0 ws] ms k inp m. simpl. unfold multi_loop; simpl. by destruct (ns !! k) as [n|].
  - intros [ns net0 ws] i k inp m Hi <-. simpl in *. exists (MultiLeader.ADeliver i inp.1 inp.2), net0.
    split; [by eapply remove_at_submseteq|].
    simpl. rewrite Hi. unfold multi_loop, MultiLeader.on_node, MultiLeader.put; simpl.
    by destruct (ns !! m_TargetID m) as [n|]; simpl; rewrite !app_nil_r.
Qed.
End multi.

Section single.
Definition single_local (a : SingleLeader.action) : bool :=
  match a with SingleLeader.ALeaderRecv _ | SingleLeader.AFollowerRecv _ _ _ => false | _ => true end.

Definition single_loop (y : SingleLeader.Sys) (k : string) (now : Z) (m : Message) : Res (SingleLeader.Sys * list Message) :=
  if decide (k = SingleLeader.l_id (SingleLeader.ldr y))
  then
    r ← SingleLeader.HandleMessage (SingleLeader.ldr y) m;
    Ok (SingleLeader.MkSys r.1 (SingleLeader.fols y) (SingleLeader.sent y) (SingleLeader.calls y) (SingleLeader.stored y) (SingleLeader.finished y), r.2)
  else match SingleLeader.fols y !! k with
  | Some f =>
      let '(f', ms) := SingleLeader.f_HandleMessage f now m in
      Ok (SingleLeader.MkSys (SingleLeader.ldr y) (<[k := f']> (SingleLeader.fols y)) (SingleLeader.sent y)
            (SingleLeader.calls y) (SingleLeader.stored y) (SingleLeader.finished y), ms)
  | None => Ok (y, [])
  end.

#[local] Instance single_system : System SingleLeader.Sys SingleLeader.action Z :=
  {| sys_step := SingleLeader.sys_step; net := SingleLeader.sent;
     with_net y ms := SingleLeader.MkSys (SingleLeader.ldr y) (SingleLeader.fols y) ms (SingleLeader.calls y) (SingleLeader.stored y) (SingleLeader.finished y);
     local := single_local; handle := single_loop |}.

Lemma single_local_frame (y : SingleLeader.Sys) ms a : single_local a = true →
  sys_step (with_net y ms) a = (y' ← sys_step (with_net y []) a; Ok (with_net y' (ms ++ net y'))).
Proof.
  destruct y as [l fs net0 cs sto fin]. intros Ha.
  destruct a; try done; simpl; unfold SingleLeader.set_ldr, SingleLeader.set_fol, SingleLeader.set_call; simpl; rewrite ?app_nil_r; try done.
  - unfold SingleLeader.begin_op; simpl. destruct (match cs !! c with Some _ => _ | None => _ end); simpl; [|by rewrite app_nil_r].
    repeat case_match; simpl; by rewrite ?app_nil_r.
  - destruct (cs !! c) as [[? [?|] [?|] ?]|]; simpl; rewrite ?app_nil_r; try done.
  - destruct (cs !! c) as [[? [?|] [?|] ?]|]; simpl; rewrite ?app_nil_r; try done.
    destruct (SingleLeader.store_entry _ _ _); simpl; by rewrite ?app_nil_r.
  - destruct (cs !! c) as [[? [?|] [?|] [|? ?]]|]; simpl; rewrite ?app_nil_r; done.
  - destruct (fs !! f) as [x|]; simpl; by rewrite ?app_nil_r.
  - destruct (SingleLeader.ackChs l !! s) as [w|]; simpl; [|by rewrite app_nil_r].
    destruct (SingleLeader.await_end l s) as [[]|]; simpl; by rewrite app_nil_r.
  - destruct (SingleLeader.Read _ _ _) as [[e|[? ?]]|]; simpl; by rewrite ?app_nil_r.
  - destruct (SingleLeader.check_read _ _ _) as [[e|?]|]; simpl; by rewrite ?app_nil_r.
  - destruct (fs !! f) as [x|]; simpl; [|by rewrite app_nil_r].
    destruct (SingleLeader.f_Read _ _ _) as [[e|[? ?]]|]; simpl; by rewrite ?app_nil_r.
  - destruct (fs !! f) as [x|]; simpl; by rewrite ?app_nil_r.
  - destruct (fs !! f) as [x|]; simpl; by rewrite ?app_nil_r.
Qed.

Lemma single_laws : SystemLaws SingleLeader.Sys SingleLeader.action Z.
Proof.
  split; [done|by intros []|done|intros; by apply single_local_frame| |].
  - intros [l fs net0 cs sto fin] ms k now m. simpl. unfold single_loop; simpl. case_decide.
    + by destruct (SingleLeader.HandleMessage _ _).
    + destruct (fs !! k) as [f|]; [|done]. by destruct (SingleLeader.f_HandleMessage _ _ _).
  - intros [l fs net0 cs sto fin] i k now m Hi <-. simpl in *. pose proof (remove_at_submseteq i net0 m Hi) as Hr.
    unfold single_loop; simpl. case_decide as Hl.
    + exists (SingleLeader.ALeaderRecv i), net0. split; [done|]. simpl. rewrite Hi, decide_True by done.
      by destruct (SingleLeader.HandleMessage _ _).
    + exists (SingleLeader.AFollowerRecv (m_TargetID m) now i), net0. split; [done|]. simpl.
      destruct (fs !! m_TargetID m) as [f|]; simpl; [|by rewrite app_nil_r]. rewrite Hi, decide_True by done.
      by destruct (SingleLeader.f_HandleMessage _ _ _).
Qed.
End single.

Section leaderless.
Definition leaderless_local (a : LeaderlessQuorum.action) : bool :=
  match a with LeaderlessQuorum.ADeliver _ _ | LeaderlessQuorum.ADrop _ => false | _ => true end.

Definition leaderless_loop (y : LeaderlessQuorum.Sys) (k : string) (now : Z) (m : Message)
  : Res (LeaderlessQuorum.Sys * list Message) :=
  match LeaderlessQuorum.nodes y !! k with
  | Some n =>
      let '(n', ms) := Leaderless.HandleMessage n now m in
      Ok (LeaderlessQuorum.MkSys (<[k := n']> (LeaderlessQuorum.nodes y)) (LeaderlessQuorum.net y) (LeaderlessQuorum.wcalls y)
            (LeaderlessQuorum.rcalls y) (LeaderlessQuorum.confirmed y) (LeaderlessQuorum.answers y), ms)
  | None => Ok (y, [])
  end.

#[local] Instance leaderless_system : System LeaderlessQuorum.Sys LeaderlessQuorum.action Z :=
  {| sys_step y a := Ok (LeaderlessQuorum.sys_step y a); net := LeaderlessQuorum.net;
     with_net y ms := LeaderlessQuorum.MkSys (LeaderlessQuorum.nodes y) ms (LeaderlessQuorum.wcalls y) (LeaderlessQuorum.rcalls y)
                        (LeaderlessQuorum.confirmed y) (LeaderlessQuorum.answers y);
     local := leaderless_local; handle := leaderless_loop |}.

Lemma leaderless_laws : SystemLaws LeaderlessQuorum.Sys LeaderlessQuorum.action Z.
Proof.
  split; [done|by intros []|done| | |].
  - intros [ns net0 ws rs cs ans] ms a Ha. simpl in *. f_equal.
    destruct a; try done; simpl; unfold LeaderlessQuorum.on_node, LeaderlessQuorum.on_write, LeaderlessQuorum.on_read,
      LeaderlessQuorum.finish_read, LeaderlessQuorum.end_read, LeaderlessQuorum.log_answer, LeaderlessQuorum.start_write,
      LeaderlessQuorum.put_write, LeaderlessQuorum.put_read, LeaderlessQuorum.put; simpl.
    all: repeat case_match; simpl; rewrite ?app_nil_r; done.
  - intros [ns net0 ws rs cs ans] ms k now m. simpl. unfold leaderless_loop; simpl. destruct (ns !! k) as [n|]; [|done].
    by destruct (Leaderless.HandleMessage _ _ _).
  - intros [ns net0 ws rs cs ans] i k now m Hi <-. simpl in *. exists (LeaderlessQuorum.ADeliver i now), (remove_at i net0).
    split; [done|]. simpl. rewrite Hi. unfold leaderless_loop, LeaderlessQuorum.on_node; simpl.
    destruct (ns !! m_TargetID m) as [n|]; simpl; [|by rewrite app_nil_r]. by destruct (Leaderless.HandleMessage _ _ _).
Qed.
End leaderless.
End Runtime.
