(* ===== verification/ClusterRuntime.v ===== *)
(** * The clusters the orchestrator builds, running

    Connects [Cluster] to [Runtime]: a cluster made by [createClusterCore] starts as the initial system
    of its strategy on an idle fabric, so the guarantees of the strategies hold for it on the real
    network, for every schedule of its goroutines, clients and operators that keeps the membership. *)

From S2P Require Import Prelude Storage Clock ReplicationLog Crdt Conflict Quorum HashRing Linearizability Transport Node.
From S2P Require Import MultiLeader Leaderless LeaderlessQuorum SingleLeader Raft Cluster Membership ClusterQuorum Runtime.
Import (hints) Node Cluster.
#[local] Open Scope nat_scope.

Module ClusterRuntime.
Import Cluster Membership Runtime.

(** ** An idle fabric *)

Section idle.
Context {float : Type}.

Definition idle (f : @Fabric.NetworkFabric float) : Prop :=
  Fabric.links f = ∅ ∧ ∀ k ch, Fabric.nodes f !! k = Some ch → Fabric.items ch = [].

Lemma idle_carried f : idle f → carried f = [].
Proof.
  intros [Hl Hn]. unfold carried, flat. rewrite Hl, map_to_list_empty. simpl. apply elem_of_nil_inv. intros m Hm.
  apply list_elem_of_bind in Hm as ([k ch] & Hm & Hk%elem_of_map_to_list). simpl in Hm. rewrite (Hn k ch Hk) in Hm.
  by apply elem_of_nil in Hm.
Qed.

Lemma idle_add_member cap (c : @Cluster float) id n : idle (Fabric c) → idle (Fabric (add_member cap c id n)).
Proof.
  intros [Hl Hn]. split; [done|]. intros k ch. simpl. rewrite lookup_insert_Some. intros [[_ <-]|[_ ?]]; [done|by eapply Hn].
Qed.

Lemma idle_add_all {B} cap (idf : B → string) (mk : @Cluster float → B → AnyNode) l c :
  idle (Fabric c) → idle (Fabric (foldl (λ c b, add_member cap c (idf b) (mk c b)) c l)).
Proof. intros Hc. apply (foldl_inv (λ c, idle (Fabric c))); [done|]. intros c' b. apply idle_add_member. Qed.

Lemma idle_assignRegions (c : @Cluster float) cfg : idle (Fabric c) → idle (Fabric (assignRegions c cfg)).
Proof.
  intros Hc. unfold assignRegions. case_match; [done|]. simpl.
  apply (foldl_inv idle); [done|]. intros f a Hf. apply (foldl_inv idle); [done|]. intros f' b Hf'. by destruct (_ && _).
Qed.

Lemma core_idle codec vc_string id cfg (c : @Cluster float) :
  createClusterCore codec vc_string id cfg = Ok (inr c) → idle (Fabric c).
Proof.
  unfold createClusterCore. set (c0 := MkCluster _ _ _ _ _ _ _ _). intros Hc.
  assert (H0 : idle (Fabric c0)) by (split; [done|]; intros k ch; simpl; by rewrite lookup_empty).
  assert (Hf : ∀ r, (c ← r; Ok (inr (assignRegions c cfg))) = Ok (inr c : error + Cluster) →
    (∀ c, r = Ok c → idle (Fabric c)) → idle (Fabric c)).
  { intros [c1|] H Hr; [|done]. simpl in H. injection H as <-. by apply idle_assignRegions, Hr. }
  destruct (strategy_of (Strategy cfg)) as [[]|]; [..|done]; (eapply Hf; [exact Hc|]); clear Hc; intros c1 H.
  - unfold createSingleLeaderCluster in H. destruct (node_ids _ _) as [[|l fs]|]; simpl in H; [done| |done]. injection H as <-.
    apply (idle_add_all 256 (λ f, f) (λ _ f, FollowerN (SingleLeader.NewFollowerNode f l))). by apply idle_add_member.
  - unfold createMultiLeaderCluster in H. destruct (node_ids _ _) as [ids|]; simpl in H; [|done]. injection H as <-.
    by apply (idle_add_all 256 snd (λ c x, MultiN (foldl AddPeer (MultiLeader.NewMultiLeaderNode x.2 (ID c) _) (others x.1 ids)))).
  - unfold createLeaderlessCluster in H. destruct (node_ids _ _) as [ids|]; simpl in H; [|done]. injection H as <-.
    by apply (idle_add_all 256 (λ id, id) (λ _ id, LeaderlessN (new_leaderless cfg _ ids id))).
  - unfold createRaftCluster in H. destruct (node_ids _ _) as [ids|]; simpl in H; [|done]. injection H as <-.
    by apply (idle_add_all 512 snd (λ _ x, RaftN (foldl AddPeer (Raft.NewRaftNode x.2) (others x.1 ids)))).
Qed.

(** The nodes of one type among all. *)
Lemma omap_regions {C} (as_ : AnyNode → option C) (c : @Cluster float) cfg :
  (∀ ll, as_ (LeaderlessN ll) = None) → omap as_ (Nodes (assignRegions c cfg)) = omap as_ (Nodes c).
Proof.
  intros Has. unfold assignRegions. apply map_eq. intros k.
  case_match; simpl; rewrite !lookup_omap, lookup_fmap; destruct (Nodes c !! k) as [[]|]; simpl; by rewrite ?Has.
Qed.

Lemma regions_node (c : @Cluster float) cfg k n : Nodes c !! k = Some n → (∀ ll, n ≠ LeaderlessN ll) →
  Nodes (assignRegions c cfg) !! k = Some n.
Proof.
  intros Hk Hn. unfold assignRegions. case_match; simpl; rewrite lookup_fmap, Hk; simpl; destruct n as [| | |ll|]; try done;
    by destruct (Hn ll).
Qed.

(** What the members added one after the other are. *)
Lemma add_all_nodes {B} cap (idf : B → string) (mk : B → AnyNode) l : ∀ c k, NoDup (idf <$> l) →
  Nodes (foldl (λ c b, add_member cap c (idf b) (mk b)) c l) !! k =
  match list_find (λ b, idf b = k) l with Some (_, b) => Some (mk b) | None => Nodes (c : @Cluster float) !! k end.
Proof.
  induction l as [|b l IH]; intros c k Hnd; [done|]. rewrite fmap_cons, NoDup_cons in Hnd. destruct Hnd as [Hb Hnd].
  cbn [foldl]. rewrite IH by done. simpl. destruct (decide (idf b = k)) as [<-|Hne].
  - destruct (list_find _ l) as [[i b']|] eqn:E; [|by rewrite lookup_insert_eq].
    apply list_find_Some in E as (Hi & Heq & _). destruct Hb. rewrite <- Heq.
    apply list_elem_of_fmap_2. by eapply list_elem_of_lookup_2.
  - destruct (list_find _ l) as [[i b']|]; [done|]. simpl. by rewrite lookup_insert_ne.
Qed.

End idle.

(** ** The start of a cluster

    [others] leaves out the node itself, as the initial systems of the strategies do. *)

Lemma others_filter i (ids : list string) k : NoDup ids → ids !! i = Some k → others i ids = filter (λ p, p ≠ k) ids.
Proof.
  intros Hnd Hi. rewrite <- (take_drop_middle ids i k Hi) in Hnd. apply NoDup_app in Hnd as (_ & Hx & Hnd).
  apply NoDup_cons in Hnd as [Hk _]. unfold others.
  rewrite <- (take_drop_middle ids i k Hi) at 3. rewrite filter_app, filter_cons_False by auto.
  f_equal; symmetry; apply list_filter_all; intros x Hj ->; [|done].
  by destruct (Hx k Hj); left.
Qed.

(** Members added by position. *)
Lemma add_numbered_nodes {float} cap (mk : nat * string → AnyNode) ids (c : @Cluster float) k : NoDup ids → Nodes c = ∅ →
  (∀ i, ids !! i = Some k → Nodes (foldl (λ c x, add_member cap c x.2 (mk x)) c (imap pair ids)) !! k = Some (mk (i, k))) ∧
  (¬ (k ∈ ids) → Nodes (foldl (λ c x, add_member cap c x.2 (mk x)) c (imap pair ids)) !! k = None).
Proof.
  intros Hnd H0. rewrite (add_all_nodes cap snd mk) by by rewrite imap_pair_snd. rewrite H0, lookup_empty.
  destruct (list_find (λ b, b.2 = k) (imap pair ids)) as [[j [i' k']]|] eqn:E.
  - apply list_find_Some in E as (Hj & Hk & _). simpl in Hk. subst k'.
    rewrite list_lookup_imap, fmap_Some in Hj. destruct Hj as (x & Hx & [= -> ->]). split.
    + intros i Hi. by rewrite (NoDup_lookup ids _ _ _ Hnd Hx Hi).
    + intros []. by eapply list_elem_of_lookup_2.
  - apply list_find_None in E. split; [|done]. intros i Hi. rewrite Forall_forall in E. destruct (E (i, k)); [|done].
    apply list_elem_of_lookup_2 with i. by rewrite list_lookup_imap, Hi.
Qed.

(** *** Raft *)

Definition as_raft (n : AnyNode) : option Raft.RaftNode := match n with RaftN r => Some r | _ => None end.
Definition raft_start {float} (c : @Cluster float) : Raft.Sys := Raft.MkSys (omap as_raft (Nodes c)) [].

Lemma raft_AddPeers n ps : foldl AddPeer n ps = Raft.with_base n (foldl Node.AddPeer (Raft.base n) ps).
Proof. revert n. induction ps as [|p ps IH]; intros []; [done|]. simpl. by rewrite IH. Qed.

Lemma raft_core {float} codec vc_string id cfg (c : @Cluster float) :
  strategy_of (Strategy cfg) = Some Node.StrategyRaft → createClusterCore codec vc_string id cfg = Ok (inr c) →
  raft_start c = Raft.sys_init (NodeIDs c).
Proof.
  intros Hs Hc. pose proof (core_made _ _ _ _ _ Hc) as (_ & _ & Hids). revert Hc.
  unfold createClusterCore, asked in *. rewrite Hs in *. unfold createRaftCluster. simpl. rewrite Hids. simpl. intros [= Hc].
  pose proof (NoDup_node_ids _ _ _ Hids) as Hnd. set (ids := NodeIDs c) in *. unfold raft_start, Raft.sys_init. f_equal.
  rewrite <- Hc, omap_regions by done. apply map_eq. intros k. rewrite lookup_omap.
  set (c0 := MkCluster _ _ _ _ _ _ _ _).
  destruct (add_numbered_nodes 512 (λ x, RaftN (foldl AddPeer (Raft.NewRaftNode x.2) (others x.1 ids))) ids c0 k Hnd eq_refl) as [Hin Hout].
  destruct (decide (k ∈ ids)) as [Hk|Hk].
  - pose proof Hk as [i Hi]%list_elem_of_lookup. rewrite (Hin i Hi). simpl.
    rewrite raft_AddPeers, (others_filter i ids k Hnd Hi). symmetry. apply elem_of_list_to_map.
    + by rewrite <- list_fmap_compose, list_fmap_id.
    + by apply (list_elem_of_fmap_2 (λ k, (k, Raft.fresh ids k))).
  - rewrite (Hout Hk). symmetry. apply not_elem_of_list_to_map. by rewrite <- list_fmap_compose, list_fmap_id.
Qed.

(** *** Multi-leader *)

Definition as_multi (n : AnyNode) : option MultiLeader.MultiLeaderNode := match n with MultiN m => Some m | _ => None end.
Definition multi_start {float} (c : @Cluster float) : MultiLeader.Sys := MultiLeader.MkSys (omap as_multi (Nodes c)) [] [].

Lemma multi_AddPeers n ps : foldl AddPeer n ps = MultiLeader.with_base n (foldl Node.AddPeer (MultiLeader.base n) ps).
Proof. revert n. induction ps as [|p ps IH]; intros []; [done|]. simpl. by rewrite IH. Qed.

(** The identifier of the cluster does not change while members are added. *)
Lemma add_all_ID {float} {B} cap (idf : B → string) (mk : string → B → AnyNode) l : ∀ c : @Cluster float,
  foldl (λ c b, add_member cap c (idf b) (mk (ID c) b)) c l = foldl (λ c' b, add_member cap c' (idf b) (mk (ID c) b)) c l.
Proof. induction l as [|b l IH]; intros c; [done|]. simpl. by rewrite IH. Qed.

Lemma multi_core {float} codec vc_string id cfg (c : @Cluster float) :
  strategy_of (Strategy cfg) = Some Node.StrategyMultiLeader → createClusterCore codec vc_string id cfg = Ok (inr c) →
  multi_start c = MultiLeader.sys_init id (resolver_for codec vc_string (ConflictResolver_ cfg)) (NodeIDs c).
Proof.
  intros Hs Hc. pose proof (core_made _ _ _ _ _ Hc) as (_ & _ & Hids). revert Hc.
  unfold createClusterCore, asked in *. rewrite Hs in *. unfold createMultiLeaderCluster. simpl. rewrite Hids. simpl. intros [= Hc].
  pose proof (NoDup_node_ids _ _ _ Hids) as Hnd. set (ids := NodeIDs c) in *. set (R := resolver_for _ _ _) in *.
  unfold multi_start, MultiLeader.sys_init. f_equal. rewrite <- Hc, omap_regions by done. apply map_eq. intros k. rewrite lookup_omap.
  set (c0 := MkCluster _ _ _ _ _ _ _ _). set (mk i (x : nat * string) :=
    MultiN (foldl AddPeer (MultiLeader.NewMultiLeaderNode x.2 i (Some R)) (others x.1 ids))).
  pose proof (add_all_ID 256 snd mk (imap pair ids) c0) as He. unfold mk at 1 in He. rewrite He.
  destruct (add_numbered_nodes 256 (mk id) ids c0 k Hnd eq_refl) as [Hin Hout].
  destruct (decide (k ∈ ids)) as [Hk|Hk].
  - pose proof Hk as [i Hi]%list_elem_of_lookup. change (ID c0) with id. rewrite (Hin i Hi). simpl.
    rewrite multi_AddPeers, (others_filter i ids k Hnd Hi). symmetry. apply elem_of_list_to_map.
    + by rewrite <- list_fmap_compose, list_fmap_id.
    + by apply (list_elem_of_fmap_2 (λ k, (k, MultiLeader.fresh id R ids k))).
  - change (ID c0) with id. rewrite (Hout Hk). symmetry. apply not_elem_of_list_to_map. by rewrite <- list_fmap_compose, list_fmap_id.
Qed.

(** *** Single leader *)

Definition as_follower (n : AnyNode) : option SingleLeader.FollowerNode := match n with FollowerN f => Some f | _ => None end.
Definition single_start {float} (c : @Cluster float) : option SingleLeader.Sys :=
  match Nodes c !! LeaderID c with
  | Some (LeaderN l) => Some (SingleLeader.MkSys l (omap as_follower (Nodes c)) [] ∅ [] [])
  | _ => None
  end.

Lemma single_AddPeers ps : ∀ l fs, SingleLeader.sys_run (SingleLeader.MkSys l fs [] ∅ [] []) (SingleLeader.AAddPeer <$> ps) =
  Ok (SingleLeader.MkSys (foldl AddPeer l ps) fs [] ∅ [] []).
Proof. induction ps as [|p ps IH]; intros l fs; [done|]. simpl. apply IH. Qed.

Lemma single_core {float} codec vc_string id cfg (c : @Cluster float) :
  strategy_of (Strategy cfg) = Some Node.StrategySingleLeader → createClusterCore codec vc_string id cfg = Ok (inr c) →
  ∃ fs y, NodeIDs c = LeaderID c :: fs ∧ single_start c = Some y ∧
    SingleLeader.sys_run (SingleLeader.sys_init (LeaderID c) (mode_of (ReplicationMode cfg)) fs) (SingleLeader.AAddPeer <$> fs) = Ok y.
Proof.
  intros Hs Hc. pose proof (core_made _ _ _ _ _ Hc) as (_ & _ & Hids). revert Hc.
  unfold createClusterCore, asked in *. rewrite Hs in *. unfold createSingleLeaderCluster. simpl. rewrite Hids. simpl.
  pose proof (NoDup_node_ids _ _ _ Hids) as Hnd. destruct (NodeIDs c) as [|l fs] eqn:Hnodes; [done|]. intros [= Hc].
  apply NoDup_cons in Hnd as [Hl Hnd]. set (c0 := add_member _ _ l _) in Hc.
  set (mk f := FollowerN (SingleLeader.NewFollowerNode f l)).
  pose proof (λ k, add_all_nodes 256 (λ f, f) mk fs c0 k ltac:(by rewrite list_fmap_id)) as Hlook.
  set (c1 := foldl _ c0 fs) in *. fold mk in Hlook. change (foldl (λ c b, add_member 256 c b (mk b)) c0 fs) with c1 in Hlook.
  assert (Hlid : LeaderID c = l).
  { rewrite <- Hc. unfold assignRegions. case_match; simpl; by apply (foldl_add_leader 256 (λ f, f) (λ _, mk)). }
  exists fs. eexists. split_and!; [by rewrite Hlid| |by apply single_AddPeers].
  unfold single_start. rewrite Hlid, <- Hc.
  assert (Hnone : list_find (λ b, b = l) fs = None) by (apply list_find_None, Forall_forall; by intros x Hx ->).
  rewrite (regions_node c1 cfg l (LeaderN (foldl AddPeer (SingleLeader.NewSingleLeaderNode l (mode_of (ReplicationMode cfg))) fs)));
    [|rewrite Hlook, Hnone; apply lookup_insert_eq|done].
  do 2 f_equal. rewrite omap_regions by done. apply map_eq. intros k. rewrite lookup_omap, Hlook.
  destruct (list_find (λ b, b = k) fs) as [[i b]|] eqn:E.
  - apply list_find_Some in E as (Hi & <- & _). symmetry. apply elem_of_list_to_map; [by rewrite <- list_fmap_compose, list_fmap_id|].
    apply (list_elem_of_fmap_2 (λ k, (k, SingleLeader.NewFollowerNode k l))). by eapply list_elem_of_lookup_2.
  - apply list_find_None in E. rewrite Forall_forall in E. symmetry. transitivity (None : option SingleLeader.FollowerNode).
    + apply not_elem_of_list_to_map. rewrite <- list_fmap_compose, list_fmap_id. intros Hk. by apply (E k).
    + simpl. rewrite lookup_insert. by case_decide.
Qed.

(** ** Runs on the fabric and runs of the systems *)

Lemma raft_sys_run M U acts : ∀ y, Runtime.sys_run (H := raft_system M U) y acts = Raft.sys_run M U y acts.
Proof. induction acts as [|a acts IH]; intros y; [done|]. simpl. destruct (Raft.sys_step M U y a); [apply IH|done]. Qed.

Lemma single_sys_run acts : ∀ y, Runtime.sys_run (H := single_system) y acts = SingleLeader.sys_run y acts.
Proof. induction acts as [|a acts IH]; intros y; [done|]. simpl. destruct (SingleLeader.sys_step y a); [apply IH|done]. Qed.

Lemma multi_sys_run acts : ∀ y, Runtime.sys_run (H := multi_system) y acts = Ok (MultiLeader.sys_run y acts).
Proof. induction acts as [|a acts IH]; intros y; [done|]. apply IH. Qed.

Lemma leaderless_sys_run acts : ∀ y, Runtime.sys_run (H := leaderless_system) y acts = Ok (LeaderlessQuorum.sys_run y acts).
Proof. induction acts as [|a acts IH]; intros y; [done|]. apply IH. Qed.

Lemma resolver_for_lww codec vc_string t : t ≠ "crdt" ∧ t ≠ "manual" → MultiLeader.LwwLike (resolver_for codec vc_string t).
Proof.
  intros [H1 H2]. unfold resolver_for. rewrite (proj2 (String.eqb_neq t "crdt") H1), (proj2 (String.eqb_neq t "manual") H2).
  destruct (String.eqb t "vector_clock"); [apply MultiLeader.VectorClockResolver_lww|apply MultiLeader.LWWResolver_lww].
Qed.

Section runs.
Context {float : Type} (fltb : float → float → bool) (fzero : float).

(** A run of a system that cannot panic. *)
Lemma sim_run_Ok {Y A I : Type} `{HL : SystemLaws Y A I} s y acts (P : Y → Prop) :
  sim s y → (∀ acts', length acts' ≤ length acts → ∃ y', Runtime.sys_run y acts' = Ok y' ∧ P y') →
  ∃ s' y', Runtime.run fltb fzero s acts = Ok s' ∧ sim s' y' ∧ P y'.
Proof.
  intros Hs HP. destruct (sim_run fltb fzero acts s y Hs) as (acts' & Hl & Hm). destruct (HP acts' Hl) as (y' & Hr & Hy).
  rewrite Hr in Hm. destruct (Runtime.run fltb fzero s acts) as [s'|]; [|done]. destruct Hm as (y2 & [= <-] & Hs').
  by exists s', y'.
Qed.

Lemma numbered_nonempty p i : numbered p i ≠ "".
Proof. done. Qed.

Lemma made_nonempty id n (c : @Cluster float) : made id n c → ¬ ("" ∈ NodeIDs c).
Proof.
  intros (_ & _ & Hids). apply node_ids_Ok in Hids as (_ & _ & [-> | (p & _ & ->)]); [apply not_elem_of_nil|].
  by intros (i & Hi & _)%list_elem_of_fmap.
Qed.

(** Two moments of a Raft cluster's run: no panic in between, and the leaders of a term agree. *)
Lemma raft_keeps_run M U ids V C s y acts : NoDup ids → ¬ ("" ∈ ids) → sim (H := raft_system M U) s y → Raft.einv ids V C y →
  ∃ s' y' V' C', Runtime.run fltb fzero (H := raft_system M U) s acts = Ok s' ∧ sim (H := raft_system M U) s' y' ∧
    Raft.einv ids V' C' y' ∧ V ⊆ V'.
Proof.
  intros Hnd Hne Hs Hi.
  destruct (sim_run_Ok (HL := raft_laws M U) s y acts (λ y', ∃ V' C', Raft.einv ids V' C' y' ∧ V ⊆ V')) as (s' & y' & H1 & H2 & V' & C' & H3 & H4); [done| |eauto 10].
  intros acts' _. rewrite raft_sys_run. destruct (Raft.sys_run_keeps M U ids Hnd Hne acts' V C y Hi) as (y' & V' & C' & Hr & H1 & H2).
  exists y'. eauto.
Qed.

End runs.
End ClusterRuntime.

Import Cluster Membership ClusterQuorum Runtime ClusterRuntime.

Section created.
Context {float : Type} (fltb : float → float → bool) (fzero : float).
Context (codec : Resolver.Codec) (vc_string : gmap string N → string).

(** C1. Election safety of the clusters the orchestrator builds.  A Raft configuration builds a cluster
    that, on the network fabric, never panics and never has two leaders in one term: whatever the
    timers, clients, pauses and clock skews, latencies, drop rates, partitions and full inboxes do, a
    node that leads a term at one moment of the run and a node that leads it at a later moment are the
    same. *)
Theorem created_raft_election_safety (Marshal : gmap string KVEntry → string) (Unmarshal : string → option (gmap string KVEntry))
  (id : string) (cfg : ClusterConfig) (Hs : strategy_of (Strategy cfg) = Some Node.StrategyRaft)
  (Hn : (1 ≤ NodeCount cfg)%Z) (Hid : 8 ≤ String.length id) :
  ∃ c : @Cluster float, createClusterCore codec vc_string id cfg = Ok (inr c) ∧
    dom (Raft.nodes (raft_start c)) = list_to_set (NodeIDs c) ∧ Z.of_nat (length (NodeIDs c)) = NodeCount cfg ∧
    let run := Runtime.run fltb fzero (H := raft_system Marshal Unmarshal) in
    ∀ acts1 acts2, ∃ s1 s2, run (MkRunning (raft_start c) (Fabric c)) acts1 = Ok s1 ∧ run s1 acts2 = Ok s2 ∧
      ∀ a b na nb, Raft.nodes (core s1) !! a = Some na → Raft.role na = Raft.roleLeader →
        Raft.nodes (core s2) !! b = Some nb → Raft.role nb = Raft.roleLeader →
        Raft.currentTerm na = Raft.currentTerm nb → a = b.
Proof.
  destruct (core_succeeds (float := float) codec vc_string id cfg) as [c Hc]; [by rewrite Hs|done|done|].
  pose proof (core_made _ _ _ _ _ Hc) as Hm. pose proof Hm as ([Hnd _ _ _] & _ & _).
  pose proof (raft_core _ _ _ _ _ Hs Hc) as Hstart. pose proof (made_nonempty _ _ _ Hm) as Hne.
  destruct (made_contiguous _ _ _ Hm) as [_ Hlen]; [unfold asked; rewrite Hs; lia|].
  exists c. split_and!; [done| |rewrite Hlen; unfold asked; rewrite Hs; lia|].
  { rewrite Hstart. simpl. by rewrite dom_list_to_map_L, <- list_fmap_compose, list_fmap_id. }
  intros run acts1 acts2.
  destruct (raft_keeps_run fltb fzero Marshal Unmarshal (NodeIDs c) ∅ ∅ (MkRunning (raft_start c) (Fabric c)) (raft_start c) acts1)
    as (s1 & y1 & V1 & C1 & Hr1 & Hs1 & Hi1 & _); [done|done|by apply sim_start, idle_carried, (core_idle _ _ _ _ _ Hc)| |].
  { rewrite Hstart. by apply Raft.sys_init_einv. }
  destruct (raft_keeps_run fltb fzero Marshal Unmarshal (NodeIDs c) V1 C1 s1 y1 acts2) as (s2 & y2 & V2 & C2 & Hr2 & Hs2 & Hi2 & Hv); [done..|].
  exists s1, s2. split_and!; [done|done|]. intros a b na nb.
  pose proof (sim_core _ _ Hs1) as [= ->]. pose proof (sim_core _ _ Hs2) as [= ->]. by eapply Raft.same_leader.
Qed.

(** C5. The single-leader clusters the orchestrator builds, on the network fabric.  For every schedule, in
    which client calls interleave, no node panics; every logged operation reaches the leader's store
    once, and the store shows their replay in the order in which they did; every follower has applied
    exactly a prefix of the leader's log, in order, and has the store that prefix gives.  A follower that
    has applied the whole log answers a read as the leader does, for every key whose operations reached
    the leader's store in the order of its log. *)
Theorem created_single_leader_prefix (id : string) (cfg : ClusterConfig)
  (Hs : strategy_of (Strategy cfg) = Some Node.StrategySingleLeader) (Hn : (1 ≤ NodeCount cfg)%Z) (Hid : 8 ≤ String.length id) :
  ∃ (c : @Cluster float) y0, createClusterCore codec vc_string id cfg = Ok (inr c) ∧ single_start c = Some y0 ∧
    list_to_set (NodeIDs c) = {[LeaderID c]} ∪ dom (SingleLeader.fols y0) ∧
    ∀ acts, ∃ s, Runtime.run fltb fzero (H := single_system) (MkRunning y0 (Fabric c)) acts = Ok s ∧
      let y := core s in
      let log := SingleLeader.log_of (SingleLeader.ldr y) in
      SingleLeader.store_eqv (SingleLeader.l_store (SingleLeader.ldr y)) (SingleLeader.replay (SingleLeader.stored y)) ∧
      SingleLeader.stored y ++ SingleLeader.opens y ≡ₚ log ∧
      ∀ k f, SingleLeader.fols y !! k = Some f →
        Log.entries (SingleLeader.f_log f) = take (SingleLeader.applied f) log ∧
        SingleLeader.f_store f = SingleLeader.replay (take (SingleLeader.applied f) log) ∧
        (SingleLeader.applied f = length log → ∀ key, SingleLeader.on_key key (SingleLeader.stored y) = SingleLeader.on_key key log →
         SingleLeader.shown <$> Store.Get (SingleLeader.f_store f) key =
         SingleLeader.shown <$> Store.Get (SingleLeader.l_store (SingleLeader.ldr y)) key).
Proof.
  destruct (core_succeeds (float := float) codec vc_string id cfg) as [c Hc]; [by rewrite Hs|done|done|].
  destruct (single_core _ _ _ _ _ Hs Hc) as (fs & y0 & Hids & Hstart & Hrun).
  pose proof (SingleLeader.reachable_inv _ _ _ _ _ Hrun) as Hi0. exists c, y0. split_and!; [done|done| |].
  { change (SingleLeader.sys_init (LeaderID c) (mode_of (ReplicationMode cfg)) fs) with
      (SingleLeader.MkSys (SingleLeader.NewSingleLeaderNode (LeaderID c) (mode_of (ReplicationMode cfg)))
        (list_to_map ((λ k, (k, SingleLeader.NewFollowerNode k (LeaderID c))) <$> fs)) [] ∅ [] []) in Hrun.
    rewrite single_AddPeers in Hrun. injection Hrun as <-. simpl.
    by rewrite Hids, dom_list_to_map_L, <- list_fmap_compose, list_fmap_id. }
  intros acts.
  destruct (sim_run_Ok (HL := single_laws) fltb fzero (MkRunning y0 (Fabric c)) y0 acts SingleLeader.inv) as (s & y & Hr & Hsim & Hi).
  { by apply sim_start, idle_carried, (core_idle _ _ _ _ _ Hc). }
  { intros acts' _. rewrite single_sys_run. by apply SingleLeader.sys_run_inv. }
  exists s. split; [done|]. pose proof (sim_core _ _ Hsim) as Heq. simpl in Heq. injection Heq as Hldr Hfols Hcalls Hsto _.
  unfold SingleLeader.opens. rewrite Hldr, Hfols, Hcalls, Hsto. destruct (SingleLeader.i_writes y Hi) as [_ _ W3 W4].
  split_and!; [done|done|]. intros k f Hf. destruct (SingleLeader.i_fols y Hi k f Hf) as [_ [Hl _ _ Hst]].
  split_and!; [by rewrite Hl|done|]. intros Ha key. apply SingleLeader.caught_up_agrees; [done|]. by rewrite Hst, Ha, firstn_all.
Qed.



End created.

(** ** Clusters that run *)

Definition no_draws : @Fabric.draws unit := Fabric.MkDraws tt 0 tt.

(** The [i]-th message to be sent goes from [a] to [b] and is handled there. *)
Definition hop {A I : Type} (i : nat) (a b : string) (inp : I) : list (@Runtime.action unit A I) :=
  [Send i no_draws 0; Net (Fabric.OTake (Fabric.link_key a b)); Net (Fabric.ODeliver (Fabric.link_key a b) 0); Receive b inp].

Definition n1 : string := "node-01234567-1".
Definition n2 : string := "node-01234567-2".
Definition n3 : string := "node-01234567-3".

Definition raft_cfg : ClusterConfig := MkCfg "raft" 3 "" "" 0 0 0 0 0 "" "" None.

(** The first node asks for votes, and the second grants one. *)
Definition elect_first : list (@Runtime.action unit Raft.action unit) :=
  Act (Raft.AElect n1 true) :: hop 0 n1 n2 tt ++ hop 1 n2 n1 tt.

Definition demo_raft_run : Res (@Running unit Raft.Sys) :=
  r ← createClusterCore no_codec (λ _, "") demo_cluster_id raft_cfg;
  match r with
  | inr c => Runtime.run (λ _ _, false) tt (H := raft_system (λ _, "") (λ _, None)) (MkRunning (raft_start c) (Fabric c)) elect_first
  | inl _ => Panic
  end.

Lemma created_raft_election_safety_witness :
  match demo_raft_run with Ok s => Raft.role <$> (Raft.nodes (core s) !! n1) | Panic => None end = Some Raft.roleLeader ∧
  ∃ c : @Cluster unit, createClusterCore no_codec (λ _, "") demo_cluster_id raft_cfg = Ok (inr c) ∧
    let run := Runtime.run (λ _ _, false) tt (H := raft_system (λ _, "") (λ _, None)) in
    ∀ acts2, ∃ s1 s2, run (MkRunning (raft_start c) (Fabric c)) elect_first = Ok s1 ∧ run s1 acts2 = Ok s2 ∧
      ∀ a b na nb, Raft.nodes (core s1) !! a = Some na → Raft.role na = Raft.roleLeader →
        Raft.nodes (core s2) !! b = Some nb → Raft.role nb = Raft.roleLeader →
        Raft.currentTerm na = Raft.currentTerm nb → a = b.
Proof.
  split; [by vm_compute|].
  destruct (created_raft_election_safety (λ _ _ : unit, false) tt no_codec (λ _, "") (λ _, "") (λ _, None) demo_cluster_id raft_cfg)
    as (c & Hc & _ & _ & Hr); [reflexivity|simpl; lia|simpl; lia|].
  exists c. split; [exact Hc|]. intros run acts2. apply Hr.
Defined.

Definition single_cfg : ClusterConfig := MkCfg "single_leader" 3 "async" "" 0 0 0 0 0 "" "" None.

(** A write at the leader reaches the first follower; the message to the second stays behind. *)
Definition write_first : list (@Runtime.action unit SingleLeader.action Z) :=
  (Act <$> one_op 1 1 "x" (Some "1") OpSet) ++ hop 0 n1 n2 2%Z.

Definition demo_single_run : Res (@Running unit SingleLeader.Sys) :=
  r ← createClusterCore no_codec (λ _, "") demo_cluster_id single_cfg;
  match r with
  | inr c => match single_start c with
             | Some y => Runtime.run (λ _ _, false) tt (H := single_system) (MkRunning y (Fabric c)) write_first
             | None => Panic
             end
  | inl _ => Panic
  end.

Definition follower_applied (r : Res (@Running unit SingleLeader.Sys)) (k : string) : option nat :=
  match r with Ok s => SingleLeader.applied <$> (SingleLeader.fols (core s) !! k) | Panic => None end.

Lemma created_single_leader_prefix_witness :
  (follower_applied demo_single_run n2, follower_applied demo_single_run n3) = (Some 1, Some 0) ∧
  ∃ (c : @Cluster unit) y0, createClusterCore no_codec (λ _, "") demo_cluster_id single_cfg = Ok (inr c) ∧ single_start c = Some y0 ∧
    ∃ s, Runtime.run (λ _ _, false) tt (H := single_system) (MkRunning y0 (Fabric c)) write_first = Ok s ∧
      ∀ k f, SingleLeader.fols (core s) !! k = Some f →
        Log.entries (SingleLeader.f_log f) = take (SingleLeader.applied f) (SingleLeader.log_of (SingleLeader.ldr (core s))).
Proof.
  split; [by vm_compute|].
  destruct (created_single_leader_prefix (λ _ _ : unit, false) tt no_codec (λ _, "") demo_cluster_id single_cfg)
    as (c & y0 & Hc & Hy & _ & Hr); [reflexivity|simpl; lia|simpl; lia|].
  exists c, y0. split; [exact Hc|]. split; [exact Hy|]. destruct (Hr write_first) as (s & Hs & _ & _ & Hf).
  exists s. split; [exact Hs|]. intros k f Hk. exact (proj1 (Hf k f Hk)).
Defined.

Definition multi_cfg : ClusterConfig := MkCfg "multi_leader" 3 "" "lww" 0 0 0 0 0 "" "" None.

(** Concurrent writes to a key at two nodes, each delivered to the other. *)
Definition write_both : list (@Runtime.action unit MultiLeader.action (Z * string)) :=
  [Act (MultiLeader.AWrite n1 1 "x" (Some "1")); Act (MultiLeader.AWrite n2 2 "x" (Some "2"))] ++
  hop 0 n1 n2 (3%Z, "u") ++ hop 1 n2 n1 (4%Z, "v").

Definition demo_multi_run : Res (@Running unit MultiLeader.Sys) :=
  r ← createClusterCore no_codec (λ _, "") demo_cluster_id multi_cfg;
  match r with
  | inr c => Runtime.run (λ _ _, false) tt (H := multi_system) (MkRunning (multi_start c) (Fabric c)) write_both
  | inl _ => Panic
  end.

Definition multi_value (r : Res (@Running unit MultiLeader.Sys)) (k : string) : option (option string) :=
  match r with
  | Ok s => MultiLeader.nodes (core s) !! k ≫= λ n, kv_Value <$> Store.GetRaw (MultiLeader.n_store n) "x"
  | Panic => None
  end.


(** The DynamoDB preset with sloppy quorums off. *)
Definition dynamo_strict : ClusterConfig := MkCfg "leaderless" 6 "" "" 3 2 2 0 0 "" "" (Some false).

