(* ===== verification/Service.v ===== *)
(** * Client calls through the orchestrator

    Models [Write], [Delete], [Read] and [waitForRaftLeader] of
    [src/internal/simulation/orchestrator.go] with everything they do around the node's own method:
    routing, the clock readings, the history of the linearizability checker, the cluster's counters and
    the published event.

    A call is a program over the operations it makes one after the other.  Calls run in goroutines of
    their own, so their operations interleave with each other and with the activity of the cluster: a
    [World] has the calls in progress, and a schedule picks which one moves.  The node's method is
    itself a sequence of steps, given by the interface [Backend].  Tracing spans are left out. *)

From S2P Require Import Prelude Storage Linearizability Events Transport Node Cluster Metrics.
Import (hints) Node Cluster.
#[local] Open Scope Z_scope.

Module Service.
Import Lin.

(** ** Programs *)

(** The methods of [node.Node] a call uses, with the name of the node. *)
Inductive request :=
  | RWrite (node key : string) (value : option string) (clientID : string)
  | RDelete (node key clientID : string)
  | RRead (node key clientID : string).

(** What they return; the entry of a write may be nil. *)
Inductive reply := Failed | Wrote (e : option KVEntry) | Deleted | ReadIs (e : KVEntry).

Inductive call : Type → Type :=
  | GetCluster (id : string) : call (option Cluster.ClusterConfig)
  | RaftLeaderID : call string
  | Target (nodeID : string) : call (option string)
  | Now : call Z
  | Sleep (ms : Z) : call unit
  | NodeCall (r : request) : call reply
  | RecordOp (op : Op) : call unit
  | IncrWrites : call unit
  | IncrReads : call unit
  | Publish (t : EventType) (node key : string) : call unit.

Inductive result := NotFound | NoTarget | NodeError | Done (node : string) (r : reply).

Inductive prog :=
  | Return (r : result)
  | Do {X} (c : call X) (k : X → prog).
Arguments Do {_} _ _.

Notation "x ⟵ c ; k" := (Do c (λ x, k)) (at level 100, c at next level, k at level 200, right associativity).
Notation "c ;;; k" := (Do c (λ _, k)) (at level 100, k at level 200, right associativity).

(** The loop polls every 20 milliseconds for two seconds; it runs at most a hundred times. *)
Fixpoint wait_loop (fuel : nat) (deadline : Z) (k : string → prog) : prog :=
  match fuel with
  | O => k ""
  | S fuel =>
      now ⟵ Now;
      if now <? deadline then
        id ⟵ RaftLeaderID;
        if String.eqb id "" then Sleep 20;;; wait_loop fuel deadline k else k id
      else k ""
  end.

Definition waitForRaftLeader (k : string → prog) : prog :=
  now ⟵ Now; wait_loop 101 (now + 2000000000) k.

(** The part the three calls share: find the cluster and the node to ask. *)
Definition route (clusterID nodeID : string) (k : string → prog) : prog :=
  c ⟵ GetCluster clusterID;
  match c with
  | None => Return NotFound
  | Some cfg =>
      let go nodeID := (n ⟵ Target nodeID; match n with None => Return NoTarget | Some n => k n end) in
      if String.eqb nodeID "" && String.eqb (Cluster.Strategy cfg) "raft" then waitForRaftLeader go else go nodeID
  end.

Definition Write (clusterID nodeID key : string) (value : option string) (clientID : string) : prog :=
  route clusterID nodeID (λ n,
    invoke ⟵ Now;
    r ⟵ NodeCall (RWrite n key value clientID);
    match r with
    | Wrote e =>
        complete ⟵ Now;
        RecordOp (MkOp clientID OpWrite (default "" value) key invoke complete);;;
        IncrWrites;;;
        Publish EvtWriteReceived n key;;;
        Return (Done n (Wrote e))
    | _ => Return NodeError
    end).

Definition Delete (clusterID nodeID key clientID : string) : prog :=
  route clusterID nodeID (λ n,
    r ⟵ NodeCall (RDelete n key clientID);
    match r with
    | Deleted => IncrWrites;;; Return (Done n Deleted)
    | _ => Return NodeError
    end).

Definition Read (clusterID nodeID key clientID : string) : prog :=
  route clusterID nodeID (λ n,
    invoke ⟵ Now;
    r ⟵ NodeCall (RRead n key clientID);
    match r with
    | ReadIs e =>
        complete ⟵ Now;
        RecordOp (MkOp clientID OpRead (default "" (kv_Value e)) key invoke complete);;;
        IncrReads;;;
        Publish EvtReadReceived n key;;;
        Return (Done n (ReadIs e))
    | _ => Return NodeError
    end).

Inductive client_call :=
  | CWrite (nodeID key : string) (value : option string) (clientID : string)
  | CDelete (nodeID key clientID : string)
  | CRead (nodeID key clientID : string).

Definition prog_of (clusterID : string) (c : client_call) : prog :=
  match c with
  | CWrite n key v cl => Write clusterID n key v cl
  | CDelete n key cl => Delete clusterID n key cl
  | CRead n key cl => Read clusterID n key cl
  end.

(** *** The loop ends

    The fuel is enough: on a clock on which a sleep of 20 milliseconds lasts that long, more of it
    changes nothing. *)

Section waiting.
Context (times : nat → Z) (leaders : nat → string).

(** A program that waits, from the [i]-th sleep on; only waiting is answered. *)
Definition waits {X} (c : call X) : nat → X * nat :=
  match c in call X return nat → X * nat with
  | Now => λ i, (times i, i)
  | RaftLeaderID => λ i, (leaders i, i)
  | Sleep _ => λ i, (tt, S i)
  | GetCluster _ => λ i, (None, i)
  | Target _ => λ i, (None, i)
  | NodeCall _ => λ i, (Failed, i)
  | RecordOp _ => λ i, (tt, i)
  | IncrWrites => λ i, (tt, i)
  | IncrReads => λ i, (tt, i)
  | Publish _ _ _ => λ i, (tt, i)
  end.

Fixpoint outcome (p : prog) (i : nat) : result :=
  match p with Return r => r | Do c k => let '(x, i) := waits c i in outcome (k x) i end.

Hypothesis sleeps : ∀ i, times i + 20000000 ≤ times (S i).

Lemma wait_loop_fuel k n : ∀ m i deadline, deadline ≤ times i + 20000000 * Z.of_nat n → (n < m)%nat →
  outcome (wait_loop m deadline k) i = outcome (wait_loop (S n) deadline k) i.
Proof using sleeps.
  induction n as [|n IH]; intros [|m] i deadline Hd Hm; [lia| |lia|]; cbn [wait_loop outcome waits].
  - by rewrite (proj2 (Z.ltb_ge (times i) deadline)) by lia.
  - destruct (times i <? deadline); [|done]. cbn [outcome waits]. destruct (String.eqb (leaders i) ""); [|done].
    cbn [outcome waits]. apply IH; [|lia]. pose proof (sleeps i). lia.
Qed.

Lemma waitForRaftLeader_fuel k n i : (101 ≤ n)%nat →
  outcome (waitForRaftLeader k) i = outcome (Do Now (λ now, wait_loop n (now + 2000000000) k)) i.
Proof using sleeps. intros Hn. cbn [waitForRaftLeader outcome waits]. symmetry. apply wait_loop_fuel; lia. Qed.
End waiting.

(** ** The calls in progress *)

(** What a method does to the replicated data. *)
Inductive effect := EWrite (key v : string) | EDelete (key : string) | ERead (key v : string).

(** The methods of the nodes, cut into steps.  A step may have an effect; the last one answers.  [M]
    is a method in progress, [I] what a step reads from its environment; a method is known by the
    number of its call. *)
Class Backend (B M I : Type) := {
  enter : B → nat → I → request → Res (B * option effect * (M + reply));
  advance : B → nat → I → M → Res (B * option effect * (M + reply));
}.

(** An effect in the order it happened: its call, its time, the operation recorded for it and whether
    the cluster's counters include it. *)
Record Entry := MkEntry { l_call : nat; l_eff : effect; l_at : Z; l_op : option Op; l_counted : bool }.

Section world.
Context {B M I K : Type} `{Backend B M I} (background : B → K → Res B).
Context (clusterID : string) (cfg : Cluster.ClusterConfig) (target : string → option string).

Inductive thread := Running (p : prog) | InNode (m : M) (k : reply → prog).

(** [ledger] only observes. *)
Record World := MkWorld {
  back : B;
  history : History;
  metrics : Metrics.ClusterMetrics;
  bus : Bus.EventBus (D := string);
  time : Z;
  threads : gmap nat thread;
  ledger : list Entry;
}.

Definition with_thread (w : World) (t : nat) (th : thread) : World :=
  MkWorld (back w) (history w) (metrics w) (bus w) (time w) (<[t := th]> (threads w)) (ledger w).

(** A step of a method: its effect enters the ledger. *)
Definition after_node (w : World) (t : nat) (k : reply → prog) (r : B * option effect * (M + reply)) : World :=
  let '(b, ef, out) := r in
  MkWorld b (history w) (metrics w) (bus w) (time w)
    (<[t := match out with inl m => InNode m k | inr a => Running (k a) end]> (threads w))
    (ledger w ++ match ef with Some e => [MkEntry t e (time w) None false] | None => [] end).

Definition update (t : nat) (f : Entry → Entry) (l : list Entry) : list Entry :=
  (λ x, if decide (l_call x = t) then f x else x) <$> l.

Definition set_op (op : Op) (x : Entry) : Entry := MkEntry (l_call x) (l_eff x) (l_at x) (Some op) (l_counted x).
Definition set_counted (x : Entry) : Entry := MkEntry (l_call x) (l_eff x) (l_at x) (l_op x) true.

(** One operation of the program of call [t]; [inp] and [leader] are what it finds. *)
Definition perform (w : World) (t : nat) (inp : I) (leader : string) {X} (c : call X) : (X → prog) → Res World :=
  match c in call X return (X → prog) → Res World with
  | GetCluster id => λ k, Ok (with_thread w t (Running (k (if String.eqb id clusterID then Some cfg else None))))
  | RaftLeaderID => λ k, Ok (with_thread w t (Running (k leader)))
  | Target n => λ k, Ok (with_thread w t (Running (k (target n))))
  | Now => λ k, Ok (with_thread w t (Running (k (time w))))
  | Sleep _ => λ k, Ok (with_thread w t (Running (k tt)))
  | NodeCall r => λ k, x ← enter (back w) t inp r; Ok (after_node w t k x)
  | RecordOp op => λ k,
      Ok (MkWorld (back w) (Record_ (history w) op) (metrics w) (bus w) (time w) (<[t := Running (k tt)]> (threads w))
            (update t (set_op op) (ledger w)))
  | IncrWrites => λ k,
      Ok (MkWorld (back w) (history w) (Metrics.IncrWrites (metrics w)) (bus w) (time w) (<[t := Running (k tt)]> (threads w))
            (update t set_counted (ledger w)))
  | IncrReads => λ k,
      Ok (MkWorld (back w) (history w) (Metrics.IncrReads (metrics w)) (bus w) (time w) (<[t := Running (k tt)]> (threads w))
            (update t set_counted (ledger w)))
  | Publish ty n key => λ k,
      b ← Bus.Publish (bus w) (MkEvent ty clusterID n None key) (time w);
      Ok (MkWorld (back w) (history w) (metrics w) b (time w) (<[t := Running (k tt)]> (threads w)) (ledger w))
  end.

(** A call arrives, a call moves, time passes, the cluster does something by itself. *)
Inductive action :=
  | Spawn (t : nat) (c : client_call)
  | Exec (t : nat) (inp : I) (leader : string)
  | Tick (d : Z)
  | Background (x : K).

Definition step (w : World) (a : action) : Res World :=
  match a with
  | Spawn t c =>
      Ok match threads w !! t with
         | None => with_thread w t (Running (prog_of clusterID c))
         | Some _ => w
         end
  | Exec t inp leader =>
      match threads w !! t with
      | Some (Running (Do c k)) => perform w t inp leader c k
      | Some (InNode m k) => x ← advance (back w) t inp m; Ok (after_node w t k x)
      | _ => Ok w
      end
  | Tick d => Ok (MkWorld (back w) (history w) (metrics w) (bus w) (time w + Z.max 0 d) (threads w) (ledger w))
  | Background x => b ← background (back w) x; Ok (MkWorld b (history w) (metrics w) (bus w) (time w) (threads w) (ledger w))
  end.

Fixpoint run (w : World) (acts : list action) : Res World :=
  match acts with [] => Ok w | a :: rest => w' ← step w a; run w' rest end.

(** No call is in progress. *)
Definition at_rest (w : World) : Prop := ∀ t th, threads w !! t = Some th → ∃ r, th = Running (Return r).

End world.

(** ** What a node must promise

    The node all calls go to behaves as one register per key: each method has its effect at one of its
    steps, and a read answers what the register holds at that step.  A write or a delete that fails has
    no effect, unless the register is [lossy]. *)

Definition apply_effect (ef : option effect) (v : string → option string) (key : string) : option string :=
  match ef with
  | Some (EWrite k x) => if decide (k = key) then Some x else v key
  | Some (EDelete k) => if decide (k = key) then None else v key
  | _ => v key
  end.

Definition sees (v : string → option string) (ef : option effect) : Prop :=
  match ef with Some (ERead k x) => v k = Some x | _ => True end.

Definition node_of (r : request) : string :=
  match r with RWrite n _ _ _ | RDelete n _ _ | RRead n _ _ => n end.

(** The answer to a request whose method has had the effect [ef]. *)
Definition answers (lossy : bool) (r : request) (ef : option effect) (a : reply) : Prop :=
  match a, r with
  | Failed, _ => match ef with None | Some (ERead _ _) => True | _ => lossy = true end
  | Wrote _, RWrite _ key v _ => ef = Some (EWrite key (default "" v))
  | Deleted, RDelete _ key _ => ef = Some (EDelete key)
  | ReadIs e, RRead _ key _ => ef = Some (ERead key (default "" (kv_Value e)))
  | _, _ => False
  end.

(** The effect of a method after one more step. *)
Definition so_far (before ef : option effect) : option effect := match before with Some e => Some e | None => ef end.

Class Register (B M I K : Type) `{Backend B M I} (background : B → K → Res B) (home : string) (lossy : bool) := {
  value : B → string → option string;
  valid : B → gmap nat M → Prop;
  asked : M → request;
  acted : M → option effect;
  enter_ok : ∀ b ms t inp r, valid b ms → ms !! t = None → node_of r = home →
    ∃ b' ef out, enter b t inp r = Ok (b', ef, out) ∧
    sees (value b) ef ∧ (∀ key, value b' key = apply_effect ef (value b) key) ∧
    match out with
    | inl m => valid b' (<[t := m]> ms) ∧ asked m = r ∧ acted m = ef
    | inr a => valid b' ms ∧ answers lossy r ef a
    end;
  advance_ok : ∀ b ms t inp m, valid b ms → ms !! t = Some m →
    ∃ b' ef out, advance b t inp m = Ok (b', ef, out) ∧
    (acted m = None ∨ ef = None) ∧ sees (value b) ef ∧ (∀ key, value b' key = apply_effect ef (value b) key) ∧
    match out with
    | inl m' => valid b' (<[t := m']> ms) ∧ asked m' = asked m ∧ acted m' = so_far (acted m) ef
    | inr a => valid b' (delete t ms) ∧ answers lossy (asked m) (so_far (acted m) ef) a
    end;
  background_ok : ∀ b ms x, valid b ms → ∃ b', background b x = Ok b' ∧ valid b' ms ∧ ∀ key, value b' key = value b key;
}.

(** ** Programs that keep the books

    A program is checked against the entry its call has in the ledger: it has one effect at most,
    records an operation that fits it, counts it, and returns success exactly when it did.  What a
    call that fails has done is not recorded. *)

Definition fits (op : Op) (e : effect) : Prop :=
  match e with
  | EWrite k v => Kind op = OpWrite ∧ Key op = k ∧ Value op = v
  | ERead k v => Kind op = OpRead ∧ Key op = k ∧ Value op = v
  | EDelete _ => False
  end.

(** Success is returned for an effect of the right kind. *)
Definition of_kind (a : reply) (e : effect) : Prop :=
  match a, e with Wrote _, EWrite _ _ | Deleted, EDelete _ | ReadIs _, ERead _ _ => True | _, _ => False end.

Definition returned (lossy : bool) (r : result) (x : option Entry) : Prop :=
  match r with
  | Done _ a => ∃ e, x = Some e ∧ l_counted e = true ∧ of_kind a (l_eff e)
  | NodeError =>
      match x with
      | None => True
      | Some e => l_op e = None ∧ l_counted e = false ∧ match l_eff e with ERead _ _ => True | _ => lossy = true end
      end
  | _ => x = None
  end.

Section typing.
Context (cfg : Cluster.ClusterConfig) (target : string → option string) (home : string) (lossy : bool).

(** What an operation needs at time [τ], with the entry of its call. *)
Definition pre {X} (c : call X) (τ : Z) (x : option Entry) : Prop :=
  match c with
  | NodeCall r => x = None ∧ node_of r = home
  | RecordOp op => ∃ e, x = Some e ∧ l_op e = None ∧ l_counted e = false ∧ fits op (l_eff e) ∧
      Invoke op ≤ l_at e ≤ Complete op ∧ Complete op ≤ τ
  | IncrWrites => ∃ e, x = Some e ∧ l_counted e = false ∧
      match l_eff e with EWrite _ _ => l_op e ≠ None | EDelete _ => True | ERead _ _ => False end
  | IncrReads => ∃ e, x = Some e ∧ l_counted e = false ∧ match l_eff e with ERead _ _ => l_op e ≠ None | _ => False end
  | _ => True
  end.

(** What it may answer, and the entry afterwards, when it runs from [τ0] to [τ]. *)
Definition post (t : nat) {X} (c : call X) : Z → Z → X → option Entry → option Entry → Prop :=
  match c in call X return Z → Z → X → option Entry → option Entry → Prop with
  | GetCluster _ => λ _ _ a x x', (a = None ∨ a = Some cfg) ∧ x' = x
  | Target n => λ _ _ a x x', a = target n ∧ x' = x
  | Now => λ _ τ a x x', a = τ ∧ x' = x
  | NodeCall r => λ τ0 τ a x x', ∃ ef, answers lossy r ef a ∧
      match ef with None => x' = None | Some e => ∃ at_, τ0 ≤ at_ ≤ τ ∧ x' = Some (MkEntry t e at_ None false) end
  | RecordOp op => λ _ _ _ x x', x' = set_op op <$> x
  | IncrWrites => λ _ _ _ x x', x' = set_counted <$> x
  | IncrReads => λ _ _ _ x x', x' = set_counted <$> x
  | RaftLeaderID => λ _ _ _ x x', x' = x
  | Sleep _ => λ _ _ _ x x', x' = x
  | Publish _ _ _ => λ _ _ _ x x', x' = x
  end.

Fixpoint ok (t : nat) (p : prog) (τ : Z) (x : option Entry) : Prop :=
  match p with
  | Return r => returned lossy r x
  | Do c k => ∀ τ0, τ ≤ τ0 → pre c τ0 x ∧ ∀ a τ' x', τ0 ≤ τ' → post t c τ0 τ' a x x' → ok t (k a) τ' x'
  end.

(** The programs of the orchestrator, for calls that go to [home]. *)

Lemma ok_route t clusterID nodeID k τ : (target nodeID = None ∨ target nodeID = Some home) → Cluster.Strategy cfg ≠ "raft" →
  (∀ τ', τ ≤ τ' → ok t (k home) τ' None) → ok t (route clusterID nodeID k) τ None.
Proof.
  intros Ht Hs Hk τ0 H0. split; [done|]. intros a τ1 x1 H1 [[->| ->] ->]; [done|].
  destruct (String.eqb_spec (Cluster.Strategy cfg) "raft"); [done|]. rewrite andb_false_r.
  intros τ2 H2. split; [done|]. intros b τ3 x3 H3 [-> ->]. destruct Ht as [->| ->]; [done|]. apply Hk. lia.
Qed.

Lemma failed_entry t τ0 τ ef x :
  match ef with None | Some (ERead _ _) => True | _ => lossy = true end →
  match ef with None => x = None | Some e => ∃ at_, τ0 ≤ at_ ≤ τ ∧ x = Some (MkEntry t e at_ None false) end →
  returned lossy NodeError x.
Proof. destruct ef as [e|]; [|by intros _ ->]. intros He (at_ & _ & ->). by destruct e. Qed.

Lemma ok_call t clusterID c τ :
  (let n := match c with CWrite n _ _ _ | CDelete n _ _ | CRead n _ _ => n end in target n = None ∨ target n = Some home) →
  Cluster.Strategy cfg ≠ "raft" → ok t (prog_of clusterID c) τ None.
Proof.
  intros Hn Hs. destruct c as [n key v cl|n key cl|n key cl]; (apply ok_route; [exact Hn|exact Hs|]); clear.
  - intros τ0 _ τ1 H1. split; [done|]. intros invoke τ2 x2 H2 [-> ->] τ3 H3. split; [done|].
    intros a τ4 x4 H4 (ef & Ha & Hx). destruct a; simpl in Ha; try done; [by eapply failed_entry|]. subst ef. destruct Hx as (at_ & Hat & ->).
    intros τ5 H5. split; [done|]. intros complete τ6 x6 H6 [-> ->] τ7 H7. split; [eexists; split_and!; try done; simpl; lia|].
    intros _ τ8 x8 H8 -> τ9 H9. split; [by eexists|]. intros _ τ10 x10 H10 -> τ11 H11. split; [done|].
    intros _ τ12 x12 H12 ->. by eexists.
  - intros τ0 _ τ3 H3. split; [done|]. intros a τ4 x4 H4 (ef & Ha & Hx). destruct a; simpl in Ha; try done; [by eapply failed_entry|].
    subst ef. destruct Hx as (at_ & Hat & ->). intros τ5 H5. split; [by eexists|]. intros _ τ6 x6 H6 ->. by eexists.
  - intros τ0 _ τ1 H1. split; [done|]. intros invoke τ2 x2 H2 [-> ->] τ3 H3. split; [done|].
    intros a τ4 x4 H4 (ef & Ha & Hx). destruct a; simpl in Ha; try done; [by eapply failed_entry|]. subst ef. destruct Hx as (at_ & Hat & ->).
    intros τ5 H5. split; [done|]. intros complete τ6 x6 H6 [-> ->] τ7 H7. split; [eexists; split_and!; try done; simpl; lia|].
    intros _ τ8 x8 H8 -> τ9 H9. split; [by eexists|]. intros _ τ10 x10 H10 -> τ11 H11. split; [done|].
    intros _ τ12 x12 H12 ->. by eexists.
Qed.

End typing.

(** ** The ledger *)

Definition entry_of (t : nat) (l : list Entry) : option Entry := snd <$> list_find (λ x, l_call x = t) l.

Definition final (es : list effect) : string → option string := foldl (λ v e, apply_effect (Some e) v) (λ _, None) es.

Lemma entry_of_cons t x l : entry_of t (x :: l) = if decide (l_call x = t) then Some x else entry_of t l.
Proof.
  unfold entry_of. cbn [list_find]. destruct (decide (l_call x = t)); [done|].
  by destruct (list_find _ l) as [[??]|].
Qed.

Lemma entry_of_Some t l x : entry_of t l = Some x → x ∈ l ∧ l_call x = t.
Proof.
  induction l as [|y l IH]; [done|]. rewrite entry_of_cons. case_decide; [intros [= <-]; split; [left|done]|].
  intros [? ?]%IH. split; [by right|done].
Qed.

Lemma entry_of_None t l : entry_of t l = None → t ∉ l_call <$> l.
Proof.
  induction l as [|y l IH]; [intros _ []%elem_of_nil|]. rewrite entry_of_cons. case_decide as Hc; [done|].
  intros Hn%IH. rewrite fmap_cons, elem_of_cons. intros [Hq|Hq]; [by apply Hc|done].
Qed.

Lemma entry_of_In t l x : NoDup (l_call <$> l) → x ∈ l → l_call x = t → entry_of t l = Some x.
Proof.
  intros Hnd Hx Ht. induction l as [|y l IH]; [by apply elem_of_nil in Hx|].
  rewrite entry_of_cons. cbn in Hnd. apply NoDup_cons in Hnd as [Hny Hnd].
  apply elem_of_cons in Hx as [->|Hx]; [by rewrite decide_True|].
  rewrite decide_False; [by auto|]. intros He. apply Hny. rewrite He, <-Ht. by apply list_elem_of_fmap_2.
Qed.

Lemma entry_of_app t l x : entry_of t (l ++ [x]) =
  match entry_of t l with Some y => Some y | None => if decide (l_call x = t) then Some x else None end.
Proof.
  induction l as [|y l IH]; [by rewrite app_nil_l, entry_of_cons|].
  rewrite <-app_comm_cons, !entry_of_cons, IH. by destruct (decide (l_call y = t)).
Qed.

Lemma entry_of_update t t' f l : (∀ x, l_call (f x) = l_call x) →
  entry_of t' (update t f l) = if decide (t' = t) then f <$> entry_of t' l else entry_of t' l.
Proof.
  intros Hf. induction l as [|y l IH]; [by case_decide|]. unfold update in *.
  rewrite fmap_cons, !entry_of_cons, IH.
  destruct (decide (l_call y = t)) as [Hy|Hy]; [rewrite Hf, Hy|].
  - destruct (decide (t' = t)) as [->|Ht]; [by rewrite !decide_True by done|]. by rewrite !(decide_False (P := t = t')) by done.
  - destruct (decide (t' = t)) as [->|Ht]; [|done]. by rewrite !(decide_False (P := l_call y = t)) by done.
Qed.

Lemma update_map {A} (g : Entry → A) t f l : (∀ x, g (f x) = g x) → g <$> update t f l = g <$> l.
Proof.
  intros Hg. unfold update. rewrite <-list_fmap_compose. apply list_fmap_ext. intros i x _. simpl. by case_decide.
Qed.

Lemma update_In t f l x : x ∈ update t f l → ∃ y, y ∈ l ∧ (x = y ∧ l_call y ≠ t ∨ x = f y ∧ l_call y = t).
Proof. intros (y & -> & Hy)%list_elem_of_fmap. exists y. case_decide; auto. Qed.

(** An update changes one entry. *)
Lemma update_one t f l x : NoDup (l_call <$> l) → entry_of t l = Some x → ∃ l1 l2, l = l1 ++ x :: l2 ∧ update t f l = l1 ++ f x :: l2.
Proof.
  induction l as [|y l IH]; [done|]. rewrite entry_of_cons. cbn [fmap list_fmap]. intros [Hny Hnd]%NoDup_cons.
  unfold update in *. rewrite fmap_cons. case_decide as Hy.
  - intros [= <-]. exists [], l. split; [done|]. cbn [app]. f_equal. rewrite <-(list_fmap_id l) at 2. apply list_fmap_ext.
    intros i z Hz. rewrite decide_False; [done|]. intros He. apply Hny. rewrite Hy, <-He.
    apply list_elem_of_fmap_2. by eapply list_elem_of_lookup_2.
  - intros He. destruct (IH Hnd He) as (l1 & l2 & -> & ->). by exists (y :: l1), l2.
Qed.

(** The number of entries with a property. *)
Definition count (P : Entry → bool) (l : list Entry) : nat := length (filter (λ x, P x = true) l).

Lemma count_app P l1 l2 : count P (l1 ++ l2) = (count P l1 + count P l2)%nat.
Proof. unfold count. by rewrite filter_app, length_app. Qed.

Lemma count_cons P x l : count P (x :: l) = ((if P x then 1 else 0) + count P l)%nat.
Proof. unfold count. rewrite filter_cons. by destruct (P x). Qed.

Lemma count_update P t f l x : NoDup (l_call <$> l) → entry_of t l = Some x →
  (count P (update t f l) + (if P x then 1 else 0) = count P l + if P (f x) then 1 else 0)%nat.
Proof.
  intros Hnd He. destruct (update_one t f l x Hnd He) as (l1 & l2 & -> & ->). rewrite !count_app, !count_cons. lia.
Qed.

Definition counts_write (x : Entry) : bool := l_counted x && match l_eff x with ERead _ _ => false | _ => true end.
Definition counts_read (x : Entry) : bool := l_counted x && match l_eff x with ERead _ _ => true | _ => false end.

(** Recording an operation adds it to the recorded ones. *)
Lemma update_ops t op l x : NoDup (l_call <$> l) → entry_of t l = Some x → l_op x = None →
  omap l_op (update t (set_op op) l) ≡ₚ omap l_op l ++ [op].
Proof.
  intros Hnd He Hx. destruct (update_one t (set_op op) l x Hnd He) as (l1 & l2 & -> & ->).
  rewrite !omap_app. cbn. rewrite Hx. rewrite <-(app_assoc (omap l_op l1)). apply Permutation_app_head.
  apply Permutation_cons_append.
Qed.

Lemma update_ops_same t l : omap l_op (update t set_counted l) = omap l_op l.
Proof.
  induction l as [|x l IH]; [done|]. unfold update in *. rewrite fmap_cons. cbn [omap list_omap].
  rewrite IH. by case_decide.
Qed.

(** ** The calls keep the books *)

Section books.
Context {B M I K : Type} {BE : Backend B M I} (background : B → K → Res B) (home : string) (lossy : bool) {RG : Register B M I K background home lossy}.
Context (clusterID : string) (cfg : Cluster.ClusterConfig) (target : string → option string).
Hypothesis not_raft : Cluster.Strategy cfg ≠ "raft".

Local Abbreviation World := (World (B := B) (M := M)).

(** The ledger is in the order of time and explains the data; the history and the counters follow it. *)
Record books (w : World) : Prop := {
  k_nodup : NoDup (l_call <$> ledger w);
  k_sorted : StronglySorted Z.le (l_at <$> ledger w);
  k_time : ∀ x, x ∈ ledger w → l_at x ≤ time w;
  k_value : ∀ key, value (back w) key = final (l_eff <$> ledger w) key;
  k_legal : ∀ i e, (l_eff <$> ledger w) !! i = Some e → sees (final (take i (l_eff <$> ledger w))) (Some e);
  k_history : Ops (history w) ≡ₚ omap l_op (ledger w);
  k_ops : ∀ x op, x ∈ ledger w → l_op x = Some op →
    fits op (l_eff x) ∧ Invoke op ≤ l_at x ≤ Complete op ∧ Complete op ≤ time w;
  k_counted : ∀ x, x ∈ ledger w → l_counted x = true → match l_eff x with EDelete _ => True | _ => l_op x ≠ None end;
  k_writes : Metrics.TotalWrites (metrics w) = i64 (Z.of_nat (count counts_write (ledger w)));
  k_reads : Metrics.TotalReads (metrics w) = i64 (Z.of_nat (count counts_read (ledger w)));
}.

Definition thread_ok (now : Z) (x : option Entry) (t : nat) (th : thread (M := M)) : Prop :=
  match th with
  | Running p => ∃ τ, τ ≤ now ∧ ok cfg target home lossy t p τ x
  | InNode m k => ∃ τ0, τ0 ≤ now ∧
      (∀ a τ' x', τ0 ≤ τ' → post cfg target lossy t (NodeCall (asked m)) τ0 τ' a None x' → ok cfg target home lossy t (k a) τ' x') ∧
      match acted m with
      | None => x = None
      | Some e => ∃ at_, τ0 ≤ at_ ≤ now ∧ x = Some (MkEntry t e at_ None false)
      end
  end.

Definition methods (ths : gmap nat (thread (M := M))) : gmap nat M :=
  omap (λ th, match th with InNode m _ => Some m | Running _ => None end) ths.

Record inv (w : World) : Prop := {
  v_threads : ∀ t th, threads w !! t = Some th → thread_ok (time w) (entry_of t (ledger w)) t th;
  v_fresh : ∀ t, threads w !! t = None → entry_of t (ledger w) = None;
  v_valid : valid (back w) (methods (threads w));
  v_books : books w;
}.

Lemma thread_ok_later now now' x t th : now ≤ now' → thread_ok now x t th → thread_ok now' x t th.
Proof.
  intros Hle. destruct th as [p|m k]; cbn.
  - intros (τ & ? & ?). exists τ. split; [lia|done].
  - intros (τ & ? & Hk & He). exists τ. split_and!; [lia|done|]. destruct (acted m); [|done].
    destruct He as (at_ & ? & ->). exists at_. split; [lia|done].
Qed.

Lemma methods_insert t th ths : methods (<[t := th]> ths) =
  match th with InNode m _ => <[t := m]> (methods ths) | Running _ => delete t (methods ths) end.
Proof. unfold methods. rewrite omap_insert. by destruct th. Qed.

Lemma methods_lookup t ths : methods ths !! t = match ths !! t with Some (InNode m _) => Some m | _ => None end.
Proof. unfold methods. rewrite lookup_omap. by destruct (ths !! t) as [[|]|]. Qed.

(** One call moves; the entries of the others stay. *)
Lemma inv_move w t th w' :
  inv w → threads w' = <[t := th]> (threads w) → time w' = time w →
  (∀ t', t' ≠ t → entry_of t' (ledger w') = entry_of t' (ledger w)) →
  thread_ok (time w) (entry_of t (ledger w')) t th → valid (back w') (methods (threads w')) → books w' → inv w'.
Proof.
  intros Hi Hth Hti Hen Hok Hv Hb. split; [| |done|done].
  - intros t' th'. rewrite Hth, Hti, lookup_insert_Some. intros [[<- <-]|[Hne Hl]]; [done|].
    rewrite Hen by done. by apply (v_threads _ Hi).
  - intros t'. rewrite Hth, lookup_insert_None. intros [Hl Hne]. rewrite Hen by done. by apply (v_fresh _ Hi).
Qed.

(** A step that touches neither the data nor the books. *)
Lemma inv_with_thread w t p :
  inv w → methods (threads w) !! t = None → (∃ τ, τ ≤ time w ∧ ok cfg target home lossy t p τ (entry_of t (ledger w))) →
  inv (with_thread w t (Running p)).
Proof.
  intros Hi Hm Hp. apply (inv_move w t (Running p)); try done.
  - cbn. rewrite methods_insert, delete_id by done. apply (v_valid _ Hi).
  - destruct (v_books _ Hi). by split.
Qed.

Lemma final_app es e key : final (es ++ [e]) key = apply_effect (Some e) (final es) key.
Proof. unfold final. by rewrite foldl_app. Qed.

(** An effect is entered at the end of the ledger. *)
Lemma books_effect w t e b ths :
  books w → entry_of t (ledger w) = None → sees (value (back w)) (Some e) →
  (∀ key, value b key = apply_effect (Some e) (value (back w)) key) →
  books (MkWorld b (history w) (metrics w) (bus w) (time w) ths (ledger w ++ [MkEntry t e (time w) None false])).
Proof.
  intros Hb Hn Hs Hv. split; cbn -[count]; try rewrite !fmap_app; cbn -[count].
  - apply NoDup_app. split_and!; [apply (k_nodup _ Hb)| |apply NoDup_singleton].
    intros t' Ht' ->%list_elem_of_singleton. by apply entry_of_None in Hn.
  - apply StronglySorted_app. split_and!; [|apply (k_sorted _ Hb)|repeat constructor].
    intros a1 a2 (x & -> & Hx)%list_elem_of_fmap ->%list_elem_of_singleton. by apply (k_time _ Hb).
  - intros x [Hx| ->%list_elem_of_singleton]%elem_of_app; [by apply (k_time _ Hb)|done].
  - intros key. rewrite final_app, Hv. cbn. destruct e; try case_decide; try done; apply (k_value _ Hb).
  - intros i e' [Hi|[Hi He]]%lookup_app_Some.
    + rewrite take_app_le by (apply lookup_lt_Some in Hi; lia). by apply (k_legal _ Hb).
    + assert (i = length (l_eff <$> ledger w)) as ->.
      { apply lookup_lt_Some in He. cbn in He. lia. }
      rewrite Nat.sub_diag in He. injection He as <-. rewrite take_app_length. destruct e; try done.
      cbn in Hs |- *. by rewrite <-(k_value _ Hb).
  - rewrite omap_app. cbn. rewrite app_nil_r. apply (k_history _ Hb).
  - intros x op [Hx| ->%list_elem_of_singleton]%elem_of_app; [by apply (k_ops _ Hb)|done].
  - intros x [Hx| ->%list_elem_of_singleton]%elem_of_app; [by apply (k_counted _ Hb)|done].
  - rewrite count_app, count_cons. cbn -[count]. rewrite !Nat.add_0_r. apply (k_writes _ Hb).
  - rewrite count_app, count_cons. cbn -[count]. rewrite !Nat.add_0_r. apply (k_reads _ Hb).
Qed.

Lemma books_quiet w b ths :
  books w → (∀ key, value b key = value (back w) key) →
  books (MkWorld b (history w) (metrics w) (bus w) (time w) ths (ledger w ++ [])).
Proof.
  intros [] Hv. split; cbn; rewrite ?app_nil_r; try done. intros key. by rewrite Hv.
Qed.

Lemma inv_after_node w t k b ef out :
  inv w → (ef = None ∨ entry_of t (ledger w) = None) → sees (value (back w)) ef →
  (∀ key, value b key = apply_effect ef (value (back w)) key) →
  let th := match out with inl m => InNode m k | inr a => Running (k a) end in
  valid b (methods (<[t := th]> (threads w))) →
  thread_ok (time w) (match ef with Some e => Some (MkEntry t e (time w) None false) | None => entry_of t (ledger w) end) t th →
  inv (after_node w t k (b, ef, out)).
Proof.
  intros Hi He Hs Hv th Hva Hth. apply (inv_move w t th); try done.
  - intros t' Ht'. cbn -[entry_of]. destruct ef; [|by rewrite app_nil_r]. rewrite entry_of_app. cbn -[entry_of].
    rewrite decide_False by done. by destruct (entry_of t' _).
  - cbn -[entry_of]. destruct ef as [e|]; [|by rewrite app_nil_r]. destruct He as [|He]; [done|].
    rewrite entry_of_app, He. cbn. by rewrite decide_True.
  - cbn. destruct ef as [e|]; [|apply books_quiet; [apply (v_books _ Hi)|done]].
    destruct He; [done|]. apply books_effect; try done. apply (v_books _ Hi).
Qed.

Lemma inv_enter w t inp r k :
  inv w → threads w !! t = Some (Running (Do (NodeCall r) k)) → ∃ x, enter (back w) t inp r = Ok x ∧ inv (after_node w t k x).
Proof.
  intros Hi Hl. destruct (v_threads _ Hi _ _ Hl) as (τ & Hτ & Hok).
  destruct (Hok (time w) Hτ) as [[Hx Hh] Hpost].
  assert (Hm : methods (threads w) !! t = None) by (rewrite methods_lookup; by rewrite Hl).
  destruct (enter_ok (back w) _ t inp r (v_valid _ Hi) Hm Hh) as (b & ef & out & He & Hs & Hv & Ho). rewrite He. eexists; split; [done|].
  apply inv_after_node; try done; [by right| |]; destruct out as [m|a].
  - rewrite methods_insert. apply Ho.
  - rewrite methods_insert, delete_id by done. apply Ho.
  - destruct Ho as (_ & Hak & Hac). exists (time w). rewrite Hak, Hac. split_and!; [done| |].
    + intros a τ' x' Hle Hp. apply (Hpost a τ' x' Hle). by rewrite Hx.
    + destruct ef; [|done]. exists (time w). split; [lia|done].
  - destruct Ho as (_ & Ha). exists (time w). split; [done|]. apply (Hpost a _ _); [done|]. exists ef. split; [done|].
    destruct ef; [|done]. exists (time w). split; [lia|done].
Qed.

Lemma inv_advance w t inp m k :
  inv w → threads w !! t = Some (InNode m k) → ∃ x, advance (back w) t inp m = Ok x ∧ inv (after_node w t k x).
Proof.
  intros Hi Hl. destruct (v_threads _ Hi _ _ Hl) as (τ & Hτ & Hk & Hx).
  assert (Hm : methods (threads w) !! t = Some m) by (rewrite methods_lookup; by rewrite Hl).
  destruct (advance_ok (back w) _ t inp m (v_valid _ Hi) Hm) as (b & ef & out & He & Hone & Hs & Hv & Ho). rewrite He. eexists; split; [done|].
  set (x := match ef with Some e => Some (MkEntry t e (time w) None false) | None => entry_of t (ledger w) end).
  assert (Hx' : match so_far (acted m) ef with
                | None => x = None
                | Some e => ∃ at_, τ ≤ at_ ≤ time w ∧ x = Some (MkEntry t e at_ None false) end).
  { subst x. destruct (acted m) as [e|]; cbn.
    - destruct Hone as [| ->]; [done|]. exact Hx.
    - destruct ef; [|done]. exists (time w). split; [lia|done]. }
  apply inv_after_node; try done; [destruct Hone as [Hn| ->]; [right; by rewrite Hn in Hx|by left]| |]; destruct out as [m'|a].
  - rewrite methods_insert. apply Ho.
  - rewrite methods_insert. apply Ho.
  - destruct Ho as (_ & Hak & Hac). exists τ. rewrite Hak, Hac. by split_and!.
  - destruct Ho as (_ & Ha). exists (time w). split; [done|]. apply (Hk a); [lia|]. eexists; split; [done|].
    destruct (so_far (acted m) ef); [|done]. destruct Hx' as (at_ & Hat & Hx'). exists at_. split; [lia|exact Hx'].
Qed.

(** The books of one entry change. *)
Lemma books_update w t f x h' m' ths :
  books w → entry_of t (ledger w) = Some x →
  (∀ y, l_call (f y) = l_call y ∧ l_eff (f y) = l_eff y ∧ l_at (f y) = l_at y) →
  Ops h' ≡ₚ omap l_op (update t f (ledger w)) →
  (∀ op, l_op (f x) = Some op → fits op (l_eff x) ∧ Invoke op ≤ l_at x ≤ Complete op ∧ Complete op ≤ time w) →
  (l_counted (f x) = true → match l_eff x with EDelete _ => True | _ => l_op (f x) ≠ None end) →
  Metrics.TotalWrites m' = i64 (Z.of_nat (count counts_write (update t f (ledger w)))) →
  Metrics.TotalReads m' = i64 (Z.of_nat (count counts_read (update t f (ledger w)))) →
  books (MkWorld (back w) h' m' (bus w) (time w) ths (update t f (ledger w))).
Proof.
  intros Hb Hx Hf Hh Ho Hc Hw Hr.
  assert (Hin : ∀ y, y ∈ update t f (ledger w) → y = f x ∨ y ∈ ledger w).
  { intros y (z & Hz & [[-> _]|[-> Hzt]])%update_In; [by right|left].
    rewrite (entry_of_In t _ z (k_nodup _ Hb) Hz Hzt) in Hx. by injection Hx as <-. }
  destruct (Hf x) as (Hf1 & Hf2 & Hf3). apply entry_of_Some in Hx as [Hx _].
  split; cbn -[count update]; try done; rewrite ?(update_map l_call), ?(update_map l_at), ?(update_map l_eff) by apply Hf;
    try apply Hb.
  - intros y [-> |Hy]%Hin; [rewrite Hf3|]; by apply (k_time _ Hb).
  - intros y op [-> |Hy]%Hin; [rewrite Hf2, Hf3; apply Ho|]; by apply (k_ops _ Hb).
  - intros y [-> |Hy]%Hin; [rewrite Hf2; apply Hc|]; by apply (k_counted _ Hb).
Qed.

Lemma inv_update w t f x h' m' p :
  inv w → methods (threads w) !! t = None → (∀ y, l_call (f y) = l_call y) → entry_of t (ledger w) = Some x →
  ok cfg target home lossy t p (time w) (f <$> entry_of t (ledger w)) →
  let w' := MkWorld (back w) h' m' (bus w) (time w) (<[t := Running p]> (threads w)) (update t f (ledger w)) in
  books w' → inv w'.
Proof.
  intros Hi Hm Hf Hx Hok w' Hb. apply (inv_move w t (Running p)); try done.
  - intros t' Ht'. cbn [w' ledger]. by rewrite entry_of_update, decide_False.
  - exists (time w). split; [done|]. cbn [w' ledger]. by rewrite entry_of_update, decide_True.
  - cbn. rewrite methods_insert, delete_id by done. apply (v_valid _ Hi).
Qed.

Lemma inv_record w t op k :
  inv w → threads w !! t = Some (Running (Do (RecordOp op) k)) →
  inv (MkWorld (back w) (Record_ (history w) op) (metrics w) (bus w) (time w) (<[t := Running (k tt)]> (threads w))
         (update t (set_op op) (ledger w))).
Proof.
  intros Hi Hl. pose proof (v_books _ Hi) as Hb. destruct (v_threads _ Hi _ _ Hl) as (τ & Hτ & Hok).
  destruct (Hok (time w) Hτ) as [(x & Hx & Hn & Hc & Hfit & Hin & Hle) Hpost].
  assert (Hcount : ∀ P, P x = false → P (set_op op x) = false → count P (update t (set_op op) (ledger w)) = count P (ledger w)).
  { intros P H1 H2. pose proof (count_update P t (set_op op) _ x (k_nodup _ Hb) Hx) as Hq. rewrite H1, H2 in Hq. lia. }
  apply (inv_update w t _ x); try done.
  - rewrite methods_lookup. by rewrite Hl.
  - by apply Hpost.
  - apply (books_update w t _ x); try done.
    + cbn. rewrite (update_ops t op _ x (k_nodup _ Hb) Hx Hn). by rewrite <-(k_history _ Hb).
    + by intros op' [= <-].
    + by cbn; rewrite Hc.
    + rewrite Hcount; [apply Hb| |]; unfold counts_write; cbn; by rewrite Hc.
    + rewrite Hcount; [apply Hb| |]; unfold counts_read; cbn; by rewrite Hc.
Qed.

(** Counting the call of [t]. *)
Lemma inv_count w t m' p x :
  inv w → methods (threads w) !! t = None → entry_of t (ledger w) = Some x → l_counted x = false →
  match l_eff x with EDelete _ => True | _ => l_op x ≠ None end →
  Metrics.TotalWrites m' = i64 (Metrics.TotalWrites (metrics w) + match l_eff x with ERead _ _ => 0 | _ => 1 end) →
  Metrics.TotalReads m' = i64 (Metrics.TotalReads (metrics w) + match l_eff x with ERead _ _ => 1 | _ => 0 end) →
  ok cfg target home lossy t p (time w) (set_counted <$> entry_of t (ledger w)) →
  inv (MkWorld (back w) (history w) m' (bus w) (time w) (<[t := Running p]> (threads w)) (update t set_counted (ledger w))).
Proof.
  intros Hi Hm Hx Hc Ho Hw Hr Hp. pose proof (v_books _ Hi) as Hb.
  pose proof (count_update counts_write t set_counted _ x (k_nodup _ Hb) Hx) as Hcw.
  pose proof (count_update counts_read t set_counted _ x (k_nodup _ Hb) Hx) as Hcr.
  unfold counts_write at 2 4 in Hcw. unfold counts_read at 2 4 in Hcr. cbn -[count update] in Hcw, Hcr.
  rewrite Hc in Hcw, Hcr. cbn -[count update] in Hcw, Hcr.
  apply (inv_update w t _ x); try done. apply (books_update w t _ x); try done.
  - rewrite update_ops_same. apply Hb.
  - intros op Hop. apply (k_ops _ Hb); [by apply entry_of_Some in Hx as []|done].
  - rewrite Hw, (k_writes _ Hb), i64_add_l. f_equal. destruct (l_eff x); lia.
  - rewrite Hr, (k_reads _ Hb), i64_add_l. f_equal. destruct (l_eff x); lia.
Qed.

Lemma books_frame w b' bu now ths :
  books w → (∀ key, value b' key = value (back w) key) → time w ≤ now →
  books (MkWorld b' (history w) (metrics w) bu now ths (ledger w)).
Proof.
  intros Hb Hv Hle. destruct Hb. split; cbn; try done.
  - intros x Hx. transitivity (time w); auto.
  - intros key. by rewrite Hv.
  - intros x op Hx Ho. destruct (k_ops0 x op Hx Ho) as (? & ? & ?). split_and!; [done|lia..].
Qed.

Lemma inv_perform w t inp leader X (c : call X) k :
  inv w → (0 < Bus.maxBuffer (bus w))%nat → threads w !! t = Some (Running (Do c k)) →
  ∃ w', perform clusterID cfg target w t inp leader c k = Ok w' ∧ inv w' ∧ Bus.maxBuffer (bus w') = Bus.maxBuffer (bus w).
Proof.
  intros Hi Hbuf Hl.
  assert (Hm : methods (threads w) !! t = None) by (rewrite methods_lookup; by rewrite Hl).
  destruct (v_threads _ Hi _ _ Hl) as (τ & Hτ & Hok). destruct (Hok (time w) Hτ) as [Hpre Hpost].
  assert (Hstay : ∀ a, post cfg target lossy t c (time w) (time w) a (entry_of t (ledger w)) (entry_of t (ledger w)) →
    inv (with_thread w t (Running (k a)))).
  { intros a Ha. apply inv_with_thread; [done..|]. exists (time w). split; [done|]. by apply Hpost. }
  destruct c as [id| |n| |ms|r|op| | |ty n key]; cbn [perform].
  - eexists; split_and!; [done| |done]. apply Hstay. split; [|done]. destruct (String.eqb id clusterID); auto.
  - eexists; split_and!; [done| |done]. by apply Hstay.
  - eexists; split_and!; [done| |done]. by apply Hstay.
  - eexists; split_and!; [done| |done]. by apply Hstay.
  - eexists; split_and!; [done| |done]. by apply Hstay.
  - destruct (inv_enter w t inp r k Hi Hl) as (x & -> & Hx). rewrite Res_bind_Ok. eexists; split_and!; [done|done|]. by destruct x as [[]].
  - eexists; split_and!; [done|by apply inv_record|done].
  - eexists; split_and!; [done| |done]. destruct Hpre as (x & Hx & Hc & He). apply (inv_count w t _ _ x); try done.
    + by destruct (l_eff x).
    + cbn. by destruct (l_eff x).
    + cbn -[i64 count]. rewrite (k_reads _ (v_books _ Hi)), i64_add_l. destruct (l_eff x); by rewrite ?Z.add_0_r.
    + by apply Hpost.
  - eexists; split_and!; [done| |done]. destruct Hpre as (x & Hx & Hc & He). apply (inv_count w t _ _ x); try done.
    + by destruct (l_eff x).
    + cbn -[i64 count]. rewrite (k_writes _ (v_books _ Hi)), i64_add_l. destruct (l_eff x); by rewrite ?Z.add_0_r.
    + cbn. by destruct (l_eff x).
    + by apply Hpost.
  - assert (∃ b, Bus.Publish (bus w) (MkEvent ty clusterID n None key) (time w) = Ok b ∧
                 Bus.maxBuffer b = Bus.maxBuffer (bus w)) as (b & Hb & Hmax).
    { unfold Bus.Publish. destruct (Nat.leb_spec (Bus.maxBuffer (bus w)) (length (Bus.buffer (bus w)))); [|by eexists].
      destruct (Bus.buffer (bus w)) as [|e r]; [cbn in *; lia|]. by eexists. }
    rewrite Hb. eexists; split_and!; [done| |done].
    apply (inv_move w t (Running (k tt))); try done.
    + exists (time w). split; [done|]. by apply Hpost.
    + cbn. rewrite methods_insert, delete_id by done. apply (v_valid _ Hi).
    + apply books_frame; [apply (v_books _ Hi)|done|done].
Qed.

(** A call goes to [home], or to no node. *)
Definition to_home (a : action (I := I) (K := K)) : Prop :=
  match a with
  | Spawn _ c => let n := match c with CWrite n _ _ _ | CDelete n _ _ | CRead n _ _ => n end in target n = None ∨ target n = Some home
  | _ => True
  end.

Lemma calls_step w a :
  inv w → to_home a → (0 < Bus.maxBuffer (bus w))%nat →
  ∃ w', step background clusterID cfg target w a = Ok w' ∧ inv w' ∧ Bus.maxBuffer (bus w') = Bus.maxBuffer (bus w).
Proof.
  intros Hi Hhome Hbuf. destruct a as [t c|t inp leader|d|x]; cbn [step].
  - eexists; split_and!; [done| |by destruct (threads w !! t)]. destruct (threads w !! t) as [th|] eqn:Hl; [done|].
    apply inv_with_thread; [done|rewrite methods_lookup; by rewrite Hl|]. exists (time w). split; [done|].
    rewrite (v_fresh _ Hi _ Hl). by apply ok_call.
  - destruct (threads w !! t) as [[[r|X c k]|m k]|] eqn:Hl; [by exists w|by apply inv_perform| |by exists w].
    destruct (inv_advance w t inp m k Hi Hl) as (x & -> & Hx). rewrite Res_bind_Ok. eexists; split_and!; [done|done|]. by destruct x as [[]].
  - eexists; split_and!; [done| |done]. split; cbn.
    + intros t th Hl. apply (thread_ok_later (time w)); [lia|]. by apply (v_threads _ Hi).
    + apply (v_fresh _ Hi).
    + apply (v_valid _ Hi).
    + apply books_frame; [apply (v_books _ Hi)|done|lia].
  - destruct (background_ok (back w) (methods (threads w)) x (v_valid _ Hi)) as (b & -> & Hv & Hval). rewrite Res_bind_Ok.
    eexists; split_and!; [done| |done]. split; cbn; [apply (v_threads _ Hi)|apply (v_fresh _ Hi)|done|]. apply books_frame; [apply (v_books _ Hi)|done|lia].
Qed.

Lemma calls_run acts : ∀ w, inv w → Forall to_home acts → (0 < Bus.maxBuffer (bus w))%nat →
  ∃ w', run background clusterID cfg target w acts = Ok w' ∧ inv w'.
Proof.
  induction acts as [|a acts IH]; intros w Hi Hh Hbuf; cbn [run]; [by exists w|].
  apply Forall_cons in Hh as [Ha Hh]. destruct (calls_step w a Hi Ha Hbuf) as (w1 & -> & Hi1 & Hb1). cbn. apply IH; [done|done|]. by rewrite Hb1.
Qed.

(** *** At rest *)

(** The operations in the order of their effects are a legal run of the register of [key]. *)
Lemma effects_legal key l : ∀ v c,
  (∀ x, x ∈ l → match l_op x with Some op => fits op (l_eff x) | None => ∀ k y, l_eff x ≠ EWrite k y end) →
  (∀ i e, (l_eff <$> l) !! i = Some e → sees (foldl (λ v e, apply_effect (Some e) v) v (take i (l_eff <$> l))) (Some e)) →
  (∀ x, v key = Some x → c = x) → legal c (sub_history (omap l_op l) key).
Proof.
  induction l as [|x l IH]; intros v c Hops Hsee Hv; [done|].
  pose proof (Hsee 0%nat _ eq_refl) as H0. cbn in H0.
  assert (Hrest : ∀ c', (∀ y, apply_effect (Some (l_eff x)) v key = Some y → c' = y) → legal c' (sub_history (omap l_op l) key)).
  { intros c' Hc'. apply (IH (apply_effect (Some (l_eff x)) v)); [intros y Hy; apply Hops; by right| |done].
    intros i e Hi. apply (Hsee (S i) e Hi). }
  specialize (Hops x (list_elem_of_here _ _)). unfold sub_history in *. cbn [omap list_omap].
  destruct (l_op x) as [op|], (l_eff x) as [k y|k|k y]; cbn [apply_effect] in Hrest; try done.
  - destruct Hops as (Hk & <- & <-). rewrite filter_cons. case_decide as Hkey.
    + cbn [legal]. unfold apply. rewrite Hk. apply Hrest. by intros ? [= <-].
    + by apply Hrest.
  - destruct Hops as (Hk & <- & <-). rewrite filter_cons. case_decide as Hkey.
    + cbn [legal]. unfold apply. rewrite Hk. rewrite Hkey in H0. rewrite (Hv _ H0), String.eqb_refl.
      apply Hrest. intros z Hz. rewrite H0 in Hz. by injection Hz.
    + by apply Hrest.
  - by destruct (Hops k y).
  - apply Hrest. case_decide; [done|apply Hv].
  - by apply Hrest.
Qed.

Lemma effects_real_time w : books w → real_time (omap l_op (ledger w)).
Proof.
  intros Hb. pose proof (k_sorted _ Hb) as Hs. pose proof (k_ops _ Hb) as Ho. clear Hb. revert Hs Ho.
  induction (ledger w) as [|x l IH]; [done|]. cbn [fmap list_fmap omap list_omap].
  intros [Hs Hx]%StronglySorted_inv Ho. assert (IH' : real_time (omap l_op l)).
  { apply IH; [done|]. intros y op Hy. apply Ho. by right. }
  destruct (l_op x) as [op|] eqn:Hop; [|done]. split; [|done]. apply Forall_forall. intros op' (y & Hy & Hop')%list_elem_of_omap.
  destruct (Ho x op (list_elem_of_here _ _) Hop) as (_ & Hi & _). destruct (Ho y op' (list_elem_of_further _ _ _ Hy) Hop') as (_ & Hi' & _).
  rewrite Forall_forall in Hx. assert (l_at x ≤ l_at y) by (apply Hx, list_elem_of_fmap_2, Hy). lia.
Qed.

(** The calls that returned success, by kind. *)
Definition wrote (th : thread (M := M)) : bool :=
  match th with Running (Return (Done _ (Wrote _))) | Running (Return (Done _ Deleted)) => true | _ => false end.
Definition did_read (th : thread (M := M)) : bool := match th with Running (Return (Done _ (ReadIs _))) => true | _ => false end.

Lemma rest_entry w t x : inv w → at_rest w → entry_of t (ledger w) = Some x →
  if l_counted x then ∃ n a, threads w !! t = Some (Running (Return (Done n a))) ∧ of_kind a (l_eff x)
  else l_op x = None ∧ (lossy = true ∨ ∀ k y, l_eff x ≠ EWrite k y) ∧ threads w !! t = Some (Running (Return NodeError)).
Proof.
  intros Hi Hr Hx. destruct (threads w !! t) as [th|] eqn:Hl; [|by rewrite (v_fresh _ Hi _ Hl) in Hx].
  destruct (Hr _ _ Hl) as (r & ->). destruct (v_threads _ Hi _ _ Hl) as (τ & _ & Hret). rewrite Hx in Hret.
  destruct r as [| | |n a]; cbn in Hret; [done|done| |].
  { destruct Hret as (? & -> & ?). split_and!; [done| |done]. destruct (l_eff x); auto. }
  destruct Hret as (? & [= <-] & -> & ?). eauto.
Qed.

Lemma rest_count w (P : Entry → bool) (Q : thread → bool) :
  inv w → at_rest w →
  (∀ x, P x = true → l_counted x = true) →
  (∀ x n a, l_counted x = true → of_kind a (l_eff x) → P x = Q (Running (Return (Done n a)))) →
  (∀ r, (∀ n a, r ≠ Done n a) → Q (Running (Return r)) = false) →
  count P (ledger w) = size (filter (λ p, Q p.2 = true) (threads w)).
Proof.
  intros Hi Hr HP0 HPQ HQ. pose proof (k_nodup _ (v_books _ Hi)) as Hnd.
  assert (Hset : (list_to_set (l_call <$> filter (λ x, P x = true) (ledger w)) : gset nat) = dom (filter (λ p, Q p.2 = true) (threads w))).
  { apply set_eq. intros t. rewrite elem_of_list_to_set, elem_of_dom, list_elem_of_fmap. split.
    - intros (x & -> & [HP Hx]%list_elem_of_filter). pose proof (entry_of_In _ _ x Hnd Hx eq_refl) as He.
      pose proof (rest_entry w _ x Hi Hr He) as Hen. pose proof (HP0 x HP) as Hc. rewrite Hc in Hen.
      destruct Hen as (n & a & Hl & Hk). eexists. apply map_lookup_filter_Some. split; [exact Hl|].
      cbn. by rewrite <-(HPQ x n a Hc Hk).
    - intros [th [Hl Hq]%map_lookup_filter_Some]. cbn in Hq. destruct (Hr _ _ Hl) as (r & ->).
      destruct r as [| | |n a]; [by rewrite HQ in Hq by done..|].
      destruct (v_threads _ Hi _ _ Hl) as (τ & _ & x & Hx & Hc & Hk). apply entry_of_Some in Hx as [Hx Ht].
      exists x. split; [done|]. apply list_elem_of_filter. by rewrite (HPQ x n a Hc Hk). }
  rewrite <-size_dom, <-Hset, size_list_to_set; [by rewrite length_fmap|].
  eapply sublist_NoDup; [exact Hnd|]. apply fmap_sublist. clear. induction (ledger w) as [|x l IH]; [done|].
  rewrite filter_cons. case_decide; [by apply sublist_skip|by apply sublist_cons].
Qed.

Lemma rest_history w : inv w → at_rest w → time w ≤ maxInt64 →
  (lossy = true → ∀ t, threads w !! t ≠ Some (Running (Return NodeError))) → globally_linearizable (Ops (history w)) ∧ Forall op_ok (Ops (history w)).
Proof.
  intros Hi Hr Hmax Hlossy. pose proof (v_books _ Hi) as Hb. split.
  - exists (omap l_op (ledger w)). split_and!; [by rewrite (k_history _ Hb)|by apply effects_real_time|].
    intros key. apply (effects_legal key _ (λ _, None)); [|apply (k_legal _ Hb)|done].
    intros x Hx. pose proof (entry_of_In _ _ x (k_nodup _ Hb) Hx eq_refl) as He.
    pose proof (rest_entry w _ x Hi Hr He) as Hen. destruct (l_op x) as [op|] eqn:Ho; [by apply (k_ops _ Hb)|].
    destruct (l_counted x) eqn:Hc; [|destruct Hen as (_ & [Hl|?] & He'); [by destruct (Hlossy Hl (l_call x))|done]]. intros k y Hk. pose proof (k_counted _ Hb x Hx Hc) as Hn. by rewrite Hk, Ho in Hn.
  - rewrite (k_history _ Hb). apply Forall_forall. intros op (x & Hx & Ho)%list_elem_of_omap.
    destruct (k_ops _ Hb x op Hx Ho) as (_ & ? & ?). unfold op_ok. lia.
Qed.

(** A service nobody has called yet, with nothing stored. *)
Record fresh (w : World) : Prop := {
  fr_threads : threads w = ∅;
  fr_ledger : ledger w = [];
  fr_history : Ops (history w) = [];
  fr_writes : Metrics.TotalWrites (metrics w) = 0;
  fr_reads : Metrics.TotalReads (metrics w) = 0;
  fr_valid : valid (back w) ∅;
  fr_value : ∀ key, value (back w) key = None;
  fr_bus : (0 < Bus.maxBuffer (bus w))%nat;
}.

Lemma fresh_inv w : fresh w → inv w.
Proof.
  intros [H1 H2 H3 H4 H5 H6 H7 _]. split.
  - intros t th. by rewrite H1.
  - intros t _. by rewrite H2.
  - rewrite H1. unfold methods. by rewrite omap_empty.
  - split; rewrite ?H2, ?H3; try done; [apply NoDup_nil_2|constructor| | |]; [by intros x ?%elem_of_nil|by intros x op ?%elem_of_nil|by intros x ?%elem_of_nil].
Qed.

(** Calls to [home], however they interleave: none panics, and once they have all returned the counters
    are those of the calls that succeeded, and the checker accepts the history; if the register is
    lossy, provided none of the calls failed at the node. *)
Lemma calls_accounted w acts : fresh w → Forall to_home acts →
  ∃ w', run background clusterID cfg target w acts = Ok w' ∧
    (at_rest w' → time w' ≤ maxInt64 →
     ((lossy = true → ∀ t, threads w' !! t ≠ Some (Running (Return NodeError))) → CheckRegister (Ops (history w')) = (true, None)) ∧
     Metrics.TotalWrites (metrics w') = i64 (Z.of_nat (size (filter (λ p, wrote p.2 = true) (threads w')))) ∧
     Metrics.TotalReads (metrics w') = i64 (Z.of_nat (size (filter (λ p, did_read p.2 = true) (threads w'))))).
Proof.
  intros Hf Hh. destruct (calls_run acts w (fresh_inv w Hf) Hh (fr_bus w Hf)) as (w' & Hr & Hi). exists w'. split; [done|].
  intros Hrest Hmax. split_and!.
  - intros Hlossy. destruct (rest_history w' Hi Hrest Hmax Hlossy) as [Hlin Hok]. destruct (CheckRegister_correct _ Hok) as [[-> _]|(op & _ & Hin & Hl)]; [done|]. destruct Hl. by apply (locality _ Hok).
  - rewrite (k_writes _ (v_books _ Hi)). f_equal. f_equal. apply rest_count; try done.
    + intros x [? _]%andb_prop. done.
    + intros x n a Hc Hk. unfold counts_write. rewrite Hc. by destruct a, (l_eff x).
    + intros [] Hn; try done. by destruct (Hn node r).
  - rewrite (k_reads _ (v_books _ Hi)). f_equal. f_equal. apply rest_count; try done.
    + intros x [? _]%andb_prop. done.
    + intros x n a Hc Hk. unfold counts_read. rewrite Hc. by destruct a, (l_eff x).
    + intros [] Hn; try done. by destruct (Hn node r).
Qed.
End books.
End Service.
