(* ===== verification/LeaderService.v ===== *)
(** * Client calls on a single-leader cluster

    Connects [Service] to the single-leader clusters of [ClusterRuntime]: the methods of the nodes
    ([Write], [Delete], [Read] of [src/internal/node/leader.go] and [src/internal/node/follower.go]) as
    the steps they take on a cluster that runs on the network fabric.  The leader keeps the contract
    [Service.Register], so what [Service] proves holds for the clusters the orchestrator builds: without
    losses while the cluster is asynchronous, and with losses in every mode, because a write that fails
    when its replicas do not answer in time has taken effect. *)

From S2P Require Import Prelude Storage Clock ReplicationLog Conflict Linearizability Events Transport Consistency Node.
From S2P Require Import SingleLeader Cluster Membership Persistence Metrics Runtime ClusterRuntime Service.
Import (hints) Node Cluster.
#[local] Open Scope nat_scope.

Module LeaderService.
Import Message SingleLeader Runtime Service.

Section backend.
Context {float : Type} (fltb : float → float → bool) (fzero : float).

Abbreviation Net := (@Runtime.Running float SingleLeader.Sys).

(** ** The methods *)

(** Where a method stands: its entry is stamped, logged, stored, or waits for acknowledgements; a read
    has its entry. *)
Inductive method :=
  | MStamped (r : request)
  | MLogged (r : request)
  | MStored (r : request)
  | MWaiting (r : request) (e : option LogEntry) (s : nat)
  | MGot (r : request) (e : KVEntry).

Definition act (b : Net) (a : SingleLeader.action) : Res Net := Runtime.step fltb fzero (H := single_system) b (Act a).

Definition text (e : KVEntry) : string := default "" (kv_Value e).

Definition client_of (r : request) : string :=
  match r with RWrite _ _ _ cl | RDelete _ _ cl | RRead _ _ cl => cl end.

Definition effect_of (r : request) : option effect :=
  match r with
  | RWrite _ key v _ => Some (EWrite key (default "" v))
  | RDelete _ key _ => Some (EDelete key)
  | RRead _ _ _ => None
  end.

Definition success (r : request) (e : option LogEntry) : reply :=
  match r with RWrite _ _ _ _ => Wrote (kv_of <$> e) | _ => Deleted end.

(** The last operation the call has applied. *)
Definition done_entry (y : SingleLeader.Sys) (t : nat) : option LogEntry := calls y !! t ≫= λ c, last (c_done c).

(** The first step of a method; [now] is what the node's clock reads.  Followers refuse writes. *)
Definition leader_enter (b : Net) (t : nat) (now : Z) (r : request) : Res (Net * option effect * (method + reply)) :=
  let n := ldr (core b) in
  if Node.isPaused (base n) then Ok (b, None, inr Failed)
  else match r with
  | RWrite _ key v cl => b ← act b (AStamp t now key v OpSet cl); Ok (b, None, inl (MStamped r))
  | RDelete _ key cl => b ← act b (AStamp t now key None OpDelete cl); Ok (b, None, inl (MStamped r))
  | RRead _ key _ =>
      match Store.Get (l_store n) key with
      | None => Ok (b, None, inr Failed)
      | Some e => Ok (b, Some (ERead key (text e)), inl (MGot r e))
      end
  end.

Definition follower_enter (b : Net) (r : request) : Res (Net * option effect * (method + reply)) :=
  match fols (core b) !! node_of r, r with
  | Some f, RRead k key cl =>
      x ← f_Read f key cl;
      match x with
      | inl _ => Ok (b, None, inr Failed)
      | inr (e, _) => b ← act b (AFollowerRead k key cl); Ok (b, Some (ERead key (text e)), inr (ReadIs e))
      end
  | _, _ => Ok (b, None, inr Failed)
  end.

(** The further steps, all on the leader. *)
Definition leader_advance (b : Net) (t : nat) (_ : Z) (m : method) : Res (Net * option effect * (method + reply)) :=
  let y := core b in
  match m with
  | MStamped r => b ← act b (AAppend t); Ok (b, None, inl (MLogged r))
  | MLogged r => b ← act b (AStore t); Ok (b, effect_of r, inl (MStored r))
  | MStored r =>
      b ← act b (ASend t);
      Ok (b, None, match mode (ldr y) with
                   | ModeAsync => inr (success r (done_entry y t))
                   | _ => inl (MWaiting r (done_entry y t) (seqNo (ldr (core b))))
                   end)
  | MWaiting r e s =>
      b ← act b (AAwaitEnd s);
      Ok (b, None, inr (if default false (await_ok <$> ackChs (ldr y) !! s) then success r e else Failed))
  | MGot r e =>
      x ← check_read (ldr y) e (client_of r);
      match x with
      | inl _ => Ok (b, None, inr Failed)
      | inr _ => b ← act b (ALeaderCheck e (client_of r)); Ok (b, None, inr (ReadIs e))
      end
  end.

#[local] Instance backend : Backend Net method Z := {|
  enter b t now r := if decide (node_of r = l_id (ldr (core b))) then leader_enter b t now r else follower_enter b r;
  advance := leader_advance;
|}.

(** What goes on besides the calls: everything but the steps of calls, with changes of the mode where
    the cluster need not stay asynchronous. *)
Definition unasked (lossy : bool) (x : @Runtime.action float SingleLeader.action Z) : bool :=
  match x with
  | Act (AStamp _ _ _ _ _ _) | Act (AAppend _) | Act (AStore _) | Act (ASend _) | Act (AAwaitEnd _) => false
  | Act (ASetMode _) => lossy
  | _ => true
  end.

Definition background (lossy : bool) (b : Net) (x : @Runtime.action float SingleLeader.action Z) : Res Net :=
  if unasked lossy x then Runtime.step fltb fzero (H := single_system) b x else Ok b.

(** ** The leader is a register *)

Section register.
Context (lossy : bool).

Definition value_of (b : Net) (key : string) : option string := text <$> Store.Get (l_store (ldr (core b))) key.

Definition stands_for (r : request) (e : LogEntry) : Prop :=
  match r with
  | RWrite _ key v _ => le_Key e = key ∧ le_Value e = v ∧ le_Op e = OpSet
  | RDelete _ key _ => le_Key e = key ∧ le_Op e = OpDelete
  | RRead _ _ _ => False
  end.

(** The call the leader has in progress for a method. *)
Definition call_ok (m : option method) (c : option Call) : Prop :=
  match m with
  | None => c = None
  | Some (MStamped r) => ∃ cl e, c = Some (MkCall cl (Some e) None []) ∧ stands_for r e
  | Some (MLogged r) => ∃ cl e, c = Some (MkCall cl None (Some e) []) ∧ stands_for r e
  | Some (MStored r) => ∃ cl e, c = Some (MkCall cl None None [e]) ∧ stands_for r e
  | Some (MWaiting r _ _) => c = None ∧ lossy = true ∧ effect_of r ≠ None
  | Some (MGot r e) => c = None ∧ ∃ n key cl, r = RRead n key cl
  end.

(** The cluster is one the runtime can reach. *)
Definition good (b : Net) : Prop := ∃ y, sim (H := single_system) b y ∧ SingleLeader.inv y.

Record valid_at (home : string) (b : Net) (ms : gmap nat method) : Prop := {
  va_home : l_id (ldr (core b)) = home;
  va_mode : lossy = false → mode (ldr (core b)) = ModeAsync;
  va_good : good b;
  va_calls : ∀ t, call_ok (ms !! t) (calls (core b) !! t);
}.

(** What a method in progress has done. *)
Definition acted_so_far (m : method) : option effect :=
  match m with
  | MStamped _ | MLogged _ => None
  | MStored r | MWaiting r _ _ => effect_of r
  | MGot r e => match r with RRead _ key _ => Some (ERead key (text e)) | _ => None end
  end.

Definition asked_by (m : method) : request :=
  match m with MStamped r | MLogged r | MStored r | MWaiting r _ _ | MGot r _ => r end.

Lemma good_step b x : good b → ∃ b', Runtime.step fltb fzero (H := single_system) b x = Ok b' ∧ good b'.
Proof.
  intros (y & Hs & Hi).
  destruct (ClusterRuntime.sim_run_Ok (HL := single_laws) fltb fzero b y [x] SingleLeader.inv Hs) as (b' & y' & Hr & Hs' & Hi').
  { intros acts' _. rewrite ClusterRuntime.single_sys_run. by apply sys_run_inv. }
  simpl in Hr. destruct (Runtime.step fltb fzero b x) as [b1|] eqn:E; [|done]. simpl in Hr. injection Hr as ->.
  exists b'. split; [done|]. by exists y'.
Qed.

Lemma act_Ok b a : good b → single_local a = true →
  ∃ y, SingleLeader.sys_step (core b) a = Ok y ∧ act b a = Ok (MkRunning y (fabric b)) ∧ good (MkRunning y (fabric b)).
Proof.
  intros Hg Ha. destruct (good_step b (Act a) Hg) as (b' & Hb & Hg'). unfold act. rewrite Hb.
  cbn [Runtime.step] in Hb. change (local a) with (single_local a) in Hb. rewrite Ha in Hb.
  change (sys_step (core b) a) with (SingleLeader.sys_step (core b) a) in Hb.
  destruct (SingleLeader.sys_step (core b) a) as [y|]; [|done]. simpl in Hb. injection Hb as <-. eauto.
Qed.

(** The steps that leave the leader's data and the calls alone. *)
Definition kept (y y' : SingleLeader.Sys) : Prop :=
  l_store (ldr y') = l_store (ldr y) ∧ (lossy = false → mode (ldr y') = mode (ldr y)) ∧ l_id (ldr y') = l_id (ldr y) ∧ calls y' = calls y.

Lemma HandleMessage_kept n m r : HandleMessage n m = Ok r →
  l_store r.1 = l_store n ∧ mode r.1 = mode n ∧ l_id r.1 = l_id n.
Proof.
  unfold HandleMessage. destruct (m_Type m); try (by intros [= <-]).
  - destruct (ackChs n !! m_AckIndex m); by intros [= <-].
  - destruct (Log.GetFrom _ _) as [es|]; [|done]. simpl. destruct (length es =? 0); by intros [= <-].
Qed.

Lemma unasked_kept y a y' : unasked lossy (Act a) = true → SingleLeader.sys_step y a = Ok y' → kept y y'.
Proof.
  assert (Hid : kept y y) by by split_and!.
  assert (Hset : ∀ n ms, l_store n = l_store (ldr y) → mode n = mode (ldr y) → l_id n = l_id (ldr y) → kept y (set_ldr y n ms)) by (intros; by split_and!).
  intros Ha. destruct a; try done; cbn [SingleLeader.sys_step]; try (by intros [= <-]; apply Hset).
  all: try (intros [= <-]; cbn in Ha; split_and!; [done| |done|done]; by rewrite Ha).
  - destruct (sent y !! i) as [m|]; [|by intros [= <-]]. destruct (decide _); [|by intros [= <-]].
    destruct (HandleMessage (ldr y) m) as [r|] eqn:Hr; simpl; [|done]. intros [= <-]. by destruct (HandleMessage_kept _ _ _ Hr) as (? & ? & ?); apply Hset.
  - destruct (fols y !! f), (sent y !! i) as [m|]; try (by intros [= <-]). destruct (decide _); [|by intros [= <-]].
    destruct (f_HandleMessage _ _ _). by intros [= <-].
  - destruct (fols y !! f); by intros [= <-].
  - unfold SingleLeader.Read. destruct (Node.isPaused _); simpl; [by intros [= <-]|]. destruct (Store.Get _ _) as [e|]; simpl; [|by intros [= <-]].
    destruct (check_read_spec (ldr y) e clientID) as (r & -> & Hr). simpl. destruct r as [|n]; intros [= <-]; [done|].
    destruct Hr as ([_ _ _ _ ?] & ? & ?). by apply Hset.
  - destruct (check_read_spec (ldr y) entry clientID) as (r & -> & Hr). simpl. destruct r as [|n]; intros [= <-]; [done|].
    destruct Hr as ([_ _ _ _ ?] & ? & ?). by apply Hset.
  - destruct (fols y !! f); [|by intros [= <-]]. destruct (f_Read _ _ _) as [[|[? ?]]|]; simpl; [by intros [= <-]..|done].
  - destruct (fols y !! f); by intros [= <-].
  - destruct (fols y !! f); by intros [= <-].
  - intros [= <-]. apply Hset; unfold l_store, l_id; simpl; unfold Node.AddPeer; by repeat case_match.
Qed.

Lemma background_kept b x b' : background lossy b x = Ok b' → kept (core b) (core b').
Proof.
  assert (Hid : kept (core b) (core b)) by by split_and!. unfold background. destruct (unasked lossy x) eqn:Hx; [|by intros [= <-]].
  destruct x as [a|i r now|o|k inp]; cbn [Runtime.step].
  - change (local a) with (single_local a). destruct (single_local a); [|by intros [= <-]].
    change (sys_step (core b) a) with (SingleLeader.sys_step (core b) a).
    destruct (SingleLeader.sys_step (core b) a) as [y|] eqn:E; simpl; [|done]. intros [= <-]. by apply (unasked_kept _ a).
  - destruct (net (core b) !! i); by intros [= <-].
  - destruct (network o); by intros [= <-].
  - destruct (Fabric.nodes (fabric b) !! k) as [[c [|m rest]]|]; try (by intros [= <-]).
    change (handle (core b) k inp m) with (single_loop (core b) k inp m). unfold single_loop. case_decide.
    + destruct (HandleMessage (ldr (core b)) m) as [r|] eqn:Hr; simpl; [|done]. intros [= <-].
      by destruct (HandleMessage_kept _ _ _ Hr) as (? & ? & ?).
    + destruct (fols (core b) !! k) as [f|]; simpl; [|by intros [= <-]].
      destruct (f_HandleMessage f inp m) as [f' ms]. by intros [= <-].
Qed.

(** Storing an operation has its effect. *)
Lemma store_entry_effect n e c r n' : store_entry n e c = Ok n' → stands_for r e →
  mode n' = mode n ∧ l_id n' = l_id n ∧
  ∀ key, text <$> Store.Get (l_store n') key = apply_effect (effect_of r) (λ k, text <$> Store.Get (l_store n) k) key.
Proof.
  unfold store_entry. destruct r as [nd k v cl|nd k cl|]; cbn [stands_for]; [intros H (<- & <- & Hop)|intros H (<- & Hop)|done]; rewrite Hop in H.
  - destruct (Consistency.RecordWrite _ _ _) as [r|]; [|done]. simpl in H. injection H as <-. split_and!; [done..|].
    intros key. unfold l_store. simpl. unfold Store.Get, Store.Set_. simpl.
    case_decide as Hk; [subst; by rewrite lookup_insert_eq|by rewrite lookup_insert_ne].
  - injection H as <-. split_and!; [done..|]. intros key. unfold l_store. simpl. unfold Store.Get, Store.Delete.
    destruct (Store.data (Node.store (base n)) !! le_Key e); simpl;
      (case_decide as Hk; [subst; by rewrite lookup_insert_eq|by rewrite lookup_insert_ne]).
Qed.

(** The call of one method moves on. *)
Lemma valid_move home b ms t y m c :
  valid_at home b ms → good (MkRunning y (fabric b)) → l_id (ldr y) = l_id (ldr (core b)) → mode (ldr y) = mode (ldr (core b)) →
  calls y = partial_alter (λ _, c) t (calls (core b)) → call_ok m c →
  valid_at home (MkRunning y (fabric b)) (partial_alter (λ _, m) t ms).
Proof.
  intros [Hh Hm Hg Hc] Hgood Hid Hmode Hcalls Hok. split; cbn [core]; [by rewrite Hid|by rewrite Hmode|done|].
  intros t'. rewrite Hcalls. destruct (decide (t' = t)) as [->|Hne]; [by rewrite !lookup_partial_alter_eq|].
  rewrite !lookup_partial_alter_ne by done. apply Hc.
Qed.

Lemma valid_kept home b ms y : valid_at home b ms → good (MkRunning y (fabric b)) → kept (core b) y →
  valid_at home (MkRunning y (fabric b)) ms.
Proof. intros [Hh Hm Hg Hc] Hgood (_ & Hk2 & Hk3 & Hk4). split; cbn [core]; [congruence|intros Hl; rewrite Hk2; auto|done|by rewrite Hk4]. Qed.

(** A method whose call is over. *)
Lemma valid_gone home b ms t : valid_at home b ms → calls (core b) !! t = None → valid_at home b (delete t ms).
Proof.
  intros [? ? ? Hc] Hn. split; [done..|]. intros t'. destruct (decide (t' = t)) as [->|Hne]; [by rewrite lookup_delete_eq|].
  rewrite lookup_delete_ne by done. apply Hc.
Qed.

(** A write or a delete begins by stamping its entry. *)
Lemma stamp_ok home b ms t now r key v op :
  valid_at home b ms → ms !! t = None → Node.isPaused (base (ldr (core b))) = false →
  (∀ e, le_Key e = key → le_Value e = v → le_Op e = op → stands_for r e) →
  ∃ b', act b (AStamp t now key v op (client_of r)) = Ok b' ∧ (∀ k, value_of b' k = value_of b k) ∧
    valid_at home b' (<[t := MStamped r]> ms).
Proof.
  intros Hv Ht Hp Hr. pose proof Hv as [_ _ Hg Hc].
  destruct (act_Ok b (AStamp t now key v op (client_of r)) Hg eq_refl) as (y & Hy & Hact & Hgood).
  specialize (Hc t). rewrite Ht in Hc. cbn [call_ok] in Hc. cbn [SingleLeader.sys_step] in Hy. unfold begin_op in Hy.
  rewrite Hc, Hp in Hy. unfold stamp, Node.HLCNow in Hy. destruct (HLC.Now _ now) as [ts h]. injection Hy as <-.
  eexists; split_and!; [exact Hact|done|]. eapply (valid_move _ _ _ t _ (Some _)); try done. cbn [call_ok].
  eexists _, _. split; [done|]. by apply Hr.
Qed.

Lemma leader_enter_ok home b ms t now r : valid_at home b ms → ms !! t = None →
  ∃ b' ef out, leader_enter b t now r = Ok (b', ef, out) ∧
    sees (value_of b) ef ∧ (∀ key, value_of b' key = apply_effect ef (value_of b) key) ∧
    match out with
    | inl m => valid_at home b' (<[t := m]> ms) ∧ asked_by m = r ∧ acted_so_far m = ef
    | inr a => valid_at home b' ms ∧ answers lossy r ef a
    end.
Proof.
  intros Hv Ht. unfold leader_enter. destruct (Node.isPaused (base (ldr (core b)))) eqn:Hp; [by eexists _, _, _|].
  destruct r as [n key v cl|n key cl|n key cl].
  - destruct (stamp_ok home b ms t now (RWrite n key v cl) key v OpSet Hv Ht Hp) as (b' & Ha & Hval & Hv'); [by intros e ???|].
    cbn [client_of] in Ha. rewrite Ha, Res_bind_Ok. by eexists _, _, _.
  - destruct (stamp_ok home b ms t now (RDelete n key cl) key None OpDelete Hv Ht Hp) as (b' & Ha & Hval & Hv'); [by intros e ???|].
    cbn [client_of] in Ha. rewrite Ha, Res_bind_Ok. by eexists _, _, _.
  - destruct (Store.Get (l_store (ldr (core b))) key) as [e|] eqn:He; [|by eexists _, _, _].
    eexists _, _, _. split_and!; [done| |done|]; [cbn; unfold value_of; by rewrite He|]. split_and!; [|done..].
    destruct Hv as [Hh Hm Hg Hc]. split; [done..|]. intros t'. destruct (decide (t' = t)) as [->|Hne].
    + rewrite lookup_insert_eq. specialize (Hc t). rewrite Ht in Hc. split; [done|eauto].
    + rewrite lookup_insert_ne by done. apply Hc.
Qed.

(** After broadcasting, a write that is not asynchronous waits. *)
Lemma stored_waits home b ms t y r e s :
  valid_at home b ms → effect_of r ≠ None → mode (ldr (core b)) ≠ ModeAsync → good (MkRunning y (fabric b)) →
  l_id (ldr y) = l_id (ldr (core b)) → mode (ldr y) = mode (ldr (core b)) → l_store (ldr y) = l_store (ldr (core b)) →
  calls y = delete t (calls (core b)) →
  ∃ b' ef out, Ok (MkRunning y (fabric b), None, inl (MWaiting r e s)) = Ok (b', ef, out) ∧
    (acted_so_far (MStored r) = None ∨ ef = None) ∧ sees (value_of b) ef ∧ (∀ key, value_of b' key = apply_effect ef (value_of b) key) ∧
    match out with
    | inl m' => valid_at home b' (<[t := m']> ms) ∧ asked_by m' = asked_by (MStored r) ∧ acted_so_far m' = so_far (acted_so_far (MStored r)) ef
    | inr a => valid_at home b' (delete t ms) ∧ answers lossy (asked_by (MStored r)) (so_far (acted_so_far (MStored r)) ef) a
    end.
Proof.
  intros Hv Hr Hm Hgood Hid Hmode Hst Hcalls. eexists _, _, _. split_and!; [done|by right|done| |split_and!].
  - intros key. unfold value_of. cbn. by rewrite Hst.
  - apply (valid_move home b ms t y (Some (MWaiting r e s)) None); try done. split_and!; [done| |done].
    destruct lossy eqn:El; [done|]. destruct Hm. by apply Hv.
  - done.
  - cbn. by destruct (effect_of r).
Qed.

Lemma leader_advance_ok home b ms t now m : valid_at home b ms → ms !! t = Some m →
  ∃ b' ef out, leader_advance b t now m = Ok (b', ef, out) ∧
    (acted_so_far m = None ∨ ef = None) ∧ sees (value_of b) ef ∧ (∀ key, value_of b' key = apply_effect ef (value_of b) key) ∧
    match out with
    | inl m' => valid_at home b' (<[t := m']> ms) ∧ asked_by m' = asked_by m ∧ acted_so_far m' = so_far (acted_so_far m) ef
    | inr a => valid_at home b' (delete t ms) ∧ answers lossy (asked_by m) (so_far (acted_so_far m) ef) a
    end.
Proof.
  intros Hv Ht. pose proof Hv as [_ Hmode Hg Hc]. specialize (Hc t). rewrite Ht in Hc.
  destruct m as [r|r|r|r e s|r e]; cbn [call_ok] in Hc; cbn [leader_advance].
  - destruct Hc as (cl & e & Hc & Hr). destruct (act_Ok b (AAppend t) Hg eq_refl) as (y & Hy & Hact & Hgood).
    cbn [SingleLeader.sys_step] in Hy. rewrite Hc in Hy. unfold append in Hy.
    destruct (Log.Append _ e) as [idx l]. injection Hy as <-. rewrite Hact, Res_bind_Ok.
    eexists _, _, _. split_and!; [done|by left|done|done|]. split_and!; [|done..].
    eapply (valid_move _ _ _ t _ (Some _)); try done. cbn [call_ok]. eexists _, _. split; [done|]. by destruct r.
  - destruct Hc as (cl & e & Hc & Hr). destruct (act_Ok b (AStore t) Hg eq_refl) as (y & Hy & Hact & Hgood).
    cbn [SingleLeader.sys_step] in Hy. rewrite Hc in Hy. destruct (store_entry (ldr (core b)) e cl) as [n|] eqn:He; [|done].
    simpl in Hy. injection Hy as <-. destruct (store_entry_effect _ _ _ r _ He Hr) as (H1 & H2 & H3). rewrite Hact, Res_bind_Ok.
    eexists _, _, _. split_and!; [done|by left|by destruct r|done|]. split_and!; [|done..].
    eapply (valid_move _ _ _ t _ (Some _)); try done. cbn [call_ok]. by eexists _, _.
  - destruct Hc as (cl & e & Hc & Hr). destruct (act_Ok b (ASend t) Hg eq_refl) as (y & Hy & Hact & Hgood).
    cbn [SingleLeader.sys_step] in Hy. rewrite Hc in Hy. injection Hy as Hy. rewrite Hact, Res_bind_Ok.
    destruct (mode (ldr (core b))) eqn:Hm.
    + exists (MkRunning y (fabric b)), None, (inr (success r (done_entry (core b) t))).
      split_and!; [done|by right|done|by rewrite <- Hy| |by destruct r].
      by apply (valid_move home b ms t _ None None); [done|done|rewrite <- Hy..|].
    + apply stored_waits; [done|by destruct r|by rewrite Hm|done|by rewrite <- Hy..].
    + apply stored_waits; [done|by destruct r|by rewrite Hm|done|by rewrite <- Hy..].
  - destruct Hc as (Hc & Hl & Hr). destruct (act_Ok b (AAwaitEnd s) Hg eq_refl) as (y & Hy & Hact & Hgood). rewrite Hact, Res_bind_Ok.
    assert (Hkept : kept (core b) y).
    { cbn [SingleLeader.sys_step] in Hy. unfold await_end in Hy. destruct (ackChs (ldr (core b)) !! s); by injection Hy as <-. }
    eexists _, _, _. split_and!; [done|by right|done| |split].
    + intros k. unfold value_of. cbn. by rewrite (proj1 Hkept).
    + apply valid_gone; [by apply valid_kept|]. cbn. by rewrite (proj2 (proj2 (proj2 Hkept))).
    + destruct (default false _); destruct r; by simpl.
  - destruct Hc as (Hc & n & key & cl & ->). destruct (check_read_spec (ldr (core b)) e cl) as (x & Hx & Hk).
    cbn [client_of]. rewrite Hx, Res_bind_Ok.
    destruct x as [err|n']; [eexists _, _, _; split_and!; [done|by right|done|done|]; split; [by apply valid_gone|done]|].
    destruct (act_Ok b (ALeaderCheck e cl) Hg eq_refl) as (y & Hy & Hact & Hgood).
    cbn [SingleLeader.sys_step] in Hy. rewrite Hx in Hy. simpl in Hy. injection Hy as <-. rewrite Hact, Res_bind_Ok.
    destruct Hk as ([_ _ _ _ Hid] & Hst & Hmd).
    assert (Hkept : kept (core b) (set_ldr (core b) n' [])) by by split_and!.
    eexists _, _, _. split_and!; [done|by right|done| |]; [intros k; unfold value_of; cbn; by rewrite Hst|]. split; [|done].
    apply valid_gone; [by apply valid_kept|done].
Qed.

#[local] Instance register (home : string) : Register Net method Z (@Runtime.action float SingleLeader.action Z) (background lossy) home lossy.
Proof.
  refine {| value := value_of; valid := valid_at home; asked := asked_by; acted := acted_so_far |}.
  - intros b ms t now r Hv Ht Hn. cbn [enter backend]. rewrite decide_True by (rewrite Hn; symmetry; apply Hv). by apply leader_enter_ok.
  - intros b ms t now m Hv Ht. by apply leader_advance_ok.
  - intros b ms x Hv. assert (∃ b', background lossy b x = Ok b' ∧ good b') as (b' & Hb & Hg').
    { unfold background. destruct (unasked lossy x); [apply good_step, Hv|]. exists b. split; [done|apply Hv]. }
    pose proof (background_kept _ _ _ Hb) as (Hs & Hm & Hid & Hc). exists b'. split_and!; [done| |].
    + destruct Hv as [H1 H2 H3 H4]. split; [congruence|intros Hl; rewrite Hm; auto|done|by rewrite Hc].
    + intros key. unfold value_of. by rewrite Hs.
Defined.
End register.
End backend.

(** ** A cluster in service *)

Section service.
Context {float : Type} (fltb : float → float → bool) (fzero : float).
Import Cluster.

(** The node a call goes to. *)
Definition target_of (c : @Cluster float) (n : string) : option string := (λ a, Node.id (any_base a)) <$> target_node c n n.

(** Nobody has called the cluster yet. *)
Definition opened (c : @Cluster float) (y : SingleLeader.Sys) (b : Bus.EventBus (D := string)) (now : Z) : World (B := @Runtime.Running float SingleLeader.Sys) (M := method) :=
  MkWorld (MkRunning y (Fabric c)) (Lin.MkHistory []) (Metrics.NewClusterMetrics (ID c) (Strategy (Config c)) now) b now ∅ [].

Definition serve (lossy : bool) (c : @Cluster float) : World → list (Service.action (I := Z)) → Res World :=
  Service.run (H := backend fltb fzero) (background fltb fzero lossy) (ID c) (Config c) (target_of c).

(** A call names the leader or no node. *)
Definition to_leader (c : @Cluster float) (a : Service.action (I := Z) (K := @Runtime.action float SingleLeader.action Z)) : Prop :=
  match a with
  | Spawn _ (CWrite n _ _ _) | Spawn _ (CDelete n _ _) | Spawn _ (CRead n _ _) => n = "" ∨ n = LeaderID c
  | _ => True
  end.

Lemma leader_target (c : @Cluster float) l n : Nodes c !! LeaderID c = Some (LeaderN l) → l_id l = LeaderID c → LeaderID c ≠ "" →
  String.eqb (Strategy (Config c)) "raft" = false → n = "" ∨ n = LeaderID c → target_of c n = Some (LeaderID c).
Proof.
  intros Hl Hid Hne Hr Hn. unfold target_of, target_node. rewrite Hr, andb_false_r. destruct Hn as [-> | ->]; simpl.
  - rewrite (proj2 (String.eqb_neq _ _) Hne). simpl. rewrite Hl. simpl. f_equal. exact Hid.
  - rewrite (proj2 (String.eqb_neq _ _) Hne). simpl. rewrite Hl. simpl. f_equal. exact Hid.
Qed.

Lemma single_started codec vc_string id cfg (c : @Cluster float) :
  strategy_of (Strategy cfg) = Some Node.StrategySingleLeader → createClusterCore codec vc_string id cfg = Ok (inr c) →
  ∃ y, ClusterRuntime.single_start c = Some y ∧ Nodes c !! LeaderID c = Some (LeaderN (ldr y)) ∧ l_id (ldr y) = LeaderID c ∧
    mode (ldr y) = mode_of (ReplicationMode cfg) ∧ calls y = ∅ ∧ l_store (ldr y) = Store.NewStore ∧ good (MkRunning y (Fabric c)).
Proof.
  intros Hs Hc. destruct (ClusterRuntime.single_core _ _ _ _ _ Hs Hc) as (fs & y & _ & Hstart & Hrun).
  exists y. split; [done|]. assert (Hgood : good (MkRunning y (Fabric c))).
  { exists y. split; [|by eapply SingleLeader.reachable_inv]. by apply sim_start, ClusterRuntime.idle_carried, (ClusterRuntime.core_idle _ _ _ _ _ Hc). }
  unfold ClusterRuntime.single_start in Hstart. destruct (Nodes c !! LeaderID c) as [[l| | | |]|]; try done. injection Hstart as <-.
  unfold sys_init in Hrun. rewrite ClusterRuntime.single_AddPeers in Hrun. injection Hrun as Hl _.
  assert (Hkeep : ∀ ps n, let n' := foldl AddPeer n ps in l_id n' = l_id n ∧ mode n' = mode n ∧ l_store n' = l_store n).
  { induction ps as [|p ps IH]; intros n; [done|]. simpl. destruct (IH (AddPeer n p)) as (-> & -> & ->).
    unfold AddPeer, l_id, l_store. simpl. unfold Node.AddPeer. by repeat case_match. }
  specialize (Hkeep fs (NewSingleLeaderNode (LeaderID c) (mode_of (ReplicationMode cfg)))). simpl in *. rewrite Hl in Hkeep.
  destruct Hkeep as (H1 & H2 & H3). by split_and!.
Qed.

End service.

End LeaderService.

Import SingleLeader Runtime Service LeaderService Cluster Membership.


(** ** Calls that run *)

Definition all_returned {float} (w : World (B := @Runtime.Running float SingleLeader.Sys) (M := method)) : bool :=
  forallb (λ p, match p.2 with Service.Running (Return _) => true | _ => false end) (map_to_list (threads w)).

Lemma all_returned_rest {float} (w : World (B := @Runtime.Running float SingleLeader.Sys)) : all_returned w = true → at_rest w.
Proof.
  unfold all_returned. rewrite forallb_forall. intros Hall t th Ht. specialize (Hall (t, th)).
  destruct th as [[r|]|]; [by exists r|..]; (discriminate Hall; apply list_elem_of_In, elem_of_map_to_list, Ht).
Qed.

Definition demo_serve (cfg : ClusterConfig) (acts : list (Service.action (I := Z))) : option (World (B := @Runtime.Running unit SingleLeader.Sys)) :=
  match createClusterCore no_codec (λ _, "") demo_cluster_id cfg with
  | Ok (inr c) =>
      match ClusterRuntime.single_start c with
      | Some y => match serve (λ _ _, false) tt false c (opened c y (Bus.NewEventBus 10) 0) acts with Ok w => Some w | Panic => None end
      | None => None
      end
  | _ => None
  end.

Definition exec (t n : nat) : list (Service.action (I := Z) (K := @Runtime.action unit SingleLeader.action Z)) :=
  repeat (Exec t 5%Z "") n ++ [Tick 1].

(** A write has reached the leader's store; a read then runs from beginning to end. *)
Definition read_during_write : list (Service.action (I := Z) (K := @Runtime.action unit SingleLeader.action Z)) :=
  Spawn 0 (CWrite "" "x" (Some "1") "a") :: exec 0 6 ++ Spawn 1 (CRead "" "x" "b") :: exec 1 9.

(** The write goes on to its end, and the key is deleted. *)
Definition and_then : list (Service.action (I := Z) (K := @Runtime.action unit SingleLeader.action Z)) :=
  exec 0 5 ++ Spawn 2 (CDelete "" "x" "a") :: exec 2 7.

Definition sync_cfg : ClusterConfig := MkCfg "single_leader" 3 "sync" "" 0 0 0 0 0 "" "" None.

(** No follower acknowledges the write in time; then its key is read. *)
Definition read_after_timeout : list (Service.action (I := Z) (K := @Runtime.action unit SingleLeader.action Z)) :=
  Spawn 0 (CWrite "" "x" (Some "1") "a") :: exec 0 8 ++ Spawn 1 (CRead "" "x" "b") :: exec 1 9.

(** The outcome of a call, if it has returned, and the value it read. *)
Definition outcome_of (r : result) : bool * option string :=
  match r with Done _ (ReadIs e) => (true, Some (text e)) | Done _ _ => (true, None) | _ => (false, None) end.

Definition outcome (w : World (B := @Runtime.Running unit SingleLeader.Sys) (M := method)) (t : nat) : option (bool * option string) :=
  match threads w !! t with Some (Service.Running (Return r)) => Some (outcome_of r) | _ => None end.

(** Whether all calls have returned, the outcomes of the first two, the counters and the checker's verdict. *)
Definition report (w : World (B := @Runtime.Running unit SingleLeader.Sys) (M := method)) :=
  (all_returned w, outcome w 0, outcome w 1, (Metrics.TotalWrites (metrics w), Metrics.TotalReads (metrics w)),
   Lin.CheckRegister (Lin.Ops (Service.history w))).


